(* ===== verification/_CoqProject ===== *)
-Q . S2P
Prelude.v
GoStrings.v
GoIO.v
Blocklist.v
Clamd.v
ScanConfig.v
ScanUtil.v
Services.v
SyncMap.v
ResultCache.v
ScanJob.v
Trickle.v
Http.v
Logger.v
Tunnel.v
Bridge.v
Manager.v
Endpoint.v
ScanTransport.v
Server.v
Forward.v
Sync.v
Domain.v
Postgres.v
Pagination.v
Store.v
Overlap.v
Propagation.v
ScanSettings.v
Api.v
EndToEnd.v
Ca.v
CertCache.v
Programs.v
