(* ===== verification/Prelude.v ===== *)
(** * Verification of the filtering proxy

    The repository is a TLS-intercepting HTTP proxy in Go ([cmd/proxy]) that
    blocks domains, scans downloads with clamd and logs requests, and an HTTP API
    ([cmd/api]) through which operators keep the blocklist and the scan settings.
    The two programs share PostgreSQL (API only) and Redis.  This library models
    the Go packages under [internal] and the two [main] functions,
    as executable definitions that follow the code, and proves what they do.

    ** How the parts interact

    A request reaches [Server.ServeHTTP].  A CONNECT becomes a tunnel
    ([Forward.handleConnect]): the connection is taken over, a leaf certificate
    is obtained ([CertCache.GetCert], signed by the authority of [Ca]) and the
    decrypted requests are served by [Tunnel.serveConnLoop].  Any other request is
    answered by the proxy itself, refused, or forwarded
    ([Forward.handlePlain]).  Both ways consult the blocklist in force
    ([Blocklist.IsBlocked]), both send their upstream requests through
    [ScanTransport.scanRoundTrip], which diverts scannable downloads to the scan
    manager ([Manager]), and both log to the sender of [Logger].  A diverted
    download is a job: the goroutine [ScanJob.runScan] reads the upstream body
    into a file and into clamd ([Clamd]), with the verdicts cached in
    [ResultCache]; a browser polls the page and the status of [Endpoint] and then
    fetches the file, any other client reads a [Trickle] body meanwhile.

    The API ([Api]) turns requests into changes of the store ([Store],
    [ScanSettings], [Pagination]): a transaction on PostgreSQL, then commands to
    Redis, which notify the proxy's synchronisation goroutines ([Sync]).
    [Propagation] and [EndToEnd] put these together.

    ** Files

    - [Prelude]: bytes, machine integers, shared lemmas and tactics.
    - [GoStrings], [GoIO], [Http]: what the code uses of Go's library: strings,
      readers and writers ([IOReader] is the interface that the readers of the
      program implement and their clients rely on), numbers in text, headers,
      messages, and a reference reader of HTTP/1.1 and of chunked coding.
    - [Services], [SyncMap], [Postgres]: the environment.  Redis, JSON, SHA-256 and
      the SQL statements are type classes with laws, each with an instance;
      [SyncMap] is shared memory as programs over the calls of [sync.Map] and
      [atomic.Int64], run alone ([run]) or interleaved call by call ([pool_step]),
      with a thread-modular proof rule ([safe_pool]).
    - [Blocklist] (internal/proxy/blocklist.go), [Domain] (the regular expression
      of internal/api/handler.go), [ScanConfig] and [ScanUtil] (internal/scan/
      config.go, util.go): pure functions, same names as in the code.
    - [Clamd] (clamd.go): the INSTREAM framing and the reply parser.
    - [ResultCache] (cache.go), [CertCache] (internal/cert/leaf.go): the two caches.
    - [Ca] (internal/cert/ca.go): loading and creating the authority.
    - [ScanJob] (manager.go: Job, runScan): the goroutine as the list of the events
      it performs on the shared job, for it never waits for its reader.
    - [Trickle] (trickle.go): [Read] as a state machine, one step per access to the
      shared job or per [select] branch, interleaved with those events.
    - [Manager], [Endpoint] (manager.go, endpoint.go): the registry and handlers.
    - [Logger] (internal/logger): formatting, and the sender's queue and goroutine.
    - [Tunnel], [Bridge], [ScanTransport], [Server], [Forward] (internal/proxy: tunnel.go
      twice, [Bridge] being [loopBridge] with its two goroutines step by step;
      timed_transport.go, scantransport.go; handler.go, magichost.go; connect.go
      and handlePlain): the request paths.
    - [Sync] (blocklist_sync.go, scanconfig_sync.go): one step per event of the
      goroutine, with its reconnection delays.
    - [Pagination], [Store], [Overlap], [ScanSettings], [Api] (internal/api); [Overlap]
      interleaves the halves of concurrent changes, commit and Redis pipeline, and
      [ScanSettings.sstep] the statements, queries and writes of concurrent changes
      of the settings.
    - [Propagation], [EndToEnd]: store, changes in flight, Redis, synchronisation and
      proxy as one transition system.
    - [Programs] (cmd): the two [main] functions: environment variables, start,
      [NewServer], shutdown, and what holds of a proxy and an API started together.

    State is explicit: a record per component with the fields of the Go struct
    (a pointer that may be nil is an option, an atomic pointer its current value),
    and an operation is a function on it; an error is [None], [inr] or a status.
    Transactions are a state-and-error monad ([Store.txM]).

    ** What is shown

    - Blocking: the trie with the exact set decides exactly what the entries say;
      in both request paths nothing blocked is forwarded, blocked requests are
      answered and logged; a domain that the API accepts is blocked by the proxy
      once its notification is handled ([EndToEnd]), and after any history of
      overlapping changes, lost notifications, closed channels and reconnections
      ([Propagation]).  A notification can be lost without the proxy noticing, and
      its change is then enforced with the next one that arrives; all this supposes
      that Redis runs the pipelines and that no commit fails after the fact.
    - Scanning: what passes unscanned and why; the outcome of a job in every case;
      a file or tail is handed out clean, oversized or unscanned by error only, and
      clean only on evidence; command-line clients receive at most a byte a tick
      before the verdict and then exactly the body, and an infected one never with
      a regular end; each [Read] ends; browsers reach the page of their own job.
      What is said of the content of files supposes that the file opens, its disk
      does not fill and the limit does not change during the scan, and the body is
      what arrives of it.
    - Upgraded connections: the bridge delivers in order, is ended by a peer or by
      five silent minutes only, and returns, provided that the upstream reads.
    - Wire formats: clamd frames, RFC 5424 data and relayed responses read back as
      what was written; pipelined responses do not run into each other, unless an
      answer that may have no body has no announced length either.
    - Caches: no interleaving hands out a verdict or a certificate under another
      key, or a certificate about to expire; sequential counters and capacities;
      reuse within the time to live, and how Redis restarts it.
    - API: tables stay well formed, requests without the key change nothing, each
      change is atomic with its audit row, status codes tell the truth (an internal
      error only when PostgreSQL reports one, [Store.dbError]), Redis and the audit
      log follow the table, also when changes of different domains overlap,
      pages partition the list, numbers stay in bounds, settings reach the proxy
      unless an overlapping change overtakes them, the seeds agree with the defaults.
    - Start: a created authority is the one that later starts load, that clients
      download and that signs every leaf, across restarts, if Redis held no leaves
      before it; a proxy started on the Redis of a started API enforces the tables
      from its first request, if PostgreSQL and Redis answered both starts
      ([Programs.servicesUp]).
    - Flaws, as theorems or lemmas next to the code they are about: a blocked
      tunnel host is reachable under another Host field, an aborted download looks
      complete in a tunnel, chunk framing in a closed response and after answers that
      have no body, an unescaped title, truncation when clamd is down or the limit
      is raised meanwhile, a broken body passed on as complete, a leaked upstream
      body, drifting counters, the order of Redis writes, overtaken settings, failed
      pipelines, lost notifications and the gap before the subscription, unchecked
      products, a bridge that can hang, leaves of a replaced authority, undocumented
      variables.

    ** Bounds and fuel

    Machine integers are [Z] with [wrap64] where the code can overflow; lengths of
    Go slices are natural numbers.  Recursion that is not structural has fuel from
    a measure of its input, and a lemma that it is enough: [drainFuel] exceeds the
    measure that every successful [Read] decreases ([drain_total]); [fmtN] takes
    the bit length ([parseN_fmtN]); header and chunk readers take the length of
    their input; [Trickle.trickle_read_returns] bounds the steps of a [Read] by
    an explicit measure, and [Bridge.bridge_returns] the calls of the bridge.  Time
    is a number given to each operation or a step.

    ** Parameters

    Redis and its URLs, SQL, JSON, SHA-256, X.509 and PEM, the TLS handshake,
    ServeMux's own replies, [httputil.ReverseProxy], clamd, the upstream transport,
    the file system of [Ca], and case mapping and quoting outside ASCII.  Their laws
    state documented behaviour; each has an instance on which the witnesses run.  JSON
    carries a configuration unchanged if its patterns are UTF-8
    ([ScanSettings.jsonText]), which is what PostgreSQL keeps
    ([ScanSettings.tablesText]).

    ** Not modelled

    Listening and the delivery of signals; contexts; [sync.Pool]; the tuning of the
    base transport; Range requests of [http.ServeContent]; failures of [ReadAt] on a
    temporary file; the [publishChange] function, which nothing calls; logging to
    stderr; user information in URLs; that the cache changes when a scan ends and
    not when it starts ([Manager.goRunScan] applies both at once); the React front
    end, nginx and compose files.  A deadline other than the bridge's is a failure of
    the connection or of the read.  Transactions are taken one after the other, as
    PostgreSQL isolates them.
*)
From stdpp Require Export base tactics list strings gmap.
From Stdlib Require Export ZArith Lia Ascii.

(** ** Bytes *)

(** A Go [string] and a Go [[]byte] are both sequences of bytes; they are
    modelled by the same type, so the conversions between them are free. *)
Abbreviation bytes := (list Ascii.ascii).
Abbreviation byte := Ascii.ascii.
Abbreviation str := String.list_ascii_of_string.

Coercion String.list_ascii_of_string : String.string >-> list.
#[global] Arguments cons {A} & a l.
Open Scope string_scope.
Open Scope list_scope.

(** The numeric value of a byte. *)
Definition byte_val (c : byte) : N := Ascii.N_of_ascii c.
Definition byte_of (n : N) : byte := Ascii.ascii_of_N n.

Definition dot : byte := "."%char.
Definition colon : byte := ":"%char.
Definition slash : byte := "/"%char.
Definition dquote : byte := byte_of 34.
Definition CR : byte := byte_of 13.
Definition LF : byte := byte_of 10.
Definition CRLF : bytes := [CR; LF].

Example literal_list : list bytes := ["ab"; "c"].

(** A closed decidable fact, by evaluation. *)
Ltac decide_closed := apply (bool_decide_unpack _); vm_compute; exact I.

(** ** Machine integers *)

(** Two's complement wrap-around of Go's [int64] (and [int] on the 64-bit
    platforms the images are built for). *)
Definition wrap64 (z : Z) : Z := ((z + 2 ^ 63) mod 2 ^ 64 - 2 ^ 63)%Z.

Definition int64_range (z : Z) : Prop := (- 2 ^ 63 ≤ z < 2 ^ 63)%Z.

Lemma wrap64_id (z : Z) : int64_range z → wrap64 z = z.
Proof.
  unfold int64_range, wrap64. intros H.
  rewrite Z.mod_small; [lia|]. change (2 ^ 64)%Z with (2 * 2 ^ 63)%Z. lia.
Qed.

Lemma wrap64_range (z : Z) : int64_range (wrap64 z).
Proof.
  unfold int64_range, wrap64.
  pose proof (Z.mod_pos_bound (z + 2 ^ 63) (2 ^ 64) ltac:(lia)).
  change (2 ^ 64)%Z with (2 * 2 ^ 63)%Z in *. lia.
Qed.

(** ** Generic lemmas on lists *)

Section lists.
Context {A : Type}.
Implicit Types l k : list A.

Lemma not_elem_of_app_cons_inj (x : A) (a b : list A) (c d : list A) :
  x ∉ a → x ∉ c → a ++ x :: b = c ++ x :: d → a = c ∧ b = d.
Proof.
  revert c. induction a as [|y a IH]; intros [|z c] Ha Hc Heq;
    simplify_eq/=; [done|set_solver|set_solver|].
  destruct (IH c) as [-> ->]; set_solver.
Qed.

Lemma rev_eq_nil l : rev l = [] ↔ l = [].
Proof.
  split; [|by intros ->].
  intros H. apply (f_equal (@length A)) in H. rewrite length_rev in H.
  by apply nil_length_inv.
Qed.
End lists.
