(* ===== verification/GoStrings.v ===== *)
(** * The Go string functions the program calls

    Executable models of the functions of Go's [strings] and [net] packages
    (and of slicing) that the sources use, over byte sequences, with the
    lemmas the components share.  Case mapping of non-ASCII text needs the
    Unicode tables and is the parameter [Unicode]; everything else is
    defined. *)
From S2P Require Import Prelude.

Create Rewrite HintDb gostr.

(** ** Prefixes and suffixes *)

(** [strings.HasPrefix]: the length test and the slice comparison of Go. *)
Definition HasPrefix (s p : bytes) : bool :=
  (length p <=? length s)%nat && bool_decide (take (length p) s = p).

(** [strings.HasSuffix]. *)
Definition HasSuffix (s p : bytes) : bool :=
  (length p <=? length s)%nat && bool_decide (drop (length s - length p) s = p).

(** [strings.TrimPrefix], [strings.TrimSuffix], [strings.CutPrefix]. *)
Definition TrimPrefix (s p : bytes) : bytes :=
  if HasPrefix s p then drop (length p) s else s.

Definition TrimSuffix (s p : bytes) : bytes :=
  if HasSuffix s p then take (length s - length p) s else s.

Definition CutPrefix (s p : bytes) : option bytes :=
  if HasPrefix s p then Some (drop (length p) s) else None.

Lemma HasPrefix_app (p r : bytes) : HasPrefix (p ++ r) p = true.
Proof.
  unfold HasPrefix. rewrite andb_true_iff, Nat.leb_le, bool_decide_eq_true.
  rewrite length_app, take_app_length. split; [lia|done].
Qed.

Lemma HasPrefix_spec (s p : bytes) : HasPrefix s p = true ↔ ∃ r, s = p ++ r.
Proof.
  split; [|intros [r ->]; apply HasPrefix_app].
  unfold HasPrefix. rewrite andb_true_iff, Nat.leb_le, bool_decide_eq_true.
  intros [_ H]. exists (drop (length p) s). by rewrite <-H at 1; rewrite take_drop.
Qed.

Lemma HasSuffix_app (p r : bytes) : HasSuffix (r ++ p) p = true.
Proof.
  unfold HasSuffix. rewrite andb_true_iff, Nat.leb_le, bool_decide_eq_true.
  rewrite length_app. split; [lia|].
  replace (length r + length p - length p)%nat with (length r) by lia.
  apply drop_app_length.
Qed.

Lemma HasSuffix_spec (s p : bytes) : HasSuffix s p = true ↔ ∃ r, s = r ++ p.
Proof.
  split; [|intros [r ->]; apply HasSuffix_app].
  unfold HasSuffix. rewrite andb_true_iff, Nat.leb_le, bool_decide_eq_true.
  intros [_ H]. exists (take (length s - length p) s).
  by rewrite <-H at 2; rewrite take_drop.
Qed.

Lemma TrimPrefix_app (p r : bytes) : TrimPrefix (p ++ r) p = r.
Proof. unfold TrimPrefix. by rewrite HasPrefix_app, drop_app_length. Qed.

Lemma TrimSuffix_app (p r : bytes) : TrimSuffix (r ++ p) p = r.
Proof.
  unfold TrimSuffix. rewrite HasSuffix_app, length_app.
  replace (length r + length p - length p)%nat with (length r) by lia.
  apply take_app_length.
Qed.

Lemma CutPrefix_app (p r : bytes) : CutPrefix (p ++ r) p = Some r.
Proof. unfold CutPrefix. by rewrite HasPrefix_app, drop_app_length. Qed.

Lemma CutPrefix_Some (s p r : bytes) : CutPrefix s p = Some r ↔ s = p ++ r.
Proof.
  split; [|intros ->; apply CutPrefix_app].
  unfold CutPrefix. destruct (HasPrefix s p) eqn:H; [|done].
  apply HasPrefix_spec in H as [k ->]. rewrite drop_app_length. by intros [= ->].
Qed.

#[export] Hint Rewrite HasPrefix_app HasSuffix_app TrimPrefix_app TrimSuffix_app
  CutPrefix_app : gostr.

(** ** Searching for a byte *)

(** [strings.IndexByte]; [None] is Go's -1. *)
Fixpoint IndexByte (s : bytes) (c : byte) : option nat :=
  match s with
  | [] => None
  | x :: s' => if decide (x = c) then Some 0%nat else S <$> IndexByte s' c
  end.

(** [bytealg.LastIndexByteString]; [None] is Go's -1. *)
Fixpoint LastIndexByte (s : bytes) (c : byte) : option nat :=
  match s with
  | [] => None
  | x :: s' =>
      match LastIndexByte s' c with
      | Some i => Some (S i)
      | None => if decide (x = c) then Some 0%nat else None
      end
  end.

Lemma IndexByte_None (s : bytes) c : IndexByte s c = None ↔ c ∉ s.
Proof.
  induction s as [|x s IH]; simpl; [set_solver|].
  destruct (decide (x = c)) as [->|Hne]; [set_solver|].
  rewrite fmap_None, IH. set_solver.
Qed.

Lemma IndexByte_app (a r : bytes) c : c ∉ a → IndexByte (a ++ c :: r) c = Some (length a).
Proof.
  induction a as [|x a IH]; intros Ha; simpl.
  - by rewrite decide_True.
  - rewrite decide_False by set_solver. rewrite IH by set_solver. done.
Qed.

Lemma IndexByte_Some (s : bytes) c i :
  IndexByte s c = Some i → s = take i s ++ c :: drop (S i) s ∧ c ∉ take i s.
Proof.
  revert i. induction s as [|x s IH]; intros i; simpl; [done|].
  destruct (decide (x = c)) as [->|Hne].
  - intros [= <-]. simpl. split; [done|set_solver].
  - intros H. apply fmap_Some in H as (j & Hj & ->). simpl.
    destruct (IH _ Hj) as [Heq Hin]. split; [by rewrite <-Heq|set_solver].
Qed.

Lemma LastIndexByte_None (s : bytes) c : LastIndexByte s c = None ↔ c ∉ s.
Proof.
  induction s as [|x s IH]; simpl; [set_solver|].
  destruct (LastIndexByte s c) as [i|].
  - split; [done|]. destruct IH as [_ IH]. set_solver.
  - destruct IH as [IH _]. specialize (IH eq_refl).
    destruct (decide (x = c)) as [->|Hne]; split; set_solver.
Qed.

Lemma LastIndexByte_app (a r : bytes) c :
  c ∉ r → LastIndexByte (a ++ c :: r) c = Some (length a).
Proof.
  intros Hr. induction a as [|x a IH]; simpl.
  - apply LastIndexByte_None in Hr. rewrite Hr. by rewrite decide_True.
  - by rewrite IH.
Qed.

#[export] Hint Rewrite IndexByte_app LastIndexByte_app using (set_solver) : gostr.

(** [strings.Contains]. *)
Fixpoint Contains (s sub : bytes) : bool :=
  HasPrefix s sub ||
  match s with [] => false | _ :: s' => Contains s' sub end.

Lemma Contains_spec (s sub : bytes) : Contains s sub = true ↔ ∃ a b, s = a ++ sub ++ b.
Proof.
  induction s as [|x s IH]; simpl; rewrite orb_true_iff, HasPrefix_spec.
  - split.
    + intros [[r ->]|]; [by exists [], r|done].
    + intros (a & b & H). symmetry in H. apply app_nil in H as [_ H]. left. by exists b.
  - rewrite IH. split.
    + intros [[r ->]|(a & b & ->)]; [by exists [], r|by exists (x :: a), b].
    + intros ([|y a] & b & H); simplify_eq/=; [left; by exists b|right; by exists a, b].
Qed.

(** ** Splitting at a one-byte separator *)

(** [strings.Split(s, sep)] for a one-byte [sep]: never empty. *)
Fixpoint Split (s : bytes) (sep : byte) : list bytes :=
  match s with
  | [] => [[]]
  | c :: s' =>
      if decide (c = sep) then [] :: Split s' sep
      else match Split s' sep with
           | p :: ps => (c :: p) :: ps
           | [] => [[c]]
           end
  end.

(** [strings.Join] for a one-byte separator. *)
Fixpoint Join (ps : list bytes) (sep : byte) : bytes :=
  match ps with
  | [] => []
  | [p] => p
  | p :: ps' => p ++ sep :: Join ps' sep
  end.

Lemma Split_not_nil (s : bytes) sep : Split s sep ≠ [].
Proof. destruct s as [|c s]; simpl; [done|]. case_decide; [done|]. by destruct (Split s sep). Qed.

Lemma Split_no_sep (s : bytes) sep : sep ∉ s → Split s sep = [s].
Proof.
  induction s as [|c s IH]; intros H; simpl; [done|].
  rewrite decide_False by set_solver. rewrite IH by set_solver. done.
Qed.

Lemma Split_app_sep (a r : bytes) sep : Split (a ++ sep :: r) sep = Split a sep ++ Split r sep.
Proof.
  induction a as [|c a IH]; simpl; [by rewrite decide_True|].
  rewrite IH. case_decide; [done|].
  destruct (Split a sep) eqn:Ha; [by apply Split_not_nil in Ha|done].
Qed.

Lemma Join_cons p ps sep : ps ≠ [] → Join (p :: ps) sep = p ++ sep :: Join ps sep.
Proof. by destruct ps. Qed.

Lemma Join_Split (s : bytes) sep : Join (Split s sep) sep = s.
Proof.
  induction s as [|c s IH]; simpl; [done|].
  case_decide as Hc.
  - subst. rewrite Join_cons by apply Split_not_nil. by rewrite IH.
  - destruct (Split s sep) as [|p ps] eqn:Hs; [by apply Split_not_nil in Hs|].
    destruct ps as [|q ps]; simpl in *; congruence.
Qed.

Lemma Join_app ps qs sep :
  ps ≠ [] → qs ≠ [] → Join (ps ++ qs) sep = Join ps sep ++ sep :: Join qs sep.
Proof.
  induction ps as [|p ps IH]; intros Hp Hq; [done|].
  destruct ps as [|p' ps]; [by apply Join_cons|].
  change ((p :: p' :: ps) ++ qs) with (p :: ((p' :: ps) ++ qs)).
  rewrite !Join_cons by done. rewrite IH by done. by rewrite <-app_assoc.
Qed.

Lemma Split_inj (s t : bytes) sep : Split s sep = Split t sep → s = t.
Proof. intros H. by rewrite <-(Join_Split s sep), <-(Join_Split t sep), H. Qed.

Lemma Split_pieces (s : bytes) sep p : p ∈ Split s sep → sep ∉ p.
Proof.
  revert p. induction s as [|c s IH]; intros p; simpl.
  - intros ->%list_elem_of_singleton. set_solver.
  - case_decide as Hc.
    { rewrite elem_of_cons. intros [->|Hp]; [apply not_elem_of_nil|auto]. }
    destruct (Split s sep) as [|q qs].
    { intros ->%list_elem_of_singleton. set_solver. }
    rewrite elem_of_cons. intros [->|Hp].
    + pose proof (IH q ltac:(set_solver)) as Hq. set_solver.
    + apply IH. set_solver.
Qed.

(** The pieces of [s] are [ps ++ Split b] with [ps] non-empty exactly when [s]
    ends with the separator followed by [b]. *)
Lemma Split_suffix (s b : bytes) sep :
  (∃ ps, ps ≠ [] ∧ Split s sep = ps ++ Split b sep) ↔ ∃ a, s = a ++ sep :: b.
Proof.
  split.
  - intros (ps & Hne & H). exists (Join ps sep).
    rewrite <-(Join_Split s sep), H, Join_app, Join_Split; auto using Split_not_nil.
  - intros [a ->]. exists (Split a sep). auto using Split_not_nil, Split_app_sep.
Qed.

(** [strings.ReplaceAll(s, old, new)] for a one-byte [old]. *)
Definition ReplaceAll (s : bytes) (old : byte) (new : bytes) : bytes :=
  concat (map (λ c, if decide (c = old) then new else [c]) s).

Lemma ReplaceAll_app s t old new :
  ReplaceAll (s ++ t) old new = ReplaceAll s old new ++ ReplaceAll t old new.
Proof. unfold ReplaceAll. by rewrite map_app, concat_app. Qed.

(** ** Case mapping and trimming *)

Definition is_ascii (c : byte) : bool := (byte_val c <? 128)%N.

Definition lower_byte (c : byte) : byte :=
  if ((65 <=? byte_val c) && (byte_val c <=? 90))%N then byte_of (byte_val c + 32) else c.

(** What [strings.ToLower] does to a string that holds a byte outside ASCII
    is given by the Unicode tables of the Go library. *)
Class Unicode := { unicode_ToLower : bytes → bytes }.

(** [strings.ToLower]: the ASCII fast path, and the Unicode mapping otherwise. *)
Definition ToLower `{Unicode} (s : bytes) : bytes :=
  if forallb is_ascii s then map lower_byte s else unicode_ToLower s.

(** Case-insensitive comparison as [strings.EqualFold] does it when the second
    argument is an ASCII word without the letters k and s, whose only case
    variants are ASCII. *)
Definition EqualFold (s t : bytes) : bool := bool_decide (map lower_byte s = map lower_byte t).

Lemma byte_val_lt c : (byte_val c < 256)%N.
Proof. apply N_ascii_bounded. Qed.

Lemma byte_val_of n : (n < 256)%N → byte_val (byte_of n) = n.
Proof. apply N_ascii_embedding. Qed.

Lemma byte_of_val c : byte_of (byte_val c) = c.
Proof. apply ascii_N_embedding. Qed.

Lemma byte_val_inj c d : byte_val c = byte_val d → c = d.
Proof. intros H. by rewrite <-(byte_of_val c), <-(byte_of_val d), H. Qed.

Definition is_upper (c : byte) : bool := ((65 <=? byte_val c) && (byte_val c <=? 90))%N.

Lemma lower_byte_id c : is_upper c = false → lower_byte c = c.
Proof. unfold lower_byte, is_upper. by intros ->. Qed.

Lemma lower_byte_not_upper c : is_upper (lower_byte c) = false.
Proof.
  unfold lower_byte. fold (is_upper c). destruct (is_upper c) eqn:H; [|done].
  unfold is_upper in *. apply andb_true_iff in H as [H1 H2].
  apply N.leb_le in H1, H2. rewrite byte_val_of by lia.
  apply andb_false_iff. right. apply N.leb_gt. lia.
Qed.

Lemma lower_byte_ascii c : is_ascii (lower_byte c) = is_ascii c.
Proof.
  unfold lower_byte. fold (is_upper c). destruct (is_upper c) eqn:H; [|done].
  unfold is_upper, is_ascii in *. apply andb_true_iff in H as [H1 H2].
  apply N.leb_le in H1, H2. rewrite byte_val_of by lia.
  destruct (N.ltb_spec (byte_val c + 32) 128), (N.ltb_spec (byte_val c) 128); lia.
Qed.

(** A string of ASCII bytes without upper-case letters is its own lower case. *)
Lemma ToLower_id `{Unicode} s :
  forallb is_ascii s = true → forallb (negb ∘ is_upper) s = true → ToLower s = s.
Proof.
  intros Ha Hu. unfold ToLower. rewrite Ha. clear Ha.
  induction s as [|c s IH]; simpl in *; [done|].
  apply andb_true_iff in Hu as [Hc Hs]. apply negb_true_iff in Hc.
  rewrite lower_byte_id by done. by rewrite IH.
Qed.

Lemma ToLower_ascii `{Unicode} s : forallb is_ascii s = true → ToLower s = map lower_byte s.
Proof. unfold ToLower. by intros ->. Qed.

Lemma map_lower_idemp s : map lower_byte (map lower_byte s) = map lower_byte s.
Proof.
  rewrite map_map. apply map_ext. intros c. apply lower_byte_id, lower_byte_not_upper.
Qed.

Lemma map_lower_ascii s : forallb is_ascii (map lower_byte s) = forallb is_ascii s.
Proof. induction s as [|c s IH]; simpl; [done|]. by rewrite lower_byte_ascii, IH. Qed.

Lemma ToLower_idemp `{Unicode} s :
  forallb is_ascii s = true → ToLower (ToLower s) = ToLower s.
Proof.
  intros Ha. rewrite (ToLower_ascii s) by done. rewrite ToLower_ascii.
  - apply map_lower_idemp.
  - by rewrite map_lower_ascii.
Qed.

(** [utf8.ValidString]: the bytes that may follow the first one of an encoded rune. *)
Definition between (lo hi : N) (c : byte) : bool := ((lo <=? byte_val c) && (byte_val c <=? hi))%N.

Definition continuation (c : byte) : bool := between 128 191 c.

(** The second byte excludes overlong forms, surrogates and what is above U+10FFFF. *)
Definition second_byte (c c1 : byte) : bool :=
  if decide (byte_val c = 224%N) then between 160 191 c1
  else if decide (byte_val c = 237%N) then between 128 159 c1
  else if decide (byte_val c = 240%N) then between 144 191 c1
  else if decide (byte_val c = 244%N) then between 128 143 c1
  else continuation c1.

Fixpoint utf8Valid (s : bytes) : bool :=
  match s with
  | [] => true
  | c :: s =>
      if is_ascii c then utf8Valid s
      else match s with
           | [] => false
           | c1 :: s =>
               second_byte c c1 &&
               if between 194 223 c then utf8Valid s
               else match s with
                    | [] => false
                    | c2 :: s =>
                        continuation c2 &&
                        if between 224 239 c then utf8Valid s
                        else match s with
                             | [] => false
                             | c3 :: s => between 240 244 c && continuation c3 && utf8Valid s
                             end
                    end
           end
  end.

Example utf8Valid_ex :
  utf8Valid (byte_of <$> [227; 129; 130; 65; 195; 169; 240; 159; 152; 128])%N = true ∧
  utf8Valid (byte_of <$> [255])%N = false ∧ utf8Valid (byte_of <$> [192; 128])%N = false ∧
  utf8Valid (byte_of <$> [237; 160; 128])%N = false ∧ utf8Valid (byte_of <$> [227; 129])%N = false.
Proof. vm_compute. done. Qed.

Lemma utf8Valid_ascii s : forallb is_ascii s = true → utf8Valid s = true.
Proof. induction s as [|c s IH]; [done|]. cbn. intros [-> Hs]%andb_true_iff. by apply IH. Qed.

(** The UTF-8 encodings of the runes for which [unicode.IsSpace] holds.  UTF-8
    is self-synchronising, so decoding a first (or last) rune that is a space
    is the same as finding one of these as a prefix (or suffix). *)
Definition space_runes : list bytes :=
  map (map byte_of)
    [[9]; [10]; [11]; [12]; [13]; [32]; [194; 133]; [194; 160]; [225; 154; 128];
     [226; 128; 128]; [226; 128; 129]; [226; 128; 130]; [226; 128; 131];
     [226; 128; 132]; [226; 128; 133]; [226; 128; 134]; [226; 128; 135];
     [226; 128; 136]; [226; 128; 137]; [226; 128; 138]; [226; 128; 168];
     [226; 128; 169]; [226; 128; 175]; [226; 129; 159]; [227; 128; 128]]%N.

(** One space rune removed from the front (or the back), if there is one. *)
Definition cut_space_l (s : bytes) : option bytes :=
  e ← find (HasPrefix s) space_runes; Some (drop (length e) s).

Definition cut_space_r (s : bytes) : option bytes :=
  e ← find (HasSuffix s) space_runes; Some (take (length s - length e) s).

Fixpoint trim_with (cut : bytes → option bytes) (fuel : nat) (s : bytes) : bytes :=
  match fuel with
  | O => s
  | S fuel => match cut s with Some s' => trim_with cut fuel s' | None => s end
  end.

(** [strings.TrimSpace]: every cut removes at least one byte, so the length of
    the string is enough fuel. *)
Definition TrimSpace (s : bytes) : bytes :=
  let s' := trim_with cut_space_l (length s) s in
  trim_with cut_space_r (length s') s'.

Lemma space_runes_not_nil e : e ∈ space_runes → e ≠ [].
Proof.
  intros He ->. assert (Exists (λ e, e = []) space_runes) as H.
  { apply Exists_exists. by exists []. }
  revert H. apply Forall_not_Exists. repeat constructor; done.
Qed.

Lemma trim_with_done cut fuel s : cut s = None → trim_with cut fuel s = s.
Proof. destruct fuel; simpl; [done|]. by intros ->. Qed.

Lemma trim_with_fix cut fuel s :
  (∀ s s', cut s = Some s' → (length s' < length s)%nat) →
  (length s ≤ fuel)%nat → cut [] = None →
  cut (trim_with cut fuel s) = None.
Proof.
  intros Hcut. revert s. induction fuel as [|fuel IH]; intros s Hlen Hnil; simpl.
  - destruct s; [done|simpl in *; lia].
  - destruct (cut s) as [s'|] eqn:Hs; [|done]. apply IH; [|done].
    apply Hcut in Hs. lia.
Qed.

Lemma find_elem_of {A} (f : A → bool) l x : find f l = Some x → x ∈ l ∧ f x = true.
Proof. intros H. apply find_some in H as [H ?]. split; [by apply list_elem_of_In|done]. Qed.

Lemma cut_space_l_Some s s' : cut_space_l s = Some s' → ∃ e, e ∈ space_runes ∧ s = e ++ s'.
Proof.
  unfold cut_space_l. intros (e & He & [= <-])%bind_Some.
  apply find_elem_of in He as [He Hp]. exists e. split; [done|].
  apply HasPrefix_spec in Hp as [r ->]. by rewrite drop_app_length.
Qed.

Lemma cut_space_r_Some s s' : cut_space_r s = Some s' → ∃ e, e ∈ space_runes ∧ s = s' ++ e.
Proof.
  unfold cut_space_r. intros (e & He & [= <-])%bind_Some.
  apply find_elem_of in He as [He Hp]. exists e. split; [done|].
  apply HasSuffix_spec in Hp as [r ->]. rewrite length_app.
  replace (length r + length e - length e)%nat with (length r) by lia.
  by rewrite take_app_length.
Qed.

(** Nothing is left to trim at the end, and what was trimmed is a
    concatenation of space runes on both sides. *)
Lemma trim_with_l_split fuel s :
  ∃ es, Forall (.∈ space_runes) es ∧ s = concat es ++ trim_with cut_space_l fuel s.
Proof.
  revert s. induction fuel as [|fuel IH]; intros s; simpl; [by exists []|].
  destruct (cut_space_l s) as [s'|] eqn:Hs; [|by exists []].
  apply cut_space_l_Some in Hs as (e & He & ->). destruct (IH s') as (es & Hes & Heq).
  exists (e :: es). split; [by constructor|]. simpl. rewrite <-app_assoc. by rewrite <-Heq.
Qed.

Lemma trim_with_r_split fuel s :
  ∃ es, Forall (.∈ space_runes) es ∧ s = trim_with cut_space_r fuel s ++ concat es.
Proof.
  revert s. induction fuel as [|fuel IH]; intros s; simpl.
  { exists []. simpl. by rewrite app_nil_r. }
  destruct (cut_space_r s) as [s'|] eqn:Hs.
  2: { exists []. simpl. by rewrite app_nil_r. }
  apply cut_space_r_Some in Hs as (e & He & ->). destruct (IH s') as (es & Hes & Heq).
  exists (es ++ [e]). split; [apply Forall_app; split; [done|by apply Forall_singleton]|].
  rewrite concat_app, app_assoc, <-Heq. simpl. by rewrite app_nil_r.
Qed.

Lemma TrimSpace_split s :
  ∃ ls rs, Forall (.∈ space_runes) ls ∧ Forall (.∈ space_runes) rs ∧
           s = concat ls ++ TrimSpace s ++ concat rs.
Proof.
  unfold TrimSpace.
  destruct (trim_with_l_split (length s) s) as (ls & Hls & Heq).
  set (s' := trim_with cut_space_l (length s) s) in *.
  destruct (trim_with_r_split (length s') s') as (rs & Hrs & Heq').
  exists ls, rs. split; [done|]. split; [done|]. by rewrite <-Heq'.
Qed.

(** A string that neither starts nor ends with a space rune is left alone. *)
Lemma TrimSpace_id s : cut_space_l s = None → cut_space_r s = None → TrimSpace s = s.
Proof.
  intros Hl Hr. unfold TrimSpace. rewrite (trim_with_done cut_space_l) by done.
  by apply trim_with_done.
Qed.

(** ** [net.SplitHostPort] *)

(** The host and the port of [host:port] or [[host]:port]; [None] is the
    error the callers only test for. *)
Definition SplitHostPort (hostport : bytes) : option (bytes * bytes) :=
  match LastIndexByte hostport colon with
  | None => None                                      (* missing port *)
  | Some i =>
      let port := drop (S i) hostport in
      let finish host j k :=
        if bool_decide ("["%char ∈ drop j hostport) then None
        else if bool_decide ("]"%char ∈ drop k hostport) then None
        else Some (host, port) in
      if decide (hostport !! 0%nat = Some "["%char) then
        match IndexByte hostport "]"%char with
        | None => None                                (* missing ']' *)
        | Some e =>
            (* the ']' must be just before the last ':' *)
            if decide (S e = i) then finish (drop 1 (take e hostport)) 1%nat (S e)
            else None
        end
      else
        let host := take i hostport in
        if bool_decide (colon ∈ host) then None       (* too many colons *)
        else finish host 0%nat 0%nat
  end.

Lemma SplitHostPort_no_colon h : colon ∉ h → SplitHostPort h = None.
Proof. intros H. unfold SplitHostPort. by rewrite (proj2 (LastIndexByte_None h colon) H). Qed.

(** A plain host and its port are separated exactly. *)
Lemma SplitHostPort_plain h p :
  Forall (λ c, c ∉ [colon; "["%char; "]"%char]) h →
  Forall (λ c, c ∉ [colon; "["%char; "]"%char]) p →
  SplitHostPort (h ++ colon :: p) = Some (h, p).
Proof.
  intros Hh Hp.
  assert (∀ c l, c ∈ [colon; "["%char; "]"%char] →
            Forall (λ c, c ∉ [colon; "["%char; "]"%char]) l → c ∉ l) as Hnot.
  { intros c l Hc Hl Hin. rewrite Forall_forall in Hl. by apply (Hl c). }
  assert (∀ c, c ∈ ["["%char; "]"%char] → c ∉ h ++ colon :: p) as Hbr.
  { intros c Hc. rewrite elem_of_app, elem_of_cons. intros [?|[->|?]].
    - eapply (Hnot c h); [set_solver|done|done].
    - apply list_elem_of_In in Hc. simpl in Hc. by destruct Hc as [|[|[]]].
    - eapply (Hnot c p); [set_solver|done|done]. }
  assert ((h ++ colon :: p) !! 0%nat ≠ Some "["%char) as Hhd.
  { intros Hhd%list_elem_of_lookup_2. by apply (Hbr "["%char ltac:(set_solver)). }
  unfold SplitHostPort. rewrite LastIndexByte_app by (apply Hnot; [set_solver|done]).
  rewrite take_app_length.
  replace (drop (S (length h)) (h ++ colon :: p)) with p.
  2: { change (colon :: p) with ([colon] ++ p). rewrite app_assoc.
       replace (S (length h)) with (length (h ++ [colon])) by (rewrite length_app; simpl; lia).
       by rewrite drop_app_length. }
  rewrite decide_False by done. rewrite !drop_0.
  rewrite (bool_decide_eq_false_2 (colon ∈ h)) by (apply Hnot; [set_solver|done]).
  by rewrite !bool_decide_eq_false_2 by (apply Hbr; set_solver).
Qed.

(** *** Strings without upper-case letters, spaces, brackets or colons *)

Definition ascii_space (c : byte) : bool :=
  bool_decide (byte_val c ∈ [9; 10; 11; 12; 13; 32]%N).

(** A byte that occurs in no space rune. *)
Definition is_printable (c : byte) : bool := is_ascii c && negb (ascii_space c).

Lemma space_runes_unprintable :
  Forall (λ e, Forall (λ c, is_printable c = false) e) space_runes.
Proof. repeat constructor. Qed.

Lemma space_rune_head e : e ∈ space_runes → ∃ c, c ∈ e ∧ is_printable c = false.
Proof.
  intros He. pose proof (space_runes_not_nil e He) as Hne.
  pose proof space_runes_unprintable as Hall. rewrite Forall_forall in Hall.
  specialize (Hall e He). destruct e as [|c e]; [done|]. exists c.
  apply Forall_cons in Hall as [Hc _]. split; [set_solver|done].
Qed.

Lemma TrimSpace_printable s : forallb is_printable s = true → TrimSpace s = s.
Proof.
  intros Hs. rewrite forallb_forall in Hs. setoid_rewrite <-list_elem_of_In in Hs.
  assert (∀ e, e ∈ space_runes → ¬ ∃ a b, s = a ++ e ++ b) as Hno.
  { intros e He (a & b & ->). destruct (space_rune_head e He) as (c & Hc & Hp).
    rewrite Hs in Hp; [done|]. set_solver. }
  apply TrimSpace_id.
  - destruct (cut_space_l s) as [s'|] eqn:H; [|done]. exfalso.
    apply cut_space_l_Some in H as (e & He & Heq). apply (Hno e He). by exists [], s'.
  - destruct (cut_space_r s) as [s'|] eqn:H; [|done]. exfalso.
    apply cut_space_r_Some in H as (e & He & Heq). apply (Hno e He). exists s', [].
    by rewrite app_nil_r.
Qed.

(** A byte of a host name in normal form. *)
Definition host_byte (c : byte) : bool :=
  is_printable c && negb (is_upper c) &&
  bool_decide (c ∉ [colon; "["%char; "]"%char]).

Lemma host_byte_spec c :
  host_byte c = true →
  is_printable c = true ∧ is_upper c = false ∧ c ∉ [colon; "["%char; "]"%char].
Proof.
  unfold host_byte. intros [[? ?%negb_true_iff]%andb_true_iff ?%bool_decide_eq_true]%andb_true_iff.
  done.
Qed.

Lemma is_printable_ascii c : is_printable c = true → is_ascii c = true.
Proof. unfold is_printable. by intros [? _]%andb_true_iff. Qed.

Lemma host_bytes_printable s : forallb host_byte s = true → forallb is_printable s = true.
Proof.
  intros H. rewrite forallb_forall in *. intros c Hc. by apply host_byte_spec, H.
Qed.

Lemma host_bytes_ascii s : forallb host_byte s = true → forallb is_ascii s = true.
Proof.
  intros H%host_bytes_printable. rewrite forallb_forall in *. intros c Hc.
  by apply is_printable_ascii, H.
Qed.

Lemma host_bytes_lower `{Unicode} s : forallb host_byte s = true → ToLower s = s.
Proof.
  intros H'. apply ToLower_id; [by apply host_bytes_ascii|].
  rewrite forallb_forall in *. intros c Hc.
  destruct (host_byte_spec c (H' c Hc)) as (_ & Hu & _). simpl. by rewrite Hu.
Qed.

Lemma host_bytes_delims s :
  forallb host_byte s = true → Forall (λ c, c ∉ [colon; "["%char; "]"%char]) s.
Proof.
  intros H. apply Forall_forall. intros c Hc%list_elem_of_In. rewrite forallb_forall in H.
  by apply host_byte_spec, H.
Qed.

(** Lower-casing neither adds nor removes a delimiter of [SplitHostPort]. *)
Lemma lower_delims s :
  Forall (λ c, c ∉ [colon; "["%char; "]"%char]) s →
  Forall (λ c, c ∉ [colon; "["%char; "]"%char]) (map lower_byte s).
Proof.
  intros Hs. apply Forall_map. eapply Forall_impl; [exact Hs|].
  intros c Hc. simpl. destruct (is_upper c) eqn:Hu; [|by rewrite lower_byte_id].
  pose proof Hu as Hu'. unfold is_upper in Hu'. apply andb_true_iff in Hu' as [H1 H2].
  apply N.leb_le in H1, H2.
  assert (byte_val (lower_byte c) = byte_val c + 32)%N as Hv.
  { unfold lower_byte. fold (is_upper c). rewrite Hu. apply byte_val_of. lia. }
  assert (byte_val colon = 58 ∧ byte_val "[" = 91 ∧ byte_val "]" = 93)%N as (? & ? & ?) by done.
  rewrite !not_elem_of_cons. split_and!; try (apply not_elem_of_nil);
    intros Heq; rewrite Heq in Hv; lia.
Qed.

Lemma SplitHostPort_plain_None h :
  Forall (λ c, c ∉ [colon; "["%char; "]"%char]) h → SplitHostPort h = None.
Proof.
  intros Hh. apply SplitHostPort_no_colon. intros Hin. rewrite Forall_forall in Hh.
  apply (Hh colon Hin). set_solver.
Qed.
