(* ===== verification/GoIO.v ===== *)
(** * Go's [io.Reader] and [io.Writer]

    The interface [IOReader] of a readable source with the laws every client
    relies on, the combinators of Go's [io] package the program builds
    (limited and teed readers, draining), and writable sinks that may run out
    of room.  Readers are finite: each carries a measure that every successful
    [Read] decreases. *)
From S2P Require Import Prelude.

(** How a stream ends: [io.EOF] or some other error. *)
Inductive ioerr := EOF | Failure.

#[export] Instance ioerr_eq_dec : EqDecision ioerr.
Proof. solve_decision. Defined.

(** [Read k s] is [r.Read(p)] with [len(p) = k]: the bytes stored in [p], the
    error, and the state of the reader afterwards.  [unread] bounds the number
    of calls that return no error. *)
Class IOReader (rd : Type) := {
  Read : nat → rd → bytes * option ioerr * rd;
  unread : rd → nat;
  Read_length k s : (length (Read k s).1.1 ≤ k)%nat;
  Read_unread k s :
    (0 < k)%nat → (Read k s).1.2 = None → (unread (Read k s).2 < unread s)%nat;
  Read_unread_le k s : (unread (Read k s).2 ≤ unread s)%nat;
}.

(** ** Draining a reader *)

Section drain.
Context {rd : Type} `{IOReader rd}.

(** The loop [for { n, err := r.Read(buf); ...; if err != nil { break } }] with
    a buffer of [k] bytes: the chunks read, the error that ended it ([None]
    when the fuel ran out first) and the final state. *)
Fixpoint readAll (fuel : nat) (k : nat) (s : rd) : list bytes * option ioerr * rd :=
  match fuel with
  | O => ([], None, s)
  | S fuel =>
      let '(c, e, s') := Read k s in
      match e with
      | Some e => ([c], Some e, s')
      | None => let '(cs, e', s'') := readAll fuel k s' in (c :: cs, e', s'')
      end
  end.

Definition drainFuel (s : rd) : nat := S (unread s).

Definition drain (k : nat) (s : rd) : list bytes * option ioerr * rd := readAll (drainFuel s) k s.

(** The fuel is enough: draining always ends with the reader's error. *)
Lemma readAll_total fuel k s :
  (0 < k)%nat → (unread s < fuel)%nat → ∃ cs e s', readAll fuel k s = (cs, Some e, s').
Proof.
  intros Hk. revert s. induction fuel as [|fuel IH]; intros s Hf; [lia|]. simpl.
  destruct (Read k s) as [[c [e|]] s'] eqn:Hr; [by eauto|].
  pose proof (Read_unread k s Hk) as Hu. rewrite Hr in Hu. simpl in Hu.
  destruct (IH s') as (cs & e & s'' & ->); [specialize (Hu eq_refl); lia|by eauto].
Qed.

Lemma drain_total k s : (0 < k)%nat → ∃ cs e s', drain k s = (cs, Some e, s').
Proof. intros Hk. apply readAll_total; [done|]. unfold drainFuel. lia. Qed.

Lemma readAll_length fuel k s :
  Forall (λ c, (length c ≤ k)%nat) (readAll fuel k s).1.1.
Proof.
  revert s. induction fuel as [|fuel IH]; intros s; simpl; [constructor|].
  pose proof (Read_length k s) as Hl. destruct (Read k s) as [[c [e|]] s'] eqn:Hr; simpl in *.
  - by repeat constructor.
  - specialize (IH s'). destruct (readAll fuel k s') as [[cs e] s'']. by constructor.
Qed.
End drain.

(** ** A source given by its chunks *)

(** Any behaviour of a network body: the sizes in which it hands out its
    bytes, the error it ends with, and whether that error comes with the last
    chunk or in a call of its own. *)
Record source := Source { chunks : list bytes; final : ioerr; eager : bool }.

Definition content (s : source) : bytes := concat (chunks s).

Definition source_Read (k : nat) (s : source) : bytes * option ioerr * source :=
  match chunks s with
  | [] => ([], Some (final s), s)
  | c :: cs =>
      if decide (length c ≤ k)%nat then
        let e := if bool_decide (cs = []) && eager s then Some (final s) else None in
        (c, e, Source cs (final s) (eager s))
      else (take k c, None, Source (drop k c :: cs) (final s) (eager s))
  end.

#[export] Program Instance source_reader : IOReader source := {|
  Read := source_Read;
  unread s := (length (content s) + length (chunks s))%nat;
|}.
Next Obligation.
  intros k [[|c cs] f eg]; unfold source_Read; simpl; [lia|].
  destruct (decide _); simpl; [done|]. rewrite length_take. lia.
Qed.
Next Obligation.
  intros k [[|c cs] f eg] Hk; unfold source_Read, content; simpl; [done|].
  destruct (decide _); simpl; intros _; rewrite ?length_app, ?length_drop; lia.
Qed.
Next Obligation.
  intros k [[|c cs] f eg]; unfold source_Read, content; simpl; [lia|].
  destruct (decide _); simpl; rewrite ?length_app, ?length_drop; lia.
Qed.

(** A read takes its bytes off the front of the content; an error means
    nothing is left. *)
Lemma source_Read_content k s :
  let '(c, e, s') := source_Read k s in
  content s = c ++ content s' ∧ final s' = final s ∧
  (∀ e', e = Some e' → e' = final s ∧ content s' = []).
Proof.
  destruct s as [[|c cs] f eg]; unfold source_Read, content; simpl.
  - naive_solver.
  - destruct (decide (length c ≤ k)%nat); simpl.
    + split_and!; [done|done|]. case_bool_decide; destruct eg; simpl; naive_solver.
    + rewrite app_assoc, take_drop. naive_solver.
Qed.

(** ** Sinks *)

(** Where bytes are written; [room] is how many more fit before writing fails
    ([None]: writing never fails). *)
Record sink := Sink { written_bytes : bytes; room : option nat }.

(** [w.Write(p)]: the bytes that went out, and whether all of them did. *)
Definition Write (p : bytes) (w : sink) : bytes * bool * sink :=
  match room w with
  | None => (p, true, Sink (written_bytes w ++ p) None)
  | Some r =>
      let q := take r p in
      (q, bool_decide (length p ≤ r)%nat, Sink (written_bytes w ++ q) (Some (r - length q)%nat))
  end.

Lemma Write_out p w :
  let '(q, ok, w') := Write p w in
  written_bytes w' = written_bytes w ++ q ∧ (ok = true → q = p).
Proof.
  unfold Write. destruct (room w) as [r|]; simpl; [|done]. split; [done|].
  intros Hle%bool_decide_eq_true. by apply take_ge.
Qed.

Lemma Write_unlimited p w :
  room w = None → Write p w = (p, true, Sink (written_bytes w ++ p) None).
Proof. unfold Write. by intros ->. Qed.

(** ** Sequences of reads *)

(** [reads s cs e s']: some calls of [Read], the last one returning the error
    [e] if there is one, took the chunks [cs].  This is all a client of the
    interface can do to a reader. *)
Inductive reads `{IOReader rd} : rd → list bytes → option ioerr → rd → Prop :=
  | reads_nil s : reads s [] None s
  | reads_last k s c e s' :
      (0 < k)%nat → Read k s = (c, Some e, s') → reads s [c] (Some e) s'
  | reads_cons k s c s' cs e s'' :
      (0 < k)%nat → Read k s = (c, None, s') → reads s' cs e s'' → reads s (c :: cs) e s''.

Lemma readAll_reads `{IOReader rd} fuel k s cs e s' :
  (0 < k)%nat → readAll fuel k s = (cs, e, s') → reads s cs e s'.
Proof.
  intros Hk. revert s cs. induction fuel as [|fuel IH]; intros s cs; simpl.
  - intros [= <- <- <-]. constructor.
  - destruct (Read k s) as [[c [e'|]] s1] eqn:Hr.
    + intros [= <- <- <-]. by econstructor.
    + destruct (readAll fuel k s1) as [[cs' e'] s2] eqn:Ha. intros [= <- <- <-].
      by eapply reads_cons; eauto.
Qed.

Lemma reads_trans `{IOReader rd} s cs s' ds e s'' :
  reads s cs None s' → reads s' ds e s'' → reads s (cs ++ ds) e s''.
Proof.
  remember None as n eqn:Hn. induction 1; intros; simplify_eq/=; [done|].
  eapply reads_cons; eauto.
Qed.

(** What a source hands out is its content, in order; an error comes when all
    of it has been handed out. *)
Lemma reads_source (s s' : source) cs e :
  reads s cs e s' →
  content s = concat cs ++ content s' ∧ final s' = final s ∧
  (∀ e', e = Some e' → e' = final s ∧ content s' = []).
Proof.
  induction 1 as [s|k s c e s' Hk Hr|k s c s' cs e s'' Hk Hr _ IH]; simpl.
  - naive_solver.
  - pose proof (source_Read_content k s) as Hc. simpl in Hr. rewrite Hr in Hc.
    rewrite app_nil_r. naive_solver.
  - pose proof (source_Read_content k s) as Hc. simpl in Hr. rewrite Hr in Hc.
    destruct Hc as (Hc & Hf & _). destruct IH as (Hc' & Hf' & He). rewrite Hc, Hc', app_assoc.
    naive_solver congruence.
Qed.

(** Draining a source gives its content and its error. *)
Lemma drain_source k (s : source) :
  (0 < k)%nat → ∃ cs s', drain k s = (cs, Some (final s), s') ∧ content s = concat cs ∧ content s' = [].
Proof.
  intros Hk. destruct (drain_total k s Hk) as (cs & e & s' & Hd).
  pose proof Hd as Hr. unfold drain in Hr. apply readAll_reads, reads_source in Hr as (Hc & _ & He); [|done].
  destruct (He e eq_refl) as [-> Hn]. exists cs, s'. by rewrite Hc, Hn, app_nil_r.
Qed.
