(* ===== verification/Blocklist.v ===== *)
(** * The in-memory blocklist ([internal/proxy/blocklist.go])

    The reversed-label trie of wildcard entries and the set of exact entries,
    the operations that build and query them, and the refinement of the query
    to its specification: an entry [*.base] blocks exactly the hosts that end
    in [.base], any other entry exactly the host it names. *)
From S2P Require Import Prelude GoStrings.

(** ** Data *)

Unset Elimination Schemes.
Inductive trieNode :=
  TrieNode (node_children : gmap bytes trieNode) (node_terminal : bool).
Set Elimination Schemes.

Definition children (n : trieNode) : gmap bytes trieNode :=
  match n with TrieNode c _ => c end.
Definition terminal (n : trieNode) : bool :=
  match n with TrieNode _ t => t end.

Definition emptyNode : trieNode := TrieNode ∅ false.
Definition star : bytes := "*".

(** [exact] is a Go map with empty values: a set of strings. *)
Record Blocklist := MkBlocklist { exact : gset bytes; trie : trieNode }.

(** ** Building *)

(** [getOrCreate]: the parent, mutated if the label is new, and the child.
    Every node has one parent, so writing a child back into its parent is the
    pointer update of the source. *)
Definition getOrCreate (n : trieNode) (label : bytes) : trieNode * trieNode :=
  match children n !! label with
  | Some child => (n, child)
  | None => (TrieNode (<[label := emptyNode]> (children n)) (terminal n), emptyNode)
  end.

Definition setChild (n : trieNode) (label : bytes) (child : trieNode) : trieNode :=
  TrieNode (<[label := child]> (children n)) (terminal n).

(** The insertion loop of [addEntry] over the labels still to visit (already
    reversed), then the sentinel and its [terminal] mark. *)
Fixpoint insertWildcard (labels : list bytes) (node : trieNode) : trieNode :=
  match labels with
  | [] =>
      let '(node, wc) := getOrCreate node star in
      setChild node star (TrieNode (children wc) true)
  | label :: labels =>
      let '(node, child) := getOrCreate node label in
      setChild node label (insertWildcard labels child)
  end.

Section blocklist.
Context `{Unicode}.

(** The text of an entry as it is stored. *)
Definition entryText (line : bytes) : bytes := ToLower (TrimSpace line).

Definition addEntry (bl : Blocklist) (line : bytes) : Blocklist :=
  let line := entryText line in
  if decide (line = []) then bl
  else if HasPrefix line "*." then
    let base := drop 2 line in
    MkBlocklist (exact bl) (insertWildcard (rev (Split base dot)) (trie bl))
  else MkBlocklist ({[line]} ∪ exact bl) (trie bl).

Definition NewBlocklist (domains : list bytes) : Blocklist :=
  fold_left addEntry domains (MkBlocklist ∅ emptyNode).

(** ** Querying *)

(** The loop of [wildcardBlocked] on the reversed labels still to consume;
    the labels left after the current one are the source's [i > 0]. *)
Fixpoint walk (node : trieNode) (labels : list bytes) : bool :=
  match labels with
  | [] => false
  | label :: rest =>
      match children node !! label with
      | None => false
      | Some child =>
          let stop := match children child !! star with
                      | Some wc => terminal wc && bool_decide (rest ≠ [])
                      | None => false
                      end in
          if stop then true else walk child rest
      end
  end.

Definition wildcardBlocked (bl : Blocklist) (h : bytes) : bool :=
  walk (trie bl) (rev (Split h dot)).

(** The host name compared with the entries: lower case, port stripped. *)
Definition hostName (host : bytes) : bytes :=
  let h := ToLower host in
  match SplitHostPort h with Some (stripped, _) => stripped | None => h end.

(** [None] is the nil [*Blocklist] of a proxy without a list. *)
Definition IsBlocked (bl : option Blocklist) (host : bytes) : bool :=
  match bl with
  | None => false
  | Some bl =>
      let h := hostName host in
      if bool_decide (h ∈ exact bl) then true else wildcardBlocked bl h
  end.
End blocklist.

Example blocklist_ex :
  let _ := Build_Unicode id in
  let bl := Some (NewBlocklist ["Example.com "; "*.bad.org"; ""]) in
  map (IsBlocked bl) ["example.com:443"; "www.example.com"; "bad.org"; "x.bad.org"; "a.b.BAD.org:80"; "xbad.org"]
  = [true; false; false; true; true; false].
Proof. vm_compute. reflexivity. Qed.

(** ** The contents of a trie *)

(** Whether a node marked terminal ends the given path. *)
Fixpoint marked (n : trieNode) (path : list bytes) : bool :=
  match path with
  | [] => terminal n
  | l :: path => match children n !! l with Some c => marked c path | None => false end
  end.

Lemma marked_emptyNode path : marked emptyNode path = false.
Proof. destruct path as [|l path]; [done|]. simpl. by rewrite lookup_empty. Qed.

(** What is stored below a label, created or not. *)
Lemma marked_getOrCreate n l path : marked (getOrCreate n l).2 path = marked n (l :: path).
Proof.
  unfold getOrCreate. simpl. destruct (children n !! l); [done|]. apply marked_emptyNode.
Qed.

Lemma marked_setChild n l c path :
  marked (setChild (getOrCreate n l).1 l c) path =
  match path with
  | l' :: path' => if decide (l' = l) then marked c path' else marked n path
  | [] => terminal n
  end.
Proof.
  unfold getOrCreate. destruct path as [|l' path]; simpl;
    destruct (children n !! l) eqn:Hl; simpl; try done;
    case_decide; subst; simplify_map_eq; done.
Qed.

(** Insertion marks exactly one more path: the reversed labels and the
    sentinel. *)
Lemma marked_insertWildcard labels n path :
  marked (insertWildcard labels n) path = bool_decide (path = labels ++ [star]) || marked n path.
Proof.
  revert n path. induction labels as [|l labels IH]; intros n path; simpl.
  - pose proof (marked_setChild n star (TrieNode (children (getOrCreate n star).2) true) path) as Hs.
    destruct (getOrCreate n star) as [n' wc] eqn:Hg; simpl in *. rewrite Hs.
    destruct path as [|l' path]; [done|]. case_decide; subst.
    + destruct path as [|l'' path]; [done|].
      rewrite bool_decide_eq_false_2 by done.
      pose proof (marked_getOrCreate n star (l'' :: path)) as Hm. by rewrite Hg in Hm.
    + by rewrite bool_decide_eq_false_2 by congruence.
  - pose proof (marked_setChild n l (insertWildcard labels (getOrCreate n l).2) path) as Hs.
    pose proof (λ path, marked_getOrCreate n l path) as Hm.
    destruct (getOrCreate n l) as [n' c] eqn:Hg; simpl in *. rewrite Hs.
    destruct path as [|l' path]; [done|]. case_decide; subst.
    + rewrite IH, Hm. f_equal. apply bool_decide_ext. naive_solver.
    + by rewrite bool_decide_eq_false_2 by congruence.
Qed.

(** The loop stops at a marked sentinel below a non-empty proper prefix of the
    labels. *)
Lemma walk_spec n labels :
  walk n labels = true ↔
  ∃ q r, q ≠ [] ∧ r ≠ [] ∧ labels = q ++ r ∧ marked n (q ++ [star]) = true.
Proof.
  revert n. induction labels as [|l labels IH]; intros n; simpl.
  { split; [done|]. intros (q & r & Hq & _ & H & _). symmetry in H.
    by apply app_nil in H as [-> _]. }
  split.
  - destruct (children n !! l) as [child|] eqn:Hl; [|done].
    destruct (match children child !! star with Some _ => _ | None => _ end) eqn:Hstop.
    + intros _. exists [l], labels. simpl. rewrite Hl. simpl.
      destruct (children child !! star) as [wc|]; [|done].
      apply andb_true_iff in Hstop as [? ?%bool_decide_eq_true]. naive_solver.
    + intros (q & r & Hq & Hr & -> & Hm)%IH. exists (l :: q), r. simpl. rewrite Hl.
      naive_solver.
  - intros ([|l' q] & r & Hq & Hr & Heq & Hm); [done|]. simplify_eq/=.
    destruct (children n !! l') as [child|] eqn:Hl; [|done].
    destruct q as [|l q]; simpl in *.
    + destruct (children child !! star) as [wc|]; [|done].
      rewrite Hm. by rewrite bool_decide_eq_true_2.
    + destruct (match children child !! star with Some _ => _ | None => _ end); [done|].
      apply IH. exists (l :: q), r. naive_solver.
Qed.

(** ** Specification *)

(** What one entry of a list means. *)
Inductive Pattern := Exact (host : bytes) | Wildcard (base : bytes).

Section spec.
Context `{Unicode}.
Implicit Types (ds : list bytes) (bl : Blocklist) (h host : bytes).

(** The pattern of a line; blank lines have none. *)
Definition entryPattern (line : bytes) : option Pattern :=
  let e := entryText line in
  if decide (e = []) then None
  else Some (match CutPrefix e "*." with Some base => Wildcard base | None => Exact e end).

Definition patternBlocks (p : Pattern) (h : bytes) : bool :=
  match p with
  | Exact e => bool_decide (h = e)
  | Wildcard base => HasSuffix h (dot :: base)
  end.

Definition lineBlocks (h line : bytes) : bool :=
  match entryPattern line with Some p => patternBlocks p h | None => false end.

(** The specification of a list: some line blocks the host. *)
Definition blockedBy (ds : list bytes) (host : bytes) : bool :=
  existsb (lineBlocks (hostName host)) ds.

(** *** One entry *)

Definition wildcardPath (base : bytes) : list bytes := rev (Split base dot) ++ [star].

Lemma addEntry_exact bl d h :
  h ∈ exact (addEntry bl d) ↔ h ∈ exact bl ∨ entryPattern d = Some (Exact h).
Proof.
  unfold addEntry, entryPattern, CutPrefix. generalize (entryText d) as e. intros e.
  case_decide as He; [subst; naive_solver|].
  destruct (HasPrefix e "*.") eqn:Hp.
  - simpl. naive_solver.
  - cbn [exact]. rewrite elem_of_union, elem_of_singleton. naive_solver.
Qed.

Lemma addEntry_trie bl d path :
  marked (trie (addEntry bl d)) path = true ↔
  marked (trie bl) path = true ∨
  ∃ base, entryPattern d = Some (Wildcard base) ∧ path = wildcardPath base.
Proof.
  unfold addEntry, entryPattern, CutPrefix. generalize (entryText d) as e. intros e.
  case_decide as He; [subst; naive_solver|].
  destruct (HasPrefix e "*.") eqn:Hp.
  - cbn [trie]. rewrite marked_insertWildcard, orb_true_iff, bool_decide_eq_true.
    unfold wildcardPath. split.
    + intros [->|]; [right|by left]. by eexists.
    + intros [|(base & [= <-] & ->)]; [by right|by left].
  - naive_solver.
Qed.

(** *** A list of entries *)

Lemma fold_addEntry_exact ds bl h :
  h ∈ exact (fold_left addEntry ds bl) ↔
  h ∈ exact bl ∨ ∃ d, d ∈ ds ∧ entryPattern d = Some (Exact h).
Proof.
  revert bl. induction ds as [|d ds IH]; intros bl; simpl.
  { setoid_rewrite elem_of_nil. naive_solver. }
  rewrite IH, addEntry_exact. setoid_rewrite elem_of_cons. naive_solver.
Qed.

Lemma fold_addEntry_trie ds bl path :
  marked (trie (fold_left addEntry ds bl)) path = true ↔
  marked (trie bl) path = true ∨
  ∃ d base, d ∈ ds ∧ entryPattern d = Some (Wildcard base) ∧ path = wildcardPath base.
Proof.
  revert bl. induction ds as [|d ds IH]; intros bl; simpl.
  { setoid_rewrite elem_of_nil. naive_solver. }
  rewrite IH, addEntry_trie. setoid_rewrite elem_of_cons. split.
  - intros [[|(base & ? & ?)]|(d' & base & ? & ?)]; [by left| |]; right; eauto 6.
  - intros [|(d' & base & [->|] & ?)]; eauto 6.
Qed.

Lemma NewBlocklist_exact ds h :
  h ∈ exact (NewBlocklist ds) ↔ ∃ d, d ∈ ds ∧ entryPattern d = Some (Exact h).
Proof. unfold NewBlocklist. rewrite fold_addEntry_exact. simpl. rewrite elem_of_empty. naive_solver. Qed.

Lemma NewBlocklist_trie ds path :
  marked (trie (NewBlocklist ds)) path = true ↔
  ∃ d base, d ∈ ds ∧ entryPattern d = Some (Wildcard base) ∧ path = wildcardPath base.
Proof. unfold NewBlocklist. rewrite fold_addEntry_trie. simpl. rewrite marked_emptyNode. naive_solver. Qed.

(** The walk accepts the marked path of [base] exactly when the host ends
    with a dot and [base]. *)
Lemma walk_base h base :
  (∃ q r, q ≠ [] ∧ r ≠ [] ∧ rev (Split h dot) = q ++ r ∧ q ++ [star] = wildcardPath base) ↔
  HasSuffix h (dot :: base) = true.
Proof.
  rewrite HasSuffix_spec, <-Split_suffix. unfold wildcardPath. split.
  - intros (q & r & Hq & Hr & Heq & [-> _]%app_inj_tail). exists (rev r).
    rewrite rev_eq_nil. split; [done|].
    apply (f_equal (@rev bytes)) in Heq. by rewrite rev_app_distr, !rev_involutive in Heq.
  - intros (ps & Hne & Heq). exists (rev (Split base dot)), (rev ps).
    rewrite !rev_eq_nil, Heq, rev_app_distr. auto using Split_not_nil.
Qed.

Lemma wildcardBlocked_spec ds h :
  wildcardBlocked (NewBlocklist ds) h = true ↔
  ∃ d base, d ∈ ds ∧ entryPattern d = Some (Wildcard base) ∧ HasSuffix h (dot :: base) = true.
Proof.
  unfold wildcardBlocked. rewrite walk_spec. setoid_rewrite NewBlocklist_trie.
  setoid_rewrite <-walk_base. split.
  - intros (q & r & ? & ? & ? & d & base & ? & ? & ?). by exists d, base; eauto 10.
  - intros (d & base & ? & ? & q & r & ? & ? & ? & ?). exists q, r. eauto 10.
Qed.

Lemma IsBlocked_spec ds host :
  IsBlocked (Some (NewBlocklist ds)) host = true ↔
  ∃ d p, d ∈ ds ∧ entryPattern d = Some p ∧ patternBlocks p (hostName host) = true.
Proof.
  unfold IsBlocked. generalize (hostName host) as h. intros h.
  case_bool_decide as He; rewrite NewBlocklist_exact in He.
  - split; [|done]. intros _. destruct He as (d & Hd & Hp).
    exists d, (Exact h). split_and!; [done|done|]. simpl. by apply bool_decide_eq_true.
  - rewrite wildcardBlocked_spec. split; [naive_solver|].
    intros (d & [e|base] & Hd & Hp & Hb); simpl in Hb; [|naive_solver].
    apply bool_decide_eq_true in Hb as ->. naive_solver.
Qed.

Lemma lineBlocks_spec h d :
  lineBlocks h d = true ↔ ∃ p, entryPattern d = Some p ∧ patternBlocks p h = true.
Proof. unfold lineBlocks. destruct (entryPattern d); naive_solver. Qed.

Lemma blockedBy_spec ds host :
  blockedBy ds host = true ↔
  ∃ d p, d ∈ ds ∧ entryPattern d = Some p ∧ patternBlocks p (hostName host) = true.
Proof.
  unfold blockedBy. rewrite existsb_exists. setoid_rewrite <-list_elem_of_In.
  setoid_rewrite lineBlocks_spec. naive_solver.
Qed.

Lemma IsBlocked_blockedBy ds host :
  IsBlocked (Some (NewBlocklist ds)) host = blockedBy ds host.
Proof. apply eq_true_iff_eq. by rewrite IsBlocked_spec, blockedBy_spec. Qed.

(** C3. The query refines the specification: for every list of lines and
    every host, the set lookup and the trie walk together answer exactly
    whether some line, lower-cased and trimmed, is the host itself or is a
    wildcard [*.base] whose [.base] ends the host. *)
Theorem IsBlocked_refines ds host :
  IsBlocked (Some (NewBlocklist ds)) host = blockedBy ds host.
Proof. apply IsBlocked_blockedBy. Qed.

(** The order and the multiplicity of the entries do not matter, so any
    enumeration of the Redis set gives the same decisions. *)
Theorem IsBlocked_set_ext ds ds' host :
  (∀ d, d ∈ ds ↔ d ∈ ds') →
  IsBlocked (Some (NewBlocklist ds)) host = IsBlocked (Some (NewBlocklist ds')) host.
Proof.
  intros Hds. apply eq_true_iff_eq. rewrite !IsBlocked_spec. by setoid_rewrite Hds.
Qed.

(** *** Host names in normal form *)

Lemma hostName_port host port :
  forallb is_ascii (host ++ colon :: port) = true →
  Forall (λ c, c ∉ [colon; "["%char; "]"%char]) host →
  Forall (λ c, c ∉ [colon; "["%char; "]"%char]) port →
  hostName (host ++ colon :: port) = map lower_byte host.
Proof.
  intros Ha Hh Hp. unfold hostName. rewrite ToLower_ascii by done.
  rewrite map_app. change (map lower_byte (colon :: port)) with (colon :: map lower_byte port).
  by rewrite SplitHostPort_plain by auto using lower_delims.
Qed.

Lemma hostName_bare host :
  forallb is_ascii host = true →
  Forall (λ c, c ∉ [colon; "["%char; "]"%char]) host →
  hostName host = map lower_byte host.
Proof.
  intros Ha Hh. unfold hostName. rewrite ToLower_ascii by done.
  by rewrite SplitHostPort_plain_None by auto using lower_delims.
Qed.

Lemma hostName_normal h : forallb host_byte h = true → hostName h = h.
Proof.
  intros Hh. unfold hostName. rewrite host_bytes_lower by done.
  by rewrite SplitHostPort_plain_None by auto using host_bytes_delims.
Qed.

Lemma entryText_normal h : forallb host_byte h = true → entryText h = h.
Proof.
  intros Hh. unfold entryText. rewrite TrimSpace_printable by auto using host_bytes_printable.
  by apply host_bytes_lower.
Qed.

Lemma entryPattern_wildcard base :
  forallb host_byte base = true → entryPattern ("*." ++ base) = Some (Wildcard base).
Proof.
  intros Hb. unfold entryPattern.
  rewrite entryText_normal by (rewrite forallb_app; by rewrite Hb).
  by rewrite CutPrefix_app, decide_False.
Qed.

Lemma entryPattern_exact h :
  h ≠ [] → forallb host_byte h = true → HasPrefix h "*." = false →
  entryPattern h = Some (Exact h).
Proof.
  intros Hne Hh Hp. unfold entryPattern, CutPrefix. rewrite entryText_normal, Hp by done.
  by rewrite decide_False.
Qed.

(** A request cannot dodge the list by changing the case of the host or
    by naming a port: both forms get the decision of the bare lower-case
    host. *)
Theorem IsBlocked_case_port (obl : option Blocklist) host port :
  forallb is_ascii (host ++ colon :: port) = true →
  Forall (λ c, c ∉ [colon; "["%char; "]"%char]) host →
  Forall (λ c, c ∉ [colon; "["%char; "]"%char]) port →
  IsBlocked obl (host ++ colon :: port) = IsBlocked obl (map lower_byte host) ∧
  IsBlocked obl host = IsBlocked obl (map lower_byte host).
Proof.
  intros Ha Hh Hp. destruct obl as [bl|]; [|done].
  assert (forallb is_ascii host = true) as Ha'.
  { by rewrite forallb_app in Ha; apply andb_true_iff in Ha as [? _]. }
  unfold IsBlocked. rewrite hostName_port by done. rewrite (hostName_bare host) by done.
  rewrite (hostName_bare (map lower_byte host)), map_lower_idemp; [done| |by apply lower_delims].
  by rewrite map_lower_ascii.
Qed.

(** A wildcard entry blocks the sub-domains of its base at any depth and
    never the base itself; an exact entry blocks its own host and none of
    its sub-domains. *)
Theorem IsBlocked_wildcard_exact base sub :
  base ≠ [] → forallb host_byte base = true → forallb host_byte sub = true →
  HasPrefix base "*." = false →
  IsBlocked (Some (NewBlocklist ["*." ++ base])) (sub ++ dot :: base) = true ∧
  IsBlocked (Some (NewBlocklist ["*." ++ base])) base = false ∧
  IsBlocked (Some (NewBlocklist [base])) base = true ∧
  IsBlocked (Some (NewBlocklist [base])) (sub ++ dot :: base) = false.
Proof.
  intros Hne Hb Hs Hw.
  assert (forallb host_byte (sub ++ dot :: base) = true) as Hsb.
  { rewrite forallb_app, Hs. simpl. by rewrite Hb. }
  rewrite !IsBlocked_blockedBy. unfold blockedBy. rewrite !hostName_normal by done.
  cbn [existsb]. unfold lineBlocks.
  rewrite entryPattern_wildcard, entryPattern_exact by done. unfold patternBlocks.
  split_and!; rewrite orb_false_r.
  - apply HasSuffix_app.
  - apply not_true_iff_false. intros [r Hr]%HasSuffix_spec.
    apply (f_equal length) in Hr. rewrite length_app in Hr. simpl in Hr. lia.
  - by apply bool_decide_eq_true.
  - apply bool_decide_eq_false. intros Hr.
    apply (f_equal length) in Hr. rewrite length_app in Hr. simpl in Hr. lia.
Qed.
End spec.

(** ** Instances of the theorems *)

#[local] Instance asciiLower : Unicode := {| unicode_ToLower s := map lower_byte s |}.

Lemma IsBlocked_set_ext_witness :
  IsBlocked (Some (NewBlocklist ["*.bad.org"; "x.com"; "*.bad.org"])) "a.bad.org" =
  IsBlocked (Some (NewBlocklist ["x.com"; "*.bad.org"])) "a.bad.org".
Proof. apply IsBlocked_set_ext. intros d. set_solver. Defined.

Lemma IsBlocked_case_port_witness :
  IsBlocked (Some (NewBlocklist ["bad.org"])) "Bad.ORG:443" = IsBlocked (Some (NewBlocklist ["bad.org"])) "bad.org".
Proof.
  apply (IsBlocked_case_port (Some (NewBlocklist ["bad.org"])) "Bad.ORG" "443");
    [reflexivity|decide_closed..].
Defined.

Lemma IsBlocked_wildcard_exact_witness :
  IsBlocked (Some (NewBlocklist ["*.bad.org"])) "a.b.bad.org" = true ∧
  IsBlocked (Some (NewBlocklist ["*.bad.org"])) "bad.org" = false.
Proof.
  destruct (IsBlocked_wildcard_exact "bad.org" "a.b") as (H1 & H2 & _); [done|reflexivity..|].
  exact (conj H1 H2).
Defined.
