(* ===== verification/Clamd.v ===== *)
(** * The clamd client ([internal/scan/clamd.go])

    The INSTREAM protocol: framing of the scanned stream, the parser of the
    one-line reply, and [ScanReader], which composes them.  The daemon is a
    parameter: whether it can be dialled, how much it accepts before the
    connection breaks, and its reply to the bytes it received. *)
From S2P Require Import Prelude GoStrings GoIO.

(** ** Results *)

Record ScanResult := MkScanResult { Clean : bool; ThreatName : bytes }.

(** The error values of [ScanReader]; the wrapped texts are only logged. *)
Inductive scanErr :=
  | ErrClamdUnavailable
  | ErrWriteCommand
  | ErrStream
  | ErrReadResponse
  | ErrEmptyResponse
  | ErrUnexpected (line : bytes).

(** Where clamd listens, and the time allowed for dialling and for the scan, in
    nanoseconds. *)
Record ClamdClient := MkClamdClient { cl_network : bytes; cl_address : bytes; cl_timeout : Z }.
Definition NewClamdClient (network address : bytes) (timeout : Z) : ClamdClient :=
  MkClamdClient network address timeout.

(** ** Streaming *)

(** [binary.BigEndian.PutUint32]. *)
Definition be32 (n : N) : bytes :=
  [byte_of (n / 2 ^ 24 mod 256); byte_of (n / 2 ^ 16 mod 256);
   byte_of (n / 2 ^ 8 mod 256); byte_of (n mod 256)]%N.

Definition bufSize : nat := 4096.

(** One iteration's writes: nothing for an empty read, else length and data. *)
Definition sendChunk (c : bytes) (conn : sink) : bool * sink :=
  if decide (c = []) then (true, conn)
  else
    let '(_, ok, conn) := Write (be32 (N.of_nat (length c))) conn in
    if ok then let '(_, ok, conn) := Write c conn in (ok, conn) else (false, conn).

Section stream.
Context `{IOReader rd}.

(** The loop of [streamToClamd]; [Some] is its error. *)
Fixpoint streamLoop (fuel : nat) (conn : sink) (r : rd) : option scanErr * sink * rd :=
  match fuel with
  | O => (Some ErrStream, conn, r)
  | S fuel =>
      let '(c, err, r) := Read bufSize r in
      let '(ok, conn) := sendChunk c conn in
      if ok then
        match err with
        | Some EOF =>
            let '(_, ok, conn) := Write (be32 0) conn in
            (if ok then None else Some ErrStream, conn, r)
        | Some Failure => (Some ErrStream, conn, r)
        | None => streamLoop fuel conn r
        end
      else (Some ErrStream, conn, r)
  end.

Definition streamToClamd (conn : sink) (r : rd) : option scanErr * sink * rd :=
  streamLoop (drainFuel r) conn r.
End stream.

(** ** The reply *)

(** [bufio.MaxScanTokenSize]. *)
Definition maxToken : Z := 65536.

(** One [Scan] of a [bufio.Scanner] that splits lines, over a connection that
    delivers [inp] and then ends with [term]: the line, or the error. *)
Definition scanLine (inp : bytes) (term : ioerr) : bytes + scanErr :=
  let dropCR line := TrimSuffix line [CR] in
  match IndexByte inp LF with
  | Some i => if (Z.of_nat i <? maxToken)%Z then inl (dropCR (take i inp)) else inr ErrReadResponse
  | None =>
      if (maxToken <=? Z.of_nat (length inp))%Z then inr ErrReadResponse
      else if decide (inp = []) then
        inr (match term with EOF => ErrEmptyResponse | Failure => ErrReadResponse end)
      else inl (dropCR inp)
  end.

Definition parseReply (line : bytes) : ScanResult + scanErr :=
  if decide (line = "stream: OK") then inl (MkScanResult true [])
  else if HasSuffix line " FOUND" then
    let threat := TrimPrefix line "stream: " in
    let threat := TrimSuffix threat " FOUND" in
    inl (MkScanResult false threat)
  else inr (ErrUnexpected line).

Definition readClamdResult (inp : bytes) (term : ioerr) : ScanResult + scanErr :=
  match scanLine inp term with
  | inl line => parseReply line
  | inr err => inr err
  end.

(** ** [ScanReader] *)

(** The daemon and the connection to it. *)
Record clamd := Clamd {
  dial_ok : bool;
  conn_room : option nat;
  reply : bytes → bytes * ioerr;
}.

Definition command : bytes := "nINSTREAM" ++ [LF].

Definition ScanReader `{IOReader rd} (d : clamd) (r : rd) : (ScanResult + scanErr) * rd :=
  if negb (dial_ok d) then (inr ErrClamdUnavailable, r)
  else
    let '(_, ok, conn) := Write command (Sink [] (conn_room d)) in
    if ok then
      let '(err, conn, r) := streamToClamd conn r in
      match err with
      | Some err => (inr err, r)
      | None => let '(inp, term) := reply d (written_bytes conn) in (readClamdResult inp term, r)
      end
    else (inr ErrWriteCommand, r).

Example ScanReader_ex :
  (ScanReader (Clamd true None (λ s, if Contains s "EICAR"
                                      then ("stream: Eicar-Test FOUND" ++ [LF], EOF)
                                      else ("stream: OK" ++ [LF], EOF)))
     (Source ["xxEI"; "CARyy"] EOF false)).1 = inl (MkScanResult true []).
Proof. vm_compute. reflexivity. Qed.

(** ** The receiving end of INSTREAM *)

Definition be32_val (a b c d : byte) : N :=
  (byte_val a * 2 ^ 24 + byte_val b * 2 ^ 16 + byte_val c * 2 ^ 8 + byte_val d)%N.

(** What a daemon decodes from the bytes after the command: the data of the
    chunks when a zero-length chunk ends the stream, nothing when the stream
    is cut short or something follows its end. *)
Fixpoint decodeFrames (fuel : nat) (s : bytes) : option bytes :=
  match fuel, s with
  | S fuel, a :: b :: c :: d :: rest =>
      let n := N.to_nat (be32_val a b c d) in
      if decide (n = 0%nat) then (if decide (rest = []) then Some [] else None)
      else if decide (length rest < n)%nat then None
      else app (take n rest) <$> decodeFrames fuel (drop n rest)
  | _, _ => None
  end.

Definition decodeStream (s : bytes) : option bytes := decodeFrames (S (length s)) s.

Lemma be32_roundtrip n a b c d :
  (n < 2 ^ 32)%N → be32 n = [a; b; c; d] → be32_val a b c d = n.
Proof.
  intros Hn [= <- <- <- <-]. unfold be32_val.
  rewrite !byte_val_of by (apply N.mod_lt; lia).
  change (2 ^ 24)%N with (256 * (256 * 256))%N. change (2 ^ 16)%N with (256 * 256)%N.
  change (2 ^ 8)%N with 256%N. rewrite <-!N.Div0.div_div.
  rewrite (N.mod_small (n / 256 / 256 / 256)).
  - pose proof (N.Div0.div_mod n 256). pose proof (N.Div0.div_mod (n / 256) 256).
    pose proof (N.Div0.div_mod (n / 256 / 256) 256). lia.
  - repeat apply N.Div0.div_lt_upper_bound. lia.
Qed.

Lemma decodeFrames_chunk fuel c s :
  c ≠ [] → (N.of_nat (length c) < 2 ^ 32)%N →
  decodeFrames (S fuel) (be32 (N.of_nat (length c)) ++ c ++ s) = app c <$> decodeFrames fuel s.
Proof.
  intros Hc Hlen.
  destruct (be32 (N.of_nat (length c))) as [|a [|b [|x [|d [|? ?]]]]] eqn:Hb; try done.
  apply be32_roundtrip in Hb; [|done]. cbn [app decodeFrames]. rewrite Hb, Nat2N.id.
  rewrite decide_False by (by destruct c).
  rewrite decide_False by (rewrite length_app; lia).
  by rewrite take_app_length, drop_app_length.
Qed.

Lemma decodeFrames_end fuel : decodeFrames (S fuel) (be32 0) = Some [].
Proof. reflexivity. Qed.

Lemma decodeFrames_fuel fuel fuel' s :
  (length s < fuel)%nat → (length s < fuel')%nat → decodeFrames fuel s = decodeFrames fuel' s.
Proof.
  revert fuel' s. induction fuel as [|fuel IH]; intros fuel' s Hf Hf'; [lia|].
  destruct fuel' as [|fuel']; [lia|]. simpl.
  destruct s as [|a [|b [|c [|d rest]]]]; try done.
  case_decide; [done|]. case_decide; [done|]. f_equal. simpl in *.
  apply IH; rewrite length_drop; lia.
Qed.

(** The bytes one chunk puts on the wire. *)
Definition frame (c : bytes) : bytes :=
  if decide (c = []) then [] else be32 (N.of_nat (length c)) ++ c.

Lemma decodeStream_frame c s :
  (length c ≤ bufSize)%nat →
  decodeStream (frame c ++ s) = app c <$> decodeStream s.
Proof.
  intros Hc. unfold frame. case_decide as Hn; [subst; simpl; by destruct (decodeStream s)|].
  unfold decodeStream. rewrite <-app_assoc. rewrite decodeFrames_chunk; [|done|].
  2: { unfold bufSize in Hc. lia. }
  f_equal. apply decodeFrames_fuel; rewrite ?length_app; simpl; lia.
Qed.

Lemma decodeStream_frames cs s :
  Forall (λ c, (length c ≤ bufSize)%nat) cs →
  decodeStream (concat (map frame cs) ++ s) = app (concat cs) <$> decodeStream s.
Proof.
  induction 1 as [|c cs Hc _ IH]; simpl; [by destruct (decodeStream s)|].
  rewrite <-app_assoc, decodeStream_frame, IH by done. destruct (decodeStream s); simpl; [|done].
  by rewrite app_assoc.
Qed.

(** ** What is sent *)

Lemma sendChunk_unlimited c out :
  sendChunk c (Sink out None) = (true, Sink (out ++ frame c) None).
Proof.
  unfold sendChunk, frame. case_decide; [by rewrite app_nil_r|].
  unfold Write. simpl. by rewrite <-app_assoc.
Qed.

Section stream_spec.
Context `{IOReader rd}.

(** On a connection that accepts everything the chunks of the drained reader
    are framed one by one, and the end chunk follows exactly when the reader
    ended with [EOF]. *)
Lemma streamLoop_unlimited fuel out (r : rd) cs e r' :
  readAll fuel bufSize r = (cs, Some e, r') →
  streamLoop fuel (Sink out None) r =
  match e with
  | EOF => (None, Sink (out ++ concat (map frame cs) ++ be32 0) None, r')
  | Failure => (Some ErrStream, Sink (out ++ concat (map frame cs)) None, r')
  end.
Proof.
  revert out r cs. induction fuel as [|fuel IH]; intros out r cs; simpl; [done|].
  destruct (Read bufSize r) as [[c err] r1] eqn:Hr. rewrite sendChunk_unlimited.
  destruct err as [err|].
  - intros [= <- -> <-]. simpl. rewrite app_nil_r. destruct e; [|done].
    unfold Write. simpl. by rewrite <-app_assoc.
  - destruct (readAll fuel bufSize r1) as [[cs' e'] r2] eqn:Ha. intros [= <- -> <-].
    rewrite (IH _ _ _ Ha). simpl. by destruct e; rewrite <-!app_assoc.
Qed.

(** Whatever happens to the connection, streaming only reads, and reports
    success only after the reader reported [EOF]. *)
Lemma streamLoop_reads fuel conn (r : rd) err conn' r' :
  streamLoop fuel conn r = (err, conn', r') →
  ∃ cs e, reads r cs e r' ∧ (err = None → e = Some EOF).
Proof.
  revert conn r. induction fuel as [|fuel IH]; intros conn r; simpl.
  { intros [= <- <- <-]. exists [], None. split; [constructor|done]. }
  destruct (Read bufSize r) as [[c e] r1] eqn:Hr.
  assert (0 < bufSize)%nat by (unfold bufSize; lia).
  destruct (sendChunk c conn) as [[] conn1].
  - destruct e as [[]|].
    + destruct (Write (be32 0) conn1) as [[_ ok] conn2]. intros [= <- <- <-].
      exists [c], (Some EOF). split; [by eapply reads_last|done].
    + intros [= <- <- <-]. exists [c], (Some Failure). split; [by eapply reads_last|done].
    + intros (cs & e & Hcs & He)%IH. exists (c :: cs), e. split; [|done].
      by eapply reads_cons.
  - intros [= <- <- <-]. exists [c], e. split; [|done].
    destruct e; [by eapply reads_last|]. eapply reads_cons; [done..|constructor].
Qed.
End stream_spec.

(** ** The scanner interface ([Scanner] in [internal/scan/manager.go]) *)

(** What the job manager relies on: a scanner does nothing to the stream but
    read it, and it gives a verdict only on a stream it has read to [EOF]. *)
Class Scanner := {
  scan_reader rd `{IOReader rd} : rd → (ScanResult + scanErr) * rd;
  scan_reads rd `{IOReader rd} (r : rd) :
    ∃ cs e, reads r cs e (scan_reader rd r).2 ∧
            (∀ res, (scan_reader rd r).1 = inl res → e = Some EOF);
}.

Lemma ScanReader_reads `{IOReader rd} d (r : rd) :
  ∃ cs e, reads r cs e (ScanReader d r).2 ∧
          (∀ res, (ScanReader d r).1 = inl res → e = Some EOF).
Proof.
  unfold ScanReader. destruct (dial_ok d); simpl.
  2: { exists [], None. split; [constructor|done]. }
  destruct (Write command (Sink [] (conn_room d))) as [[q []] conn].
  2: { exists [], None. split; [constructor|done]. }
  unfold streamToClamd. destruct (streamLoop (drainFuel r) conn r) as [[err conn'] r'] eqn:Hs.
  apply streamLoop_reads in Hs as (cs & e & Hr & He). exists cs, e.
  destruct err as [err|]; simpl; [by split|]. destruct (reply d (written_bytes conn')). naive_solver.
Qed.

(** The clamd client implements the interface. *)
#[export] Instance clamd_scanner (d : clamd) : Scanner := {|
  scan_reader rd _ r := ScanReader d r;
  scan_reads rd _ r := ScanReader_reads d r;
|}.

(** ** Properties *)

(** C24. Streaming a body to clamd is lossless: whatever the sizes of the reads,
    the daemon decodes from the frames exactly the body's bytes, and a body
    that breaks off is never framed as a complete stream but reported as an
    error. *)
Theorem streamToClamd_roundtrip (r : source) :
  let '(err, conn, _) := streamToClamd (Sink [] None) r in
  match final r with
  | EOF => err = None ∧ decodeStream (written_bytes conn) = Some (content r)
  | Failure => err = Some ErrStream ∧ decodeStream (written_bytes conn) = None
  end.
Proof.
  assert (0 < bufSize)%nat as Hk by (unfold bufSize; lia).
  destruct (drain_source bufSize r Hk) as (cs & r' & Hd & Hc & _). unfold drain in Hd.
  pose proof (readAll_length (drainFuel r) bufSize r) as Hl. rewrite Hd in Hl. simpl in Hl.
  rewrite Hc. unfold streamToClamd. rewrite (streamLoop_unlimited _ _ _ _ _ _ Hd).
  destruct (final r); simpl; split; [done| |done|].
  - rewrite decodeStream_frames by done. simpl. by rewrite app_nil_r.
  - rewrite <-(app_nil_r (concat (map frame cs))). by rewrite decodeStream_frames.
Qed.

Lemma scanLine_terminated line rest term :
  LF ∉ line → (Z.of_nat (length line) < maxToken)%Z → HasSuffix line [CR] = false →
  scanLine (line ++ LF :: rest) term = inl line.
Proof.
  intros Hn Hl Hcr. unfold scanLine. rewrite IndexByte_app by done.
  rewrite (proj2 (Z.ltb_lt _ _) Hl), take_app_length. unfold TrimSuffix. by rewrite Hcr.
Qed.

Lemma HasSuffix_last s c d : c ≠ d → HasSuffix (s ++ [c]) [d] = false.
Proof.
  intros Hne. apply not_true_iff_false. intros [r Hr]%HasSuffix_spec.
  by apply app_inj_tail in Hr as [_ ?].
Qed.

(** The reply parser reports a clean file only for the exact line
    [stream: OK]; every threat name in a [stream: <name> FOUND] line comes back
    unchanged, and anything else is an error rather than a verdict. *)
Theorem readClamdResult_verdict :
  (∀ inp term res, readClamdResult inp term = inl res →
     (Clean res = true ↔ scanLine inp term = inl (str "stream: OK")) ∧
     (Clean res = false → ∃ line, scanLine inp term = inl line ∧ HasSuffix line " FOUND" = true)) ∧
  (∀ t rest term, LF ∉ t → (Z.of_nat (length t) < maxToken - 14)%Z →
     readClamdResult ("stream: " ++ t ++ " FOUND" ++ LF :: rest) term = inl (MkScanResult false t)).
Proof.
  split.
  - intros inp term res. unfold readClamdResult, parseReply.
    destruct (scanLine inp term) as [line|err]; [|done].
    case_decide as Hok; [intros [= <-]; subst; naive_solver|].
    destruct (HasSuffix line " FOUND") eqn:Hf; [|done]. intros [= <-]. simpl.
    split; [|by eauto]. split; [done|]. intros [= ->]. by destruct Hok.
  - intros t rest term Ht Hl. unfold readClamdResult.
    assert (str " FOUND" = " FOUN" ++ ["D"%char]) as HD by done.
    replace ("stream: " ++ t ++ " FOUND" ++ LF :: rest)
      with (("stream: " ++ t ++ " FOUND") ++ LF :: rest) by (by rewrite <-!app_assoc).
    rewrite scanLine_terminated.
    + unfold parseReply. rewrite decide_False.
      * by rewrite app_assoc, HasSuffix_app, <-app_assoc, TrimPrefix_app, TrimSuffix_app.
      * intros Heq. apply (f_equal (λ s, HasSuffix s " FOUND")) in Heq.
        by rewrite app_assoc, HasSuffix_app in Heq.
    + rewrite !elem_of_app. intros [Hin|[?|Hin]]; [|done|];
        apply list_elem_of_In in Hin; simpl in Hin; by destruct_or! Hin.
    + unfold maxToken in *. rewrite !length_app. simpl. lia.
    + rewrite HD, !app_assoc. by apply HasSuffix_last.
Qed.
