(* ===== verification/ScanConfig.v ===== *)
(** * The scan policy ([internal/scan/config.go])

    Which responses are scanned, by media type, and the size limit in bytes
    with the overflow of its conversion. *)
From S2P Require Import Prelude GoStrings.

Record MimeRule := MkMimeRule { rule_Pattern : bytes; rule_IsPrefix : bool; rule_Enabled : bool }.

Record ScanConfig := MkScanConfig { cfg_Enabled : bool; MaxSizeMB : Z; Rules : list MimeRule }.

(** [c.MaxSizeMB << 20] on [int64]. *)
Definition MaxSizeBytes (c : ScanConfig) : Z := wrap64 (Z.shiftl (MaxSizeMB c) 20).

Definition semicolon : byte := ";"%char.

Section config.
Context `{Unicode}.

(** The media type of a Content-Type: parameters cut, lower case, trimmed. *)
Definition mediaType (ct : bytes) : bytes :=
  let ct := match IndexByte ct semicolon with Some i => take i ct | None => ct end in
  TrimSpace (ToLower ct).

(** The body of the loop over the rules: whether it returns true. *)
Definition ruleMatches (ct : bytes) (r : MimeRule) : bool :=
  if negb (rule_Enabled r) then false
  else if rule_IsPrefix r then HasPrefix ct (TrimSuffix (rule_Pattern r) "*")
  else bool_decide (ct = rule_Pattern r).

Definition IsScannable (c : ScanConfig) (ct : bytes) : bool :=
  if negb (cfg_Enabled c) then false
  else existsb (ruleMatches (mediaType ct)) (Rules c).
End config.

Definition exactRule (p : bytes) : MimeRule := MkMimeRule p false true.
Definition prefixRule (p : bytes) : MimeRule := MkMimeRule p true true.

Definition DefaultScanConfig : ScanConfig := {|
  cfg_Enabled := true;
  MaxSizeMB := 100;
  Rules := map exactRule [
      (* archives *)
      "application/zip"; "application/x-zip-compressed"; "application/vnd.rar";
      "application/x-7z-compressed"; "application/x-tar"; "application/gzip";
      "application/x-bzip2"; "application/x-xz"; "application/x-lzma";
      "application/x-lzip"; "application/x-zstd"; "application/x-cab";
      "application/vnd.ms-cab-compressed"; "application/x-iso9660-image";
      "application/x-apple-diskimage";
      (* executables *)
      "application/octet-stream"; "binary/octet-stream"; "application/x-msdownload";
      "application/x-dosexec"; "application/x-executable"; "application/x-msi";
      "application/x-ms-installer"; "application/vnd.microsoft.portable-executable";
      (* documents *)
      "application/pdf"; "application/rtf"; "text/rtf"; "application/msword";
      "application/vnd.ms-excel"; "application/vnd.ms-powerpoint";
      "application/vnd.ms-office";
      "application/vnd.openxmlformats-officedocument.wordprocessingml.document";
      "application/vnd.openxmlformats-officedocument.spreadsheetml.sheet";
      "application/vnd.openxmlformats-officedocument.presentationml.presentation";
      (* Java and Android *)
      "application/java-archive"; "application/x-java-archive";
      "application/vnd.android.package-archive";
      (* mail *)
      "message/rfc822"; "application/vnd.ms-outlook"]
    ++ [prefixRule "application/x-*"];
|}.

Example IsScannable_ex :
  let _ := Build_Unicode id in
  map (IsScannable DefaultScanConfig)
    ["Application/PDF; charset=x"; " text/html"; "application/x-shellscript"; ""]
  = [true; false; true; false].
Proof. vm_compute. reflexivity. Qed.

(** ** The specification of the policy *)

Section config_spec.
Context `{Unicode}.

Definition ruleCovers (r : MimeRule) (ct : bytes) : Prop :=
  if rule_IsPrefix r then ∃ rest, ct = TrimSuffix (rule_Pattern r) "*" ++ rest
  else ct = rule_Pattern r.

Lemma ruleMatches_spec ct r :
  ruleMatches ct r = true ↔ rule_Enabled r = true ∧ ruleCovers r ct.
Proof.
  unfold ruleMatches, ruleCovers. destruct (rule_Enabled r); simpl; [|naive_solver].
  destruct (rule_IsPrefix r); [rewrite HasPrefix_spec|rewrite bool_decide_eq_true]; naive_solver.
Qed.

Lemma IsScannable_spec c ct :
  IsScannable c ct = true ↔
  cfg_Enabled c = true ∧
  ∃ r, r ∈ Rules c ∧ rule_Enabled r = true ∧ ruleCovers r (mediaType ct).
Proof.
  unfold IsScannable. destruct (cfg_Enabled c); simpl; [|naive_solver].
  rewrite existsb_exists. setoid_rewrite ruleMatches_spec. setoid_rewrite <-list_elem_of_In.
  naive_solver.
Qed.

Lemma mediaType_params t params :
  semicolon ∉ t → mediaType (t ++ semicolon :: params) = mediaType t.
Proof.
  intros Ht. unfold mediaType. rewrite IndexByte_app, take_app_length by done.
  by rewrite (proj2 (IndexByte_None t semicolon) Ht).
Qed.

Lemma lower_semicolon t : semicolon ∉ t → semicolon ∉ map lower_byte t.
Proof.
  intros Ht. rewrite list_elem_of_In, in_map_iff. intros (c & Hc & Hin).
  apply list_elem_of_In in Hin. unfold lower_byte in Hc. fold (is_upper c) in Hc.
  destruct (is_upper c) eqn:Hu; [|congruence]. unfold is_upper in Hu.
  apply andb_true_iff in Hu as [H1 H2]. apply N.leb_le in H1, H2.
  apply (f_equal byte_val) in Hc. rewrite byte_val_of in Hc by lia.
  change (byte_val semicolon) with 59%N in Hc. lia.
Qed.

Lemma mediaType_lower t :
  forallb is_ascii t = true → semicolon ∉ t → mediaType (map lower_byte t) = mediaType t.
Proof.
  intros Ha Ht. unfold mediaType.
  rewrite (proj2 (IndexByte_None t semicolon) Ht).
  rewrite (proj2 (IndexByte_None _ semicolon) (lower_semicolon t Ht)).
  rewrite !ToLower_ascii, map_lower_idemp; by rewrite ?map_lower_ascii.
Qed.

(** Whether a response is scanned depends only on its media type: neither
    the parameters after it nor the case of its letters change the decision. *)
Theorem IsScannable_params_case c t params :
  forallb is_ascii t = true → semicolon ∉ t →
  IsScannable c (t ++ semicolon :: params) = IsScannable c (map lower_byte t).
Proof.
  intros Ha Ht. unfold IsScannable. by rewrite mediaType_params, mediaType_lower by done.
Qed.
End config_spec.

(** The byte limit is [MaxSizeMB] mebibytes for every setting below 2^43,
    and from there to 2^44 the shift wraps to a negative limit. *)
Theorem MaxSizeBytes_bounds c :
  ((0 ≤ MaxSizeMB c < 2 ^ 43)%Z → MaxSizeBytes c = (MaxSizeMB c * 2 ^ 20)%Z) ∧
  ((2 ^ 43 ≤ MaxSizeMB c < 2 ^ 44)%Z → (MaxSizeBytes c < 0)%Z).
Proof.
  unfold MaxSizeBytes. rewrite Z.shiftl_mul_pow2 by lia.
  change (2 ^ 20)%Z with 1048576%Z. split; intros Hmb.
  - apply wrap64_id. unfold int64_range. lia.
  - unfold wrap64. set (x := (MaxSizeMB c * 1048576)%Z).
    replace (x + 2 ^ 63)%Z with (x - 2 ^ 63 + 1 * 2 ^ 64)%Z by lia.
    rewrite Z.mod_add by lia. rewrite Z.mod_small by lia. lia.
Qed.

Lemma IsScannable_params_case_witness :
  let _ := Build_Unicode id in
  IsScannable DefaultScanConfig "Application/PDF; name=a.pdf" = IsScannable DefaultScanConfig "application/pdf".
Proof.
  intros H. apply (IsScannable_params_case DefaultScanConfig "Application/PDF" " name=a.pdf");
    [reflexivity|decide_closed].
Defined.
