(* ===== verification/ScanUtil.v ===== *)
(** * File names of downloads ([internal/scan/util.go]) *)
From S2P Require Import Prelude GoStrings.

(** [splitParts]: the scan over the bytes; [cur] is [s[start:i]]. *)
Fixpoint splitFrom (s cur : bytes) : list bytes :=
  match s with
  | [] => [cur]
  | c :: s => if decide (c = ";"%char) then cur :: splitFrom s [] else splitFrom s (cur ++ [c])
  end.
Definition splitParts (s : bytes) : list bytes := splitFrom s [].

Definition blank (c : byte) : bool := bool_decide (c = " "%char) || bool_decide (byte_val c = 9%N).

(** The first loop of [trimASCIISpace] moves [i], the second moves [j]. *)
Fixpoint trimLeft (s : bytes) : bytes :=
  match s with c :: s' => if blank c then trimLeft s' else s | [] => [] end.
Definition trimRight (s : bytes) : bytes := rev (trimLeft (rev s)).
Definition trimASCIISpace (s : bytes) : bytes := trimRight (trimLeft s).

(** [foldEqual]: bytes compared with bit 5 set. *)
Fixpoint foldEqual (a b : bytes) : bool :=
  match a, b with
  | [], [] => true
  | ca :: a, cb :: b =>
      if decide (N.lor (byte_val ca) 32 = N.lor (byte_val cb) 32) then foldEqual a b else false
  | _, _ => false
  end.

Definition unquote (name : bytes) : bytes :=
  if (2 <=? length name)%nat && bool_decide (head name = Some dquote)
     && bool_decide (last name = Some dquote)
  then take (length name - 2) (drop 1 name)
  else name.

Definition filenamePfx : bytes := "filename=".

(** The loop over the parts of Content-Disposition. *)
Fixpoint filenameParam (parts : list bytes) : option bytes :=
  match parts with
  | [] => None
  | part :: parts =>
      let part := trimASCIISpace part in
      if (length filenamePfx <? length part)%nat
         && foldEqual (take (length filenamePfx) part) filenamePfx
      then Some (unquote (drop (length filenamePfx) part))
      else filenameParam parts
  end.

(** The last segment of the URL path. *)
Definition pathName (path : bytes) : option bytes :=
  match LastIndexByte path slash with
  | None => None
  | Some i => let name := drop (S i) path in if decide (name = []) then None else Some name
  end.

(** [filenameFrom] of a request path and a Content-Disposition value. *)
Definition filenameFrom (path cd : bytes) : bytes :=
  let fallback := match pathName path with Some name => name | None => "download" end in
  if decide (cd = []) then fallback
  else match filenameParam (splitParts cd) with Some name => name | None => fallback end.

Example filenameFrom_ex :
  filenameFrom "/a/b.exe" [] = "b.exe" ∧
  filenameFrom "/a/" [] = "download" ∧
  filenameFrom "/" ("attachment; FileName=" ++ [dquote] ++ "x y.zip" ++ [dquote]) = "x y.zip" ∧
  filenameFrom "/" ("inline ;filename=x.zip ; size=3") = "x.zip".
Proof. vm_compute. done. Qed.

(** ** Lemmas *)

Lemma splitFrom_Split s cur :
  splitFrom s cur =
  match Split s ";"%char with p :: ps => (cur ++ p) :: ps | [] => [cur] end.
Proof.
  revert cur. induction s as [|c s IH]; intros cur; simpl; [by rewrite app_nil_r|].
  case_decide.
  - rewrite IH, app_nil_r. destruct (Split s ";"%char) eqn:Hs; [by apply Split_not_nil in Hs|done].
  - rewrite IH. destruct (Split s ";"%char) eqn:Hs; [by apply Split_not_nil in Hs|].
    by rewrite <-app_assoc.
Qed.

(** The hand-written splitter is [strings.Split(s, ";")]. *)
Lemma splitParts_Split s : splitParts s = Split s ";"%char.
Proof.
  unfold splitParts. rewrite splitFrom_Split. destruct (Split s ";"%char) eqn:Hs; [|done].
  by apply Split_not_nil in Hs.
Qed.

Lemma trimLeft_id s : (∀ c, head s = Some c → blank c = false) → trimLeft s = s.
Proof. destruct s as [|c s]; [done|]. simpl. intros H. by rewrite (H c eq_refl). Qed.

Lemma trimLeft_head s c : head (trimLeft s) = Some c → blank c = false.
Proof.
  induction s as [|d s IH]; simpl; [done|]. destruct (blank d) eqn:Hd; [done|]. by intros [= <-].
Qed.

Lemma trimLeft_split s : ∃ l, Forall (λ c, blank c = true) l ∧ s = l ++ trimLeft s.
Proof.
  induction s as [|c s (l & Hl & IH)]; simpl; [by exists []|].
  destruct (blank c) eqn:Hc; [|by exists []]. exists (c :: l). simpl. rewrite <-IH. auto.
Qed.

Lemma head_rev {A} (l : list A) : head (rev l) = last l.
Proof. destruct l as [|x l] using rev_ind; [done|]. by rewrite rev_app_distr, last_snoc. Qed.

Lemma trimRight_id s : (∀ c, last s = Some c → blank c = false) → trimRight s = s.
Proof.
  intros H. unfold trimRight. rewrite trimLeft_id; [apply rev_involutive|].
  intros c Hc. apply H. by rewrite <-head_rev.
Qed.

Lemma foldEqual_refl s : foldEqual s s = true.
Proof. induction s as [|c s IH]; simpl; [done|]. by rewrite decide_True. Qed.

Lemma filenameParam_cons part parts :
  filenameParam (part :: parts) =
  match filenameParam [part] with Some name => Some name | None => filenameParam parts end.
Proof. cbn [filenameParam]. by destruct (_ && _). Qed.

Lemma filenameParam_here name :
  name ≠ [] → (∀ c, last name = Some c → blank c = false) →
  filenameParam [" " ++ filenamePfx ++ name] = Some (unquote name).
Proof.
  intros Hne Hl. cbn [filenameParam].
  assert (trimASCIISpace (" " ++ filenamePfx ++ name) = filenamePfx ++ name) as ->.
  { unfold trimASCIISpace. change (trimLeft (" " ++ filenamePfx ++ name)) with (filenamePfx ++ name).
    apply trimRight_id. intros c. rewrite last_app. destruct (last name) eqn:Hn; [naive_solver|].
    by apply last_None in Hn. }
  rewrite take_app_length, drop_app_length, foldEqual_refl.
  rewrite (proj2 (Nat.ltb_lt _ _)); [done|]. rewrite length_app.
  destruct name; [done|]. simpl. lia.
Qed.

Lemma unquote_quoted name : unquote (dquote :: name ++ [dquote]) = name.
Proof.
  unfold unquote. rewrite (proj2 (Nat.leb_le _ _)) by (simpl; rewrite length_app; simpl; lia).
  change (dquote :: name ++ [dquote]) with ((dquote :: name) ++ [dquote]).
  rewrite last_snoc, !bool_decide_eq_true_2 by done. cbn [andb app drop].
  rewrite drop_0. replace (length (dquote :: name ++ [dquote]) - 2)%nat with (length name).
  - apply take_app_length.
  - simpl. rewrite length_app. simpl. lia.
Qed.

Lemma pathName_spec path name : pathName path = Some name → name ≠ [] ∧ slash ∉ name.
Proof.
  unfold pathName. destruct (LastIndexByte path slash) as [i|] eqn:Hi; [|done].
  case_decide as Hn; [done|]. intros [= <-]. split; [done|]. clear Hn.
  revert i Hi. induction path as [|c path IH]; intros i; simpl; [done|].
  destruct (LastIndexByte path slash) as [j|] eqn:Hj.
  - intros [= <-]. by apply IH.
  - case_decide; [|done]. intros [= <-]. simpl. rewrite drop_0. by apply LastIndexByte_None.
Qed.

Lemma filenameFrom_quoted path disp name :
  ";"%char ∉ disp → filenameParam [disp] = None → ";"%char ∉ name →
  filenameFrom path (disp ++ "; filename=" ++ dquote :: name ++ [dquote]) = name.
Proof.
  intros Hd Hnone Hn. unfold filenameFrom. rewrite decide_False by (by destruct disp).
  change ("; filename=" ++ dquote :: name ++ [dquote])
    with (";"%char :: " " ++ filenamePfx ++ dquote :: name ++ [dquote]).
  rewrite splitParts_Split, Split_app_sep, (Split_no_sep disp) by done.
  rewrite Split_no_sep.
  + cbn [app]. rewrite filenameParam_cons, Hnone, filenameParam_here, unquote_quoted; [done..|].
    intros c. change (dquote :: name ++ [dquote]) with ((dquote :: name) ++ [dquote]).
    rewrite last_snoc. by intros [= <-].
  + rewrite !elem_of_app, elem_of_cons, elem_of_app. intros Hin.
    destruct_or! Hin; try done; apply list_elem_of_In in Hin; simpl in Hin; by destruct_or! Hin.
Qed.

(** A quoted [filename] parameter is returned exactly, whatever disposition
    precedes it; without such a parameter the name is the last segment of the
    path or [download], so it is never empty and holds no slash. *)
Theorem filenameFrom_spec :
  (∀ path disp name,
     ";"%char ∉ disp → filenameParam [disp] = None → ";"%char ∉ name →
     filenameFrom path (disp ++ "; filename=" ++ dquote :: name ++ [dquote]) = name) ∧
  (∀ path cd,
     cd = [] ∨ filenameParam (splitParts cd) = None →
     filenameFrom path cd ≠ [] ∧ slash ∉ filenameFrom path cd).
Proof.
  split.
  - apply filenameFrom_quoted.
  - intros path cd Hcd.
    assert (filenameFrom path cd =
      match pathName path with Some name => name | None => str "download" end) as ->.
    { unfold filenameFrom. case_decide; [done|]. by destruct Hcd as [?| ->]. }
    destruct (pathName path) as [name|] eqn:Hp; [by eapply pathName_spec|].
    split; [done|]. intros Hin%list_elem_of_In. simpl in Hin. by destruct_or! Hin.
Qed.
