(* ===== verification/Services.v ===== *)
(** * What the program uses of its environment

    Redis, JSON encoding and hashing are not part of the sources: they are
    parameters, given here as type classes with the documented laws that some
    theorems rely on. *)
From S2P Require Import Prelude.

(** ** Redis *)

(** The answer to a command: a value, [redis.Nil], or another error. *)
Inductive reply (A : Type) := Val (a : A) | Nil | ErrReply.
Arguments Val {A} a.
Arguments Nil {A}.
Arguments ErrReply {A}.

(** The string commands of a Redis client on a database state; [true] is a
    command that succeeded. *)
Class Redis (db : Type) := {
  GET : bytes → db → reply bytes;
  SET : bytes → bytes → Z → db → bool * db;
  DEL : bytes → db → bool * db;
}.

(** A value that was set, for a time or, with a time of zero, for good, is the
    value read back, and a [SET] or [DEL] of one
    key, successful or not, brings no other value into the database. *)
Class RedisLaws (db : Type) `{Redis db} := {
  GET_SET k v ttl d d' : (0 ≤ ttl)%Z → SET k v ttl d = (true, d') → GET k d' = Val v;
  GET_after_SET k v ttl d k' v' :
    GET k' (SET k v ttl d).2 = Val v' → GET k' d = Val v' ∨ (k' = k ∧ v' = v);
  GET_after_DEL k d k' v' : GET k' (DEL k d).2 = Val v' → GET k' d = Val v';
}.

(** A database that never fails, to instantiate the parameter. *)
Definition mapdb : Type := gmap bytes bytes.

#[export] Instance mapdb_redis : Redis mapdb := {|
  GET k d := match (d : gmap bytes bytes) !! k with Some v => Val v | None => Nil end;
  SET k v ttl d := (true, <[k := v]> (d : gmap bytes bytes));
  DEL k d := (true, delete k (d : gmap bytes bytes));
|}.

#[export] Instance mapdb_laws : RedisLaws mapdb.
Proof.
  split.
  - intros k v ttl d d' _ [= <-]. simpl. by rewrite lookup_insert_eq.
  - intros k v ttl d k' v'. simpl. rewrite lookup_insert. case_decide; naive_solver.
  - intros k d k' v'. simpl. rewrite lookup_delete. by case_decide.
Qed.

(** ** Hashing *)

(** [sha256.Sum256] of a byte string. *)
Class SHA256 := { sha256 : bytes → bytes }.

(** A stand-in to instantiate the parameter in examples. *)
Definition plainHash : SHA256 := {| sha256 s := s |}.

(** [fmt.Sprintf("%x", b)] of a byte slice: two lower-case digits a byte. *)
Definition hex_digit (n : N) : byte :=
  byte_of (if n <? 10 then 48 + n else 87 + n)%N.

Definition hex (s : bytes) : bytes :=
  concat (map (λ c, [hex_digit (byte_val c / 16); hex_digit (byte_val c mod 16)]%N) s).

Lemma hex_digit_val n : (n < 16)%N → byte_val (hex_digit n) = (if n <? 10 then 48 + n else 87 + n)%N.
Proof. intros Hn. unfold hex_digit. apply N_ascii_embedding. destruct (n <? 10)%N; lia. Qed.

Lemma hex_digit_inj n m : (n < 16)%N → (m < 16)%N → hex_digit n = hex_digit m → n = m.
Proof.
  intros Hn Hm H. apply (f_equal byte_val) in H. rewrite !hex_digit_val in H by done.
  destruct (N.ltb_spec n 10), (N.ltb_spec m 10); lia.
Qed.

Lemma hex_inj s t : hex s = hex t → s = t.
Proof.
  revert t. induction s as [|c s IH]; intros [|d t]; try done.
  unfold hex. simpl. intros [= H1 H2 H3]. f_equal; [|by apply IH].
  pose proof (N_ascii_bounded c) as Hc. pose proof (N_ascii_bounded d) as Hd.
  unfold byte_val in *.
  apply hex_digit_inj in H1; [|by apply N.Div0.div_lt_upper_bound..].
  apply hex_digit_inj in H2; [|by apply N.mod_lt..].
  rewrite <-(ascii_N_embedding c), <-(ascii_N_embedding d). f_equal.
  rewrite (N.Div0.div_mod (N_of_ascii c) 16), (N.Div0.div_mod (N_of_ascii d) 16).
  congruence.
Qed.

(** ** JSON *)

(** [json.Marshal] and [json.Unmarshal] for one Go struct type. *)
Class JSON (A : Type) := {
  marshal : A → bytes;
  unmarshal : bytes → option A;
}.

(** Decoding what was encoded, for the values [ok] that hold valid text. *)
Class JSONLaws (A : Type) `{JSON A} (ok : A → Prop) := {
  unmarshal_marshal a : ok a → unmarshal (marshal a) = Some a;
}.
