(* ===== verification/SyncMap.v ===== *)
(** * Shared tables: [sync.Map] with an atomic counter

    The in-memory caches of the program keep a [sync.Map] and a separate
    [atomic.Int64] that is meant to count its entries.  A cache operation is a
    program over the individual atomic calls, so the same definition can be
    run alone ([run]) and interleaved with others call by call ([pool_step]). *)
From S2P Require Import Prelude Services.

(** What the [select] of a clean-up goroutine receives: a tick of its ticker, or
    the end of its context. *)
Inductive wake := Ticked | CtxDone.

Section syncmap.
Context {Tab : Type} `{EqDecision Tab} {V : Type} {db : Type} `{Redis db}.

(** One table: the map and the counter next to it. *)
Record table := MkTable { entries : gmap bytes V; count : Z }.

(** The memory the goroutines share, the clock and the Redis database. *)
Record shared := MkShared { tables : Tab → table; clock : Z; rdb : db }.

Definition update (t : Tab) (x : table) (s : shared) : shared :=
  MkShared (λ t', if decide (t' = t) then x else tables s t') (clock s) (rdb s).

(** The atomic calls. *)
Inductive op : Type → Type :=
  | Load (t : Tab) (k : bytes) : op (option V)
  | LoadOrStore (t : Tab) (k : bytes) (v : V) : op bool
  | Store (t : Tab) (k : bytes) (v : V) : op unit
  | Delete (t : Tab) (k : bytes) : op unit
  | Range (t : Tab) : op (list (bytes * V))
  | Count (t : Tab) : op Z
  | Add (t : Tab) (d : Z) : op unit
  | Now : op Z
  | RGet (k : bytes) : op (reply bytes)
  | RSet (k v : bytes) (ttl : Z) : op bool
  | RDel (k : bytes) : op bool.

(** The effect of one call: its result and the memory after it.  The boolean of
    [LoadOrStore] is Go's [loaded]. *)
Definition exec {A} (o : op A) (s : shared) : A * shared :=
  match o with
  | Load t k => (entries (tables s t) !! k, s)
  | LoadOrStore t k v =>
      match entries (tables s t) !! k with
      | Some _ => (true, s)
      | None => (false, update t (MkTable (<[k := v]> (entries (tables s t))) (count (tables s t))) s)
      end
  | Store t k v =>
      (tt, update t (MkTable (<[k := v]> (entries (tables s t))) (count (tables s t))) s)
  | Delete t k =>
      (tt, update t (MkTable (delete k (entries (tables s t))) (count (tables s t))) s)
  | Range t => (map_to_list (entries (tables s t)), s)
  | Count t => (count (tables s t), s)
  | Add t d => (tt, update t (MkTable (entries (tables s t)) (count (tables s t) + d)) s)
  | Now => (clock s, s)
  | RGet k => (GET k (rdb s), s)
  | RSet k v ttl =>
      let '(ok, d) := SET k v ttl (rdb s) in (ok, MkShared (tables s) (clock s) d)
  | RDel k => let '(ok, d) := DEL k (rdb s) in (ok, MkShared (tables s) (clock s) d)
  end.

(** A goroutine: calls, each followed by the code that uses its result. *)
Inductive prog (A : Type) :=
  | Ret (a : A)
  | Do {B : Type} (o : op B) (k : B → prog A).
Arguments Ret {A} a.
Arguments Do {A B} o k.

Fixpoint bind {A B} (p : prog A) (f : A → prog B) : prog B :=
  match p with
  | Ret a => f a
  | Do o k => Do o (λ b, bind (k b) f)
  end.

Definition call {B} (o : op B) : prog B := Do o Ret.

Fixpoint run {A} (p : prog A) (s : shared) : A * shared :=
  match p with
  | Ret a => (a, s)
  | Do o k => let '(b, s) := exec o s in run (k b) s
  end.

Lemma run_bind {A B} (p : prog A) (f : A → prog B) s :
  run (bind p f) s = let '(a, s') := run p s in run (f a) s'.
Proof.
  revert s. induction p as [a|C o k IH]; intros s; simpl; [done|].
  destruct (exec o s) as [b s']. apply IH.
Qed.

(** A clean-up goroutine: [tick] at every tick until its context ends. *)
Fixpoint everyTick (tick : prog unit) (ws : list wake) : prog unit :=
  match ws with
  | Ticked :: ws => bind tick (λ _, everyTick tick ws)
  | CtxDone :: _ | [] => Ret tt
  end.

(** ** Interleaving *)

(** The next call of one goroutine. *)
Definition step_prog {A} (p : prog A) (s : shared) : prog A * shared :=
  match p with
  | Ret a => (Ret a, s)
  | Do o k => let '(b, s') := exec o s in (k b, s')
  end.

(** A pool of goroutines: any one of them does its next call, or time passes
    and Redis forgets some of its values. *)
Inductive pool_step {A} : list (prog A) * shared → list (prog A) * shared → Prop :=
  | step_call ps s i p :
      ps !! i = Some p →
      pool_step (ps, s) (<[i := (step_prog p s).1]> ps, (step_prog p s).2)
  | step_tick ps s d r :
      (0 ≤ d)%Z → (∀ k v, GET k r = Val v → GET k (rdb s) = Val v) →
      pool_step (ps, s) (ps, MkShared (tables s) (clock s + d) r).

(** One particular interleaving, given by the goroutine to move at each step. *)
Fixpoint schedule {A} (sched : list nat) (c : list (prog A) * shared) : list (prog A) * shared :=
  match sched with
  | [] => c
  | i :: sched =>
      match c.1 !! i with
      | Some p => schedule sched (<[i := (step_prog p c.2).1]> c.1, (step_prog p c.2).2)
      | None => schedule sched c
      end
  end.

Lemma schedule_steps {A} sched (c : list (prog A) * shared) : rtc pool_step c (schedule sched c).
Proof.
  revert c. induction sched as [|i sched IH]; intros [ps s]; simpl; [done|].
  destruct (ps !! i) as [p|] eqn:Hi; [|apply IH].
  eapply rtc_l; [by apply (step_call ps s i p)|apply IH].
Qed.

(** A program that runs alone is one of the interleavings. *)
Lemma run_steps {A} (p : prog A) s : rtc pool_step ([p], s) ([Ret (run p s).1], (run p s).2).
Proof.
  revert s. induction p as [a|B o k IH]; intros s; simpl; [done|].
  destruct (exec o s) as [b s'] eqn:He. eapply rtc_l; [|apply IH].
  pose proof (step_call [Do o k] s 0 (Do o k) eq_refl) as Hstep. simpl in Hstep. by rewrite He in Hstep.
Qed.

Lemma schedule_reaches {A} sched (c : list (prog A) * shared) (P : list (prog A) * shared → Prop) :
  P (schedule sched c) → ∃ ps s', rtc pool_step c (ps, s') ∧ P (ps, s').
Proof.
  intros HP. exists (schedule sched c).1, (schedule sched c).2.
  rewrite <-surjective_pairing. auto using schedule_steps.
Qed.

(** *** Thread-modular reasoning

    [I t k v] is what every entry of a table satisfies and [J k v] what every
    value in Redis satisfies, whoever wrote it; [T0] is a time that has passed.  A
    call may rely on it for what it reads and must keep it for what it writes. *)
Section invariant.
Variable I : Tab → bytes → V → Prop.
Variable J : bytes → bytes → Prop.
Variable T0 : Z.

Definition guarantee {B} (o : op B) : Prop :=
  match o with
  | LoadOrStore t k v => I t k v
  | Store t k v => I t k v
  | RSet k v ttl => J k v
  | _ => True
  end.

Definition rely {B} (o : op B) : B → Prop :=
  match o in op B return B → Prop with
  | Load t k => λ r, ∀ v, r = Some v → I t k v
  | Range t => λ r, ∀ k v, (k, v) ∈ r → I t k v
  | RGet k => λ r, ∀ v, r = Val v → J k v
  | Now => λ now, (T0 ≤ now)%Z
  | _ => λ _, True
  end.

(** Every call keeps the invariant, whatever the others do, and the result
    satisfies [Q]. *)
Fixpoint safe {A} (p : prog A) (Q : A → Prop) : Prop :=
  match p with
  | Ret a => Q a
  | Do o k => guarantee o ∧ ∀ b, rely o b → safe (k b) Q
  end.

Definition shared_ok (s : shared) : Prop :=
  (∀ t k v, entries (tables s t) !! k = Some v → I t k v) ∧
  (∀ k v, GET k (rdb s) = Val v → J k v) ∧ (T0 ≤ clock s)%Z.

Context `{!RedisLaws db}.

Lemma shared_ok_update t x s :
  shared_ok s → (∀ k v, entries x !! k = Some v → I t k v) → shared_ok (update t x s).
Proof.
  intros (Ht & Hr) Hx. split; [|done]. intros t' k v. simpl.
  case_decide; [subst; apply Hx|apply Ht].
Qed.

Lemma exec_ok {B} (o : op B) s :
  shared_ok s → guarantee o → shared_ok (exec o s).2 ∧ rely o (exec o s).1.
Proof.
  intros (Ht & Hr & Hc) Hg. destruct o; simpl in *.
  - split; [done|]. intros v Hv. by eapply Ht.
  - destruct (entries (tables s t) !! k) eqn:Hk; simpl; [done|]. split; [|done].
    apply shared_ok_update; [done|]. simpl. intros k' v'.
    rewrite lookup_insert. case_decide; [naive_solver|apply Ht].
  - split; [|done]. apply shared_ok_update; [done|]. simpl. intros k' v'.
    rewrite lookup_insert. case_decide; [naive_solver|apply Ht].
  - split; [|done]. apply shared_ok_update; [done|]. simpl. intros k' v'.
    rewrite lookup_delete. case_decide; [done|apply Ht].
  - split; [done|]. intros k v Hv%elem_of_map_to_list. by eapply Ht.
  - done.
  - split; [|done]. apply shared_ok_update; [done|]. apply Ht.
  - done.
  - split; [done|]. intros v Hv. by apply Hr.
  - destruct (SET k v ttl (rdb s)) as [ok d] eqn:Hs. simpl. split; [|done]. split_and!; [done| |done].
    intros k' v' Hv. pose proof (GET_after_SET k v ttl (rdb s) k' v') as Hf.
    rewrite Hs in Hf. destruct (Hf Hv) as [?|[-> ->]]; [by apply Hr|done].
  - destruct (DEL k (rdb s)) as [ok d] eqn:Hs. simpl. split; [|done]. split_and!; [done| |done].
    intros k' v' Hv. pose proof (GET_after_DEL k (rdb s) k' v') as Hf. rewrite Hs in Hf. auto.
Qed.

Lemma safe_step {A} (p : prog A) (Q : A → Prop) s :
  shared_ok s → safe p Q → shared_ok (step_prog p s).2 ∧ safe (step_prog p s).1 Q.
Proof.
  intros Hs Hp. destruct p as [a|B o k]; [done|]. destruct Hp as [Hg Hk]. simpl.
  destruct (exec_ok o s Hs Hg) as [Hs' Hr]. destruct (exec o s) as [b s']. simpl in *. auto.
Qed.

Lemma safe_bind {A B} (p : prog A) (f : A → prog B) (Q : B → Prop) :
  safe p (λ a, safe (f a) Q) → safe (bind p f) Q.
Proof. induction p as [a|C o k IH]; simpl; [done|]. intros [Hg Hk]. split; [done|]. auto. Qed.

Lemma safe_call {A B} (o : op B) (f : B → prog A) (Q : A → Prop) :
  guarantee o → (∀ b, rely o b → safe (f b) Q) → safe (bind (call o) f) Q.
Proof. done. Qed.

Lemma safe_mono {A} (p : prog A) (Q Q' : A → Prop) :
  (∀ a, Q a → Q' a) → safe p Q → safe p Q'.
Proof. intros HQ. induction p as [a|C o k IH]; simpl; [auto|]. intros [Hg Hk]. auto. Qed.

(** A clean-up is safe if its tick is. *)
Lemma safe_everyTick (tick : prog unit) ws : safe tick (λ _, True) → safe (everyTick tick ws) (λ _, True).
Proof.
  intros Ht. induction ws as [|[] ws IH]; cbn [everyTick]; [done| |done].
  apply safe_bind. eapply safe_mono; [|exact Ht]. by intros [] _.
Qed.

(** A pool of safe goroutines stays safe under every interleaving; [Q i] is
    what goroutine [i] promises about its result. *)
Lemma safe_pool {A} (Q : nat → A → Prop) (c c' : list (prog A) * shared) :
  rtc pool_step c c' →
  shared_ok c.2 → (∀ i p, c.1 !! i = Some p → safe p (Q i)) →
  shared_ok c'.2 ∧ (∀ i p, c'.1 !! i = Some p → safe p (Q i)).
Proof.
  induction 1 as [c|c1 c2 c3 Hstep _ IH]; [done|]. intros Hs Hp.
  destruct Hstep as [ps s i p Hi|ps s d r Hd Hr]; simpl in *.
  - destruct (safe_step p (Q i) s Hs (Hp _ _ Hi)) as [Hs' Hp'].
    apply IH; [done|]. intros j q. rewrite list_lookup_insert.
    case_decide as Hij; [|by apply Hp]. destruct Hij as [<- _]. by intros [= <-].
  - apply IH; [|done]. destruct Hs as (Ht & Hr' & Hc). split_and!; simpl; [done|auto|lia].
Qed.

Lemma safe_run {A} (p : prog A) (Q : A → Prop) s :
  shared_ok s → safe p Q → shared_ok (run p s).2 ∧ Q (run p s).1.
Proof.
  revert s. induction p as [a|C o k IH]; intros s Hs Hp; simpl in *; [done|].
  destruct Hp as [Hg Hk]. destruct (exec_ok o s Hs Hg) as [Hs' Hr].
  destruct (exec o s) as [b s']. simpl in *. auto.
Qed.
End invariant.

(** ** The counter *)

(** The counter is the number of entries. *)
Definition counted (t : Tab) (s : shared) : Prop :=
  count (tables s t) = Z.of_nat (size (entries (tables s t))).

Lemma tables_update t x s t' :
  tables (update t x s) t' = if decide (t' = t) then x else tables s t'.
Proof. done. Qed.
End syncmap.

Arguments table V : clear implicits.
Arguments shared Tab V db : clear implicits.
Arguments op Tab V A : clear implicits.
Arguments prog Tab V A : clear implicits.
Arguments Ret {Tab V A} a.
Arguments Do {Tab V A B} o k.

Declare Scope prog_scope.
Delimit Scope prog_scope with prog.
Notation "x <-- p ;;; q" := (bind p (λ x, q))
  (at level 60, p at next level, right associativity) : prog_scope.
Notation "p ;;; q" := (bind p (λ _, q)) (at level 60, right associativity) : prog_scope.
