(* ===== verification/ResultCache.v ===== *)
(** * The scan result cache ([internal/scan/cache.go])

    Verdicts keyed by URL and by content hash, in memory with a time to live
    and a capacity, backed by Redis.  Operations are programs over the atomic
    calls of [SyncMap]; [run] gives their sequential behaviour and
    [pool_step] any interleaving of several of them. *)
From S2P Require Import Prelude GoStrings Services SyncMap.
Local Open Scope prog_scope.

(** ** Data *)

(** The lifecycle of a scan job; an [int] in the source, so a value decoded
    from Redis may have no name. *)
Inductive ScanStatus :=
  | StatusPending
  | StatusScanning
  | StatusClean
  | StatusInfected
  | StatusError
  | StatusTooLarge
  | StatusOther (n : Z).

#[export] Instance ScanStatus_eq_dec : EqDecision ScanStatus.
Proof. solve_decision. Defined.

(** The payload in Redis and the entry in memory. *)
Record cachedScanEntry := MkCached { ce_Status : ScanStatus; ce_ThreatName : bytes }.

Record cacheEntry := MkEntry { status : ScanStatus; threatName : bytes; expiresAt : Z }.

(** The two tables. *)
Inductive kind := byURL | byHash.

#[export] Instance kind_eq_dec : EqDecision kind.
Proof. solve_decision. Defined.

(** The immutable fields of a [ResultCache]; [redisOn] is [rdb != nil]. *)
Record cacheConfig := MkCacheConfig {
  urlTTL : Z; hashTTL : Z; maxEntries : Z; redisOn : bool }.

Definition NewResultCache (urlTTL hashTTL maxEntries : Z) (redisOn : bool) : cacheConfig :=
  MkCacheConfig urlTTL hashTTL maxEntries redisOn.

Definition redisPrefixURL : bytes := "scan:url:".
Definition redisPrefixHash : bytes := "scan:hash:".

Definition verdict : Type := ScanStatus * bytes.

(** ** Operations *)

Section cache.
Context `{Redis db, SHA256, JSON cachedScanEntry}.
Variable c : cacheConfig.

Definition sha256Hex (s : bytes) : bytes := hex (sha256 s).

(** [storeMem]: nothing at capacity; an entry already there stays. *)
Definition storeMem (t : kind) (key : bytes) (st : ScanStatus) (threat : bytes) (ttl : Z)
  : prog kind cacheEntry unit :=
  n <-- call (Count t);;;
  if (maxEntries c <=? n)%Z then Ret tt
  else
    now <-- call Now;;;
    loaded <-- call (LoadOrStore t key (MkEntry st threat (now + ttl)));;;
    if (loaded : bool) then Ret tt else call (Add t 1).

(** The Redis half of [get]. *)
Definition getRedis (t : kind) (key redisPrefix : bytes) (ttl : Z)
  : prog kind cacheEntry (option verdict) :=
  if redisOn c then
    r <-- call (RGet (redisPrefix ++ key));;;
    match r with
    | Val v =>
        match unmarshal v with
        | Some payload =>
            storeMem t key (ce_Status payload) (ce_ThreatName payload) ttl;;;
            Ret (Some (ce_Status payload, ce_ThreatName payload))
        | None => Ret None
        end
    | _ => Ret None
    end
  else Ret None.

(** [get]: a live entry in memory, or a payload in Redis. *)
Definition get (t : kind) (key redisPrefix : bytes) (ttl : Z)
  : prog kind cacheEntry (option verdict) :=
  v <-- call (Load t key);;;
  match v with
  | Some e =>
      now <-- call Now;;;
      if (now <? expiresAt e)%Z then Ret (Some (status e, threatName e))
      else
        call (Delete t key);;;
        call (Add t (-1));;;
        getRedis t key redisPrefix ttl
  | None => getRedis t key redisPrefix ttl
  end.

Definition GetByURL (rawURL : bytes) : prog kind cacheEntry (option verdict) :=
  get byURL (sha256Hex rawURL) redisPrefixURL (urlTTL c).

Definition GetByHash (contentHash : bytes) : prog kind cacheEntry (option verdict) :=
  get byHash (hex contentHash) redisPrefixHash (hashTTL c).

(** [Store]: only clean and infected verdicts are kept. *)
Definition CacheStore (rawURL contentHash : bytes) (st : ScanStatus) (threat : bytes)
  : prog kind cacheEntry unit :=
  if bool_decide (st ≠ StatusClean) && bool_decide (st ≠ StatusInfected) then Ret tt
  else
    let urlKey := sha256Hex rawURL in
    let hashKey := hex contentHash in
    let payload := marshal (MkCached st threat) in
    storeMem byURL urlKey st threat (urlTTL c);;;
    storeMem byHash hashKey st threat (hashTTL c);;;
    if redisOn c then
      call (RSet (redisPrefixURL ++ urlKey) payload (urlTTL c));;;
      call (RSet (redisPrefixHash ++ hashKey) payload (hashTTL c));;;
      Ret tt
    else Ret tt.

(** The callback of [Range] in [evict] on the entries it visits. *)
Fixpoint evictEntries (t : kind) (now : Z) (es : list (bytes * cacheEntry))
  : prog kind cacheEntry unit :=
  match es with
  | [] => Ret tt
  | (k, e) :: es =>
      if (expiresAt e <? now)%Z then
        call (Delete t k);;; call (Add t (-1));;; evictEntries t now es
      else evictEntries t now es
  end.

Definition evict (t : kind) : prog kind cacheEntry unit :=
  now <-- call Now;;;
  es <-- call (Range t);;;
  evictEntries t now es.

(** One tick of the goroutine of [StartCleanup], every 15 minutes. *)
Definition cleanupTick : prog kind cacheEntry unit := evict byURL;;; evict byHash.

Definition StartCleanup (ws : list wake) : prog kind cacheEntry unit := everyTick cleanupTick ws.
End cache.

(** [mergeResults]: the more restrictive verdict, with its threat name. *)
Definition mergeResults (a b : verdict) : verdict :=
  if decide (a.1 = StatusInfected) then (StatusInfected, a.2)
  else if decide (b.1 = StatusInfected) then (StatusInfected, b.2)
  else (a.1, a.2).

(** ** Sequential behaviour *)


Section cache_spec.
Context `{Redis db, SHA256, JSON cachedScanEntry}.
Implicit Types (s : shared kind cacheEntry db) (t : kind).
Variable c : cacheConfig.

(** The table after [storeMem]. *)
Definition stored (tb : table cacheEntry) (key : bytes) (e : cacheEntry) : table cacheEntry :=
  if (maxEntries c <=? count tb)%Z then tb
  else match entries tb !! key with
       | Some _ => tb
       | None => MkTable (<[key := e]> (entries tb)) (count tb + 1)
       end.

Lemma storeMem_run t key st threat ttl s :
  let s' := (run (storeMem c t key st threat ttl) s).2 in
  clock s' = clock s ∧ rdb s' = rdb s ∧
  ∀ t', tables s' t' =
    if decide (t' = t) then stored (tables s t) key (MkEntry st threat (clock s + ttl))
    else tables s t'.
Proof.
  unfold storeMem, stored. simpl. destruct (_ <=? _)%Z; simpl.
  { split_and!; [done..|]. intros t'. by case_decide; subst. }
  destruct (entries (tables s t) !! key) eqn:Hk; simpl.
  { split_and!; [done..|]. intros t'. by case_decide; subst. }
  split_and!; [done..|]. intros t'. case_decide; [|done]. by rewrite decide_True.
Qed.

#[local] Opaque storeMem.

(** What [getRedis] answers. *)
Definition redisAnswer (key redisPrefix : bytes) s : option verdict :=
  if redisOn c then
    match GET (redisPrefix ++ key) (rdb s) with
    | Val v => p ← unmarshal v; Some (ce_Status p, ce_ThreatName p)
    | _ => None
    end
  else None.

Lemma getRedis_run t key redisPrefix ttl s :
  let '(r, s') := run (getRedis c t key redisPrefix ttl) s in
  r = redisAnswer key redisPrefix s ∧ clock s' = clock s ∧ rdb s' = rdb s ∧
  ∀ t', tables s' t' =
    if decide (t' = t) then
      match r with
      | Some (st, threat) => stored (tables s t) key (MkEntry st threat (clock s + ttl))
      | None => tables s t
      end
    else tables s t'.
Proof.
  unfold getRedis, redisAnswer. destruct (redisOn c); simpl.
  2: { split_and!; [done..|]. intros t'. by case_decide; subst. }
  destruct (GET _ _) as [v| |]; simpl.
  2,3: split_and!; [done..|]; intros t'; by case_decide; subst.
  destruct (unmarshal v) as [p|]; simpl.
  2: { split_and!; [done..|]. intros t'. by case_decide; subst. }
  rewrite run_bind. pose proof (storeMem_run t key (ce_Status p) (ce_ThreatName p) ttl s) as Hs.
  destruct (run (storeMem _ _ _ _ _ _) s) as [[] s']. done.
Qed.

#[local] Opaque getRedis.

(** An entry that is live is served without further effect. *)
Lemma get_live t key redisPrefix ttl s e :
  entries (tables s t) !! key = Some e → (clock s < expiresAt e)%Z →
  run (get c t key redisPrefix ttl) s = (Some (status e, threatName e), s).
Proof.
  intros Hk Hlt. unfold get. simpl. rewrite Hk. simpl. by rewrite (proj2 (Z.ltb_lt _ _) Hlt).
Qed.

(** The table after an expired entry was dropped. *)
Definition dropped (tb : table cacheEntry) (key : bytes) : table cacheEntry :=
  match entries tb !! key with
  | Some _ => MkTable (delete key (entries tb)) (count tb - 1)
  | None => tb
  end.

(** Without a live entry the answer is Redis's. *)
Lemma get_miss t key redisPrefix ttl s :
  (∀ e, entries (tables s t) !! key = Some e → (expiresAt e ≤ clock s)%Z) →
  let '(r, s') := run (get c t key redisPrefix ttl) s in
  r = redisAnswer key redisPrefix s ∧ clock s' = clock s ∧ rdb s' = rdb s ∧
  ∀ t', tables s' t' =
    if decide (t' = t) then
      match r with
      | Some (st, threat) =>
          stored (dropped (tables s t) key) key (MkEntry st threat (clock s + ttl))
      | None => dropped (tables s t) key
      end
    else tables s t'.
Proof.
  intros Hexp. unfold get, dropped. simpl.
  destruct (entries (tables s t) !! key) as [e|] eqn:Hk; [|by apply getRedis_run].
  simpl. rewrite (proj2 (Z.ltb_ge _ _) (Hexp e eq_refl)). simpl.
  rewrite decide_True by done. simpl.
  match goal with |- context [run (getRedis c t key redisPrefix ttl) ?x] =>
    pose proof (getRedis_run t key redisPrefix ttl x) as Hg; destruct (run _ x) as [r s'] end.
  simpl in Hg. destruct Hg as (-> & Hc & Hr & Ht). split_and!; [done..|].
  intros t'. rewrite Ht. by repeat case_decide.
Qed.

(** ** The counter and the capacity *)

Definition table_ok (tb : table cacheEntry) : Prop :=
  count tb = Z.of_nat (size (entries tb)) ∧ (count tb ≤ Z.max 0 (maxEntries c))%Z.

Definition cache_ok s : Prop := ∀ t, table_ok (tables s t).

Lemma stored_ok tb key e : table_ok tb → table_ok (stored tb key e).
Proof.
  intros [Hc Hm]. unfold stored. destruct (Z.leb_spec (maxEntries c) (count tb)); [done|].
  destruct (entries tb !! key) eqn:Hk; [done|]. split; simpl; [|lia].
  rewrite map_size_insert_None by done. lia.
Qed.

Lemma dropped_ok tb key : table_ok tb → table_ok (dropped tb key).
Proof.
  intros [Hc Hm]. unfold dropped. destruct (entries tb !! key) eqn:Hk; [|done].
  split; simpl; [|lia]. rewrite map_size_delete, Hk.
  assert (size (entries tb) ≠ 0%nat); [|lia].
  intros Hz%map_size_empty_inv. by rewrite Hz, lookup_empty in Hk.
Qed.

Lemma get_ok t key redisPrefix ttl s :
  cache_ok s → cache_ok (run (get c t key redisPrefix ttl) s).2.
Proof.
  intros Hs. destruct (entries (tables s t) !! key) as [e|] eqn:Hk;
    [destruct (Z.lt_ge_cases (clock s) (expiresAt e))|].
  - by rewrite (get_live _ _ _ _ _ e).
  - pose proof (get_miss t key redisPrefix ttl s) as Hg. destruct (run _ s) as [r s'].
    destruct Hg as (_ & _ & _ & Ht); [naive_solver|]. intros t'. simpl. rewrite Ht.
    case_decide; [|by apply Hs]. destruct r as [[]|]; auto using stored_ok, dropped_ok.
  - pose proof (get_miss t key redisPrefix ttl s) as Hg. destruct (run _ s) as [r s'].
    destruct Hg as (_ & _ & _ & Ht); [naive_solver|]. intros t'. simpl. rewrite Ht.
    case_decide; [|by apply Hs]. destruct r as [[]|]; auto using stored_ok, dropped_ok.
Qed.

Lemma storeMem_ok t key st threat ttl s :
  cache_ok s → cache_ok (run (storeMem c t key st threat ttl) s).2.
Proof.
  intros Hs t'. destruct (storeMem_run t key st threat ttl s) as (_ & _ & ->).
  case_decide; auto using stored_ok.
Qed.
(** *** Eviction *)

(** What [evictEntries] leaves of the map. *)
Fixpoint dropExpired (now : Z) (es : list (bytes * cacheEntry)) (m : gmap bytes cacheEntry)
  : gmap bytes cacheEntry :=
  match es with
  | [] => m
  | (k, e) :: es => dropExpired now es (if (expiresAt e <? now)%Z then delete k m else m)
  end.

Lemma dropExpired_lookup now es m k e :
  dropExpired now es m !! k = Some e ↔
  m !! k = Some e ∧ ∀ e', (k, e') ∈ es → (now ≤ expiresAt e')%Z.
Proof.
  revert m. induction es as [|[k' e'] es IH]; intros m; simpl.
  { setoid_rewrite elem_of_nil. naive_solver. }
  rewrite IH. setoid_rewrite elem_of_cons. destruct (Z.ltb_spec (expiresAt e') now).
  - rewrite lookup_delete_Some. split.
    + intros ([Hne Hm] & Hes). split; [done|]. intros e'' [[= -> ->]|Hin]; [done|auto].
    + intros (Hm & Hes). split_and!; [|done|auto]. intros ->.
      specialize (Hes e' (or_introl eq_refl)). lia.
  - split; [|naive_solver]. intros (Hm & Hes). split; [done|].
    intros e'' [[= -> ->]|Hin]; [done|auto].
Qed.

Lemma evictEntries_run t now es s :
  NoDup es.*1 → (∀ k e, (k, e) ∈ es → is_Some (entries (tables s t) !! k)) → cache_ok s →
  let s' := (run (evictEntries t now es) s).2 in
  cache_ok s' ∧ clock s' = clock s ∧ rdb s' = rdb s ∧
  (∀ t', t' ≠ t → tables s' t' = tables s t') ∧
  entries (tables s' t) = dropExpired now es (entries (tables s t)).
Proof.
  revert s. induction es as [|[k e] es IH]; intros s Hnd Hin Hok; [done|].
  apply NoDup_cons in Hnd as [Hk Hnd]. cbn [evictEntries dropExpired].
  destruct (Z.ltb_spec (expiresAt e) now) as [Hexp|Hexp].
  2: { apply IH; [done| |done]. intros k' e' Hin'. eapply Hin. by right. }
  simpl. rewrite decide_True by done. simpl.
  match goal with |- context [run (evictEntries t now es) ?x] => set (s1 := x) end.
  destruct (Hin k e ltac:(left)) as [e0 Hke].
  assert (tables s1 t = dropped (tables s t) k) as Ht1.
  { unfold dropped. rewrite Hke. simpl. by rewrite decide_True. }
  assert (∀ t', t' ≠ t → tables s1 t' = tables s t') as Ho1.
  { intros t' Hne'. simpl. by rewrite !decide_False. }
  destruct (IH s1 Hnd) as (IHok & IHc & IHr & IHt & IHe).
  - intros k' e' Hin'. rewrite Ht1. unfold dropped. rewrite Hke. simpl.
    rewrite lookup_delete_ne; [eapply Hin; by right|]. intros ->.
    apply Hk. apply list_elem_of_fmap. by exists (k', e').
  - intros t'. destruct (decide (t' = t)) as [->|Hne']; [rewrite Ht1|rewrite Ho1 by done];
      auto using dropped_ok.
  - split_and!; [done|done|done|intros t' Ht'; rewrite IHt by done; by apply Ho1|].
    rewrite IHe, Ht1. unfold dropped. by rewrite Hke.
Qed.

Lemma evict_run t s :
  cache_ok s →
  let s' := (run (evict t) s).2 in
  cache_ok s' ∧ clock s' = clock s ∧ rdb s' = rdb s ∧
  (∀ t', t' ≠ t → tables s' t' = tables s t') ∧
  ∀ k e, entries (tables s' t) !! k = Some e ↔
         entries (tables s t) !! k = Some e ∧ (clock s ≤ expiresAt e)%Z.
Proof.
  intros Hok. unfold evict. simpl.
  destruct (evictEntries_run t (clock s) (map_to_list (entries (tables s t))) s)
    as (? & ? & ? & ? & ->); [apply NoDup_fst_map_to_list| |done|].
  { intros k e Hin%elem_of_map_to_list. by eexists. }
  split_and!; [done..|]. intros k e. rewrite dropExpired_lookup.
  setoid_rewrite elem_of_map_to_list. naive_solver.
Qed.
#[local] Opaque evict.

(** *** Storing *)

Lemma CacheStore_run u h st threat s :
  st = StatusClean ∨ st = StatusInfected →
  let s' := (run (CacheStore c u h st threat) s).2 in
  clock s' = clock s ∧
  tables s' byURL =
    stored (tables s byURL) (sha256Hex u) (MkEntry st threat (clock s + urlTTL c)) ∧
  tables s' byHash =
    stored (tables s byHash) (hex h) (MkEntry st threat (clock s + hashTTL c)).
Proof.
  intros Hst. unfold CacheStore.
  replace (bool_decide (st ≠ StatusClean) && bool_decide (st ≠ StatusInfected)) with false
    by (destruct Hst as [-> | ->]; reflexivity).
  rewrite run_bind.
  pose proof (storeMem_run byURL (sha256Hex u) st threat (urlTTL c) s) as (Hc1 & _ & Ht1).
  destruct (run (storeMem c byURL _ _ _ _) s) as [[] s1]. simpl in Hc1, Ht1.
  rewrite run_bind.
  pose proof (storeMem_run byHash (hex h) st threat (hashTTL c) s1) as (Hc2 & _ & Ht2).
  destruct (run (storeMem c byHash _ _ _ _) s1) as [[] s2]. simpl in Hc2, Ht2.
  assert (clock s2 = clock s ∧
    tables s2 byURL =
      stored (tables s byURL) (sha256Hex u) (MkEntry st threat (clock s + urlTTL c)) ∧
    tables s2 byHash =
      stored (tables s byHash) (hex h) (MkEntry st threat (clock s + hashTTL c))) as Hs2.
  { rewrite !Ht2, !Ht1. simpl. by rewrite Hc2, Hc1. }
  destruct (redisOn c); simpl; [|done].
  destruct (SET _ _ _ (rdb s2)) as [ok d]. simpl. by destruct (SET _ _ _ d).
Qed.

Lemma CacheStore_ok u h st threat s : cache_ok s → cache_ok (run (CacheStore c u h st threat) s).2.
Proof.
  intros Hs. destruct (decide (st = StatusClean ∨ st = StatusInfected)) as [Hst|Hst].
  - destruct (CacheStore_run u h st threat s Hst) as (_ & Hu & Hh).
    intros []; [rewrite Hu|rewrite Hh]; auto using stored_ok.
  - unfold CacheStore. rewrite !bool_decide_eq_true_2 by tauto. done.
Qed.

Lemma cleanupTick_run s :
  cache_ok s →
  let s' := (run cleanupTick s).2 in
  cache_ok s' ∧ clock s' = clock s ∧ rdb s' = rdb s ∧
  ∀ t k e, entries (tables s' t) !! k = Some e ↔
           entries (tables s t) !! k = Some e ∧ (clock s ≤ expiresAt e)%Z.
Proof.
  intros Hs. unfold cleanupTick. rewrite run_bind.
  destruct (evict_run byURL s Hs) as (Hs1 & Hc1 & Hr1 & Ho1 & He1).
  destruct (run (evict byURL) s) as [[] s1]. simpl in *.
  destruct (evict_run byHash s1 Hs1) as (Hs2 & Hc2 & Hr2 & Ho2 & He2).
  destruct (run (evict byHash) s1) as [[] s2]. simpl in *.
  split_and!; [done|congruence|congruence|].
  intros [] k e; [rewrite Ho2, He1 by done|rewrite He2, Hc1, Ho1 by done]; done.
Qed.
End cache_spec.

#[local] Opaque get CacheStore cleanupTick.

(** ** Histories of operations *)

(** What may be done to a cache, one operation after the other, and time. *)
Inductive operation :=
  | OpGetByURL (u : bytes)
  | OpGetByHash (h : bytes)
  | OpStore (u h : bytes) (st : ScanStatus) (threat : bytes)
  | OpCleanup
  | OpTime (d : Z).

Section history.
Context `{Redis db, SHA256, JSON cachedScanEntry}.
Variable c : cacheConfig.

Definition advance (d : Z) (s : shared kind cacheEntry db) : shared kind cacheEntry db :=
  MkShared (tables s) (clock s + d) (rdb s).

Definition apply_op (s : shared kind cacheEntry db) (o : operation) : shared kind cacheEntry db :=
  match o with
  | OpGetByURL u => (run (GetByURL c u) s).2
  | OpGetByHash h => (run (GetByHash c h) s).2
  | OpStore u h st threat => (run (CacheStore c u h st threat) s).2
  | OpCleanup => (run cleanupTick s).2
  | OpTime d => advance d s
  end.

Definition emptyCache (now : Z) (r : db) : shared kind cacheEntry db :=
  MkShared (λ _, MkTable ∅ 0) now r.

Lemma apply_op_ok s o : cache_ok c s → cache_ok c (apply_op s o).
Proof.
  intros Hs. destruct o; simpl.
  - by apply get_ok.
  - by apply get_ok.
  - by apply CacheStore_ok.
  - by apply cleanupTick_run.
  - done.
Qed.

(** C20. When operations do not overlap, the atomic counters equal the numbers
    of entries of the two maps after every history of lookups, stores, Redis
    repopulations, expiries and clean-ups, and neither map outgrows the
    configured capacity. *)
Theorem cache_history_ok ops now r t :
  let s := fold_left apply_op ops (emptyCache now r) in
  count (tables s t) = Z.of_nat (size (entries (tables s t))) ∧
  (Z.of_nat (size (entries (tables s t))) ≤ Z.max 0 (maxEntries c))%Z.
Proof.
  assert (cache_ok c (fold_left apply_op ops (emptyCache now r))) as Hok.
  { assert (cache_ok c (emptyCache now r)) as Hemp.
    { intros t'. split; simpl; [by rewrite map_size_empty|lia]. }
    revert Hemp. generalize (emptyCache now r). induction ops as [|o ops IH]; intros s Hs; [done|].
    simpl. by apply IH, apply_op_ok. }
  destruct (Hok t) as [Hc Hm]. simpl. split; [done|]. by rewrite <-Hc.
Qed.

Lemma advance_clock d s : clock (advance d s) = (clock s + d)%Z.
Proof. done. Qed.

(** C21. A stored verdict is the one looked up, by URL and by content hash, for
    exactly its time to live, a clean-up in between included; afterwards, with
    no Redis behind it, the lookup misses.  That is of a cache that operations
    which do not overlap have left, with room in both tables and no entry under
    either key: a full table stores nothing, and an entry that is there is kept. *)
Theorem Store_then_get u h st threat d s :
  cache_ok c s → st = StatusClean ∨ st = StatusInfected →
  (count (tables s byURL) < maxEntries c)%Z → (count (tables s byHash) < maxEntries c)%Z →
  entries (tables s byURL) !! sha256Hex u = None → entries (tables s byHash) !! hex h = None →
  (0 ≤ d)%Z →
  let s1 := (run cleanupTick (advance d (run (CacheStore c u h st threat) s).2)).2 in
  ((d < urlTTL c)%Z → (run (GetByURL c u) s1).1 = Some (st, threat)) ∧
  ((d < hashTTL c)%Z → (run (GetByHash c h) s1).1 = Some (st, threat)) ∧
  (redisOn c = false → (urlTTL c ≤ d)%Z → (run (GetByURL c u) s1).1 = None) ∧
  (redisOn c = false → (hashTTL c ≤ d)%Z → (run (GetByHash c h) s1).1 = None).
Proof.
  intros Hok Hst Hru Hrh Hau Hah Hd.
  destruct (CacheStore_run c u h st threat s Hst) as (Hc0 & Hu0 & Hh0).
  pose proof (CacheStore_ok c u h st threat s Hok) as Hok0.
  destruct (run (CacheStore c u h st threat) s) as [[] s0]. simpl in *.
  destruct (cleanupTick_run c (advance d s0) Hok0) as (_ & Hc1 & _ & He1).
  destruct (run cleanupTick (advance d s0)) as [[] s1]. simpl in *.
  unfold stored in Hu0, Hh0. rewrite Hau in Hu0. rewrite Hah in Hh0.
  rewrite (proj2 (Z.leb_gt _ _) Hru) in Hu0. rewrite (proj2 (Z.leb_gt _ _) Hrh) in Hh0.
  set (eu := MkEntry st threat (clock s + urlTTL c)) in *.
  set (eh := MkEntry st threat (clock s + hashTTL c)) in *.
  assert (∀ e, entries (tables s1 byURL) !! sha256Hex u = Some e ↔ e = eu ∧ (clock s1 ≤ expiresAt e)%Z) as Hu1.
  { intros e. rewrite He1, Hu0. simpl. rewrite lookup_insert_eq. rewrite Hc1. naive_solver. }
  assert (∀ e, entries (tables s1 byHash) !! hex h = Some e ↔ e = eh ∧ (clock s1 ≤ expiresAt e)%Z) as Hh1.
  { intros e. rewrite He1, Hh0. simpl. rewrite lookup_insert_eq. rewrite Hc1. naive_solver. }
  unfold GetByURL, GetByHash. split_and!.
  - intros Hlt. rewrite (get_live c _ _ _ _ _ eu); [done|apply Hu1; split; [done|simpl; lia]|simpl; lia].
  - intros Hlt. rewrite (get_live c _ _ _ _ _ eh); [done|apply Hh1; split; [done|simpl; lia]|simpl; lia].
  - intros Hr Hge. pose proof (get_miss c byURL (sha256Hex u) redisPrefixURL (urlTTL c) s1) as Hg.
    destruct (run (get c _ _ _ _) s1) as [r s2].
    destruct Hg as (-> & _); [|unfold redisAnswer; by rewrite Hr].
    intros e [-> ?]%Hu1. simpl. lia.
  - intros Hr Hge. pose proof (get_miss c byHash (hex h) redisPrefixHash (hashTTL c) s1) as Hg.
    destruct (run (get c _ _ _ _) s1) as [r s2].
    destruct Hg as (-> & _); [|unfold redisAnswer; by rewrite Hr].
    intros e [-> ?]%Hh1. simpl. lia.
Qed.
End history.

(** *** Time to live with Redis *)

Section redis_ttl.
Context `{Redis db, !RedisLaws db, SHA256, JSON cachedScanEntry, !JSONLaws cachedScanEntry valid}.
Implicit Types (s : shared kind cacheEntry db).
Variable c : cacheConfig.

(** A verdict that is found in Redis starts a whole time to live in memory,
    however old it is: it is served for up to twice its time to live, also when
    Redis forgets it right after. *)
Lemma redis_restarts_ttl u v s d r' :
  entries (tables s byURL) !! sha256Hex u = None → (count (tables s byURL) < maxEntries c)%Z →
  redisAnswer c (sha256Hex u) redisPrefixURL s = Some v → (0 ≤ d < urlTTL c)%Z →
  let s1 := (run (GetByURL c u) s).2 in
  (run (GetByURL c u) (MkShared (tables s1) (clock s1 + d) r')).1 = Some v.
Proof.
  intros Hno Hroom Hv Hd s1. unfold GetByURL in *.
  pose proof (get_miss c byURL (sha256Hex u) redisPrefixURL (urlTTL c) s) as Hg.
  subst s1. destruct (run (get c byURL _ _ _) s) as [r s1]. cbn [snd].
  destruct Hg as (-> & Hc & _ & Ht); [by intros e; rewrite Hno|].
  specialize (Ht byURL). rewrite decide_True, Hv in Ht by done. destruct v as [st threat].
  unfold dropped, stored in Ht. rewrite Hno, (proj2 (Z.leb_gt _ _) Hroom) in Ht. rewrite Hno in Ht.
  rewrite (get_live c _ _ _ _ _ (MkEntry st threat (clock s + urlTTL c))); [done| |cbn; rewrite Hc; lia].
  cbn [tables]. rewrite Ht. cbn [entries]. apply lookup_insert_eq.
Qed.
End redis_ttl.

#[local] Transparent storeMem getRedis get CacheStore evict cleanupTick.

(** ** Concurrent operations *)

(** A goroutine that uses the cache. *)
Inductive client :=
  | LookupURL (u : bytes)
  | LookupHash (h : bytes)
  | StoreVerdict (u h : bytes) (st : ScanStatus) (threat : bytes)
  | CleanUp (ws : list wake).

Section interleaving.
Context `{Redis db, !RedisLaws db, SHA256, JSON cachedScanEntry, !JSONLaws cachedScanEntry valid}.
Variable c : cacheConfig.

Definition code (g : client) : prog kind cacheEntry (option verdict) :=
  match g with
  | LookupURL u => GetByURL c u
  | LookupHash h => GetByHash c h
  | StoreVerdict u h st threat => CacheStore c u h st threat;;; Ret None
  | CleanUp ws => StartCleanup ws;;; Ret None
  end.

(** [genuine t key v]: the verdict [v] was established for [key]. *)
Variable genuine : kind → bytes → verdict → Prop.

Definition keyPrefix (t : kind) : bytes :=
  match t with byURL => redisPrefixURL | byHash => redisPrefixHash end.

Definition genuine_entry (t : kind) (k : bytes) (e : cacheEntry) : Prop :=
  genuine t k (status e, threatName e).

Definition genuine_payload (k v : bytes) : Prop :=
  ∀ t key p, k = keyPrefix t ++ key → unmarshal v = Some p →
             genuine t key (ce_Status p, ce_ThreatName p).

(** The verdicts a goroutine brings in are genuine. *)
Definition genuine_client (g : client) : Prop :=
  match g with
  | StoreVerdict u h st threat =>
      valid (MkCached st threat) ∧
      genuine byURL (sha256Hex u) (st, threat) ∧ genuine byHash (hex h) (st, threat)
  | _ => True
  end.

(** What a goroutine may return. *)
Definition genuine_result (g : client) (r : option verdict) : Prop :=
  match g with
  | LookupURL u => ∀ v, r = Some v → genuine byURL (sha256Hex u) v
  | LookupHash h => ∀ v, r = Some v → genuine byHash (hex h) v
  | _ => r = None
  end.

Notation safe := (safe genuine_entry genuine_payload).

Lemma safe_storeMem T0 t key st threat ttl :
  genuine t key (st, threat) → safe T0 (storeMem c t key st threat ttl) (λ _, True).
Proof.
  intros Hg. unfold storeMem. apply safe_call; [done|]. intros n _.
  destruct (_ <=? _)%Z; [done|]. apply safe_call; [done|]. intros now _.
  apply safe_call; [done|]. intros [] _; [done|]. by split.
Qed.

Lemma safe_getRedis T0 t key ttl :
  safe T0 (getRedis c t key (keyPrefix t) ttl) (λ r, ∀ v, r = Some v → genuine t key v).
Proof.
  unfold getRedis. destruct (redisOn c); [|done]. apply safe_call; [done|].
  intros [v| |] Hv; [|done|done]. destruct (unmarshal v) as [p|] eqn:Hp; [|done].
  assert (genuine t key (ce_Status p, ce_ThreatName p)) as Hg by (by eapply Hv).
  apply safe_bind. eapply safe_mono; [|by apply safe_storeMem].
  intros [] _ v' [= <-]. done.
Qed.

Lemma safe_get T0 t key ttl :
  safe T0 (get c t key (keyPrefix t) ttl) (λ r, ∀ v, r = Some v → genuine t key v).
Proof.
  unfold get. apply safe_call; [done|]. intros [e|] He; [|apply safe_getRedis].
  apply safe_call; [done|]. intros now _. destruct (_ <? _)%Z.
  - intros v [= <-]. by apply He.
  - apply safe_call; [done|]. intros _ _. apply safe_call; [done|]. intros _ _.
    apply safe_getRedis.
Qed.

Lemma keyPrefix_inj t t' k k' : keyPrefix t ++ k = keyPrefix t' ++ k' → t = t' ∧ k = k'.
Proof. destruct t, t'; simpl; intros [=]; naive_solver. Qed.

Lemma genuine_payload_marshal t key st threat :
  valid (MkCached st threat) → genuine t key (st, threat) →
  genuine_payload (keyPrefix t ++ key) (marshal (MkCached st threat)).
Proof.
  intros Hv Hg t' key' p [<- <-]%keyPrefix_inj. rewrite unmarshal_marshal by done.
  by intros [= <-].
Qed.

Lemma safe_CacheStore T0 u h st threat :
  genuine_client (StoreVerdict u h st threat) → safe T0 (CacheStore c u h st threat) (λ _, True).
Proof.
  intros (Hv & Hu & Hh). unfold CacheStore. destruct (_ && _); [done|].
  apply safe_bind. eapply safe_mono; [intros [] _|by apply safe_storeMem].
  apply safe_bind. eapply safe_mono; [intros [] _|by apply safe_storeMem].
  destruct (redisOn c); [|done].
  apply safe_call; [by apply (genuine_payload_marshal byURL)|]. intros _ _.
  apply safe_call; [by apply (genuine_payload_marshal byHash)|]. done.
Qed.

Lemma safe_evict T0 t : safe T0 (evict t) (λ _, True).
Proof.
  unfold evict. apply safe_call; [done|]. intros now _. apply safe_call; [done|]. intros es _.
  induction es as [|[k e] es IH]; [done|]. cbn [evictEntries].
  destruct (_ <? _)%Z; [|done]. apply safe_call; [done|]. intros _ _. by apply safe_call.
Qed.

Lemma safe_code T0 g : genuine_client g → safe T0 (code g) (genuine_result g).
Proof.
  destruct g as [u|h|u h st threat|ws]; intros Hg; unfold code.
  - apply (safe_get _ byURL).
  - apply (safe_get _ byHash).
  - apply safe_bind. eapply safe_mono; [|by apply safe_CacheStore]. by intros [] _.
  - apply safe_bind. eapply safe_mono; [by intros [] _|]. apply safe_everyTick.
    apply safe_bind. eapply safe_mono; [intros [] _|]; apply safe_evict.
Qed.

(** C19. No interleaving of lookups, stores, clean-ups, expiry and Redis
    evictions can hand out a verdict for a key other than one that was
    established for that very key. *)
Theorem cache_interleaving_genuine gs s ps s' i g r :
  (∀ t k e, entries (tables s t) !! k = Some e → genuine t k (status e, threatName e)) →
  (∀ k v, GET k (rdb s) = Val v → genuine_payload k v) →
  Forall genuine_client gs →
  rtc pool_step (code <$> gs, s) (ps, s') →
  gs !! i = Some g → ps !! i = Some (Ret r) →
  genuine_result g r.
Proof.
  intros Hs Hr Hgs Hsteps Hg Hp. rewrite Forall_lookup in Hgs.
  apply (safe_pool genuine_entry genuine_payload (clock s)
           (λ i r, ∀ g, gs !! i = Some g → genuine_result g r) _ _ Hsteps) in Hp; simpl in *.
  - by apply Hp.
  - done.
  - intros j p. rewrite list_lookup_fmap. intros (g' & Hg' & ->)%fmap_Some.
    eapply safe_mono; [|apply safe_code; by eapply Hgs]. naive_solver.
Qed.
End interleaving.

(** ** What overlapping operations do to the counter *)

Section races.
#[local] Instance race_sha : SHA256 := {| sha256 := id |}.
#[local] Instance race_json : JSON cachedScanEntry :=
  {| marshal _ := []; unmarshal _ := None |}.

Definition raceConfig : cacheConfig := NewResultCache 60 60 1 false.

(** A cache with one entry for the URL, which has expired. *)
Definition expiredState : shared kind cacheEntry mapdb :=
  MkShared (λ t, match t with
                 | byURL => MkTable {[sha256Hex "u" := MkEntry StatusClean [] 10]} 1
                 | byHash => MkTable ∅ 0
                 end) 20 (∅ : gmap bytes bytes).

(** The counter is not exact under concurrency: two lookups that meet the
    same expired entry both decrement it, leaving -1 for an empty map, and two
    stores that both pass the capacity test leave a map larger than the
    capacity. *)
Theorem cache_counter_races :
  (∃ ps s',
     rtc pool_step (code raceConfig <$> [LookupURL "u"; LookupURL "u"], expiredState) (ps, s') ∧
     ps = [Ret None; Ret None] ∧
     count (tables s' byURL) = (-1)%Z ∧ entries (tables s' byURL) = ∅) ∧
  (∃ ps s',
     rtc pool_step
       (code raceConfig <$> [StoreVerdict "u" "h" StatusClean []; StoreVerdict "v" "i" StatusClean []],
        emptyCache 0 (∅ : gmap bytes bytes)) (ps, s') ∧
     ps = [Ret None; Ret None] ∧
     (maxEntries raceConfig < Z.of_nat (size (entries (tables s' byURL))))%Z).
Proof.
  split.
  - apply (schedule_reaches [0; 1; 0; 1; 0; 0; 1; 1]%nat _ 
      (λ c, c.1 = [Ret None; Ret None] ∧
            count (tables c.2 byURL) = (-1)%Z ∧ entries (tables c.2 byURL) = ∅)).
    split_and!; vm_compute; done.
  - apply (schedule_reaches [0; 1; 0; 0; 0; 1; 1; 1; 0; 1; 0; 1; 0; 1; 0; 1]%nat _ 
      (λ c, c.1 = [Ret None; Ret None] ∧
            (maxEntries raceConfig < Z.of_nat (size (entries (tables c.2 byURL))))%Z)).
    split; vm_compute; done.
Qed.
End races.

(** ** Instances of the theorems *)

Section witnesses.
#[local] Existing Instance plainHash.

(** An encoding of the payloads that are stored: one letter for the verdict,
    then the threat name. *)
#[local] Instance letterJSON : JSON cachedScanEntry := {|
  marshal p := (if decide (ce_Status p = StatusClean) then "c"%char else "i"%char) :: ce_ThreatName p;
  unmarshal s :=
    match s with
    | "c"%char :: threat => Some (MkCached StatusClean threat)
    | "i"%char :: threat => Some (MkCached StatusInfected threat)
    | _ => None
    end;
|}.

Definition isVerdict (p : cachedScanEntry) : Prop :=
  ce_Status p = StatusClean ∨ ce_Status p = StatusInfected.

#[local] Instance letterJSON_laws : JSONLaws cachedScanEntry isVerdict.
Proof. split. intros [st threat] [Hst|Hst]; simpl in Hst; by subst. Qed.

Definition smallConfig : cacheConfig := NewResultCache 60 120 2 true.

Lemma Store_then_get_witness :
  let s1 := (run cleanupTick (advance 90
    (run (CacheStore smallConfig "u" "h" StatusInfected "Eicar") (emptyCache 0 (∅ : mapdb))).2)).2 in
  (run (GetByHash smallConfig "h") s1).1 = Some (StatusInfected, str "Eicar").
Proof.
  apply (Store_then_get smallConfig "u" "h" StatusInfected "Eicar" 90 (emptyCache 0 (∅ : mapdb)));
    try done; by right.
Defined.

(** A store and a lookup of the same URL that meet half-way. *)
Definition storing : list client := [StoreVerdict "u" "h" StatusInfected "Eicar"; LookupURL "u"].

Definition oneVerdict (t : kind) (k : bytes) (v : verdict) : Prop := v = (StatusInfected, str "Eicar").

Lemma cache_interleaving_genuine_witness :
  genuine_result oneVerdict (LookupURL "u") (Some (StatusInfected, str "Eicar")).
Proof.
  eapply (cache_interleaving_genuine smallConfig oneVerdict storing (emptyCache 0 (∅ : mapdb))
            (schedule [0; 0; 0; 1; 1; 1]%nat (code smallConfig <$> storing, emptyCache 0 (∅ : mapdb))).1
            (schedule [0; 0; 0; 1; 1; 1]%nat (code smallConfig <$> storing, emptyCache 0 (∅ : mapdb))).2 1).
  - done.
  - done.
  - constructor; [|by repeat constructor]. split; [by right|done].
  - rewrite <-surjective_pairing. apply schedule_steps.
  - reflexivity.
  - vm_compute. reflexivity.
Defined.
End witnesses.
