(* ===== verification/ScanJob.v ===== *)
(** * Scan jobs and the scan goroutine ([internal/scan/manager.go])

    A job's shared state, the events by which the goroutine [runScan] changes
    it, and [runScan] itself as the function that produces those events from
    the upstream body, the scanner and the cache.  The goroutine never waits
    for its reader (its one send goes to a buffered channel, its notifications
    do not block), so its behaviour is this list of events, which the reader of
    [Trickle] observes one at a time. *)
From S2P Require Import Prelude GoStrings GoIO Clamd Services SyncMap ResultCache.

(** ** The job *)

(** The part of a [Job] that other goroutines see change.  The channels are
    their observable state: a token, closed or not, and the buffered result. *)
Record jobState := MkJob {
  job_status : ScanStatus;
  job_threat : bytes;
  tempFile : bytes;               (* the bytes at TempPath *)
  written : nat;                  (* atomic counter of bytes flushed *)
  newBytes : bool;                (* a token is in the channel *)
  uploadDone : bool;              (* the channel is closed *)
  resultCh : option ScanResult;   (* capacity 1 *)
  tailBody : option source;
}.

Inductive event :=
  | EvTruncate
  | EvSetResult (st : ScanStatus) (threat : bytes)
  | EvWrite (p : bytes)
  | EvCount (n : nat)
  | EvNotify
  | EvTail (b : source)
  | EvDiscard (b : source)
  | EvVerdict (r : ScanResult)
  | EvUploadDone
  | EvCloseBody.

Definition apply_event (j : jobState) (e : event) : jobState :=
  let '(MkJob st th f w nb ud rc tb) := j in
  match e with
  | EvTruncate => MkJob st th [] w nb ud rc tb
  | EvSetResult st th => MkJob st th f w nb ud rc tb
  | EvWrite p => MkJob st th (f ++ p) w nb ud rc tb
  | EvCount n => MkJob st th f (w + n) nb ud rc tb
  | EvNotify => MkJob st th f w true ud rc tb
  | EvTail b => MkJob st th f w nb ud rc (Some b)
  | EvVerdict r => MkJob st th f w nb ud (Some r) tb
  | EvUploadDone => MkJob st th f w nb true rc tb
  | EvDiscard _ | EvCloseBody => j
  end.

Definition apply_events (j : jobState) (evs : list event) : jobState := fold_left apply_event evs j.

(** The job [newJob] registers: pending, with an empty file. *)
Definition freshJob : jobState := MkJob StatusPending [] [] 0 false false None None.

(** ** The pipeline the scanner reads *)

(** [io.TeeReader(io.LimitReader(body, n), io.MultiWriter(cw, hw))] with the
    counting writer [cw] on the temp file: the body, the bytes the limit still
    allows, the file, the counter, what was hashed, and the events so far. *)
Record pipe := Pipe {
  p_body : source;
  p_left : Z;
  p_file : sink;
  p_count : nat;
  p_hashed : bytes;
  p_log : list event;
}.

(** [LimitedReader.Read]. *)
Definition limitedRead (k : nat) (body : source) (n : Z) : bytes * option ioerr * source * Z :=
  if (n <=? 0)%Z then ([], Some EOF, body, n)
  else
    let k := if (n <? Z.of_nat k)%Z then Z.to_nat n else k in
    let '(c, e, body) := Read k body in (c, e, body, (n - Z.of_nat (length c))%Z).

(** [countWriter.Write]: what reached the file is counted and announced,
    also when the write fails. *)
Definition countWrite (c : bytes) (f : sink) : bytes * bool * sink * list event :=
  let '(q, ok, f) := Write c f in (q, ok, f, [EvWrite q; EvCount (length q); EvNotify]).

(** [Read] of the tee: a failed write is the error of the read. *)
Definition pipeRead (k : nat) (p : pipe) : bytes * option ioerr * pipe :=
  let '(c, e, body, lim) := limitedRead k (p_body p) (p_left p) in
  if decide (c = []) then
    (c, e, Pipe body lim (p_file p) (p_count p) (p_hashed p) (p_log p))
  else
    let '(q, ok, f, evs) := countWrite c (p_file p) in
    let hashed := if ok then p_hashed p ++ c else p_hashed p in
    let p := Pipe body lim f (p_count p + length q) hashed (p_log p ++ evs) in
    if ok then (c, e, p) else (q, Some Failure, p).

Lemma Write_length c f : (length (Write c f).1.1 ≤ length c)%nat.
Proof. unfold Write. destruct (room f); simpl; [|lia]. rewrite length_take. lia. Qed.

#[export] Program Instance pipe_reader : IOReader pipe := {|
  Read := pipeRead;
  unread p := unread (p_body p);
|}.
Next Obligation.
  intros k p. unfold pipeRead, limitedRead, countWrite.
  destruct (Z.leb_spec (p_left p) 0); [simpl; lia|].
  set (k' := if (p_left p <? Z.of_nat k)%Z then _ else k).
  assert (k' ≤ k)%nat as Hk by (subst k'; destruct (Z.ltb_spec (p_left p) (Z.of_nat k)); lia).
  pose proof (Read_length k' (p_body p)) as Hl.
  destruct (Read k' (p_body p)) as [[c e] b]. simpl in Hl.
  case_decide; [subst; simpl; lia|].
  pose proof (Write_length c (p_file p)) as Hw.
  destruct (Write c (p_file p)) as [[q []] f]; simpl in *; lia.
Qed.
Next Obligation.
  intros k p Hk. unfold pipeRead, limitedRead, countWrite.
  destruct (Z.leb_spec (p_left p) 0); [done|].
  set (k' := if (p_left p <? Z.of_nat k)%Z then _ else k).
  assert (0 < k')%nat as Hk' by (subst k'; destruct (Z.ltb_spec (p_left p) (Z.of_nat k)); lia).
  pose proof (Read_unread k' (p_body p) Hk') as Hu.
  destruct (Read k' (p_body p)) as [[c e] b]. simpl in Hu.
  case_decide; [done|]. by destruct (Write c (p_file p)) as [[q []] f].
Qed.
Next Obligation.
  intros k p. unfold pipeRead, limitedRead, countWrite.
  destruct (Z.leb_spec (p_left p) 0); [simpl; lia|].
  set (k' := if (p_left p <? Z.of_nat k)%Z then _ else k).
  pose proof (Read_unread_le k' (p_body p)) as Hu.
  destruct (Read k' (p_body p)) as [[c e] b]. simpl in Hu.
  case_decide; [done|]. by destruct (Write c (p_file p)) as [[q []] f].
Qed.

(** ** [runScan] *)

(** What the manager relies on of the result cache, on a cache state [C]. *)
Class VerdictCache (C : Type) := {
  cacheByURL : bytes → C → option verdict * C;
  cacheByHash : bytes → C → option verdict * C;
  cachePut : bytes → bytes → verdict → C → C;
}.

(** [ResultCache] implements it: the operations of that component, run to
    their end. *)
#[export] Instance ResultCache_verdicts `{Redis db, SHA256, JSON cachedScanEntry}
    (c : cacheConfig) : VerdictCache (shared kind cacheEntry db) := {|
  cacheByURL u s := run (GetByURL c u) s;
  cacheByHash h s := run (GetByHash c h) s;
  cachePut u h v s := (run (CacheStore c u h v.1 v.2) s).2;
|}.

(** The environment of one [runScan]: whether the temp file opens, the room on
    its disk, and [MaxSize] as loaded for the limit and again for the check,
    which may differ when the configuration is replaced in between. *)
Record scanEnv := ScanEnv {
  open_ok : bool;
  disk : option nat;
  limitMax : Z;
  checkMax : Z;
}.

(** The buffer of [io.Copy(io.Discard, _)]. *)
Definition copyBuf : nat := Z.to_nat 8192.

Definition passed : ScanResult := MkScanResult true [].

Section runScan.
Context `{Scanner, SHA256, VerdictCache C}.
Variable env : scanEnv.

(** The deferred calls: [uploadDone] is closed, then the body if still owned. *)
Definition deferred (bodyOwned : bool) : list event :=
  EvUploadDone :: (if bodyOwned then [EvCloseBody] else []).

(** The end of a scan with a verdict. *)
Definition finish (v : verdict) : list event :=
  (if decide (v.1 = StatusClean) then [EvSetResult StatusClean []]
   else [EvSetResult StatusInfected v.2]) ++
  [EvVerdict (MkScanResult (bool_decide (v.1 = StatusClean)) v.2)] ++ deferred true.

(** The body was cut at the limit: the rest goes to the reader or is drained. *)
Definition tooLarge (saveTail : bool) (p : pipe) : list event :=
  (if saveTail then [EvTail (p_body p)] else [EvDiscard (drain copyBuf (p_body p)).2]) ++
  [EvSetResult StatusTooLarge []; EvVerdict passed] ++ deferred (negb saveTail).

Definition exceeded (p : pipe) : bool := (checkMax env <? Z.of_nat (p_count p))%Z.

Definition startPipe (body : source) : pipe :=
  Pipe body (wrap64 (limitMax env + 1)) (Sink [] (disk env)) 0 [] [].

(** The body was seen before under this URL: it is only buffered. *)
Definition scanCached (body : source) (saveTail : bool) (hit : verdict) (cs : C)
  : list event * C :=
  let '(_, _, p) := drain copyBuf (startPipe body) in
  if exceeded p then (p_log p ++ tooLarge saveTail p, cs)
  else
    let '(hashHit, cs) := cacheByHash (sha256 (p_hashed p)) cs in
    let final := match hashHit with Some v => mergeResults hit v | None => hit end in
    (p_log p ++ finish final, cs).

(** The normal path; the cache may be disabled. *)
Definition scanFresh (url : bytes) (body : source) (saveTail : bool) (ocs : option C)
  : list event * option C :=
  let '(res, p) := scan_reader pipe (startPipe body) in
  if exceeded p then (p_log p ++ tooLarge saveTail p, ocs)
  else
    match res with
    | inr err =>
        let '(_, _, p) := drain copyBuf p in
        (p_log p ++ [EvSetResult StatusError []; EvVerdict passed] ++ deferred true, ocs)
    | inl result =>
        let contentHash := sha256 (p_hashed p) in
        let clamdStatus := if Clean result then StatusClean else StatusInfected in
        let fresh := (clamdStatus, ThreatName result) in
        match ocs with
        | None => (p_log p ++ finish fresh, None)
        | Some cs =>
            let '(hashHit, cs) := cacheByHash contentHash cs in
            let final := match hashHit with Some v => mergeResults fresh v | None => fresh end in
            (p_log p ++ finish final, Some (cachePut url contentHash final cs))
        end
    end.

Definition runScan (url : bytes) (body : source) (saveTail : bool) (ocs : option C)
  : list event * option C :=
  if negb (open_ok env) then
    ([EvSetResult StatusError []; EvVerdict passed] ++ deferred true, ocs)
  else
    let opened := [EvTruncate; EvSetResult StatusScanning []] in
    match ocs with
    | None =>
        let '(evs, ocs) := scanFresh url body saveTail None in (opened ++ evs, ocs)
    | Some cs =>
        let '(hit, cs) := cacheByURL url cs in
        match hit with
        | Some v => let '(evs, cs) := scanCached body saveTail v cs in (opened ++ evs, Some cs)
        | None => let '(evs, ocs) := scanFresh url body saveTail (Some cs) in (opened ++ evs, ocs)
        end
    end.
End runScan.

(** ** What the pipeline does to the temp file *)

Definition chunkEvents (c : bytes) : list event :=
  if decide (c = []) then [] else [EvWrite c; EvCount (length c); EvNotify].

Definition writeEvents (cs : list bytes) : list event := concat (map chunkEvents cs).

(** The state of a pipe after the chunks [cs] went through it. *)
Record passedThrough (p p' : pipe) (cs : list bytes) : Prop := {
  pt_content : content (p_body p) = concat cs ++ content (p_body p');
  pt_final : final (p_body p') = final (p_body p);
  pt_left : p_left p' = (p_left p - Z.of_nat (length (concat cs)))%Z;
  pt_left_pos : (0 ≤ p_left p → 0 ≤ p_left p')%Z;
  pt_file : p_file p' = Sink (written_bytes (p_file p) ++ concat cs) None;
  pt_count : p_count p' = (p_count p + length (concat cs))%nat;
  pt_hashed : p_hashed p' = p_hashed p ++ concat cs;
  pt_log : p_log p' = p_log p ++ writeEvents cs;
}.

(** Why a read of the pipe reports an error when the disk has room: the limit
    is used up, or the body has ended. *)
Definition pipeEnd (p : pipe) (e : ioerr) : Prop :=
  (e = EOF ∧ (p_left p ≤ 0)%Z) ∨ (e = final (p_body p) ∧ content (p_body p) = []).

Lemma passedThrough_refl p : room (p_file p) = None → passedThrough p p [].
Proof.
  destruct p as [b n [f r] c h l]. simpl. intros ->.
  split; simpl; rewrite ?app_nil_r; auto; lia.
Qed.

Lemma passedThrough_trans p q r cs ds :
  passedThrough p q cs → passedThrough q r ds → passedThrough p r (cs ++ ds).
Proof.
  intros [] []. split; rewrite ?concat_app, ?length_app.
  - rewrite <-app_assoc. congruence.
  - congruence.
  - lia.
  - auto.
  - destruct (p_file q). simplify_eq/=. by rewrite app_assoc.
  - lia.
  - rewrite app_assoc. congruence.
  - unfold writeEvents in *. rewrite map_app, concat_app, app_assoc. congruence.
Qed.

Lemma pipeRead_passes k p c e p' :
  room (p_file p) = None → pipeRead k p = (c, e, p') →
  passedThrough p p' [c] ∧ room (p_file p') = None ∧ ∀ e', e = Some e' → pipeEnd p' e'.
Proof.
  intros Hroom. unfold pipeRead, limitedRead, countWrite.
  destruct (Z.leb_spec (p_left p) 0) as [Hle|Hlt].
  { rewrite decide_True by done. intros [= <- <- <-].
    destruct p as [b n [f r] cnt h l]. simpl in *. subst r.
    split_and!; [|done|by intros e' [= <-]; left].
    split; simpl; rewrite ?app_nil_r; auto; lia. }
  set (k' := if (p_left p <? Z.of_nat k)%Z then _ else k).
  assert (Z.of_nat k' ≤ p_left p)%Z as Hk'.
  { subst k'. destruct (Z.ltb_spec (p_left p) (Z.of_nat k)); lia. }
  pose proof (Read_length k' (p_body p)) as Hl.
  pose proof (source_Read_content k' (p_body p)) as Hc.
  change (source_Read k' (p_body p)) with (Read k' (p_body p)) in Hc.
  destruct (Read k' (p_body p)) as [[c' e'] b]. simpl in Hl. destruct Hc as (Hc & Hf & He).
  destruct p as [b0 n [f r] cnt h l]. simpl in *. subst r.
  case_decide as Hc'; intros Heq; simplify_eq/=; (split_and!; [|done|]).
  1,3: split; simpl; rewrite ?app_nil_r; auto; unfold writeEvents, chunkEvents; simpl;
       rewrite ?decide_False, ?app_nil_r by done; auto; lia.
  all: intros e'' [= ->]; right; simpl; destruct (He e'' eq_refl) as [-> ?]; by rewrite Hf.
Qed.

Lemma reads_passes p cs e p' :
  reads p cs e p' → room (p_file p) = None →
  passedThrough p p' cs ∧ ∀ e', e = Some e' → pipeEnd p' e'.
Proof.
  induction 1 as [p|k p c e p' Hk Hr|k p c p1 cs e p2 Hk Hr _ IH]; intros Hroom.
  - split; [by apply passedThrough_refl|done].
  - apply pipeRead_passes in Hr as (Hp & _ & He); [|done]. split; [done|]. naive_solver.
  - apply pipeRead_passes in Hr as (Hp & Hroom1 & _); [|done].
    destruct (IH Hroom1) as [Hp2 He]. split; [|done].
    by apply (passedThrough_trans _ _ _ [c] cs Hp Hp2).
Qed.

Lemma drain_passes k p :
  (0 < k)%nat → room (p_file p) = None →
  ∃ cs e p', drain k p = (cs, Some e, p') ∧ passedThrough p p' cs ∧ pipeEnd p' e.
Proof.
  intros Hk Hroom. destruct (drain_total k p Hk) as (cs & e & p' & Hd).
  exists cs, e, p'. split; [done|]. apply readAll_reads in Hd; [|done].
  apply reads_passes in Hd as [? ?]; auto.
Qed.

(** The events of the pipeline write the bytes that passed through it. *)
Lemma apply_writeEvents cs j :
  apply_events j (writeEvents cs) =
  MkJob (job_status j) (job_threat j) (tempFile j ++ concat cs)
    (written j + length (concat cs)) (newBytes j || negb (bool_decide (concat cs = [])))
    (uploadDone j) (resultCh j) (tailBody j).
Proof.
  revert j. induction cs as [|c cs IH]; intros j.
  { destruct j. simpl. by rewrite app_nil_r, Nat.add_0_r, orb_false_r. }
  change (writeEvents (c :: cs)) with (chunkEvents c ++ writeEvents cs).
  unfold apply_events in *. rewrite fold_left_app, IH. unfold chunkEvents.
  case_decide as Hc; [by subst|]. destruct j as [st th f w nb ud rc tb]. simpl.
  rewrite <-app_assoc, length_app, Nat.add_assoc.
  rewrite (bool_decide_eq_false_2 (c ++ concat cs = [])) by (by destruct c).
  by rewrite orb_true_r.
Qed.

(** ** The shape of a scan *)

(** The events of writing the pieces [qs], whether or not the disk took all of
    what was read. *)
Definition logEvents (qs : list bytes) : list event :=
  concat (map (λ q, [EvWrite q; EvCount (length q); EvNotify]) qs).

Lemma logEvents_app qs rs : logEvents (qs ++ rs) = logEvents qs ++ logEvents rs.
Proof. unfold logEvents. by rewrite map_app, concat_app. Qed.

Lemma pipeRead_log k p c e p' :
  pipeRead k p = (c, e, p') → ∃ qs, p_log p' = p_log p ++ logEvents qs.
Proof.
  unfold pipeRead, countWrite. destruct (limitedRead k (p_body p) (p_left p)) as [[[c' e'] b] n].
  case_decide.
  - intros [= <- <- <-]. exists []. simpl. by rewrite app_nil_r.
  - destruct (Write c' (p_file p)) as [[q ok] f].
    assert (p_log p ++ [EvWrite q; EvCount (length q); EvNotify] = p_log p ++ logEvents [q]) by done.
    destruct ok; intros [= <- <- <-]; by exists [q].
Qed.

Lemma reads_log p cs e p' : reads p cs e p' → ∃ qs, p_log p' = p_log p ++ logEvents qs.
Proof.
  induction 1 as [p|k p c e p' Hk Hr|k p c p1 cs e p2 Hk Hr _ [rs IH]].
  - exists []. simpl. by rewrite app_nil_r.
  - by eapply pipeRead_log.
  - apply pipeRead_log in Hr as [qs Hq]. exists (qs ++ rs).
    by rewrite IH, Hq, logEvents_app, app_assoc.
Qed.

Lemma drain_log k p cs e p' :
  (0 < k)%nat → drain k p = (cs, e, p') → ∃ qs, p_log p' = p_log p ++ logEvents qs.
Proof. intros Hk Hd. eapply reads_log, readAll_reads; eauto. Qed.

Lemma copyBuf_pos : (0 < copyBuf)%nat.
Proof. unfold copyBuf. lia. Qed.

Section shape.
Context `{Scanner, SHA256, VerdictCache C}.
Variable env : scanEnv.
Variable saveTail : bool.

(** Every scan ends the same way: one result, one verdict, then [uploadDone];
    the tail, if any, is in place before the verdict. *)
Inductive ending (p : pipe) : list event → Prop :=
  | ending_large : exceeded env p = true → ending p (tooLarge saveTail p)
  | ending_verdict v : exceeded env p = false → ending p (finish v).

Definition errorEnd : list event := [EvSetResult StatusError []; EvVerdict passed] ++ deferred true.

(** The three ways a scan whose temp file opened can go. *)
Inductive scanned (body : source) : list event → Prop :=
  | scanned_cached cs e p l :
      drain copyBuf (startPipe env body) = (cs, e, p) → ending p l →
      scanned body (p_log p ++ l)
  | scanned_fresh p l :
      (scan_reader pipe (startPipe env body)).2 = p → ending p l →
      (exceeded env p = true ∨ ∃ res, (scan_reader pipe (startPipe env body)).1 = inl res) →
      scanned body (p_log p ++ l)
  | scanned_error p cs e p' :
      (scan_reader pipe (startPipe env body)).2 = p → exceeded env p = false →
      drain copyBuf p = (cs, e, p') →
      scanned body (p_log p' ++ errorEnd).

Lemma scanCached_scanned body hit (cs : C) :
  scanned body (scanCached env body saveTail hit cs).1.
Proof.
  unfold scanCached. destruct (drain copyBuf (startPipe env body)) as [[ds e] p] eqn:Hd.
  destruct (exceeded env p) eqn:Hx; simpl.
  - eapply scanned_cached; [done|by constructor].
  - destruct (cacheByHash _ cs) as [hh cs']. simpl. eapply scanned_cached; [done|by constructor].
Qed.

Lemma scanFresh_scanned url body (ocs : option C) :
  scanned body (scanFresh env url body saveTail ocs).1.
Proof.
  unfold scanFresh. destruct (scan_reader pipe (startPipe env body)) as [res p] eqn:Hs.
  destruct (exceeded env p) eqn:Hx; simpl.
  { eapply scanned_fresh; [by rewrite Hs|by constructor|by left]. }
  destruct res as [res|err].
  - assert (∀ l, ending p l → scanned body (p_log p ++ l)) as Hl.
    { intros l Hl. eapply scanned_fresh; rewrite ?Hs; eauto. }
    destruct ocs as [cs|]; simpl; [|by apply Hl; constructor].
    destruct (cacheByHash _ cs) as [hh cs']. simpl. apply Hl. by constructor.
  - destruct (drain copyBuf p) as [[ds e] p'] eqn:Hd. simpl.
    eapply scanned_error; [by rewrite Hs|done|done].
Qed.

Lemma runScan_scanned url body (ocs : option C) :
  open_ok env = true →
  ∃ l, scanned body l ∧
       (runScan env url body saveTail ocs).1 = [EvTruncate; EvSetResult StatusScanning []] ++ l.
Proof.
  intros Ho. unfold runScan. rewrite Ho. simpl. destruct ocs as [cs|].
  - destruct (cacheByURL url cs) as [[v|] cs'].
    + pose proof (scanCached_scanned body v cs') as Hs.
      destruct (scanCached env body saveTail v cs'). by eexists.
    + pose proof (scanFresh_scanned url body (Some cs')) as Hs.
      destruct (scanFresh env url body saveTail (Some cs')). by eexists.
  - pose proof (scanFresh_scanned url body (None : option C)) as Hs.
    destruct (scanFresh env url body saveTail None). by eexists.
Qed.

(** The shape that the reader of the temp file depends on. *)
Definition wellShaped (evs : list event) : Prop :=
  ∃ pre qs tl st th r owned,
    evs = pre ++ logEvents qs ++ tl ++ [EvSetResult st th; EvVerdict r] ++ deferred owned ∧
    (pre = [] ∨ pre = [EvTruncate; EvSetResult StatusScanning []]) ∧
    (tl = [] ∨ ∃ b, tl = [EvTail b] ∨ tl = [EvDiscard b]) ∧
    (Clean r = false ↔ st = StatusInfected).

Lemma scanned_log body l :
  scanned body l →
  ∃ p l', l = p_log p ++ l' ∧ (∃ qs, p_log p = logEvents qs) ∧ (ending p l' ∨ l' = errorEnd).
Proof.
  pose proof (scan_reads pipe (startPipe env body)) as (cs0 & e0 & Hr0 & _).
  apply reads_log in Hr0 as [qs0 Hq0].
  intros [cs e p l' Hd Hl|p l' Hp Hl _|p cs e p' Hp Hx Hd].
  - exists p, l'. apply drain_log in Hd as [qs Hq]; [|apply copyBuf_pos]. simpl in Hq. eauto.
  - exists p, l'. subst p. simpl in Hq0. eauto.
  - exists p', errorEnd. apply drain_log in Hd as [qs Hq]; [|apply copyBuf_pos].
    subst p. rewrite Hq0 in Hq. split_and!; [done| |by right].
    exists (qs0 ++ qs). rewrite Hq. simpl. by rewrite logEvents_app.
Qed.

Lemma runScan_shape url body (ocs : option C) :
  wellShaped (runScan env url body saveTail ocs).1.
Proof.
  destruct (open_ok env) eqn:Ho.
  2: { unfold runScan. rewrite Ho. exists [], [], [], StatusError, [], passed, true.
       split_and!; simpl; auto. done. }
  destruct (runScan_scanned url body ocs Ho) as (l & Hs & ->).
  apply scanned_log in Hs as (p & l' & -> & [qs Hq] & [Hl| ->]).
  - destruct Hl as [Hx|v Hx].
    + exists [EvTruncate; EvSetResult StatusScanning []], qs,
        (if saveTail then [EvTail (p_body p)] else [EvDiscard (drain copyBuf (p_body p)).2]),
        StatusTooLarge, [], passed, (negb saveTail).
      rewrite Hq. split_and!; [done|by right|destruct saveTail; eauto|done].
    + exists [EvTruncate; EvSetResult StatusScanning []], qs, [],
        (if decide (v.1 = StatusClean) then StatusClean else StatusInfected),
        (if decide (v.1 = StatusClean) then [] else v.2),
        (MkScanResult (bool_decide (v.1 = StatusClean)) v.2), true.
      rewrite Hq. unfold finish. split_and!; [by case_decide|by right|by left|].
      simpl. by case_decide; [rewrite bool_decide_eq_true_2|rewrite bool_decide_eq_false_2].
  - exists [EvTruncate; EvSetResult StatusScanning []], qs, [], StatusError, [], passed, true.
    rewrite Hq. split_and!; [done|by right|by left|done].
Qed.

(** ** The data of a scan *)

Section data.
Variable max : Z.
Context (Hmax : (0 ≤ max < 2 ^ 63 - 1)%Z) (Hlimit : limitMax env = max) (Hcheck : checkMax env = max)
  (Hdisk : disk env = None).

(** A pipe the body went through with chunks [cs]. *)
Definition fed (body : source) (p : pipe) (cs : list bytes) : Prop :=
  passedThrough (startPipe env body) p cs.

Lemma exceeded_spec body p cs :
  fed body p cs → exceeded env p = true ↔ (max < Z.of_nat (length (concat cs)))%Z.
Proof. intros []. unfold exceeded. rewrite Hcheck, Z.ltb_lt, pt_count0. simpl. lia. Qed.

Lemma fed_left body p cs :
  fed body p cs →
  p_left p = (max + 1 - Z.of_nat (length (concat cs)))%Z ∧ (0 ≤ p_left p)%Z.
Proof.
  intros []. simpl in *. rewrite Hlimit, wrap64_id in * by (unfold int64_range; lia).
  split; [done|]. apply pt_left_pos0. lia.
Qed.

(** Where the limit or the end of the body stopped the reading, the file holds
    the first [max + 1] bytes. *)
Lemma fed_take body p cs :
  fed body p cs → (exceeded env p = true ∨ ∃ e, pipeEnd p e) →
  concat cs = take (Z.to_nat (max + 1)) (content body).
Proof.
  intros Hf Hx. pose proof (fed_left _ _ _ Hf) as [Hl Hpos].
  pose proof (pt_content _ _ _ Hf) as Hc. simpl in Hc. rewrite Hc.
  assert ((p_left p <= 0)%Z ∨ content (p_body p) = []) as [Hz|Hn].
  { destruct Hx as [Hx|[e [[_ ?]|[_ ?]]]]; auto. apply (exceeded_spec _ _ _ Hf) in Hx. lia. }
  - rewrite take_app_le, take_ge by lia. done.
  - rewrite Hn, app_nil_r. by rewrite take_ge by lia.
Qed.

(** Without excess, reading that ended has ended the body. *)
Lemma fed_whole body p cs e :
  fed body p cs → exceeded env p = false → pipeEnd p e →
  concat cs = content body ∧ (Z.of_nat (length (content body)) ≤ max)%Z ∧ e = final body.
Proof.
  intros Hf Hx He. pose proof (fed_left _ _ _ Hf) as [Hl Hpos].
  assert (¬ (max < Z.of_nat (length (concat cs)))%Z) as Hle.
  { intros Hlt. apply (exceeded_spec _ _ _ Hf) in Hlt. congruence. }
  destruct He as [[_ ?]|[-> Hn]]; [lia|].
  pose proof (pt_content _ _ _ Hf) as Hc. simpl in Hc. rewrite Hn, app_nil_r in Hc.
  rewrite Hc. split_and!; [done|lia|]. by rewrite (pt_final _ _ _ Hf).
Qed.

Lemma drain_fed body cs e p :
  drain copyBuf (startPipe env body) = (cs, e, p) →
  fed body p cs ∧ ∃ e', e = Some e' ∧ pipeEnd p e'.
Proof.
  intros Hd. destruct (drain_passes copyBuf (startPipe env body)) as (cs' & e' & p' & Hd' & ? & ?);
    [apply copyBuf_pos|by simpl|]. rewrite Hd in Hd'. injection Hd' as -> -> ->. eauto.
Qed.

Lemma scanner_fed body :
  ∃ cs, fed body (scan_reader pipe (startPipe env body)).2 cs ∧
    (∀ res, (scan_reader pipe (startPipe env body)).1 = inl res →
       pipeEnd (scan_reader pipe (startPipe env body)).2 EOF).
Proof.
  destruct (scan_reads pipe (startPipe env body)) as (cs & e & Hr & He).
  apply reads_passes in Hr as [Hf Hend]; [|by simpl]. exists cs. split; [done|].
  intros res Hres. by apply Hend, (He res).
Qed.

(** Both ways of reading the body lead to a fed pipe whose file, at the end of
    the scan, is the body up to the limit. *)
Lemma scanned_fed body l :
  scanned body l →
  ∃ p cs l', l = writeEvents cs ++ l' ∧ fed body p cs ∧
    concat cs = take (Z.to_nat (max + 1)) (content body) ∧
    (ending p l' ∧ (exceeded env p = false → (Z.of_nat (length (content body)) ≤ max)%Z) ∨ l' = errorEnd).
Proof.
  destruct (scanner_fed body) as (cs0 & Hf0 & He0).
  intros [cs e p l' Hd Hl|p l' Hp Hl Hres|p cs e p' Hp Hx Hd].
  - apply drain_fed in Hd as (Hf & e' & -> & Hend). exists p, cs, l'.
    split_and!; [by rewrite (pt_log _ _ _ Hf)|done|by eapply fed_take; eauto|].
    left. split; [done|]. intros Hx. by eapply fed_whole.
  - subst p. exists (scan_reader pipe (startPipe env body)).2, cs0, l'.
    split_and!; [by rewrite (pt_log _ _ _ Hf0)|done| |].
    + eapply fed_take; [done|]. destruct Hres as [?|[res Hres]]; eauto.
    + left. split; [done|]. intros Hx. destruct Hres as [?|[res Hres]]; [congruence|].
      by eapply fed_whole; eauto.
  - subst p. destruct (drain_passes copyBuf (scan_reader pipe (startPipe env body)).2)
      as (cs' & e' & p'' & Hd' & Hp & Hend); [apply copyBuf_pos|by rewrite (pt_file _ _ _ Hf0)|].
    rewrite Hd in Hd'. injection Hd' as -> -> ->.
    assert (fed body p'' (cs0 ++ cs')) as Hf by (by eapply passedThrough_trans).
    exists p'', (cs0 ++ cs'), errorEnd.
    split_and!; [by rewrite (pt_log _ _ _ Hf)|done|eapply fed_take; eauto|by right].
Qed.
End data.
End shape.

(** ** Properties *)

Section properties.
Context `{Scanner, SHA256, VerdictCache C}.

(** The state of a job after its scan, started from the state [newJob] left. *)
Definition scannedJob env url body saveTail (ocs : option C) : jobState :=
  apply_events freshJob (runScan env url body saveTail ocs).1.

Lemma apply_opened j l :
  apply_events j ([EvTruncate; EvSetResult StatusScanning []] ++ l) =
  apply_events (MkJob StatusScanning [] [] (written j) (newBytes j) (uploadDone j) (resultCh j)
    (tailBody j)) l.
Proof. by destruct j. Qed.

Lemma apply_app j l k : apply_events j (l ++ k) = apply_events (apply_events j l) k.
Proof. apply fold_left_app. Qed.

(** What a scan of [data] with limit [max] leaves. *)
Definition scanOutcome (max : Z) (saveTail : bool) (body : source) (j : jobState) : Prop :=
  let data := content body in
  tempFile j = take (Z.to_nat (max + 1)) data ∧
  written j = length (tempFile j) ∧
  uploadDone j = true ∧
  (∃ r, resultCh j = Some r ∧ (Clean r = false ↔ job_status j = StatusInfected)) ∧
  match job_status j with
  | StatusClean | StatusInfected => tempFile j = data ∧ tailBody j = None
  | StatusTooLarge =>
      (max < Z.of_nat (length data))%Z ∧
      (if saveTail then ∃ b, tailBody j = Some b ∧ tempFile j ++ content b = data ∧ final b = final body
       else tailBody j = None)
  | StatusError => tailBody j = None ∧ resultCh j = Some passed
  | _ => False
  end.

Lemma scannedJob_outcome env url body saveTail (ocs : option C) max :
  open_ok env = true → disk env = None → limitMax env = max → checkMax env = max →
  (0 ≤ max < 2 ^ 63 - 1)%Z → scanOutcome max saveTail body (scannedJob env url body saveTail ocs).
Proof.
  intros Ho Hd Hl Hc Hm. unfold scanOutcome, scannedJob. cbv zeta.
  destruct (runScan_scanned env saveTail url body ocs Ho) as (l & Hs & ->).
  eapply scanned_fed in Hs as (p & cs & l' & -> & Hf & Hcs & Hend); eauto.
  rewrite apply_opened, apply_app, apply_writeEvents, Hcs. simpl.
  assert (∀ n : nat, take n (content body) = content body ↔ length (content body) ≤ n)%nat as Htk.
  { intros n. split; [|apply take_ge]. intros Ht. apply (f_equal length) in Ht.
    rewrite length_take in Ht. lia. }
  destruct Hend as [[[Hx|v Hx] Hle]| ->].
  - pose proof (proj1 (exceeded_spec env max Hc _ _ _ Hf) Hx) as Hlt.
    assert (max < Z.of_nat (length (content body)))%Z.
    { rewrite Hcs, length_take in Hlt. lia. }
    pose proof (pt_content _ _ _ Hf) as Hdata. simpl in Hdata. rewrite Hcs in Hdata.
    unfold tooLarge, deferred. destruct saveTail; simpl; split_and!; eauto using pt_final.
    + exists passed. done.
    + exists (p_body p). split_and!; [done|done|by rewrite (pt_final _ _ _ Hf)].
    + exists passed. done.
  - specialize (Hle Hx). assert (take (Z.to_nat (max + 1)) (content body) = content body) as Ht.
    { apply Htk. lia. }
    rewrite Ht. unfold finish. case_decide as Hv; simpl; split_and!; eauto;
      eexists; (split; [done|]); simpl; case_bool_decide; done.
  - simpl. split_and!; eauto. by exists passed.
Qed.

(** The scanner, having read the whole body, found it clean. *)
Definition scannerClean env (body : source) : Prop :=
  ∃ res, (scan_reader pipe (startPipe env body)).1 = inl res ∧ Clean res = true ∧ final body = EOF.

(** C9. The outcome of a scan, when the temp file opens, its disk does not fill
    and the limit, of at least 0 and below 2^63 - 1 bytes, does not change during
    the scan: the file holds the body up to one byte past the limit and the counter
    agrees; every scan ends with [uploadDone] closed and one verdict that is
    negative exactly for an infected job; a clean or infected job has its whole
    body in the file; a job is too large only if its body is, and then the file
    followed by the tail handed to the reader is the whole body.  The body is what
    arrived of it.  When the configuration raises the limit between the two loads,
    the file of a clean job can be cut ([raised_limit_truncates]). *)
Theorem runScan_outcome env url body saveTail (ocs : option C) max :
  open_ok env = true → disk env = None → limitMax env = max → checkMax env = max →
  (0 ≤ max < 2 ^ 63 - 1)%Z →
  scanOutcome max saveTail body (apply_events freshJob (runScan env url body saveTail ocs).1).
Proof. apply scannedJob_outcome. Qed.

Lemma mergeResults_clean a b :
  (mergeResults a b).1 = StatusClean → a.1 = StatusClean ∧ b.1 ≠ StatusInfected.
Proof. unfold mergeResults. repeat case_decide; simpl; naive_solver. Qed.

Lemma status_finish j v :
  job_status (apply_events j (finish v)) = StatusClean ↔ v.1 = StatusClean.
Proof. destruct j. unfold finish. by case_decide. Qed.

Lemma status_finish_not_large j v : job_status (apply_events j (finish v)) ≠ StatusTooLarge.
Proof. destruct j. unfold finish. by case_decide. Qed.

Lemma status_errorEnd j : job_status (apply_events j errorEnd) = StatusError.
Proof. by destruct j. Qed.

Lemma status_tooLarge j saveTail p : job_status (apply_events j (tooLarge saveTail p)) = StatusTooLarge.
Proof. destruct j. by destruct saveTail. Qed.

Section evidence.
Variables (env : scanEnv) (body : source) (saveTail : bool) (max : Z).
Context (Hdisk : disk env = None) (Hlimit : limitMax env = max) (Hcheck : checkMax env = max)
  (Hmax : (0 ≤ max < 2 ^ 63 - 1)%Z).

(** What was hashed, when the reading ended within the limit. *)
Lemma hashed_whole p cs e :
  fed env body p cs → exceeded env p = false → pipeEnd p e →
  p_hashed p = content body ∧ e = final body.
Proof.
  intros Hf Hx He. destruct (fed_whole env max Hmax Hlimit Hcheck _ _ _ _ Hf Hx He) as (<- & _ & ->).
  split; [|done]. by rewrite (pt_hashed _ _ _ Hf).
Qed.

Lemma scanCached_clean j hit (cs : C) :
  job_status (apply_events j (scanCached env body saveTail hit cs).1) = StatusClean →
  hit.1 = StatusClean ∧
  ∀ v, (cacheByHash (sha256 (content body)) cs).1 = Some v → v.1 ≠ StatusInfected.
Proof.
  unfold scanCached. destruct (drain copyBuf (startPipe env body)) as [[ds e] p] eqn:Hd.
  apply drain_fed in Hd as (Hf & e' & -> & Hend); [|done].
  destruct (exceeded env p) eqn:Hx; simpl; [by rewrite apply_app, status_tooLarge|].
  destruct (hashed_whole _ _ _ Hf Hx Hend) as [-> _].
  destruct (cacheByHash _ cs) as [[v|] cs']; simpl; rewrite apply_app, status_finish; [|done].
  intros [??]%mergeResults_clean. naive_solver.
Qed.

Lemma scanFresh_clean j url (ocs : option C) :
  job_status (apply_events j (scanFresh env url body saveTail ocs).1) = StatusClean →
  scannerClean env body ∧
  ∀ cs v, ocs = Some cs → (cacheByHash (sha256 (content body)) cs).1 = Some v → v.1 ≠ StatusInfected.
Proof.
  unfold scanFresh, scannerClean. destruct (scanner_fed env Hdisk body) as (cs0 & Hf & He).
  destruct (scan_reader pipe (startPipe env body)) as [res p]. simpl in Hf, He.
  destruct (exceeded env p) eqn:Hx; simpl; [by rewrite apply_app, status_tooLarge|].
  destruct res as [res|err].
  2: { destruct (drain copyBuf p) as [[ds e] p']. simpl. rewrite apply_app.
       by destruct (apply_events j (p_log p')). }
  destruct (hashed_whole _ _ _ Hf Hx (He res eq_refl)) as [-> Hfin].
  destruct ocs as [cs|]; simpl.
  - destruct (cacheByHash _ cs) as [[v|] cs'] eqn:Hh; simpl; rewrite apply_app, status_finish.
    + intros [Hv Hw]%mergeResults_clean. split.
      * exists res. split_and!; [done| |done]. by destruct (Clean res).
      * intros ? ? [= <-]. rewrite Hh. naive_solver.
    + intros Hv. split.
      * exists res. split_and!; [done| |done]. by destruct (Clean res).
      * intros ? ? [= <-]. by rewrite Hh.
  - rewrite apply_app, status_finish. intros Hv. split; [|done].
    exists res. split_and!; [done| |done]. by destruct (Clean res).
Qed.
End evidence.

(** C10. No body is reported clean without evidence, when the temp file opens, its
    disk does not fill and the limit, of at least 0 and below 2^63 - 1 bytes, does
    not change during the scan: the URL of a clean job was in the cache as clean,
    or its body was read to its end and found clean by the scanner; and in neither
    case does the cache know the content of the file that will be served as
    infected. *)
Theorem runScan_clean_evidence env url body saveTail (ocs : option C) max :
  open_ok env = true → disk env = None → limitMax env = max → checkMax env = max →
  (0 ≤ max < 2 ^ 63 - 1)%Z →
  let j := scannedJob env url body saveTail ocs in
  job_status j = StatusClean →
  match ocs with
  | None => scannerClean env body
  | Some cs =>
      let '(hit, cs') := cacheByURL url cs in
      ((∃ t, hit = Some (StatusClean, t)) ∨ (hit = None ∧ scannerClean env body)) ∧
      ∀ v, (cacheByHash (sha256 (tempFile j)) cs').1 = Some v → v.1 ≠ StatusInfected
  end.
Proof.
  intros Ho Hd Hl Hc Hm. cbv zeta. intros Hst.
  pose proof (scannedJob_outcome env url body saveTail ocs max Ho Hd Hl Hc Hm) as Hout.
  unfold scanOutcome in Hout. cbv zeta in Hout. rewrite Hst in Hout. destruct Hout as (_ & _ & _ & _ & -> & _).
  revert Hst. unfold scannedJob, runScan. rewrite Ho. simpl negb. cbv iota.
  destruct ocs as [cs|]; [destruct (cacheByURL url cs) as [[hit|] cs']|].
  - pose proof (λ j, scanCached_clean env body saveTail max Hd Hl Hc Hm j hit cs') as Hclean.
    destruct (scanCached env body saveTail hit cs') as [evs cs'']. cbv zeta; cbn [fst]; rewrite apply_opened.
    intros [Hv Hh]%Hclean. split; [|done]. left. destruct hit. simpl in *. subst. by eexists.
  - pose proof (λ j, scanFresh_clean env body saveTail max Hd Hl Hc Hm j url (Some cs')) as Hclean.
    destruct (scanFresh env url body saveTail (Some cs')) as [evs cs'']. cbv zeta; cbn [fst]; rewrite apply_opened.
    intros [Hv Hh]%Hclean. naive_solver.
  - pose proof (λ j, scanFresh_clean env body saveTail max Hd Hl Hc Hm j url None) as Hclean.
    destruct (scanFresh env url body saveTail None) as [evs cs'']. cbv zeta; cbn [fst]; rewrite apply_opened.
    by intros [? _]%Hclean.
Qed.

End properties.

Section unavailable.
Context `{SHA256, VerdictCache C}.
Variable d : clamd.
#[local] Existing Instance clamd_scanner.
Context (Hdial : dial_ok d = false).

Lemma unavailable_status env url body saveTail max :
  open_ok env = true → checkMax env = max → (0 ≤ max)%Z →
  job_status (@scannedJob (clamd_scanner d) _ C _ env url body saveTail None) = StatusError.
Proof.
  intros Ho Hc Hm. assert (∃ l, (@scanFresh (clamd_scanner d) _ C _ env url body saveTail None).1 =
    l ++ errorEnd) as [l Hfresh].
  { unfold scanFresh. simpl. unfold ScanReader. rewrite Hdial. simpl. unfold exceeded. simpl.
    rewrite Hc, (proj2 (Z.ltb_ge _ _)) by lia.
    destruct (drain copyBuf (startPipe env body)) as [[ds e] p]. by exists (p_log p). }
  unfold scannedJob, runScan. rewrite Ho. cbn [negb]. cbv zeta.
  destruct (@scanFresh (clamd_scanner d) _ C _ env url body saveTail None) as [evs oc].
  cbn [fst] in *. rewrite Hfresh, apply_opened, apply_app.
  by destruct (apply_events _ l).
Qed.
End unavailable.

(** When clamd cannot be reached, an oversized body reaches the client cut
    off: the job passes a file that ends one byte past the limit and hands over
    no tail, although the rest of the body was never read.  Within the limit
    the file is complete. *)
Theorem runScan_unavailable_truncates `{SHA256, VerdictCache C} d env url body saveTail max :
  dial_ok d = false →
  open_ok env = true → disk env = None → limitMax env = max → checkMax env = max →
  (0 ≤ max < 2 ^ 63 - 1)%Z →
  let j := apply_events freshJob (@runScan (clamd_scanner d) _ C _ env url body saveTail None).1 in
  job_status j = StatusError ∧ resultCh j = Some passed ∧ tailBody j = None ∧
  tempFile j = take (Z.to_nat (max + 1)) (content body) ∧
  (tempFile j = content body ↔ (Z.of_nat (length (content body)) ≤ max + 1)%Z).
Proof.
  intros Hdial Ho Hd Hl Hc Hm. cbv zeta.
  pose proof (@scannedJob_outcome (clamd_scanner d) _ C _ env url body saveTail None max Ho Hd Hl Hc Hm)
    as (Hf & _ & _ & _ & Ht).
  rewrite (unavailable_status d Hdial env url body saveTail max Ho Hc) in Ht by lia.
  destruct Ht as [Ht Hr].
  pose proof (unavailable_status d Hdial env url body saveTail max Ho Hc) as Hst.
  unfold scannedJob in *. split_and!; [apply Hst; lia|done|done|done|].
  rewrite Hf. split; intros Hx.
  - apply (f_equal length) in Hx. rewrite length_take in Hx. lia.
  - apply take_ge. lia.
Qed.

(** *** Witnesses *)

Section witnesses.
#[local] Existing Instance plainHash.

(** A scanner that reads everything and finds it clean or not. *)
Program Definition draining (res : ScanResult) : Scanner := {|
  scan_reader rd _ r :=
    let '(cs, e, r') := drain copyBuf r in
    (if decide (e = Some EOF) then inl res else inr ErrStream, r');
|}.
Next Obligation.
  intros res rd ? r. cbv beta. destruct (drain copyBuf r) as [[cs e] r'] eqn:Hd.
  exists cs, e. split; [by eapply readAll_reads; [apply copyBuf_pos|]|].
  simpl. intros ?. by case_decide; intros [=].
Defined.

(** A cache that knows one infected content. *)
Definition oneHash (h : bytes) : VerdictCache unit := {|
  cacheByURL _ c := (None, c);
  cacheByHash k c := (if decide (k = h) then Some ((StatusInfected, str "Eicar") : verdict) else None, c);
  cachePut _ _ _ c := c;
|}.

Definition exampleBody : source := Source ["ab"; "cde"] EOF true.
Definition exampleEnv : scanEnv := ScanEnv true None 3 3.

(** The hypotheses of the three properties hold of a body that is within the
    limit, clean and unknown; one that is too large; and an unreachable
    daemon. *)
Lemma runScan_outcome_witness :
  open_ok exampleEnv = true ∧
  scanOutcome 3 true exampleBody (apply_events freshJob
    (@runScan (draining passed) _ unit (oneHash "x") exampleEnv "u" exampleBody true (Some tt)).1).
Proof.
  split; [reflexivity|].
  apply (@runScan_outcome (draining passed) _ unit (oneHash "x") exampleEnv "u" exampleBody true (Some tt) 3);
    (reflexivity || lia).
Defined.

Lemma runScan_clean_evidence_witness :
  let env := ScanEnv true None 9 9 in
  let sc := draining passed in
  let j := @scannedJob sc _ unit (oneHash "x") env "u" exampleBody true (Some tt) in
  job_status j = StatusClean ∧
  @scannerClean sc env exampleBody.
Proof.
  assert (job_status (@scannedJob (draining passed) _ unit (oneHash "x") (ScanEnv true None 9 9) "u"
    exampleBody true (Some tt)) = StatusClean) as Hst by (vm_compute; reflexivity).
  split; [exact Hst|].
  pose proof (@runScan_clean_evidence (draining passed) _ unit (oneHash "x") (ScanEnv true None 9 9) "u"
    exampleBody true (Some tt) 9 eq_refl eq_refl eq_refl eq_refl ltac:(lia) Hst) as [[[t Ht]|[_ Hcl]] _].
  - discriminate Ht.
  - exact Hcl.
Defined.

(** A limit raised between the loads: the body was cut at the old limit, and the
    check by the new one does not see it. *)
Lemma raised_limit_truncates :
  let j := @scannedJob (draining passed) _ unit (oneHash "x") (ScanEnv true None 3 9) "u" exampleBody true None in
  job_status j = StatusClean ∧ tempFile j = str "abcd" ∧ content exampleBody = str "abcde" ∧ tailBody j = None.
Proof. cbv zeta. split_and!; vm_compute; reflexivity. Qed.

(** A body that breaks off while it is buffered because its URL is known: the error
    of the copy is dropped, and what has arrived is passed on as a clean body. *)
Definition oneURL (u : bytes) : VerdictCache unit := {|
  cacheByURL k c := (if decide (k = u) then Some ((StatusClean, []) : verdict) else None, c);
  cacheByHash _ c := (None, c);
  cachePut _ _ _ c := c;
|}.

Lemma cached_broken_passes :
  let j := @scannedJob (draining passed) _ unit (oneURL "u") (ScanEnv true None 9 9) "u" (Source ["ab"] Failure true)
             true (Some tt) in
  job_status j = StatusClean ∧ tempFile j = str "ab" ∧ resultCh j = Some passed.
Proof. cbv zeta. split_and!; vm_compute; reflexivity. Qed.

Lemma runScan_unavailable_truncates_witness :
  let j := apply_events freshJob
    (@runScan (clamd_scanner (Clamd false None (λ _, ([], EOF)))) _ unit (oneHash "x") exampleEnv "u"
       exampleBody true None).1 in
  job_status j = StatusError ∧ tempFile j = str "abcd" ∧ tailBody j = None.
Proof.
  destruct (@runScan_unavailable_truncates _ unit (oneHash "x") (Clamd false None (λ _, ([], EOF)))
    exampleEnv "u" exampleBody true 3 eq_refl eq_refl eq_refl eq_refl eq_refl ltac:(lia))
    as (Hs & _ & Ht & Hf & _).
  split; [exact Hs|]. split; [|exact Ht]. rewrite Hf. reflexivity.
Defined.
End witnesses.
