(* ===== verification/Trickle.v ===== *)
(** * The trickling body ([internal/scan/trickle.go])

    [TrickleBody.Read] as a state machine that runs next to the scan goroutine:
    a program counter inside [Read], [readOne] and [flushRead], one step per
    access to the shared job or per [select] branch taken, and the system that
    interleaves its steps with the pending events of the goroutine in any
    order. *)
From S2P Require Import Prelude GoStrings GoIO Clamd Services SyncMap ResultCache ScanJob.

(** ** The reader *)

Inductive trickleMode := modeTrickling | modeFlushing | modeAborted.

(** The errors a [Read] returns. *)
Inductive readErr := ErrEOF | errVirusDetected | ErrUpstream.

#[export] Instance readErr_eq_dec : EqDecision readErr.
Proof. solve_decision. Defined.

Definition ioErr (e : ioerr) : readErr :=
  match e with EOF => ErrEOF | Failure => ErrUpstream end.

(** Where a call with a buffer of [k] bytes is: not running; at the [select] of
    the trickling mode; at the head of the loop of [readOne] or in its
    [select]; waiting for the verdict; at the head of the loop of [flushRead]
    or in its [select]. *)
Inductive pc :=
  | Idle | AtSelect (k : nat) | AtReadOne (k : nat) | AtWaitOne (k : nat) | AtWaitVerdict (k : nat)
  | AtFlush (k : nat) | AtWaitFlush (k : nat).

#[export] Instance pc_eq_dec : EqDecision pc.
Proof. solve_decision. Defined.

(** The fields of [TrickleBody], with the results returned so far and the
    number of timer ticks as history. *)
Record TrickleBody := MkTrickle {
  at_pc : pc;
  readPos : nat;
  mode : trickleMode;
  fallback : option source;
  returned : list (bytes * option readErr);
  ticks : nat;
}.

Definition newTrickle : TrickleBody := MkTrickle Idle 0 modeTrickling None [] 0.
Definition fallbackTrickle (body : source) : TrickleBody :=
  MkTrickle Idle 0 modeTrickling (Some body) [] 0.

(** All bytes handed to the client so far. *)
Definition delivered (t : TrickleBody) : bytes := concat (fst <$> returned t).

(** What can happen next in the reader: a call, the timer, a receive from
    [resultCh], [uploadDone] or [newBytes], or its own next statement. *)
Inductive action := Call (k : nat) | Tick | RecvResult | RecvDone | RecvNew | Run.

Definition goto (t : TrickleBody) (p : pc) : TrickleBody :=
  MkTrickle p (readPos t) (mode t) (fallback t) (returned t) (ticks t).
Definition return_ (t : TrickleBody) (b : bytes) (e : option readErr) (n : nat) : TrickleBody :=
  MkTrickle Idle (readPos t + n) (mode t) (fallback t) (returned t ++ [(b, e)]) (ticks t).
Definition setMode (t : TrickleBody) (m : trickleMode) : TrickleBody :=
  MkTrickle (at_pc t) (readPos t) m (fallback t) (returned t) (ticks t).

Definition setNew (j : jobState) (b : bool) : jobState :=
  MkJob (job_status j) (job_threat j) (tempFile j) (written j) b (uploadDone j) (resultCh j) (tailBody j).
Definition setResultCh (j : jobState) (r : option ScanResult) : jobState :=
  MkJob (job_status j) (job_threat j) (tempFile j) (written j) (newBytes j) (uploadDone j) r (tailBody j).
Definition setTail (j : jobState) (b : source) : jobState :=
  MkJob (job_status j) (job_threat j) (tempFile j) (written j) (newBytes j) (uploadDone j) (resultCh j)
    (Some b).

(** [Read] up to its first blocking point. *)
Definition callRead (k : nat) (t : TrickleBody) : TrickleBody :=
  match fallback t with
  | Some body =>
      let '(b, e, body) := Read k body in
      MkTrickle Idle (readPos t) (mode t) (Some body) (returned t ++ [(b, ioErr <$> e)]) (ticks t)
  | None =>
      match mode t with
      | modeAborted => return_ t [] (Some errVirusDetected) 0
      | modeFlushing => goto t (AtFlush k)
      | modeTrickling => goto t (AtSelect k)
      end
  end.

(** The verdict is received, in [Read] or in [readOne]. *)
Definition onResult (k : nat) (r : ScanResult) (t : TrickleBody) : TrickleBody :=
  if Clean r then goto (setMode t modeFlushing) (AtFlush k)
  else return_ (setMode t modeAborted) [] (Some errVirusDetected) 0.

(** One pass of the loop of [readOne] up to its [select]. *)
Definition readOne (k : nat) (j : jobState) (t : TrickleBody) : TrickleBody :=
  if decide (k = 0)%nat then return_ t [] None 0
  else if decide (readPos t < written j)%nat then
    let b := take 1 (drop (readPos t) (tempFile j)) in
    return_ t b (if decide (length b < 1)%nat then Some ErrEOF else None) (length b)
  else goto t (AtWaitOne k).

(** One pass of the loop of [flushRead] up to its [select]. *)
Definition flushRead (k : nat) (j : jobState) (t : TrickleBody) : TrickleBody :=
  let available := (written j - readPos t)%nat in
  let b := take (min k available) (drop (readPos t) (tempFile j)) in
  if decide (b = []) then goto t (AtWaitFlush k) else return_ t b None (length b).

(** The end of [flushRead] once the upload is done and the file consumed. *)
Definition flushEnd (k : nat) (j : jobState) (t : TrickleBody) : jobState * TrickleBody :=
  match tailBody j with
  | Some tl => let '(b, e, tl) := Read k tl in (setTail j tl, return_ t b (ioErr <$> e) 0)
  | None => (j, return_ t [] (Some ErrEOF) 0)
  end.

(** One step of the reader; [None] where the action is not possible. *)
Definition rstep (a : action) (j : jobState) (t : TrickleBody) : option (jobState * TrickleBody) :=
  match at_pc t, a with
  | Idle, Call k => Some (j, callRead k t)
  | AtSelect k, Tick =>
      Some (j, MkTrickle (AtReadOne k) (readPos t) (mode t) (fallback t) (returned t) (S (ticks t)))
  | AtSelect k, RecvResult | AtWaitVerdict k, RecvResult =>
      match resultCh j with Some r => Some (setResultCh j None, onResult k r t) | None => None end
  | AtReadOne k, Run => Some (j, readOne k j t)
  | AtWaitOne k, RecvDone =>
      if uploadDone j then
        Some (j, goto t (if decide (written j ≤ readPos t)%nat then AtWaitVerdict k else AtReadOne k))
      else None
  | AtWaitOne k, RecvNew => if newBytes j then Some (setNew j false, goto t (AtReadOne k)) else None
  | AtFlush k, Run => Some (j, flushRead k j t)
  | AtWaitFlush k, RecvDone =>
      if uploadDone j then
        Some (if decide (written j ≤ readPos t)%nat then flushEnd k j t else (j, goto t (AtFlush k)))
      else None
  | AtWaitFlush k, RecvNew => if newBytes j then Some (setNew j false, goto t (AtFlush k)) else None
  | _, _ => None
  end.

(** ** The system *)

Record sys := Sys { s_job : jobState; s_pending : list event; s_body : TrickleBody }.

Inductive sys_step : sys → sys → Prop :=
  | step_scan j e es t : sys_step (Sys j (e :: es) t) (Sys (apply_event j e) es t)
  | step_read a j es t j' t' :
      rstep a j t = Some (j', t') → sys_step (Sys j es t) (Sys j' es t').

(** Executions as schedules: [None] lets the scan do its next event. *)
Definition sys_exec1 (s : sys) (a : option action) : option sys :=
  match a, s_pending s with
  | None, e :: es => Some (Sys (apply_event (s_job s) e) es (s_body s))
  | None, [] => None
  | Some a, es =>
      '(j, t) ← rstep a (s_job s) (s_body s); Some (Sys j es t)
  end.

Definition sys_exec (s : sys) (l : list (option action)) : option sys :=
  fold_left (λ o a, s ← o; sys_exec1 s a) l (Some s).

Lemma sys_exec1_step s a s' : sys_exec1 s a = Some s' → sys_step s s'.
Proof.
  destruct s as [j es t]. unfold sys_exec1. simpl. destruct a as [a|].
  - destruct (rstep a j t) as [[j' t']|] eqn:Hr; simpl; [|done]. intros [= <-]. by econstructor.
  - destruct es; [done|]. intros [= <-]. constructor.
Qed.

Lemma sys_exec_steps l s s' : sys_exec s l = Some s' → rtc sys_step s s'.
Proof.
  unfold sys_exec. revert s. induction l as [|a l IH]; intros s; simpl; [intros [= ->]; constructor|].
  destruct (sys_exec1 s a) as [s1|] eqn:H1; [|].
  - intros H. eapply rtc_l; [by eapply sys_exec1_step|]. by apply IH.
  - intros H. exfalso. revert H. clear. induction l; simpl; [done|auto].
Qed.

Example trickle_ex :
  (λ s, returned (s_body s)) <$>
  sys_exec (Sys freshJob [EvWrite "ab"; EvCount 2; EvNotify; EvSetResult StatusClean []; EvVerdict passed;
                          EvUploadDone] newTrickle)
    [None; None; Some (Call 8); Some Tick; Some Run; None; None; None; Some (Call 8); Some RecvResult;
     Some Run; None; Some (Call 8); Some Run; Some RecvDone] =
  Some [(str "a", None); (str "b", None); ([], Some ErrEOF)].
Proof. vm_compute. reflexivity. Qed.

(** ** What the scan promises its reader *)

(** [promise F tl v taken es j]: whatever the reader does, while the events [es]
    are applied to [j] the file grows towards [F], the counter never runs ahead
    of it, the single verdict [v] is sent with the tail already in place and
    before [uploadDone] closes, and [uploadDone] closes at the end.  [taken]
    says that the verdict has been received. *)
Section promise.
Variables (F : bytes) (tl : option source) (v : ScanResult).

Definition jobNow (taken : bool) (j : jobState) : Prop :=
  (written j ≤ length (tempFile j))%nat ∧
  tempFile j `prefix_of` F ∧
  (uploadDone j = true → written j = length F ∧ (resultCh j = Some v ∨ taken = true)) ∧
  (∀ r, resultCh j = Some r → r = v ∧ taken = false) ∧
  (resultCh j ≠ None ∨ taken = true → (is_Some (tailBody j) ↔ is_Some tl)) ∧
  (is_Some (tailBody j) → is_Some tl).

Definition eventNow (taken : bool) (e : event) (j : jobState) : Prop :=
  match e with
  | EvVerdict _ => resultCh j = None ∧ taken = false
  | EvTail b => tl = Some b ∧ tailBody j = None
  | _ => True
  end.

Fixpoint promise (taken : bool) (es : list event) (j : jobState) : Prop :=
  jobNow taken j ∧
  match es with
  | [] => uploadDone j = true
  | e :: es => eventNow taken e j ∧ promise taken es (apply_event j e)
  end.

Lemma promise_now taken es j : promise taken es j → jobNow taken j.
Proof. destruct es; simpl; tauto. Qed.

Lemma promise_setNew taken es j b : promise taken es j → promise taken es (setNew j b).
Proof.
  revert j b. induction es as [|e es IH]; intros [st th f w nb ud rc tb] b; simpl; [tauto|].
  intros (Hj & He & Hes). split; [exact Hj|]. split; [by destruct e|].
  destruct e; simpl in *; first [exact (IH _ b Hes)|exact Hes].
Qed.

Lemma promise_take es j :
  resultCh j = Some v → promise false es j → promise true es (setResultCh j None).
Proof.
  revert j. induction es as [|e es IH]; intros [st th f w nb ud rc tb]; simpl; intros ->.
  - unfold jobNow. simpl. intros [(? & ? & Hu & ? & ? & ?) ->]. split; [|done]. naive_solver.
  - intros [(? & ? & Hu & ? & Ht & ?) [He Hes]]. split; [unfold jobNow; simpl; naive_solver|].
    destruct e; simpl in *; try (split; [done|]; apply IH in Hes; [exact Hes|reflexivity]); try (by destruct He).
Qed.

Lemma jobNow_setTail taken j b b' :
  tailBody j = Some b → jobNow taken j → jobNow taken (setTail j b').
Proof.
  intros Hb (? & ? & ? & ? & Ht & Ht'). rewrite Hb in *. unfold jobNow; simpl.
  assert (is_Some (Some b') ↔ is_Some (Some b)) as -> by (split; eauto). done.
Qed.

Lemma promise_setTail taken es j b b' :
  tailBody j = Some b → promise taken es j → promise taken es (setTail j b').
Proof.
  revert j. induction es as [|e es IH]; intros j Hb; simpl.
  - intros [Hj ?]. split; [by eapply jobNow_setTail|by destruct j].
  - intros [Hj [He Hes]]. split; [by eapply jobNow_setTail|].
    destruct j as [st th f w nb ud rc tb]. simpl in Hb. subst tb.
    destruct e; simpl in *; try (split; [done|]; apply IH in Hes; [exact Hes|reflexivity]); try (by destruct He).
Qed.
End promise.

Lemma promise_logEvents F tl v qs es j :
  tempFile j ++ concat qs `prefix_of` F → jobNow F tl v false j → uploadDone j = false →
  resultCh j = None → written j = length (tempFile j) →
  (∀ j', tempFile j' = tempFile j ++ concat qs → written j' = length (tempFile j') →
         uploadDone j' = false → resultCh j' = None → tailBody j' = tailBody j →
         promise F tl v false es j') →
  promise F tl v false (logEvents qs ++ es) j.
Proof.
  revert j. induction qs as [|q qs IH]; intros [st th f w nb ud rc tb]; simpl;
    intros Hpre Hnow -> -> -> Hes.
  { apply Hes; by rewrite ?app_nil_r. }
  rewrite app_assoc in Hpre. destruct Hnow as (H1 & H2 & H3 & H4 & H5 & H6). simpl in *.
  assert (f ++ q `prefix_of` F) as Hfq by (etrans; [|exact Hpre]; by apply prefix_app_r).
  unfold jobNow at 1 2 3. simpl. rewrite !length_app.
  split_and!; try done; try lia.
  apply IH; simpl; try done.
  - unfold jobNow. simpl. rewrite length_app. split_and!; try done; lia.
  - by rewrite length_app.
  - intros j' Hf. rewrite <-app_assoc in Hf. by apply Hes.
Qed.

Lemma apply_logEvents qs j :
  let j' := apply_events j (logEvents qs) in
  tempFile j' = tempFile j ++ concat qs ∧ written j' = (written j + length (concat qs))%nat ∧
  uploadDone j' = uploadDone j ∧ resultCh j' = resultCh j ∧ tailBody j' = tailBody j.
Proof.
  revert j. induction qs as [|q qs IH]; intros j; cbv zeta.
  { simpl. by rewrite app_nil_r, Nat.add_0_r. }
  change (logEvents (q :: qs)) with ([EvWrite q; EvCount (length q); EvNotify] ++ logEvents qs).
  rewrite apply_app.
  destruct (IH (apply_events j [EvWrite q; EvCount (length q); EvNotify])) as (-> & -> & -> & -> & ->).
  destruct j. simpl. rewrite <-app_assoc, length_app. split_and!; try done; lia.
Qed.

Lemma promise_end F tl v st th owned tle j :
  (tle = [] ∧ tl = None ∨ (∃ b, tle = [EvDiscard b]) ∧ tl = None ∨ ∃ b, tle = [EvTail b] ∧ tl = Some b) →
  tempFile j = F → written j = length F → uploadDone j = false → resultCh j = None → tailBody j = None →
  promise F tl v false (tle ++ [EvSetResult st th; EvVerdict v] ++ deferred owned) j.
Proof.
  destruct j as [st0 th0 f w nb ud rc tb]. simpl. intros Htl -> -> -> -> ->.
  destruct Htl as [[-> ->]|[[[b ->] ->]|(b & -> & ->)]]; destruct owned; simpl; unfold jobNow; simpl;
    split_and!; try done; try lia; naive_solver.
Qed.

(** The events of every scan keep the promise, for the outcome they lead to. *)
Lemma wellShaped_promise evs :
  wellShaped evs →
  let j := apply_events freshJob evs in
  ∃ r, resultCh j = Some r ∧ (Clean r = false ↔ job_status j = StatusInfected) ∧
       promise (tempFile j) (tailBody j) r false evs freshJob.
Proof.
  intros (pre & qs & tle & st & th & r & owned & -> & Hpre & Htl & Hr). cbv zeta.
  set (tb := match tle with [EvTail b] => Some b | _ => None end).
  assert (∀ j, uploadDone j = false → tailBody j = None → resultCh j = None → tempFile j = [] →
    written j = 0%nat →
    let es := logEvents qs ++ tle ++ [EvSetResult st th; EvVerdict r] ++ deferred owned in
    tempFile (apply_events j es) = concat qs ∧ tailBody (apply_events j es) = tb ∧
    resultCh (apply_events j es) = Some r ∧ job_status (apply_events j es) = st ∧
    promise (concat qs) tb r false es j) as Hend.
  { intros j Hu Ht Hrc Hf Hw. cbv zeta. rewrite apply_app.
    destruct (apply_logEvents qs j) as (Hf' & Hw' & Hu' & Hrc' & Ht').
    rewrite Hf in Hf'. rewrite Ht in Ht'. simpl in Hf'. split_and!.
    1-4: destruct (apply_events j (logEvents qs)); simpl in *; subst;
         destruct Htl as [->|[b [->| ->]]]; by destruct owned.
    apply promise_logEvents; try done.
    - by rewrite Hf.
    - unfold jobNow. rewrite Hf, Hw, Hu, Hrc, Ht. split_and!; try done; try apply prefix_nil; naive_solver.
    - by rewrite Hf, Hw.
    - intros j' Hj' Hwj Huj Hrj Htj. rewrite Hf in Hj'. simpl in Hj'.
      apply promise_end; try done; try congruence.
      destruct Htl as [->|[b [->| ->]]]; subst tb; eauto. }
  exists r. destruct Hpre as [->| ->].
  - destruct (Hend freshJob) as (Hf & Ht & Hrc & Hst & Hp); try done.
    rewrite app_nil_l, Hf, Ht, Hrc, Hst. done.
  - destruct (Hend (MkJob StatusScanning [] [] 0 false false None None)) as (Hf & Ht & Hrc & Hst & Hp);
      try done.
    rewrite apply_app.
    change (apply_events freshJob [EvTruncate; EvSetResult StatusScanning []])
      with (MkJob StatusScanning [] [] 0 false false None None).
    rewrite Hf, Ht, Hrc, Hst. split_and!; try done.
    simpl. unfold jobNow. simpl. split_and!; try done; try apply prefix_nil; naive_solver.
Qed.

(** ** The invariant of the system *)

Definition taken (t : TrickleBody) : bool :=
  match mode t with modeTrickling => false | _ => true end.

Section delivery.
Variables (F : bytes) (tl : option source) (v : ScanResult).

(** Everything the client may get, and the error that ends it. *)
Definition total : bytes := F ++ match tl with Some b => content b | None => [] end.
Definition totalEnd : readErr := match tl with Some b => ioErr (final b) | None => ErrEOF end.

(** The tail has been read up to [c]. *)
Definition tailAt (c : bytes) (j : jobState) : Prop :=
  match tailBody j with
  | Some b' => ∃ b, tl = Some b ∧ content b = c ++ content b' ∧ final b' = final b
  | None => c = []
  end.

(** The bytes of the file that are out, then those of the tail. *)
Definition dataOk (j : jobState) (t : TrickleBody) : Prop :=
  ∃ c, delivered t = take (readPos t) F ++ c ∧ tailAt c j ∧
       (readPos t ≤ written j)%nat ∧ (c ≠ [] → readPos t = length F).

Definition pcOk (t : TrickleBody) : Prop :=
  match at_pc t with
  | Idle => True
  | AtFlush _ | AtWaitFlush _ => mode t = modeFlushing
  | _ => mode t = modeTrickling
  end.

Definition modeOk (t : TrickleBody) : Prop :=
  match mode t with
  | modeTrickling => True | modeFlushing => Clean v = true | modeAborted => Clean v = false
  end.

(** Why an error was returned. *)
Definition errsOk (t : TrickleBody) : Prop :=
  ∀ b e, (b, Some e) ∈ returned t →
    (e = errVirusDetected ∧ mode t = modeAborted) ∨
    (e = totalEnd ∧ mode t = modeFlushing ∧ delivered t = total).

(** A tick whose byte is still to come. *)
Definition owed (t : TrickleBody) : nat :=
  match at_pc t with AtReadOne _ | AtWaitOne _ | AtWaitVerdict _ => 1 | _ => 0 end.

Definition ticksOk (t : TrickleBody) : Prop :=
  mode t = modeFlushing ∨ (length (delivered t) + owed t ≤ ticks t)%nat.

Record bodyOk (j : jobState) (t : TrickleBody) : Prop := BodyOk {
  ok_fallback : fallback t = None;
  ok_data : dataOk j t;
  ok_pc : pcOk t;
  ok_mode : modeOk t;
  ok_errs : errsOk t;
  ok_ticks : ticksOk t;
}.

Definition sysOk (s : sys) : Prop :=
  promise F tl v (taken (s_body s)) (s_pending s) (s_job s) ∧ bodyOk (s_job s) (s_body s).

(** The reader's invariant depends on the job only through the data. *)
Lemma bodyOk_job j j' t :
  (written j ≤ written j')%nat → (∀ c, tailAt c j → tailAt c j') → bodyOk j t → bodyOk j' t.
Proof.
  intros Hw Ht []. split; try done. destruct ok_data0 as (c & ? & ? & ? & ?).
  exists c. split_and!; auto. lia.
Qed.

Lemma sysOk_scan j e es t : sysOk (Sys j (e :: es) t) → sysOk (Sys (apply_event j e) es t).
Proof.
  intros [(_ & He & Hes) Ht]. split; [done|]. simpl in *.
  eapply bodyOk_job, Ht; destruct j as [st th f w nb ud rc tb], e; simpl in *; try done; try lia.
  intros c. unfold tailAt. simpl. destruct He as [He ->]. intros ->. by exists b.
Qed.

(** What is delivered is a prefix of everything. *)
Lemma tailAt_prefix c j : tailAt c j → F ++ c `prefix_of` total.
Proof.
  unfold tailAt, total. intros Hc. apply prefix_app. destruct (tailBody j).
  - destruct Hc as (b & -> & -> & _). by apply prefix_app_r.
  - subst. apply prefix_nil.
Qed.

Lemma dataOk_prefix j t : dataOk j t → delivered t `prefix_of` total.
Proof.
  intros (c & -> & Hc & _ & Hcn). destruct (decide (c = [])) as [->|Hne].
  - rewrite app_nil_r. unfold total. etrans; [apply prefix_take|by apply prefix_app_r].
  - rewrite take_ge by (rewrite Hcn; auto). by apply tailAt_prefix with j.
Qed.

Lemma delivered_return t b e n : delivered (return_ t b e n) = delivered t ++ b.
Proof. unfold delivered. simpl. rewrite fmap_app, concat_app. simpl. by rewrite app_nil_r. Qed.

Lemma owed_return t b e n : owed (return_ t b e n) = 0%nat.
Proof. done. Qed.

(** Returning from a call keeps what was known about errors, provided the new
    error is explained. *)
Lemma errsOk_return j t b e n :
  errsOk t → delivered t ++ b `prefix_of` total → dataOk j t →
  (∀ e', e = Some e' →
    (e' = errVirusDetected ∧ mode t = modeAborted) ∨
    (e' = totalEnd ∧ mode t = modeFlushing ∧ delivered t ++ b = total)) →
  errsOk (return_ t b e n).
Proof.
  intros Hok Hpre Hdata He b' e' Hin. rewrite delivered_return.
  change (mode (return_ t b e n)) with (mode t).
  simpl in Hin. apply elem_of_app in Hin as [Hin|Hin].
  - destruct (Hok _ _ Hin) as [?|(? & ? & Hd)]; [by left|right]. split_and!; [done|done|].
    rewrite Hd in *. apply prefix_length in Hpre. rewrite length_app in Hpre.
    destruct b; [apply app_nil_r|simpl in Hpre; lia].
  - apply list_elem_of_singleton in Hin as [= -> <-]. by apply He.
Qed.

(** The bytes below the counter are those of the final file. *)
Lemma jobNow_file tk j n pos :
  jobNow F tl v tk j → (pos + n ≤ written j)%nat →
  take n (drop pos (tempFile j)) = take n (drop pos F) ∧
  length (take n (drop pos (tempFile j))) = n ∧ (written j ≤ length F)%nat.
Proof.
  intros (Hw & [k Hk] & _) Hle. pose proof (f_equal length Hk) as Hlen. rewrite length_app in Hlen.
  split_and!; [|rewrite length_take, length_drop; lia|lia].
  rewrite Hk, drop_app_le by lia. by rewrite take_app_le by (rewrite length_drop; lia).
Qed.

(** A call that returns the next [n] bytes of the file. *)
Lemma bodyOk_return_file tk j t n :
  jobNow F tl v tk j → bodyOk j t → (readPos t + n ≤ written j)%nat →
  (mode t = modeFlushing ∨ (n ≤ owed t)%nat) →
  let b := take n (drop (readPos t) (tempFile j)) in
  bodyOk j (return_ t b None (length b)).
Proof.
  intros Hnow [Hfb Hdata Hpc Hmode Herrs Hticks] Hle Hown.
  destruct (jobNow_file _ _ _ _ Hnow Hle) as (-> & Hlen & Hw). cbv zeta.
  assert (length (take n (drop (readPos t) F)) = n) as Hn by (rewrite length_take, length_drop; lia).
  rewrite Hn. clear Hlen.
  assert (dataOk j (return_ t (take n (drop (readPos t) F)) None n)) as Hdata'.
  { destruct Hdata as (c & Hd & Ht & _ & Hc).
    assert (n = 0%nat ∨ c = []) as [-> | ->].
    { destruct (decide (c = [])) as [|Hne]; [auto|]. specialize (Hc Hne). left. lia. }
    - exists c. rewrite delivered_return. simpl. rewrite take_0, app_nil_r, Nat.add_0_r. split_and!; auto; lia.
    - exists []. rewrite delivered_return, Hd, !app_nil_r. simpl.
      rewrite take_take_drop. by split_and!. }
  split; try done.
  - eapply errsOk_return; [done| |done|done].
    rewrite <-delivered_return with (e := None) (n := n). by eapply dataOk_prefix.
  - unfold ticksOk in *. rewrite delivered_return, length_app, Hn, owed_return. simpl.
    destruct Hticks as [?|?]; [by left|]. destruct Hown as [?|?]; [by left|]. right. lia.
Qed.

(** A call that returns no bytes and a mode change; [p] is where it goes. *)
Lemma bodyOk_goto j t p :
  bodyOk j t → pcOk (goto t p) → (owed (goto t p) ≤ owed t)%nat → bodyOk j (goto t p).
Proof.
  intros [Hfb Hdata Hpc Hmode Herrs Hticks] Hp Ho. split; try done.
  destruct Hticks as [?|?]; [by left|right]. change (delivered (goto t p)) with (delivered t).
  simpl. lia.
Qed.

Lemma bodyOk_abort j t e :
  bodyOk j t → Clean v = false → mode t ≠ modeFlushing → e = Some errVirusDetected →
  bodyOk j (return_ (setMode t modeAborted) [] e 0).
Proof.
  intros [Hfb Hdata Hpc Hmode Herrs Hticks] Hv Hm ->.
  assert (delivered (return_ (setMode t modeAborted) [] (Some errVirusDetected) 0) = delivered t) as Hd.
  { rewrite delivered_return. apply app_nil_r. }
  split; try done.
  - destruct Hdata as (c & ? & ? & ? & ?). exists c. rewrite Hd. simpl. by rewrite Nat.add_0_r.
  - intros b' e' Hin. simpl in *. apply elem_of_app in Hin as [Hin|Hin].
    + left. split; [|done]. destruct (Herrs _ _ Hin) as [[? _]|(_ & ? & _)]; done.
    + apply list_elem_of_singleton in Hin as [= -> ->]. by left.
  - right. rewrite Hd, owed_return. simpl. destruct Hticks as [?|?]; [done|lia].
Qed.

(** The verdict arrives. *)
Lemma bodyOk_onResult k j t :
  bodyOk j t → mode t = modeTrickling → bodyOk (setResultCh j None) (onResult k v t).
Proof.
  intros Hok Hm. apply bodyOk_job with j; [done|done|]. unfold onResult.
  destruct (Clean v) eqn:Hv; [|apply bodyOk_abort; [done..|congruence|done]].
  destruct Hok as [Hfb Hdata Hpc Hmode Herrs Hticks]. split; try done; [|by left].
  intros b e Hin. destruct (Herrs b e Hin) as [[_ Ha]|(_ & Ha & _)]; congruence.
Qed.

(** The end of a flush. *)
Lemma bodyOk_flushEnd k j t :
  bodyOk j t → jobNow F tl v true j → mode t = modeFlushing →
  uploadDone j = true → (written j ≤ readPos t)%nat →
  bodyOk (flushEnd k j t).1 (flushEnd k j t).2.
Proof.
  intros Hok (_ & _ & Hu & _ & Htl & _) Hm Hup Hle. destruct (Hu Hup) as [Hw _].
  destruct Hok as [Hfb (c & Hd & Htc & Hpos & _) Hpc Hmode Herrs Hticks].
  assert (take (readPos t) F = F) as Htk by (apply take_ge; lia).
  unfold flushEnd, tailAt in *. destruct (tailBody j) as [b'|] eqn:Ht.
  - destruct Htc as (b & Htb & Hb & Hfin).
    pose proof (source_Read_content k b') as Hr. simpl Read.
    destruct (source_Read k b') as [[x e] b''] eqn:Hx. destruct Hr as (Hc & Hf' & He). simpl.
    assert (dataOk (setTail j b'') (return_ t x (ioErr <$> e) 0)) as Hdata'.
    { exists (c ++ x). rewrite delivered_return, Hd. simpl. rewrite Nat.add_0_r, app_assoc.
      split_and!; [by rewrite Htk| |done|intros; lia]. unfold tailAt. simpl. exists b.
      rewrite Hb, Hc, app_assoc. split_and!; congruence. }
    split; try done.
    + eapply (errsOk_return j); [done| | |].
      * rewrite <-delivered_return with (e := ioErr <$> e) (n := 0%nat). by eapply dataOk_prefix.
      * exists c. unfold tailAt. rewrite Ht. split_and!; eauto. intros; lia.
      * intros e' He'. right. destruct e as [e|]; [|done]. simplify_eq/=.
        destruct (He e eq_refl) as [-> Hn]. unfold totalEnd, total. rewrite Htb.
        split_and!; [by rewrite <-Hfin, <-Hf'; rewrite Hf'|done|].
        by rewrite Hd, Htk, Hb, Hc, Hn, app_nil_r, app_assoc.
    + by left.
  - subst c. assert (tl = None) as Htn.
    { destruct tl; [|done]. destruct Htl as [_ [? ?]]; [by right|by eexists|done]. }
    assert (delivered t = total) as Htot.
    { unfold total. rewrite Htn, Hd, Htk. done. }
    simpl. split; try done.
    + exists []. rewrite delivered_return, Hd. simpl. rewrite Nat.add_0_r, !app_nil_r.
      unfold tailAt. rewrite Ht. by split_and!.
    + eapply (errsOk_return j); [done| | |].
      * rewrite app_nil_r, Htot. done.
      * exists []. unfold tailAt. rewrite Ht. by split_and!.
      * intros e' [= <-]. right. unfold totalEnd. rewrite Htn, app_nil_r. done.
    + by left.
Qed.

Lemma bodyOk_call k j t : bodyOk j t → at_pc t = Idle → bodyOk j (callRead k t).
Proof.
  intros Hok Hpc. unfold callRead. rewrite (ok_fallback _ _ Hok).
  destruct (mode t) eqn:Hm.
  - apply bodyOk_goto; [done|done|apply Nat.le_0_l].
  - apply bodyOk_goto; [done|done|apply Nat.le_0_l].
  - pose proof (ok_mode _ _ Hok) as Hv. unfold modeOk in Hv. rewrite Hm in Hv.
    assert (setMode t modeAborted = t) as Heq by (clear -Hm; destruct t; simpl in Hm; by subst).
    rewrite <-Heq. apply bodyOk_abort; [done|done|by rewrite Hm|done].
Qed.

Lemma mode_call k t : mode (callRead k t) = mode t.
Proof.
  unfold callRead. destruct (fallback t) as [b|]; [by destruct (Read k b) as [[??]?]|].
  by destruct (mode t) eqn:Hm.
Qed.

Lemma bodyOk_tick k j t :
  bodyOk j t → at_pc t = AtSelect k →
  bodyOk j (MkTrickle (AtReadOne k) (readPos t) (mode t) (fallback t) (returned t) (S (ticks t))).
Proof.
  intros [Hfb Hdata Hpc Hmode Herrs Hticks] Hp. split; try done.
  - unfold pcOk in *. by rewrite Hp in Hpc.
  - destruct Hticks as [?|Hle]; [by left|right]. unfold owed in *. rewrite Hp in Hle.
    unfold delivered in *. simpl. lia.
Qed.

Lemma taken_flushing t : mode t = modeFlushing → taken t = true.
Proof. unfold taken. by intros ->. Qed.

Lemma bodyOk_readOne tk k j t :
  jobNow F tl v tk j → bodyOk j t → at_pc t = AtReadOne k → bodyOk j (readOne k j t).
Proof.
  intros Hnow Hok Hpc. unfold readOne.
  pose proof (ok_pc _ _ Hok) as Hm. unfold pcOk in Hm. rewrite Hpc in Hm.
  destruct (decide (k = 0)%nat) as [_|_].
  { destruct (ok_data _ _ Hok) as (_ & _ & _ & Hw & _).
    by apply (bodyOk_return_file tk j t 0); [..|right]; try done; lia. }
  destruct (decide _) as [Hlt|Hge].
  - destruct (jobNow_file tk j 1 (readPos t) Hnow) as (_ & Hl & _); [lia|].
    rewrite decide_False by (rewrite Hl; lia).
    apply (bodyOk_return_file tk); [done|done|lia|]. right. unfold owed. by rewrite Hpc.
  - apply bodyOk_goto; [done|done|]. unfold owed. by rewrite Hpc.
Qed.

Lemma bodyOk_flushRead tk k j t :
  jobNow F tl v tk j → bodyOk j t → at_pc t = AtFlush k → bodyOk j (flushRead k j t).
Proof.
  intros Hnow Hok Hpc. unfold flushRead.
  pose proof (ok_pc _ _ Hok) as Hm. unfold pcOk in Hm. rewrite Hpc in Hm.
  destruct (ok_data _ _ Hok) as (_ & _ & _ & Hw & _). case_decide.
  - apply bodyOk_goto; [done|done|apply Nat.le_0_l].
  - apply (bodyOk_return_file tk); [done|done|lia|by left].
Qed.

Lemma sysOk_read a j es t j' t' :
  rstep a j t = Some (j', t') → sysOk (Sys j es t) → sysOk (Sys j' es t').
Proof.
  intros Hstep [Hp Hok]. simpl in Hp, Hok. pose proof (promise_now _ _ _ _ _ _ Hp) as Hnow.
  pose proof (ok_pc _ _ Hok) as Hm. unfold pcOk in Hm. unfold rstep in Hstep.
  assert (∀ k, mode t = modeTrickling → resultCh j = Some v →
    sysOk (Sys (setResultCh j None) es (onResult k v t))) as Hres.
  { intros k Hmode Hr. split; [|by apply bodyOk_onResult]. unfold taken in Hp. rewrite Hmode in Hp.
    apply promise_take in Hp; [|done]. unfold onResult. by destruct (Clean v). }
  assert (∀ r, resultCh j = Some r → r = v) as Hrv by (intros r; apply Hnow).
  destruct (at_pc t) as [|k|k|k|k|k|k] eqn:Hpc, a; try done; simplify_eq.
  - split; [|by apply bodyOk_call]. simpl. unfold taken. by rewrite mode_call.
  - split; [done|by apply bodyOk_tick].
  - destruct (resultCh j) as [r|] eqn:Hr; simplify_eq. rewrite (Hrv r eq_refl). by apply Hres; [|f_equal; apply Hrv].
  - split; [|by eapply bodyOk_readOne]. simpl. unfold readOne. by repeat case_decide.
  - destruct (uploadDone j); simplify_eq. split; [done|]. case_decide;
    (apply bodyOk_goto; [done|done|unfold owed; by rewrite Hpc]).
  - destruct (newBytes j); simplify_eq. split; [by apply promise_setNew|].
    apply bodyOk_job with j; [done|done|]. apply bodyOk_goto; [done|done|unfold owed; by rewrite Hpc].
  - destruct (resultCh j) as [r|] eqn:Hr; simplify_eq. rewrite (Hrv r eq_refl). by apply Hres; [|f_equal; apply Hrv].
  - split; [|by eapply bodyOk_flushRead]. simpl. unfold flushRead. by case_decide.
  - destruct (uploadDone j) eqn:Hu; simplify_eq. rewrite (taken_flushing t Hm) in *.
    case_decide as Hle; simplify_eq.
    + pose proof (bodyOk_flushEnd k j t Hok Hnow Hm Hu Hle) as Hok'.
      assert (j' = (flushEnd k j t).1 ∧ t' = (flushEnd k j t).2) as [-> ->] by (by destruct (flushEnd k j t); simplify_eq).
      split; [|done]. simpl. unfold flushEnd in *. destruct (tailBody j) as [b|] eqn:Ht.
      * destruct (Read k b) as [[x e] b']. simpl. rewrite taken_flushing by done. by eapply promise_setTail.
      * simpl. by rewrite taken_flushing.
    + split; [simpl; by rewrite taken_flushing|]. apply bodyOk_goto; [done|done|apply Nat.le_0_l].
  - destruct (newBytes j); simplify_eq. split; [by apply promise_setNew|].
    apply bodyOk_job with j; [done|done|]. apply bodyOk_goto; [done|done|apply Nat.le_0_l].
Qed.

Lemma sysOk_steps s s' : rtc sys_step s s' → sysOk s → sysOk s'.
Proof.
  induction 1 as [|s1 s2 s3 Hs _ IH]; [done|]. intros Hok. apply IH.
  destruct Hs as [j e es t|a j es t j' t' Hr]; [by apply sysOk_scan|by eapply sysOk_read].
Qed.
End delivery.

(** ** Progress *)

(** The buffer size of the call in progress. *)
Definition bufOf (p : pc) : nat :=
  match p with
  | Idle => 0
  | AtSelect k | AtReadOne k | AtWaitOne k | AtWaitVerdict k | AtFlush k | AtWaitFlush k => k
  end.

(** How many more statements a call can execute once the scan has ended. *)
Definition remaining (j : jobState) (t : TrickleBody) : nat :=
  let more := decide (readPos t < written j)%nat in
  (if newBytes j then 3 else 0) +
  match at_pc t with
  | Idle => 0
  | AtSelect _ => 10
  | AtReadOne _ => if more then 1 else 7
  | AtWaitOne _ => if more then 2 else 6
  | AtWaitVerdict _ => 5
  | AtFlush _ => if more then 1 else 3
  | AtWaitFlush _ => 2
  end.

(** [returns n j t]: whatever branches the [select]s take, the call in progress
    is never stuck and has returned after at most [n] steps. *)
Fixpoint returns (n : nat) (j : jobState) (t : TrickleBody) : Prop :=
  at_pc t = Idle ∨
  match n with
  | O => False
  | S n =>
      (∃ a, is_Some (rstep a j t)) ∧
      ∀ a j' t', rstep a j t = Some (j', t') → returns n j' t'
  end.

Section progress.
Variables (F : bytes) (tl : option source) (v : ScanResult).

#[local] Ltac solve_remaining :=
  simpl; repeat case_match; simpl; split; lia || done.

(** With the scan at its end, no call is stuck. *)
Lemma not_stuck j t :
  sysOk F tl v (Sys j [] t) → at_pc t ≠ Idle → ∃ a, is_Some (rstep a j t).
Proof.
  intros [[(_ & _ & Hu & _) Hup] Hok] Hpc. simpl in *. destruct (Hu Hup) as [_ Hr].
  pose proof (ok_pc _ _ _ _ _ Hok) as Hm. unfold pcOk in Hm. unfold rstep.
  destruct (at_pc t) as [|k|k|k|k|k|k]; try done.
  - by exists Tick.
  - by exists Run.
  - exists RecvDone. by rewrite Hup.
  - exists RecvResult. destruct Hr as [->|Ht]; [done|]. unfold taken in Ht. by rewrite Hm in Ht.
  - by exists Run.
  - exists RecvDone. by rewrite Hup.
Qed.

Lemma remaining_step a j t j' t' :
  sysOk F tl v (Sys j [] t) → (0 < bufOf (at_pc t))%nat → rstep a j t = Some (j', t') →
  at_pc t' = Idle ∨ (bufOf (at_pc t') = bufOf (at_pc t) ∧ (remaining j' t' < remaining j t)%nat).
Proof.
  intros [[Hnow _] Hok] Hk. simpl in *. unfold rstep, remaining.
  destruct (at_pc t) as [|k|k|k|k|k|k] eqn:Hpc, a; try done; simpl in Hk.
  - lia.
  - intros [= <- <-]. right. solve_remaining.
  - destruct (resultCh j) as [r|]; [|done]. intros [= <- <-]. unfold onResult.
    destruct (Clean r); [right; solve_remaining|left; reflexivity].
  - intros [= <- <-]. unfold readOne. rewrite decide_False by lia.
    case_decide; [by left|right]. solve_remaining.
  - destruct (uploadDone j); [|done]. intros [= <- <-]. right. solve_remaining.
  - destruct (newBytes j); [|done]. intros [= <- <-]. right. simpl. split; [done|].
    repeat case_decide; lia.
  - destruct (resultCh j) as [r|]; [|done]. intros [= <- <-]. unfold onResult.
    destruct (Clean r); [right; solve_remaining|left; reflexivity].
  - intros [= <- <-]. unfold flushRead. case_decide as Hb; [right|by left]. simpl. split; [done|].
    destruct (ok_data _ _ _ _ _ Hok) as (_ & _ & _ & Hw & _).
    destruct (jobNow_file F tl v _ j (min k (written j - readPos t)) (readPos t) Hnow) as (_ & Hl & _); [lia|].
    rewrite Hb in Hl. simpl in Hl. destruct (newBytes j); case_decide; lia.
  - destruct (uploadDone j); [|done]. case_decide.
    + unfold flushEnd. destruct (tailBody j) as [b|]; [destruct (Read k b) as [[x e] b']|];
        intros [= <- <-]; by left.
    + intros [= <- <-]. right. simpl. split; [done|]. destruct (newBytes j); case_decide; lia.
  - destruct (newBytes j); [|done]. intros [= <- <-]. right. simpl. split; [done|]. case_decide; lia.
Qed.

Lemma remaining_returns n j t :
  sysOk F tl v (Sys j [] t) → (0 < bufOf (at_pc t))%nat → (remaining j t ≤ n)%nat → returns n j t.
Proof.
  revert j t. induction n as [|n IH]; intros j t Hok Hk Hn; simpl.
  - right. unfold remaining in Hn. destruct (at_pc t); simpl in *; repeat case_decide; lia.
  - destruct (decide (at_pc t = Idle)) as [?|Hpc]; [by left|right].
    split; [by apply not_stuck|]. intros a j' t' Hs.
    destruct (remaining_step _ _ _ _ _ Hok Hk Hs) as [Hi|[Hb Hr]].
    + destruct n; by left.
    + apply IH; [by eapply sysOk_read|lia|lia].
Qed.

Lemma remaining_bound j t : (remaining j t ≤ 13)%nat.
Proof. unfold remaining. destruct (newBytes j), (at_pc t); repeat case_decide; lia. Qed.
End progress.

(** ** Properties *)

(** The state [StartCLIJob] leaves: a fresh job, the scan about to start with
    the events [evs], and a body reading the job's file. *)
Definition startCLI (evs : list event) : sys := Sys freshJob evs newTrickle.

(** Everything a client can be given of a job. *)
Definition allBytes (j : jobState) : bytes :=
  tempFile j ++ match tailBody j with Some b => content b | None => [] end.

Section properties.
Context `{Scanner, SHA256, VerdictCache C}.
Variables (env : scanEnv) (url : bytes) (body : source) (saveTail : bool) (ocs : option C).
Let evs := (runScan env url body saveTail ocs).1.
Let j := apply_events freshJob evs.

Lemma startCLI_ok s :
  rtc sys_step (startCLI evs) s →
  ∃ r, resultCh j = Some r ∧ (Clean r = false ↔ job_status j = StatusInfected) ∧
       sysOk (tempFile j) (tailBody j) r s.
Proof.
  intros Hs. destruct (wellShaped_promise evs) as (r & Hr & Hst & Hp); [apply runScan_shape|].
  exists r. split; [exact Hr|]. split; [exact Hst|]. eapply sysOk_steps; [done|]. split; [exact Hp|].
  split; try done; simpl.
  - by exists [].
  - intros b e Hin. by apply not_elem_of_nil in Hin.
  - by right.
Qed.

(** C7. Whatever the interleaving of the scan and the reader, the client is
    given a prefix of the file followed by the tail: no byte is lost, repeated
    or reordered.  A [Read] reports [io.EOF] only when all of it has been
    delivered and the verdict let it pass. *)
Theorem trickle_delivery s :
  rtc sys_step (startCLI evs) s →
  delivered (s_body s) `prefix_of` allBytes j ∧
  (∀ b, (b, Some ErrEOF) ∈ returned (s_body s) →
     delivered (s_body s) = allBytes j ∧ job_status j ≠ StatusInfected).
Proof.
  intros (r & Hr & Hst & _ & Hok)%startCLI_ok. split; [by eapply dataOk_prefix, ok_data|].
  intros b [[? _]|(_ & Hm & Hd)]%(ok_errs _ _ _ _ _ Hok); [done|]. split; [done|].
  pose proof (ok_mode _ _ _ _ _ Hok) as Hv. unfold modeOk in Hv. rewrite Hm in Hv.
  intros Hi%Hst. congruence.
Qed.

(** C6. Until the verdict has passed the body, the client has received at most
    one byte for each tick of the timer; and the reader of an infected job never
    leaves that stage: every error it reports is the virus error, never [io.EOF].
    What the client sees of that error is up to whoever copies the body: the tunnel
    hides it ([tunnel_hides_abort] in [ScanTransport]). *)
Theorem trickle_withholds s :
  rtc sys_step (startCLI evs) s →
  (mode (s_body s) ≠ modeFlushing →
     (length (delivered (s_body s)) ≤ ticks (s_body s))%nat) ∧
  (job_status j = StatusInfected →
     mode (s_body s) ≠ modeFlushing ∧
     ∀ b e, (b, Some e) ∈ returned (s_body s) → e = errVirusDetected).
Proof.
  intros (r & Hr & Hst & _ & Hok)%startCLI_ok. split.
  - intros Hm. destruct (ok_ticks _ _ _ _ _ Hok) as [?|?]; [done|lia].
  - intros Hi%Hst. assert (mode (s_body s) ≠ modeFlushing) as Hm.
    { intros Hm. pose proof (ok_mode _ _ _ _ _ Hok) as Hv. unfold modeOk in Hv. rewrite Hm in Hv.
      congruence. }
    split; [done|]. intros b e [[? _]|(_ & ? & _)]%(ok_errs _ _ _ _ _ Hok); done.
Qed.

(** C8. A [Read] with a non-empty buffer always returns: at no point can the
    whole system be stuck while a call is in progress, and once the scan has
    ended the call returns within thirteen steps of its own, whichever branches
    its [select]s take. *)
Theorem trickle_read_returns s :
  rtc sys_step (startCLI evs) s →
  (s_pending s ≠ [] → ∃ s', sys_step s s' ∧ length (s_pending s') < length (s_pending s)) ∧
  (s_pending s = [] → (0 < bufOf (at_pc (s_body s)))%nat → returns 13 (s_job s) (s_body s)).
Proof.
  intros (r & Hr & Hst & Hok)%startCLI_ok. destruct s as [j' es t]. cbn [s_pending s_job s_body] in *. split.
  - destruct es as [|e es]; [done|]. intros _. eexists. split; [constructor|]. simpl. lia.
  - intros -> Hk. eapply remaining_returns; [done|done|apply remaining_bound].
Qed.
End properties.

(** C5. End to end, for a client behind the proxy: when the temp file opens, its
    disk does not fill and the limit does not change during the scan, a response
    that ends with [io.EOF] carried exactly what arrived of the upstream body,
    unless the scanner failed; a body larger than the limit included. *)
Theorem cli_exact_delivery `{Scanner, SHA256, VerdictCache C} env url body (ocs : option C) max s :
  open_ok env = true → disk env = None → limitMax env = max → checkMax env = max →
  (0 ≤ max < 2 ^ 63 - 1)%Z →
  rtc sys_step (startCLI (runScan env url body true ocs).1) s →
  ∀ b, (b, Some ErrEOF) ∈ returned (s_body s) →
  let j := scannedJob env url body true ocs in
  job_status j ≠ StatusInfected ∧
  (job_status j ≠ StatusError → delivered (s_body s) = content body).
Proof.
  intros Ho Hd Hl Hc Hm Hs b Hb. cbv zeta.
  destruct (startCLI_ok env url body true ocs s Hs) as (r & Hr & Hst & _ & Hok).
  pose proof (scannedJob_outcome env url body true ocs max Ho Hd Hl Hc Hm) as Hout.
  fold (scannedJob env url body true ocs) in *.
  destruct (ok_errs _ _ _ _ _ Hok _ _ Hb) as [[? _]|(_ & Hmode & Hdel)]; [done|].
  pose proof (ok_mode _ _ _ _ _ Hok) as Hv. unfold modeOk in Hv. rewrite Hmode in Hv.
  split; [intros Hi%Hst; congruence|]. intros Hne. rewrite Hdel. unfold total.
  destruct Hout as (_ & _ & _ & _ & Ht).
  destruct (job_status (scannedJob env url body true ocs)); try done.
  - destruct Ht as [-> ->]. apply app_nil_r.
  - destruct Ht as [-> ->]. apply app_nil_r.
  - destruct Ht as (_ & b' & -> & -> & _). done.
Qed.

(** ** Closing *)

(** [Close]: the upstream bodies it closes (the file aside). *)
Definition Close (j : jobState) (t : TrickleBody) : list source :=
  match fallback t with
  | Some body => [body]
  | None => match tailBody j with Some b => [b] | None => [] end
  end.

(** The hand-over of the tail, and the close by the scan. *)
Definition isTail (e : event) : bool := match e with EvTail _ => true | _ => false end.
Definition isClose (e : event) : bool := match e with EvCloseBody => true | _ => false end.

Lemma existsb_writeEvents f cs :
  (∀ p, f (EvWrite p) = false) → (∀ n, f (EvCount n) = false) → f EvNotify = false →
  existsb f (writeEvents cs) = false.
Proof.
  intros Hw Hc Hn. induction cs as [|c cs IH]; [done|].
  change (writeEvents (c :: cs)) with (chunkEvents c ++ writeEvents cs).
  rewrite existsb_app, IH, orb_false_r. unfold chunkEvents. case_decide; [done|]. simpl.
  by rewrite Hw, Hc, Hn.
Qed.

(** At most one hand-over, still to come exactly while the job has no tail. *)
Fixpoint tailOwed (es : list event) (tb : bool) : Prop :=
  match es with
  | [] => tb = true
  | EvTail _ :: es => tb = false ∧ existsb isTail es = false
  | _ :: es => tailOwed es tb
  end.

Lemma tailOwed_app es ds tb : existsb isTail es = false → tailOwed ds tb → tailOwed (es ++ ds) tb.
Proof. induction es as [|e es IH]; [done|]. destruct e; simpl; auto; done. Qed.

Lemma tailOwed_done es : existsb isTail es = false → tailOwed es true.
Proof. induction es as [|e es IH]; [done|]. destruct e; simpl; auto; done. Qed.

Lemma tailOwed_spec es tb : tailOwed es tb → tb = negb (existsb isTail es).
Proof. induction es as [|e es IH]; simpl; [done|]. destruct e; simpl; auto. by intros [-> _]. Qed.

Definition hasTail (j : jobState) : bool := match tailBody j with Some _ => true | None => false end.

Definition sysTail (s : sys) : Prop :=
  tailOwed (s_pending s) (hasTail (s_job s)) ∧ fallback (s_body s) = None.

Lemma rstep_tail a j t j' t' :
  rstep a j t = Some (j', t') → fallback t = None → hasTail j' = hasTail j ∧ fallback t' = None.
Proof.
  unfold rstep, callRead, onResult, readOne, flushRead, flushEnd, hasTail. intros Hs Hfb.
  rewrite Hfb in Hs.
  destruct (at_pc t), a; try done; repeat case_match; simplify_eq/=; done || congruence.
Qed.

Lemma sysTail_steps s s' : rtc sys_step s s' → sysTail s → sysTail s'.
Proof.
  induction 1 as [|s1 s2 s3 Hs _ IH]; [done|]. intros [Ho Hf]. apply IH. clear IH.
  destruct Hs as [j e es t|a j es t j' t' Hr]; split; simpl in *; try done.
  - destruct j as [st th f w nb ud rc tb], e; simpl in *; try done.
    destruct Ho as [_ Ho]. by apply tailOwed_done.
  - by rewrite (proj1 (rstep_tail _ _ _ _ _ Hr Hf)).
  - by apply (rstep_tail _ _ _ _ _ Hr Hf).
Qed.

(** A body that is too large is closed by nobody when the client goes away
    before the scan has handed it over: the scan never closes it, and [Close]
    finds it only from the hand-over on. *)
Theorem Close_early_leaks `{Scanner, SHA256, VerdictCache C} env url body (ocs : option C) max :
  open_ok env = true → disk env = None → limitMax env = max → checkMax env = max →
  (0 ≤ max < 2 ^ 63 - 1)%Z →
  let evs := (runScan env url body true ocs).1 in
  job_status (apply_events freshJob evs) = StatusTooLarge →
  existsb isClose evs = false ∧
  ∀ s, rtc sys_step (startCLI evs) s →
    (Close (s_job s) (s_body s) = [] ↔ existsb isTail (s_pending s) = true).
Proof.
  intros Ho Hd Hl Hc Hm evs Hst. subst evs.
  destruct (runScan_scanned env true url body ocs Ho) as (l & Hs & Hrun). rewrite Hrun in *.
  eapply scanned_fed in Hs as (p & cs & l' & -> & _ & _ & Hend); [|done..].
  assert (l' = tooLarge true p) as ->.
  { revert Hst. rewrite apply_opened, apply_app.
    destruct Hend as [[[Hx|w Hx] _]| ->]; [done| |]; intros Hst.
    - by apply status_finish_not_large in Hst.
    - by rewrite status_errorEnd in Hst. }
  split.
  - rewrite !existsb_app, existsb_writeEvents by done. by simpl.
  - intros s Hsteps. apply sysTail_steps in Hsteps as [Ht Hfb].
    + apply tailOwed_spec in Ht. unfold Close. rewrite Hfb. unfold hasTail in Ht.
      destruct (tailBody (s_job s)), (existsb isTail (s_pending s)); naive_solver.
    + split; [|done]. apply (tailOwed_app [EvTruncate; EvSetResult StatusScanning []]); [done|].
      apply tailOwed_app; [by apply existsb_writeEvents|]. by simpl.
Qed.

(** *** Witnesses *)

Section witnesses.
#[local] Existing Instance plainHash.

(** The scan of an oversized body, and of an infected one. *)
Definition largeScan : list event :=
  (@runScan (draining passed) _ unit (oneHash "x") exampleEnv "u" exampleBody true (Some tt)).1.
Definition infectedScanner : Scanner := draining (MkScanResult false "Eicar").
Definition infectedEnv : scanEnv := ScanEnv true None 9 9.
Definition infectedScan : list event :=
  (@runScan infectedScanner _ unit (oneHash "x") infectedEnv "u" exampleBody true None).1.

(** One byte on the timer while the scan runs, then the rest of the file, then
    the tail and the end. *)
Definition largeSchedule : list (option action) :=
  replicate 5 None ++ [Some (Call 8); Some Tick; Some Run] ++ replicate 7 None ++
  [Some (Call 8); Some RecvResult; Some Run; Some (Call 8); Some Run; Some RecvDone].

Definition infectedSchedule : list (option action) :=
  replicate 5 None ++ [Some (Call 8); Some Tick; Some Run] ++ replicate 7 None ++
  [Some (Call 8); Some RecvResult].

(** The client is in the middle of a call when the scan ends. *)
Definition waitingSchedule : list (option action) :=
  [Some (Call 8); Some Tick; Some Run] ++ replicate 12 None.

Definition reached (s : sys) (l : list (option action)) : sys := default s (sys_exec s l).

Lemma reached_steps s l : is_Some (sys_exec s l) → rtc sys_step s (reached s l).
Proof. intros [s' Hs]. unfold reached. rewrite Hs. by eapply sys_exec_steps. Qed.

Lemma trickle_delivery_witness :
  delivered (s_body (reached (startCLI largeScan) largeSchedule)) = str "abcde" ∧
  delivered (s_body (reached (startCLI largeScan) largeSchedule)) `prefix_of`
    allBytes (apply_events freshJob largeScan).
Proof.
  split; [vm_compute; reflexivity|].
  apply (@trickle_delivery (draining passed) _ unit (oneHash "x") exampleEnv "u" exampleBody true
    (Some tt)).
  apply reached_steps. eexists. vm_compute. reflexivity.
Defined.

Lemma trickle_withholds_witness :
  returned (s_body (reached (startCLI infectedScan) infectedSchedule)) =
    [(str "a", None); ([], Some errVirusDetected)] ∧
  (length (delivered (s_body (reached (startCLI infectedScan) infectedSchedule))) ≤
   ticks (s_body (reached (startCLI infectedScan) infectedSchedule)))%nat.
Proof.
  split; [vm_compute; reflexivity|].
  apply (@trickle_withholds infectedScanner _ unit (oneHash "x") infectedEnv "u" exampleBody true None).
  - apply reached_steps. eexists. vm_compute. reflexivity.
  - vm_compute. discriminate.
Defined.

Lemma trickle_read_returns_witness :
  bufOf (at_pc (s_body (reached (startCLI largeScan) waitingSchedule))) = 8%nat ∧
  returns 13 (s_job (reached (startCLI largeScan) waitingSchedule))
    (s_body (reached (startCLI largeScan) waitingSchedule)).
Proof.
  split; [vm_compute; reflexivity|].
  apply (@trickle_read_returns (draining passed) _ unit (oneHash "x") exampleEnv "u" exampleBody true
    (Some tt)).
  - apply reached_steps. eexists. vm_compute. reflexivity.
  - vm_compute. reflexivity.
  - vm_compute. lia.
Defined.

Lemma cli_exact_delivery_witness :
  let s := reached (startCLI largeScan) largeSchedule in
  returned (s_body s) = [(str "a", None); (str "bcd", None); (str "e", Some ErrEOF)] ∧
  delivered (s_body s) = content exampleBody.
Proof.
  split; [vm_compute; reflexivity|].
  assert (rtc sys_step (startCLI largeScan) (reached (startCLI largeScan) largeSchedule)) as Hs.
  { apply reached_steps. eexists. vm_compute. reflexivity. }
  apply (@cli_exact_delivery (draining passed) _ unit (oneHash "x") exampleEnv "u" exampleBody
    (Some tt) 3 _ eq_refl eq_refl eq_refl eq_refl ltac:(lia) Hs (str "e")).
  - vm_compute. do 2 right. constructor.
  - vm_compute. discriminate.
Defined.

Lemma Close_early_leaks_witness :
  existsb isClose largeScan = false ∧
  Close (s_job (startCLI largeScan)) (s_body (startCLI largeScan)) = [].
Proof.
  destruct (@Close_early_leaks (draining passed) _ unit (oneHash "x") exampleEnv "u" exampleBody
    (Some tt) 3 eq_refl eq_refl eq_refl eq_refl ltac:(lia)) as [Hc Ht].
  - vm_compute. reflexivity.
  - split; [exact Hc|]. apply (Ht (startCLI largeScan)); [constructor|]. vm_compute. reflexivity.
Defined.
End witnesses.
