(* ===== verification/Http.v ===== *)
(** * HTTP messages as the proxy uses them

    Headers, requests and responses ([net/http]), the formatting of numbers
    ([fmt]), copying ([io.Copy]), and a reference reader of HTTP/1.1 messages
    against which the writers of [Tunnel] are verified. *)
From S2P Require Import Prelude GoStrings GoIO Services.

(** ** Numbers in text *)

(** The digits of [n] in base [b], least significant first. *)
Fixpoint fmtRev (fuel : nat) (b n : N) : bytes :=
  match fuel with
  | O => []
  | S fuel => hex_digit (n mod b) :: (if (n <? b)%N then [] else fmtRev fuel b (n / b))
  end.

(** [%d] (base 10) and [%x] (base 16) of a non-negative number. *)
Definition fmtN (b n : N) : bytes := rev (fmtRev (S (N.size_nat n)) b n).

Definition fmtZ (z : Z) : bytes :=
  if (z <? 0)%Z then "-" ++ fmtN 10 (Z.to_N (- z)) else fmtN 10 (Z.to_N z).

(** Reading a number back, as the receiver of a message does. *)
Definition digit_val (c : byte) : option N :=
  let n := byte_val c in
  if ((48 <=? n) && (n <=? 57))%N then Some (n - 48)%N
  else if ((97 <=? n) && (n <=? 102))%N then Some (n - 87)%N
  else if ((65 <=? n) && (n <=? 70))%N then Some (n - 55)%N
  else None.

Definition parseDigit (b : N) (acc : option N) (c : byte) : option N :=
  match acc, digit_val c with
  | Some a, Some d => if (d <? b)%N then Some (a * b + d)%N else None
  | _, _ => None
  end.

Definition parseN (b : N) (s : bytes) : option N :=
  if decide (s = []) then None else fold_left (parseDigit b) s (Some 0%N).

Lemma digit_val_hex n : (n < 16)%N → digit_val (hex_digit n) = Some n.
Proof.
  intros Hn. unfold digit_val. rewrite hex_digit_val by done.
  destruct (N.ltb_spec n 10).
  - rewrite (proj2 (N.leb_le 48 _)), (proj2 (N.leb_le _ 57)) by lia. simpl. f_equal. lia.
  - rewrite (proj2 (N.leb_gt (87 + n) 57)), andb_false_r by lia.
    rewrite (proj2 (N.leb_le 97 _)), (proj2 (N.leb_le _ 102)) by lia. simpl. f_equal. lia.
Qed.

Lemma fmtRev_value b fuel n :
  (2 ≤ b ≤ 16)%N → (n < 2 ^ N.of_nat fuel)%N →
  fold_right (λ c acc, parseDigit b acc c) (Some 0%N) (fmtRev fuel b n) = Some n.
Proof.
  intros Hb. revert n. induction fuel as [|fuel IH]; intros n Hn.
  { simpl in *. f_equal. lia. }
  simpl. assert (n mod b < b)%N as Hm by (apply N.mod_lt; lia).
  assert (b * (n / b) + n mod b = n)%N as Hdm by (symmetry; apply N.div_mod; lia).
  unfold parseDigit at 1. rewrite digit_val_hex by lia. rewrite (proj2 (N.ltb_lt _ _) Hm).
  destruct (N.ltb_spec n b) as [Hlt|Hge]; simpl.
  - f_equal. rewrite N.mod_small by done. done.
  - rewrite IH; [f_equal; lia|]. rewrite Nat2N.inj_succ, N.pow_succ_r' in Hn.
    apply N.Div0.div_lt_upper_bound. nia.
Qed.

Lemma fmtN_not_nil b n : fmtN b n ≠ [].
Proof. unfold fmtN. simpl. intros H. by apply app_eq_nil in H as [_ ?]. Qed.

Lemma N_size_bound n : (n < 2 ^ N.of_nat (S (N.size_nat n)))%N.
Proof.
  rewrite Nat2N.inj_succ, N.pow_succ_r'.
  assert (n < 2 ^ N.of_nat (N.size_nat n))%N; [|lia].
  destruct n as [|p]; [done|]. unfold N.size_nat. induction p as [p IH|p IH|]; [| |done];
    cbn [Pos.size_nat]; rewrite Nat2N.inj_succ, N.pow_succ_r'; lia.
Qed.

(** A number written in text reads back as itself. *)
Lemma parseN_fmtN b n : (2 ≤ b ≤ 16)%N → parseN b (fmtN b n) = Some n.
Proof.
  intros Hb. unfold parseN. rewrite decide_False by apply fmtN_not_nil.
  unfold fmtN. rewrite <-fold_left_rev_right, rev_involutive.
  apply fmtRev_value; [done|apply N_size_bound].
Qed.

Lemma parseN_fmtZ z : (0 ≤ z)%Z → parseN 10 (fmtZ z) = Some (Z.to_N z).
Proof. intros Hz. unfold fmtZ. rewrite (proj2 (Z.ltb_ge _ _) Hz). by apply parseN_fmtN. Qed.

Example fmt_ex : fmtN 16 4096 = str "1000" ∧ fmtN 16 255 = str "ff" ∧ fmtZ 1234567890 = str "1234567890"
                 ∧ fmtZ 0 = str "0" ∧ fmtZ (-1) = str "-1".
Proof. done. Qed.

(** Numbers contain only digits. *)
Lemma fmtRev_digit b fuel n c :
  (2 ≤ b ≤ 16)%N → c ∈ fmtRev fuel b n → ∃ d, (d < b)%N ∧ c = hex_digit d.
Proof.
  intros Hb. revert n. induction fuel as [|fuel IH]; intros n; simpl; [by intros ?%not_elem_of_nil|].
  intros [->|Hin]%elem_of_cons.
  - exists (n mod b)%N. split; [apply N.mod_lt; lia|done].
  - destruct (n <? b)%N; [by apply not_elem_of_nil in Hin|by apply IH in Hin].
Qed.

Lemma fmtN_digit b n c : (2 ≤ b ≤ 16)%N → c ∈ fmtN b n → is_Some (digit_val c).
Proof.
  intros Hb Hin. unfold fmtN in Hin. rewrite list_elem_of_In, <-in_rev, <-list_elem_of_In in Hin.
  apply fmtRev_digit in Hin as (d & Hd & ->); [|done]. rewrite digit_val_hex by lia. by eexists.
Qed.

Lemma fmtN_no b n c : (2 ≤ b ≤ 16)%N → digit_val c = None → c ∉ fmtN b n.
Proof. intros Hb Hc Hin. apply fmtN_digit in Hin as [d Hd]; [congruence|done]. Qed.

(** ** Headers *)

(** An [http.Header]: keys in canonical form with their values, in whatever
    order Go's map iteration yields them. *)
Abbreviation Header := (list (bytes * list bytes)).

Fixpoint hvalues (h : Header) (k : bytes) : list bytes :=
  match h with
  | [] => []
  | (k', vs) :: h => if decide (k' = k) then vs else hvalues h k
  end.

(** [h.Get(k)], [h.Del(k)] and [h.Set(k, v)] for a canonical key [k]. *)
Definition hget (h : Header) (k : bytes) : bytes := match hvalues h k with v :: _ => v | [] => [] end.
Definition hdel (h : Header) (k : bytes) : Header := filter (λ kv, kv.1 ≠ k) h.
Definition hset (h : Header) (k v : bytes) : Header := hdel h k ++ [(k, [v])].

Lemma hvalues_del_ne h k k' : k' ≠ k → hvalues (hdel h k) k' = hvalues h k'.
Proof.
  intros Hne. induction h as [|[k0 vs] h IH]; [done|]. unfold hdel in *. rewrite filter_cons.
  simpl. repeat case_decide; simpl; repeat case_decide; try done; naive_solver.
Qed.

Lemma hvalues_del_eq h k : hvalues (hdel h k) k = [].
Proof.
  induction h as [|[k0 vs] h IH]; [done|]. unfold hdel in *. rewrite filter_cons. simpl.
  repeat case_decide; simpl; repeat case_decide; done.
Qed.

Lemma hvalues_app h1 h2 k : hvalues h1 k = [] → (∀ vs, (k, vs) ∉ h1) → hvalues (h1 ++ h2) k = hvalues h2 k.
Proof.
  intros Hv Hn. induction h1 as [|[k0 vs] h1 IH]; [done|]. simpl in *. case_decide as Hk.
  - exfalso. rewrite Hk in Hn. apply (Hn vs). constructor.
  - apply IH; [done|]. intros vs' Hin. apply (Hn vs'). by constructor.
Qed.

Lemma hget_set_eq h k v : hget (hset h k v) k = v.
Proof.
  unfold hget, hset. rewrite hvalues_app; [simpl; by rewrite decide_True|apply hvalues_del_eq|].
  intros vs [Hne _]%list_elem_of_filter. done.
Qed.

Lemma hget_del_ne h k k' : k' ≠ k → hget (hdel h k) k' = hget h k'.
Proof. intros Hne. unfold hget. by rewrite hvalues_del_ne. Qed.

Lemma hget_del_eq h k : hget (hdel h k) k = [].
Proof. unfold hget. by rewrite hvalues_del_eq. Qed.

(** ** Requests and responses *)

(** [*url.URL] as far as it is used: the decoded path and the query, and the
    escaped path and query as [URL.RequestURI()] renders them. *)
Record URL := MkURL {
  u_Scheme : bytes; u_Host : bytes; u_Path : bytes; u_RawQuery : bytes; u_RequestURI : bytes }.

(** [URL.String()] of a request URL. *)
Definition urlString (u : URL) : bytes := u_Scheme u ++ "://" ++ u_Host u ++ u_RequestURI u.

Record Request := MkRequest {
  r_Method : bytes;
  r_URL : URL;
  r_Host : bytes;
  r_Header : Header;
  r_RemoteAddr : bytes;
  r_Close : bool;
}.

(** An [http.Response] with a body of type [B]. *)
Record Response (B : Type) := MkResponse {
  StatusCode : Z;
  Status : bytes;
  ProtoMajor : Z;
  ProtoMinor : Z;
  HeaderOf : Header;
  Body : B;
  ContentLength : Z;
  CloseAfter : bool;
}.
Arguments MkResponse {B}.
Arguments StatusCode {B}.
Arguments Status {B}.
Arguments ProtoMajor {B}.
Arguments ProtoMinor {B}.
Arguments HeaderOf {B}.
Arguments Body {B}.
Arguments ContentLength {B}.
Arguments CloseAfter {B}.

(** [http.StatusText]. *)
Definition statusTable : list (Z * bytes) := [
  (100, str "Continue"); (101, str "Switching Protocols"); (102, str "Processing");
  (103, str "Early Hints"); (200, str "OK"); (201, str "Created"); (202, str "Accepted");
  (203, str "Non-Authoritative Information"); (204, str "No Content"); (205, str "Reset Content");
  (206, str "Partial Content"); (207, str "Multi-Status"); (208, str "Already Reported");
  (226, str "IM Used"); (300, str "Multiple Choices"); (301, str "Moved Permanently");
  (302, str "Found"); (303, str "See Other"); (304, str "Not Modified"); (305, str "Use Proxy");
  (307, str "Temporary Redirect"); (308, str "Permanent Redirect"); (400, str "Bad Request");
  (401, str "Unauthorized"); (402, str "Payment Required"); (403, str "Forbidden");
  (404, str "Not Found"); (405, str "Method Not Allowed"); (406, str "Not Acceptable");
  (407, str "Proxy Authentication Required"); (408, str "Request Timeout"); (409, str "Conflict");
  (410, str "Gone"); (411, str "Length Required"); (412, str "Precondition Failed");
  (413, str "Request Entity Too Large"); (414, str "Request URI Too Long");
  (415, str "Unsupported Media Type"); (416, str "Requested Range Not Satisfiable");
  (417, str "Expectation Failed"); (418, str "I'm a teapot"); (421, str "Misdirected Request");
  (422, str "Unprocessable Entity"); (423, str "Locked"); (424, str "Failed Dependency");
  (425, str "Too Early"); (426, str "Upgrade Required"); (428, str "Precondition Required");
  (429, str "Too Many Requests"); (431, str "Request Header Fields Too Large");
  (451, str "Unavailable For Legal Reasons"); (500, str "Internal Server Error");
  (501, str "Not Implemented"); (502, str "Bad Gateway"); (503, str "Service Unavailable");
  (504, str "Gateway Timeout"); (505, str "HTTP Version Not Supported");
  (506, str "Variant Also Negotiates"); (507, str "Insufficient Storage"); (508, str "Loop Detected");
  (510, str "Not Extended"); (511, str "Network Authentication Required")]%Z.

Definition StatusText (code : Z) : bytes :=
  match find (λ p, (p.1 =? code)%Z) statusTable with Some (_, t) => t | None => [] end.

(** ** [io.Copy] *)

(** [io.CopyBuffer(w, r, buf)] with [len(buf) = k] and the writer's [Write] as
    a function that says whether all of its argument was taken: the loop ends
    with the reader's error or the first short write. *)
Section copy.
Context {rd W : Type} `{IOReader rd}.
Variable write : bytes → W → bool * W.

Fixpoint copyLoop (fuel k : nat) (w : W) (r : rd) : W * rd :=
  match fuel with
  | O => (w, r)
  | S fuel =>
      let '(c, e, r) := Read k r in
      let '(ok, w) := if decide (c = []) then (true, w) else write c w in
      if ok then match e with Some _ => (w, r) | None => copyLoop fuel k w r end else (w, r)
  end.

Definition CopyBuffer (k : nat) (w : W) (r : rd) : W * rd := copyLoop (drainFuel r) k w r.

End copy.

(** While the sink has room, copying writes what the writer makes of each
    chunk that draining the reader gives. *)
Lemma copyLoop_out {rd} `{IOReader rd} write (f : bytes → bytes) fuel k s (r : rd) :
  f [] = [] → (∀ c s, c ≠ [] → write c (Sink s None) = (true, Sink (s ++ f c) None)) →
  let '(cs, _, r') := readAll fuel k r in
  copyLoop write fuel k (Sink s None) r = (Sink (s ++ concat (map f cs)) None, r').
Proof.
  intros Hnil Hw. revert s r. induction fuel as [|fuel IH]; intros s r; simpl; [by rewrite app_nil_r|].
  destruct (Read k r) as [[c e] r1].
  assert ((if decide (c = []) then (true, Sink s None) else write c (Sink s None)) =
          (true, Sink (s ++ f c) None)) as ->.
  { case_decide; [subst; by rewrite Hnil, app_nil_r|by apply Hw]. }
  destruct e as [e|]; [simpl; by rewrite app_nil_r|]. specialize (IH (s ++ f c) r1).
  destruct (readAll fuel k r1) as [[cs e] r2]. rewrite IH. simpl. by rewrite app_assoc.
Qed.

(** Writing to a sink, as a [Write] method. *)
Definition sinkWrite (c : bytes) (w : sink) : bool * sink :=
  let '(_, ok, w) := Write c w in (ok, w).

(** Writing when the outcome is ignored. *)
Definition put (c : bytes) (w : sink) : sink := (Write c w).2.
Definition puts (cs : list bytes) (w : sink) : sink := fold_left (λ w c, put c w) cs w.

Lemma put_unlimited c s : put c (Sink s None) = Sink (s ++ c) None.
Proof. done. Qed.

Lemma puts_unlimited cs s : puts cs (Sink s None) = Sink (s ++ concat cs) None.
Proof.
  revert s. induction cs as [|c cs IH]; intros s; simpl; [by rewrite app_nil_r|].
  unfold puts in *. simpl. by rewrite put_unlimited, IH, app_assoc.
Qed.

(** ** A reference reader of HTTP/1.1 messages *)

(** The line up to the first CRLF, and what follows it. *)
Definition cutLine (s : bytes) : option (bytes * bytes) :=
  match IndexByte s CR with
  | Some i =>
      match drop (S i) s with
      | c :: r => if decide (c = LF) then Some (take i s, r) else None
      | [] => None
      end
  | None => None
  end.

Lemma cutLine_app l r : CR ∉ l → cutLine (l ++ CRLF ++ r) = Some (l, r).
Proof.
  intros Hn. unfold cutLine, CRLF. simpl. rewrite IndexByte_app by done.
  rewrite drop_app_ge by lia. replace (S (length l) - length l)%nat with 1%nat by lia. simpl.
  by rewrite take_app_length.
Qed.

Lemma cutLine_nil r : cutLine (CRLF ++ r) = Some ([], r).
Proof. done. Qed.

(** Header lines [Name: value] up to the empty line. *)
Fixpoint readHeaders (fuel : nat) (s : bytes) : option (list (bytes * bytes) * bytes) :=
  match fuel with
  | O => None
  | S fuel =>
      '(l, s) ← cutLine s;
      if decide (l = []) then Some ([], s)
      else
        i ← IndexByte l colon;
        '(h, s) ← readHeaders fuel s;
        Some ((take i l, TrimPrefix (drop (S i) l) " ") :: h, s)
  end.

(** The status line, the header fields, and the rest. *)
Definition readHead (s : bytes) : option (bytes * list (bytes * bytes) * bytes) :=
  '(l, r) ← cutLine s;
  '(h, r) ← readHeaders (S (length r)) r;
  Some (l, h, r).

(** Chunked transfer coding: the data and what follows the last chunk. *)
Fixpoint readChunks (fuel : nat) (s : bytes) : option (bytes * bytes) :=
  match fuel with
  | O => None
  | S fuel =>
      '(l, s) ← cutLine s;
      n ← parseN 16 l;
      if decide (n = 0%N) then
        '(l, s) ← cutLine s;
        if decide (l = []) then Some ([], s) else None
      else
        let n := N.to_nat n in
        if decide (n ≤ length s)%nat then
          '(l, r) ← cutLine (drop n s);
          if decide (l = []) then
            '(d, r) ← readChunks fuel r;
            Some (take n s ++ d, r)
          else None
        else None
  end.

Definition decodeChunked (s : bytes) : option (bytes * bytes) := readChunks (S (length s)) s.

(** One chunk in the coding. *)
Definition chunk (c : bytes) : bytes :=
  if decide (c = []) then [] else fmtN 16 (N.of_nat (length c)) ++ CRLF ++ c ++ CRLF.
Definition lastChunk : bytes := "0" ++ CRLF ++ CRLF.

Lemma CR_not_digit : digit_val CR = None.
Proof. done. Qed.

Lemma readChunks_chunk fuel c r :
  c ≠ [] →
  readChunks (S fuel) (chunk c ++ r) = '(d, r) ← readChunks fuel r; Some (c ++ d, r).
Proof.
  intros Hc. unfold chunk. rewrite decide_False by done. rewrite <-!app_assoc. cbn [readChunks].
  rewrite cutLine_app by (apply fmtN_no; [lia|done]). cbn [mbind option_bind].
  rewrite parseN_fmtN by lia. cbn [mbind option_bind].
  rewrite decide_False by (destruct c; simpl; [done|lia]). cbv zeta. rewrite Nat2N.id.
  rewrite decide_True by (rewrite length_app; lia).
  rewrite drop_app_length, take_app_length.
  by rewrite cutLine_nil.
Qed.

Lemma readChunks_last fuel r : readChunks (S fuel) (lastChunk ++ r) = Some ([], r).
Proof.
  unfold lastChunk. rewrite <-!app_assoc. cbn [readChunks].
  rewrite cutLine_app by (rewrite list_elem_of_In; simpl; intros [?|[]]; done).
  cbn [mbind option_bind]. rewrite (parseN_fmtN 16 0 ltac:(lia) : parseN 16 "0" = Some 0%N).
  cbn [mbind option_bind]. rewrite decide_True by done.
  by rewrite cutLine_nil.
Qed.

(** Chunks decode to their data, whatever follows. *)
Lemma decodeChunked_chunks cs r :
  decodeChunked (concat (map chunk cs) ++ lastChunk ++ r) = Some (concat cs, r).
Proof.
  unfold decodeChunked.
  assert (∀ fuel, (length (concat (map chunk cs)) < fuel)%nat →
    readChunks fuel (concat (map chunk cs) ++ lastChunk ++ r) = Some (concat cs, r)) as Hgen.
  { induction cs as [|c cs IH]; intros fuel Hf; simpl in *.
    - destruct fuel; [lia|]. apply readChunks_last.
    - destruct (decide (c = [])) as [->|Hc]; [by apply IH|].
      destruct fuel as [|fuel]; [lia|]. rewrite <-app_assoc, readChunks_chunk by done.
      rewrite IH; [done|]. rewrite length_app in Hf.
      assert (0 < length (chunk c))%nat; [|lia].
      unfold chunk. rewrite decide_False by done. rewrite !length_app. unfold CRLF. simpl. lia. }
  apply Hgen. rewrite !length_app. lia.
Qed.

(** *** Heads *)

Definition headerLine (kv : bytes * bytes) : bytes := kv.1 ++ ": " ++ kv.2 ++ CRLF.

(** Names and values that can be written in a header line. *)
Definition headerOk (kv : bytes * bytes) : Prop := colon ∉ kv.1 ∧ CR ∉ kv.1 ∧ CR ∉ kv.2.

Lemma readHeaders_lines hs fuel r :
  Forall headerOk hs → (length hs < fuel)%nat →
  readHeaders fuel (concat (map headerLine hs) ++ CRLF ++ r) = Some (hs, r).
Proof.
  intros Hhs. revert fuel. induction Hhs as [|[k v] hs (Hc & Hk & Hv) Hhs IH]; intros fuel Hf;
    simpl in Hf; (destruct fuel as [|fuel]; [lia|]).
  - cbn [readHeaders map concat app]. by rewrite cutLine_nil.
  - simpl in Hc, Hk, Hv. cbn [readHeaders map concat]. unfold headerLine at 1. cbn [fst snd].
    replace ((k ++ ": " ++ v ++ CRLF) ++ concat (map headerLine hs)) with
      ((k ++ ": " ++ v) ++ CRLF ++ concat (map headerLine hs)) by (by rewrite <-!app_assoc).
    rewrite <-(app_assoc (k ++ ": " ++ v)), <-(app_assoc CRLF), cutLine_app.
    2: { rewrite !elem_of_app. intros [?|[H|?]]; try done. rewrite list_elem_of_In in H. simpl in H.
         destruct H as [H|[H|[]]]; done. }
    cbn [mbind option_bind]. rewrite decide_False by (by destruct k).
    change (k ++ ": " ++ v) with (k ++ colon :: " "%char :: v).
    rewrite (IndexByte_app k (" "%char :: v) colon) by done. cbn [mbind option_bind].
    rewrite IH by lia. cbn [mbind option_bind].
    rewrite take_app_length, drop_app_ge by lia. replace (S (length k) - length k)%nat with 1%nat by lia.
    done.
Qed.

(** A head reads back as its status line and fields. *)
Lemma readHead_lines line hs r :
  CR ∉ line → Forall headerOk hs →
  readHead (line ++ CRLF ++ concat (map headerLine hs) ++ CRLF ++ r) = Some (line, hs, r).
Proof.
  intros Hl Hhs. unfold readHead. rewrite cutLine_app by done. cbn [mbind option_bind].
  rewrite readHeaders_lines; [done|done|]. rewrite !length_app. unfold CRLF. simpl.
  assert (length hs ≤ length (concat (map headerLine hs)))%nat; [|lia].
  clear. induction hs as [|h hs IH]; simpl; [lia|]. rewrite length_app.
  assert (0 < length (headerLine h))%nat; [|lia]. unfold headerLine. rewrite !length_app. simpl. lia.
Qed.

(** The first field with a name, names compared without case. *)
Definition field (hs : list (bytes * bytes)) (k : bytes) : option bytes :=
  snd <$> find (λ kv, EqualFold kv.1 k) hs.

(** The status code in a status line. *)
Definition lineCode (line : bytes) : option N :=
  i ← IndexByte line " "%char;
  let r := drop (S i) line in
  j ← IndexByte r " "%char;
  parseN 10 (take j r).

(** The responses that end with their head, whatever it says: those to HEAD, the
    informational ones, 204, 304, and the successful ones to CONNECT. *)
Definition bodyless (method : bytes) (code : Z) : bool :=
  bool_decide (method = str "HEAD") || ((100 <=? code) && (code <=? 199))%Z || (code =? 204)%Z || (code =? 304)%Z ||
  bool_decide (method = str "CONNECT") && ((200 <=? code) && (code <=? 299))%Z.

(** The response to a request read from a connection by a client (RFC 9112,
    section 6.3): without a body if the method or the status says so, else chunked
    if so encoded, else of the given length, else up to the end of the
    connection. *)
Definition readResponse (method s : bytes) : option (bytes * list (bytes * bytes) * bytes * bytes) :=
  '(line, hs, r) ← readHead s;
  code ← lineCode line;
  if bodyless method (Z.of_N code) then Some (line, hs, [], r)
  else match field hs "Transfer-Encoding", field hs "Content-Length" with
  | Some te, _ =>
      if decide (te = str "chunked") then '(d, r) ← decodeChunked r; Some (line, hs, d, r) else None
  | None, Some cl =>
      n ← parseN 10 cl;
      if decide (n ≤ N.of_nat (length r))%N then Some (line, hs, take (N.to_nat n) r, drop (N.to_nat n) r)
      else None
  | None, None => Some (line, hs, r, [])
  end.

Example bodyless_ex :
  bodyless "GET" 200 = false ∧ bodyless "HEAD" 200 = true ∧ bodyless "GET" 304 = true ∧
  lineCode "HTTP/1.1 404 404 Not Found" = Some 404%N.
Proof. done. Qed.

(** ** Replies of the handlers *)

(** Status code, the headers that were set, and the body. *)
Record Reply := MkReply { rep_code : Z; rep_header : list (bytes * bytes); rep_body : bytes }.

(** [http.Error] and [http.NotFound]. *)
Definition httpError (text : bytes) (code : Z) : Reply :=
  MkReply code [(str "Content-Type", str "text/plain; charset=utf-8");
                (str "X-Content-Type-Options", str "nosniff")] (text ++ [LF]).
Definition notFound : Reply := httpError "404 page not found" 404.

(** ** Query strings *)

Definition hexDigits (c d : byte) : option byte :=
  a ← digit_val c; b ← digit_val d; Some (byte_of (16 * a + b)).

(** [url.QueryUnescape]. *)
Fixpoint queryUnescape (s : bytes) : option bytes :=
  match s with
  | [] => Some []
  | c :: s =>
      if decide (c = "+"%char) then r ← queryUnescape s; Some (" "%char :: r)
      else if decide (c = "%"%char) then
        match s with
        | a :: b :: s => x ← hexDigits a b; r ← queryUnescape s; Some (x :: r)
        | _ => None
        end
      else r ← queryUnescape s; Some (c :: r)
  end.

(** [url.PathUnescape]. *)
Fixpoint PathUnescape (s : bytes) : option bytes :=
  match s with
  | [] => Some []
  | c :: s =>
      if decide (c = "%"%char) then
        match s with
        | a :: b :: s => x ← hexDigits a b; r ← PathUnescape s; Some (x :: r)
        | _ => None
        end
      else r ← PathUnescape s; Some (c :: r)
  end.

(** One [key=value] of a query; malformed ones are skipped. *)
Definition queryPair (s : bytes) : option (bytes * bytes) :=
  if Contains s ";" then None
  else
    let '(k, v) := match IndexByte s "="%char with
                   | Some i => (take i s, drop (S i) s)
                   | None => (s, [])
                   end in
    k ← queryUnescape k; v ← queryUnescape v; Some (k, v).

(** [r.URL.Query().Get(k)]. *)
Definition queryGet (q k : bytes) : bytes :=
  let pairs := omap (λ s, if decide (s = []) then None else queryPair s) (Split q "&"%char) in
  match find (λ kv, bool_decide (kv.1 = k)) pairs with Some (_, v) => v | None => [] end.

Example queryGet_ex :
  queryGet "a=1&id=x%20y+z&id=2" "id" = str "x y z" ∧ queryGet "id=a;b" "id" = [].
Proof. done. Qed.

(** Back quotes stand for the double quotes of the source. *)
Definition quotes (s : bytes) : bytes := map (λ c, if decide (c = "`"%char) then dquote else c) s.
