(* ===== verification/Logger.v ===== *)
(** * Access logging ([internal/logger])

    The record of a request, its RFC 5424 message with escaped structured data,
    a reference parser of that data, and the bounded queue of the asynchronous
    sender with its drain goroutine. *)
From S2P Require Import Prelude GoStrings GoIO Services Http.

(** ** Records ([record.go]) *)

(** [Time] in nanoseconds since the Unix epoch. *)
Record AccessRecord := MkRecord {
  a_Time : Z;
  a_RequestID : bytes;
  a_ClientIP : bytes;
  a_XForwardedFor : bytes;
  a_Method : bytes;
  a_Scheme : bytes;
  a_Host : bytes;
  a_Path : bytes;
  a_StatusCode : Z;
  a_BytesSent : Z;
  a_DurationMS : Z;
  a_UserAgent : bytes;
  a_ContentType : bytes;
  a_TLSVersion : bytes;
  a_TLSCipher : bytes;
  a_EventType : bytes;
  a_BlockReason : bytes;
}.

(** ** Time stamps *)

(** Year, month and day of a day number since 1970-01-01 (proleptic Gregorian
    calendar, from the day of the 400-year era that starts on 1 March). *)
Definition civil (days : Z) : Z * Z * Z :=
  let z := (days + 719468)%Z in
  let era := (z / 146097)%Z in
  let doe := (z mod 146097)%Z in
  let yoe := ((doe - doe / 1460 + doe / 36524 - doe / 146096) / 365)%Z in
  let doy := (doe - (365 * yoe + yoe / 4 - yoe / 100))%Z in
  let mp := ((5 * doy + 2) / 153)%Z in
  let d := (doy - (153 * mp + 2) / 5 + 1)%Z in
  let m := (if mp <? 10 then mp + 3 else mp - 9)%Z in
  let y := (yoe + era * 400 + (if m <=? 2 then 1 else 0))%Z in
  (y, m, d).

(** A number padded with zeros to [w] digits. *)
Definition pad (w : nat) (z : Z) : bytes :=
  let s := fmtZ z in replicate (w - length s) "0"%char ++ s.

(** Trailing zeros dropped. *)
Fixpoint dropZeros (s : bytes) : bytes :=
  match s with
  | [] => []
  | c :: s => match dropZeros s with
              | [] => if decide (c = "0"%char) then [] else [c]
              | s' => c :: s'
              end
  end.

(** [t.UTC().Format(time.RFC3339Nano)], for years of four digits. *)
Definition rfc3339nano (t : Z) : bytes :=
  let secs := (t / 1000000000)%Z in
  let nano := (t mod 1000000000)%Z in
  let '(y, m, d) := civil (secs / 86400) in
  let s := (secs mod 86400)%Z in
  let frac := dropZeros (pad 9 nano) in
  pad 4 y ++ "-" ++ pad 2 m ++ "-" ++ pad 2 d ++ "T" ++
  pad 2 (s / 3600) ++ ":" ++ pad 2 (s mod 3600 / 60) ++ ":" ++ pad 2 (s mod 60) ++
  (if decide (frac = []) then [] else "." ++ frac) ++ "Z".

Example rfc3339nano_ex :
  rfc3339nano 1709210096120000000 = str "2024-02-29T12:34:56.12Z" ∧
  rfc3339nano 0 = str "1970-01-01T00:00:00Z" ∧
  rfc3339nano 951782400000000001 = str "2000-02-29T00:00:00.000000001Z".
Proof. vm_compute. done. Qed.

(** ** Messages ([syslog5424.go]) *)

Definition pri : Z := 14.
Definition version : Z := 1.
Definition sdID : bytes := "httpAccess@32473".

Definition backslash : byte := "\"%char.
Definition rbracket : byte := "]"%char.

Definition escapeSyslog (s : bytes) : bytes :=
  let s := ReplaceAll s backslash [backslash; backslash] in
  let s := ReplaceAll s dquote [backslash; dquote] in
  ReplaceAll s rbracket [backslash; rbracket].

Definition nilify (s : bytes) : bytes := if decide (s = []) then "-" else s.

Definition sdFields (r : AccessRecord) : list (bytes * bytes) := [
  (str "eventType", if decide (a_EventType r = []) then str "access" else a_EventType r);
  (str "blockReason", a_BlockReason r);
  (str "requestId", a_RequestID r);
  (str "clientIP", a_ClientIP r);
  (str "xForwardedFor", a_XForwardedFor r);
  (str "method", a_Method r);
  (str "scheme", a_Scheme r);
  (str "host", a_Host r);
  (str "path", a_Path r);
  (str "status", fmtZ (a_StatusCode r));
  (str "bytes", fmtZ (a_BytesSent r));
  (str "durationMS", fmtZ (a_DurationMS r));
  (str "userAgent", a_UserAgent r);
  (str "contentType", a_ContentType r);
  (str "tlsVersion", a_TLSVersion r);
  (str "tlsCipher", a_TLSCipher r)].

Definition sdParam (kv : bytes * bytes) : bytes :=
  " " ++ kv.1 ++ "=" ++ [dquote] ++ escapeSyslog (nilify kv.2) ++ [dquote].

Definition buildSD (r : AccessRecord) : bytes :=
  "[" ++ sdID ++ concat (map sdParam (sdFields r)) ++ "]".

Definition Format5424 (r : AccessRecord) (hostname appName procID : bytes) : bytes :=
  let ts := rfc3339nano (a_Time r) in
  let sd := buildSD r in
  let msg := "- " ++ a_Method r ++ " " ++ a_Scheme r ++ "://" ++ a_Host r ++ a_Path r ++ " " ++
             fmtZ (a_StatusCode r) in
  "<" ++ fmtZ pri ++ ">" ++ fmtZ version ++ " " ++ ts ++ " " ++ nilify hostname ++ " " ++
  nilify appName ++ " " ++ nilify procID ++ " - " ++ sd ++ " " ++ msg.

(** [tls.VersionTLS10 ... tls.VersionTLS13]. *)
Definition TLSVersionString (v : Z) : bytes :=
  if (v =? 769)%Z then "TLS1.0"
  else if (v =? 770)%Z then "TLS1.1"
  else if (v =? 771)%Z then "TLS1.2"
  else if (v =? 772)%Z then "TLS1.3"
  else let s := fmtN 16 (Z.to_N v) in "TLS0x" ++ replicate (4 - length s) "0"%char ++ s.

(** ** A reference parser of structured data *)

(** The parameter value up to its closing quote: a backslash escapes a quote, a
    backslash or a bracket, and a bare bracket is not allowed (RFC 5424,
    section 6.3.3). *)
Fixpoint readValue (s : bytes) : option (bytes * bytes) :=
  match s with
  | [] => None
  | c :: s' =>
      if decide (c = dquote) then Some ([], s')
      else if decide (c = rbracket) then None
      else if decide (c = backslash) then
        match s' with
        | d :: s'' =>
            if decide (d = dquote ∨ d = backslash ∨ d = rbracket) then
              '(v, r) ← readValue s''; Some (d :: v, r)
            else '(v, r) ← readValue s'; Some (c :: v, r)
        | [] => None
        end
      else '(v, r) ← readValue s'; Some (c :: v, r)
  end.

(** The parameters [ name=value] up to the closing bracket. *)
Fixpoint readParams (fuel : nat) (s : bytes) : option (list (bytes * bytes) * bytes) :=
  match fuel, s with
  | S fuel, c :: s =>
      if decide (c = rbracket) then Some ([], s)
      else if decide (c = " "%char) then
        i ← IndexByte s "="%char;
        match drop (S i) s with
        | q :: s' =>
            if decide (q = dquote) then
              '(v, s') ← readValue s';
              '(ps, s') ← readParams fuel s';
              Some ((take i s, v) :: ps, s')
            else None
        | [] => None
        end
      else None
  | _, _ => None
  end.

(** The element: its id, its parameters, and what follows it. *)
Definition readSD (s : bytes) : option (bytes * list (bytes * bytes) * bytes) :=
  match s with
  | c :: s =>
      if decide (c = "["%char) then
        i ← IndexByte s " "%char;
        '(ps, r) ← readParams (S (length s)) (drop i s);
        Some (take i s, ps, r)
      else None
  | [] => None
  end.

(** ** Escaping *)

Definition escByte (c : byte) : bytes :=
  if decide (c = dquote ∨ c = backslash ∨ c = rbracket) then [backslash; c] else [c].

(** The three replacements are one pass. *)
Lemma escapeSyslog_bytes s : escapeSyslog s = concat (map escByte s).
Proof.
  induction s as [|c s IH]; [done|]. cbn [map concat]. rewrite <-IH. clear IH.
  unfold escapeSyslog. change (c :: s) with ([c] ++ s). rewrite !ReplaceAll_app. f_equal.
  unfold escByte. case_decide as H; [by destruct H as [->|[->| ->]]|].
  unfold ReplaceAll. simpl. rewrite (decide_False (P := c = backslash)) by tauto. simpl.
  rewrite (decide_False (P := c = dquote)) by tauto. simpl.
  by rewrite (decide_False (P := c = rbracket)) by tauto.
Qed.

Lemma readValue_escape s r : readValue (escapeSyslog s ++ dquote :: r) = Some (s, r).
Proof.
  rewrite escapeSyslog_bytes. induction s as [|c s IH]; [done|]. cbn [map concat].
  rewrite <-app_assoc. unfold escByte at 1. case_decide as H.
  - cbn [app readValue]. rewrite !(decide_False (P := backslash = _)) by done.
    rewrite decide_True by done. rewrite decide_True by tauto. by rewrite IH.
  - cbn [app readValue]. rewrite !decide_False by tauto. by rewrite IH.
Qed.

Lemma IndexByte_key k r : "="%char ∉ k → IndexByte (k ++ "=" ++ r) "="%char = Some (length k).
Proof. intros Hk. simpl. by apply IndexByte_app. Qed.

Lemma readParams_params ps fuel r :
  Forall (λ kv, "="%char ∉ kv.1) ps → (length ps < fuel)%nat →
  readParams fuel (concat (map (λ kv, sdParam kv) ps) ++ "]" ++ r) =
  Some ((λ kv, (kv.1, nilify kv.2)) <$> ps, r).
Proof.
  intros Hps. revert fuel. induction Hps as [|[k v] ps Hk Hps IH]; intros fuel Hf; simpl in Hf;
    (destruct fuel as [|fuel]; [lia|]); [done|].
  cbn [map concat]. unfold sdParam at 1. cbn [fst snd]. rewrite <-!app_assoc.
  remember (concat (map (λ kv, sdParam kv) ps) ++ "]" ++ r) as rest eqn:Hrest.
  cbn [readParams app String.list_ascii_of_string]. rewrite decide_False, decide_True by done.
  rewrite (IndexByte_app k) by done. cbn [mbind option_bind].
  rewrite drop_app_ge by lia. replace (S (length k) - length k)%nat with 1%nat by lia.
  cbn [drop]. rewrite decide_True by done. rewrite readValue_escape. cbn [mbind option_bind].
  rewrite IH by lia. cbn [mbind option_bind]. by rewrite take_app_length.
Qed.

(** C22. The structured data cannot be forged: whatever the client put into its request,
    the structured data of the message parses back to exactly the record's
    fields, in order, and ends where it should. *)
Theorem buildSD_roundtrip r rest :
  readSD (buildSD r ++ rest) =
  Some (sdID, (λ kv, (kv.1, nilify kv.2)) <$> sdFields r, rest).
Proof.
  unfold buildSD. rewrite <-!app_assoc.
  pose proof (readParams_params (sdFields r)) as Hps.
  change (λ kv, sdParam kv) with sdParam in Hps.
  remember (concat (map sdParam (sdFields r)) ++ "]" ++ rest) as tail eqn:Htail.
  assert (∃ t, tail = " "%char :: t) as [t Ht] by (rewrite Htail; by eexists).
  assert (IndexByte (sdID ++ tail) " "%char = Some (length sdID)) as Hi.
  { rewrite Ht. apply IndexByte_app. decide_closed. }
  change (readSD ("[" ++ sdID ++ tail)) with
    (i ← IndexByte (sdID ++ tail) " "%char;
     '(ps, r) ← readParams (S (length (sdID ++ tail))) (drop i (sdID ++ tail));
     Some (take i (sdID ++ tail), ps, r)).
  rewrite Hi. cbn [mbind option_bind]. rewrite drop_app_length, take_app_length, Htail, Hps; [done| |].
  - repeat (apply Forall_cons; split; [decide_closed|]). constructor.
  - rewrite length_app. unfold sdID. simpl. lia.
Qed.

(** ** The sender ([sender.go]) *)

(** The state of a [Sender] and its drain goroutine: the queue and its
    capacity, whether [Close] was called and seen, whether the goroutine has
    returned, and the connection; with the records accepted, dropped and taken
    from the queue, and the messages on the wire, as history. *)
Record Sender := MkSender {
  queue : list AccessRecord;
  capacity : nat;
  stop : bool;
  flushing : bool;
  exited : bool;
  conn : bool;
  accepted : list AccessRecord;
  dropped : list AccessRecord;
  handled : list AccessRecord;
  wire : list bytes;
}.

Definition NewSender (bufSize : nat) (dial : bool) : Sender :=
  MkSender [] bufSize false false false dial [] [] [] [].

#[local] Opaque Format5424.

Section sender.
Variables hostname appName procID : bytes.

(** [Send]: never blocks. *)
Definition Send (r : AccessRecord) (s : Sender) : Sender :=
  let '(MkSender q cap st fl ex c acc dr h w) := s in
  if decide (length q < cap)%nat then MkSender (q ++ [r]) cap st fl ex c (acc ++ [r]) dr h w
  else MkSender q cap st fl ex c acc (dr ++ [r]) h w.

(** [write]: one attempt to dial when there is no connection, one to write. *)
Definition write (dial ok : bool) (r : AccessRecord) (s : Sender) : Sender :=
  let '(MkSender q cap st fl ex c acc dr h w) := s in
  let msg := Format5424 r hostname appName procID ++ [LF] in
  let c := c || dial in
  MkSender q cap st fl ex (c && ok) acc dr (h ++ [r]) (if c && ok then w ++ [msg] else w).

(** What happens next: a send, the start of [Close], a receive in the drain
    loop with the outcome of dialling and writing, the receive from [stop], or
    the return of the goroutine. *)
Inductive senderAction := ASend (r : AccessRecord) | AClose | ARecv (dial ok : bool) | AStop | AExit.

Definition senderStep (a : senderAction) (s : Sender) : option Sender :=
  let '(MkSender q cap st fl ex c acc dr h w) := s in
  match a with
  | ASend r => Some (Send r s)
  | AClose => Some (MkSender q cap true fl ex c acc dr h w)
  | ARecv dial ok =>
      match q with
      | r :: q' => if ex then None else Some (write dial ok r (MkSender q' cap st fl ex c acc dr h w))
      | [] => None
      end
  | AStop => if st && negb fl && negb ex then Some (MkSender q cap st true ex c acc dr h w) else None
  | AExit =>
      match q with
      | [] => if fl && negb ex then Some (MkSender q cap st fl true false acc dr h w) else None
      | _ => None
      end
  end.

Fixpoint senderRun (l : list senderAction) (s : Sender) : option Sender :=
  match l with
  | [] => Some s
  | a :: l => s ← senderStep a s; senderRun l s
  end.

Definition sent (l : list senderAction) : list AccessRecord :=
  omap (λ a, match a with ASend r => Some r | _ => None end) l.

(** The messages of some of the records, in their order. *)
Definition messages (rs : list AccessRecord) : list bytes :=
  map (λ r, Format5424 r hostname appName procID ++ [LF]) rs.

(** Which of the records taken from the queue reach the wire, given the outcomes of
    dialling and writing and whether there is a connection at first: those that
    find a connection, the one of the last write that succeeded or one that is
    dialled, and whose write succeeds. *)
Fixpoint onWire (connected : bool) (l : list senderAction) (rs : list AccessRecord) : list AccessRecord :=
  match l, rs with
  | ARecv dial ok :: l, r :: rs =>
      if (connected || dial) && ok then r :: onWire true l rs else onWire false l rs
  | _ :: l, rs => onWire connected l rs
  | [], _ => []
  end.

Definition senderOk (s : Sender) : Prop :=
  accepted s = handled s ++ queue s ∧ (length (queue s) ≤ capacity s)%nat ∧
  (flushing s = true → stop s = true).

Lemma senderStep_ok a s s' : senderStep a s = Some s' → senderOk s → senderOk s'.
Proof.
  destruct s as [q cap st fl ex c acc dr h w]. unfold senderOk. simpl. intros Hs (-> & Hq & Hf).
  destruct a as [r| |dial ok| |]; simplify_eq/=.
  - case_decide; simpl; rewrite ?length_app; simpl; split_and!; try done; try lia. by rewrite app_assoc.
  - done.
  - destruct q as [|r q], ex; simplify_eq/=. rewrite <-app_assoc. split_and!; try done; lia.
  - destruct st, fl, ex; simplify_eq/=. done.
  - destruct q, fl, ex; simplify_eq/=. done.
Qed.

Lemma senderRun_ok l s s' : senderRun l s = Some s' → senderOk s → senderOk s'.
Proof.
  revert s. induction l as [|a l IH]; intros s; simpl; [by intros [= ->]|].
  destruct (senderStep a s) as [s1|] eqn:H1; simpl; [|done]. intros Hs Hok.
  eapply IH; [done|]. by eapply senderStep_ok.
Qed.

Lemma senderRun_sent l s s' :
  senderRun l s = Some s' → 
  ∃ acc dr, accepted s' = accepted s ++ acc ∧ dropped s' = dropped s ++ dr ∧
            sent l ≡ₚ acc ++ dr ∧ acc `sublist_of` sent l ∧ capacity s' = capacity s.
Proof.
  revert s. induction l as [|a l IH]; intros s; simpl.
  { intros [= ->]. exists [], []. by rewrite !app_nil_r. }
  destruct (senderStep a s) as [s1|] eqn:H1; simpl; [|done]. intros Hs.
  destruct (IH s1 Hs) as (acc & dr & Ha & Hd & Hp & Hsub & Hcap).
  rewrite Ha, Hd, Hcap. clear Ha Hd Hcap Hs IH.
  destruct s as [q cap st fl ex c acc0 dr0 h w], a as [r| |dial ok| |]; simplify_eq/=.
  - case_decide; simpl.
    + exists (r :: acc), dr. rewrite <-app_assoc. split_and!; try done; [by rewrite Hp|by constructor].
    + exists acc, (r :: dr). rewrite <-app_assoc. split_and!; try done; [|by constructor].
      by rewrite Hp, Permutation_middle.
  - by exists acc, dr.
  - destruct q, ex; simplify_eq/=. by exists acc, dr.
  - destruct st, fl, ex; simplify_eq/=. by exists acc, dr.
  - destruct q, fl, ex; simplify_eq/=. by exists acc, dr.
Qed.

Lemma senderRun_wire l s s' c :
  senderRun l s = Some s' → (exited s = false → c = conn s) →
  ∃ hs, handled s' = handled s ++ hs ∧ wire s' = wire s ++ messages (onWire c l hs).
Proof.
  revert s c. induction l as [|a l IH]; intros s c; simpl.
  { intros [= ->] _. exists []. by rewrite !app_nil_r. }
  destruct (senderStep a s) as [s1|] eqn:H1; simpl; [|done]. intros Hs Hc.
  destruct s as [q cap st fl ex c0 acc dr h w], a as [r| |dial ok| |]; simplify_eq/=.
  - destruct (IH _ c Hs) as (hs & Hh & Hw); [by case_decide|]. exists hs. revert Hh Hw. by case_decide.
  - apply (IH _ c Hs Hc).
  - destruct q as [|r q], ex; simplify_eq/=. rewrite (Hc eq_refl).
    destruct (IH _ ((c0 || dial) && ok) Hs) as (hs & Hh & Hw); [done|]. cbn [handled wire] in Hh, Hw.
    exists (r :: hs). rewrite Hh, Hw, <-app_assoc. split; [done|].
    destruct ((c0 || dial) && ok); [by rewrite <-app_assoc|done].
  - destruct st, fl, ex; simplify_eq/=. destruct (IH _ c Hs Hc) as (hs & Hh & Hw). exists hs. by destruct hs.
  - destruct q, fl, ex; simplify_eq/=. destruct (IH _ c Hs) as (hs & Hh & Hw); [done|]. exists hs. by destruct hs.
Qed.

(** Receiving everything that is queued. *)
Lemma senderRun_flush dial ok s :
  exited s = false →
  ∃ s', senderRun (replicate (length (queue s)) (ARecv dial ok)) s = Some s' ∧ queue s' = [] ∧
        flushing s' = flushing s ∧ exited s' = false ∧ accepted s' = accepted s.
Proof.
  destruct s as [q cap st fl ex c acc dr h w]. simpl. intros ->.
  revert c h w. induction q as [|r q IH]; intros c h w; simpl; [by eexists|]. apply IH.
Qed.

(** C23. The sender neither blocks nor reorders: of the records sent, those
    accepted keep their order, each is taken from the queue exactly once, and one
    is dropped only when the queue is full, which never exceeds its capacity.
    What is on the wire is the messages, in order, of exactly the records taken
    that found a connection, kept or dialled anew, and whose write succeeded.
    After [Close] the drain goroutine can always finish, and when it returns no
    accepted record is left in the queue. *)
Theorem Sender_fifo l bufSize dial s :
  senderRun l (NewSender bufSize dial) = Some s →
  (sent l ≡ₚ accepted s ++ dropped s ∧ accepted s `sublist_of` sent l) ∧
  (accepted s = handled s ++ queue s ∧ (length (queue s) ≤ bufSize)%nat ∧
   (∀ r, accepted (Send r s) = accepted s ++ (if decide (length (queue s) < bufSize)%nat then [r] else [])) ∧
   wire s = messages (onWire dial l (handled s))) ∧
  (exited s = false → stop s = true → ∃ l' s', senderRun l' s = Some s' ∧ sent l' = [] ∧ exited s' = true) ∧
  (∀ s', senderStep AExit s = Some s' → handled s' = accepted s').
Proof.
  intros Hrun. assert (senderOk s) as (Hacc & Hq & Hf).
  { eapply senderRun_ok; [done|]. unfold senderOk. simpl. split_and!; try done; lia. }
  destruct (senderRun_sent _ _ _ Hrun) as (acc & dr & Ha & Hd & Hp & Hsub & Hcap). simpl in Ha, Hd, Hcap.
  destruct (senderRun_wire _ _ _ dial Hrun (λ _, eq_refl)) as (hs & Hh & Hw). cbn in Hh, Hw. subst hs.
  subst acc dr. split_and!; try done; [congruence| | |].
  - intros r. rewrite <-Hcap. destruct s as [q cap st fl ex c acc dr h w]. cbn.
    case_decide; [done|by rewrite app_nil_r].
  - intros Hex Hst.
    assert (∃ l1 s1, senderRun l1 s = Some s1 ∧ sent l1 = [] ∧ flushing s1 = true ∧ exited s1 = false)
      as (l1 & s1 & H1 & Hs1 & Hf1 & He1).
    { destruct (flushing s) eqn:Hfl; [by exists [], s|]. exists [AStop].
      destruct s as [q cap st fl ex c acc dr h w]. simpl in *. subst. by eexists. }
    destruct (senderRun_flush true true s1 He1) as (s2 & H2 & Hq2 & Hf2 & He2 & _).
    destruct s2 as [q cap st fl ex c acc dr h w] eqn:Hs2. simpl in *. subst q fl ex.
    exists (l1 ++ replicate (length (queue s1)) (ARecv true true) ++ [AExit]).
    eexists (MkSender [] cap st (flushing s1) true false acc dr h w). split_and!; [|  |done].
    + assert (∀ l1 l2 s0, senderRun (l1 ++ l2) s0 = senderRun l1 s0 ≫= senderRun l2) as Happ.
      { clear. induction l1 as [|a l1 IH]; intros l2 s0; simpl; [done|].
        destruct (senderStep a s0); simpl; auto. }
      rewrite Happ, H1. simpl. rewrite Happ, H2. simpl. by rewrite Hf1.
    + unfold sent in *. rewrite omap_app, Hs1. simpl. rewrite omap_app. simpl. rewrite app_nil_r.
      clear. by induction (length (queue s1)).
  - destruct s as [q cap st fl ex c acc dr h w]. simpl in *. intros s'.
    destruct q, fl, ex; intros [= <-]. simpl. by rewrite Hacc, app_nil_r.
Qed.
End sender.

(** *** Witness *)

#[local] Transparent Format5424.

Definition exampleRecord : AccessRecord :=
  MkRecord 0 "id" "1.2.3.4" [] "GET" "http" "example.com" "/" 200 5 1 "curl/8" "text/html" [] [] [] [].

Lemma Sender_fifo_witness :
  let l := [ASend exampleRecord; ASend exampleRecord; ARecv true true; ASend exampleRecord; AClose] in
  ∃ s, senderRun "h" "a" "1" l (NewSender 1 false) = Some s ∧
       length (accepted s) = 2%nat ∧ length (dropped s) = 1%nat ∧ wire s = messages "h" "a" "1" [exampleRecord].
Proof.
  destruct (senderRun "h" "a" "1"
    [ASend exampleRecord; ASend exampleRecord; ARecv true true; ASend exampleRecord; AClose] (NewSender 1 false))
    as [s|] eqn:Hrun; [|vm_compute in Hrun; discriminate Hrun].
  exists s. split; [done|]. pose proof (Sender_fifo "h" "a" "1" _ 1 false s Hrun) as (_ & (_ & _ & _ & Hw) & _).
  vm_compute in Hrun. injection Hrun as <-. split; [reflexivity|]. split; [reflexivity|]. exact Hw.
Defined.
