(* ===== verification/Tunnel.v ===== *)
(** * Requests inside a TLS tunnel ([internal/proxy/tunnel.go])

    The writers of response heads and bodies, and the loop that serves the
    requests of a decrypted connection, against the reference reader of [Http]
    and an abstract upstream transport. *)
From S2P Require Import Prelude GoStrings GoIO Blocklist Services Http Logger.

Definition transportBufSize : nat := Z.to_nat 262144.

(** ** Heads *)

Definition hopHeaders : list bytes := [
  str "Connection"; str "Keep-Alive"; str "Proxy-Authenticate"; str "Proxy-Authorization";
  str "Proxy-Connection"; str "Te"; str "Trailers"; str "Transfer-Encoding"; str "Upgrade"].

Section heads.
Context {B : Type}.
Implicit Types resp : Response B.

(** The fields of the upstream response that are forwarded, a line per value. *)
Definition forwarded (h : Header) : list (bytes * bytes) :=
  concat (map (λ kvs, if decide (kvs.1 ∈ hopHeaders) then []
                      else if EqualFold kvs.1 "Content-Length" then []
                      else map (λ v, (kvs.1, v)) kvs.2) h).

(** The explicit body framing. *)
Definition framing resp : list (bytes * bytes) :=
  if (StatusCode resp =? 101)%Z then []
  else if (0 <=? ContentLength resp)%Z then [(str "Content-Length", fmtZ (ContentLength resp))]
  else if CloseAfter resp then [(str "Connection", str "close")]
  else [(str "Transfer-Encoding", str "chunked")].

Definition statusLine resp : bytes :=
  let text := if decide (Status resp = []) then StatusText (StatusCode resp) else Status resp in
  "HTTP/1.1 " ++ fmtZ (StatusCode resp) ++ " " ++ text.

(** The writes of [loopWriteHead], one for each [Fprintf]. *)
Definition loopWriteHead resp : list bytes :=
  [statusLine resp ++ CRLF] ++ map headerLine (forwarded (HeaderOf resp)) ++
  map headerLine (framing resp) ++ [CRLF].

(** [Header.Write]: sorted keys, line breaks in values replaced. *)
Definition newlineToSpace (v : bytes) : bytes :=
  map (λ c, if decide (c = CR ∨ c = LF) then " "%char else c) v.

Fixpoint bytes_leb (s t : bytes) : bool :=
  match s, t with
  | [], _ => true
  | _ :: _, [] => false
  | c :: s, d :: t =>
      if (byte_val c <? byte_val d)%N then true
      else if (byte_val d <? byte_val c)%N then false else bytes_leb s t
  end.

Fixpoint insertKey (kv : bytes * list bytes) (h : Header) : Header :=
  match h with
  | [] => [kv]
  | kv' :: h' => if bytes_leb kv.1 kv'.1 then kv :: h else kv' :: insertKey kv h'
  end.

Definition headerWrite (h : Header) : list bytes :=
  concat (map (λ kvs, map (λ v, headerLine (kvs.1, TrimSpace (newlineToSpace v))) kvs.2)
            (fold_right insertKey [] h)).

Definition loopWriteUpgradeHead resp : list bytes :=
  ["HTTP/" ++ fmtZ (ProtoMajor resp) ++ "." ++ fmtZ (ProtoMinor resp) ++ " 101 Switching Protocols" ++ CRLF] ++
  headerWrite (HeaderOf resp) ++ [CRLF].
End heads.

(** ** Bodies *)

(** [loopChunkedWriter.Write] and [close]. *)
Definition chunkedWrite (p : bytes) (w : sink) : bool * sink :=
  if decide (p = []) then (true, w)
  else
    let '(ok, w) := sinkWrite (fmtN 16 (N.of_nat (length p)) ++ CRLF) w in
    if ok then
      let '(ok, w) := sinkWrite p w in
      if ok then sinkWrite CRLF w else (false, w)
    else (false, w).

Definition chunkedClose (w : sink) : sink := put lastChunk w.

Definition loopWriteBody {B} `{IOReader B} (w : sink) (resp : Response B) : sink :=
  if (ContentLength resp =? 0)%Z then w
  else if (0 <? ContentLength resp)%Z then (CopyBuffer sinkWrite transportBufSize w (Body resp)).1
  else chunkedClose (CopyBuffer chunkedWrite transportBufSize w (Body resp)).1.

(** ** Error pages *)

(** Back quotes stand for the double quotes of the source. *)
Definition quotes (s : bytes) : bytes := map (λ c, if decide (c = "`"%char) then dquote else c) s.

(** [blockedPageHTML], before and after the host. *)
Definition blockedPagePrefix : bytes := quotes "<!DOCTYPE html>
<html lang=`ja`>
<head><meta charset=`UTF-8`><title>アクセスブロック</title>
<style>body{font-family:sans-serif;display:flex;justify-content:center;align-items:center;height:100vh;margin:0;background:#f5f5f5}
.box{background:#fff;border-radius:8px;padding:40px 48px;box-shadow:0 2px 8px rgba(0,0,0,.12);text-align:center;max-width:480px}
h1{color:#d32f2f;margin:0 0 12px}p{color:#555;margin:0}code{background:#eee;padding:2px 6px;border-radius:4px}</style>
</head>
<body><div class=`box`>
<h1>アクセスブロック</h1>
<p>このサイト (<code>".
Definition blockedPageSuffix : bytes := quotes "</code>) へのアクセスはポリシーによりブロックされています。</p>
</div></body></html>".

Definition blockedPage (host : bytes) : bytes := blockedPagePrefix ++ host ++ blockedPageSuffix.

Definition loopForbidden (host : bytes) : bytes :=
  let body := blockedPage host in
  "HTTP/1.1 403 Forbidden" ++ CRLF ++ "Content-Type: text/html; charset=utf-8" ++ CRLF ++
  "Content-Length: " ++ fmtZ (Z.of_nat (length body)) ++ CRLF ++ "Connection: close" ++ CRLF ++ CRLF ++
  body.

Definition loopPlainStatus (code : Z) : bytes :=
  "HTTP/1.1 " ++ fmtZ code ++ " " ++ StatusText code ++ CRLF ++ "Content-Length: 0" ++ CRLF ++
  "Connection: close" ++ CRLF ++ CRLF.

(** ** What a client reads back *)

Lemma chunkedWrite_out c s :
  c ≠ [] → chunkedWrite c (Sink s None) = (true, Sink (s ++ chunk c) None).
Proof.
  intros Hc. unfold chunkedWrite, chunk, sinkWrite. rewrite !decide_False by done. simpl.
  by rewrite <-!app_assoc.
Qed.

Lemma sinkWrite_out c s : c ≠ [] → sinkWrite c (Sink s None) = (true, Sink (s ++ c) None).
Proof. done. Qed.

Section body.
Context {B : Type} `{IOReader B}.
Implicit Types resp : Response B.

(** The bytes of a body on a connection that takes everything; the error that
    ends the body leaves no trace. *)
Lemma loopWriteBody_out s resp :
  ∃ cs e r', drain transportBufSize (Body resp) = (cs, Some e, r') ∧
  loopWriteBody (Sink s None) resp =
  Sink (s ++ (if (ContentLength resp =? 0)%Z then []
              else if (0 <? ContentLength resp)%Z then concat cs
              else concat (map chunk cs) ++ lastChunk)) None.
Proof.
  assert (0 < transportBufSize)%nat as Hk by (unfold transportBufSize; lia).
  destruct (drain_total transportBufSize (Body resp) Hk) as (cs & e & r' & Hd).
  exists cs, e, r'. split; [done|]. unfold loopWriteBody, CopyBuffer.
  destruct (ContentLength resp =? 0)%Z; [by rewrite app_nil_r|].
  unfold drain in Hd.
  pose proof (copyLoop_out sinkWrite (λ c, c) (drainFuel (Body resp)) transportBufSize s (Body resp)
    eq_refl sinkWrite_out) as H1.
  pose proof (copyLoop_out chunkedWrite chunk (drainFuel (Body resp)) transportBufSize s (Body resp)
    eq_refl chunkedWrite_out) as H2.
  rewrite Hd in H1, H2. destruct (0 <? ContentLength resp)%Z.
  - rewrite H1. simpl. by rewrite map_id.
  - rewrite H2. simpl. unfold chunkedClose. by rewrite put_unlimited, app_assoc.
Qed.
End body.

(** Head and body of a response on a fresh connection, as the loop writes them. *)
Definition loopWrite {B} `{IOReader B} (w : sink) (resp : Response B) : sink :=
  loopWriteBody (puts (loopWriteHead resp) w) resp.

(** Responses as [net/http] delivers them: the status is a number, names are
    canonical and can be written on a line, values have no line breaks. *)
Definition keyOk (k : bytes) : Prop :=
  colon ∉ k ∧ CR ∉ k ∧ ∀ n, n ∈ hopHeaders → EqualFold k n = true → k = n.
Definition responseOk {B} (resp : Response B) : Prop :=
  (0 ≤ StatusCode resp)%Z ∧ StatusCode resp ≠ 101%Z ∧ CR ∉ Status resp ∧
  Forall (λ kvs, keyOk kvs.1 ∧ Forall (λ v, CR ∉ v) kvs.2) (HeaderOf resp).

Lemma fmtZ_no c z : digit_val c = None → c ≠ "-"%char → c ∉ fmtZ z.
Proof.
  intros Hc Hne. unfold fmtZ. destruct (z <? 0)%Z; [|apply fmtN_no; [lia|done]].
  simpl. rewrite not_elem_of_cons. split; [done|apply fmtN_no; [lia|done]].
Qed.

Lemma StatusText_no_CR code : CR ∉ StatusText code.
Proof.
  unfold StatusText. destruct (find _ statusTable) as [[c t]|] eqn:Hf; [|apply not_elem_of_nil].
  apply find_some in Hf as [Hin _]. revert c t Hin.
  assert (Forall (λ p : Z * bytes, CR ∉ p.2) statusTable) as Hall.
  { decide_closed. }
  rewrite Forall_forall in Hall. intros c t Hin. apply (Hall (c, t)). by apply list_elem_of_In.
Qed.

Section roundtrip.
Context {B : Type}.
Implicit Types resp : Response B.

Lemma statusLine_no_CR resp : CR ∉ Status resp → CR ∉ statusLine resp.
Proof.
  intros Hs. unfold statusLine. rewrite !elem_of_app. intros [H|[H|[H|H]]].
  - revert H. decide_closed.
  - by revert H; apply fmtZ_no.
  - revert H. decide_closed.
  - revert H. case_decide; [apply StatusText_no_CR|done].
Qed.

Lemma forwarded_ok h kv :
  Forall (λ kvs : bytes * list bytes, keyOk kvs.1 ∧ Forall (λ v, CR ∉ v) kvs.2) h → kv ∈ forwarded h →
  headerOk kv ∧ (∀ n, n ∈ hopHeaders → EqualFold kv.1 n = false) ∧ EqualFold kv.1 "Content-Length" = false.
Proof.
  intros Hh Hin. unfold forwarded in Hin. apply list_elem_of_In, in_concat in Hin as (l & Hl & Hin).
  apply in_map_iff in Hl as ([k vs] & <- & Hk). cbn [fst snd] in Hin.
  rewrite Forall_forall in Hh. apply list_elem_of_In, Hh in Hk as [(Hc & Hcr & Hcan) Hvs].
  cbn [fst snd] in *.
  case_decide as Hhop; [done|]. destruct (EqualFold k "Content-Length") eqn:Hcl; [done|].
  apply in_map_iff in Hin as (v & <- & Hv). cbn [fst snd]. rewrite Forall_forall in Hvs.
  split_and!; [| |done].
  - split_and!; [done|done|]. by apply Hvs, list_elem_of_In.
  - intros n Hn. apply not_true_iff_false. intros He. apply Hhop. by rewrite (Hcan n Hn He).
Qed.

Lemma framing_ok resp : Forall headerOk (framing resp).
Proof.
  unfold framing. repeat case_match; repeat constructor; simpl;
    try decide_closed.
  by apply fmtZ_no.
Qed.

Lemma field_app hs hs' k :
  (∀ kv, kv ∈ hs → EqualFold kv.1 k = false) → field (hs ++ hs') k = field hs' k.
Proof.
  intros Hn. unfold field. induction hs as [|kv hs IH]; [done|]. simpl.
  rewrite Hn by constructor. apply IH. intros kv' Hin. apply Hn. by constructor.
Qed.

Lemma statusLine_code resp : (0 ≤ StatusCode resp)%Z → lineCode (statusLine resp) = Some (Z.to_N (StatusCode resp)).
Proof.
  intros Hc. unfold lineCode, statusLine. set (text := if decide _ then _ else _).
  change ("HTTP/1.1 " ++ fmtZ (StatusCode resp) ++ " " ++ text) with
    (str "HTTP/1.1" ++ " "%char :: (fmtZ (StatusCode resp) ++ " "%char :: text)).
  rewrite IndexByte_app by decide_closed. cbn [mbind option_bind].
  rewrite drop_app_ge by lia. replace (S (length (str "HTTP/1.1")) - length (str "HTTP/1.1"))%nat with 1%nat by lia.
  rewrite skipn_cons, drop_0. rewrite IndexByte_app by (by apply fmtZ_no). cbn [mbind option_bind].
  rewrite take_app_length. by apply parseN_fmtZ.
Qed.

(** The head of a response, as the client reads it. *)
Lemma readHead_written resp rest :
  responseOk resp →
  readHead (concat (loopWriteHead resp) ++ rest) =
    Some (statusLine resp, forwarded (HeaderOf resp) ++ framing resp, rest) ∧
  field (forwarded (HeaderOf resp) ++ framing resp) "Transfer-Encoding" = field (framing resp) "Transfer-Encoding" ∧
  field (forwarded (HeaderOf resp) ++ framing resp) "Content-Length" = field (framing resp) "Content-Length".
Proof.
  intros (_ & _ & Hs & Hh). split_and!.
  - rewrite <-(readHead_lines (statusLine resp) (forwarded (HeaderOf resp) ++ framing resp) rest).
    + unfold loopWriteHead. rewrite !concat_app, map_app, concat_app. simpl.
      rewrite !app_nil_r. by rewrite <-!app_assoc.
    + by apply statusLine_no_CR.
    + apply Forall_app. split; [|apply framing_ok].
      apply Forall_forall. intros kv Hin. by apply (forwarded_ok _ _ Hh Hin).
  - apply field_app. intros kv Hin. apply (forwarded_ok _ _ Hh Hin).
    decide_closed.
  - apply field_app. intros kv Hin. by apply (forwarded_ok _ _ Hh Hin).
Qed.
End roundtrip.

Lemma drain_content k (b : source) cs e r :
  (0 < k)%nat → drain k b = (cs, Some e, r) → concat cs = content b ∧ e = final b.
Proof.
  intros Hk Hd. apply readAll_reads in Hd; [|done]. apply reads_source in Hd as (Hc & _ & He).
  destruct (He e eq_refl) as [-> Hn]. by rewrite Hc, Hn, app_nil_r.
Qed.

(** Head and body on a connection that takes everything. *)
Lemma loopWrite_out (resp : Response source) :
  ∃ cs, concat cs = content (Body resp) ∧
  written_bytes (loopWrite (Sink [] None) resp) =
  concat (loopWriteHead resp) ++
  (if (ContentLength resp =? 0)%Z then []
   else if (0 <? ContentLength resp)%Z then concat cs
   else concat (map chunk cs) ++ lastChunk).
Proof.
  unfold loopWrite. rewrite puts_unlimited.
  destruct (loopWriteBody_out (concat (loopWriteHead resp)) resp) as (cs & e & r' & Hd & Hw).
  exists cs. apply drain_content in Hd as [Hc _]; [|unfold transportBufSize; lia].
  split; [done|]. rewrite app_nil_l, Hw. done.
Qed.

(** What is written after the head. *)
Definition bodyOut (resp : Response source) (cs : list bytes) : bytes :=
  if (ContentLength resp =? 0)%Z then []
  else if (0 <? ContentLength resp)%Z then concat cs
  else concat (map chunk cs) ++ lastChunk.

(** Bodies that are as announced: none, of the announced length, where the request
    and the status allow none; otherwise of the announced length, or of unknown
    length on a connection that stays open. *)
Definition framedOk (method : bytes) (resp : Response source) : Prop :=
  if bodyless method (StatusCode resp) then (0 ≤ ContentLength resp)%Z ∧ content (Body resp) = []
  else ((0 ≤ ContentLength resp)%Z → Z.of_nat (length (content (Body resp))) = ContentLength resp) ∧
       ((ContentLength resp < 0)%Z → CloseAfter resp = false).

(** The client has read the head, and goes by the method, the status and the
    framing. *)
Lemma readResponse_written method (resp : Response source) rest :
  responseOk resp →
  ∃ cs, concat cs = content (Body resp) ∧
  readResponse method (written_bytes (loopWrite (Sink [] None) resp) ++ rest) =
    let hs := forwarded (HeaderOf resp) ++ framing resp in
    let r := bodyOut resp cs ++ rest in
    if bodyless method (StatusCode resp) then Some (statusLine resp, hs, [], r)
    else match field (framing resp) "Transfer-Encoding", field (framing resp) "Content-Length" with
         | Some te, _ =>
             if decide (te = str "chunked") then '(d, r) ← decodeChunked r; Some (statusLine resp, hs, d, r) else None
         | None, Some cl =>
             n ← parseN 10 cl;
             if decide (n ≤ N.of_nat (length r))%N
             then Some (statusLine resp, hs, take (N.to_nat n) r, drop (N.to_nat n) r) else None
         | None, None => Some (statusLine resp, hs, r, [])
         end.
Proof.
  intros Hok. destruct (loopWrite_out resp) as (cs & Hcs & ->). exists cs. split; [done|]. rewrite <-app_assoc.
  fold (bodyOut resp cs). unfold readResponse.
  destruct (readHead_written resp (bodyOut resp cs ++ rest) Hok) as (-> & Hte & Hcl). cbn [mbind option_bind].
  rewrite Hte, Hcl. destruct Hok as (Hcode & _). rewrite statusLine_code by done. cbn [mbind option_bind].
  rewrite Z2N.id by done. done.
Qed.

Lemma loopWrite_readback method (resp : Response source) rest :
  responseOk resp → framedOk method resp →
  readResponse method (written_bytes (loopWrite (Sink [] None) resp) ++ rest) =
    Some (statusLine resp, forwarded (HeaderOf resp) ++ framing resp, content (Body resp), rest) ∧
  (∀ k v, (k, v) ∈ forwarded (HeaderOf resp) → k ∉ hopHeaders).
Proof.
  intros Hok Hfr. split.
  2: { intros k v Hin Hhop. destruct Hok as (_ & _ & _ & Hh).
       destruct (forwarded_ok _ _ Hh Hin) as (_ & Hn & _). specialize (Hn k Hhop). simpl in Hn.
       unfold EqualFold in Hn. by rewrite bool_decide_eq_true_2 in Hn. }
  destruct (readResponse_written method resp rest Hok) as (cs & Hcs & ->). cbv zeta. unfold framedOk in Hfr.
  unfold bodyOut. destruct (bodyless method (StatusCode resp)).
  { destruct Hfr as [Hle Hnil]. rewrite Hnil in *. rewrite Hcs.
    destruct (ContentLength resp =? 0)%Z eqn:Hz; [done|]. by rewrite (proj2 (Z.ltb_lt _ _)) by lia. }
  destruct Hfr as [Hlen Hclose].
  destruct Hok as (_ & Hcode & _ & _). apply Z.eqb_neq in Hcode. unfold framing. rewrite Hcode.
  destruct (Z.leb_spec 0 (ContentLength resp)) as [Hle|Hlt].
  - assert (field [(str "Content-Length", fmtZ (ContentLength resp))] "Transfer-Encoding" = None) as -> by done.
    assert (field [(str "Content-Length", fmtZ (ContentLength resp))] "Content-Length" =
      Some (fmtZ (ContentLength resp))) as -> by done.
    rewrite parseN_fmtZ by done. cbn [mbind option_bind].
    specialize (Hlen Hle).
    assert ((if (ContentLength resp =? 0)%Z then []
      else if (0 <? ContentLength resp)%Z then concat cs else concat (map chunk cs) ++ lastChunk) =
      content (Body resp)) as ->.
    { destruct (Z.eqb_spec (ContentLength resp) 0) as [Hz|Hz].
      - destruct (content (Body resp)); [done|simpl in Hlen; lia].
      - by rewrite (proj2 (Z.ltb_lt _ _)) by lia. }
    assert (Z.to_N (ContentLength resp) = N.of_nat (length (content (Body resp)))) as -> by lia.
    rewrite decide_True by (rewrite length_app; lia).
    by rewrite Nat2N.id, take_app_length, drop_app_length.
  - rewrite Hclose by done.
    rewrite (proj2 (Z.eqb_neq _ _)), (proj2 (Z.ltb_ge _ _)) by lia.
    assert (field [(str "Transfer-Encoding", str "chunked")] "Transfer-Encoding" = Some (str "chunked"))
      as -> by done.
    rewrite decide_True by done. rewrite <-app_assoc, decodeChunked_chunks. cbn [mbind option_bind].
    by rewrite Hcs.
Qed.

(** C14. A response relayed through the tunnel arrives intact: a client that made
    the request and reads the connection by the rules of HTTP/1.1 recovers the
    status line, the forwarded fields with the proxy's framing and no hop-by-hop
    field of the upstream, and exactly the upstream body, with the bytes of the
    next response left over.  The response is one that [net/http] delivers and no
    upgrade; its body is of the announced length, or of unknown length on a
    connection that stays open; or, where the method or the status allows no body
    (HEAD, 204, 304), it is empty and its length is announced.  Other bodies can
    corrupt the connection ([loopWrite_close_corrupts],
    [loopWrite_bodyless_desync]). *)
Theorem loopWrite_roundtrip method (resp : Response source) rest :
  responseOk resp → framedOk method resp →
  readResponse method (written_bytes (loopWrite (Sink [] None) resp) ++ rest) =
    Some (statusLine resp, forwarded (HeaderOf resp) ++ framing resp, content (Body resp), rest) ∧
  (∀ k v, (k, v) ∈ forwarded (HeaderOf resp) → k ∉ hopHeaders).
Proof. apply loopWrite_readback. Qed.

(** A response of unknown length that is to end with its connection arrives
    corrupted: the head announces no transfer coding, but the body is written in
    chunks, so the client takes the chunk framing for content. *)
Theorem loopWrite_close_corrupts method (resp : Response source) :
  responseOk resp → bodyless method (StatusCode resp) = false →
  (ContentLength resp < 0)%Z → CloseAfter resp = true →
  ∃ seen,
    readResponse method (written_bytes (loopWrite (Sink [] None) resp)) =
      Some (statusLine resp, forwarded (HeaderOf resp) ++ [(str "Connection", str "close")], seen, []) ∧
    decodeChunked seen = Some (content (Body resp), []) ∧ seen ≠ content (Body resp).
Proof.
  intros Hok Hb Hlt Hclose. destruct (readResponse_written method resp [] Hok) as (cs & Hcs & Hread).
  rewrite app_nil_r, Hb in Hread. cbv zeta in Hread. unfold bodyOut in Hread.
  rewrite (proj2 (Z.eqb_neq _ _)), (proj2 (Z.ltb_ge _ _)) in Hread by lia.
  exists (concat (map chunk cs) ++ lastChunk). split_and!.
  - rewrite Hread. destruct Hok as (_ & Hcode & _). apply Z.eqb_neq in Hcode.
    unfold framing. rewrite Hcode, (proj2 (Z.leb_gt _ _)), Hclose by lia. by rewrite app_nil_r.
  - rewrite <-(app_nil_r lastChunk), decodeChunked_chunks. by rewrite Hcs.
  - rewrite <-Hcs. intros Heq%(f_equal length). rewrite length_app in Heq.
    assert (length (concat cs) ≤ length (concat (map chunk cs)))%nat; [|unfold lastChunk in Heq; simpl in Heq; lia].
    clear. induction cs as [|c cs IH]; simpl; [lia|]. rewrite !length_app. unfold chunk at 1.
    case_decide; [subst; simpl; lia|]. rewrite !length_app. lia.
Qed.

(** A response without a body whose length is unknown puts the connection out of
    step: the last chunk is written after the head all the same, and the client
    takes it for the beginning of the next response. *)
Theorem loopWrite_bodyless_desync method (resp : Response source) rest :
  responseOk resp → bodyless method (StatusCode resp) = true →
  (ContentLength resp < 0)%Z → content (Body resp) = [] →
  readResponse method (written_bytes (loopWrite (Sink [] None) resp) ++ rest) =
    Some (statusLine resp, forwarded (HeaderOf resp) ++ framing resp, [], lastChunk ++ rest).
Proof.
  intros Hok Hb Hlt Hnil. destruct (readResponse_written method resp rest Hok) as (cs & Hcs & ->).
  rewrite Hb. cbv zeta. unfold bodyOut. rewrite (proj2 (Z.eqb_neq _ _)), (proj2 (Z.ltb_ge _ _)) by lia.
  rewrite Hnil in Hcs. assert (concat (map chunk cs) = []) as ->; [|done].
  clear -Hcs. induction cs as [|c cs IH]; [done|]. cbn [concat] in Hcs. apply app_nil in Hcs as [-> Hcs].
  cbn [map concat]. by rewrite IH.
Qed.

(** ** The loop *)

(** What the loop relies on of its transport, on a state [T] and with response
    bodies [B]: the request/response exchange, what the request's metadata say
    afterwards, and whether a body is an [io.ReadWriteCloser]. *)
Class RoundTripper (T B : Type) := {
  RoundTrip : Request → T → option (Response B) * T;
  metaContentType : T → bytes;
  metaBytesSent : T → B → Z;
  isReadWriteCloser : B → bool;
}.

(** A request parsed from the connection, with the blocklist in force when it
    is served, the clock, the request id, the time it takes, and what the
    connection still delivers should it be upgraded (what the loop's reader has
    buffered by then is not part of it, and is lost). *)
Record arrival := Arrival {
  ar_req : Request;
  ar_blocklist : option Blocklist;
  ar_now : Z;
  ar_id : bytes;
  ar_durationMS : Z;
  ar_rest : source;
}.

(** The connection to the client, the log, the transport, and as history the
    requests given to the transport and the bytes bridged to an upstream. *)
Record loopState (T : Type) := LoopState {
  lc_conn : sink;
  lc_log : list AccessRecord;
  lc_transport : T;
  lc_forwarded : list Request;
  lc_bridged : bytes;
}.
Arguments LoopState {T}.
Arguments lc_conn {T}.
Arguments lc_log {T}.
Arguments lc_transport {T}.
Arguments lc_forwarded {T}.
Arguments lc_bridged {T}.

Section loop.
Context `{Unicode} {T B : Type} `{RoundTripper T B} `{IOReader B}.
(** The server's sender is optional; the rest is fixed for a connection. *)
Variables (sender : bool) (scheme host tlsVer tlsCiph remoteAddr : bytes).
Implicit Types st : loopState T.

Definition emitLog (rec : AccessRecord) st : loopState T :=
  let '(LoopState c l t f b) := st in LoopState c (if sender then l ++ [rec] else l) t f b.

Definition onConn (f : sink → sink) st : loopState T :=
  let '(LoopState c l t fw b) := st in LoopState (f c) l t fw b.

Definition clientIP : bytes := match SplitHostPort remoteAddr with Some (h, _) => h | None => [] end.

(** The request as sent upstream. *)
Definition normalise (req : Request) : Request :=
  let '(MkRequest m (MkURL _ _ p q uri) h hd ra cl) := req in
  MkRequest m (MkURL scheme host p q uri) (if decide (h = []) then host else h) hd ra cl.

Definition blockRecord (a : arrival) (req : Request) : AccessRecord :=
  MkRecord (ar_now a) (ar_id a) clientIP (hget (r_Header req) "X-Forwarded-For") (r_Method req) scheme
    (r_Host req) (u_RequestURI (r_URL req)) 403 0 0 (hget (r_Header req) "User-Agent") [] tlsVer tlsCiph
    "block" "blocklist".

Definition accessRecord (a : arrival) (req : Request) (status bytesSent : Z) (contentType : bytes)
  : AccessRecord :=
  MkRecord (ar_now a) (ar_id a) clientIP (hget (r_Header req) "X-Forwarded-For") (r_Method req) scheme
    host (u_RequestURI (r_URL req)) status bytesSent (ar_durationMS a) (hget (r_Header req) "User-Agent")
    contentType tlsVer tlsCiph [] [].

(** [loopBridge], in one go ([Bridge] has its two goroutines step by step): both
    directions are copied until they end.  What a direction delivers before it ends, because its peer closed, because the other
    direction ended and closed it, or because of the idle timeout, is the content
    of its source: the body [b] from upstream and [rest] from the client. *)
Definition loopBridge (b : B) (rest : source) st : loopState T :=
  let '(LoopState c l t f br) := st in
  LoopState (CopyBuffer sinkWrite transportBufSize c b).1 l t f
    (br ++ written_bytes (CopyBuffer sinkWrite transportBufSize (Sink [] None) rest).1).

(** One request: whether the loop goes on, and the state. *)
Definition serveOne (a : arrival) st : bool * loopState T :=
  let req := normalise (ar_req a) in
  if IsBlocked (ar_blocklist a) (r_Host req) then
    (false, emitLog (blockRecord a req) (onConn (put (loopForbidden (r_Host req))) st))
  else
    let '(LoopState c l t f br) := st in
    let '(resp, t) := RoundTrip req t in
    let st := LoopState c l t (f ++ [req]) br in
    match resp with
    | None => (false, emitLog (accessRecord a req 502 0 []) (onConn (put (loopPlainStatus 502)) st))
    | Some resp =>
        let status := StatusCode resp in
        if (status =? 101)%Z then
          let st := onConn (puts (loopWriteUpgradeHead resp)) st in
          if isReadWriteCloser (Body resp) then
            (false, emitLog (accessRecord a req status (metaBytesSent t (Body resp)) [])
                      (loopBridge (Body resp) (ar_rest a) st))
          else (false, st)
        else if HasPrefix (hget (HeaderOf resp) "Content-Type") "text/event-stream" then
          let resp := MkResponse (StatusCode resp) (Status resp) (ProtoMajor resp) (ProtoMinor resp)
                        (HeaderOf resp) (Body resp) (ContentLength resp) true in
          (false, emitLog (accessRecord a req status (metaBytesSent t (Body resp)) (metaContentType t))
                    (onConn (λ w, (CopyBuffer sinkWrite transportBufSize
                                     (puts (loopWriteHead resp) w) (Body resp)).1) st))
        else
          (negb (CloseAfter resp || r_Close req),
           emitLog (accessRecord a req status (metaBytesSent t (Body resp)) (metaContentType t))
             (onConn (λ w, loopWrite w resp) st))
    end.

Fixpoint serveConnLoop (arrivals : list arrival) st : loopState T :=
  match arrivals with
  | [] => st
  | a :: arrivals =>
      let '(continue, st) := serveOne a st in
      if continue then serveConnLoop arrivals st else st
  end.
End loop.

(** ** Properties of the loop *)

Section loop_spec.
Context `{Unicode} {T B : Type} `{RoundTripper T B} `{IOReader B}.
Variables (sender : bool) (scheme host tlsVer tlsCiph remoteAddr : bytes).
Implicit Types st : loopState T.

Abbreviation norm := (normalise scheme host).
Abbreviation serve := (serveConnLoop sender scheme host tlsVer tlsCiph remoteAddr).
Abbreviation serve1 := (serveOne sender scheme host tlsVer tlsCiph remoteAddr).

Definition refused (a : arrival) : bool := IsBlocked (ar_blocklist a) (r_Host (norm (ar_req a))).

Lemma serveOne_refused a st :
  refused a = true →
  serve1 a st = (false, emitLog sender (blockRecord scheme tlsVer tlsCiph remoteAddr a (norm (ar_req a)))
                          (onConn (put (loopForbidden (r_Host (norm (ar_req a))))) st)).
Proof. unfold refused, serveOne. by intros ->. Qed.

(** A request that is not refused goes upstream, and what it logs is not a block. *)
Lemma serveOne_forwards a st :
  refused a = false →
  lc_forwarded (serve1 a st).2 = lc_forwarded st ++ [norm (ar_req a)] ∧
  ∃ recs, lc_log (serve1 a st).2 = lc_log st ++ recs ∧ Forall (λ r, a_EventType r = []) recs.
Proof.
  unfold refused, serveOne. intros ->. destruct st as [c l t f br].
  assert (∀ r, a_EventType r = [] → ∃ recs, (if sender then l ++ [r] else l) = l ++ recs ∧
            Forall (λ r, a_EventType r = []) recs) as Hlog.
  { intros r Hr. destruct sender; [by exists [r]; split; [|constructor]|].
    exists []. by rewrite app_nil_r. }
  destruct (RoundTrip (norm (ar_req a)) t) as [[resp|] t']; simpl; [|split; [done|by apply Hlog]].
  destruct (StatusCode resp =? 101)%Z.
  - destruct (isReadWriteCloser (Body resp)); simpl; split; try done; [by apply Hlog|].
    exists []. by rewrite app_nil_r.
  - destruct (HasPrefix _ _); simpl; split; try done; by apply Hlog.
Qed.

Lemma normalise_host req : u_Host (r_URL (norm req)) = host ∧ u_Scheme (r_URL (norm req)) = scheme.
Proof. by destruct req as [m [? ? ? ? ?] h hd ra cl]. Qed.

(** A request after whose answer nothing more is served: there is no answer, it
    upgrades the connection, it is a stream of events, or one side closes. *)
Definition endsLoop (a : arrival) (t : T) : bool :=
  match (RoundTrip (norm (ar_req a)) t).1 with
  | None => true
  | Some resp =>
      (StatusCode resp =? 101)%Z || HasPrefix (hget (HeaderOf resp) "Content-Type") "text/event-stream" ||
      CloseAfter resp || r_Close (ar_req a)
  end.

(** The transport after a sequence of requests. *)
Definition transportAfter (l : list arrival) (t : T) : T :=
  fold_left (λ t a, (RoundTrip (norm (ar_req a)) t).2) l t.

Lemma r_Close_norm req : r_Close (norm req) = r_Close req.
Proof. by destruct req as [m [? ? ? ? ?] h hd ra cl]. Qed.

Lemma serveOne_continues a st :
  refused a = false →
  (serve1 a st).1 = negb (endsLoop a (lc_transport st)) ∧
  lc_transport (serve1 a st).2 = (RoundTrip (norm (ar_req a)) (lc_transport st)).2.
Proof.
  unfold refused, serveOne, endsLoop. intros ->. destruct st as [c l t f br]. cbn [lc_transport].
  destruct (RoundTrip (norm (ar_req a)) t) as [[resp|] t']; cbn [fst snd]; [|by destruct sender].
  destruct (StatusCode resp =? 101)%Z; [by destruct (isReadWriteCloser (Body resp))|].
  destruct (HasPrefix _ _); [done|]. rewrite r_Close_norm. done.
Qed.

Lemma loop_mediates arrivals st :
  let st' := serve arrivals st in
  ∃ served rest,
    arrivals = served ++ rest ∧
    Forall (λ a, refused a = false ∧ u_Host (r_URL (norm (ar_req a))) = host) served ∧
    let st1 := serve served st in
    lc_forwarded st1 = lc_forwarded st ++ map (λ a, norm (ar_req a)) served ∧
    (∃ recs, lc_log st1 = lc_log st ++ recs ∧ Forall (λ r, a_EventType r = []) recs) ∧
    ((st' = st1 ∧
      (rest = [] ∨
       ∃ before a, served = before ++ [a] ∧ endsLoop a (transportAfter before (lc_transport st)) = true)) ∨
     ∃ a rest', rest = a :: rest' ∧ refused a = true ∧
       st' = emitLog sender (blockRecord scheme tlsVer tlsCiph remoteAddr a (norm (ar_req a)))
               (onConn (put (loopForbidden (r_Host (norm (ar_req a))))) st1)).
Proof.
  cbv zeta. revert st. induction arrivals as [|a arrivals IH]; intros st.
  { exists [], []. split_and!; [done|done|by rewrite app_nil_r|exists []; by rewrite app_nil_r|by left; split; [|left]]. }
  cbn [serveConnLoop]. destruct (refused a) eqn:Hr.
  - rewrite (serveOne_refused a st Hr). exists [], (a :: arrivals).
    split_and!; [done|done|by rewrite app_nil_r|exists []; by rewrite app_nil_r|right; by exists a, arrivals].
  - destruct (serveOne_forwards a st Hr) as (Hf & recs & Hl & Hrecs).
    destruct (serveOne_continues a st Hr) as [Hgo Ht].
    destruct (serve1 a st) as [continue st1] eqn:Hs1; cbn [fst snd] in *.
    assert (refused a = false ∧ u_Host (r_URL (norm (ar_req a))) = host) as Ha by (split; [done|apply normalise_host]).
    destruct continue.
    + destruct (IH st1) as (served & rest & -> & Hall & Hfw & (recs' & Hl2 & Hrecs') & Hend).
      exists (a :: served), rest. cbn [serveConnLoop app map]. rewrite Hs1. split_and!; [done|by constructor| | |].
      * rewrite Hfw, Hf. by rewrite <-app_assoc.
      * exists (recs ++ recs'). rewrite Hl2, Hl, <-app_assoc. split; [done|by apply Forall_app].
      * destruct Hend as [[Heq Hstop]|Hblock]; [left; split; [done|]|by right].
        destruct Hstop as [->|(before & b & -> & Hb)]; [by left|right]. exists (a :: before), b. split; [done|].
        unfold transportAfter. cbn [fold_left]. rewrite <-Ht. exact Hb.
    + exists [a], arrivals. cbn [serveConnLoop]. rewrite Hs1. split_and!; [done|by constructor|done|by exists recs|].
      left. split; [done|]. right. exists [], a. split; [done|]. cbn. by destruct (endsLoop a (lc_transport st)).
Qed.

Lemma loop_forwarded arrivals st :
  ∃ served, lc_forwarded (serve arrivals st) = lc_forwarded st ++ map (λ a, norm (ar_req a)) served.
Proof.
  destruct (loop_mediates arrivals st) as (served & rest & _ & _ & Hf & _ & [[-> _]|(a & rest' & _ & _ & ->)]);
    exists served; rewrite <-Hf; [done|]. by destruct (serve served st).
Qed.

(** C12. The loop mediates every request of a tunnel: what reaches the upstream is
    an initial run of the requests, in order, each addressed to the tunnel's host
    and none with a blocked [Host], and none of them is logged as a block; the run
    goes on until the requests end, or an answer ends it (none came, it upgrades
    the connection, it is a stream of events, or one side closes), or a request
    for a blocked [Host] comes: that one is answered with the blocked page, logged
    as a block, and nothing is served after it. *)
Theorem serveConnLoop_mediates arrivals st :
  let st' := serve arrivals st in
  ∃ served rest,
    arrivals = served ++ rest ∧
    Forall (λ a, refused a = false ∧ u_Host (r_URL (norm (ar_req a))) = host) served ∧
    let st1 := serve served st in
    lc_forwarded st1 = lc_forwarded st ++ map (λ a, norm (ar_req a)) served ∧
    (∃ recs, lc_log st1 = lc_log st ++ recs ∧ Forall (λ r, a_EventType r = []) recs) ∧
    ((st' = st1 ∧
      (rest = [] ∨
       ∃ before a, served = before ++ [a] ∧ endsLoop a (transportAfter before (lc_transport st)) = true)) ∨
     ∃ a rest', rest = a :: rest' ∧ refused a = true ∧
       st' = emitLog sender (blockRecord scheme tlsVer tlsCiph remoteAddr a (norm (ar_req a)))
               (onConn (put (loopForbidden (r_Host (norm (ar_req a))))) st1)).
Proof. apply loop_mediates. Qed.

(** The blocklist is consulted for the [Host] field alone, which the client
    chooses: inside a tunnel to a blocked host, a request that names another
    host is sent to the blocked one. *)
Theorem tunnel_host_bypass a arrivals st :
  IsBlocked (ar_blocklist a) host = true → refused a = false →
  ∃ req fs, lc_forwarded (serve (a :: arrivals) st) = lc_forwarded st ++ req :: fs ∧
            u_Host (r_URL req) = host ∧ IsBlocked (ar_blocklist a) (u_Host (r_URL req)) = true.
Proof.
  intros Hb Hr. destruct (normalise_host (ar_req a)) as [Hu _].
  destruct (serveOne_forwards a st Hr) as [Hf _].
  assert (∀ l st1, ∃ fs, lc_forwarded (serve l st1) = lc_forwarded st1 ++ fs) as Hmono.
  { clear -H. induction l as [|b l IH]; intros st1; simpl; [by exists []; rewrite app_nil_r|].
    destruct (refused b) eqn:Hrb.
    - rewrite (serveOne_refused b st1 Hrb). exists []. rewrite app_nil_r. by destruct st1.
    - destruct (serveOne_forwards b st1 Hrb) as [Hf _]. destruct (serve1 b st1) as [[] st2]; simpl in Hf.
      + destruct (IH st2) as [fs ->]. rewrite Hf, <-app_assoc. by eexists.
      + by eexists. }
  exists (norm (ar_req a)). simpl. destruct (serve1 a st) as [[] st1]; simpl in Hf.
  - destruct (Hmono arrivals st1) as [fs ->]. exists fs. rewrite Hf, <-app_assoc, Hu. done.
  - exists []. by rewrite Hf, Hu.
Qed.
End loop_spec.

(** *** Pipelining *)

(** What a response puts on a connection does not depend on what is there. *)
Lemma loopWrite_app {B} `{IOReader B} s (resp : Response B) :
  loopWrite (Sink s None) resp = Sink (s ++ written_bytes (loopWrite (Sink [] None) resp)) None.
Proof.
  unfold loopWrite. rewrite !puts_unlimited.
  destruct (loopWriteBody_out (s ++ concat (loopWriteHead resp)) resp) as (cs & e & r & Hd & ->).
  destruct (loopWriteBody_out ([] ++ concat (loopWriteHead resp)) resp) as (cs' & e' & r' & Hd' & ->).
  rewrite Hd in Hd'. simplify_eq. cbn [written_bytes]. by rewrite app_nil_l, app_assoc.
Qed.

(** The client reads the responses to requests with these methods, one after the
    other. *)
Fixpoint readResponses (methods : list bytes) (s : bytes)
  : option (list (bytes * list (bytes * bytes) * bytes) * bytes) :=
  match methods with
  | [] => Some ([], s)
  | method :: methods =>
      '(line, hs, d, s) ← readResponse method s;
      '(rs, s) ← readResponses methods s;
      Some ((line, hs, d) :: rs, s)
  end.

#[local] Arguments String.list_ascii_of_string : simpl never.

Section pipeline.
Context `{Unicode} {T : Type} `{RoundTripper T source}.
Variables (sender : bool) (scheme host tlsVer tlsCiph remoteAddr : bytes).

(** The responses to a sequence of requests. *)
Fixpoint answers (l : list arrival) (t : T) : list (Response source) :=
  match l with
  | [] => []
  | a :: l =>
      match RoundTrip (normalise scheme host (ar_req a)) t with
      | (Some r, t) => r :: answers l t
      | (None, _) => []
      end
  end.

(** Ordinary requests on a connection that both sides keep open, with answers
    whose bodies are as announced. *)
Fixpoint keptAlive (l : list arrival) (t : T) : Prop :=
  match l with
  | [] => True
  | a :: l =>
      refused scheme host a = false ∧ r_Close (ar_req a) = false ∧
      match RoundTrip (normalise scheme host (ar_req a)) t with
      | (Some r, t) =>
          responseOk r ∧ HasPrefix (hget (HeaderOf r) "Content-Type") "text/event-stream" = false ∧
          CloseAfter r = false ∧ framedOk (r_Method (ar_req a)) r ∧
          keptAlive l t
      | (None, _) => False
      end
  end.

Lemma serveConnLoop_out l s lg t f b :
  keptAlive l t →
  lc_conn (serveConnLoop sender scheme host tlsVer tlsCiph remoteAddr l (LoopState (Sink s None) lg t f b)) =
  Sink (s ++ concat (map (λ r, written_bytes (loopWrite (Sink [] None) r)) (answers l t))) None.
Proof.
  revert s lg t f b. induction l as [|a l IH]; intros s lg t f b; simpl; [by rewrite app_nil_r|].
  intros (Hr & Hc & Hrest). unfold serveOne. unfold refused in Hr. rewrite Hr.
  destruct (RoundTrip (normalise scheme host (ar_req a)) t) as [[r|] t']; [|done].
  destruct Hrest as ((_ & Hcode & _) & Hsse & Hclose & _ & Hkept).
  rewrite (proj2 (Z.eqb_neq _ _) Hcode), Hsse, Hclose, r_Close_norm, Hc. simpl.
  rewrite (loopWrite_app s r). rewrite (IH _ _ t') by done. simpl. by rewrite app_assoc.
Qed.

(** C15. Responses stay in step with requests: on a connection kept open by both
    sides, a client that sent some requests, none of them refused, and reads by the
    rules of HTTP/1.1 gets exactly their answers, in order, each with its own body,
    and nothing else; provided that every request is answered, by no upgrade and no
    stream of events, and that the bodies are as announced, which for the answers
    that have none (to HEAD, 204, 304) means that their length is announced. *)
Theorem serveConnLoop_pipeline l lg t f b :
  keptAlive l t →
  readResponses (map (λ a, r_Method (ar_req a)) l)
    (written_bytes (lc_conn (serveConnLoop sender scheme host tlsVer tlsCiph remoteAddr l
                               (LoopState (Sink [] None) lg t f b)))) =
  Some (map (λ r, (statusLine r, forwarded (HeaderOf r) ++ framing r, content (Body r))) (answers l t), []).
Proof.
  intros Hk. rewrite serveConnLoop_out by done. simpl. clear lg f b.
  revert t Hk. induction l as [|a l IH]; intros t; simpl; [done|].
  intros (_ & _ & Hrest). destruct (RoundTrip (normalise scheme host (ar_req a)) t) as [[r|] t']; [|done].
  destruct Hrest as (Hok & _ & Hclose & Hlen & Hkept). simpl.
  rewrite (proj1 (loopWrite_readback _ r _ Hok Hlen)). cbn [mbind option_bind].
  by rewrite IH.
Qed.
End pipeline.

(** *** Witnesses *)

Section witnesses.

(** Case mapping of ASCII text, to instantiate the parameter. *)
#[local] Instance asciiUnicode : Unicode := {| unicode_ToLower s := map lower_byte s |}.

Definition okResponse : Response source :=
  MkResponse 200 "200 OK" 1 1 [(str "Content-Type", [str "text/plain"]); (str "Connection", [str "x"])]
    (Source ["hel"; "lo"] EOF true) 5 false.
Definition chunkedResponse (close : bool) : Response source :=
  MkResponse 200 "200 OK" 2 0 [(str "Server", [str "x"])] (Source ["ab"; "c"] EOF false) (-1) close.

(** An upstream that answers alternately. *)
#[local] Instance alternating : RoundTripper bool source := {|
  RoundTrip _ (t : bool) := (Some (if t then okResponse else chunkedResponse false), negb t);
  metaContentType _ := [];
  metaBytesSent _ _ := 0%Z;
  isReadWriteCloser _ := false;
|}.

Definition exampleArrival (h : bytes) : arrival :=
  Arrival (MkRequest "GET" (MkURL [] [] "/" [] "/") h [] "10.0.0.1:4444" false)
    (Some (NewBlocklist ["evil.com"])) 0 "id" 3 (Source [] EOF true).

Lemma keyOk_by (k : bytes) :
  colon ∉ k → CR ∉ k → forallb (λ n, negb (EqualFold k n) || bool_decide (k = n)) hopHeaders = true → keyOk k.
Proof.
  intros Hc Hcr Hall. split_and!; [done|done|]. intros n Hn He.
  rewrite forallb_forall in Hall. specialize (Hall n (proj1 (list_elem_of_In _ _) Hn)).
  rewrite He in Hall. by apply bool_decide_eq_true in Hall.
Qed.

Lemma okResponse_ok : responseOk okResponse.
Proof.
  split_and!; [done|done|decide_closed|].
  repeat constructor; try (decide_closed); apply keyOk_by; reflexivity || decide_closed.
Defined.

Lemma chunkedResponse_ok close : responseOk (chunkedResponse close).
Proof.
  split_and!; [done|done|decide_closed|].
  repeat constructor; try (decide_closed); apply keyOk_by; reflexivity || decide_closed.
Defined.

Lemma loopWrite_roundtrip_witness :
  readResponse "GET" (written_bytes (loopWrite (Sink [] None) okResponse) ++ "HTTP/1.1") =
    Some (str "HTTP/1.1 200 200 OK",
          [(str "Content-Type", str "text/plain"); (str "Content-Length", str "5")], str "hello", str "HTTP/1.1").
Proof.
  rewrite (proj1 (loopWrite_roundtrip "GET" okResponse "HTTP/1.1" okResponse_ok (conj (λ _, eq_refl) (λ _, eq_refl)))).
  reflexivity.
Defined.

Lemma loopWrite_close_corrupts_witness :
  ∃ seen, decodeChunked seen = Some (str "abc", []) ∧ seen ≠ str "abc".
Proof.
  destruct (loopWrite_close_corrupts "GET" (chunkedResponse true) (chunkedResponse_ok true)) as (seen & _ & ? & ?);
    [reflexivity|reflexivity|reflexivity|]. by exists seen.
Defined.

(** The answer to HEAD when the upstream announces no length. *)
Definition headResponse : Response source :=
  MkResponse 200 "200 OK" 1 1 [(str "Server", [str "x"])] (Source [] EOF false) (-1) false.

Lemma loopWrite_bodyless_desync_witness :
  ∃ line hs, readResponse "HEAD" (written_bytes (loopWrite (Sink [] None) headResponse) ++ []) =
             Some (line, hs, [], lastChunk).
Proof.
  do 2 eexists. apply (loopWrite_bodyless_desync "HEAD" headResponse []); [|reflexivity..].
  split_and!; [done|done|decide_closed|].
  repeat constructor; try (decide_closed); apply keyOk_by; reflexivity || decide_closed.
Defined.

Lemma tunnel_host_bypass_witness :
  ∃ req fs, lc_forwarded (serveConnLoop true "https" "evil.com:443" [] [] "10.0.0.1:4444"
                            [exampleArrival "good.com"] (LoopState (Sink [] None) [] true [] [])) =
            [] ++ req :: fs ∧ u_Host (r_URL req) = str "evil.com:443".
Proof.
  destruct (tunnel_host_bypass true "https" "evil.com:443" [] [] "10.0.0.1:4444" (exampleArrival "good.com") []
    (LoopState (Sink [] None) [] true [] [])) as (req & fs & Hf & Hu & _);
    [vm_compute; reflexivity|vm_compute; reflexivity|].
  exists req, fs. split; [exact Hf|exact Hu].
Defined.

Lemma serveConnLoop_pipeline_witness :
  readResponses [str "GET"; str "GET"]
    (written_bytes (lc_conn (serveConnLoop true "https" "good.com:443" [] [] "10.0.0.1:4444"
       [exampleArrival "good.com"; exampleArrival "good.com"] (LoopState (Sink [] None) [] true [] [])))) =
  Some (map (λ r, (statusLine r, forwarded (HeaderOf r) ++ framing r, content (Body r)))
          [okResponse; chunkedResponse false], []).
Proof.
  refine (eq_trans (serveConnLoop_pipeline true "https" "good.com:443" [] [] "10.0.0.1:4444"
    [exampleArrival "good.com"; exampleArrival "good.com"] [] true [] [] _) _); [|reflexivity].
  simpl. split_and!; try reflexivity; try (intros; reflexivity).
  - apply okResponse_ok.
  - exact (conj (λ _, eq_refl) (λ _, eq_refl)).
  - apply chunkedResponse_ok.
  - split; [|reflexivity]. vm_compute. by intros [].
Defined.
End witnesses.
