(* ===== verification/Bridge.v ===== *)
(** * The bridge of an upgraded connection ([loopBridge] and [bridgeConn] of
    [internal/proxy/tunnel.go])

    Two goroutines copy between the client and the upstream after a protocol
    upgrade, each in its own direction, under one idle deadline on the client's
    connection.  One step is one call of a goroutine that returns, or something
    that the peers or the clock do; the calls of the two goroutines interleave
    in any order. *)
From S2P Require Import Prelude GoIO Services Blocklist Http Logger Tunnel.

Definition bridgeIdleTimeout : Z := 5 * 60 * 10 ^ 9.

(** ** State *)

(** The two ends: the client's connection [conn] and the upstream's [rwc]. *)
Inductive endpoint := Conn | Rwc.

#[export] Instance endpoint_eq_dec : EqDecision endpoint.
Proof. solve_decision. Defined.

(** One end: all that its peer has sent and what of it has not been read, how the
    peer ended its stream, whether our side is closed, and all that was written
    to it. *)
Record side := MkSide {
  arrived : bytes;
  inbox : bytes;
  hungup : option ioerr;
  closed : bool;
  sent : bytes;
}.

(** The goroutine of [loopBridge] copies up, from [conn] to [rwc]; the caller
    copies down. *)
Inductive way := Up | Down.

#[export] Instance way_eq_dec : EqDecision way.
Proof. solve_decision. Defined.

Definition src (w : way) : endpoint := match w with Up => Conn | Down => Rwc end.
Definition dst (w : way) : endpoint := match w with Up => Rwc | Down => Conn end.

(** After its copy a goroutine closes the destination, and then signals [done]
    or waits for it. *)
Inductive phase := Copied | Closed | Finished.

(** Where a goroutine is: in [Read] of its source; in [Write] of what it has read,
    with the error that came with it; or past [io.CopyBuffer], which returned nil
    if [clean]. *)
Inductive copier :=
  | Reading
  | Writing (p : bytes) (e : option ioerr)
  | Over (clean : bool) (ph : phase).

Record bridge := MkBridge {
  clock : Z;
  deadline : Z;
  conn : side;
  rwc : side;
  up : copier;
  down : copier;
}.

Definition sideOf (e : endpoint) (s : bridge) : side := match e with Conn => conn s | Rwc => rwc s end.
Definition copierOf (w : way) (s : bridge) : copier := match w with Up => up s | Down => down s end.

Definition setSide (e : endpoint) (sd : side) (s : bridge) : bridge :=
  let '(MkBridge t d c r u dn) := s in
  match e with Conn => MkBridge t d sd r u dn | Rwc => MkBridge t d c sd u dn end.

Definition setCopier (w : way) (c : copier) (s : bridge) : bridge :=
  let '(MkBridge t d cn r u dn) := s in
  match w with Up => MkBridge t d cn r c dn | Down => MkBridge t d cn r u c end.

(** ** Calls *)

(** [refresh]. *)
Definition refresh (s : bridge) : bridge :=
  let '(MkBridge t _ c r u dn) := s in MkBridge t (t + bridgeIdleTimeout) c r u dn.

(** [bridgeConn.Read] and [Write] refresh the deadline when bytes have moved;
    the upstream's end has no deadline. *)
Definition touched (e : endpoint) (n : nat) (s : bridge) : bridge :=
  match e with Conn => if (0 <? n)%nat then refresh s else s | Rwc => s end.

Definition advance (d : Z) (s : bridge) : bridge :=
  let '(MkBridge t dl c r u dn) := s in MkBridge (t + d) dl c r u dn.

Definition expired (e : endpoint) (s : bridge) : bool :=
  match e with Conn => (deadline s <=? clock s)%Z | Rwc => false end.

(** The errors that [Read] may return when [rest] is what would be left unread:
    EOF once everything has been read, any other error when the connection has
    failed, was closed here, or is past its deadline. *)
Definition readErr (e : endpoint) (rest : bytes) (err : ioerr) (s : bridge) : bool :=
  match err with
  | EOF => bool_decide (hungup (sideOf e s) = Some EOF ∧ rest = [])
  | Failure => bool_decide (hungup (sideOf e s) = Some Failure) || closed (sideOf e s) || expired e s
  end.

Definition writeErr (e : endpoint) (s : bridge) : bool :=
  bool_decide (hungup (sideOf e s) ≠ None) || closed (sideOf e s) || expired e s.

Definition consume (n : nat) (sd : side) : side :=
  MkSide (arrived sd) (drop n (inbox sd)) (hungup sd) (closed sd) (sent sd).
Definition receive (p : bytes) (sd : side) : side :=
  MkSide (arrived sd ++ p) (inbox sd ++ p) (hungup sd) (closed sd) (sent sd).
Definition hang (err : ioerr) (sd : side) : side :=
  MkSide (arrived sd) (inbox sd) (Some err) (closed sd) (sent sd).
Definition deliver (p : bytes) (sd : side) : side :=
  MkSide (arrived sd) (inbox sd) (hungup sd) (closed sd) (sent sd ++ p).
Definition close (sd : side) : side :=
  MkSide (arrived sd) (inbox sd) (hungup sd) true (sent sd).

Definition update (e : endpoint) (f : side → side) (s : bridge) : bridge := setSide e (f (sideOf e s)) s.

(** What [io.CopyBuffer] does after a write of everything: it reads again, or it
    returns the error of its last read, nil for EOF. *)
Definition afterWrite (e : option ioerr) : copier :=
  match e with None => Reading | Some err => Over (bool_decide (err = EOF)) Copied end.

(** ** Steps *)

(** The clock, the peers, and the returns of the goroutines' calls: a read with
    bytes and perhaps an error, a read without, a write of everything, a write
    that fails after [n] bytes, [Close], and [close(done)] or [<-done]. *)
Inductive bevent :=
  | Tick (d : Z)
  | Arrive (e : endpoint) (p : bytes)
  | HangUp (e : endpoint) (err : ioerr)
  | ReadData (w : way) (n : nat) (err : option ioerr)
  | ReadError (w : way) (err : ioerr)
  | WriteAll (w : way)
  | WriteFail (w : way) (n : nat)
  | CloseDst (w : way)
  | Finish (w : way).

(** The bridge after an event, if the event is possible. *)
Definition bridgeStep (ev : bevent) (s : bridge) : option bridge :=
  match ev with
  | Tick d => if (0 <? d)%Z then Some (advance d s) else None
  | Arrive e p =>
      if bool_decide (hungup (sideOf e s) = None) && negb (closed (sideOf e s))
      then Some (update e (receive p) s) else None
  | HangUp e err =>
      if bool_decide (hungup (sideOf e s) = None) then Some (update e (hang err) s) else None
  | ReadData w n err =>
      match copierOf w s with
      | Reading =>
          let box := inbox (sideOf (src w) s) in
          if (0 <? n)%nat && (n <=? length box)%nat && (n <=? transportBufSize)%nat &&
             match err with Some x => readErr (src w) (drop n box) x s | None => true end
          then Some (setCopier w (Writing (take n box) err) (touched (src w) n (update (src w) (consume n) s)))
          else None
      | _ => None
      end
  | ReadError w err =>
      match copierOf w s with
      | Reading =>
          if readErr (src w) (inbox (sideOf (src w) s)) err s
          then Some (setCopier w (Over (bool_decide (err = EOF)) Copied) s) else None
      | _ => None
      end
  | WriteAll w =>
      match copierOf w s with
      | Writing p e =>
          if closed (sideOf (dst w) s) then None
          else Some (setCopier w (afterWrite e) (touched (dst w) (length p) (update (dst w) (deliver p) s)))
      | _ => None
      end
  | WriteFail w n =>
      match copierOf w s with
      | Writing p _ =>
          if (n <=? length p)%nat && writeErr (dst w) s
          then Some (setCopier w (Over false Copied) (touched (dst w) n (update (dst w) (deliver (take n p)) s)))
          else None
      | _ => None
      end
  | CloseDst w =>
      match copierOf w s with
      | Over c Copied => Some (setCopier w (Over c Closed) (update (dst w) close s))
      | _ => None
      end
  | Finish w =>
      match copierOf w s, w, up s with
      | Over c Closed, Up, _ => Some (setCopier Up (Over c Finished) s)
      | Over c Closed, Down, Over _ Finished => Some (setCopier Down (Over c Finished) s)
      | _, _, _ => None
      end
  end.

Fixpoint bridgeRun (es : list bevent) (s : bridge) : option bridge :=
  match es with
  | [] => Some s
  | e :: es => s ← bridgeStep e s; bridgeRun es s
  end.

(** [loopBridge] at its start. *)
Definition openSide : side := MkSide [] [] None false [].
Definition startBridge (t : Z) : bridge :=
  MkBridge t (t + bridgeIdleTimeout) openSide openSide Reading Reading.

(** [loopBridge] has returned: both ends are closed and no goroutine is left. *)
Definition returned (s : bridge) : bool := match down s with Over _ Finished => true | _ => false end.

(** A goroutine's call cannot block any more: there is something to read, or the
    call fails at once.  [drains] tells which peers take what is written to
    them. *)
Definition unblocked (drains : endpoint → bool) (w : way) (s : bridge) : bool :=
  let from := sideOf (src w) s in
  let to := sideOf (dst w) s in
  match copierOf w s with
  | Reading => bool_decide (inbox from ≠ []) || bool_decide (hungup from ≠ None) || closed from || expired (src w) s
  | Writing _ _ => drains (dst w) || bool_decide (hungup to = Some Failure) || closed to || expired (dst w) s
  | Over _ Copied => true
  | Over _ Closed => match w with Up => true | Down => match up s with Over _ Finished => true | _ => false end end
  | Over _ Finished => false
  end.

(** The call that an event ends. *)
Definition callOf (ev : bevent) : option way :=
  match ev with
  | Tick _ | Arrive _ _ | HangUp _ _ => None
  | ReadData w _ _ | ReadError w _ | WriteAll w | WriteFail w _ | CloseDst w | Finish w => Some w
  end.

Definition isCall (ev : bevent) : bool := match callOf ev with Some _ => true | None => false end.

(** Bytes that move between the client and the bridge. *)
Definition transfers (ev : bevent) : bool :=
  match ev with
  | ReadData Up _ _ | WriteAll Down => true
  | WriteFail Down n => (0 <? n)%nat
  | _ => false
  end.

(** The time that passes in a run, and the bytes that arrive at an end. *)
Definition elapsed (es : list bevent) : Z :=
  fold_right (λ e t, match e with Tick d => d + t | _ => t end)%Z 0%Z es.
Definition arrivals (e : endpoint) (es : list bevent) : nat :=
  fold_right (λ ev n, match ev with Arrive e' p => if decide (e' = e) then length p + n else n | _ => n end)%nat 0%nat es.
Definition calls (es : list bevent) : nat := length (filter (λ e, isCall e = true) es).

(** ** Shared facts *)

Definition other (w : way) : way := match w with Up => Down | Down => Up end.

Lemma src_other w : src (other w) = dst w.
Proof. by destruct w. Qed.

Lemma dst_other w : dst (other w) = src w.
Proof. by destruct w. Qed.

Lemma sideOf_setSide e e' sd s : sideOf e' (setSide e sd s) = if decide (e = e') then sd else sideOf e' s.
Proof. destruct s, e, e'; reflexivity. Qed.

Lemma sideOf_setCopier e w c s : sideOf e (setCopier w c s) = sideOf e s.
Proof. destruct s, e, w; reflexivity. Qed.

Lemma copierOf_setCopier w w' c s : copierOf w' (setCopier w c s) = if decide (w = w') then c else copierOf w' s.
Proof. destruct s, w, w'; reflexivity. Qed.

Lemma copierOf_setSide e w sd s : copierOf w (setSide e sd s) = copierOf w s.
Proof. destruct s, e, w; reflexivity. Qed.

Lemma sideOf_touched e e' n s : sideOf e (touched e' n s) = sideOf e s.
Proof. by destruct s, e', e, n. Qed.

Lemma copierOf_touched w e n s : copierOf w (touched e n s) = copierOf w s.
Proof. by destruct s, e, w, n. Qed.

Lemma sideOf_advance e d s : sideOf e (advance d s) = sideOf e s.
Proof. destruct s, e; reflexivity. Qed.

Lemma copierOf_advance w d s : copierOf w (advance d s) = copierOf w s.
Proof. destruct s, w; reflexivity. Qed.

Lemma decide_src_dst {A} w (x y : A) : (if decide (src w = dst w) then x else y) = y.
Proof. by destruct w. Qed.

Lemma decide_dst_src {A} w (x y : A) : (if decide (dst w = src w) then x else y) = y.
Proof. by destruct w. Qed.

Create HintDb bridge.
Create Rewrite HintDb bridge.
#[export] Hint Rewrite sideOf_setSide sideOf_setCopier copierOf_setCopier copierOf_setSide sideOf_advance
  copierOf_advance sideOf_touched copierOf_touched @decide_src_dst @decide_dst_src : bridge.

(** A step that is possible, taken apart: a goal for each event and branch. *)
Ltac step_cases H :=
  repeat match type of H with
    | context [match ?x with _ => _ end] => destruct x eqn:?; try discriminate H
    end;
  injection H as <-; subst; autorewrite with bridge in *.

(** ** What is delivered *)

(** The state of one direction: what has been written to its destination is what
    has arrived at its source, up to what is in hand and what is unread; a clean
    end means that the peer ended its stream and all of it was written. *)
Definition flowOk (c : copier) (from to : side) : Prop :=
  match c with
  | Reading => arrived from = sent to ++ inbox from
  | Writing p e =>
      arrived from = sent to ++ p ++ inbox from ∧
      (e = Some EOF → inbox from = [] ∧ hungup from = Some EOF)
  | Over true _ => arrived from = sent to ∧ hungup from = Some EOF
  | Over false _ => sent to `prefix_of` arrived from
  end.

(** A goroutine past its [Close]. *)
Definition pastClose (c : copier) : bool :=
  match c with Over _ Closed | Over _ Finished => true | _ => false end.

Record bridgeOk (s : bridge) : Prop := {
  flows w : flowOk (copierOf w s) (sideOf (src w) s) (sideOf (dst w) s);
  closings w : closed (sideOf (dst w) s) = pastClose (copierOf w s);
  inHand w p e : copierOf w s = Writing p e → p ≠ [];
  waited c : copierOf Down s = Over c Finished → ∃ c', copierOf Up s = Over c' Finished;
}.

Lemma startBridge_ok t : bridgeOk (startBridge t).
Proof. split; [by intros []..|done]. Qed.

Lemma flow_receive c from to p : hungup from = None → flowOk c from to → flowOk c (receive p from) to.
Proof.
  intros Hn. destruct c as [|q e|[] ph]; cbn; rewrite ?Hn.
  - intros ->. by rewrite app_assoc.
  - intros [-> He]. split; [by rewrite <-!app_assoc|]. intros ->. by destruct (He eq_refl).
  - by intros [_ ?].
  - apply prefix_app_r.
Qed.

Lemma flow_hang c from to err : hungup from = None → flowOk c from to → flowOk c (hang err from) to.
Proof. intros Hn. destruct c as [|q e|[] ph]; cbn; rewrite ?Hn; naive_solver. Qed.

Lemma flow_consume n from to e :
  flowOk Reading from to → (e = Some EOF → hungup from = Some EOF ∧ drop n (inbox from) = []) →
  flowOk (Writing (take n (inbox from)) e) (consume n from) to.
Proof. cbn. intros -> He. rewrite take_drop. naive_solver. Qed.

Lemma flow_eof from to err ph :
  flowOk Reading from to → (err = EOF → hungup from = Some EOF ∧ inbox from = []) →
  flowOk (Over (bool_decide (err = EOF)) ph) from to.
Proof.
  cbn. intros Ha He. case_bool_decide as Hd; cbn; rewrite Ha.
  - destruct (He Hd) as [? ->]. by rewrite app_nil_r.
  - by eexists.
Qed.

Lemma flow_deliver p e from to :
  flowOk (Writing p e) from to → flowOk (afterWrite e) from (deliver p to).
Proof.
  cbn. intros [Ha He]. destruct e as [err|]; cbn; [|by rewrite <-app_assoc].
  case_bool_decide as Hd; cbn; rewrite Ha.
  - subst. destruct (He eq_refl) as [-> ?]. by rewrite app_nil_r.
  - exists (inbox from). by rewrite <-app_assoc.
Qed.

Lemma flow_deliver_part n p e from to ph :
  flowOk (Writing p e) from to → flowOk (Over false ph) from (deliver (take n p) to).
Proof.
  cbn. intros [-> _]. exists (drop n p ++ inbox from). by rewrite <-app_assoc, (app_assoc (take n p)), take_drop.
Qed.

Lemma readErr_eof e rest s : readErr e rest EOF s = true → hungup (sideOf e s) = Some EOF ∧ rest = [].
Proof. apply bool_decide_eq_true. Qed.

#[export] Hint Resolve flow_receive flow_hang : bridge.

Lemma bridgeStep_waited ev s s' :
  bridgeStep ev s = Some s' →
  (∀ c, copierOf Down s = Over c Finished → ∃ c', copierOf Up s = Over c' Finished) →
  ∀ c, copierOf Down s' = Over c Finished → ∃ c', copierOf Up s' = Over c' Finished.
Proof.
  intros Hs Hw c.
  destruct ev as [d|e p|e err|v n err|v err|v|v n|v|v]; unfold bridgeStep, update in Hs; step_cases Hs;
    autorewrite with bridge; try (apply Hw).
  all: try destruct v; repeat first [rewrite decide_True by done|rewrite decide_False by done].
  all: try (intros Hd; destruct (Hw _ Hd) as [c' Hu]; congruence); try done; eauto.
  all: try (unfold afterWrite; case_match; discriminate).
Qed.

Lemma bridgeStep_inHand ev s s' w p e :
  bridgeStep ev s = Some s' → (∀ q e', copierOf w s = Writing q e' → q ≠ []) → copierOf w s' = Writing p e → p ≠ [].
Proof.
  intros Hs Hw.
  destruct ev as [d|e0 q|e0 err|v n err|v err|v|v n|v|v]; unfold bridgeStep, update in Hs; step_cases Hs;
    autorewrite with bridge; try (apply Hw).
  all: case_decide; [|apply Hw]; try done; try (unfold afterWrite; case_match; discriminate).
  all: intros [= <- <-] Hn; rewrite ?andb_true_iff, Nat.ltb_lt, !Nat.leb_le in *.
  all: apply (f_equal length) in Hn; rewrite length_take in Hn; cbn in Hn; lia.
Qed.

Lemma bridgeStep_ok ev s s' : bridgeStep ev s = Some s' → bridgeOk s → bridgeOk s'.
Proof.
  intros Hs Hok. split; [intros w|intros w|intros w ??; by eapply bridgeStep_inHand; eauto using inHand|
    by eapply bridgeStep_waited; eauto using waited].
  all: destruct Hok as [Hf Hc _ _]; specialize (Hf w); specialize (Hc w).
  all: destruct ev as [d|e p|e err|v n err|v err|v|v n|v|v]; unfold bridgeStep, update in Hs; step_cases Hs.
  all: rewrite ?andb_true_iff, ?bool_decide_eq_true in *; autorewrite with bridge; try assumption.
  all: try destruct e; try destruct v; destruct w; cbn [src dst] in *.
  all: repeat first [rewrite decide_True by done|rewrite decide_False by done].
  all: try match goal with Hr : copierOf _ _ = _ |- _ => rewrite Hr in * end.
  all: first [exact Hf|exact Hc|eapply flow_deliver; exact Hf|eapply flow_deliver_part; exact Hf|idtac].
  all: first [apply flow_consume; [assumption|intros ->]|apply flow_eof; [assumption|intros ->]|idtac].
  all: first [naive_solver eauto with bridge|eapply readErr_eof; naive_solver].
Qed.

Lemma bridgeRun_ok es s s' : bridgeRun es s = Some s' → bridgeOk s → bridgeOk s'.
Proof.
  revert s. induction es as [|ev es IH]; intros s; cbn [bridgeRun]; [by intros [= ->]|].
  intros (s1 & Hs & Hr)%bind_Some Hok. eauto using bridgeStep_ok.
Qed.

(** The invariant of every reachable state. *)
Lemma reachable_ok es t s : bridgeRun es (startBridge t) = Some s → bridgeOk s.
Proof. intros Hr. eapply bridgeRun_ok; eauto using startBridge_ok. Qed.

Lemma bridgeRun_app es es' s :
  bridgeRun (es ++ es') s = (s1 ← bridgeRun es s; bridgeRun es' s1).
Proof.
  revert s. induction es as [|ev es IH]; intros s; cbn [app bridgeRun]; [done|].
  destruct (bridgeStep ev s); cbn [mbind option_bind]; [apply IH|done].
Qed.

(** C16. The bridge delivers in order and invents nothing: whatever the
    interleaving of its two goroutines, the peers and the clock, what has been
    written to either end is an initial part of what the other end's peer sent,
    and all of it when that copy ended with the peer's end of stream.  When
    [loopBridge] has returned, both ends are closed and both copies are over. *)
Theorem bridge_delivery es t s :
  bridgeRun es (startBridge t) = Some s →
  (∀ w, sent (sideOf (dst w) s) `prefix_of` arrived (sideOf (src w) s)) ∧
  (∀ w ph, copierOf w s = Over true ph →
     sent (sideOf (dst w) s) = arrived (sideOf (src w) s) ∧ hungup (sideOf (src w) s) = Some EOF) ∧
  (returned s = true → ∀ w, closed (sideOf (dst w) s) = true ∧ ∃ c, copierOf w s = Over c Finished).
Proof.
  intros Hr. destruct (reachable_ok _ _ _ Hr) as [Hf Hc _ Hw]. split_and!.
  - intros w. specialize (Hf w). destruct (copierOf w s) as [|p e|[] ph]; cbn in Hf.
    + rewrite Hf. by eexists.
    + destruct Hf as [-> _]. by eexists.
    + by destruct Hf as [-> _].
    + done.
  - intros w ph Ho. specialize (Hf w). rewrite Ho in Hf. by destruct Hf as [-> ?].
  - unfold returned. intros Hret. destruct (down s) as [| |c []] eqn:Hd; try done.
    destruct (Hw c Hd) as [c' Hu]. intros []; rewrite (Hc _).
    + rewrite Hu. eauto.
    + cbn [copierOf]. rewrite Hd. eauto.
Qed.

(** ** The idle deadline *)

Lemma clock_setSide e sd s : clock (setSide e sd s) = clock s.
Proof. by destruct s, e. Qed.
Lemma deadline_setSide e sd s : deadline (setSide e sd s) = deadline s.
Proof. by destruct s, e. Qed.
Lemma clock_setCopier w c s : clock (setCopier w c s) = clock s.
Proof. by destruct s, w. Qed.
Lemma deadline_setCopier w c s : deadline (setCopier w c s) = deadline s.
Proof. by destruct s, w. Qed.
Lemma clock_touched e n s : clock (touched e n s) = clock s.
Proof. by destruct s, e, n. Qed.
Lemma deadline_touched e n s :
  deadline (touched e n s) =
    match e with
    | Conn => if (0 <? n)%nat then (clock s + bridgeIdleTimeout)%Z else deadline s
    | Rwc => deadline s
    end.
Proof. by destruct s, e, n. Qed.

#[export] Hint Rewrite clock_setSide deadline_setSide clock_setCopier deadline_setCopier clock_touched
  deadline_touched : bridge.

(** The deadline is five minutes after the last transfer with the client. *)
Lemma bridgeStep_deadline ev s s' :
  bridgeStep ev s = Some s' → bridgeOk s →
  clock s' = (clock s + elapsed [ev])%Z ∧
  deadline s' = if transfers ev then (clock s + bridgeIdleTimeout)%Z else deadline s.
Proof.
  intros Hs [_ _ Hp _].
  destruct ev as [d|e0 q|e0 err|v n err|v err|v|v n|v|v]; unfold bridgeStep, update in Hs; step_cases Hs.
  all: rewrite ?andb_true_iff in *.
  all: autorewrite with bridge; cbn [elapsed fold_right transfers].
  all: try (destruct v; cbn [src dst]); split; try lia; try done.
  all: try (destruct s; cbn; lia); try by destruct s.
  - by match goal with Hn : (((0 <? n)%nat = true ∧ _) ∧ _) ∧ _ |- _ => destruct Hn as [[[-> _] _] _] end.
  - destruct p; [by edestruct Hp|done].
Qed.

(** A copy that nothing has disturbed so far. *)
Definition going (c : copier) : Prop :=
  match c with Reading | Writing _ None => True | _ => False end.

(** What ends it is a peer, the deadline, or the other copy. *)
Lemma bridgeStep_going ev s s' w :
  bridgeStep ev s = Some s' → bridgeOk s → going (copierOf Up s) → going (copierOf Down s) →
  going (copierOf w s') ∨ (∃ e, hungup (sideOf e s) ≠ None) ∨ (deadline s ≤ clock s)%Z.
Proof.
  intros Hs [_ Hc _ _] Hu Hd.
  assert (∀ e, closed (sideOf e s) = false) as Hopen.
  { intros e. specialize (Hc match e with Conn => Down | Rwc => Up end).
    destruct e; cbn [dst] in Hc; rewrite Hc; [destruct (copierOf Down s)|destruct (copierOf Up s)]; done. }
  assert (∀ e rest err, readErr e rest err s = true → (∃ e, hungup (sideOf e s) ≠ None) ∨ (deadline s ≤ clock s)%Z) as Hr.
  { intros e rest [] Hre; [apply readErr_eof in Hre as [Hh _]; left; exists e; by rewrite Hh|].
    unfold readErr in Hre. rewrite Hopen, orb_false_r, orb_true_iff, bool_decide_eq_true in Hre.
    destruct Hre as [Hh|He]; [left; exists e; by rewrite Hh|]. destruct e; cbn in He; [lia|done]. }
  destruct ev as [d|e0 q|e0 err|v n err|v err|v|v n|v|v]; unfold bridgeStep, update in Hs; step_cases Hs.
  all: rewrite ?andb_true_iff in *; autorewrite with bridge.
  all: assert (∀ w, going (copierOf w s)) as Hg by (by intros []).
  all: try (by left; apply Hg).
  all: case_decide as Hw; [subst w|by left; apply Hg].
  all: match goal with Ho : copierOf ?x _ = _ |- _ => specialize (Hg x); rewrite Ho in Hg end; try done.
  - destruct err as [err|]; [right; naive_solver|by left].
  - right. eauto.
  - destruct e; [done|by left].
  - right. match goal with Hx : _ ∧ writeErr _ _ = true |- _ => destruct Hx as [_ Hwe] end.
    unfold writeErr in Hwe. rewrite Hopen, orb_false_r, orb_true_iff, bool_decide_eq_true in Hwe.
    destruct Hwe as [Hh|He]; [left; eauto|]. destruct (dst v); cbn in He; [right; lia|done].
Qed.

(** An end of the stream is final. *)
Lemma bridgeStep_hungup ev s s' e err :
  bridgeStep ev s = Some s' → hungup (sideOf e s) = Some err → hungup (sideOf e s') = Some err.
Proof.
  intros Hs Hh.
  destruct ev as [d|e0 q|e0 err0|v n err0|v err0|v|v n|v|v]; unfold bridgeStep, update in Hs; step_cases Hs.
  all: autorewrite with bridge; try done; case_decide; subst; try done.
  rewrite bool_decide_eq_true in *. congruence.
Qed.

(** Five minutes in a run without a transfer with the client. *)
Definition idled (es : list bevent) : Prop :=
  ∃ before quiet after, es = before ++ quiet ++ after ∧
    Forall (λ ev, transfers ev = false) quiet ∧ (bridgeIdleTimeout ≤ elapsed quiet)%Z.

Lemma elapsed_snoc es ev : elapsed (es ++ [ev]) = (elapsed es + elapsed [ev])%Z.
Proof. unfold elapsed. induction es as [|e es IH]; cbn; [lia|]. rewrite IH. destruct e; cbn; lia. Qed.

Lemma idled_snoc es ev : idled es → idled (es ++ [ev]).
Proof. intros (b & q & a & -> & Hq & He). exists b, q, (a ++ [ev]). by rewrite <-!app_assoc. Qed.

Lemma idle_invariant es t s :
  bridgeRun es (startBridge t) = Some s →
  (∃ b q, es = b ++ q ∧ Forall (λ ev, transfers ev = false) q ∧
     clock s = deadline s - bridgeIdleTimeout + elapsed q)%Z ∧
  ((going (copierOf Up s) ∧ going (copierOf Down s)) ∨ (∃ e, hungup (sideOf e s) ≠ None) ∨ idled es).
Proof.
  revert s. induction es as [|ev es IH] using rev_ind; intros s'.
  - intros [= <-]. split; [|left; done]. exists [], []. split_and!; [done|constructor|cbn; lia].
  - rewrite bridgeRun_app. intros (s & Hr & Hs)%bind_Some.
    cbn [bridgeRun] in Hs. apply bind_Some in Hs as (s1 & Hs & [= ->]).
    pose proof (reachable_ok _ _ _ Hr) as Hok.
    destruct (bridgeStep_deadline _ _ _ Hs Hok) as [Hc Hd].
    destruct (IH _ Hr) as [(b & q & -> & Hq & Hclock) Hcase]. split.
    + destruct (transfers ev) eqn:Ht.
      * exists ((b ++ q) ++ [ev]), []. split_and!; [by rewrite app_nil_r|constructor|].
        destruct ev; cbn in Ht, Hc |- *; try done; lia.
      * exists b, (q ++ [ev]). rewrite elapsed_snoc. split_and!; [by rewrite app_assoc| |lia].
        apply Forall_app. by repeat constructor.
    + destruct Hcase as [[Hu Hdn]|[[e He]|Hi]].
      * assert (∀ w, going (copierOf w s') ∨ (∃ e, hungup (sideOf e s') ≠ None) ∨ idled ((b ++ q) ++ [ev])) as Hall.
        { intros w. destruct (bridgeStep_going _ _ _ w Hs Hok Hu Hdn) as [?|[[e He]|Hexp]]; [by left|right; left|right; right].
          - exists e. destruct (hungup (sideOf e s)) eqn:Hh; [|done]. by rewrite (bridgeStep_hungup _ _ _ _ _ Hs Hh).
          - exists b, q, [ev]. split_and!; [by rewrite app_assoc|done|lia]. }
        destruct (Hall Up) as [?|?]; [destruct (Hall Down) as [?|?]|]; tauto.
      * right. left. exists e. destruct (hungup (sideOf e s)) eqn:Hh; [|done].
        by rewrite (bridgeStep_hungup _ _ _ _ _ Hs Hh).
      * right. right. by apply idled_snoc.
Qed.

(** C18. Only silence or a peer ends the bridge: when either copy is over, a peer
    has ended its stream or failed, or five whole minutes had passed in which no
    byte moved between the client and the bridge.  So an active connection is
    never cut by the deadline. *)
Theorem bridge_idle_only es t s w c ph :
  bridgeRun es (startBridge t) = Some s → copierOf w s = Over c ph →
  (∃ e, hungup (sideOf e s) ≠ None) ∨ idled es.
Proof.
  intros Hr Ho. destruct (idle_invariant _ _ _ Hr) as [_ [[Hu Hd]|?]]; [|done].
  destruct w; [rewrite Ho in Hu|rewrite Ho in Hd]; done.
Qed.

(** ** Termination *)

(** An upper bound of the calls that a goroutine can still return from, when [n]
    bytes are waiting at its source. *)
Definition cost (c : copier) (n : nat) : nat :=
  match c with
  | Reading => 2 * n + 4
  | Writing _ _ => 2 * n + 5
  | Over _ Copied => 2
  | Over _ Closed => 1
  | Over _ Finished => 0
  end.

Definition callsLeft (w : way) (s : bridge) : nat := cost (copierOf w s) (length (inbox (sideOf (src w) s))).

Lemma cost_mono c n m : (n ≤ m)%nat → (cost c n ≤ cost c m)%nat.
Proof. destruct c as [| |? []]; cbn; lia. Qed.

(** A copy that bytes can still arrive for. *)
Definition feeding (w : way) (s : bridge) : bool :=
  match copierOf w s with Over _ _ => false | _ => negb (closed (sideOf (src w) s)) end.

(** Every return uses up a call; only bytes that arrive for a copy make new ones. *)
Lemma bridgeStep_callsLeft ev s s' w :
  bridgeStep ev s = Some s' →
  (callsLeft w s' + (if decide (callOf ev = Some w) then 1 else 0) ≤
   callsLeft w s + (if feeding w s then 2 * arrivals (src w) [ev] else 0))%nat.
Proof.
  intros Hs. unfold callsLeft, feeding.
  destruct ev as [d|e0 q|e0 err0|v n err0|v err0|v|v n|v|v]; unfold bridgeStep, update in Hs; step_cases Hs.
  all: autorewrite with bridge; cbn [callOf arrivals fold_right]; rewrite ?Nat.mul_0_r, ?Tauto.if_same, ?Nat.add_0_r.
  all: try destruct e0; try destruct v; destruct w; cbn [src dst] in *.
  all: repeat first [rewrite decide_True by done|rewrite decide_False by done].
  all: rewrite ?andb_true_iff, ?negb_true_iff in *.
  all: try match goal with Ho : copierOf _ _ = _ |- _ => rewrite Ho end.
  all: cbn [receive hang consume deliver close inbox]; try (destruct (copierOf _ _); cbn; lia).
  all: try (cbn; lia).
  all: try (rewrite length_drop; cbn [cost]; rewrite ?Nat.ltb_lt, ?Nat.leb_le in *; lia).
  all: try (destruct e as [err|]; cbn; lia).
  all: match goal with Hx : _ ∧ closed _ = false |- _ => destruct Hx as [_ ->] end.
  all: rewrite length_app; destruct (copierOf _ _) as [| |? []]; cbn; lia.
Qed.

(** A copy that is not fed any more never is again. *)
Lemma bridgeStep_feeding ev s s' w : bridgeStep ev s = Some s' → feeding w s = false → feeding w s' = false.
Proof.
  intros Hs. unfold feeding.
  destruct ev as [d|e0 q|e0 err0|v n err0|v err0|v|v n|v|v]; unfold bridgeStep, update in Hs; step_cases Hs.
  all: autorewrite with bridge; try done.
  all: try destruct e0; try destruct v; destruct w; cbn [src dst] in *.
  all: repeat first [rewrite decide_True by done|rewrite decide_False by done]; try done.
  all: try match goal with Ho : copierOf _ _ = _ |- _ => rewrite Ho end; try done.
  all: try (by destruct e as [err|]).
  all: match goal with |- context [match ?c with _ => _ end] => by destruct c end.
Qed.

Definition pending (s : bridge) : nat := callsLeft Up s + callsLeft Down s.

Lemma bridgeStep_pending ev s s' :
  bridgeStep ev s = Some s' →
  (pending s' + (if isCall ev then 1 else 0) ≤
   pending s + ((if feeding Up s then 2 * arrivals Conn [ev] else 0) +
                (if feeding Down s then 2 * arrivals Rwc [ev] else 0)))%nat.
Proof.
  intros Hs. pose proof (bridgeStep_callsLeft _ _ _ Up Hs) as Hu. pose proof (bridgeStep_callsLeft _ _ _ Down Hs) as Hd.
  cbn [src] in Hu, Hd. unfold pending, isCall.
  assert ((if match callOf ev with Some _ => true | None => false end then 1 else 0) =
    (if decide (callOf ev = Some Up) then 1 else 0) + (if decide (callOf ev = Some Down) then 1 else 0))%nat as ->
    by (by destruct (callOf ev) as [[]|]).
  lia.
Qed.

Lemma arrivals_cons e ev es : arrivals e (ev :: es) = (arrivals e [ev] + arrivals e es)%nat.
Proof. destruct ev; unfold arrivals; cbn [fold_right]; try lia. case_decide; lia. Qed.

Lemma calls_cons ev es : calls (ev :: es) = ((if isCall ev then 1 else 0) + calls es)%nat.
Proof. unfold calls. rewrite filter_cons. by destruct (isCall ev). Qed.

Lemma bridgeRun_pending es s s' :
  bridgeRun es s = Some s' →
  (calls es + pending s' ≤ pending s + 2 * (arrivals Conn es + arrivals Rwc es))%nat ∧
  (feeding Up s = false → feeding Down s = false → (calls es + pending s' ≤ pending s)%nat).
Proof.
  revert s. induction es as [|ev es IH]; intros s; cbn [bridgeRun].
  - intros [= ->]. cbn. lia.
  - intros (s1 & Hs & Hr)%bind_Some. rewrite calls_cons, (arrivals_cons Conn ev es), (arrivals_cons Rwc ev es).
    pose proof (bridgeStep_pending _ _ _ Hs) as Hp. destruct (IH _ Hr) as [H1 H2]. split.
    + destruct (feeding Up s), (feeding Down s); lia.
    + intros Hu Hd. rewrite Hu, Hd in Hp.
      specialize (H2 (bridgeStep_feeding _ _ _ _ Hs Hu) (bridgeStep_feeding _ _ _ _ Hs Hd)). lia.
Qed.

(** A call that cannot block has a way to return. *)
Lemma unblocked_returns drains w s :
  unblocked drains w s = true → ∃ ev s', callOf ev = Some w ∧ bridgeStep ev s = Some s'.
Proof.
  unfold unblocked. destruct (copierOf w s) as [|p e|c []] eqn:Hc.
  - rewrite !orb_true_iff, !bool_decide_eq_true. intros Hb.
    destruct (decide (inbox (sideOf (src w) s) = [])) as [Hn|Hn].
    + assert (∃ err, readErr (src w) (inbox (sideOf (src w) s)) err s = true) as [err He].
      { unfold readErr. rewrite Hn. destruct (hungup (sideOf (src w) s)) as [[]|].
        - by exists EOF.
        - by exists Failure.
        - exists Failure. destruct Hb as [[[?|?]|Hb]|Hb]; try done;  by rewrite Hb, ?orb_true_r. }
      eexists (ReadError w err), _. split; [done|]. cbn [bridgeStep]. by rewrite Hc, He.
    + eexists (ReadData w 1 None), _. split; [done|]. cbn [bridgeStep]. rewrite Hc.
      assert ((1 <=? length (inbox (sideOf (src w) s)))%nat = true) as -> by (by destruct (inbox (sideOf (src w) s))).
      assert ((1 <=? transportBufSize)%nat = true) as -> by (apply Nat.leb_le; unfold transportBufSize; lia). done.
  - rewrite !orb_true_iff, bool_decide_eq_true. intros Hb.
    destruct (closed (sideOf (dst w) s)) eqn:Hcl.
    + eexists (WriteFail w 0), _. split; [done|]. cbn [bridgeStep]. unfold writeErr. by rewrite Hc, Hcl, orb_true_r.
    + eexists (WriteAll w), _. split; [done|]. cbn [bridgeStep]. by rewrite Hc, Hcl.
  - intros _. eexists (CloseDst w), _. split; [done|]. cbn [bridgeStep]. by rewrite Hc.
  - intros Hb. eexists (Finish w), _. split; [done|]. cbn [bridgeStep]. rewrite Hc.
    destruct w; [done|]. by destruct (up s) as [| |? []].
  - done.
Qed.

(** C17. The bridge returns and leaves no goroutine behind, when the upstream takes
    what is written to it: the calls that a run still returns from are bounded by
    the bytes that are waiting or arrive, and by those waiting alone once one of
    the ends has been closed; and when the deadline passes in a state where no
    call can return at once, [loopBridge] has returned. *)
Theorem bridge_returns es t s es' s' drains :
  bridgeRun es (startBridge t) = Some s → bridgeRun es' s = Some s' → drains Rwc = true →
  (calls es' ≤ pending s + 2 * (arrivals Conn es' + arrivals Rwc es'))%nat ∧
  ((∃ e, closed (sideOf e s) = true) → (calls es' ≤ pending s)%nat) ∧
  ((deadline s' ≤ clock s')%Z → returned s' = false →
   ∃ w ev s'', unblocked drains w s' = true ∧ callOf ev = Some w ∧ bridgeStep ev s' = Some s'').
Proof.
  intros Hr Hr' Hdr. destruct (bridgeRun_pending _ _ _ Hr') as [H1 H2].
  destruct (reachable_ok _ _ _ Hr) as [_ Hc _ _]. split_and!; [lia| |].
  - intros [e He]. enough (feeding Up s = false ∧ feeding Down s = false) as [Hu Hd] by (specialize (H2 Hu Hd); lia).
    pose proof (Hc Up) as Hcu. pose proof (Hc Down) as Hcd. cbn [dst sideOf] in Hcu, Hcd. unfold feeding. cbn [src sideOf].
    destruct e; cbn [sideOf] in He; rewrite He in *.
    + destruct (copierOf Down s); try done. by destruct (copierOf Up s).
    + destruct (copierOf Up s); try done. by destruct (copierOf Down s).
  - intros Hexp Hret. enough (∃ w, unblocked drains w s' = true) as [w Hw].
    { destruct (unblocked_returns _ _ _ Hw) as (ev & s'' & ? & ?). eauto 6. }
    pose proof (bridgeRun_ok _ _ _ Hr' (reachable_ok _ _ _ Hr)) as [_ Hc' _ Hw'].
    assert (∀ x, expired Conn s' || x = true) as Hx by (intros x; unfold expired; by rewrite (proj2 (Z.leb_le _ _) Hexp)).
    assert (expired Conn s' = true) as He by (unfold expired; lia).
    destruct (copierOf Up s') as [|p e|c []] eqn:Hu.
    + exists Up. unfold unblocked. rewrite Hu. cbn [src dst]. by rewrite He, !orb_true_r.
    + exists Up. unfold unblocked. rewrite Hu. cbn [src dst]. by rewrite Hdr.
    + exists Up. unfold unblocked. by rewrite Hu.
    + exists Up. unfold unblocked. by rewrite Hu.
    + exists Down. specialize (Hc' Up). rewrite Hu in Hc'. cbn [dst pastClose] in Hc'.
      unfold unblocked. cbn [src dst]. rewrite Hc', He, !orb_true_r. cbn [copierOf] in *. rewrite Hu.
      unfold returned in Hret. by destruct (down s') as [| |? []].
Qed.

(** An upstream that stops reading, without closing, holds the bridge up for good:
    the goroutine waits in its write, the caller in its read, neither call is
    under the deadline, and however much time passes [conn] is not closed. *)
Theorem bridge_stuck t :
  ∃ es s, bridgeRun es (startBridge t) = Some s ∧
    ∀ d, (0 < d)%Z → ∃ s', bridgeStep (Tick d) s = Some s' ∧ returned s' = false ∧ closed (conn s') = false ∧
      ∀ drains w, drains Rwc = false → unblocked drains w s' = false.
Proof.
  exists [Arrive Conn "x"; ReadData Up 1 None]. eexists. split.
  { cbn [bridgeRun bridgeStep mbind option_bind]. unfold transportBufSize. reflexivity. }
  intros d Hd. eexists. split.
  { cbn [bridgeStep]. rewrite (proj2 (Z.ltb_lt 0 d) Hd). reflexivity. }
  split_and!; [done|done|]. intros drains [] Hdr; [|done].
  unfold unblocked. cbn. by rewrite Hdr.
Qed.

(** ** The summary that the loop uses *)

Section summary.
Context `{RoundTripper T source}.

Lemma copy_source w (b : source) :
  (CopyBuffer sinkWrite transportBufSize (Sink w None) b).1 = Sink (w ++ content b) None.
Proof.
  assert (0 < transportBufSize)%nat as Hk by (unfold transportBufSize; lia).
  destruct (drain_source transportBufSize b Hk) as (cs & r & Hd & -> & _). unfold drain in Hd.
  pose proof (copyLoop_out sinkWrite (λ c, c) (drainFuel b) transportBufSize w b eq_refl sinkWrite_out) as Hc.
  rewrite Hd in Hc. unfold CopyBuffer. rewrite Hc. cbn [fst]. by rewrite map_id.
Qed.

(** [Tunnel.loopBridge], which runs one copy after the other, has the effect of
    the interleaved bridge: when both copies have ended with the end of their
    streams, the client's connection and the upstream have received the same. *)
Theorem loopBridge_sequential es t0 s w l (t : T) f br (b rest : source) ph ph' :
  bridgeRun es (startBridge t0) = Some s →
  copierOf Up s = Over true ph → copierOf Down s = Over true ph' →
  content b = arrived (rwc s) → content rest = arrived (conn s) →
  loopBridge b rest (LoopState (Sink w None) l t f br) =
    LoopState (Sink (w ++ sent (conn s)) None) l t f (br ++ sent (rwc s)).
Proof.
  intros Hr Hu Hd Hb Hc. unfold loopBridge. rewrite !copy_source. cbn [written_bytes app].
  destruct (reachable_ok _ _ _ Hr) as [Hf _ _ _]. pose proof (Hf Up) as H1. pose proof (Hf Down) as H2.
  rewrite Hu in H1. rewrite Hd in H2. cbn [flowOk src dst sideOf] in H1, H2.
  destruct H1 as [<- _], H2 as [<- _]. by rewrite Hb, Hc.
Qed.
End summary.

(** [drainBody]: a body is read to its end and closed; nil and [http.NoBody] are
    left alone. *)
Definition discardBufSize : nat := Z.to_nat 8192.
Definition drainBody {rd} `{IOReader rd} (body : option rd) : option rd :=
  (λ b, (drain discardBufSize b).2) <$> body.

Lemma drainBody_all (b b' : source) : drainBody (Some b) = Some b' → content b' = [].
Proof.
  assert (0 < discardBufSize)%nat as Hk by (unfold discardBufSize; lia).
  unfold drainBody. destruct (drain_source discardBufSize b Hk) as (cs & r & Hd & _ & Hn).
  cbn [fmap option_fmap option_map]. rewrite Hd. by intros [= <-].
Qed.

(** *** Witnesses *)

Section witnesses.

(** The client sends two bytes and closes; they reach the upstream, whose end is
    closed; its read fails, and the caller closes the client's. *)
Definition shortTalk : list bevent :=
  [Arrive Conn "hi"; ReadData Up 2 None; WriteAll Up; HangUp Conn EOF; ReadError Up EOF; CloseDst Up;
   ReadError Down Failure; CloseDst Down; Finish Up; Finish Down].

Definition talkEnd (s : bridge) : bridge := default s (bridgeRun shortTalk s).

Lemma shortTalk_run t : bridgeRun shortTalk (startBridge t) = Some (talkEnd (startBridge t)).
Proof.
  unfold talkEnd. assert (is_Some (bridgeRun shortTalk (startBridge t))) as [s Hs]; [|by rewrite Hs].
  unfold shortTalk. cbn [bridgeRun bridgeStep mbind option_bind]. unfold transportBufSize. by eexists.
Qed.

Lemma bridge_delivery_witness :
  sent (rwc (talkEnd (startBridge 0))) = "hi" ∧
  (∀ w, sent (sideOf (dst w) (talkEnd (startBridge 0))) `prefix_of` arrived (sideOf (src w) (talkEnd (startBridge 0)))).
Proof.
  split; [vm_compute; reflexivity|].
  exact (proj1 (bridge_delivery shortTalk 0 _ (shortTalk_run 0))).
Defined.

Lemma bridge_idle_only_witness :
  (∃ e, hungup (sideOf e (talkEnd (startBridge 0))) ≠ None) ∨ idled shortTalk.
Proof.
  apply (bridge_idle_only shortTalk 0 (talkEnd (startBridge 0)) Up true Finished (shortTalk_run 0)).
  vm_compute. reflexivity.
Defined.

Lemma bridge_returns_witness : (calls shortTalk ≤ 12)%nat.
Proof.
  destruct (bridge_returns [] 0 (startBridge 0) shortTalk (talkEnd (startBridge 0)) (λ _, true) eq_refl
    (shortTalk_run 0) eq_refl) as [Hc _].
  exact Hc.
Defined.
End witnesses.
