(* ===== verification/Manager.v ===== *)
(** * The job manager ([internal/scan/manager.go])

    The registry of jobs around [runScan]: starting jobs for browsers and
    command-line clients, preset jobs for URLs known to be infected, serving the
    buffered file, and removing expired jobs. *)
From S2P Require Import Prelude GoStrings GoIO Clamd ScanConfig ScanUtil Services SyncMap ResultCache.
From S2P Require Import ScanJob Trickle Http.

(** ** Data *)

(** A job: what is fixed when it is created, and the part that changes. *)
Record Job := MkJobInfo {
  ID : bytes;
  Filename : bytes;
  ContentType : bytes;
  ContentEncoding : bytes;
  OriginalURL : bytes;
  TempPath : bytes;
  CreatedAt : Z;
  state : jobState;
}.

Definition withState (job : Job) (j : jobState) : Job :=
  MkJobInfo (ID job) (Filename job) (ContentType job) (ContentEncoding job) (OriginalURL job)
    (TempPath job) (CreatedAt job) j.

(** The manager, with the temp files that exist (the content of a job's file is
    in its state) and the scan goroutines: the events each has still to do. *)
Record Manager (C : Type) := MkManager {
  dir : bytes;
  ttl : Z;
  maxSize : Z;
  config : ScanConfig;
  jobs : gmap bytes Job;
  cache : option C;
  files : gset bytes;
  scans : gmap bytes (list event);
}.
Arguments MkManager {C}.
Arguments dir {C}.
Arguments ttl {C}.
Arguments maxSize {C}.
Arguments config {C}.
Arguments jobs {C}.
Arguments cache {C}.
Arguments files {C}.
Arguments scans {C}.

(** [newID] of 16 random bytes. *)
Definition newID (random : bytes) : bytes := hex random.

(** [filepath.Join] of a clean directory and a name. *)
Definition joinPath (d name : bytes) : bytes := d ++ "/" ++ name.

Definition contentTypeOf (h : Header) : bytes :=
  let ct := hget h "Content-Type" in
  if decide (ct = []) then "application/octet-stream" else ct.

Section manager.
Context `{Scanner, SHA256, VerdictCache C}.
Implicit Types m : Manager C.

Definition NewManager (d : bytes) (t max : Z) (c : option C) : Manager C :=
  MkManager d t max (MkScanConfig (cfg_Enabled DefaultScanConfig) (Z.shiftr max 20) (Rules DefaultScanConfig))
    ∅ c ∅ ∅.

Definition SetConfig (cfg : ScanConfig) m : Manager C :=
  MkManager (dir m) (ttl m) (MaxSizeBytes cfg) cfg (jobs m) (cache m) (files m) (scans m).

Definition GetJob m (id : bytes) : option Job := jobs m !! id.

Definition LookupURL (url : bytes) m : option verdict * Manager C :=
  match cache m with
  | None => (None, m)
  | Some c =>
      let '(v, c) := cacheByURL url c in
      (v, MkManager (dir m) (ttl m) (maxSize m) (config m) (jobs m) (Some c) (files m) (scans m))
  end.

Definition storeJob (job : Job) m : Manager C :=
  MkManager (dir m) (ttl m) (maxSize m) (config m) (<[ID job := job]> (jobs m)) (cache m) (files m) (scans m).

(** The job for a request and its response's headers. *)
Definition makeJob (id path : bytes) (now : Z) (req : Request) (h : Header) (j : jobState) : Job :=
  MkJobInfo id (filenameFrom (u_Path (r_URL req)) (hget h "Content-Disposition")) (contentTypeOf h)
    (hget h "Content-Encoding") (urlString (r_URL req)) path now j.

(** A preset job has its verdict and no file: [uploadDone] is already closed. *)
Definition presetJob (st : ScanStatus) (threat : bytes) : jobState :=
  MkJob st threat [] 0 false true None None.

Definition NewPresetJob (random : bytes) (now : Z) (req : Request) (h : Header) (st : ScanStatus)
    (threat : bytes) m : Job * Manager C :=
  let job := makeJob (newID random) [] now req h (presetJob st threat) in
  (job, storeJob job m).

(** [newJob]; creating the temp file may fail. *)
Definition newJob (random : bytes) (now : Z) (create_ok : bool) (req : Request) (h : Header) m
  : Job * Manager C :=
  let id := newID random in
  let path := joinPath (dir m) id in
  let job := makeJob id path now req h freshJob in
  let m := MkManager (dir m) (ttl m) (maxSize m) (config m) (jobs m) (cache m)
             (if create_ok then {[path]} ∪ files m else files m) (scans m) in
  (job, storeJob job m).

(** [go m.runScan(job, body, saveTail)]: the goroutine's events are to come. *)
Definition goRunScan (env : scanEnv) (job : Job) (body : source) (saveTail : bool) m : Manager C :=
  let '(evs, c) := runScan env (OriginalURL job) body saveTail (cache m) in
  MkManager (dir m) (ttl m) (maxSize m) (config m) (jobs m) c
    (if open_ok env then {[TempPath job]} ∪ files m else files m) (<[ID job := evs]> (scans m)).

(** What the operating system does for a new job: creating its file, opening it
    for reading, and the environment of its scan. *)
Record jobEnv := JobEnv {
  je_random : bytes; je_now : Z; je_create : bool; je_open : bool; je_scan : scanEnv }.

Definition StartBrowserJob (e : jobEnv) (req : Request) (resp : Response source) m : Job * Manager C :=
  let '(job, m) := newJob (je_random e) (je_now e) (je_create e) req (HeaderOf resp) m in
  (job, goRunScan (je_scan e) job (Body resp) false m).

Definition StartCLIJob (e : jobEnv) (req : Request) (resp : Response source) m
  : Job * TrickleBody * Manager C :=
  let '(job, m) := newJob (je_random e) (je_now e) (je_create e) req (HeaderOf resp) m in
  if bool_decide (TempPath job ∈ files m) && je_open e then
    (job, newTrickle, goRunScan (je_scan e) job (Body resp) true m)
  else
    let job := withState job (apply_event (state job) (EvSetResult StatusError [])) in
    (job, fallbackTrickle (Body resp), storeJob job m).

(** What [ServeFile] sends: the headers it sets and the file. *)
Definition ServeFile (job : Job) (open_ok : bool) m : option (list (bytes * bytes) * bytes) :=
  let st := job_status (state job) in
  if negb (bool_decide (st = StatusClean)) && negb (bool_decide (st = StatusError)) then None
  else if bool_decide (TempPath job ∈ files m) && open_ok then
    Some ([(str "Content-Disposition", "attachment; filename=" ++ [dquote] ++ Filename job ++ [dquote]);
           (str "Content-Type", ContentType job)] ++
          (if decide (ContentEncoding job = []) then []
           else [(str "Content-Encoding", ContentEncoding job)]),
          tempFile (state job))
  else None.

(** One tick of the cleanup goroutine at time [now]. *)
Definition expired m (now : Z) (job : Job) : bool := (ttl m <? now - CreatedAt job)%Z.

Definition removeJob (k : bytes) (job : Job) m : Manager C :=
  MkManager (dir m) (ttl m) (maxSize m) (config m) (delete k (jobs m)) (cache m)
    (files m ∖ {[TempPath job]}) (scans m).

Definition cleanupJobs (now : Z) m : Manager C :=
  fold_left (λ m kj, if expired m now kj.2 then removeJob kj.1 kj.2 m else m) (map_to_list (jobs m)) m.

(** The next event of the scan of a job. *)
Definition scanStep (id : bytes) m : Manager C :=
  match scans m !! id with
  | Some (e :: es) =>
      MkManager (dir m) (ttl m) (maxSize m) (config m)
        (alter (λ job, withState job (apply_event (state job) e)) id (jobs m)) (cache m) (files m)
        (<[id := es]> (scans m))
  | _ => m
  end.
End manager.

(** ** Scans never leave a half-served file *)

(** Events that change neither the status nor the file. *)
Definition quiet (e : event) : bool :=
  match e with EvTruncate | EvSetResult _ _ | EvWrite _ => false | _ => true end.

Definition running (j : jobState) : bool :=
  bool_decide (job_status j = StatusPending) || bool_decide (job_status j = StatusScanning).

Lemma quiet_events es j :
  forallb quiet es = true →
  job_status (apply_events j es) = job_status j ∧ tempFile (apply_events j es) = tempFile j ∧
  job_threat (apply_events j es) = job_threat j.
Proof.
  revert j. induction es as [|e es IH]; intros j; [done|]. simpl.
  intros [He Hes]%andb_true_iff. destruct (IH (apply_event j e) Hes) as (Hs & Hf & Ht).
  unfold apply_events in *. simpl. rewrite Hs, Hf, Ht. by destruct j, e.
Qed.

(** Events during which the job keeps running. *)
Definition keepsRunning (e : event) : bool :=
  match e with EvSetResult StatusScanning _ => true | EvSetResult _ _ => false | _ => true end.

Lemma running_events es j :
  forallb keepsRunning es = true → running j = true → running (apply_events j es) = true.
Proof.
  revert j. induction es as [|e es IH]; intros j; [done|]. simpl.
  intros [He Hes]%andb_true_iff Hr. apply IH; [done|]. destruct j, e; try done.
  by destruct st.
Qed.

Lemma forallb_logEvents f qs :
  (∀ p, f (EvWrite p) = true) → (∀ n, f (EvCount n) = true) → f EvNotify = true →
  forallb f (logEvents qs) = true.
Proof.
  intros Hw Hc Hn. induction qs as [|q qs IH]; [done|]. cbn. by rewrite Hw, Hc, Hn.
Qed.

(** At any moment a scan is running or has settled: status, threat and file are
    those of its end. *)
Lemma wellShaped_settles evs pre suf :
  wellShaped evs → evs = pre ++ suf →
  running (apply_events freshJob pre) = true ∨
  (job_status (apply_events freshJob pre) = job_status (apply_events freshJob evs) ∧
   tempFile (apply_events freshJob pre) = tempFile (apply_events freshJob evs) ∧
   job_threat (apply_events freshJob pre) = job_threat (apply_events freshJob evs)).
Proof.
  intros (op & qs & tle & st & th & r & owned & Hevs & Hop & Htl & _) Hsplit.
  set (X := op ++ logEvents qs ++ tle). set (Y := EvVerdict r :: deferred owned).
  assert (evs = X ++ EvSetResult st th :: Y) as HX.
  { rewrite Hevs. unfold X, Y. by rewrite <-!app_assoc. }
  assert (forallb keepsRunning X = true) as HrX.
  { unfold X. rewrite !forallb_app, forallb_logEvents by done.
    destruct Hop as [->| ->], Htl as [->|[b [->| ->]]]; done. }
  assert (forallb quiet Y = true) as HqY by (by destruct owned).
  rewrite Hsplit in HX. apply app_eq_app in HX as [k [[HX1 HX2]|[HX1 HX2]]].
  - destruct k as [|e k].
    + left. rewrite app_nil_r in HX1. subst pre. by apply running_events.
    + right. injection HX2 as <- HX2. assert (forallb quiet suf = true) as Hq.
      { rewrite HX2 in HqY. rewrite forallb_app in HqY. by apply andb_true_iff in HqY as [_ ?]. }
      rewrite Hsplit. destruct (quiet_events suf (apply_events freshJob pre) Hq) as (Hs & Hf & Ht).
      unfold apply_events in *. rewrite fold_left_app. by rewrite Hs, Hf, Ht.
  - left. rewrite HX1, forallb_app in HrX. apply andb_true_iff in HrX as [? _].
    by apply running_events.
Qed.

Section manager_spec.
Context `{Scanner, SHA256, VerdictCache C}.
Implicit Types m : Manager C.

(** What [ServeFile] needs and gives. *)
Lemma ServeFile_Some job o m hs d :
  ServeFile job o m = Some (hs, d) →
  (job_status (state job) = StatusClean ∨ job_status (state job) = StatusError) ∧
  d = tempFile (state job) ∧ TempPath job ∈ files m.
Proof.
  unfold ServeFile. repeat case_bool_decide; simpl; try done; destruct o; simpl; try done;
    intros [= <- <-]; naive_solver.
Qed.

(** C11. What the download endpoint gives out, when the temp file opens, its disk
    does not fill and the limit, of at least 0 and below 2^63 - 1 bytes, does not
    change during the scan: at whatever moment of a browser job's scan a request
    comes, nothing is served of a job that ends infected or too large; of a job
    that is clean, all that arrived of the upstream body; and of one whose scan
    failed, the first bytes of the body up to one past the limit, which is all of
    it unless it is larger still. *)
Theorem browser_download_safe env url body (ocs : option C) max pre suf job o m hs d :
  open_ok env = true → disk env = None → limitMax env = max → checkMax env = max →
  (0 ≤ max < 2 ^ 63 - 1)%Z →
  (runScan env url body false ocs).1 = pre ++ suf →
  state job = apply_events freshJob pre →
  ServeFile job o m = Some (hs, d) →
  let final := scannedJob env url body false ocs in
  job_status final ≠ StatusInfected ∧ job_status final ≠ StatusTooLarge ∧
  (job_status (state job) = StatusClean → d = content body) ∧
  (job_status (state job) = StatusError → d = take (Z.to_nat (max + 1)) (content body)).
Proof.
  intros Ho Hd Hl Hc Hm Hevs Hst Hserve. cbv zeta.
  apply ServeFile_Some in Hserve as (Hstatus & -> & _).
  pose proof (scannedJob_outcome env url body false ocs max Ho Hd Hl Hc Hm) as Hout.
  destruct (wellShaped_settles _ _ _ (runScan_shape env false url body ocs) Hevs) as [Hr|(Hs & Hf & _)].
  { rewrite <-Hst in Hr. unfold running in Hr. by destruct Hstatus as [Hs|Hs]; rewrite Hs in Hr. }
  rewrite <-Hst in Hs, Hf. fold (scannedJob env url body false ocs) in Hs, Hf. rewrite Hf, Hs.
  rewrite Hs in Hstatus. unfold scanOutcome in Hout. cbv zeta in Hout. destruct Hout as (Htake & _ & _ & _ & Hrest).
  destruct Hstatus as [Hs'|Hs']; rewrite Hs' in *; split_and!; try done; by destruct Hrest.
Qed.
End manager_spec.

(** ** The registry *)

Section registry.
Context `{Scanner, SHA256, VerdictCache C}.
Implicit Types m : Manager C.

(** Everything that can happen to a manager. *)
Inductive mop :=
  | OpSetConfig (cfg : ScanConfig)
  | OpLookup (url : bytes)
  | OpPreset (random : bytes) (now : Z) (req : Request) (h : Header) (st : ScanStatus) (threat : bytes)
  | OpBrowser (e : jobEnv) (req : Request) (resp : Response source)
  | OpCLI (e : jobEnv) (req : Request) (resp : Response source)
  | OpScan (id : bytes)
  | OpCleanup (now : Z).

Definition apply_mop m (o : mop) : Manager C :=
  match o with
  | OpSetConfig cfg => SetConfig cfg m
  | OpLookup url => (LookupURL url m).2
  | OpPreset random now req h st threat => (NewPresetJob random now req h st threat m).2
  | OpBrowser e req resp => (StartBrowserJob e req resp m).2
  | OpCLI e req resp => (StartCLIJob e req resp m).2
  | OpScan id => scanStep id m
  | OpCleanup now => cleanupJobs now m
  end.

(** Every job is registered under its own id and owns its temp path. *)
Definition registered m : Prop :=
  ∀ id job, jobs m !! id = Some job →
    ID job = id ∧ (TempPath job = [] ∨ TempPath job = joinPath (dir m) id).

Lemma joinPath_inj d a b : joinPath d a = joinPath d b → a = b.
Proof. unfold joinPath. intros H'. apply app_inj_1 in H' as [_ H']; [|done]. by simplify_eq/=. Qed.

Lemma registered_store job m :
  TempPath job = [] ∨ TempPath job = joinPath (dir m) (ID job) →
  registered m → registered (storeJob job m).
Proof.
  intros Hp Hm id job'. simpl. rewrite lookup_insert_Some. intros [[<- <-]|[_ Hj]]; [done|by apply Hm].
Qed.

Lemma registered_jobs m m' : jobs m' = jobs m → dir m' = dir m → registered m → registered m'.
Proof. intros Hj Hd Hm id job. rewrite Hj, Hd. apply Hm. Qed.

Lemma goRunScan_jobs env job body saveTail m :
  jobs (goRunScan env job body saveTail m) = jobs m ∧ dir (goRunScan env job body saveTail m) = dir m.
Proof. unfold goRunScan. by destruct (runScan env (OriginalURL job) body saveTail (cache m)). Qed.

Lemma newJob_registered random now ok req h m :
  registered m →
  registered (newJob random now ok req h m).2 ∧ dir (newJob random now ok req h m).2 = dir m ∧
  TempPath (newJob random now ok req h m).1 = joinPath (dir m) (ID (newJob random now ok req h m).1).
Proof.
  intros Hm. split_and!; [|done|done]. apply registered_store; [by right|].
  by apply (registered_jobs m).
Qed.

(** What one tick of the cleanup removes. *)
Lemma cleanup_fold now l m :
  let m' := fold_left (λ m kj, if expired m now kj.2 then removeJob kj.1 kj.2 m else m) l m in
  ttl m' = ttl m ∧ dir m' = dir m ∧ scans m' = scans m ∧
  (∀ id job, jobs m' !! id = Some job ↔
     jobs m !! id = Some job ∧ ∀ job', (id, job') ∈ l → expired m now job' = false) ∧
  (∀ p, p ∈ files m' ↔ p ∈ files m ∧ ∀ id job, (id, job) ∈ l → expired m now job = true → TempPath job ≠ p).
Proof.
  revert m. induction l as [|[k jk] l IH]; intros m; cbv zeta; simpl.
  { split_and!; try done.
    - intros id job. split; [|tauto]. intros Hj. split; [done|]. by intros job' ?%not_elem_of_nil.
    - intros p. split; [|tauto]. intros Hp. split; [done|]. by intros id job ?%not_elem_of_nil. }
  set (m1 := if expired m now jk then removeJob k jk m else m).
  destruct (IH m1) as (Ht & Hd & Hs & Hj & Hf). rewrite Ht, Hd, Hs.
  assert (∀ job, expired m1 now job = expired m now job) as Hexp.
  { intros job. unfold m1. by destruct (expired m now jk). }
  split_and!; try (unfold m1; by destruct (expired m now jk)).
  - intros id job. rewrite Hj. setoid_rewrite Hexp. setoid_rewrite elem_of_cons.
    unfold m1. destruct (expired m now jk) eqn:He; simpl; [rewrite lookup_delete_Some|].
    + split.
      * intros [[Hne Hjob] Hl]. split; [done|]. intros job' [[= -> ->]|Hin]; [done|by apply Hl].
      * intros [Hjob Hl]. split; [split; [|done]|auto].
        intros <-. specialize (Hl jk (or_introl eq_refl)). congruence.
    + split; intros [Hjob Hl]; (split; [done|]); [|auto].
      intros job' [[= -> ->]|Hin]; [done|by apply Hl].
  - intros p. rewrite Hf. setoid_rewrite Hexp. setoid_rewrite elem_of_cons.
    unfold m1. destruct (expired m now jk) eqn:He; simpl; [rewrite elem_of_difference, elem_of_singleton|].
    + split.
      * intros [[Hp Hne] Hl]. split; [done|]. intros id job [[= -> ->]|Hin] Hx; [congruence|by eapply Hl].
      * intros [Hp Hl]. split; [split; [done|]|eauto].
        intros Heq. by apply (Hl k jk (or_introl eq_refl) He).
    + split; intros [Hp Hl]; (split; [done|]); [|eauto].
      intros id job [[= -> ->]|Hin] Hx; [congruence|by eapply Hl].
Qed.

Lemma registered_step m o : registered m → registered (apply_mop m o) ∧ dir (apply_mop m o) = dir m.
Proof.
  intros Hm. destruct o as [cfg|url|random now req h st threat|e req resp|e req resp|id|now]; cbn [apply_mop].
  - by split; [apply (registered_jobs m)|].
  - unfold LookupURL. destruct (cache m) as [c|]; [|done]. destruct (cacheByURL url c).
    by split; [apply (registered_jobs m)|].
  - split; [|done]. apply registered_store; [by left|done].
  - unfold StartBrowserJob.
    destruct (newJob_registered (je_random e) (je_now e) (je_create e) req (HeaderOf resp) m Hm) as (Hr & Hd & _).
    destruct (newJob (je_random e) (je_now e) (je_create e) req (HeaderOf resp) m) as [job m1].
    cbn [fst snd] in *.
    destruct (goRunScan_jobs (je_scan e) job (Body resp) false m1) as [Hj1 Hd1].
    split; [by apply (registered_jobs m1)|congruence].
  - unfold StartCLIJob.
    destruct (newJob_registered (je_random e) (je_now e) (je_create e) req (HeaderOf resp) m Hm) as (Hr & Hd & Hp).
    destruct (newJob (je_random e) (je_now e) (je_create e) req (HeaderOf resp) m) as [job m1].
    cbn [fst snd] in *.
    destruct (goRunScan_jobs (je_scan e) job (Body resp) true m1) as [Hj1 Hd1].
    destruct (_ && _); cbn [snd]; [by split; [apply (registered_jobs m1)|congruence]|].
    split; [|done]. apply registered_store; [|done]. right. simpl. congruence.
  - unfold scanStep. destruct (scans m !! id) as [[|e es]|]; [done| |done]. split; [|done].
    intros id' job. simpl. rewrite lookup_alter_Some. intros [(<- & job0 & Hj & ->)|[_ Hj]]; by apply Hm in Hj.
  - destruct (cleanup_fold now (map_to_list (jobs m)) m) as (_ & Hd & _ & Hj & _).
    split; [|done]. intros id job. unfold cleanupJobs. rewrite Hj, Hd. intros [Hjob _]. by apply Hm.
Qed.

Lemma registered_run ops m : registered m → registered (fold_left apply_mop ops m).
Proof.
  revert m. induction ops as [|o ops IH]; intros m Hm; [done|]. simpl. apply IH. by apply registered_step.
Qed.

(** C38. Cleanup removes exactly the expired jobs: after any history of the
    manager, one tick leaves the jobs within their lifetime registered under
    their ids, with their temp files, and no expired job can be found or
    downloaded any more. *)
Theorem cleanup_exact ops d t mx c now :
  let m := fold_left apply_mop ops (NewManager d t mx c) in
  let m' := cleanupJobs now m in
  (∀ id job, GetJob m' id = Some job ↔ GetJob m id = Some job ∧ expired m now job = false) ∧
  (∀ id job, GetJob m' id = Some job → TempPath job ≠ [] →
     (TempPath job ∈ files m' ↔ TempPath job ∈ files m)) ∧
  (∀ id job o, GetJob m id = Some job → expired m now job = true →
     GetJob m' id = None ∧ ServeFile job o m' = None).
Proof.
  cbv zeta. set (m := fold_left apply_mop ops (NewManager d t mx c)).
  assert (registered m) as Hreg.
  { apply registered_run. intros id job. simpl. by rewrite lookup_empty. }
  destruct (cleanup_fold now (map_to_list (jobs m)) m) as (_ & _ & _ & Hj & Hf).
  assert (∀ id job, GetJob (cleanupJobs now m) id = Some job ↔
            GetJob m id = Some job ∧ expired m now job = false) as Hget.
  { intros id job. unfold GetJob, cleanupJobs. rewrite Hj. setoid_rewrite elem_of_map_to_list.
    split; intros [Hm He]; (split; [done|]); [by apply He|]. intros job' Hm'. congruence. }
  split_and!; [done| |].
  - intros id job [Hm He]%Hget Hp. unfold cleanupJobs. rewrite Hf. split; [tauto|].
    intros Hin. split; [done|]. intros id' job' Hm'%elem_of_map_to_list He' Hpath.
    destruct (Hreg _ _ Hm) as [_ [?|Hp1]]; [done|]. destruct (Hreg _ _ Hm') as [_ [Hp2|Hp2]]; [congruence|].
    rewrite Hp1, Hp2 in Hpath. apply joinPath_inj in Hpath as ->.
    unfold GetJob in Hm. congruence.
  - intros id job o Hm He. split.
    + destruct (GetJob (cleanupJobs now m) id) as [job'|] eqn:Hg; [|done].
      apply Hget in Hg as [Hg He']. congruence.
    + destruct (ServeFile job o (cleanupJobs now m)) as [[hs dt]|] eqn:Hs; [|done].
      apply ServeFile_Some in Hs as (_ & _ & Hin). unfold cleanupJobs in Hin. apply Hf in Hin as [_ Hin].
      exfalso. by apply (Hin id job); [apply elem_of_map_to_list| |].
Qed.
End registry.

(** *** Witness *)

Section witnesses.
#[local] Existing Instance plainHash.

Lemma browser_download_safe_witness :
  let env := ScanEnv true None 9 9 in
  let sc := draining passed in
  let evs := (@runScan sc _ unit (oneHash "x") env "u" exampleBody false (Some tt)).1 in
  let job := MkJobInfo "i" "f" "t" [] "u" "/tmp/i" 0 (apply_events freshJob evs) in
  let m : Manager unit := MkManager "/tmp" 1 9 DefaultScanConfig {[str "i" := job]} (Some tt) {[str "/tmp/i"]} ∅ in
  ∃ hs, ServeFile job true m = Some (hs, str "abcde") ∧ str "abcde" = content exampleBody.
Proof.
  eexists. split; [vm_compute; reflexivity|].
  destruct (@browser_download_safe (draining passed) _ unit (oneHash "x") (ScanEnv true None 9 9) "u"
    exampleBody (Some tt) 9
    (@runScan (draining passed) _ unit (oneHash "x") (ScanEnv true None 9 9) "u" exampleBody false (Some tt)).1 []
    (MkJobInfo "i" "f" "t" [] "u" "/tmp/i" 0
       (apply_events freshJob (@runScan (draining passed) _ unit (oneHash "x") (ScanEnv true None 9 9) "u"
          exampleBody false (Some tt)).1)) true
    (MkManager "/tmp" 1 9 DefaultScanConfig ∅ (Some tt) {[str "/tmp/i"]} ∅)
    [(str "Content-Disposition", "attachment; filename=" ++ [dquote] ++ "f" ++ [dquote]);
     (str "Content-Type", str "t")] (str "abcde")) as (_ & _ & Hc & _);
    [reflexivity|reflexivity|reflexivity|reflexivity|lia| |reflexivity| |].
  - by rewrite app_nil_r.
  - vm_compute. reflexivity.
  - apply Hc. vm_compute. reflexivity.
Defined.
End witnesses.
