(* ===== verification/Endpoint.v ===== *)
(** * The scan endpoints ([internal/scan/endpoint.go])

    The handlers under [/scan/]: the status of a job as JSON, the download of its
    file, and the page that polls the one and links to the other. *)
From S2P Require Import Prelude GoStrings GoIO Clamd Services SyncMap ResultCache ScanJob Trickle.
From S2P Require Import ScanUtil Http Manager.

Definition PathPrefix : bytes := "/scan/".
Definition PathStatus : bytes := PathPrefix ++ "status".
Definition PathDownload : bytes := PathPrefix ++ "download".
Definition PathResult : bytes := PathPrefix ++ "result".

(** ** Quoting *)

(** [strconv.Quote] of text that is not ASCII. *)
Class UnicodeQuote := { unicode_Quote : bytes → bytes }.

Definition backslash : byte := "\"%char.

Definition quoteByte (c : byte) : bytes :=
  let n := byte_val c in
  if decide (c = dquote ∨ c = backslash) then [backslash; c]
  else if ((32 <=? n) && (n <? 127))%N then [c]
  else if (n =? 7)%N then [backslash; "a"%char]
  else if (n =? 8)%N then [backslash; "b"%char]
  else if (n =? 12)%N then [backslash; "f"%char]
  else if (n =? 10)%N then [backslash; "n"%char]
  else if (n =? 13)%N then [backslash; "r"%char]
  else if (n =? 9)%N then [backslash; "t"%char]
  else if (n =? 11)%N then [backslash; "v"%char]
  else [backslash; "x"%char; hex_digit (n / 16); hex_digit (n mod 16)].

Definition Quote `{UnicodeQuote} (s : bytes) : bytes :=
  if forallb is_ascii s then [dquote] ++ concat (map quoteByte s) ++ [dquote] else unicode_Quote s.

(** ** The page *)

(** [scanPageTemplate] between its four verbs, each doubled percent sign read as
    one. *)
Definition scanPage0 : bytes := quotes "<!DOCTYPE html>
<html lang=`ja`>
<head>
  <meta charset=`UTF-8`>
  <title>ファイル解析中 — ".
Definition scanPage1 : bytes := quotes "</title>
  <style>
    *{box-sizing:border-box}
    body{font-family:sans-serif;display:flex;justify-content:center;align-items:center;
         min-height:100vh;margin:0;background:#f0f2f5}
    .card{background:#fff;border-radius:12px;padding:48px 56px;
          box-shadow:0 4px 16px rgba(0,0,0,.1);text-align:center;max-width:540px;width:100%}
    .spinner{width:52px;height:52px;border:5px solid #e0e0e0;border-top-color:#1a73e8;
             border-radius:50%;animation:spin .9s linear infinite;margin:0 auto 20px}
    @keyframes spin{to{transform:rotate(360deg)}}
    h1{font-size:1.3rem;margin:0 0 10px;color:#202124}
    .sub{color:#5f6368;font-size:.95rem;margin:0}
    .filename{color:#3c4043;font-size:.9rem;font-weight:500;margin:0 0 8px;word-break:break-all}
    .btn{display:inline-block;margin-top:24px;padding:11px 28px;background:#1a73e8;
         color:#fff;border-radius:6px;text-decoration:none;font-size:1rem;font-weight:500}
    .btn:hover{background:#1558b0}
    .threat{color:#d93025;font-weight:500}
    .icon{font-size:2.5rem;margin-bottom:12px}
  </style>
</head>
<body>
<div class=`card` id=`card`>
  <div class=`spinner` id=`spinner`></div>
  <h1 id=`title`>ファイルを解析中...</h1>
  <p class=`filename` id=`filename`></p>
  <p class=`sub` id=`msg`>ウイルススキャンが完了するまでお待ちください。</p>
</div>
<script>
(function(){
  var statusURL  = ".
Definition scanPage2 : bytes := quotes ";
  var downloadURL = ".
Definition scanPage3 : bytes := quotes ";
  var filename   = ".
Definition scanPage4 : bytes := quotes ";

  document.getElementById('filename').textContent = filename;

  function poll() {
    fetch(statusURL)
      .then(function(r){ return r.json(); })
      .then(function(data){
        if (data.status === 'clean') {
          document.getElementById('spinner').style.display = 'none';
          document.getElementById('title').textContent = '解析完了';
          document.getElementById('msg').innerHTML =
            '<a class=`btn` href=`' + downloadURL + '` download=`' + filename + '`>ダウンロード</a>';
        } else if (data.status === 'infected') {
          document.getElementById('spinner').style.display = 'none';
          document.getElementById('card').insertAdjacentHTML(
            'afterbegin', '<div class=`icon`>⛔</div>');
          document.getElementById('title').textContent = '脅威を検出しました';
          document.getElementById('msg').innerHTML =
            '<span class=`threat`>検出: ' + data.threat + '</span><br>' +
            '<span>このファイルはダウンロードできません。</span>';
        } else if (data.status === 'error') {
          document.getElementById('spinner').style.display = 'none';
          document.getElementById('title').textContent = 'スキャン不可';
          document.getElementById('msg').innerHTML =
            'スキャンをスキップしました。<br>' +
            '<a class=`btn` href=`' + downloadURL + '` download=`' + filename + '`>ダウンロード</a>';
        } else if (data.status === 'toobig') {
          document.getElementById('spinner').style.display = 'none';
          document.getElementById('card').insertAdjacentHTML(
            'afterbegin', '<div class=`icon`>⚠️</div>');
          document.getElementById('title').textContent = 'ファイルが大きすぎます';
          document.getElementById('msg').textContent =
            'ファイルが大きすぎてスキャンできません。';
        } else {
          setTimeout(poll, 2000);
        }
      })
      .catch(function(){ setTimeout(poll, 3000); });
  }
  poll();
})();
</script>
</body>
</html>".

Definition scanPageTemplate (a b c d : bytes) : bytes :=
  scanPage0 ++ a ++ scanPage1 ++ b ++ scanPage2 ++ c ++ scanPage3 ++ d ++ scanPage4.

Definition RenderScanPage `{UnicodeQuote} (jobID filename : bytes) : bytes :=
  let statusURL := PathStatus ++ "?id=" ++ jobID in
  let downloadURL := PathDownload ++ "?id=" ++ jobID in
  scanPageTemplate filename (Quote statusURL) (Quote downloadURL) (Quote filename).

(** ** Handlers *)

(** The JSON object of [handleStatus]. *)
Record statusResp := MkStatusResp { sr_Status : bytes; sr_Threat : bytes }.

Section handlers.
Context `{Scanner, SHA256, VerdictCache C, JSON statusResp, UnicodeQuote}.
Implicit Types m : Manager C.

Definition statusOf (job : Job) : statusResp :=
  match job_status (state job) with
  | StatusPending => MkStatusResp "pending" []
  | StatusScanning => MkStatusResp "scanning" []
  | StatusClean => MkStatusResp "clean" []
  | StatusInfected => MkStatusResp "infected" (job_threat (state job))
  | StatusTooLarge => MkStatusResp "toobig" []
  | _ => MkStatusResp "error" []
  end.

Definition handleStatus m (r : Request) : Reply :=
  match GetJob m (queryGet (u_RawQuery (r_URL r)) "id") with
  | None => notFound
  | Some job =>
      MkReply 200 [(str "Content-Type", str "application/json")] (marshal (statusOf job) ++ [LF])
  end.

(** The text of the refusal, in the bytes of the UTF-8 source. *)
Definition handleDownload m (open_ok : bool) (r : Request) : Reply :=
  match GetJob m (queryGet (u_RawQuery (r_URL r)) "id") with
  | None => notFound
  | Some job =>
      match ServeFile job open_ok m with
      | Some (hs, d) => MkReply 200 hs d
      | None => httpError "ファイルは利用できません" 403
      end
  end.

Definition handleResult m (r : Request) : Reply :=
  match GetJob m (queryGet (u_RawQuery (r_URL r)) "id") with
  | None => notFound
  | Some job =>
      MkReply 200 [(str "Content-Type", str "text/html; charset=utf-8")]
        (RenderScanPage (ID job) (Filename job))
  end.

Definition scanServeHTTP m (open_ok : bool) (r : Request) : Reply :=
  if decide (r_Method r = "OPTIONS") then MkReply 204 [] []
  else if decide (u_Path (r_URL r) = PathStatus) then handleStatus m r
  else if decide (u_Path (r_URL r) = PathDownload) then handleDownload m open_ok r
  else if decide (u_Path (r_URL r) = PathResult) then handleResult m r
  else notFound.
End handlers.

(** ** Properties *)

(** A query made of one hexadecimal id reads back as that id. *)
Lemma queryUnescape_plain s :
  forallb (λ c, negb (bool_decide (c = "+"%char)) && negb (bool_decide (c = "%"%char))) s = true →
  queryUnescape s = Some s.
Proof.
  induction s as [|c s IH]; [done|]. simpl. intros [Hc Hs]%andb_true_iff.
  apply andb_true_iff in Hc as [H1 H2]. apply negb_true_iff, bool_decide_eq_false in H1, H2.
  rewrite !decide_False by done. by rewrite IH.
Qed.

Definition plainByte (c : byte) : bool :=
  forallb (λ d, negb (bool_decide (c = d))) ["+"%char; "%"%char; "&"%char; ";"%char; "="%char].

Lemma queryGet_id v : forallb plainByte v = true → queryGet ("id=" ++ v) "id" = v.
Proof.
  intros Hv. assert (∀ d, d ∈ ["+"%char; "%"%char; "&"%char; ";"%char; "="%char] → d ∉ v) as Hn.
  { intros d Hd Hin. rewrite forallb_forall in Hv. apply list_elem_of_In, Hv in Hin.
    unfold plainByte in Hin. rewrite forallb_forall in Hin. apply list_elem_of_In, Hin in Hd.
    by rewrite bool_decide_eq_true_2 in Hd. }
  unfold queryGet. rewrite Split_no_sep.
  2: { rewrite elem_of_app. intros [Hin|Hin].
       - revert Hin. decide_closed.
       - revert Hin. apply Hn. decide_closed. }
  cbn [omap list_omap]. rewrite decide_False by done. unfold queryPair.
  assert (Contains ("id=" ++ v) ";" = false) as ->.
  { apply not_true_iff_false. intros (a & b & Hab)%Contains_spec.
    assert (";"%char ∈ "id=" ++ v) as Hin.
    { rewrite Hab. rewrite elem_of_app. right. constructor. }
    rewrite elem_of_app in Hin. destruct Hin as [Hin|Hin]; revert Hin; [decide_closed|].
    apply Hn. decide_closed. }
  change ("id=" ++ v) with ("id" ++ "="%char :: v). rewrite IndexByte_app by decide_closed.
  rewrite take_app_length, drop_app_ge by lia.
  replace (S (length (str "id")) - length (str "id"))%nat with 1%nat by done. cbn [drop].
  rewrite (queryUnescape_plain "id") by done. cbn [mbind option_bind].
  rewrite queryUnescape_plain; [done|].
  rewrite forallb_forall. intros c Hc. apply list_elem_of_In in Hc.
  apply andb_true_iff. split; apply negb_true_iff, bool_decide_eq_false; intros ->.
  - revert Hc. apply Hn. decide_closed.
  - revert Hc. apply Hn. decide_closed.
Qed.

Lemma hex_plain s : forallb plainByte (hex s) = true.
Proof.
  unfold hex. induction s as [|c s IH]; [done|]. cbn [map concat]. rewrite forallb_app, IH, andb_true_r.
  assert (∀ n, (n < 16)%N → plainByte (hex_digit n) = true) as Hd.
  { intros n Hn.
    assert (∀ k, (k < 16)%nat → plainByte (hex_digit (N.of_nat k)) = true) as Hk.
    { intros k Hk. do 16 (destruct k as [|k]; [reflexivity|]). lia. }
    specialize (Hk (N.to_nat n)). rewrite N2Nat.id in Hk. apply Hk. lia. }
  simpl. rewrite !Hd; [done| |].
  - apply N.mod_lt. lia.
  - apply N.Div0.div_lt_upper_bound. apply (N_ascii_bounded c).
Qed.

Section endpoint_spec.
Context `{Scanner, SHA256, VerdictCache C, JSON statusResp, UnicodeQuote}.
Implicit Types m : Manager C.

(** The result page is open to script injection: the file name comes from
    the upstream's Content-Disposition and is put into the title of the page, on
    the proxy's own origin, exactly as the upstream sent it. *)
Theorem scan_page_injects m id path now req h j r disp payload :
  ";"%char ∉ disp → filenameParam [disp] = None → ";"%char ∉ payload →
  hget h "Content-Disposition" = disp ++ "; filename=" ++ dquote :: payload ++ [dquote] →
  GetJob m id = Some (makeJob id path now req h j) →
  queryGet (u_RawQuery (r_URL r)) "id" = id →
  ∃ rest, rep_body (handleResult m r) = scanPage0 ++ payload ++ rest ∧
          rep_header (handleResult m r) = [(str "Content-Type", str "text/html; charset=utf-8")].
Proof.
  intros Hd Hnone Hp Hcd Hjob Hid. unfold handleResult. rewrite Hid, Hjob.
  cbn [rep_body rep_header]. unfold makeJob. cbn [ID Filename]. rewrite Hcd, filenameFrom_quoted by done.
  eexists. split; [|done]. unfold RenderScanPage, scanPageTemplate. reflexivity.
Qed.
End endpoint_spec.

(** *** Witness *)

Section witnesses.
#[local] Existing Instance plainHash.
#[local] Instance plainQuote : UnicodeQuote := {| unicode_Quote s := s |}.
#[local] Instance plainStatus : JSON statusResp := {| marshal r := sr_Status r; unmarshal _ := None |}.

Definition evilName : bytes := "</title><script>alert(1)</script>".
Definition evilHeader : Header :=
  [(str "Content-Disposition", ["attachment; filename=" ++ [dquote] ++ evilName ++ [dquote]])].
Definition resultRequest (id : bytes) : Request :=
  MkRequest "GET" (MkURL "http" "proxy.invalid" PathResult ("id=" ++ id) []) "proxy.invalid" [] [] false.
Definition evilJob : Job := makeJob "id" "/tmp/id" 0 (resultRequest "x") evilHeader freshJob.

Lemma scan_page_injects_witness :
  ∃ rest, rep_body (@handleResult unit _ (storeJob evilJob (NewManager "/tmp" 1 1 None)) (resultRequest "id")) =
          scanPage0 ++ evilName ++ rest.
Proof.
  destruct (@scan_page_injects unit _ (storeJob evilJob (NewManager "/tmp" 1 1 None)) "id" "/tmp/id" 0
    (resultRequest "x") evilHeader freshJob (resultRequest "id") "attachment" evilName) as (rest & Hr & _);
    [decide_closed|reflexivity|decide_closed|reflexivity|reflexivity|reflexivity|].
  exists rest. exact Hr.
Defined.
End witnesses.
