(* ===== verification/ScanTransport.v ===== *)
(** * Transports ([internal/proxy/timed_transport.go], [scantransport.go])

    The transport that measures responses, and the one that diverts scannable
    downloads to the scan manager: what is passed through, what is redirected to
    the scan page, and what is trickled. *)
From S2P Require Import Prelude GoStrings GoIO Clamd ScanConfig ScanUtil Services SyncMap ResultCache.
From S2P Require Import ScanJob Trickle Http Blocklist Logger Tunnel Manager Endpoint.

(** ** [timedTransport] *)

(** [requestMeta], the part filled in by the transport. *)
Record requestMeta := MkMeta { statusCode : Z; bytesSent : Z; contentType : bytes }.

(** [countingReadCloser] on a body, with the counter of its metadata. *)
Record counting (B : Type) := Counting { c_body : B; c_sent : Z }.
Arguments Counting {B}.
Arguments c_body {B}.
Arguments c_sent {B}.

#[export] Program Instance counting_reader `{IOReader B} : IOReader (counting B) := {|
  Read k c := let '(b, e, r) := Read k (c_body c) in (b, e, Counting r (c_sent c + Z.of_nat (length b))%Z);
  unread c := unread (c_body c);
|}.
Next Obligation.
  intros B HB k c. cbn beta. pose proof (Read_length k (c_body c)). by destruct (Read k (c_body c)) as [[??]?].
Qed.
Next Obligation.
  intros B HB k c Hk. cbn beta. pose proof (Read_unread k (c_body c) Hk).
  by destruct (Read k (c_body c)) as [[??]?].
Qed.
Next Obligation.
  intros B HB k c. cbn beta. pose proof (Read_unread_le k (c_body c)).
  by destruct (Read k (c_body c)) as [[??]?].
Qed.

(** A body with or without the counter. *)
Definition timedBody (B : Type) : Type := counting B + B.

Definition mapBody {B B'} (f : B → B') (r : Response B) : Response B' :=
  MkResponse (StatusCode r) (Status r) (ProtoMajor r) (ProtoMinor r) (HeaderOf r) (f (Body r))
    (ContentLength r) (CloseAfter r).

(** [timedTransport.RoundTrip] on the answer of the base transport; the request
    may carry metadata. *)
Definition timedRoundTrip {B} (base : option (Response B)) (meta : option requestMeta)
  : option (Response (timedBody B)) * option requestMeta :=
  match base with
  | None => (None, meta)
  | Some resp =>
      match meta with
      | None => (Some (mapBody inr resp), None)
      | Some mt =>
          let mt := MkMeta (StatusCode resp) (bytesSent mt) (hget (HeaderOf resp) "Content-Type") in
          if (StatusCode resp =? 101)%Z then (Some (mapBody inr resp), Some mt)
          else (Some (mapBody (λ b, inl (Counting b (bytesSent mt))) resp), Some mt)
      end
  end.

(** The counter counts exactly the bytes handed on. *)
Lemma counting_counts `{IOReader B} (c c' : counting B) cs e :
  reads c cs e c' →
  reads (c_body c) cs e (c_body c') ∧ c_sent c' = (c_sent c + Z.of_nat (length (concat cs)))%Z.
Proof.
  induction 1 as [c|k c b e c' Hk Hr|k c b c1 cs e c2 Hk Hr _ [IH1 IH2]].
  - split; [constructor|simpl; lia].
  - simpl in Hr. destruct (Read k (c_body c)) as [[b' e'] r] eqn:Hb. simplify_eq. simpl.
    rewrite app_nil_r. split; [by eapply reads_last|done].
  - simpl in Hr. destruct (Read k (c_body c)) as [[b' e'] r] eqn:Hb. simplify_eq. simpl in *.
    rewrite length_app. split; [by eapply reads_cons|lia].
Qed.

(** ** [scanTransport] *)

Definition magicHost : bytes := "proxy.invalid".

(** The bodies it returns. *)
Inductive scanBody :=
  | NoBody
  | Upstream (b : source)
  | Trickling (id : bytes) (t : TrickleBody).

(** [isBrowserRequest]. *)
Definition isBrowserRequest (r : Request) : bool := Contains (hget (r_Header r) "Accept") "text/html".

Definition scanLocation (jobID : bytes) : bytes :=
  "http://" ++ magicHost ++ PathResult ++ "?id=" ++ jobID.

Definition scanRedirectResponse (jobID : bytes) : Response scanBody :=
  MkResponse 302 [] 1 1 (hset [] "Location" (scanLocation jobID)) NoBody 0 false.

Section transport.
Context `{Unicode, Scanner, SHA256, VerdictCache C}.
Implicit Types m : Manager C.

Definition handleBrowser (e : jobEnv) (req : Request) (resp : Response source) m
  : Response scanBody * Manager C :=
  let '(job, m) := StartBrowserJob e req resp m in
  let synth := scanRedirectResponse (ID job) in
  (MkResponse (StatusCode synth) (Status synth) (ProtoMajor synth) (ProtoMinor synth)
     (hset (HeaderOf synth) "X-Proxy-Scan" ("pending:" ++ ID job)) (Body synth) (ContentLength synth)
     (CloseAfter synth), m).

Definition handleCLI (e : jobEnv) (req : Request) (resp : Response source) m
  : Response scanBody * Manager C :=
  let '(job, t, m) := StartCLIJob e req resp m in
  (MkResponse (StatusCode resp) [] (ProtoMajor resp) (ProtoMinor resp)
     (hdel (HeaderOf resp) "Content-Length") (Trickling (ID job) t) (-1) false, m).

(** [RoundTrip] on the answer of the next transport. *)
Definition scanRoundTrip (e : jobEnv) (req : Request) (next : option (Response source)) m
  : option (Response scanBody) * Manager C :=
  match next with
  | None => (None, m)
  | Some resp =>
      let ct := hget (HeaderOf resp) "Content-Type" in
      if negb (IsScannable (config m) ct) then (Some (mapBody Upstream resp), m)
      else if (maxSize m <? ContentLength resp)%Z then (Some (mapBody Upstream resp), m)
      else
        let scan m :=
          let '(r, m) := if isBrowserRequest req then handleBrowser e req resp m
                         else handleCLI e req resp m in
          (Some r, m) in
        let '(hit, m) := LookupURL (urlString (r_URL req)) m in
        match hit with
        | Some (StatusClean, _) => (Some (mapBody Upstream resp), m)
        | Some (StatusInfected, threat) =>
            let '(job, m) := NewPresetJob (je_random e) (je_now e) req (HeaderOf resp) StatusInfected threat m in
            (Some (scanRedirectResponse (ID job)), m)
        | _ => scan m
        end
  end.
End transport.

(** ** Properties *)

Section transport_spec.
Context `{Unicode, Scanner, SHA256, VerdictCache C}.
Implicit Types m : Manager C.

(** A job started in [m'] with its scan running. *)
Definition started m' (id : bytes) (body : source) (saveTail : bool) : Prop :=
  ∃ job env oc, GetJob m' id = Some job ∧ ID job = id ∧ state job = freshJob ∧
    scans m' !! id = Some (runScan env (OriginalURL job) body saveTail oc).1.

Lemma StartBrowserJob_started e req resp m :
  started (StartBrowserJob e req resp m).2 (ID (StartBrowserJob e req resp m).1) (Body resp) false.
Proof.
  unfold StartBrowserJob, newJob. cbn [fst snd].
  set (job := makeJob _ _ _ _ _ _). set (m1 := storeJob job _).
  unfold started, goRunScan. exists job, (je_scan e), (cache m1).
  destruct (runScan (je_scan e) (OriginalURL job) (Body resp) false (cache m1)) as [evs c'].
  unfold GetJob. simpl. by rewrite !lookup_insert_eq.
Qed.

Lemma StartCLIJob_started e req resp m :
  let '(job, t, m') := StartCLIJob e req resp m in
  (t = newTrickle ∧ started m' (ID job) (Body resp) true) ∨ t = fallbackTrickle (Body resp).
Proof.
  unfold StartCLIJob, newJob.
  set (job := makeJob _ _ _ _ _ _). set (m1 := storeJob job _).
  destruct (_ && _); [left|by right]. split; [done|].
  unfold started, goRunScan. exists job, (je_scan e), (cache m1).
  destruct (runScan (je_scan e) (OriginalURL job) (Body resp) true (cache m1)) as [evs c'].
  unfold GetJob. simpl. by rewrite !lookup_insert_eq.
Qed.

Lemma LookupURL_same url m :
  config (LookupURL url m).2 = config m ∧ maxSize (LookupURL url m).2 = maxSize m ∧
  (cache m = None → (LookupURL url m).1 = None).
Proof. unfold LookupURL. destruct (cache m) as [c|]; [by destruct (cacheByURL url c)|done]. Qed.

Lemma scanRoundTrip_cases e req (resp : Response source) m r m' :
  scanRoundTrip e req (Some resp) m = (Some r, m') →
  let hit := (LookupURL (urlString (r_URL req)) m).1 in
  match Body r with
  | Upstream b =>
      r = mapBody Upstream resp ∧
      (IsScannable (config m) (hget (HeaderOf resp) "Content-Type") = false ∨
       (maxSize m < ContentLength resp)%Z ∨ ∃ t, hit = Some (StatusClean, t))
  | NoBody =>
      StatusCode r = 302%Z ∧ ContentLength r = 0%Z ∧
      let id := newID (je_random e) in
      ∃ job, hget (HeaderOf r) "Location" = scanLocation id ∧ GetJob m' id = Some job ∧ ID job = id ∧
        ((∃ t, hit = Some (StatusInfected, t) ∧ job_status (state job) = StatusInfected ∧
               job_threat (state job) = t) ∨
         (isBrowserRequest req = true ∧ started m' id (Body resp) false))
  | Trickling id t =>
      isBrowserRequest req = false ∧ ContentLength r = (-1)%Z ∧
      hget (HeaderOf r) "Content-Length" = [] ∧
      ((t = newTrickle ∧ started m' id (Body resp) true) ∨ t = fallbackTrickle (Body resp))
  end.
Proof.
  unfold scanRoundTrip. intros Hrt. cbv zeta.
  destruct (IsScannable (config m) (hget (HeaderOf resp) "Content-Type")) eqn:Hsc; simpl in Hrt.
  2: { injection Hrt as <- <-. simpl. auto. }
  destruct (Z.ltb_spec (maxSize m) (ContentLength resp)) as [Hlt|Hle].
  { injection Hrt as <- <-. simpl. auto. }
  destruct (LookupURL (urlString (r_URL req)) m) as [hit m1]. simpl.
  assert ((let '(r, m2) := if isBrowserRequest req then handleBrowser e req resp m1
                           else handleCLI e req resp m1 in (Some r, m2)) = (Some r, m') →
    match Body r with
    | Upstream _ => False
    | NoBody => StatusCode r = 302%Z ∧ ContentLength r = 0%Z ∧ isBrowserRequest req = true ∧
        let id := newID (je_random e) in
        hget (HeaderOf r) "Location" = scanLocation id ∧ started m' id (Body resp) false
    | Trickling id t => isBrowserRequest req = false ∧ ContentLength r = (-1)%Z ∧
        hget (HeaderOf r) "Content-Length" = [] ∧
        ((t = newTrickle ∧ started m' id (Body resp) true) ∨ t = fallbackTrickle (Body resp))
    end) as Hscan.
  { destruct (isBrowserRequest req).
    - unfold handleBrowser. pose proof (StartBrowserJob_started e req resp m1) as Hst.
      assert (ID (StartBrowserJob e req resp m1).1 = newID (je_random e)) as Hid by done.
      destruct (StartBrowserJob e req resp m1) as [job m2]. intros [= <- <-]. cbn [fst snd] in Hst, Hid.
      rewrite Hid in *. simpl. split_and!; [done|done|done|reflexivity|done].
    - unfold handleCLI. pose proof (StartCLIJob_started e req resp m1) as Hst.
      destruct (StartCLIJob e req resp m1) as [[job t] m2]. intros [= <- <-]. cbn.
      split_and!; [done|done|apply hget_del_eq|done]. }
  assert (∀ id, started m' id (Body resp) false → ∃ job, GetJob m' id = Some job ∧ ID job = id) as Hjob.
  { intros id (job & env & oc & Hj & Hi & _). by exists job. }
  destruct hit as [[[] threat]|]; try (apply Hscan in Hrt; destruct (Body r); [|done|done];
    destruct Hrt as (? & ? & ? & ? & Hst); destruct (Hjob _ Hst) as (job & ? & ?); by eauto 10).
  - injection Hrt as <- <-. simpl. eauto.
  - unfold NewPresetJob in Hrt. injection Hrt as <- <-. simpl. split_and!; [done|done|].
    eexists. split; [done|]. split; [unfold GetJob; simpl; by rewrite lookup_insert_eq|].
    split; [done|]. left. by exists threat.
Qed.

(** C4. Complete mediation of downloads: a response body reaches the client
    directly only if its type is not configured for scanning, it is announced as
    larger than the limit, or its URL is known to be clean; every other response
    is replaced, either by an empty redirect to the page of a job that is
    registered, already infected or being scanned, or, for clients that are not
    browsers, by the trickling body of a scan that has been started (or of the
    body itself when there is no temp file). *)
Theorem scan_mediation e req (resp : Response source) m r m' :
  scanRoundTrip e req (Some resp) m = (Some r, m') →
  let hit := (LookupURL (urlString (r_URL req)) m).1 in
  match Body r with
  | Upstream b =>
      r = mapBody Upstream resp ∧
      (IsScannable (config m) (hget (HeaderOf resp) "Content-Type") = false ∨
       (maxSize m < ContentLength resp)%Z ∨ ∃ t, hit = Some (StatusClean, t))
  | NoBody =>
      StatusCode r = 302%Z ∧ ContentLength r = 0%Z ∧
      let id := newID (je_random e) in
      ∃ job, hget (HeaderOf r) "Location" = scanLocation id ∧ GetJob m' id = Some job ∧ ID job = id ∧
        ((∃ t, hit = Some (StatusInfected, t) ∧ job_status (state job) = StatusInfected ∧
               job_threat (state job) = t) ∨
         (isBrowserRequest req = true ∧ started m' id (Body resp) false))
  | Trickling id t =>
      isBrowserRequest req = false ∧ ContentLength r = (-1)%Z ∧
      hget (HeaderOf r) "Content-Length" = [] ∧
      ((t = newTrickle ∧ started m' id (Body resp) true) ∨ t = fallbackTrickle (Body resp))
  end.
Proof. apply scanRoundTrip_cases. Qed.
End transport_spec.

(** *** The trickling body in a tunnel *)

(** What the loop of a tunnel reads from a trickling body: the results of its
    calls so far, and then an error. *)
Definition trickled (t : TrickleBody) : source := Source (fst <$> returned t) Failure false.

(** The response of [handleCLI] with the body as it was read. *)
Definition relayed (r : Response scanBody) (t : TrickleBody) : Response source :=
  mapBody (λ _, trickled t) r.

Lemma responseOk_hdel {B B'} (resp : Response B) k (b : B') n :
  responseOk resp →
  responseOk (MkResponse (StatusCode resp) [] (ProtoMajor resp) (ProtoMinor resp)
                (hdel (HeaderOf resp) k) b n false).
Proof.
  intros (Hc & Hc' & _ & Hh). split_and!; [done|done|apply not_elem_of_nil|]. unfold hdel. simpl.
  rewrite Forall_forall in Hh. apply Forall_forall. intros kvs [_ Hin]%list_elem_of_filter. by apply Hh.
Qed.

(** A client in a TLS tunnel cannot tell that an infected download was cut
    off: the trickled bytes and the abort of the body come out of the tunnel as
    a complete, well-terminated response whose content is the bytes delivered
    before the verdict, a prefix of the infected file. *)
Theorem tunnel_hides_abort `{Scanner, SHA256, VerdictCache C} (e : jobEnv) req (resp : Response source)
    (m m' : Manager C) r s rest :
  handleCLI e req resp m = (r, m') → responseOk resp → bodyless (r_Method req) (StatusCode resp) = false →
  let evs := (runScan (je_scan e) (urlString (r_URL req)) (Body resp) true (cache m)).1 in
  rtc sys_step (startCLI evs) s → (∃ b, (b, Some errVirusDetected) ∈ returned (s_body s)) →
  let r := relayed r (s_body s) in
  readResponse (r_Method req) (written_bytes (loopWrite (Sink [] None) r) ++ rest) =
    Some (statusLine r, forwarded (HeaderOf r) ++ framing r, delivered (s_body s), rest) ∧
  delivered (s_body s) `prefix_of` allBytes (apply_events freshJob evs).
Proof.
  intros Hr Hok Hb evs Hs _. cbv zeta. split.
  - unfold handleCLI in Hr. destruct (StartCLIJob e req resp m) as [[job t] m1].
    injection Hr as <- _. unfold relayed, mapBody. cbn [StatusCode Status ProtoMajor ProtoMinor HeaderOf ContentLength CloseAfter Body].
    match goal with |- context [loopWrite _ ?x] => destruct (loopWrite_readback (r_Method req) x rest) as [-> _] end;
      [by apply responseOk_hdel| |done]. unfold framedOk. cbn [StatusCode ContentLength CloseAfter]. rewrite Hb.
    split; [lia|done].
  - destruct (startCLI_ok (je_scan e) (urlString (r_URL req)) (Body resp) true (cache m) s Hs)
      as (r' & _ & _ & _ & Hbody).
    by eapply dataOk_prefix, ok_data.
Qed.

(** The body of the answer to HEAD is given an unknown length by [handleCLI], even
    where the upstream announced one, so in a tunnel it puts the connection out of
    step. *)
Theorem cli_bodyless_desync `{Scanner, SHA256, VerdictCache C} (e : jobEnv) req (resp : Response source)
    (m m' : Manager C) r t rest :
  handleCLI e req resp m = (r, m') → responseOk resp → bodyless (r_Method req) (StatusCode resp) = true →
  delivered t = [] →
  readResponse (r_Method req) (written_bytes (loopWrite (Sink [] None) (relayed r t)) ++ rest) =
    Some (statusLine (relayed r t), forwarded (HeaderOf r) ++ framing (relayed r t), [], lastChunk ++ rest).
Proof.
  intros Hr Hok Hb Hnil. unfold handleCLI in Hr. destruct (StartCLIJob e req resp m) as [[job t0] m1].
  injection Hr as <- _. unfold relayed, mapBody. cbn [StatusCode Status ProtoMajor ProtoMinor HeaderOf ContentLength CloseAfter Body].
  match goal with |- context [loopWrite _ ?x] => apply (loopWrite_bodyless_desync (r_Method req) x rest) end;
    [by apply responseOk_hdel|done|done|exact Hnil].
Qed.

(** *** Witnesses *)

Section witnesses.
#[local] Existing Instance plainHash.
#[local] Instance asciiLower : Unicode := {| unicode_ToLower s := map lower_byte s |}.
#[local] Instance drainingScanner : Scanner := draining passed.
#[local] Instance emptyCache : VerdictCache unit := oneHash "x".

Definition zipResponse : Response source :=
  MkResponse 200 "200 OK" 1 1 [(str "Content-Type", [str "application/zip"])] exampleBody 5 false.
Definition exampleJobEnv : jobEnv := JobEnv "0123456789abcdef" 7 true true infectedEnv.
Definition browserRequest : Request :=
  MkRequest "GET" (MkURL "http" "good.com" "/a.zip" [] "/a.zip") "good.com"
    [(str "Accept", [str "text/html,*/*"])] "10.0.0.1:4444" false.
Definition exampleManager : Manager unit := NewManager "/tmp" 3600 9 (Some tt).

(** The redirect the browser gets, and the manager afterwards. *)
Definition exampleRedirect : Response scanBody * Manager unit :=
  let p := scanRoundTrip exampleJobEnv browserRequest (Some zipResponse) exampleManager in
  (default (scanRedirectResponse []) p.1, p.2).

Lemma scan_mediation_witness :
  Body exampleRedirect.1 = NoBody ∧
  ∃ id, hget (HeaderOf exampleRedirect.1) "Location" = scanLocation id ∧ is_Some (GetJob exampleRedirect.2 id).
Proof.
  assert (scanRoundTrip exampleJobEnv browserRequest (Some zipResponse) exampleManager =
          (Some exampleRedirect.1, exampleRedirect.2)) as Hrt by (vm_compute; reflexivity).
  assert (Body exampleRedirect.1 = NoBody) as Hb by (vm_compute; reflexivity).
  split; [exact Hb|].
  pose proof (scan_mediation exampleJobEnv browserRequest zipResponse exampleManager _ _ Hrt) as Hm.
  cbv zeta in Hm. rewrite Hb in Hm. destruct Hm as (_ & _ & job & Hloc & Hjob & _).
  exists (newID (je_random exampleJobEnv)). split; [exact Hloc|]. exists job. exact Hjob.
Defined.

(** An infected download of a client that is not a browser. *)
Definition cliRequest : Request :=
  MkRequest "GET" (MkURL "https" "bad.com" "/a.zip" [] "/a.zip") "bad.com" [] "10.0.0.1:4444" false.
Definition plainManager : Manager unit := NewManager "/tmp" 3600 9 None.

Lemma zipResponse_ok : responseOk zipResponse.
Proof.
  split_and!; [done|done|decide_closed|].
  repeat constructor; try (decide_closed); apply keyOk_by; reflexivity || decide_closed.
Defined.

Lemma tunnel_hides_abort_witness :
  let r := @handleCLI infectedScanner plainHash unit emptyCache exampleJobEnv cliRequest zipResponse plainManager in
  let relay := relayed r.1 (s_body (reached (startCLI infectedScan) infectedSchedule)) in
  readResponse "GET" (written_bytes (loopWrite (Sink [] None) relay) ++ []) =
    Some (statusLine relay, forwarded (HeaderOf relay) ++ framing relay, str "a", []).
Proof.
  cbv zeta.
  assert (rtc sys_step (startCLI infectedScan) (reached (startCLI infectedScan) infectedSchedule)) as Hs.
  { apply reached_steps. eexists. vm_compute. reflexivity. }
  assert (returned (s_body (reached (startCLI infectedScan) infectedSchedule)) =
          [(str "a", None); ([], Some errVirusDetected)]) as Hret by (vm_compute; reflexivity).
  refine (eq_trans (proj1 (@tunnel_hides_abort infectedScanner plainHash unit emptyCache exampleJobEnv cliRequest
    zipResponse plainManager _ _ _ [] (surjective_pairing _) zipResponse_ok eq_refl Hs _)) _).
  - exists []. rewrite Hret. right. constructor.
  - unfold delivered. rewrite Hret. reflexivity.
Defined.
End witnesses.
