(* ===== verification/Server.v ===== *)
(** * The proxy's request handler ([internal/proxy/handler.go], [magichost.go])

    Which requests are tunnels, which are answered by the proxy itself, and
    which are forwarded; with the requests handed to the reverse proxy. *)
From S2P Require Import Prelude GoStrings GoIO Clamd ScanConfig ScanUtil Services SyncMap ResultCache.
From S2P Require Import ScanJob Trickle Http Blocklist Logger Tunnel Manager Endpoint ScanTransport.

(** The server: the blocklist in force, whether there is a sender, the PAC file
    and the CA certificate in its two encodings, and the manager behind the scan
    handler when scanning is enabled. *)
Record Server (C : Type) := MkServer {
  blocklist : option Blocklist;
  sender : bool;
  pacContent : option bytes;
  caCertPEM : bytes;
  caCertDER : bytes;
  manager : option (Manager C);
}.
Arguments MkServer {C}.
Arguments blocklist {C}.
Arguments sender {C}.
Arguments pacContent {C}.
Arguments caCertPEM {C}.
Arguments caCertDER {C}.
Arguments manager {C}.

(** What becomes of a request: a tunnel to its host, a reply of the proxy with
    the log records, or a request handed to [handlePlain]. *)
Inductive outcome :=
  | Connect (host : bytes)
  | Replied (rep : Reply) (log : list AccessRecord)
  | Forwarded (r : Request).

Section server.
Context `{Unicode, Scanner, SHA256, VerdictCache C, JSON statusResp, UnicodeQuote}.
Implicit Types s : Server C.

Definition serveCertPEM s : Reply :=
  MkReply 200 [(str "Content-Type", str "application/x-pem-file");
               (str "Content-Disposition",
                "attachment; filename=" ++ [dquote] ++ "proxy-ca.pem" ++ [dquote])] (caCertPEM s).

Definition serveCertDER s : Reply :=
  MkReply 200 [(str "Content-Type", str "application/x-x509-ca-cert");
               (str "Content-Disposition",
                "attachment; filename=" ++ [dquote] ++ "proxy-ca.crt" ++ [dquote])] (caCertDER s).

(** The scan handler, or [http.NotFoundHandler] without a manager. *)
Definition scanHandler s (open_ok : bool) (r : Request) : Reply :=
  match manager s with Some m => scanServeHTTP m open_ok r | None => notFound end.

Definition serveMagicHost s (open_ok : bool) (r : Request) : Reply :=
  let path := u_Path (r_URL r) in
  if HasPrefix path PathPrefix then scanHandler s open_ok r
  else if decide (path = "/cert.pem") then serveCertPEM s
  else if decide (path = "/cert.crt") then serveCertDER s
  else notFound.

Definition serveBlockedPage (host : bytes) : Reply :=
  MkReply 403 [(str "Content-Type", str "text/html; charset=utf-8")] (blockedPage host).

(** The record of a blocked plain request. *)
Definition plainBlockRecord (r : Request) (now : Z) (id : bytes) : AccessRecord :=
  MkRecord now id (clientIP (r_RemoteAddr r)) (hget (r_Header r) "X-Forwarded-For") (r_Method r) "http"
    (r_Host r) (u_RequestURI (r_URL r)) 403 0 0 (hget (r_Header r) "User-Agent") [] [] [] "block" "blocklist".

Definition setScheme (scheme : bytes) (r : Request) : Request :=
  let '(MkRequest m (MkURL _ h p q uri) host hd ra cl) := r in
  MkRequest m (MkURL scheme h p q uri) host hd ra cl.

Definition ServeHTTP s (open_ok : bool) (now : Z) (id : bytes) (r : Request) : outcome :=
  let path := u_Path (r_URL r) in
  if decide (r_Method r = "CONNECT") then Connect (r_Host r)
  else if decide (u_Host (r_URL r) = magicHost) then Replied (serveMagicHost s open_ok r) []
  else if decide (u_Host (r_URL r) = []) then
    Replied
      (if HasPrefix path PathPrefix then scanHandler s open_ok r
       else match pacContent s with
            | Some pac =>
                if decide (path = "/proxy.pac") then
                  MkReply 200 [(str "Content-Type", str "application/x-ns-proxy-autoconfig")] pac
                else if decide (path = "/cert.pem") then serveCertPEM s
                else if decide (path = "/cert.crt") then serveCertDER s
                else notFound
            | None =>
                if decide (path = "/cert.pem") then serveCertPEM s
                else if decide (path = "/cert.crt") then serveCertDER s
                else notFound
            end) []
  else if IsBlocked (blocklist s) (r_Host r) then
    Replied (serveBlockedPage (r_Host r)) (if sender s then [plainBlockRecord r now id] else [])
  else Forwarded (setScheme "http" r).

(** The [Rewrite] hook of the reverse proxy: where a forwarded request goes. *)
Definition rewrite (r : Request) : Request :=
  let '(MkRequest m (MkURL scheme _ p q uri) host hd ra cl) := r in
  MkRequest m (MkURL scheme host p q uri) host hd ra cl.
End server.

(** ** Properties *)

(** The request a browser makes for an absolute location, through the proxy. *)
Definition locationRequest (loc : bytes) : option Request :=
  rest ← CutPrefix loc "http://";
  i ← IndexByte rest slash;
  let host := take i rest in
  let uri := drop i rest in
  let '(path, query) := match IndexByte uri "?"%char with
                        | Some j => (take j uri, drop (S j) uri)
                        | None => (uri, [])
                        end in
  Some (MkRequest "GET" (MkURL "http" host path query uri) host [] [] false).

Lemma locationRequest_scan id :
  locationRequest (scanLocation id) =
  Some (MkRequest "GET" (MkURL "http" magicHost PathResult ("id=" ++ id) (PathResult ++ "?id=" ++ id))
          magicHost [] [] false).
Proof.
  unfold locationRequest, scanLocation. rewrite CutPrefix_app. cbn [mbind option_bind].
  change (magicHost ++ PathResult ++ "?id=" ++ id) with
    (magicHost ++ slash :: "scan/result" ++ "?"%char :: "id=" ++ id).
  rewrite IndexByte_app by decide_closed. cbn [mbind option_bind].
  rewrite take_app_length, drop_app_length.
  change (slash :: "scan/result" ++ "?"%char :: "id=" ++ id) with (PathResult ++ "?"%char :: "id=" ++ id).
  rewrite IndexByte_app by decide_closed. rewrite take_app_length, drop_app_ge by lia.
  replace (S (length PathResult) - length PathResult)%nat with 1%nat by lia. done.
Qed.

Section server_spec.
Context `{Unicode, Scanner, SHA256, VerdictCache C, JSON statusResp, UnicodeQuote}.

(** C37. A redirect to the scan page can be followed: the browser that requests the
    location of a diverted download through the proxy gets the page of the very
    job that was started for it, carrying that job's id and file name. *)
Theorem redirect_resolves e req (resp : Response source) (m : Manager C) r m' s o now id :
  scanRoundTrip e req (Some resp) m = (Some r, m') → Body r = NoBody → manager s = Some m' →
  ∃ job req',
    GetJob m' (newID (je_random e)) = Some job ∧
    locationRequest (hget (HeaderOf r) "Location") = Some req' ∧
    ServeHTTP s o now id req' =
      Replied (MkReply 200 [(str "Content-Type", str "text/html; charset=utf-8")]
                 (RenderScanPage (newID (je_random e)) (Filename job))) [].
Proof.
  intros Hrt Hb Hm. pose proof (scanRoundTrip_cases _ _ _ _ _ _ Hrt) as Hc. cbv zeta in Hc.
  rewrite Hb in Hc. destruct Hc as (_ & _ & job & Hloc & Hjob & Hid & _).
  exists job. rewrite Hloc, locationRequest_scan. eexists. split_and!; [done|done|].
  unfold ServeHTTP. cbn [r_Method r_URL u_Host u_Path].
  rewrite decide_False, decide_True by done. unfold serveMagicHost. cbn [r_URL u_Path].
  assert (HasPrefix PathResult PathPrefix = true) as -> by done.
  unfold scanHandler. rewrite Hm. unfold scanServeHTTP. cbn [r_Method r_URL u_Path].
  rewrite !decide_False by done. rewrite decide_True by done. unfold handleResult.
  cbn [r_URL u_RawQuery]. rewrite queryGet_id by apply hex_plain. by rewrite Hjob, Hid.
Qed.

(** C13. Plain requests are mediated by the host they go to: a request that is
    forwarded goes to exactly the host that was checked against the blocklist,
    and a request to a blocked host is answered by the proxy, with the blocked
    page and a block record. *)
Theorem plain_mediated (s : Server C) o now id r :
  (∀ r', ServeHTTP s o now id r = Forwarded r' →
     IsBlocked (blocklist s) (u_Host (r_URL (rewrite r'))) = false ∧
     u_Host (r_URL (rewrite r')) = r_Host r ∧ u_Scheme (r_URL (rewrite r')) = "http" ∧
     r_Method r ≠ "CONNECT") ∧
  (IsBlocked (blocklist s) (r_Host r) = true → r_Method r ≠ "CONNECT" → u_Host (r_URL r) ≠ [] →
   u_Host (r_URL r) ≠ magicHost →
   ServeHTTP s o now id r =
     Replied (serveBlockedPage (r_Host r)) (if sender s then [plainBlockRecord r now id] else [])).
Proof.
  unfold ServeHTTP. split.
  - intros r'. case_decide; [done|]. case_decide; [done|]. case_decide; [done|].
    destruct (IsBlocked (blocklist s) (r_Host r)) eqn:Hb; [done|]. intros [= <-].
    destruct r as [m [sc h p q uri] host hd ra cl]. simpl in *. done.
  - intros Hb Hm Hh Hn. by rewrite !decide_False, Hb by done.
Qed.
End server_spec.

(** *** Witness *)

Section witnesses.
#[local] Existing Instance plainHash.
#[local] Existing Instance asciiLower.
#[local] Existing Instance drainingScanner.
#[local] Existing Instance emptyCache.
#[local] Existing Instance plainQuote.
#[local] Existing Instance plainStatus.

Definition exampleServer : Server unit := MkServer None true None "PEM" "DER" (Some exampleRedirect.2).

Lemma redirect_resolves_witness :
  ∃ req', locationRequest (hget (HeaderOf exampleRedirect.1) "Location") = Some req' ∧
    ∃ rep, ServeHTTP exampleServer true 0 "id" req' = Replied rep [] ∧ rep_code rep = 200%Z.
Proof.
  assert (scanRoundTrip exampleJobEnv browserRequest (Some zipResponse) exampleManager =
          (Some exampleRedirect.1, exampleRedirect.2)) as Hrt by (vm_compute; reflexivity).
  assert (Body exampleRedirect.1 = NoBody) as Hb by (vm_compute; reflexivity).
  destruct (redirect_resolves exampleJobEnv browserRequest zipResponse exampleManager _ _ exampleServer true 0
    "id" Hrt Hb eq_refl) as (job & req' & _ & Hloc & Hserve).
  exists req'. split; [exact Hloc|]. eexists. split; [exact Hserve|]. reflexivity.
Defined.
End witnesses.
