(* ===== verification/Forward.v ===== *)
(** * The two ways out of the request handler ([connect.go], [handlePlain] of [handler.go])

    A CONNECT request takes over its connection and is served by the tunnel loop;
    any other request that is not refused goes through the reverse proxy, with a
    recorder between it and the client.  The TLS handshake, the table of cipher
    names and [httputil.ReverseProxy] are parameters. *)
From S2P Require Import Prelude GoStrings GoIO Http Blocklist Logger Tunnel Clamd ScanConfig Services.
From S2P Require Import ResultCache ScanJob Trickle ScanUtil Manager Endpoint ScanTransport Server.

(** ** [connWithReader] *)

(** The connection [rd] behind the reader of the HTTP server: [br] is what that
    reader has buffered, none once it has been drained. *)
Record connWithReader (rd : Type) := MkConn { br : option bytes; conn : rd }.
Arguments MkConn {rd}.
Arguments br {rd}.
Arguments conn {rd}.

Section conn.
Context `{IOReader rd}.
Implicit Types c : connWithReader rd.

(** [bufio.Reader.Read] hands out what is buffered, without reading more. *)
Definition connRead (k : nat) c : bytes * option ioerr * connWithReader rd :=
  match br c with
  | Some ((_ :: _) as buffered) => (take k buffered, None, MkConn (Some (drop k buffered)) (conn c))
  | _ => let '(b, e, r) := Read k (conn c) in (b, e, MkConn None r)
  end.

#[export] Program Instance connWithReader_reader : IOReader (connWithReader rd) := {|
  Read := connRead;
  unread c := (length (default [] (br c)) + unread (conn c))%nat;
|}.
Next Obligation.
  intros k [[[|b bs]|] r]; unfold connRead; cbn [br conn].
  1,3: pose proof (Read_length k r) as Hl; by destruct (Read k r) as [[? ?] ?].
  cbn [fst]. rewrite length_take. lia.
Qed.
Next Obligation.
  intros k [[[|b bs]|] r] Hk; unfold connRead; cbn [br conn].
  1,3: pose proof (Read_unread k r Hk) as Hl; destruct (Read k r) as [[? ?] ?]; cbn in *; exact Hl.
  intros _. cbn [snd br conn default from_option id]. rewrite length_drop. simpl. lia.
Qed.
Next Obligation.
  intros k [[[|b bs]|] r]; unfold connRead; cbn [br conn].
  1,3: pose proof (Read_unread_le k r) as Hl; destruct (Read k r) as [[? ?] ?]; cbn in *; exact Hl.
  cbn [snd br conn default from_option id]. rewrite length_drop. simpl. lia.
Qed.

(** Reading the wrapper is reading what is buffered and then the connection. *)
Lemma reads_conn c cs e c' :
  reads c cs e c' →
  ∃ front ds, concat cs = front ++ concat ds ∧ default [] (br c) = front ++ default [] (br c') ∧
    reads (conn c) ds e (conn c') ∧ (ds ≠ [] → front = default [] (br c)).
Proof.
  induction 1 as [c|k c b e c' Hk Hr|k c b c1 cs e c2 Hk Hr _ (front & ds & Hcs & Hbr & Hds & Hne)].
  - exists [], []. split_and!; [done|done|constructor|done].
  - destruct c as [[[|x xs]|] r]; cbn [Read connWithReader_reader connRead br conn] in Hr.
    2: discriminate.
    1,2: destruct (Read k r) as [[b' e'] r'] eqn:Hread; simplify_eq; exists [], [b];
      (split_and!; [done|done|by eapply reads_last|done]).
  - destruct c as [[[|x xs]|] r]; cbn [Read connWithReader_reader connRead br conn default from_option id] in Hr |- *.
    + destruct (Read k r) as [[b' e'] r'] eqn:Hread. simplify_eq. cbn [br conn default from_option id] in *.
      apply eq_sym, app_nil in Hbr as [-> Hbr]. exists [], (b :: ds).
      split_and!; [by simpl; rewrite Hcs|by rewrite Hbr|by eapply reads_cons|done].
    + simplify_eq. cbn [br conn default from_option id] in *. exists (take k (x :: xs) ++ front), ds.
      split_and!; [by cbn [concat]; rewrite Hcs, app_assoc| |done|].
      * by rewrite <-app_assoc, <-Hbr, take_drop.
      * intros Hd. by rewrite (Hne Hd), take_drop.
    + destruct (Read k r) as [[b' e'] r'] eqn:Hread. simplify_eq. cbn [br conn default from_option id] in *.
      apply eq_sym, app_nil in Hbr as [-> Hbr]. exists [], (b :: ds).
      split_and!; [by simpl; rewrite Hcs|by rewrite Hbr|by eapply reads_cons|done].
Qed.
End conn.

(** The tunnel starts where the request ended.  Whatever the reads and their
    sizes, the TLS server receives first the bytes that the HTTP server had
    already buffered and then those of the connection, each once and in order,
    and learns of the end of the connection only when it has received them all. *)
Theorem connWithReader_exact buffered (conn0 : source) cs e (c' : connWithReader source) :
  reads (MkConn (Some buffered) conn0) cs e c' →
  buffered ++ content conn0 = concat cs ++ default [] (br c') ++ content (conn c') ∧
  (∀ err, e = Some err → concat cs = buffered ++ content conn0 ∧ err = final conn0).
Proof.
  intros Hr. destruct (reads_conn _ _ _ _ Hr) as (front & ds & -> & Hbr & Hds & Hne).
  cbn [br conn default from_option id] in *.
  pose proof (reads_source _ _ _ _ Hds) as (Hc & Hf & He). split.
  - rewrite Hbr, Hc. destruct ds as [|d ds]; [by simpl; rewrite app_nil_r, <-app_assoc|].
    specialize (Hne ltac:(done)). subst front.
    apply (f_equal length) in Hbr as Hl. rewrite length_app in Hl.
    assert (default [] (br c') = []) as -> by (apply nil_length_inv; lia). by rewrite app_nil_r, <-app_assoc.
  - intros err ->. destruct (He err eq_refl) as [-> Hnil]. split; [|done].
    assert (ds ≠ []) as Hd by (intros ->; inversion Hds). by rewrite (Hne Hd), Hc, Hnil, app_nil_r.
Qed.

(** ** [handleConnect] *)

(** [tls.CipherSuiteName]. *)
Class CipherNames := { CipherSuiteName : Z → bytes }.

Definition TLSCipherString `{CipherNames} (id : Z) : bytes :=
  let name := CipherSuiteName id in
  if decide (name ≠ []) then name
  else let s := fmtN 16 (Z.to_N id) in "0x" ++ replicate (4 - length s) "0"%char ++ s.

(** The TLS server on a connection: an error, or the protocol version and cipher
    suite with the requests that are then read and the connection for answers,
    which may break at any point. *)
Record session := MkSession {
  ss_Version : Z; ss_CipherSuite : Z; ss_arrivals : list arrival; ss_out : sink }.

Class TLSServer (rd : Type) := { HandshakeContext : connWithReader rd → session + bytes }.

(** A hijacked connection: what the client is sent, what the HTTP server has
    buffered, what is still to come, and the peer's address. *)
Record hijacked (rd : Type) := MkHijacked { hj_out : sink; hj_buffered : bytes; hj_conn : rd; hj_remote : bytes }.
Arguments MkHijacked {rd}.
Arguments hj_out {rd}.
Arguments hj_buffered {rd}.
Arguments hj_conn {rd}.
Arguments hj_remote {rd}.

Inductive connectOutcome (T : Type) :=
  | HijackFailed (rep : Reply)
  | NotAcknowledged (out : sink)
  | HandshakeFailed (pinned : bool) (out : sink)
  | Tunnelled (out : sink) (st : loopState T).
Arguments HijackFailed {T}.
Arguments NotAcknowledged {T}.
Arguments HandshakeFailed {T}.
Arguments Tunnelled {T}.

Definition ack : bytes := "HTTP/1.1 200 Connection established" ++ CRLF ++ CRLF.

Section connect.
Context `{Unicode, CipherNames} {T B : Type} `{RoundTripper T B} `{IOReader B} `{IOReader rd, TLSServer rd}.

(** [transport] is the state of the server's transport. *)
Definition handleConnect (hasSender : bool) (transport : T) (host : bytes) (hj : option (hijacked rd))
  : connectOutcome T :=
  match hj with
  | None => HijackFailed (httpError "hijack failed" 500)
  | Some hj =>
      let '(_, ok, out) := Write ack (hj_out hj) in
      if negb ok then NotAcknowledged out
      else
        match HandshakeContext (MkConn (Some (hj_buffered hj)) (hj_conn hj)) with
        | inr err => HandshakeFailed (Contains err "remote error: tls:") out
        | inl s =>
            Tunnelled out
              (serveConnLoop hasSender "https" host (TLSVersionString (ss_Version s)) (TLSCipherString (ss_CipherSuite s))
                 (hj_remote hj) (ss_arrivals s) (LoopState (ss_out s) [] transport [] []))
        end
  end.
End connect.

(** A tunnel is opened only after the whole acknowledgement, and everything that
    goes out of it goes to the host of the CONNECT over TLS. *)
Lemma handleConnect_tunnelled `{Unicode, CipherNames} {T B : Type} `{RoundTripper T B} `{IOReader B}
    `{IOReader rd, TLSServer rd} hasSender (transport : T) host hj out st :
  handleConnect hasSender transport host (Some hj) = Tunnelled out st →
  written_bytes out = written_bytes (hj_out hj) ++ ack ∧
  Forall (λ req, u_Host (r_URL req) = host ∧ u_Scheme (r_URL req) = "https") (lc_forwarded st).
Proof.
  unfold handleConnect. pose proof (Write_out ack (hj_out hj)) as Hw.
  destruct (Write ack (hj_out hj)) as [[q ok] w]. destruct ok; [|done]. cbn [negb].
  destruct (HandshakeContext _) as [s|err]; [|done]. intros Ht.
  match type of Ht with Tunnelled _ ?l = _ => set (loop := l) in * end.
  assert (out = w ∧ st = loop) as [-> ->] by (inversion Ht; done). clear Ht.
  destruct Hw as [Hw Hq]. rewrite (Hq eq_refl) in Hw. split; [exact Hw|]. subst loop.
  match goal with |- context [serveConnLoop ?a ?b ?c ?d ?e ?f ?l ?st] =>
    destruct (loop_forwarded a b c d e f l st) as [served Hf] end.
  rewrite Hf. cbn [lc_forwarded app]. apply Forall_forall. intros req Hin.
  apply list_elem_of_In, in_map_iff in Hin as (a & <- & _). apply normalise_host.
Qed.

(** ** [responseRecorder] *)

(** The calls on a response writer. *)
Inductive rwCall := WriteHeader (code : Z) | WriteBody (b : bytes).

(** The recorder: its status, and the calls passed on to the client's writer. *)
Record responseRecorder := MkRecorder { rr_status : Z; rr_calls : list rwCall }.

Definition record (r : responseRecorder) (c : rwCall) : responseRecorder :=
  match c with
  | WriteHeader code => MkRecorder code (rr_calls r ++ [c])
  | WriteBody _ => MkRecorder (if (rr_status r =? 0)%Z then 200 else rr_status r) (rr_calls r ++ [c])
  end.

Definition recordAll (cs : list rwCall) : responseRecorder := fold_left record cs (MkRecorder 0 []).

(** The status the client gets from the calls (documented of
    [http.ResponseWriter]): informational ones apart, the first header that is
    written, 200 if the body or the end comes first. *)
Fixpoint clientStatus (cs : list rwCall) : Z :=
  match cs with
  | WriteHeader code :: cs =>
      if (100 <=? code)%Z && (code <=? 199)%Z && negb (code =? 101)%Z then clientStatus cs else code
  | WriteBody _ :: _ | [] => 200
  end.

(** ** [handlePlain] *)

(** [ReverseProxy.ServeHTTP] with the transport of the server, on the outgoing
    request that the [Rewrite] hook makes: the calls on the writer, and what the
    metering transport has put in the metadata. *)
Class ReverseProxy := { proxyServe : Request → list rwCall * requestMeta }.

Definition plainRecord (start : Z) (requestID : bytes) (r : Request) (scheme : bytes) (status dur : Z)
    (meta : requestMeta) (tlsVer tlsCiph : bytes) : AccessRecord :=
  MkRecord start requestID (clientIP (r_RemoteAddr r)) (hget (r_Header r) "X-Forwarded-For") (r_Method r) scheme
    (r_Host r) (u_RequestURI (r_URL r)) status (bytesSent meta) dur (hget (r_Header r) "User-Agent")
    (contentType meta) tlsVer tlsCiph [] [].

Section plain.
Context `{ReverseProxy}.

(** [newID] is a fresh request id, for a request that has none; a plain request
    has no TLS version or cipher in its context. *)
Definition handlePlain (hasSender : bool) (start dur : Z) (newID : bytes) (r : Request) (scheme requestID : bytes)
  : list rwCall * list AccessRecord :=
  let requestID := if decide (requestID = []) then newID else requestID in
  let r := setScheme scheme r in
  let '(calls, meta) := proxyServe (rewrite r) in
  let rw := recordAll calls in
  (rr_calls rw,
   if hasSender then [plainRecord start requestID r scheme (rr_status rw) dur meta [] []] else []).
End plain.

(** ** Properties *)

Lemma recordAll_calls cs : rr_calls (recordAll cs) = cs.
Proof.
  unfold recordAll. assert (∀ r, rr_calls (fold_left record cs r) = rr_calls r ++ cs) as Hr; [|apply Hr].
  induction cs as [|c cs IH]; intros r; simpl; [by rewrite app_nil_r|].
  rewrite IH. destruct c; simpl; by rewrite <-app_assoc.
Qed.

(** Informational headers, one final header, and the body: what a reverse proxy
    writes. *)
Definition proxied (cs : list rwCall) : Prop :=
  ∃ infos code bodies,
    cs = map WriteHeader infos ++ WriteHeader code :: map WriteBody bodies ∧
    Forall (λ c, (100 ≤ c ≤ 199)%Z ∧ c ≠ 101%Z) infos ∧ (200 ≤ code ∨ code = 101)%Z.

Lemma recordAll_status cs : proxied cs → rr_status (recordAll cs) = clientStatus cs.
Proof.
  intros (infos & code & bodies & -> & Hinf & Hcode). unfold recordAll. rewrite fold_left_app. cbn [fold_left].
  assert (∀ r, rr_status (record r (WriteHeader code)) = code) as Hc by done.
  transitivity code.
  - generalize (fold_left record (map WriteHeader infos) (MkRecorder 0 [])). intros r0.
    assert (∀ r, rr_status r = code → rr_status (fold_left record (map WriteBody bodies) r) = code) as Hb; [|by apply Hb].
    induction bodies as [|b bodies IH]; [done|]. intros r Hr. apply IH. simpl. rewrite Hr.
    by rewrite (proj2 (Z.eqb_neq _ _)) by lia.
  - induction Hinf as [|i infos [Hi Hn] _ IH]; cbn [map app clientStatus].
    + destruct (Z.leb_spec 100 code), (Z.leb_spec code 199), (Z.eqb_spec code 101); simpl; lia.
    + rewrite (proj2 (Z.leb_le _ _)), (proj2 (Z.leb_le _ _)), (proj2 (Z.eqb_neq _ _)) by lia. exact IH.
Qed.

(** The access log tells the truth about plain requests: the client gets
    exactly the calls of the reverse proxy, which is given the request for the
    host that was checked; and when there is a sender one record is sent, with
    the status that the client received, informational responses apart, the bytes
    that were metered, and the host, method and path of the request. *)
Theorem handlePlain_logged `{ReverseProxy} hasSender start dur id r scheme rid :
  let '(calls, log) := handlePlain hasSender start dur id r scheme rid in
  let '(sent, meta) := proxyServe (rewrite (setScheme scheme r)) in
  calls = sent ∧ u_Host (r_URL (rewrite (setScheme scheme r))) = r_Host r ∧
  (proxied sent → hasSender = true →
   ∃ rec, log = [rec] ∧ a_StatusCode rec = clientStatus sent ∧ a_BytesSent rec = bytesSent meta ∧
          a_Host rec = r_Host r ∧ a_Method rec = r_Method r ∧ a_Path rec = u_RequestURI (r_URL r) ∧
          a_Scheme rec = scheme ∧ a_EventType rec = []).
Proof.
  unfold handlePlain. destruct (proxyServe _) as [sent meta]. rewrite recordAll_calls.
  destruct r as [m [sc h p q uri] host hd ra cl]. split_and!; [done|done|]. intros Hp ->.
  eexists. split_and!; [done|by apply recordAll_status|done..].
Qed.

(** ** Instances *)

Section witnesses.

(** The client hello begins in the packet of the CONNECT request. *)
Definition earlyBytes : source := Source [str "lo"; str "!"] EOF true.

Lemma connWithReader_exact_witness :
  concat [str "he"; str "l"; str "lo"; str "!"] = str "hello!" ∧
  str "hel" ++ content earlyBytes = concat [str "he"; str "l"; str "lo"; str "!"].
Proof.
  split; [reflexivity|].
  refine (eq_sym (proj1 (proj2 (connWithReader_exact (str "hel") earlyBytes
    [str "he"; str "l"; str "lo"; str "!"] (Some EOF) (MkConn None (Source [] EOF true)) _) EOF eq_refl))).
  eapply (reads_cons 2); [lia|reflexivity|]. eapply (reads_cons 2); [lia|reflexivity|].
  eapply (reads_cons 2); [lia|reflexivity|]. eapply (reads_last 2); [lia|reflexivity].
Defined.

(** An upstream that sends early hints and then a page. *)
#[local] Instance hintingProxy : ReverseProxy := {|
  proxyServe _ := ([WriteHeader 103; WriteHeader 200; WriteBody "page"], MkMeta 200 4 "text/html") |}.

Definition plainRequest : Request :=
  MkRequest "GET" (MkURL "" "a.example" "/" "" "/") "a.example" [] "10.0.0.3:7000" false.

Lemma handlePlain_logged_witness :
  ∃ rec, (handlePlain true 5 1 "id" plainRequest "http" []).2 = [rec] ∧ a_StatusCode rec = 200%Z.
Proof.
  pose proof (handlePlain_logged true 5 1 "id" plainRequest "http" []) as Hp.
  destruct (handlePlain true 5 1 "id" plainRequest "http" []) as [calls log]. cbn [proxyServe hintingProxy] in Hp.
  destruct Hp as (_ & _ & Hlog). destruct Hlog as (rec & -> & Hst & _); [|done|].
  - exists [103%Z], 200%Z, [str "page"]. split_and!; [done| |by left]. repeat constructor; lia.
  - exists rec. split; [reflexivity|exact Hst].
Defined.

(** A handshake that succeeds when the client says hello, with two requests
    inside, the second to a blocked host. *)
#[local] Existing Instance Tunnel.alternating.
#[local] Existing Instance Tunnel.asciiUnicode.

#[local] Instance helloTLS : TLSServer source := {|
  HandshakeContext c :=
    let '(cs, _, _) := drain 4096 c in
    if decide (concat cs = str "hello!") then
      inl (MkSession 772 4865 [exampleArrival "good.com"; exampleArrival "evil.com"; exampleArrival "good.com"]
             (Sink [] None))
    else inr (str "remote error: tls: bad certificate");
|}.

#[local] Instance noNames : CipherNames := {| CipherSuiteName _ := [] |}.

Definition exampleHijack (buffered : bytes) : hijacked source :=
  MkHijacked (Sink [] None) buffered earlyBytes "10.0.0.1:4444".

Example handleConnect_ex :
  match handleConnect true true "good.com:443" (Some (exampleHijack "hel")) with
  | Tunnelled out st =>
      written_bytes out = ack ∧ length (lc_forwarded st) = 1%nat ∧
      map (λ r, (a_StatusCode r, a_TLSVersion r, a_TLSCipher r, a_EventType r)) (lc_log st) =
        [(200%Z, str "TLS1.3", str "0x1301", []); (403%Z, str "TLS1.3", str "0x1301", str "block")]
  | _ => False
  end ∧
  handleConnect true true "good.com:443" (Some (exampleHijack "no")) = HandshakeFailed true (Sink ack None).
Proof. split; vm_compute; auto. Qed.
End witnesses.
