(* ===== verification/Sync.v ===== *)
(** * Live configuration ([internal/proxy/blocklist_sync.go], [scanconfig_sync.go])

    The two goroutines that keep the blocklist and the scan configuration in
    step with Redis: an initial load, a reload on every notification, and
    reconnection with a growing delay.  They differ only in what a load does. *)
From S2P Require Import Prelude GoStrings GoIO Services Blocklist Clamd ScanConfig SyncMap ResultCache.
From S2P Require Import ScanJob Manager.

Definition maxBackoff : Z := 30.

(** What happens to the goroutine: a notification, the loss of the subscription
    followed by the wait and a reload, and the cancellation of the context, in
    the subscription or during the wait.  [X] is the answer of Redis to the
    reload. *)
Inductive syncEvent (X : Type) :=
  | Notified (answer : X)
  | Disconnected (answer : X)
  | Cancelled
  | CancelledWaiting.
Arguments Notified {X}.
Arguments Disconnected {X}.
Arguments Cancelled {X}.
Arguments CancelledWaiting {X}.

(** What is live, the delay before the next reconnection in seconds, whether the
    goroutine still runs, and the delays waited so far. *)
Record syncState (L : Type) := SyncState { live : L; backoff : Z; running : bool; waits : list Z }.
Arguments SyncState {L}.
Arguments live {L}.
Arguments backoff {L}.
Arguments running {L}.
Arguments waits {L}.

Section sync.
Context {L X : Type}.
Variable load : X → L → L.

Definition startSync (l : L) (answer : X) : syncState L := SyncState (load answer l) 1 true [].

Definition syncStep (s : syncState L) (e : syncEvent X) : syncState L :=
  let '(SyncState l b r w) := s in
  if negb r then s
  else
    match e with
    | Notified a => SyncState (load a l) b true w
    | Disconnected a =>
        SyncState (load a l) (if (b <? maxBackoff)%Z then b * 2 else b)%Z true (w ++ [b])
    | Cancelled => SyncState l b false w
    | CancelledWaiting => SyncState l b false (w ++ [b])
    end.

Definition syncRun (s : syncState L) (es : list (syncEvent X)) : syncState L := fold_left syncStep es s.

(** The answers loaded: those of the events up to the cancellation. *)
Fixpoint loaded (es : list (syncEvent X)) : list X :=
  match es with
  | [] => []
  | Notified a :: es | Disconnected a :: es => a :: loaded es
  | Cancelled :: _ | CancelledWaiting :: _ => []
  end.

(** The number of waits among the events. *)
Fixpoint losses (es : list (syncEvent X)) : nat :=
  match es with
  | [] => 0
  | Notified _ :: es => losses es
  | Disconnected _ :: es => S (losses es)
  | Cancelled :: _ => 0
  | CancelledWaiting :: _ => 1
  end.

Lemma syncRun_stopped l b w es : syncRun (SyncState l b false w) es = SyncState l b false w.
Proof. induction es as [|e es IH]; [done|]. apply IH. Qed.

Lemma syncRun_live l b w es :
  live (syncRun (SyncState l b true w) es) = fold_left (λ l a, load a l) (loaded es) l.
Proof.
  revert l b w. induction es as [|e es IH]; intros l b w; [done|].
  destruct e; simpl; try apply IH; by rewrite syncRun_stopped.
Qed.

(** The delays double from one second and stay at the first that is not below
    the maximum. *)
Definition delay (n : nat) : Z := 2 ^ Z.of_nat (min n 5).

Lemma delay_step n : (if (delay n <? maxBackoff) then delay n * 2 else delay n)%Z = delay (S n).
Proof.
  unfold delay. destruct (decide (n < 5)%nat) as [Hlt|Hge].
  - do 5 (destruct n as [|n]; [done|]). lia.
  - rewrite !Nat.min_r by lia. done.
Qed.

Lemma syncRun_waits l n w es :
  waits (syncRun (SyncState l (delay n) true w) es) = w ++ map delay (seq n (losses es)).
Proof.
  revert l n w. induction es as [|e es IH]; intros l n w; [by rewrite app_nil_r|].
  destruct e; simpl; [by rewrite IH| | |].
  - rewrite delay_step, IH, <-app_assoc. done.
  - rewrite syncRun_stopped. by rewrite app_nil_r.
  - by rewrite syncRun_stopped.
Qed.
End sync.

(** ** The two instances *)

Section instances.
Context `{Unicode}.

(** [load] of [StartBlocklistSync]: the answer to [SMEMBERS]; an error keeps
    the list. *)
Definition loadBlocklist (members : option (list bytes)) (bl : option Blocklist) : option Blocklist :=
  match members with Some ms => Some (NewBlocklist ms) | None => bl end.

(** [load] of [StartScanConfigSync]: the answer to [GET], decoded. *)
Definition loadScanConfig `{JSON ScanConfig} {C} (data : Services.reply bytes) (m : Manager C) : Manager C :=
  match data with
  | Val d => match unmarshal d with Some cfg => SetConfig cfg m | None => m end
  | Nil | ErrReply => m
  end.

(** The live blocklist is always the one of the last successful read: whatever
    notifications, disconnections and failed reads occur, a failed read changes
    nothing, and a read that succeeds replaces the whole list.  Reconnections
    wait 1, 2, 4, 8, 16 and then 32 seconds: past the intended maximum of 30, and
    a connection that worked in between does not start the delays again. *)
Theorem blocklist_sync (bl : option Blocklist) (a : option (list bytes)) (es : list (syncEvent (option (list bytes)))) :
  let s := syncRun loadBlocklist (startSync loadBlocklist bl a) es in
  live s = (match last (omap id (a :: loaded es)) with Some ms => Some (NewBlocklist ms) | None => bl end) ∧
  waits s = map delay (seq 0 (losses es)) ∧
  (maxBackoff < delay 5)%Z.
Proof.
  cbv zeta. unfold startSync. split_and!; [|exact (syncRun_waits loadBlocklist (loadBlocklist a bl) 0 [] es)|done].
  rewrite syncRun_live.
  change (fold_left (λ l x, loadBlocklist x l) (loaded es) (loadBlocklist a bl)) with
    (fold_left (λ l x, loadBlocklist x l) (a :: loaded es) bl).
  generalize (a :: loaded es). clear. intros l. induction l as [|x l IH] using rev_ind; [done|].
  rewrite fold_left_app, omap_app, last_app. simpl. destruct x as [ms|]; simpl; [done|].
  by rewrite IH.
Qed.
End instances.
