(* ===== verification/Domain.v ===== *)
(** * The domain filter of the API ([domainRe] in [internal/api/handler.go])

    The regular expression that a domain must match before it enters the
    blocklist, as an expression with an executable matcher, and what the strings
    it accepts look like. *)
From S2P Require Import Prelude GoStrings Blocklist.

(** ** Regular expressions *)

Inductive regex :=
  | REmpty
  | REps
  | RClass (f : byte → bool)
  | RCat (a b : regex)
  | RAlt (a b : regex)
  | RStar (a : regex).

Definition RPlus (a : regex) : regex := RCat a (RStar a).
Definition ROpt (a : regex) : regex := RAlt REps a.
Definition RByte (c : byte) : regex := RClass (λ d, bool_decide (d = c)).

(** The strings an expression describes. *)
Fixpoint lang (r : regex) (s : bytes) : Prop :=
  match r with
  | REmpty => False
  | REps => s = []
  | RClass f => ∃ c, s = [c] ∧ f c = true
  | RCat a b => ∃ s1 s2, s = s1 ++ s2 ∧ lang a s1 ∧ lang b s2
  | RAlt a b => lang a s ∨ lang b s
  | RStar a => ∃ ps, s = concat ps ∧ Forall (lang a) ps
  end.

(** The matcher, by derivatives. *)
Fixpoint nullable (r : regex) : bool :=
  match r with
  | REmpty | RClass _ => false
  | REps | RStar _ => true
  | RCat a b => nullable a && nullable b
  | RAlt a b => nullable a || nullable b
  end.

Fixpoint deriv (c : byte) (r : regex) : regex :=
  match r with
  | REmpty | REps => REmpty
  | RClass f => if f c then REps else REmpty
  | RCat a b => if nullable a then RAlt (RCat (deriv c a) b) (deriv c b) else RCat (deriv c a) b
  | RAlt a b => RAlt (deriv c a) (deriv c b)
  | RStar a => RCat (deriv c a) (RStar a)
  end.

Fixpoint MatchString (r : regex) (s : bytes) : bool :=
  match s with
  | [] => nullable r
  | c :: s => MatchString (deriv c r) s
  end.

Lemma nullable_lang r : nullable r = true ↔ lang r [].
Proof.
  induction r as [| |f|a IHa b IHb|a IHa b IHb|a IHa]; simpl.
  - done.
  - done.
  - naive_solver.
  - rewrite andb_true_iff, IHa, IHb. split.
    + intros [? ?]. by exists [], [].
    + intros (s1 & s2 & H & ? & ?). symmetry in H. apply app_eq_nil in H as [-> ->]. done.
  - by rewrite orb_true_iff, IHa, IHb.
  - split; [|done]. intros _. by exists [].
Qed.

Lemma deriv_lang c r s : lang (deriv c r) s ↔ lang r (c :: s).
Proof.
  revert s. induction r as [| |f|a IHa b IHb|a IHa b IHb|a IHa]; intros s; simpl.
  - done.
  - by split.
  - destruct (f c) eqn:Hf; simpl; naive_solver congruence.
  - assert ((∃ s1 s2, s = s1 ++ s2 ∧ lang (deriv c a) s1 ∧ lang b s2) ↔
            (∃ s1 s2, s = s1 ++ s2 ∧ lang a (c :: s1) ∧ lang b s2)) as Hd by (by setoid_rewrite IHa).
    destruct (nullable a) eqn:Hn; simpl; rewrite Hd, ?IHb; split.
    + intros [(s1 & s2 & -> & ? & ?)|?]; [by exists (c :: s1), s2|].
      apply nullable_lang in Hn. by exists [], (c :: s).
    + intros (s1 & s2 & Hs & H1 & H2). destruct s1 as [|c' s1]; simplify_eq/=; [by right|left; eauto].
    + intros (s1 & s2 & -> & ? & ?). by exists (c :: s1), s2.
    + intros (s1 & s2 & Hs & H1 & H2). destruct s1 as [|c' s1]; simplify_eq/=; [|eauto].
      apply nullable_lang in H1. congruence.
  - by rewrite IHa, IHb.
  - setoid_rewrite IHa. split.
    + intros (s1 & s2 & -> & Hc & ps & -> & Hps). exists ((c :: s1) :: ps). by split; [|constructor].
    + intros (ps & Hs & Hps). induction Hps as [|p ps Hp Hps IH]; [done|].
      destruct p as [|c' p]; simpl in Hs; [by apply IH|]. simplify_eq.
      exists p, (concat ps). split_and!; [done|done|]. by exists ps.
Qed.

(** The matcher accepts exactly the strings of the expression. *)
Lemma MatchString_lang r s : MatchString r s = true ↔ lang r s.
Proof.
  revert r. induction s as [|c s IH]; intros r; simpl; [apply nullable_lang|].
  by rewrite IH, deriv_lang.
Qed.

(** ** The expression *)

Definition alnum (c : byte) : bool :=
  let n := byte_val c in ((97 <=? n) && (n <=? 122) || (48 <=? n) && (n <=? 57))%N.
Definition alnumHyphen (c : byte) : bool := alnum c || bool_decide (c = "-"%char).

(** [^(\*\.)?([a-z0-9]([a-z0-9-]*[a-z0-9])?\.)+[a-z0-9]{2,}$] *)
Definition domainRe : regex :=
  RCat (ROpt (RCat (RByte "*"%char) (RByte dot)))
    (RCat (RPlus (RCat (RClass alnum)
                    (RCat (ROpt (RCat (RStar (RClass alnumHyphen)) (RClass alnum))) (RByte dot))))
       (RCat (RClass alnum) (RCat (RClass alnum) (RStar (RClass alnum))))).

Definition isValidDomain (domain : bytes) : bool := MatchString domainRe domain.

Example isValidDomain_ex :
  map isValidDomain ["example.com"; "*.example.com"; "a-b.example.com"; "localhost"; "-a.com"; "a-.com";
                     "example.com."; "ex ample.com"; "*.com"; "xn--p1ai.xn--p1ai"; "10.0.0.1"] =
  [true; true; true; false; false; false; false; false; false; false; false].
Proof. vm_compute. reflexivity. Qed.

(** ** What it accepts *)

(** A label: letters, digits and hyphens, no hyphen at either end. *)
Definition label (l : bytes) : Prop :=
  forallb alnumHyphen l = true ∧ (∃ c r, l = c :: r ∧ alnum c = true) ∧ ∃ r c, l = r ++ [c] ∧ alnum c = true.

Definition topLevel (t : bytes) : Prop := forallb alnum t = true ∧ (2 ≤ length t)%nat.

(** A host name of at least two labels, with an optional wildcard in front. *)
Definition domainShape (d : bytes) : Prop :=
  ∃ w ls t, d = w ++ concat (map (λ l, l ++ [dot]) ls) ++ t ∧
    (w = [] ∨ w = "*.") ∧ ls ≠ [] ∧ Forall label ls ∧ topLevel t.

Lemma lang_class_star f s : lang (RStar (RClass f)) s ↔ forallb f s = true.
Proof.
  simpl. split.
  - intros (ps & -> & Hps). induction Hps as [|p ps (c & -> & Hc) _ IH]; [done|]. simpl. by rewrite Hc.
  - intros Hs. exists (map (λ c, [c]) s). split; [by induction s as [|c s IH]; simpl in *; [|f_equal; apply IH; by apply andb_true_iff in Hs as [_ ?]]|].
    induction s as [|c s IH]; simpl in *; [constructor|]. apply andb_true_iff in Hs as [Hc Hs].
    constructor; [by exists c|by apply IH].
Qed.

Lemma alnum_alnumHyphen c : alnum c = true → alnumHyphen c = true.
Proof. unfold alnumHyphen. by intros ->. Qed.

Lemma lang_label s :
  lang (RCat (RClass alnum) (RCat (ROpt (RCat (RStar (RClass alnumHyphen)) (RClass alnum))) (RByte dot))) s ↔
  ∃ l, s = l ++ [dot] ∧ label l.
Proof.
  split.
  - intros (s1 & s2 & -> & (c & -> & Hc) & s3 & s4 & -> & Hopt & (d & -> & Hd%bool_decide_eq_true)).
    subst d. exists (c :: s3). split; [done|]. destruct Hopt as [->|(m & e & -> & Hm & (z & -> & Hz))].
    + split_and!; [simpl; by rewrite alnum_alnumHyphen|by exists c, []|by exists [], c].
    + apply lang_class_star in Hm. split_and!; [|by eexists c, _|by exists (c :: m), z].
      simpl. rewrite forallb_app, Hm. simpl. by rewrite !alnum_alnumHyphen.
  - intros (l & -> & Hall & (c & r & -> & Hc) & r' & z & Hl & Hz).
    exists [c], (r ++ [dot]). split_and!; [done|by exists c|]. exists r, [dot].
    split_and!; [done| |exists dot; split; [done|by apply bool_decide_eq_true]].
    destruct r' as [|c' m]; simplify_eq/=; [by left|right]. exists m, [z].
    split_and!; [done| |by exists z]. apply lang_class_star.
    apply andb_true_iff in Hall as [_ Hall]. rewrite forallb_app in Hall. by apply andb_true_iff in Hall as [? _].
Qed.

Lemma lang_labels s :
  lang (RPlus (RCat (RClass alnum)
     (RCat (ROpt (RCat (RStar (RClass alnumHyphen)) (RClass alnum))) (RByte dot)))) s ↔
  ∃ ls, ls ≠ [] ∧ s = concat (map (λ l, l ++ [dot]) ls) ∧ Forall label ls.
Proof.
  split.
  - intros (s1 & s2 & -> & (l & -> & Hl)%lang_label & ps & -> & Hps).
    assert (∃ ls, concat ps = concat (map (λ l, l ++ [dot]) ls) ∧ Forall label ls) as (ls & -> & Hls).
    { induction Hps as [|p ps (l' & -> & Hl')%lang_label _ (ls & IH & Hls)]; [by exists []|].
      exists (l' :: ls). simpl. rewrite IH. split; [done|by constructor]. }
    exists (l :: ls). split_and!; [done|done|by constructor].
  - intros ([|l ls] & Hne & -> & Hls); [done|]. apply Forall_cons in Hls as [Hl Hls].
    exists (l ++ [dot]), (concat (map (λ l, l ++ [dot]) ls)). split_and!; [done|apply lang_label; eauto|].
    exists (map (λ l, l ++ [dot]) ls). split; [done|]. rewrite Forall_map.
    eapply Forall_impl; [exact Hls|]. intros l' Hl'. apply lang_label. eauto.
Qed.

Lemma isValidDomain_shape d : isValidDomain d = true ↔ domainShape d.
Proof.
  unfold isValidDomain. rewrite MatchString_lang. unfold domainRe, domainShape. split.
  - intros (w & s1 & -> & Hw & s2 & t & -> & Hls & Ht). apply lang_labels in Hls as (ls & Hne & -> & Hls).
    exists w, ls, t. split_and!; try done.
    + destruct Hw as [->|(a & b & -> & (c & -> & Hc%bool_decide_eq_true) & (e & -> & He%bool_decide_eq_true))];
        [by left|right; by subst].
    + destruct Ht as (a & b & -> & (c & -> & Hc) & b1 & b2 & -> & (e & -> & He) & Hstar).
      apply lang_class_star in Hstar. split; [simpl; by rewrite Hc, He|simpl; lia].
  - intros (w & ls & t & -> & Hw & Hne & Hls & Hall & Hlen).
    exists w, (concat (map (λ l, l ++ [dot]) ls) ++ t). split_and!; [done| |].
    + destruct Hw as [->| ->]; [by left|right]. exists ["*"%char], [dot].
      split_and!; [done|eexists; split; [done|by apply bool_decide_eq_true]..].
    + eexists _, t. split_and!; [done|apply lang_labels; eauto|].
      destruct t as [|a [|b t]]; simpl in Hlen; [lia|lia|]. simpl in Hall.
      apply andb_true_iff in Hall as [Ha Hall]. apply andb_true_iff in Hall as [Hb Hall].
      exists [a], (b :: t). split_and!; [done|by exists a|]. exists [b], t.
      split_and!; [done|by exists b|by apply lang_class_star].
Qed.

(** ** What an accepted domain does *)

Lemma alnumHyphen_host c : alnumHyphen c = true → host_byte c = true.
Proof.
  intros Hc. assert (∀ n, (n < 256)%nat → alnumHyphen (byte_of (N.of_nat n)) = true →
    host_byte (byte_of (N.of_nat n)) = true) as Hall.
  { assert (forallb (λ n, implb (alnumHyphen (byte_of (N.of_nat n))) (host_byte (byte_of (N.of_nat n))))
              (seq 0 256) = true) as Hf by (vm_compute; reflexivity).
    intros n Hn Ha. rewrite forallb_forall in Hf. specialize (Hf n).
    rewrite Ha in Hf. apply Hf. apply in_seq. lia. }
  specialize (Hall (N.to_nat (byte_val c))). rewrite N2Nat.id, byte_of_val in Hall.
  apply Hall; [|done]. pose proof (byte_val_lt c). lia.
Qed.

Lemma forallb_weaken (f g : byte → bool) s :
  (∀ c, f c = true → g c = true) → forallb f s = true → forallb g s = true.
Proof. intros Hfg Hs. rewrite forallb_forall in *. intros c Hc. by apply Hfg, Hs. Qed.

Lemma labels_host ls t :
  Forall label ls → topLevel t → forallb host_byte (concat (map (λ l, l ++ [dot]) ls) ++ t) = true.
Proof.
  intros Hls [Ht _]. rewrite forallb_app. apply andb_true_iff. split.
  - induction Hls as [|l ls (Hl & _) _ IH]; [done|]. simpl. rewrite !forallb_app, IH.
    rewrite (forallb_weaken alnumHyphen host_byte l) by (try done; apply alnumHyphen_host). done.
  - apply (forallb_weaken alnum); [|done]. intros c Hc. by apply alnumHyphen_host, alnum_alnumHyphen.
Qed.

Section effect.
Context `{Unicode}.

Lemma isValidDomain_blocks d ds :
  isValidDomain d = true → d ∈ ds →
  ∀ host,
    match CutPrefix d "*." with
    | None => hostName host = d
    | Some base => ∃ sub, hostName host = sub ++ dot :: base
    end → IsBlocked (Some (NewBlocklist ds)) host = true.
Proof.
  rewrite isValidDomain_shape.
  intros (w & ls & t & -> & Hw & Hne & Hls & Ht) Hin.
  pose proof (labels_host ls t Hls Ht) as Hhost.
  set (b := concat (map (λ l, l ++ [dot]) ls) ++ t) in *.
  assert (HasPrefix b "*." = false) as Hnp.
  { apply not_true_iff_false. intros [r Hr]%HasPrefix_spec.
    destruct ls as [|l ls]; [done|]. apply Forall_cons in Hls as [(Hl & (c & l' & -> & Hc) & _) _].
    subst b. simpl in Hr. injection Hr as -> _. done. }
  assert (b ≠ []) as Hb.
  { subst b. destruct t as [|c t]; [destruct Ht as [_ Ht]; simpl in Ht; lia|]. by intros [_ ?]%app_eq_nil. }
  intros host. rewrite IsBlocked_blockedBy, blockedBy_spec. destruct Hw as [->| ->].
  - rewrite app_nil_l. unfold CutPrefix. rewrite Hnp. intros Hhost'. exists b, (Exact b).
    split_and!; [done|by apply entryPattern_exact|]. by apply bool_decide_eq_true.
  - rewrite CutPrefix_app. intros [sub Hsub]. exists ("*." ++ b), (Wildcard b).
    split_and!; [done|by apply entryPattern_wildcard|].
    cbn [patternBlocks]. rewrite Hsub. apply HasSuffix_app.
Qed.

(** C39. The API lets in exactly the strings of the documented form, an optional
    wildcard and at least two labels of letters, digits and inner hyphens, the
    last of them at least two letters or digits; and none of them is without
    effect: once in the list, a plain domain blocks its own host and a wildcard
    every host below its base, in whatever case and on whatever port. *)
Theorem isValidDomain_effective d ds :
  (isValidDomain d = true ↔ domainShape d) ∧
  (isValidDomain d = true → d ∈ ds →
   ∀ host,
     match CutPrefix d "*." with
     | None => hostName host = d
     | Some base => ∃ sub, hostName host = sub ++ dot :: base
     end → IsBlocked (Some (NewBlocklist ds)) host = true).
Proof. split; [apply isValidDomain_shape|apply isValidDomain_blocks]. Qed.
End effect.
