(* ===== verification/Postgres.v ===== *)
(** * The databases behind the API ([internal/api/store.go])

    PostgreSQL and the set commands of Redis are services: their statements are
    parameters, type classes over a database state, with the documented laws the
    theorems on the store rely on, and an instance of each that never fails. *)
From S2P Require Import Prelude GoStrings.
From stdpp Require Import sorting.

(** ** The tables of the schema *)

(** [blocklist_entries]; times are in nanoseconds. *)
Record Entry := MkEntryRow {
  e_ID : Z; e_Domain : bytes; e_Enabled : bool; e_Comment : bytes;
  e_CreatedBy : bytes; e_CreatedAt : Z; e_UpdatedBy : bytes; e_UpdatedAt : Z }.

(** [blocklist_audit_log]. *)
Record AuditEntry := MkAudit {
  au_ID : Z; au_Domain : bytes; au_Action : bytes; au_Actor : bytes; au_Comment : bytes; au_OccurredAt : Z }.

(** [scan_settings]. *)
Record ScanSettingEntry := MkSetting {
  st_Key : bytes; st_Value : bytes; st_UpdatedBy : bytes; st_UpdatedAt : Z }.

(** [scan_mime_types]. *)
Record MimeTypeEntry := MkMimeType {
  mt_ID : Z; mt_Pattern : bytes; mt_IsPrefix : bool; mt_Enabled : bool; mt_Note : bytes;
  mt_UpdatedBy : bytes; mt_UpdatedAt : Z }.

(** The rows of the tables, keyed by their unique columns. *)
Record tables := MkTables {
  entriesT : gmap bytes Entry;
  auditT : list AuditEntry;
  settingsT : gmap bytes ScanSettingEntry;
  mimeT : gmap bytes MimeTypeEntry;
}.

(** ** Statements *)

(** A row, [pgx.ErrNoRows], or another error. *)
Inductive rowResult (A : Type) := Row (a : A) | NoRows | RowErr.
Arguments Row {A} a.
Arguments NoRows {A}.
Arguments RowErr {A}.

(** The clauses of the list queries. *)
Inductive whereClause := WAll | WEnabled | WLike (p : bytes) | WEnabledLike (p : bytes).
Inductive column := ColDomain | ColCreatedAt | ColUpdatedAt.
Inductive mimeColumn := MColID | MColPattern | MColUpdatedAt.

#[export] Instance column_eq_dec : EqDecision column.
Proof. solve_decision. Defined.

(** A database state, shared or the private one of a transaction, and the
    statements of the store on it.  [ilike] is the operator of that name and
    [sorts] the order of [ORDER BY], descending or not. *)
Class Postgres (db : Type) := {
  tablesOf : db → tables;
  ilike : bytes → bytes → bool;
  sorts : column → bool → Entry → Entry → Prop;
  Begin : db → option db;
  Commit : db → db → bool * db;
  INSERT_entry : bytes → bytes → bytes → db → rowResult Entry * db;
  UPDATE_entry : bytes → option bool → option bytes → bytes → db → rowResult Entry * db;
  DELETE_entry : bytes → db → option N * db;
  INSERT_audit : bytes → bytes → bytes → bytes → db → bool * db;
  SELECT_enabled : db → option (list bytes);
  SELECT_entries : whereClause → column → bool → Z → Z → db → option (list (Entry * Z));
  SELECT_audit : bytes → Z → Z → db → option (list (AuditEntry * Z));
  UPDATE_setting : bytes → bytes → bytes → db → option N * db;
  SELECT_settings : db → option (list (bytes * bytes));
  SELECT_setting_rows : db → option (list ScanSettingEntry);
  UPDATE_mime : bytes → option bool → option bytes → bytes → db → rowResult MimeTypeEntry * db;
  SELECT_mime : db → option (list (bytes * bool * bool));
  SELECT_mime_rows : whereClause → mimeColumn → bool → db → option (list MimeTypeEntry);
}.

Definition likeEntry `{Postgres db} (p : bytes) (e : Entry) : bool :=
  ilike p (e_Domain e) || ilike p (e_Comment e).

Definition matches `{Postgres db} (w : whereClause) (e : Entry) : bool :=
  match w with
  | WAll => true
  | WEnabled => e_Enabled e
  | WLike p => likeEntry p e
  | WEnabledLike p => e_Enabled e && likeEntry p e
  end.

Definition rowsOf (m : gmap bytes Entry) : list Entry := (map_to_list m).*2.

(** [LIMIT] and [OFFSET], with the window count of all rows. *)
Definition window {A} (limit offset : Z) (rows : list A) : list (A * Z) :=
  map (λ r, (r, Z.of_nat (length rows))) (take (Z.to_nat limit) (drop (Z.to_nat offset) rows)).

Definition withEntries (m : gmap bytes Entry) (t : tables) : tables :=
  MkTables m (auditT t) (settingsT t) (mimeT t).
Definition withSettings (m : gmap bytes ScanSettingEntry) (t : tables) : tables :=
  MkTables (entriesT t) (auditT t) m (mimeT t).
Definition withMime (m : gmap bytes MimeTypeEntry) (t : tables) : tables :=
  MkTables (entriesT t) (auditT t) (settingsT t) m.
Definition withAudit (a : AuditEntry) (t : tables) : tables :=
  MkTables (entriesT t) (auditT t ++ [a]) (settingsT t) (mimeT t).

Definition byID (a b : MimeTypeEntry) : Prop := (mt_ID a ≤ mt_ID b)%Z.

(** The documented behaviour.  A transaction starts from the committed rows and
    is invisible until it commits; a commit that reports an error may or may not
    have taken place.  A statement that reports an error changes nothing. *)
Class PostgresLaws (db : Type) `{Postgres db} := {
  Begin_ok d t : Begin d = Some t → tablesOf t = tablesOf d;
  Commit_ok t d d' : Commit t d = (true, d') → tablesOf d' = tablesOf t;
  Commit_err t d d' : Commit t d = (false, d') → tablesOf d' = tablesOf d ∨ tablesOf d' = tablesOf t;
  INSERT_entry_ok dom c a t :
    let '(r, t') := INSERT_entry dom c a t in
    match r with
    | Row e =>
        entriesT (tablesOf t) !! dom = None ∧
        e_Domain e = dom ∧ e_Enabled e = true ∧ e_Comment e = c ∧ e_CreatedBy e = a ∧ e_UpdatedBy e = a ∧
        tablesOf t' = withEntries (<[dom := e]> (entriesT (tablesOf t))) (tablesOf t)
    | NoRows => is_Some (entriesT (tablesOf t) !! dom) ∧ tablesOf t' = tablesOf t
    | RowErr => tablesOf t' = tablesOf t
    end;
  UPDATE_entry_ok dom en c a t :
    let '(r, t') := UPDATE_entry dom en c a t in
    match r with
    | Row e =>
        ∃ old, entriesT (tablesOf t) !! dom = Some old ∧
        e_Domain e = e_Domain old ∧ e_ID e = e_ID old ∧
        e_Enabled e = default (e_Enabled old) en ∧ e_Comment e = default (e_Comment old) c ∧
        e_CreatedBy e = e_CreatedBy old ∧ e_CreatedAt e = e_CreatedAt old ∧ e_UpdatedBy e = a ∧
        tablesOf t' = withEntries (<[dom := e]> (entriesT (tablesOf t))) (tablesOf t)
    | NoRows => entriesT (tablesOf t) !! dom = None ∧ tablesOf t' = tablesOf t
    | RowErr => tablesOf t' = tablesOf t
    end;
  DELETE_entry_ok dom t :
    let '(r, t') := DELETE_entry dom t in
    match r with
    | Some n =>
        tablesOf t' = withEntries (delete dom (entriesT (tablesOf t))) (tablesOf t) ∧
        (n = 0%N ↔ entriesT (tablesOf t) !! dom = None)
    | None => tablesOf t' = tablesOf t
    end;
  INSERT_audit_ok dom act a c t :
    let '(ok, t') := INSERT_audit dom act a c t in
    if ok : bool then
      ∃ r, au_Domain r = dom ∧ au_Action r = act ∧ au_Actor r = a ∧ au_Comment r = c ∧
           tablesOf t' = withAudit r (tablesOf t)
    else tablesOf t' = tablesOf t;
  SELECT_enabled_ok d ms :
    SELECT_enabled d = Some ms →
    ∀ x, x ∈ ms ↔ ∃ e, entriesT (tablesOf d) !! x = Some e ∧ e_Enabled e = true;
  sorts_trans col desc : Transitive (sorts col desc);
  SELECT_entries_ok w col desc limit offset d :
    match SELECT_entries w col desc limit offset d with
    | Some rs =>
        (0 ≤ limit)%Z ∧ (0 ≤ offset)%Z ∧
        ∃ rows, rows ≡ₚ filter (λ e, matches w e = true) (rowsOf (entriesT (tablesOf d))) ∧
                Sorted (sorts col desc) rows ∧ rs = window limit offset rows
    | None => True
    end;
  UPDATE_setting_ok k v a t :
    let '(r, t') := UPDATE_setting k v a t in
    match r with
    | Some n =>
        if (n =? 0)%N then settingsT (tablesOf t) !! k = None ∧ tablesOf t' = tablesOf t
        else ∃ row, is_Some (settingsT (tablesOf t) !! k) ∧
             st_Key row = k ∧ st_Value row = v ∧ st_UpdatedBy row = a ∧
             tablesOf t' = withSettings (<[k := row]> (settingsT (tablesOf t))) (tablesOf t)
    | None => tablesOf t' = tablesOf t
    end;
  SELECT_settings_ok d kvs :
    SELECT_settings d = Some kvs →
    NoDup kvs.*1 ∧
    ∀ k v, (k, v) ∈ kvs ↔ ∃ row, settingsT (tablesOf d) !! k = Some row ∧ st_Value row = v;
  UPDATE_mime_ok p en n a t :
    let '(r, t') := UPDATE_mime p en n a t in
    match r with
    | Row m =>
        ∃ old, mimeT (tablesOf t) !! p = Some old ∧
        mt_ID m = mt_ID old ∧ mt_Pattern m = mt_Pattern old ∧ mt_IsPrefix m = mt_IsPrefix old ∧
        mt_Enabled m = default (mt_Enabled old) en ∧ mt_Note m = default (mt_Note old) n ∧ mt_UpdatedBy m = a ∧
        tablesOf t' = withMime (<[p := m]> (mimeT (tablesOf t))) (tablesOf t)
    | NoRows => mimeT (tablesOf t) !! p = None ∧ tablesOf t' = tablesOf t
    | RowErr => tablesOf t' = tablesOf t
    end;
  SELECT_mime_ok d rs :
    SELECT_mime d = Some rs →
    ∃ rows, rows ≡ₚ (map_to_list (mimeT (tablesOf d))).*2 ∧ Sorted byID rows ∧
            rs = (λ m, (mt_Pattern m, mt_IsPrefix m, mt_Enabled m)) <$> rows;
}.

(** ** Sets in Redis *)

Inductive redisCmd :=
  | CDel (key : bytes)
  | CSAdd (key : bytes) (members : list bytes)
  | CSRem (key : bytes) (member : bytes)
  | CPublish (channel msg : bytes).

(** What a command does to the set at a key. *)
Definition cmdSet (key : bytes) (s : gset bytes) (c : redisCmd) : gset bytes :=
  match c with
  | CDel k => if decide (k = key) then ∅ else s
  | CSAdd k ms => if decide (k = key) then s ∪ list_to_set ms else s
  | CSRem k x => if decide (k = key) then s ∖ {[x]} else s
  | CPublish _ _ => s
  end.

Class RedisSets (db : Type) := {
  setAt : bytes → db → gset bytes;
  PIPELINE : list redisCmd → db → bool * db;
  SMEMBERS : bytes → db → option (list bytes);
}.

(** A pipeline that reports success has run all its commands in order. *)
Class RedisSetsLaws (db : Type) `{RedisSets db} := {
  PIPELINE_ok cs d d' : PIPELINE cs d = (true, d') → ∀ k, setAt k d' = fold_left (cmdSet k) cs (setAt k d);
  SMEMBERS_ok k d ms : SMEMBERS k d = Some ms → ∀ x, x ∈ ms ↔ x ∈ setAt k d;
}.

(** ** Instances that never fail *)

(** A PostgreSQL of one session: the tables, the next identifier and a clock
    that advances with every statement. *)
Record pgdb := MkPG { pg_tables : tables; pg_next : Z; pg_now : Z }.

Definition pgSet (f : tables → tables) (d : pgdb) : pgdb :=
  MkPG (f (pg_tables d)) (pg_next d + 1) (pg_now d + 1).

Definition sortKey (c : column) (e : Entry) : Z :=
  match c with
  | ColDomain => Z.pos (encode (e_Domain e))
  | ColCreatedAt => e_CreatedAt e
  | ColUpdatedAt => e_UpdatedAt e
  end.

Definition sortsBy (c : column) (desc : bool) (a b : Entry) : Prop :=
  if desc then (sortKey c b ≤ sortKey c a)%Z else (sortKey c a ≤ sortKey c b)%Z.

#[export] Instance sortsBy_dec c desc a b : Decision (sortsBy c desc a b).
Proof. destruct desc; unfold sortsBy; apply _. Defined.

#[export] Instance sortsBy_total c desc : Total (sortsBy c desc).
Proof. intros a b. unfold sortsBy. destruct desc; lia. Qed.

#[export] Instance sortsBy_trans c desc : Transitive (sortsBy c desc).
Proof. intros x y z. unfold sortsBy. destruct desc; lia. Qed.

#[export] Instance byID_dec a b : Decision (byID a b).
Proof. unfold byID. apply _. Defined.

#[export] Instance byID_total : Total byID.
Proof. intros a b. unfold byID. lia. Qed.

(** [%q%] as a search for [q]. *)
Definition likeSub (p s : bytes) : bool := Contains s (take (length p - 2) (drop 1 p)).

Definition pgMatches (w : whereClause) (e : Entry) : bool :=
  let like p := likeSub p (e_Domain e) || likeSub p (e_Comment e) in
  match w with
  | WAll => true
  | WEnabled => e_Enabled e
  | WLike p => like p
  | WEnabledLike p => e_Enabled e && like p
  end.

Definition mimeKey (c : mimeColumn) (m : MimeTypeEntry) : Z :=
  match c with
  | MColID => mt_ID m
  | MColPattern => Z.pos (encode (mt_Pattern m))
  | MColUpdatedAt => mt_UpdatedAt m
  end.

Definition mimeSorts (c : mimeColumn) (desc : bool) (a b : MimeTypeEntry) : Prop :=
  if desc then (mimeKey c b ≤ mimeKey c a)%Z else (mimeKey c a ≤ mimeKey c b)%Z.

#[export] Instance mimeSorts_dec c desc a b : Decision (mimeSorts c desc a b).
Proof. destruct desc; unfold mimeSorts; apply _. Defined.

Definition mimeMatches (w : whereClause) (m : MimeTypeEntry) : bool :=
  match w with
  | WAll => true
  | WEnabled => mt_Enabled m
  | WLike p => likeSub p (mt_Pattern m)
  | WEnabledLike p => mt_Enabled m && likeSub p (mt_Pattern m)
  end.

#[export] Instance pgdb_postgres : Postgres pgdb := {|
  tablesOf := pg_tables;
  ilike := likeSub;
  sorts := sortsBy;
  Begin d := Some d;
  Commit t d := (true, t);
  INSERT_entry dom c a d :=
    match entriesT (pg_tables d) !! dom with
    | Some _ => (NoRows, d)
    | None =>
        let e := MkEntryRow (pg_next d) dom true c a (pg_now d) a (pg_now d) in
        (Row e, pgSet (λ t, withEntries (<[dom := e]> (entriesT t)) t) d)
    end;
  UPDATE_entry dom en c a d :=
    match entriesT (pg_tables d) !! dom with
    | Some o =>
        let e := MkEntryRow (e_ID o) (e_Domain o) (default (e_Enabled o) en) (default (e_Comment o) c)
                   (e_CreatedBy o) (e_CreatedAt o) a (pg_now d) in
        (Row e, pgSet (λ t, withEntries (<[dom := e]> (entriesT t)) t) d)
    | None => (NoRows, d)
    end;
  DELETE_entry dom d :=
    (Some (match entriesT (pg_tables d) !! dom with Some _ => 1 | None => 0 end)%N,
     pgSet (λ t, withEntries (delete dom (entriesT t)) t) d);
  INSERT_audit dom act a c d :=
    (true, pgSet (withAudit (MkAudit (pg_next d) dom act a c (pg_now d))) d);
  SELECT_enabled d := Some ((filter (λ kv, e_Enabled kv.2 = true) (map_to_list (entriesT (pg_tables d)))).*1);
  SELECT_entries w c desc limit offset d :=
    if bool_decide (0 ≤ limit)%Z && bool_decide (0 ≤ offset)%Z then
      Some (window limit offset
              (merge_sort (sortsBy c desc) (filter (λ e, pgMatches w e = true) (rowsOf (entriesT (pg_tables d))))))
    else None;
  SELECT_audit dom limit offset d :=
    if bool_decide (0 ≤ limit)%Z && bool_decide (0 ≤ offset)%Z then
      Some (window limit offset (rev (filter (λ r, au_Domain r = dom) (auditT (pg_tables d)))))
    else None;
  UPDATE_setting k v a d :=
    match settingsT (pg_tables d) !! k with
    | Some _ =>
        (Some 1%N, pgSet (λ t, withSettings (<[k := MkSetting k v a (pg_now d)]> (settingsT t)) t) d)
    | None => (Some 0%N, d)
    end;
  SELECT_settings d := Some ((λ kv, (kv.1, st_Value kv.2)) <$> map_to_list (settingsT (pg_tables d)));
  SELECT_setting_rows d := Some (map_to_list (settingsT (pg_tables d))).*2;
  UPDATE_mime p en n a d :=
    match mimeT (pg_tables d) !! p with
    | Some o =>
        let m := MkMimeType (mt_ID o) (mt_Pattern o) (mt_IsPrefix o) (default (mt_Enabled o) en)
                   (default (mt_Note o) n) a (pg_now d) in
        (Row m, pgSet (λ t, withMime (<[p := m]> (mimeT t)) t) d)
    | None => (NoRows, d)
    end;
  SELECT_mime d :=
    Some ((λ m, (mt_Pattern m, mt_IsPrefix m, mt_Enabled m)) <$>
          merge_sort byID (map_to_list (mimeT (pg_tables d))).*2);
  SELECT_mime_rows w c desc d :=
    Some (merge_sort (mimeSorts c desc) (filter (λ m, mimeMatches w m = true) (map_to_list (mimeT (pg_tables d))).*2));
|}.

#[export] Instance pgdb_laws : PostgresLaws pgdb.
Proof.
  split.
  - by intros d t [= <-].
  - by intros t d d' [= <-].
  - by intros t d d' [=].
  - intros dom c a t. simpl. destruct (entriesT (pg_tables t) !! dom) eqn:Hd; simpl; rewrite ?Hd; naive_solver.
  - intros dom en c a t. simpl. destruct (entriesT (pg_tables t) !! dom) as [o|] eqn:Hd; simpl; [|done].
    exists o. done.
  - intros dom t. simpl. split; [done|]. destruct (entriesT (pg_tables t) !! dom); naive_solver.
  - intros dom act a c t. simpl. by exists (MkAudit (pg_next t) dom act a c (pg_now t)).
  - intros d ms [= <-] x. rewrite list_elem_of_fmap. split.
    + intros ([k e] & -> & [He Hin%elem_of_map_to_list]%list_elem_of_filter). by exists e.
    + intros (e & Hx%elem_of_map_to_list & He). exists (x, e). split; [done|].
      by apply list_elem_of_filter.
  - apply _.
  - intros w c desc limit offset d. simpl. case_bool_decide; [|done]. case_bool_decide; [|done]. simpl.
    split_and!; [done|done|]. eexists. split_and!; [|apply Sorted_merge_sort, _|done].
    rewrite merge_sort_Permutation. erewrite list_filter_iff; [done|].
    intros e. by destruct w.
  - intros k v a t. simpl. destruct (settingsT (pg_tables t) !! k) eqn:Hk; simpl; [|done].
    by exists (MkSetting k v a (pg_now t)).
  - intros d kvs [= <-]. split.
    + rewrite <-list_fmap_compose. apply NoDup_fst_map_to_list.
    + intros k v. rewrite list_elem_of_fmap. setoid_rewrite <-elem_of_map_to_list. split.
      * intros ([k' row] & [= -> ->] & Hin). by exists row.
      * intros (row & Hin & <-). by exists (k, row).
  - intros p en n a t. simpl. destruct (mimeT (pg_tables t) !! p) as [o|] eqn:Hp; simpl; [|done]. by exists o.
  - intros d rs [= <-]. exists (merge_sort byID (map_to_list (mimeT (pg_tables d))).*2).
    split_and!; [apply merge_sort_Permutation|apply (Sorted_merge_sort byID)|done].
Qed.

(** A Redis of sets. *)
Definition setdb : Type := gmap bytes (gset bytes).

Definition setOf (k : bytes) (d : gmap bytes (gset bytes)) : gset bytes := default ∅ (d !! k).

Definition setExec (d : gmap bytes (gset bytes)) (c : redisCmd) : gmap bytes (gset bytes) :=
  match c with
  | CDel k | CSAdd k _ | CSRem k _ => <[k := cmdSet k (setOf k d) c]> d
  | CPublish _ _ => d
  end.

Lemma setExec_at k d c : setOf k (setExec d c) = cmdSet k (setOf k d) c.
Proof.
  unfold setOf. destruct c as [k'|k' ms|k' x|]; simpl; try done;
    rewrite lookup_insert; unfold setOf; repeat case_decide; by subst.
Qed.

#[export] Instance setdb_sets : RedisSets setdb := {|
  setAt := setOf;
  PIPELINE cs d := (true, fold_left setExec cs d);
  SMEMBERS k d := Some (elements (setOf k d));
|}.

#[export] Instance setdb_laws : RedisSetsLaws setdb.
Proof.
  split.
  - intros cs d d' [= <-] k. revert d. induction cs as [|c cs IH]; intros d; [done|].
    simpl. rewrite IH. f_equal. apply setExec_at.
  - intros k d ms [= <-] x. simpl. by rewrite elem_of_elements.
Qed.
