(* ===== verification/Pagination.v ===== *)
(** * Pagination of the API's lists ([internal/api/pagination.go], [List] of [blocklist.go])

    The page arithmetic on machine integers, the numbers read from the query
    string, and the list query itself; consecutive pages partition the sorted
    rows. *)
From S2P Require Import Prelude GoStrings Http Postgres.
From stdpp Require Import sorting.

(** ** [strconv.ParseInt] in base 10, as its callers use it *)

Definition maxUint64 : Z := 2 ^ 64 - 1.

(** A value, [ErrSyntax] or [ErrRange]. *)
Inductive uintResult := UVal (n : Z) | USyntax | URange.

(** The loop of [ParseUint]: an overflow is reported before the rest is read. *)
Fixpoint parseUintLoop (s : bytes) (n : Z) : uintResult :=
  match s with
  | [] => UVal n
  | c :: s =>
      match digit_val c with
      | Some d =>
          if (d <? 10)%N then
            let n := (n * 10 + Z.of_N d)%Z in
            if (maxUint64 <? n)%Z then URange else parseUintLoop s n
          else USyntax
      | None => USyntax
      end
  end.

Definition parseUint (s : bytes) : uintResult := if decide (s = []) then USyntax else parseUintLoop s 0.

(** The value [ParseInt(s, 10, 64)] and [Atoi] return, next to the error their
    callers drop: zero for a syntax error, the nearest integer out of range. *)
Definition ParseInt (s : bytes) : Z :=
  let '(neg, digits) := match s with
                        | c :: s' => if decide (c = "-"%char) then (true, s')
                                     else if decide (c = "+"%char) then (false, s') else (false, s)
                        | [] => (false, s)
                        end in
  match parseUint digits with
  | UVal n =>
      if neg : bool then (if (2 ^ 63 <? n)%Z then - 2 ^ 63 else - n)%Z
      else (if (2 ^ 63 <=? n)%Z then 2 ^ 63 - 1 else n)%Z
  | USyntax => 0
  | URange => if neg then (- 2 ^ 63)%Z else (2 ^ 63 - 1)%Z
  end.

Example ParseInt_ex :
  map ParseInt ["42"; "-7"; "+3"; ""; "12a"; "9223372036854775807"; "9223372036854775808";
                "99999999999999999999x"; "-99999999999999999999"; "-"] =
  [42; -7; 3; 0; 0; 2 ^ 63 - 1; 2 ^ 63 - 1; 2 ^ 63 - 1; - 2 ^ 63; 0]%Z.
Proof. vm_compute. reflexivity. Qed.

Lemma parseUintLoop_nonneg s m n : (0 ≤ m)%Z → parseUintLoop s m = UVal n → (0 ≤ n)%Z.
Proof.
  revert m. induction s as [|c s IH]; intros m Hm; cbn [parseUintLoop]; [by intros [= ->]|].
  destruct (digit_val c) as [d|]; [|done]. destruct (d <? 10)%N; [|done].
  destruct (_ <? _)%Z; [done|]. apply IH. lia.
Qed.

(** Whatever the text, the value is a machine integer. *)
Lemma ParseInt_range s : int64_range (ParseInt s).
Proof.
  unfold int64_range, ParseInt. destruct (match s with [] => _ | _ => _ end) as [neg digits].
  unfold parseUint. destruct (decide (digits = [])); [lia|].
  destruct (parseUintLoop digits 0) as [k| |] eqn:Hn; [|lia|destruct neg; lia].
  apply parseUintLoop_nonneg in Hn; [|lia].
  destruct neg; [destruct (Z.ltb_spec (2 ^ 63) k)|destruct (Z.leb_spec (2 ^ 63) k)]; lia.
Qed.

(** Reading back what [%d] writes. *)
Lemma parseUintLoop_parse s m n :
  fold_left (parseDigit 10) s (Some m) = Some n → (Z.of_N n ≤ maxUint64)%Z →
  parseUintLoop s (Z.of_N m) = UVal (Z.of_N n).
Proof.
  revert m. induction s as [|c s IH]; intros m; simpl; [by intros [= ->]|].
  assert (∀ l, fold_left (parseDigit 10) l None = None) as Hnone by (by induction l).
  destruct (digit_val c) as [d|]; [|by rewrite Hnone]. destruct (d <? 10)%N; [|by rewrite Hnone].
  intros Hf Hn. replace (Z.of_N m * 10 + Z.of_N d)%Z with (Z.of_N (m * 10 + d)) by lia.
  assert (m * 10 + d ≤ n)%N as Hle.
  { clear IH Hn Hnone. revert Hf. generalize (m * 10 + d)%N. induction s as [|e s IHs]; intros k; simpl.
    - by intros [= ->].
    - destruct (digit_val e) as [x|]; [|by clear; induction s]. destruct (x <? 10)%N; [|by clear; induction s].
      intros Hf%IHs. lia. }
  rewrite (proj2 (Z.ltb_ge _ _)) by lia. by apply IH.
Qed.

Lemma ParseInt_fmtZ z : (0 ≤ z < 2 ^ 63)%Z → ParseInt (fmtZ z) = z.
Proof.
  intros Hz. pose proof (parseN_fmtZ z ltac:(lia)) as Hp. unfold parseN in Hp.
  destruct (fmtZ z) as [|c s] eqn:Hs; [done|]. rewrite decide_False in Hp by done.
  assert (is_Some (digit_val c)) as [d Hd].
  { revert Hs. unfold fmtZ. rewrite (proj2 (Z.ltb_ge _ _)) by lia. intros Hs.
    apply (fmtN_digit 10 (Z.to_N z)); [lia|]. rewrite Hs. left. }
  unfold ParseInt. rewrite !decide_False by (intros ->; done).
  unfold parseUint. rewrite decide_False by done.
  pose proof (parseUintLoop_parse (c :: s) 0 (Z.to_N z) Hp ltac:(unfold maxUint64; lia)) as Hu.
  change (Z.of_N 0) with 0%Z in Hu. rewrite Hu.
  rewrite Z2N.id by lia. by rewrite (proj2 (Z.leb_gt _ _)) by lia.
Qed.

(** ** [ListQuery] *)

Record ListQuery := MkListQuery { lq_Q : bytes; lq_Sort : bytes; lq_Order : bytes; lq_Page : Z; lq_Limit : Z }.

Definition order (lq : ListQuery) : bytes := if decide (lq_Order lq = "asc") then "ASC" else "DESC".

Definition clampedLimit (lq : ListQuery) : Z :=
  if (lq_Limit lq <=? 0)%Z || (1000 <? lq_Limit lq)%Z then 100 else lq_Limit lq.

Definition offset (lq : ListQuery) : Z :=
  let p := Z.max (lq_Page lq) 1 in wrap64 ((p - 1) * clampedLimit lq).

Definition page (lq : ListQuery) : Z := if (lq_Page lq <? 1)%Z then 1 else lq_Page lq.

Record PagedResult (A : Type) := MkPaged { Total : Z; PageOf : Z; LimitOf : Z; Items : list A }.
Arguments MkPaged {A}.
Arguments Total {A}.
Arguments PageOf {A}.
Arguments LimitOf {A}.
Arguments Items {A}.

(** The rows of a result set: the items, and the total of the last row read. *)
Definition scanRows {A} (lq : ListQuery) (rs : list (A * Z)) : PagedResult A :=
  MkPaged (fold_left (λ _ r, r.2) rs 0%Z) (page lq) (clampedLimit lq) rs.*1.

Section listing.
Context `{Postgres db}.

(** The whitelist of sort columns. *)
Definition sortCol (lq : ListQuery) : column :=
  if decide (lq_Sort lq = "domain") then ColDomain
  else if decide (lq_Sort lq = "created_at") then ColCreatedAt
  else if decide (lq_Sort lq = "updated_at") then ColUpdatedAt
  else ColCreatedAt.

Definition whereOf (enabledOnly : bool) (lq : ListQuery) : whereClause :=
  let like := "%" ++ lq_Q lq ++ "%" in
  if enabledOnly && bool_decide (lq_Q lq ≠ []) then WEnabledLike like
  else if enabledOnly then WEnabled
  else if decide (lq_Q lq ≠ []) then WLike like
  else WAll.

Definition descending (lq : ListQuery) : bool := bool_decide (order lq = "DESC").

(** [List]; [None] is an error of the query. *)
Definition List (enabledOnly : bool) (lq : ListQuery) (pg : db) : option (PagedResult Entry) :=
  scanRows lq <$>
    SELECT_entries (whereOf enabledOnly lq) (sortCol lq) (descending lq) (clampedLimit lq) (offset lq) pg.

Definition AuditLog (domain : bytes) (lq : ListQuery) (pg : db) : option (PagedResult AuditEntry) :=
  scanRows lq <$> SELECT_audit domain (clampedLimit lq) (offset lq) pg.
End listing.

(** ** Bounds *)

Lemma clampedLimit_bounds lq : (1 ≤ clampedLimit lq ≤ 1000)%Z.
Proof.
  unfold clampedLimit. destruct (Z.leb_spec (lq_Limit lq) 0), (Z.ltb_spec 1000 (lq_Limit lq)); simpl; lia.
Qed.

Lemma offset_exact lq :
  (1 ≤ lq_Page lq)%Z → (lq_Page lq * clampedLimit lq < 2 ^ 63)%Z →
  offset lq = ((lq_Page lq - 1) * clampedLimit lq)%Z.
Proof.
  intros Hp Hlt. pose proof (clampedLimit_bounds lq). unfold offset. rewrite Z.max_l by lia.
  apply wrap64_id. unfold int64_range. nia.
Qed.

(** The product is not checked: a page far past the end can have a negative
    offset, which the database refuses, or be the first page again. *)
Lemma offset_wraps :
  (offset (MkListQuery [] [] [] (2 ^ 63 - 1) 100) < 0)%Z ∧
  offset (MkListQuery [] [] [] (2 ^ 62 + 1) 4) = 0%Z.
Proof. done. Qed.

(** C40. The numbers of a list request stay in bounds whatever the query string
    says: the limit is between 1 and 1000, the one asked for if it is; the page is
    at least 1; the offset is a 64-bit number, and it is the place where the page
    begins exactly when that place is below 2^63: past that it has wrapped to
    another one. *)
Theorem query_bounds q s o pageText limitText :
  let lq := MkListQuery q s o (ParseInt pageText) (ParseInt limitText) in
  (1 ≤ clampedLimit lq ≤ 1000)%Z ∧
  ((1 ≤ ParseInt limitText ≤ 1000)%Z → clampedLimit lq = ParseInt limitText) ∧
  (1 ≤ page lq < 2 ^ 63)%Z ∧ int64_range (offset lq) ∧
  (offset lq = ((page lq - 1) * clampedLimit lq)%Z ↔ ((page lq - 1) * clampedLimit lq < 2 ^ 63)%Z).
Proof.
  cbv zeta. set (lq := MkListQuery _ _ _ _ _). pose proof (clampedLimit_bounds lq) as Hlim.
  pose proof (ParseInt_range pageText) as Hp. unfold int64_range in Hp.
  assert (page lq = Z.max (lq_Page lq) 1) as Hpage.
  { unfold page. destruct (Z.ltb_spec (lq_Page lq) 1); lia. }
  assert (1 ≤ page lq < 2 ^ 63)%Z as Hpr by (rewrite Hpage; subst lq; cbn [lq_Page]; lia).
  split_and!; [lia|lia| |lia|lia|apply wrap64_range|].
  - intros Hl. unfold clampedLimit. subst lq. cbn [lq_Limit].
    by rewrite (proj2 (Z.leb_gt _ _)), (proj2 (Z.ltb_ge _ _)) by lia.
  - unfold offset. rewrite <-Hpage. split.
    + intros Heq. pose proof (wrap64_range ((page lq - 1) * clampedLimit lq)) as Hr. unfold int64_range in Hr. lia.
    + intros Hlt. apply wrap64_id. unfold int64_range. nia.
Qed.

(** ** Pages *)

Definition withPage (lq : ListQuery) (p : Z) : ListQuery :=
  MkListQuery (lq_Q lq) (lq_Sort lq) (lq_Order lq) p (lq_Limit lq).

Section pages.
Context {A : Type}.
Implicit Types rows : list A.

(** Page [i] of a list, counted from zero. *)
Definition pageAt (limit i : nat) rows : list A := take limit (drop (i * limit) rows).

Lemma pages_take limit n rows : concat (map (λ i, pageAt limit i rows) (seq 0 n)) = take (n * limit) rows.
Proof.
  induction n as [|n IH]; [done|]. rewrite seq_S, map_app, concat_app, IH. simpl. rewrite app_nil_r.
  unfold pageAt. rewrite <-(take_drop (n * limit) rows) at 3.
  rewrite take_app, take_take, length_take.
  replace (min (limit + n * limit) (n * limit)) with (n * limit)%nat by lia. f_equal.
  destruct (decide (n * limit ≤ length rows)%nat); [by replace (limit + n * limit - _)%nat with limit by lia|].
  by rewrite drop_ge, !take_nil by lia.
Qed.

Lemma window_items limit i rows :
  (window (Z.of_nat limit) (Z.of_nat (i * limit)) rows).*1 = pageAt limit i rows.
Proof.
  unfold window, pageAt. rewrite !Nat2Z.id, <-list_fmap_compose. apply list_fmap_id.
Qed.

Lemma window_total lq limit i rows :
  (0 < limit)%nat →
  Total (scanRows lq (window (Z.of_nat limit) (Z.of_nat (i * limit)) rows)) =
  if decide (i * limit < length rows)%nat then Z.of_nat (length rows) else 0%Z.
Proof.
  intros Hl. unfold window. rewrite !Nat2Z.id. cbn [scanRows Total]. case_decide as Hd.
  - destruct (drop (i * limit) rows) as [|r rs] eqn:Hr.
    { apply (f_equal length) in Hr. rewrite length_drop in Hr. simpl in Hr. lia. }
    destruct limit as [|limit]; [lia|]. simpl. generalize (take limit rs). intros l.
    induction l as [|x l IH] using rev_ind; [done|]. by rewrite map_app, fold_left_app.
  - by rewrite drop_ge, take_nil by lia.
Qed.
End pages.

Section partition.
Context `{PostgresLaws db}.

Lemma List_window enabledOnly lq pg (r : PagedResult Entry) :
  (∀ a b, a ∈ rowsOf (entriesT (tablesOf pg)) → b ∈ rowsOf (entriesT (tablesOf pg)) →
     sorts (sortCol lq) (descending lq) a b → sorts (sortCol lq) (descending lq) b a → a = b) →
  ∀ rows, rows ≡ₚ filter (λ e, matches (whereOf enabledOnly lq) e = true) (rowsOf (entriesT (tablesOf pg))) →
  Sorted (sorts (sortCol lq) (descending lq)) rows →
  List enabledOnly lq pg = Some r → r = scanRows lq (window (clampedLimit lq) (offset lq) rows).
Proof.
  intros Hanti rows Hrows Hsorted Hl. unfold List in Hl.
  pose proof (SELECT_entries_ok (whereOf enabledOnly lq) (sortCol lq) (descending lq) (clampedLimit lq)
                (offset lq) pg) as Hs.
  destruct (SELECT_entries _ _ _ _ _ pg) as [rs|]; [|done]. simpl in Hl. injection Hl as <-.
  destruct Hs as (_ & _ & rows' & Hrows' & Hsorted' & ->). f_equal. f_equal.
  pose proof (sorts_trans (sortCol lq) (descending lq)) as Htr.
  apply (Sorted_unique_strong (sorts (sortCol lq) (descending lq))); [|done|done|by rewrite Hrows'].
  intros a b Ha Hb. rewrite Hrows' in Ha. rewrite Hrows in Hb.
  apply list_elem_of_filter in Ha as [_ Ha], Hb as [_ Hb]. by apply Hanti.
Qed.

(** C36. Consecutive pages partition the list: read in order, the first [n] pages
    are the first rows of one sorted list of all matching entries, none twice and
    none left out, provided that the sort column orders the entries without ties;
    and the total is their number on every page that has a row, but zero on the
    pages past the end. *)
Theorem pages_partition enabledOnly lq pg n (r : nat → PagedResult Entry) :
  (∀ a b, a ∈ rowsOf (entriesT (tablesOf pg)) → b ∈ rowsOf (entriesT (tablesOf pg)) →
     sorts (sortCol lq) (descending lq) a b → sorts (sortCol lq) (descending lq) b a → a = b) →
  (Z.of_nat n * clampedLimit lq < 2 ^ 63)%Z → (0 < n)%nat →
  (∀ i, (i < n)%nat → List enabledOnly (withPage lq (Z.of_nat (S i))) pg = Some (r i)) →
  ∃ rows,
    rows ≡ₚ filter (λ e, matches (whereOf enabledOnly lq) e = true) (rowsOf (entriesT (tablesOf pg))) ∧
    Sorted (sorts (sortCol lq) (descending lq)) rows ∧
    concat (map (λ i, Items (r i)) (seq 0 n)) = take (n * Z.to_nat (clampedLimit lq)) rows ∧
    ∀ i, (i < n)%nat →
      Total (r i) = if decide (i * Z.to_nat (clampedLimit lq) < length rows)%nat
                    then Z.of_nat (length rows) else 0%Z.
Proof.
  intros Hanti Hmax Hn Hr. pose proof (clampedLimit_bounds lq) as Hlim.
  pose proof (SELECT_entries_ok (whereOf enabledOnly lq) (sortCol lq) (descending lq) (clampedLimit lq)
                (offset (withPage lq 1)) pg) as Hs.
  specialize (Hr 0%nat Hn) as Hl0. unfold List in Hl0.
  change (clampedLimit (withPage lq _)) with (clampedLimit lq) in Hl0.
  change (whereOf enabledOnly (withPage lq _)) with (whereOf enabledOnly lq) in Hl0.
  change (sortCol (withPage lq _)) with (sortCol lq) in Hl0.
  change (descending (withPage lq _)) with (descending lq) in Hl0. simpl Z.of_nat in Hl0.
  destruct (SELECT_entries _ _ _ _ _ pg) as [rs|]; [|done].
  destruct Hs as (_ & _ & rows & Hrows & Hsorted & _). clear Hl0 rs.
  set (limit := Z.to_nat (clampedLimit lq)).
  assert (∀ i, (i < n)%nat →
    r i = scanRows (withPage lq (Z.of_nat (S i))) (window (Z.of_nat limit) (Z.of_nat (i * limit)) rows)) as Hw.
  { intros i Hi. rewrite (List_window enabledOnly (withPage lq (Z.of_nat (S i))) pg (r i) Hanti rows Hrows Hsorted
      (Hr i Hi)). do 2 f_equal.
    - subst limit. by rewrite Z2Nat.id by lia.
    - rewrite offset_exact; simpl lq_Page; change (clampedLimit (withPage lq _)) with (clampedLimit lq);
        subst limit; nia. }
  exists rows. split_and!; [done|done| |].
  - rewrite <-pages_take. f_equal. apply map_ext_in. intros i [_ Hi]%in_seq.
    rewrite (Hw i) by lia. apply window_items.
  - intros i Hi. rewrite (Hw i Hi). apply window_total. subst limit. lia.
Qed.
End partition.

(** ** Instances *)

Section witnesses.

Definition sampleRow (i : Z) (d : bytes) : Entry := MkEntryRow i d true [] "ann" i "ann" i.

Definition sampleEntries : gmap bytes Entry :=
  list_to_map ((λ e, (e_Domain e, e)) <$> [sampleRow 1 "a.example"; sampleRow 2 "b.example"; sampleRow 3 "c.example"]).

Definition samplePG : pgdb := MkPG (MkTables sampleEntries [] ∅ ∅) 4 10.

Definition sampleQuery : ListQuery := MkListQuery [] "created_at" "asc" 1 2.

Definition samplePage (i : nat) : PagedResult Entry :=
  default (MkPaged 0 0 0 []) (List true (withPage sampleQuery (Z.of_nat (S i))) samplePG).

Lemma pages_partition_witness :
  map (λ i, (Total (samplePage i), e_Domain <$> Items (samplePage i))) (seq 0 2) =
    [(3%Z, [str "a.example"; str "b.example"]); (3%Z, [str "c.example"])] ∧
  ∃ rows, rows ≡ₚ filter (λ e, matches (whereOf true sampleQuery) e = true) (rowsOf sampleEntries) ∧
          concat (map (λ i, Items (samplePage i)) (seq 0 2)) = take 4 rows.
Proof.
  split; [vm_compute; reflexivity|].
  destruct (pages_partition true sampleQuery samplePG 2 samplePage) as (rows & Hp & _ & Hc & _).
  - assert (Forall (λ a, Forall (λ b, e_CreatedAt a = e_CreatedAt b → a = b)
      (rowsOf (entriesT (tablesOf samplePG)))) (rowsOf (entriesT (tablesOf samplePG)))) as Hall.
    { vm_compute. repeat constructor; intros; done. }
    rewrite Forall_forall in Hall. intros a b Ha Hb Hab Hba. specialize (Hall a Ha).
    rewrite Forall_forall in Hall. apply (Hall b Hb). change (e_CreatedAt a ≤ e_CreatedAt b)%Z in Hab. change (e_CreatedAt b ≤ e_CreatedAt a)%Z in Hba. lia.
  - reflexivity.
  - lia.
  - intros i Hi. assert (i = 0 ∨ i = 1)%nat as [->| ->] by lia; vm_compute; reflexivity.
  - exists rows. split; [exact Hp|exact Hc].
Defined.
End witnesses.
