(* ===== verification/Store.v ===== *)
(** * The blocklist store of the API ([internal/api/blocklist.go])

    Each change is a transaction on PostgreSQL that writes the entry and its
    audit row, followed, once committed, by a pipeline of Redis commands whose
    failure is only logged.  Transactions are programs of a state-and-error
    monad over a database state. *)
From S2P Require Import Prelude GoStrings Postgres.

(** ** Transactions *)

(** [ErrDuplicate], [ErrNotFound], or any other error. *)
Inductive storeErr := ErrDuplicate | ErrNotFound | ErrStore.

#[export] Instance storeErr_eq_dec : EqDecision storeErr.
Proof. solve_decision. Defined.

Declare Scope tx_scope.
Delimit Scope tx_scope with tx.

Section monad.
Context {db : Type}.

Definition txM (A : Type) : Type := db → (A + storeErr) * db.

Definition txRet {A} (a : A) : txM A := λ t, (inl a, t).
Definition txFail {A} (e : storeErr) : txM A := λ t, (inr e, t).

Definition txBind {A B} (m : txM A) (f : A → txM B) : txM B := λ t,
  match m t with (inl a, t) => f a t | (inr e, t) => (inr e, t) end.

(** [QueryRow(...).Scan(...)]: no row is the given error. *)
Definition queryRow {A} (stmt : db → rowResult A * db) (noRows : storeErr) : txM A := λ t,
  match stmt t with
  | (Row a, t) => (inl a, t)
  | (NoRows, t) => (inr noRows, t)
  | (RowErr, t) => (inr ErrStore, t)
  end.

Definition execOk (stmt : db → bool * db) : txM unit := λ t,
  match stmt t with (true, t) => (inl tt, t) | (false, t) => (inr ErrStore, t) end.

(** [Exec] with the number of rows affected. *)
Definition execTag (stmt : db → option N * db) : txM N := λ t,
  match stmt t with (Some n, t) => (inl n, t) | (None, t) => (inr ErrStore, t) end.
End monad.
Arguments txM db A : clear implicits.

Notation "x <~ m ;;; k" := (txBind m (λ x, k)) (at level 100, m at next level, right associativity) : tx_scope.
Notation "m >>> k" := (txBind m (λ _, k)) (at level 100, right associativity) : tx_scope.
Local Open Scope tx_scope.

(** [Begin], the statements, [Commit]; the deferred [Rollback] drops the state
    of a transaction that is not committed. *)
Definition withTx `{Postgres db} {A} (m : txM db A) (pg : db) : (A + storeErr) * db :=
  match Begin pg with
  | None => (inr ErrStore, pg)
  | Some tx =>
      match m tx with
      | (inr e, _) => (inr e, pg)
      | (inl a, tx) =>
          let '(ok, pg) := Commit tx pg in
          if ok : bool then (inl a, pg) else (inr ErrStore, pg)
      end
  end.

(** ** The store *)

Record Store (db rd : Type) := MkStore { pool : db; rdb : rd }.
Arguments MkStore {db rd}.
Arguments pool {db rd}.
Arguments rdb {db rd}.

Definition redisSetKey : bytes := "blocklist:domains".
Definition redisPubSubCh : bytes := "blocklist:changed".

(** [UpdateRequest]; [None] is a nil pointer. *)
Record UpdateRequest := MkUpdate { up_Enabled : option bool; up_Comment : option bytes; up_Actor : bytes }.

Section operations.
Context `{Postgres db, RedisSets rd}.
Implicit Types s : Store db rd.

(** The commands of a pipeline; an error is only logged. *)
Definition pipe (cs : list redisCmd) (r : rd) : rd := (PIPELINE cs r).2.

Definition AddTx (domain comment actor : bytes) : txM db Entry :=
  e <~ queryRow (INSERT_entry domain comment actor) ErrDuplicate;;;
  execOk (INSERT_audit domain "add" actor comment) >>>
  txRet e.

Definition addCmds (domain : bytes) : list redisCmd :=
  [CSAdd redisSetKey [domain]; CPublish redisPubSubCh ("add:" ++ domain)].

Definition Add (domain comment actor : bytes) s : (Entry + storeErr) * Store db rd :=
  match withTx (AddTx domain comment actor) (pool s) with
  | (inl e, pg) => (inl e, MkStore pg (pipe (addCmds domain) (rdb s)))
  | (inr err, pg) => (inr err, MkStore pg (rdb s))
  end.

Definition action (req : UpdateRequest) : bytes :=
  match up_Enabled req with
  | Some true => "enable"
  | Some false => "disable"
  | None => "update"
  end.

Definition UpdateTx (domain : bytes) (req : UpdateRequest) : txM db Entry :=
  e <~ queryRow (UPDATE_entry domain (up_Enabled req) (up_Comment req) (up_Actor req)) ErrNotFound;;;
  execOk (INSERT_audit domain (action req) (up_Actor req) (default [] (up_Comment req))) >>>
  txRet e.

Definition updateCmds (domain : bytes) (req : UpdateRequest) : list redisCmd :=
  match up_Enabled req with
  | Some en =>
      [if en then CSAdd redisSetKey [domain] else CSRem redisSetKey domain;
       CPublish redisPubSubCh (action req ++ ":" ++ domain)]
  | None => []
  end.

Definition Update (domain : bytes) (req : UpdateRequest) s : (Entry + storeErr) * Store db rd :=
  match withTx (UpdateTx domain req) (pool s) with
  | (inl e, pg) =>
      (inl e, MkStore pg (match up_Enabled req with
                          | Some _ => pipe (updateCmds domain req) (rdb s)
                          | None => rdb s
                          end))
  | (inr err, pg) => (inr err, MkStore pg (rdb s))
  end.

Definition RemoveTx (domain actor comment : bytes) : txM db unit :=
  n <~ execTag (DELETE_entry domain);;;
  if (n =? 0)%N then txFail ErrNotFound
  else execOk (INSERT_audit domain "remove" actor comment).

Definition removeCmds (domain : bytes) : list redisCmd :=
  [CSRem redisSetKey domain; CPublish redisPubSubCh ("remove:" ++ domain)].

Definition Remove (domain actor comment : bytes) s : (unit + storeErr) * Store db rd :=
  match withTx (RemoveTx domain actor comment) (pool s) with
  | (inl _, pg) => (inl tt, MkStore pg (pipe (removeCmds domain) (rdb s)))
  | (inr err, pg) => (inr err, MkStore pg (rdb s))
  end.

(** [syncToRedis]: whether it succeeded. *)
Definition syncToRedis s : bool * Store db rd :=
  match SELECT_enabled (pool s) with
  | None => (false, s)
  | Some members =>
      let cs := CDel redisSetKey ::
                (if decide (0 < length members)%nat then [CSAdd redisSetKey members] else []) in
      match PIPELINE cs (rdb s) with
      | (true, r) => (true, MkStore (pool s) (pipe [CPublish redisPubSubCh "sync"] r))
      | (false, r) => (false, MkStore (pool s) r)
      end
  end.
End operations.

(** ** Specification *)

(** A change asked of the store. *)
Inductive change :=
  | ChAdd (domain comment actor : bytes)
  | ChUpdate (domain : bytes) (req : UpdateRequest)
  | ChRemove (domain actor comment : bytes).

Definition changeDomain (o : change) : bytes :=
  match o with ChAdd d _ _ | ChUpdate d _ | ChRemove d _ _ => d end.

(** Domain, action, actor and comment of an audit row. *)
Definition auditKey (r : AuditEntry) : bytes * bytes * bytes * bytes :=
  (au_Domain r, au_Action r, au_Actor r, au_Comment r).

Definition changeAudit (o : change) : bytes * bytes * bytes * bytes :=
  match o with
  | ChAdd d c a => (d, str "add", a, c)
  | ChUpdate d req => (d, action req, up_Actor req, default [] (up_Comment req))
  | ChRemove d a c => (d, str "remove", a, c)
  end.

(** What a change does to the entries; the entry it returns, if any. *)
Definition entryEffect (o : change) (m m' : gmap bytes Entry) (res : option Entry) : Prop :=
  match o with
  | ChAdd d c a =>
      ∃ e, res = Some e ∧ m !! d = None ∧ m' = <[d := e]> m ∧
           e_Domain e = d ∧ e_Enabled e = true ∧ e_Comment e = c ∧ e_CreatedBy e = a ∧ e_UpdatedBy e = a
  | ChUpdate d req =>
      ∃ old e, res = Some e ∧ m !! d = Some old ∧ m' = <[d := e]> m ∧
           e_Domain e = e_Domain old ∧ e_ID e = e_ID old ∧
           e_Enabled e = default (e_Enabled old) (up_Enabled req) ∧
           e_Comment e = default (e_Comment old) (up_Comment req) ∧
           e_CreatedBy e = e_CreatedBy old ∧ e_CreatedAt e = e_CreatedAt old ∧ e_UpdatedBy e = up_Actor req
  | ChRemove d _ _ => res = None ∧ is_Some (m !! d) ∧ m' = delete d m
  end.

(** The whole change: the entry and one audit row, together. *)
Definition changes (o : change) (t t' : tables) (res : option Entry) : Prop :=
  ∃ m r, entryEffect o (entriesT t) m res ∧ auditKey r = changeAudit o ∧ t' = withAudit r (withEntries m t).

Section store_spec.
Context `{PostgresLaws db, RedisSetsLaws rd}.
Implicit Types s : Store db rd.

Definition changeTx (o : change) : txM db (option Entry) :=
  match o with
  | ChAdd d c a => e <~ AddTx d c a;;; txRet (Some e)
  | ChUpdate d req => e <~ UpdateTx d req;;; txRet (Some e)
  | ChRemove d a c => RemoveTx d a c >>> txRet None
  end.

(** The changes as operations of one type. *)
Definition applyChange (o : change) s : (option Entry + storeErr) * Store db rd :=
  match o with
  | ChAdd d c a => let '(r, s) := Add d c a s in (match r with inl e => inl (Some e) | inr e => inr e end, s)
  | ChUpdate d req => let '(r, s) := Update d req s in (match r with inl e => inl (Some e) | inr e => inr e end, s)
  | ChRemove d a c => let '(r, s) := Remove d a c s in (match r with inl _ => inl None | inr e => inr e end, s)
  end.

Definition changeCmds (o : change) : list redisCmd :=
  match o with
  | ChAdd d _ _ => addCmds d
  | ChUpdate d req => updateCmds d req
  | ChRemove d _ _ => removeCmds d
  end.

(** The pipelines that are run: none for an update of the comment alone. *)
Definition changePipe (o : change) (r : rd) : rd :=
  match o with
  | ChUpdate _ (MkUpdate None _ _) => r
  | _ => pipe (changeCmds o) r
  end.

(** *** The statements of a change *)

(** What PostgreSQL answers to the statement on the entry, and to the insertion of
    the audit row. *)
Definition entryStmt (o : change) (tx : db) : rowResult unit * db :=
  match o with
  | ChAdd d c a => let '(r, tx) := INSERT_entry d c a tx in
      (match r with Row _ => Row tt | NoRows => NoRows | RowErr => RowErr end, tx)
  | ChUpdate d req => let '(r, tx) := UPDATE_entry d (up_Enabled req) (up_Comment req) (up_Actor req) tx in
      (match r with Row _ => Row tt | NoRows => NoRows | RowErr => RowErr end, tx)
  | ChRemove d _ _ => let '(n, tx) := DELETE_entry d tx in
      (match n with Some 0%N => NoRows | Some _ => Row tt | None => RowErr end, tx)
  end.

Definition auditStmt (o : change) (tx : db) : bool * db :=
  let '(d, act, a, c) := changeAudit o in INSERT_audit d act a c tx.

(** It reports an error to a statement of the change, or to the commit. *)
Definition stmtError (o : change) (tx : db) : Prop :=
  match entryStmt o tx with
  | (Row _, tx) => (auditStmt o tx).1 = false
  | (NoRows, _) => False
  | (RowErr, _) => True
  end.

(** The state in which the change is committed. *)
Definition changeEnd (o : change) (tx : db) : db := (auditStmt o (entryStmt o tx).2).2.

Definition dbError (o : change) (pg : db) : Prop :=
  match Begin pg with
  | None => True
  | Some tx => stmtError o tx ∨ (Commit (changeEnd o tx) pg).1 = false
  end.

(** The answer to the commit was an error, and this is what it has left. *)
Definition commitLost (o : change) (pg pg' : db) : Prop :=
  ∃ tx, Begin pg = Some tx ∧ Commit (changeEnd o tx) pg = (false, pg').

(** What a change answers about the tables it found: a duplicate, a missing
    domain, or, only then, an error of PostgreSQL. *)
Definition answerOf (o : change) (t : tables) (e : storeErr) (failed : Prop) : Prop :=
  match e with
  | ErrDuplicate => (∃ d c a, o = ChAdd d c a) ∧ is_Some (entriesT t !! changeDomain o)
  | ErrNotFound => ¬ (∃ d c a, o = ChAdd d c a) ∧ entriesT t !! changeDomain o = None
  | ErrStore => failed
  end.

Definition refusal (o : change) (pg : db) (e : storeErr) : Prop := answerOf o (tablesOf pg) e (dbError o pg).

Lemma auditStep d act a c (tx : db) :
  match execOk (INSERT_audit d act a c) tx with
  | (inl _, tx') => ∃ r, auditKey r = (d, act, a, c) ∧ tablesOf tx' = withAudit r (tablesOf tx)
  | (inr err, _) => err = ErrStore ∧ (INSERT_audit d act a c tx).1 = false
  end ∧ (execOk (INSERT_audit d act a c) tx).2 = (INSERT_audit d act a c tx).2.
Proof.
  unfold execOk. pose proof (INSERT_audit_ok d act a c tx) as Ha.
  destruct (INSERT_audit d act a c tx) as [[] tx']; [|done]. split; [|done].
  destruct Ha as (r & ? & ? & ? & ? & Ht). exists r. split; [unfold auditKey; congruence|done].
Qed.

Lemma changeTx_spec o tx :
  match changeTx o tx with
  | (inl res, tx') => changes o (tablesOf tx) (tablesOf tx') res ∧ tx' = changeEnd o tx
  | (inr e, _) => answerOf o (tablesOf tx) e (stmtError o tx)
  end.
Proof.
  unfold changeEnd, stmtError.
  destruct o as [d c a|d req|d a c]; unfold changeTx, AddTx, UpdateTx, RemoveTx, txBind, queryRow, execTag;
    cbn [entryStmt auditStmt changeAudit].
  - pose proof (INSERT_entry_ok d c a tx) as Hi. destruct (INSERT_entry d c a tx) as [[e| |] t1]; [|split; [by eexists _, _, _|apply Hi]|done].
    destruct Hi as (Hd & He1 & He2 & He3 & He4 & He5 & Ht1).
    destruct (auditStep d "add" a c t1) as [Ha He]. destruct (execOk _ t1) as [[[]|err] t2]; [|by destruct Ha as [-> Ha]].
    destruct Ha as (r & Hr & Ht2). cbn in He |- *. split; [|done].
    eexists _, r. rewrite Ht2, Ht1. split_and!; [|done|done]. by exists e.
  - pose proof (UPDATE_entry_ok d (up_Enabled req) (up_Comment req) (up_Actor req) tx) as Hi.
    destruct (UPDATE_entry _ _ _ _ tx) as [[e| |] t1]; [|split; [by intros (?&?&?&?)|apply Hi]|done].
    destruct Hi as (old & Hd & He1 & He2 & He3 & He4 & He5 & He6 & He7 & Ht1).
    destruct (auditStep d (action req) (up_Actor req) (default [] (up_Comment req)) t1) as [Ha He].
    destruct (execOk _ t1) as [[[]|err] t2]; [|by destruct Ha as [-> Ha]].
    destruct Ha as (r & Hr & Ht2). cbn in He |- *. split; [|done].
    eexists _, r. rewrite Ht2, Ht1. split_and!; [|done|done]. by exists old, e.
  - pose proof (DELETE_entry_ok d tx) as Hi. destruct (DELETE_entry d tx) as [[n|] t1]; [|done].
    destruct Hi as [Ht1 Hn]. destruct n as [|n]; cbn; [split; [by intros (?&?&?&?)|by apply Hn]|].
    destruct (auditStep d "remove" a c t1) as [Ha He]. destruct (execOk _ t1) as [[[]|err] t2]; [|by destruct Ha as [-> Ha]].
    destruct Ha as (r & Hr & Ht2). cbn in He |- *. split; [|done].
    eexists _, r. rewrite Ht2, Ht1. split_and!; [|done|done].
    split_and!; [done| |done]. destruct (entriesT (tablesOf tx) !! d); [by eexists|naive_solver].
Qed.

(** *** The transaction around them *)

(** The outcomes of a transaction: committed; failed, with nothing changed; not
    begun; or failed in the commit, which may have taken place all the same. *)
Inductive txOutcome {A} (m : txM db A) (pg : db) : (A + storeErr) * db → Prop :=
  | tx_committed a tx tx' pg' :
      tablesOf tx = tablesOf pg → m tx = (inl a, tx') → tablesOf pg' = tablesOf tx' →
      txOutcome m pg (inl a, pg')
  | tx_failed e tx tx' :
      Begin pg = Some tx → tablesOf tx = tablesOf pg → m tx = (inr e, tx') → txOutcome m pg (inr e, pg)
  | tx_not_begun : Begin pg = None → txOutcome m pg (inr ErrStore, pg)
  | tx_unclear a tx tx' pg' :
      Begin pg = Some tx → tablesOf tx = tablesOf pg → m tx = (inl a, tx') → Commit tx' pg = (false, pg') →
      (tablesOf pg' = tablesOf pg ∨ tablesOf pg' = tablesOf tx') →
      txOutcome m pg (inr ErrStore, pg').

Lemma withTx_outcome {A} (m : txM db A) pg : txOutcome m pg (withTx m pg).
Proof.
  unfold withTx. destruct (Begin pg) as [tx|] eqn:Hbegin; [|by constructor].
  pose proof (Begin_ok _ _ Hbegin) as Hb. destruct (m tx) as [[a|e] tx'] eqn:Hm.
  - destruct (Commit tx' pg) as [[] pg'] eqn:Hc.
    + eapply tx_committed; [done..|]. by eapply Commit_ok.
    + eapply tx_unclear; [done..|]. by eapply Commit_err.
  - by eapply tx_failed.
Qed.

Lemma withTx_map {A B} (m : txM db A) (f : A → B) pg :
  withTx (x <~ m;;; txRet (f x)) pg =
  (match (withTx m pg).1 with inl a => inl (f a) | inr e => inr e end, (withTx m pg).2).
Proof.
  unfold withTx, txBind. destruct (Begin pg) as [tx|]; [|done].
  destruct (m tx) as [[a|e] tx']; [|done]. simpl. by destruct (Commit tx' pg) as [[] pg'].
Qed.

(** A change is its transaction, and its pipeline once that is committed. *)
Lemma applyChange_run o s :
  applyChange o s =
  match withTx (changeTx o) (pool s) with
  | (inl res, pg) => (inl res, MkStore pg (changePipe o (rdb s)))
  | (inr e, pg) => (inr e, MkStore pg (rdb s))
  end.
Proof.
  destruct o as [d c a|d req|d a c]; unfold applyChange, changeTx, Add, Update, Remove; rewrite withTx_map.
  - by destruct (withTx _ (pool s)) as [[e|e] pg].
  - destruct (withTx _ (pool s)) as [[e|e] pg]; [|done]. by destruct req as [[en|] c a].
  - by destruct (withTx _ (pool s)) as [[e|e] pg].
Qed.

Lemma applyChange_atomic o s :
  let '(r, s') := applyChange o s in
  match r with
  | inl res =>
      changes o (tablesOf (pool s)) (tablesOf (pool s')) res ∧ rdb s' = changePipe o (rdb s)
  | inr e =>
      rdb s' = rdb s ∧
      ((tablesOf (pool s') = tablesOf (pool s) ∧ refusal o (pool s) e) ∨
       (e = ErrStore ∧ commitLost o (pool s) (pool s') ∧
        ∃ res, changes o (tablesOf (pool s)) (tablesOf (pool s')) res))
  end.
Proof.
  rewrite applyChange_run. pose proof (withTx_outcome (changeTx o) (pool s)) as Ho.
  destruct Ho as [a tx tx' pg' Ht Hm Hc|e tx tx' Hb Ht Hm|Hb|a tx tx' pg' Hb Ht Hm Hcm Hc]; simpl;
    try (pose proof (changeTx_spec o tx) as Hs; rewrite Hm, Ht in Hs).
  - destruct Hs as [Hs _]. by rewrite Hc.
  - split; [done|]. left. split; [done|]. unfold refusal, dbError. rewrite Hb. destruct e; [done|done|by left].
  - split; [done|]. left. split; [done|]. unfold refusal, dbError. by rewrite Hb.
  - destruct Hs as [Hs ->]. split; [done|]. destruct Hc as [Hc|Hc].
    + left. split; [done|]. unfold refusal, dbError. rewrite Hb. right. by rewrite Hcm.
    + right. split_and!; [done|by exists tx|]. exists a. by rewrite Hc.
Qed.
End store_spec.

(** ** Redis and the audit log follow the table *)

(** The Redis set is exactly the enabled entries. *)
Definition enabledIn (t : tables) (d : bytes) : Prop :=
  ∃ e, entriesT t !! d = Some e ∧ e_Enabled e = true.

Definition coherent `{Postgres db, RedisSets rd} (s : Store db rd) : Prop :=
  ∀ d, d ∈ setAt redisSetKey (rdb s) ↔ enabledIn (tablesOf (pool s)) d.

(** A list of changes, one after the other, with their results. *)
Fixpoint applyChanges `{Postgres db, RedisSets rd} (os : list change) (s : Store db rd)
  : list (option Entry + storeErr) * Store db rd :=
  match os with
  | [] => ([], s)
  | o :: os =>
      let '(r, s) := applyChange o s in
      let '(rs, s) := applyChanges os s in (r :: rs, s)
  end.

(** The audit rows due: one for each change that succeeded. *)
Definition auditDue (p : change * (option Entry + storeErr)) : option (bytes * bytes * bytes * bytes) :=
  match p.2 with inl _ => Some (changeAudit p.1) | inr _ => None end.

Section coherence.
Context `{PostgresLaws db, RedisSetsLaws rd}.
Implicit Types s : Store db rd.

Lemma pipe_ok cs (r : rd) :
  (∀ cs r, (PIPELINE cs r).1 = true) → ∀ k, setAt k (pipe cs r) = fold_left (cmdSet k) cs (setAt k r).
Proof.
  intros Hup k. unfold pipe. specialize (Hup cs r). destruct (PIPELINE cs r) as [ok r'] eqn:Hr.
  simpl in *. subst. by apply PIPELINE_ok.
Qed.

Lemma syncToRedis_coherent s s' :
  syncToRedis s = (true, s') → (∀ cs r, (PIPELINE cs r).1 = true) →
  coherent s' ∧ pool s' = pool s.
Proof.
  intros Hsync Hup. unfold syncToRedis in Hsync.
  destruct (SELECT_enabled (pool s)) as [ms|] eqn:Hms; [|done].
  destruct (PIPELINE _ (rdb s)) as [[] r] eqn:Hp; [|done].
  apply (f_equal snd) in Hsync. cbn [snd] in Hsync. subst s'. split; [|done].
  intros d. cbn [rdb pool]. rewrite pipe_ok, (PIPELINE_ok _ _ _ Hp) by done. unfold enabledIn.
  rewrite <-(SELECT_enabled_ok _ _ Hms). destruct ms as [|m ms].
  - simpl. rewrite ?decide_True by done. set_solver.
  - rewrite decide_True by (simpl; lia). simpl. rewrite ?decide_True by done. set_solver.
Qed.

Lemma enabled_insert (m : gmap bytes Entry) d0 e d :
  (∃ x, <[d0 := e]> m !! d = Some x ∧ e_Enabled x = true) ↔
  if decide (d = d0) then e_Enabled e = true else ∃ x, m !! d = Some x ∧ e_Enabled x = true.
Proof.
  case_decide; subst; [rewrite lookup_insert_eq|rewrite lookup_insert_ne by done]; naive_solver.
Qed.

Lemma enabled_delete (m : gmap bytes Entry) d0 d :
  (∃ x, delete d0 m !! d = Some x ∧ e_Enabled x = true) ↔
  if decide (d = d0) then False else ∃ x, m !! d = Some x ∧ e_Enabled x = true.
Proof.
  case_decide; subst; [rewrite lookup_delete_eq|rewrite lookup_delete_ne by done]; naive_solver.
Qed.

(** The pipeline of a change does to the set what the change does to the enabled
    entries. *)
Lemma changes_enabled (o : change) (t t' : tables) (res : option Entry) (S : gset bytes) :
  changes o t t' res → (∀ d, d ∈ S ↔ enabledIn t d) →
  ∀ d, d ∈ fold_left (cmdSet redisSetKey) (changeCmds o) S ↔ enabledIn t' d.
Proof.
  intros (m & r & Heff & _ & ->) HS d. unfold enabledIn in *. cbn [withAudit withEntries entriesT].
  destruct o as [d' c a|d' [en c a]|d' a c]; cbn [entryEffect up_Enabled] in Heff.
  - destruct Heff as (e & _ & Hd & -> & _ & Hen & _). rewrite enabled_insert. simpl.
    case_decide; rewrite <-?HS; set_solver.
  - destruct Heff as (old & e & _ & Hd & -> & _ & _ & Hen & _). rewrite enabled_insert.
    destruct en as [[]|]; simpl in *; rewrite Hen; case_decide; rewrite <-?HS; subst; rewrite ?HS, ?Hd; set_solver.
  - destruct Heff as (_ & _ & ->). rewrite enabled_delete. simpl. case_decide; rewrite <-?HS; set_solver.
Qed.

Lemma changePipe_cmds o (r : rd) :
  (∀ cs r, (PIPELINE cs r).1 = true) →
  setAt redisSetKey (changePipe o r) = fold_left (cmdSet redisSetKey) (changeCmds o) (setAt redisSetKey r).
Proof.
  intros Hup. destruct o as [d' c a|d' [[en|] c a]|d' a c]; unfold changePipe; by rewrite ?pipe_ok.
Qed.

Lemma applyChange_coherent o s :
  (∀ cs r, (PIPELINE cs r).1 = true) →
  (∀ t d d' : db, Commit t d = (false, d') → tablesOf d' = tablesOf d) →
  coherent s → coherent (applyChange o s).2.
Proof.
  intros Hup Hclean Hs. pose proof (applyChange_atomic o s) as Ha.
  destruct (applyChange o s) as [[res|e] s'].
  - destruct Ha as [Hch Hr]. intros d. cbn [snd]. rewrite Hr, changePipe_cmds by done.
    by apply (changes_enabled _ _ _ _ _ Hch).
  - destruct Ha as [Hr Ht]. intros d. cbn [snd]. rewrite Hr, (Hs d).
    destruct Ht as [[-> _]|(_ & [t [_ Hc]] & _)]; [done|]. by rewrite (Hclean _ _ _ Hc).
Qed.

Lemma applyChange_audit o s :
  (∀ t d d' : db, Commit t d = (false, d') → tablesOf d' = tablesOf d) →
  auditKey <$> auditT (tablesOf (pool (applyChange o s).2)) =
  (auditKey <$> auditT (tablesOf (pool s))) ++ option_list (auditDue (o, (applyChange o s).1)).
Proof.
  intros Hclean. pose proof (applyChange_atomic o s) as Ha. destruct (applyChange o s) as [[res|e] s']; simpl.
  - destruct Ha as [(m & r & _ & Hr & ->) _]. simpl. by rewrite fmap_app, <-Hr.
  - rewrite app_nil_r. destruct Ha as [_ [[-> _]|(_ & [t [_ Hc]] & _)]]; [done|]. by rewrite (Hclean _ _ _ Hc).
Qed.

Lemma applyChanges_history os s :
  (∀ cs r, (PIPELINE cs r).1 = true) →
  (∀ t d d' : db, Commit t d = (false, d') → tablesOf d' = tablesOf d) →
  coherent s →
  let '(rs, s') := applyChanges os s in
  coherent s' ∧
  auditKey <$> auditT (tablesOf (pool s')) =
  (auditKey <$> auditT (tablesOf (pool s))) ++ omap auditDue (zip os rs).
Proof.
  intros Hup Hclean. revert s. induction os as [|o os IH]; intros s Hs; simpl; [by rewrite app_nil_r|].
  pose proof (applyChange_coherent o s Hup Hclean Hs) as Hc.
  pose proof (applyChange_audit o s Hclean) as Ha. destruct (applyChange o s) as [r s1]. simpl in Hc, Ha.
  specialize (IH s1 Hc). destruct (applyChanges os s1) as [rs s2]. destruct IH as [Hc2 Ha2].
  split; [done|]. rewrite Ha2, Ha, <-app_assoc. simpl. by destruct (auditDue (o, r)).
Qed.

(** C25. A change is all or nothing, whatever fails: on success the entry has
    changed as asked, every other entry is untouched, and exactly one audit row
    says so; on an error the tables are as before, except that a commit whose
    answer was lost may have done the whole change, never half of it.  An addition
    is refused as a duplicate only of a domain that is there, an update or a
    removal as not found only of one that is not, and any other error only when
    PostgreSQL reports one; and Redis is not touched by a change that failed. *)
Theorem store_atomic o s :
  let '(r, s') := applyChange o s in
  match r with
  | inl res =>
      changes o (tablesOf (pool s)) (tablesOf (pool s')) res ∧ rdb s' = changePipe o (rdb s)
  | inr e =>
      rdb s' = rdb s ∧
      ((tablesOf (pool s') = tablesOf (pool s) ∧ refusal o (pool s) e) ∨
       (e = ErrStore ∧ commitLost o (pool s) (pool s') ∧
        ∃ res, changes o (tablesOf (pool s)) (tablesOf (pool s')) res))
  end.
Proof. apply applyChange_atomic. Qed.

(** C26. After the initial synchronisation, when Redis runs its pipelines, no
    commit fails after the fact and changes do not overlap, the Redis set is
    exactly the enabled entries after every history of changes, failed ones
    included, and the audit log is exactly the list of the changes that
    succeeded, in order. *)
Theorem store_history os s0 s :
  (∀ cs r, (PIPELINE cs r).1 = true) →
  (∀ t d d' : db, Commit t d = (false, d') → tablesOf d' = tablesOf d) →
  syncToRedis s0 = (true, s) →
  let '(rs, s') := applyChanges os s in
  coherent s' ∧
  auditKey <$> auditT (tablesOf (pool s')) =
  (auditKey <$> auditT (tablesOf (pool s0))) ++ omap auditDue (zip os rs).
Proof.
  intros Hup Hclean Hsync. destruct (syncToRedis_coherent s0 s Hsync Hup) as [Hs <-].
  by apply applyChanges_history.
Qed.
End coherence.

(** ** Instances *)

Definition emptyTables : tables := MkTables ∅ [] ∅ ∅.
Definition emptyStore : Store pgdb setdb := MkStore (MkPG emptyTables 1 1000) (∅ : setdb).

Definition exampleChanges : list change :=
  [ChAdd "bad.org" "" "ann"; ChAdd "*.ads.net" "ads" "bob"; ChAdd "bad.org" "again" "eve";
   ChUpdate "bad.org" (MkUpdate (Some false) None "ann"); ChRemove "gone.com" "eve" ""].

(** Where PostgreSQL reports no error, the answers are settled. *)
Lemma pgdb_no_error o (pg : pgdb) : ¬ dbError o pg.
Proof.
  unfold dbError, stmtError. cbn. intros [Hs|Hc]; [|done].
  destruct o as [d c a|d req|d a c]; cbn in Hs; by repeat case_match.
Qed.

(** A pipeline that Redis does not run is only logged: the addition succeeds, and
    the set is wrong with nothing left to run. *)
Definition downSets : RedisSets setdb := {| setAt := setAt; PIPELINE _ d := (false, d); SMEMBERS := SMEMBERS |}.

Lemma downSets_laws : @RedisSetsLaws setdb downSets.
Proof. split; [done|exact (@SMEMBERS_ok setdb setdb_sets setdb_laws)]. Qed.

Lemma failed_pipeline :
  let s := (@Add pgdb _ setdb downSets "bad.org" "" "ann" emptyStore) in
  (∃ e, s.1 = inl e) ∧ enabledIn (tablesOf (pool s.2)) "bad.org" ∧ ¬ coherent s.2.
Proof.
  cbv zeta. assert (enabledIn (tablesOf (pool (@Add pgdb _ setdb downSets "bad.org" "" "ann" emptyStore).2)) "bad.org") as He
    by (eexists; split; vm_compute; reflexivity).
  split_and!; [eexists; vm_compute; reflexivity|exact He|]. intros Hc. apply Hc in He. by vm_compute in He.
Qed.

Lemma store_atomic_witness :
  let s := (applyChanges [ChAdd "bad.org" "" "ann"] emptyStore).2 in
  (applyChange (ChAdd "bad.org" "again" "eve") s).1 = inr ErrDuplicate ∧
  tablesOf (pool (applyChange (ChAdd "bad.org" "again" "eve") s).2) = tablesOf (pool s).
Proof.
  cbv zeta. set (s := (applyChanges [ChAdd "bad.org" "" "ann"] emptyStore).2).
  pose proof (store_atomic (ChAdd "bad.org" "again" "eve") s) as Ha.
  assert ((applyChange (ChAdd "bad.org" "again" "eve") s).1 = inr ErrDuplicate) as Hr by (vm_compute; reflexivity).
  destruct (applyChange (ChAdd "bad.org" "again" "eve") s) as [r s']. cbn [fst snd] in *. rewrite Hr in Ha.
  split; [exact Hr|]. destruct Ha as [_ [[Ht _]|[He _]]]; [exact Ht|discriminate He].
Defined.

Lemma store_history_witness :
  let s := (applyChanges exampleChanges (syncToRedis emptyStore).2).2 in
  coherent s ∧
  auditKey <$> auditT (tablesOf (pool s)) =
    [(str "bad.org", str "add", str "ann", []); (str "*.ads.net", str "add", str "bob", str "ads");
     (str "bad.org", str "disable", str "ann", [])].
Proof.
  pose proof (store_history exampleChanges emptyStore (syncToRedis emptyStore).2 (λ cs r, eq_refl)
    ltac:(intros t d d' [=]) eq_refl) as Hh.
  destruct (applyChanges exampleChanges (syncToRedis emptyStore).2) as [rs s] eqn:Hrun.
  destruct Hh as [Hc Ha]. cbn [snd]. split; [exact Hc|]. rewrite Ha.
  assert (rs = (applyChanges exampleChanges (syncToRedis emptyStore).2).1) as -> by (by rewrite Hrun).
  vm_compute. reflexivity.
Defined.

(** *** Overlapping changes *)

(** Redis is written after the commit, in no particular order: when the pipeline
    of an addition comes after that of a removal that was committed later, the
    domain stays in the set although it is in no table. *)
Lemma store_race :
  let pg := (withTx (AddTx "bad.org" "" "ann") (pool emptyStore)).2 in
  let '(r, pg) := withTx (RemoveTx "bad.org" "bob" "") pg in
  let rd := pipe (addCmds "bad.org") (pipe (removeCmds "bad.org") (rdb emptyStore)) in
  r = inl tt ∧ entriesT (tablesOf pg) !! str "bad.org" = None ∧ str "bad.org" ∈ setAt redisSetKey rd.
Proof. vm_compute. done. Qed.
