(* ===== verification/Overlap.v ===== *)
(** * Overlapping changes ([internal/api/blocklist.go])

    [Add], [Update] and [Remove] called by several requests at once: PostgreSQL
    makes the transactions one after the other, but the Redis pipeline of each
    change runs at any time after its commit.  A step relation over the store and
    the pipelines still to run; Redis agrees with the table again when all have
    run, if changes of one domain did not overlap. *)
From S2P Require Import Prelude GoStrings Postgres Store.
From stdpp Require Import relations.

Section overlap.
Context `{Postgres db, !PostgresLaws db, RedisSets rd, !RedisSetsLaws rd}.
Implicit Types s : Store db rd.

(** The store, and the changes that are committed with their pipeline to run. *)
Definition flight : Type := Store db rd * list change.

(** The two halves of a change: its transaction, and its pipeline.  Starting a
    change of a domain with one in flight is left to [race]. *)
Inductive fstep (race : bool) : flight → flight → Prop :=
  | f_commit o s res pg fl :
      withTx (changeTx o) (pool s) = (inl res, pg) →
      race = true ∨ changeDomain o ∉ changeDomain <$> fl →
      fstep race (s, fl) (MkStore pg (rdb s), fl ++ [o])
  | f_refused o s e pg fl :
      withTx (changeTx o) (pool s) = (inr e, pg) → fstep race (s, fl) (MkStore pg (rdb s), fl)
  | f_pipeline o s a b :
      fstep race (s, a ++ o :: b) (MkStore (pool s) (changePipe o (rdb s)), a ++ b).

(** A change that runs alone is the two halves, one after the other. *)
Lemma applyChange_fsteps race o s :
  rtc (fstep race) (s, []) ((applyChange o s).2, []).
Proof.
  rewrite applyChange_run. destruct (withTx (changeTx o) (pool s)) as [[res|e] pg] eqn:Hw.
  - eapply rtc_l; [eapply (f_commit race o s res pg []); [done|right; apply not_elem_of_nil]|].
    apply rtc_once. apply (f_pipeline race o (MkStore pg (rdb s)) [] []).
  - apply rtc_once. by eapply f_refused.
Qed.

(** *** The commands of a change *)

Definition afterCmds (o : change) (S : gset bytes) : gset bytes := fold_left (cmdSet redisSetKey) (changeCmds o) S.

(** They concern its own domain alone, and what becomes of it depends only on
    whether it is in the set. *)
Lemma afterCmds_other o S d : d ≠ changeDomain o → d ∈ afterCmds o S ↔ d ∈ S.
Proof.
  unfold afterCmds. destruct o as [d' c a|d' [[[]|] c a]|d' a c]; simpl; set_solver.
Qed.

Lemma afterCmds_mem o S S' d : (d ∈ S ↔ d ∈ S') → d ∈ afterCmds o S ↔ d ∈ afterCmds o S'.
Proof.
  unfold afterCmds. intros HS. destruct o as [d' c a|d' [[[]|] c a]|d' a c]; simpl; set_solver.
Qed.

Definition enabledSet (t : tables) : gset bytes := dom (filter (λ kv, e_Enabled kv.2 = true) (entriesT t)).

Lemma enabledSet_spec t d : d ∈ enabledSet t ↔ enabledIn t d.
Proof.
  unfold enabledSet, enabledIn. rewrite elem_of_dom. unfold is_Some. setoid_rewrite map_lookup_filter_Some.
  naive_solver.
Qed.

Lemma changes_pointwise (o : change) (t t' : tables) (res : option Entry) S d :
  changes o t t' res → (d ∈ S ↔ enabledIn t d) → d ∈ afterCmds o S ↔ enabledIn t' d.
Proof.
  intros Hch HS. rewrite (afterCmds_mem o S (enabledSet t)); [|by rewrite enabledSet_spec].
  apply (changes_enabled o t t' res (enabledSet t) Hch (enabledSet_spec t)).
Qed.

Lemma changes_elsewhere (o : change) (t t' : tables) (res : option Entry) d :
  changes o t t' res → d ≠ changeDomain o → enabledIn t' d ↔ enabledIn t d.
Proof.
  intros Hch Hd. rewrite <-(changes_pointwise o t t' res (enabledSet t) d Hch); [|apply enabledSet_spec].
  by rewrite afterCmds_other, enabledSet_spec.
Qed.

(** *** The invariant *)

(** At most one change of a domain is in flight; with its commands the set agrees
    with the table on that domain, and without any on every other. *)
Definition flightOk (x : flight) : Prop :=
  let '(s, fl) := x in
  let S := setAt redisSetKey (rdb s) in
  let t := tablesOf (pool s) in
  NoDup (changeDomain <$> fl) ∧
  (∀ d, d ∉ changeDomain <$> fl → d ∈ S ↔ enabledIn t d) ∧
  (∀ o, o ∈ fl → changeDomain o ∈ afterCmds o S ↔ enabledIn t (changeDomain o)).

Lemma flightOk_commit o s res pg fl :
  withTx (changeTx o) (pool s) = (inl res, pg) → changeDomain o ∉ changeDomain <$> fl →
  flightOk (s, fl) → flightOk (MkStore pg (rdb s), fl ++ [o]).
Proof.
  intros Hw Hfree (Hnd & Hout & Hin).
  assert (changes o (tablesOf (pool s)) (tablesOf pg) res) as Hch.
  { pose proof (applyChange_atomic o s) as Ha. rewrite applyChange_run, Hw in Ha. apply Ha. }
  split_and!; cbn [pool rdb].
  - rewrite fmap_app. apply NoDup_app. split_and!; [done| |apply NoDup_singleton].
    intros d Hd Hd'. apply list_elem_of_singleton in Hd' as ->. done.
  - intros d. rewrite fmap_app. change (changeDomain <$> [o]) with [changeDomain o].
    rewrite elem_of_app, list_elem_of_singleton. intros Hd.
    rewrite (changes_elsewhere o _ _ res d Hch) by tauto. apply Hout. tauto.
  - intros o'. rewrite elem_of_app, list_elem_of_singleton. intros [Ho'| ->].
    + assert (changeDomain o' ≠ changeDomain o) as Hne.
      { intros Heq. apply Hfree. rewrite <-Heq. by apply list_elem_of_fmap_2. }
      rewrite (changes_elsewhere o _ _ res _ Hch) by done. by apply Hin.
    + eapply changes_pointwise; [done|]. by apply Hout.
Qed.

Lemma flightOk_pipeline o s a b :
  (∀ cs (r : rd), (PIPELINE cs r).1 = true) →
  flightOk (s, a ++ o :: b) → flightOk (MkStore (pool s) (changePipe o (rdb s)), a ++ b).
Proof.
  intros Hup (Hnd & Hout & Hin). rewrite fmap_app, fmap_cons in Hnd, Hout.
  assert (changeDomain o ∉ changeDomain <$> (a ++ b)) as Hno.
  { rewrite fmap_app, elem_of_app. apply NoDup_app in Hnd as (_ & Hdis & Hnd%NoDup_cons). intros [Ha|Hb]; [|by destruct Hnd].
    apply (Hdis _ Ha). left. }
  split_and!; cbn [pool rdb].
  - rewrite fmap_app. apply NoDup_app in Hnd as (Ha & Hdis & [_ Hb]%NoDup_cons). apply NoDup_app.
    split_and!; [done| |done]. intros d Hd Hd'. apply (Hdis d Hd). by right.
  - intros d Hd. rewrite changePipe_cmds by done. fold (afterCmds o (setAt redisSetKey (rdb s))).
    destruct (decide (d = changeDomain o)) as [->|Hne].
    + apply Hin. rewrite elem_of_app, elem_of_cons. auto.
    + rewrite afterCmds_other by done. apply Hout. rewrite fmap_app in Hd.
      rewrite elem_of_app, elem_of_cons in *. naive_solver.
  - intros o' Ho'. rewrite changePipe_cmds by done. fold (afterCmds o (setAt redisSetKey (rdb s))).
    assert (changeDomain o' ≠ changeDomain o) as Hne.
    { intros Heq. apply Hno. rewrite <-Heq. by apply list_elem_of_fmap_2. }
    rewrite (afterCmds_mem o' _ (setAt redisSetKey (rdb s))) by (by rewrite afterCmds_other).
    apply Hin. rewrite elem_of_app, elem_of_cons in *. naive_solver.
Qed.

Lemma flightOk_refused o s e pg fl :
  (∀ t d d' : db, Commit t d = (false, d') → tablesOf d' = tablesOf d) →
  withTx (changeTx o) (pool s) = (inr e, pg) → flightOk (s, fl) → flightOk (MkStore pg (rdb s), fl).
Proof.
  intros Hclean Hw (Hnd & Hout & Hin).
  assert (tablesOf pg = tablesOf (pool s)) as Ht.
  { pose proof (applyChange_atomic o s) as Ha. rewrite applyChange_run, Hw in Ha.
    destruct Ha as [_ [[? _]|(_ & [tx [_ Hc]] & _)]]; [done|]. by apply (Hclean _ _ _ Hc). }
  split_and!; cbn [pool rdb]; by rewrite ?Ht.
Qed.

Lemma flightOk_steps x y :
  (∀ cs (r : rd), (PIPELINE cs r).1 = true) →
  (∀ t d d' : db, Commit t d = (false, d') → tablesOf d' = tablesOf d) →
  rtc (fstep false) x y → flightOk x → flightOk y.
Proof.
  intros Hup Hclean. induction 1 as [|x y z Hstep _ IH]; [done|]. intros Hok. apply IH.
  destruct Hstep as [o s res pg fl Hw [?|Hfree]|o s e pg fl Hw|o s a b]; [done|..];
    eauto using flightOk_commit, flightOk_refused, flightOk_pipeline.
Qed.

Lemma coherent_flightOk s : coherent s ↔ flightOk (s, []).
Proof.
  split.
  - intros Hco. split_and!; [apply NoDup_nil_2|intros d _; apply Hco|by intros o ?%not_elem_of_nil].
  - intros (_ & Hout & _) d. apply Hout, not_elem_of_nil.
Qed.

(** C27. Requests may overlap, on different domains, when Redis runs every pipeline
    and no failed commit has taken place.  However the transactions and the Redis
    pipelines of concurrent changes are interleaved, no two of them for one domain
    at a time, from a start at which they agreed the Redis set is exactly the
    enabled entries again whenever no pipeline is left to run; and until then it is
    wrong at most about the domains in flight.  A pipeline that fails is only
    logged and leaves the set wrong with nothing left to run. *)
Theorem overlapping_coherent s s' fl :
  (∀ cs (r : rd), (PIPELINE cs r).1 = true) →
  (∀ t d d' : db, Commit t d = (false, d') → tablesOf d' = tablesOf d) →
  coherent s → rtc (fstep false) (s, []) (s', fl) →
  (fl = [] → coherent s') ∧
  ∀ d, d ∉ changeDomain <$> fl → d ∈ setAt redisSetKey (rdb s') ↔ enabledIn (tablesOf (pool s')) d.
Proof.
  intros Hup Hclean Hco%coherent_flightOk Hsteps.
  pose proof (flightOk_steps _ _ Hup Hclean Hsteps Hco) as Hok.
  split; [intros ->; by apply coherent_flightOk|apply Hok].
Qed.
End overlap.

(** ** Instances *)

Section witnesses.

(** Two additions whose pipelines run in the opposite order. *)
Lemma overlapping_coherent_witness :
  let a := ChAdd "a.example" "" "ann" in
  let b := ChAdd "b.example" "" "bob" in
  let pg := (withTx (changeTx b) (withTx (changeTx a) (pool emptyStore)).2).2 in
  coherent (MkStore pg (changePipe a (changePipe b (rdb emptyStore)))).
Proof.
  cbv zeta. set (a := ChAdd "a.example" "" "ann"). set (b := ChAdd "b.example" "" "bob").
  set (pa := withTx (changeTx a) (pool emptyStore)). set (pb := withTx (changeTx b) pa.2).
  destruct (overlapping_coherent emptyStore (MkStore pb.2 (changePipe a (changePipe b (rdb emptyStore)))) [])
    as [Hc _]; [reflexivity|by intros t d d' [=]| | |by apply Hc].
  - intros d. split; [by intros ?%elem_of_empty|]. intros (e & He & _). discriminate He.
  - eapply rtc_l.
    { eapply (f_commit false a emptyStore _ pa.2 []); [vm_compute; reflexivity|right; apply not_elem_of_nil]. }
    eapply rtc_l.
    { eapply (f_commit false b (MkStore pa.2 (rdb emptyStore)) _ pb.2 [a]); [vm_compute; reflexivity|].
      right. intros Hin%list_elem_of_singleton. discriminate Hin. }
    eapply rtc_l; [apply (f_pipeline false b (MkStore pb.2 (rdb emptyStore)) [a] [])|].
    apply rtc_once. apply (f_pipeline false a (MkStore pb.2 (changePipe b (rdb emptyStore))) [] []).
Defined.
End witnesses.
