(* ===== verification/Propagation.v ===== *)
(** * From the API to the proxy

    The store of the API with the changes in flight, Redis, and the
    synchronisation goroutine of the proxy as one system: changes are committed
    by several requests at once, their pipelines run and publish in any order,
    notifications wait in the subscription, each one makes the proxy read the set
    again.  Notifications can be lost: nobody is subscribed between a load and the
    subscription, go-redis subscribes again by itself after a network failure
    without the program noticing, and it drops messages when its channel stays
    full.  A change is enforced once a notification that came after it has been
    handled. *)
From S2P Require Import Prelude GoStrings Blocklist Postgres Store Overlap Sync.
From stdpp Require Import relations.

(** Where the goroutine is between its loads and its subscription: about to
    subscribe after a load, in the subscription loop, or waiting to reconnect. *)
Inductive phase := Loaded | Subscribed | Waiting.

#[export] Instance phase_eq_dec : EqDecision phase.
Proof. solve_decision. Defined.

(** The messages a change publishes to the subscribers. *)
Definition published (cs : list redisCmd) : list bytes :=
  omap (λ c, match c with CPublish ch msg => if decide (ch = redisPubSubCh) then Some msg else None | _ => None end) cs.

(** The store, the messages in the subscription, the goroutine's phase and state,
    and, as history, whether a message has been lost since the last load. *)
Record world (db rd : Type) := World {
  w_store : Store db rd;
  w_pending : list bytes;
  w_phase : phase;
  w_sync : syncState (option Blocklist);
  w_missed : bool;
}.
Arguments World {db rd}.
Arguments w_store {db rd}.
Arguments w_pending {db rd}.
Arguments w_phase {db rd}.
Arguments w_sync {db rd}.
Arguments w_missed {db rd}.

Section propagation.
Context `{Unicode} `{Postgres db, !PostgresLaws db, RedisSets rd, !RedisSetsLaws rd}.
Implicit Types w : world db rd.

(** The messages published by a change with this result. *)
Definition announced (o : change) (r : option Entry + storeErr) : list bytes :=
  match r with inl _ => published (changeCmds o) | inr _ => [] end.

(** A load reads the set as it is now. *)
Definition answer (s : Store db rd) : option (list bytes) := SMEMBERS redisSetKey (rdb s).

(** The store becomes [s], and the messages are sent to whoever is subscribed. *)
Definition deliver (s : Store db rd) (msgs : list bytes) w : world db rd :=
  let '(World _ p ph y m) := w in
  if decide (ph = Subscribed) then World s (p ++ msgs) ph y m
  else World s p ph y (m || bool_decide (msgs ≠ [])).

(** After a load nothing is missed, if Redis has answered. *)
Definition missedAfter (s : Store db rd) : bool :=
  match answer s with Some _ => false | None => true end.

(** A change that meets no other: its transaction, its pipeline. *)
Definition worldChange (o : change) w : world db rd :=
  let '(r, s) := applyChange o (w_store w) in deliver s (announced o r) w.

(** Its two halves. *)
Definition worldTx (pg : db) w : world db rd := deliver (MkStore pg (rdb (w_store w))) [] w.
Definition worldPipe (o : change) w : world db rd :=
  deliver (MkStore (pool (w_store w)) (changePipe o (rdb (w_store w)))) (published (changeCmds o)) w.

(** Handling the first message. *)
Definition worldNotify w : option (world db rd) :=
  let '(World s p ph y m) := w in
  match ph, p with
  | Subscribed, _ :: p => Some (World s p ph (syncStep loadBlocklist y (Notified (answer s))) (missedAfter s))
  | _, _ => None
  end.

(** The steps of the proxy: subscribing, handling a message, and, when the channel
    of the subscription is closed, leaving it and reconnecting; and the loss of a
    message on its way, which the proxy does not see. *)
Inductive proxyStep : world db rd → world db rd → Prop :=
  | p_subscribe s p y m : proxyStep (World s p Loaded y m) (World s p Subscribed y m)
  | p_notified w w' : worldNotify w = Some w' → proxyStep w w'
  | p_lost s a msg b y m : proxyStep (World s (a ++ msg :: b) Subscribed y m) (World s (a ++ b) Subscribed y true)
  | p_closed s p y m :
      proxyStep (World s p Subscribed y m) (World s [] Waiting y (m || bool_decide (p ≠ [])))
  | p_reconnect s p y m :
      proxyStep (World s p Waiting y m)
        (World s p Loaded (syncStep loadBlocklist y (Disconnected (answer s))) (missedAfter s)).

(** The system with the changes that are committed and whose pipelines are to
    run, at most one of each domain. *)
Inductive wstep : world db rd * list change → world db rd * list change → Prop :=
  | w_commit o w res pg fl :
      withTx (changeTx o) (pool (w_store w)) = (inl res, pg) → changeDomain o ∉ changeDomain <$> fl →
      wstep (w, fl) (worldTx pg w, fl ++ [o])
  | w_refused o w e pg fl :
      withTx (changeTx o) (pool (w_store w)) = (inr e, pg) → wstep (w, fl) (worldTx pg w, fl)
  | w_pipeline o w a b : wstep (w, a ++ o :: b) (worldPipe o w, a ++ b)
  | w_proxy w w' fl : proxyStep w w' → wstep (w, fl) (w', fl).

(** The start: the API has written the set, and the proxy has loaded it. *)
Definition startWorld (s : Store db rd) (bl : option Blocklist) : world db rd :=
  World s [] Loaded (startSync loadBlocklist bl (answer s)) (missedAfter s).

(** The proxy enforces the table on a host: it blocks it exactly when some enabled
    entry says so. *)
Definition enforced w (host : bytes) : Prop :=
  IsBlocked (live (w_sync w)) host = true ↔
  ∃ d, enabledIn (tablesOf (pool (w_store w))) d ∧ lineBlocks (hostName host) d = true.

(** *** A change that meets no other *)

Lemma deliver_silent s w : deliver s [] w = World s (w_pending w) (w_phase w) (w_sync w) (w_missed w).
Proof.
  destruct w as [s0 p ph y m]. cbn. rewrite app_nil_r, orb_false_r. by destruct (decide _).
Qed.

Lemma deliver_store s msgs w : w_store (deliver s msgs w) = s.
Proof. destruct w as [s0 p ph y m]. cbn. by destruct (decide _). Qed.

Lemma worldChange_steps o w fl :
  changeDomain o ∉ changeDomain <$> fl → rtc wstep (w, fl) (worldChange o w, fl).
Proof.
  intros Hfree. unfold worldChange. rewrite applyChange_run.
  destruct (withTx (changeTx o) (pool (w_store w))) as [[res|e] pg] eqn:Hw.
  - eapply rtc_l; [by eapply w_commit|]. apply rtc_once.
    replace (deliver _ _ w) with (worldPipe o (worldTx pg w)); [|unfold worldPipe, worldTx; rewrite deliver_silent; by destruct w].
    rewrite <-(app_nil_r fl) at 2. apply (w_pipeline o _ fl []).
  - apply rtc_once. by eapply w_refused.
Qed.

(** *** The invariant *)

(** The store takes the steps of [Overlap]. *)
Lemma wstep_fstep w fl w' fl' :
  wstep (w, fl) (w', fl') → rtc (fstep false) (w_store w, fl) (w_store w', fl').
Proof.
  intros Hstep. inversion Hstep as [o w0 res pg fl0 Hw Hfree|o w0 e pg fl0 Hw|o w0 a b|w0 w1 fl0 Hp]; subst;
    unfold worldTx, worldPipe; rewrite ?deliver_silent.
  - apply rtc_once. eapply f_commit; [done|by right].
  - apply rtc_once. by eapply f_refused.
  - rewrite deliver_store. apply rtc_once. apply f_pipeline.
  - destruct Hp as [| [s p ph y m] w' Hn| | |]; [done| |done..].
    destruct ph; try done. destruct p; [done|]. by injection Hn as <-.
Qed.

(** What the proxy has is a reading of the set as it is. *)
Definition synced (s : Store db rd) (y : syncState (option Blocklist)) : Prop :=
  ∃ ms, live y = Some (NewBlocklist ms) ∧ ∀ x, x ∈ ms ↔ x ∈ setAt redisSetKey (rdb s).

(** It is one unless a message has been lost or waits. *)
Definition proxyOk w : Prop :=
  running (w_sync w) = true ∧
  (w_missed w = false → w_pending w = [] → synced (w_store w) (w_sync w)).

(** A load that Redis answers. *)
Lemma synced_load s y e :
  running y = true → e = Notified (answer s) ∨ e = Disconnected (answer s) →
  running (syncStep loadBlocklist y e) = true ∧ (is_Some (answer s) → synced s (syncStep loadBlocklist y e)).
Proof.
  destruct y as [l b r ws]. simpl. intros -> He. split; [by destruct He as [-> | ->]|].
  intros [ms Hms]. unfold answer in *. rewrite Hms in He.
  destruct He as [-> | ->]; simpl; exists ms; (split; [done|]); by apply SMEMBERS_ok.
Qed.

Lemma proxyOk_load s p ph y e :
  running y = true → e = Notified (answer s) ∨ e = Disconnected (answer s) →
  proxyOk (World s p ph (syncStep loadBlocklist y e) (missedAfter s)).
Proof.
  intros Hrun He. destruct (synced_load s y e Hrun He) as [Hr Hs]. split; [done|]. cbn. unfold missedAfter.
  intros Hm _. apply Hs. by destruct (answer s).
Qed.

(** A change of the set is announced. *)
Lemma proxyOk_deliver s msgs w :
  (msgs = [] → rdb s = rdb (w_store w)) → proxyOk w → proxyOk (deliver s msgs w).
Proof.
  destruct w as [s0 p ph y m]. unfold proxyOk, synced, deliver. cbn. intros Hsil (Hrun & Hs).
  case_decide as Hph; cbn; (split; [done|]).
  - intros Hm [-> ->]%app_nil. rewrite Hsil by done. by apply Hs.
  - intros [-> Hm]%orb_false_iff Hp. apply bool_decide_eq_false, dec_stable in Hm.
    rewrite Hsil by done. by apply Hs.
Qed.

Lemma silent_pipe o (r : rd) : published (changeCmds o) = [] → changePipe o r = r.
Proof. by destruct o as [d c a|d [[[]|] c a]|d a c]. Qed.

Lemma proxyOk_step w fl w' fl' : wstep (w, fl) (w', fl') → proxyOk w → proxyOk w'.
Proof.
  intros Hstep Hok.
  inversion Hstep as [o w0 res pg fl0 Hw Hfree|o w0 e pg fl0 Hw|o w0 a b|w0 w1 fl0 Hp]; subst.
  - by apply proxyOk_deliver.
  - by apply proxyOk_deliver.
  - apply proxyOk_deliver; [apply silent_pipe|done].
  - destruct Hok as (Hrun & Hs).
    destruct Hp as [s p y m|[s p ph y m] w' Hn|s a msg b y m|s p y m|s p y m]; cbn in *.
    + by split.
    + destruct ph; try done. destruct p as [|msg p]; [done|]. injection Hn as <-.
      apply proxyOk_load; [done|by left].
    + by split.
    + split; [done|]. cbn. intros [-> Hp]%orb_false_iff _. apply bool_decide_eq_false, dec_stable in Hp. by apply Hs.
    + apply proxyOk_load; [done|by right].
Qed.

Lemma startWorld_ok s bl : proxyOk (startWorld s bl).
Proof.
  split; [done|]. unfold startWorld, missedAfter, synced. cbn. unfold startSync, answer. intros Hm _.
  destruct (SMEMBERS redisSetKey (rdb s)) as [ms|] eqn:Hms; [|done]. exists ms. split; [done|]. by apply SMEMBERS_ok.
Qed.

(** *** Enforcement *)

Lemma synced_blocks s y host :
  synced s y → IsBlocked (live y) host = true ↔
  ∃ d, d ∈ setAt redisSetKey (rdb s) ∧ lineBlocks (hostName host) d = true.
Proof.
  intros (ms & Hl & Hms). rewrite Hl, IsBlocked_blockedBy. unfold blockedBy. rewrite existsb_exists.
  split; intros (d & Hd & Hb); exists d; split; [|done| |done]; by apply Hms, list_elem_of_In || apply list_elem_of_In, Hms.
Qed.

Lemma synced_enforced w host : coherent (w_store w) → synced (w_store w) (w_sync w) → enforced w host.
Proof. intros Hco Hs. unfold enforced. rewrite (synced_blocks _ _ host Hs). by setoid_rewrite (Hco _). Qed.

(** Handling all the messages that wait; the last load is what counts. *)
Lemma drain_messages w :
  w_phase w = Subscribed →
  ∃ w', nsteps (λ w w', worldNotify w = Some w') (length (w_pending w)) w w' ∧
        w_store w' = w_store w ∧ w_phase w' = Subscribed ∧ w_pending w' = [] ∧
        w_missed w' = (if decide (w_pending w = []) then w_missed w else missedAfter (w_store w)).
Proof.
  destruct w as [s p ph y m]. simpl. intros ->. revert y m. induction p as [|msg p IH]; intros y m.
  - eexists. split; [constructor|done].
  - destruct (IH (syncStep loadBlocklist y (Notified (answer s))) (missedAfter s)) as (w' & Hn & Hst & Hph & Hp & Hm).
    exists w'. split; [by econstructor|]. split_and!; [done..|]. rewrite Hm. by destruct (decide (p = [])).
Qed.

Lemma notify_steps n w w' fl :
  nsteps (λ w w', worldNotify w = Some w') n w w' → rtc wstep (w, fl) (w', fl).
Proof.
  intros Hn. apply rtc_nsteps_2 with n.
  eapply nsteps_congruence with (f := λ w, (w, fl)), Hn. intros x y Hxy. by apply w_proxy, p_notified.
Qed.

Lemma system_ok x y :
  (∀ cs (r : rd), (PIPELINE cs r).1 = true) →
  (∀ t d d' : db, Commit t d = (false, d') → tablesOf d' = tablesOf d) →
  rtc wstep x y → flightOk (w_store x.1, x.2) ∧ proxyOk x.1 → flightOk (w_store y.1, y.2) ∧ proxyOk y.1.
Proof.
  intros Hup Hclean. induction 1 as [|[w fl] [w' fl'] z Hstep _ IH]; [done|]. intros [Hf Hp]. apply IH. clear IH.
  split; [|by eapply proxyOk_step]. by eapply flightOk_steps, Hf; [..|apply wstep_fstep].
Qed.

(** A subscribed proxy that handles what waits for it reads the set as it is then:
    a message waits, and Redis answers, or none has been lost since the last load. *)
Definition caughtUp w : Prop :=
  if decide (w_pending w = []) then w_missed w = false else is_Some (answer (w_store w)).

(** From the start on, whatever is in flight. *)
Lemma drained_synced s bl w fl :
  (∀ cs (r : rd), (PIPELINE cs r).1 = true) →
  (∀ t d d' : db, Commit t d = (false, d') → tablesOf d' = tablesOf d) →
  coherent s → rtc wstep (startWorld s bl, []) (w, fl) →
  w_phase w = Subscribed → caughtUp w →
  ∃ w', nsteps (λ w w', worldNotify w = Some w') (length (w_pending w)) w w' ∧
        w_store w' = w_store w ∧ flightOk (w_store w, fl) ∧ synced (w_store w') (w_sync w').
Proof.
  intros Hup Hclean Hco%coherent_flightOk Hsteps Hph Hup'.
  destruct (drain_messages w Hph) as (w' & Hn & Hst & _ & Hp & Hm).
  exists w'. split_and!; [done|done|..].
  - by destruct (system_ok _ _ Hup Hclean Hsteps (conj Hco (startWorld_ok s bl))).
  - assert (rtc wstep (startWorld s bl, []) (w', fl)) as Hall by (etrans; [exact Hsteps|by eapply notify_steps]).
    destruct (system_ok _ _ Hup Hclean Hall (conj Hco (startWorld_ok s bl))) as [_ (_ & Hs)].
    cbn in Hs. apply Hs; [|done]. rewrite Hm. unfold caughtUp in Hup'. case_decide; [done|].
    unfold missedAfter. by destruct Hup' as [ms ->].
Qed.

(** C28. Every change whose notification arrives is enforced.  From the start and
    through any history of changes that may overlap on different domains,
    notifications handled or lost on their way, closed channels and
    reconnections, a subscribed proxy needs only to handle the messages that wait,
    one step each, to block exactly the hosts that the enabled entries of the table
    name, those hosts apart that a change still in flight is about.  This needs
    that a message waits, whose load Redis answers, or that none has been lost
    since the last load that Redis answered; and that Redis runs every pipeline
    and no failed commit has taken place. *)
Theorem changes_eventually_enforced s bl w fl :
  (∀ cs (r : rd), (PIPELINE cs r).1 = true) →
  (∀ t d d' : db, Commit t d = (false, d') → tablesOf d' = tablesOf d) →
  coherent s → rtc wstep (startWorld s bl, []) (w, fl) →
  w_phase w = Subscribed → caughtUp w →
  ∃ w', nsteps (λ w w', worldNotify w = Some w') (length (w_pending w)) w w' ∧
        w_store w' = w_store w ∧
        ∀ host, (∀ o, o ∈ fl → lineBlocks (hostName host) (changeDomain o) = false) → enforced w' host.
Proof.
  intros Hup Hclean Hco Hsteps Hph Hup'.
  destruct (drained_synced s bl w fl Hup Hclean Hco Hsteps Hph Hup') as (w' & Hn & Hst & (_ & Hout & _) & Hs).
  exists w'. split_and!; [done|done|]. intros host Hapart. unfold enforced. rewrite (synced_blocks _ _ host Hs), Hst.
  assert (∀ d, lineBlocks (hostName host) d = true → d ∉ changeDomain <$> fl) as Hfree.
  { intros d Hd (o & -> & Ho)%list_elem_of_fmap. by rewrite Hapart in Hd. }
  split; intros (d & Hd & Hb); exists d; (split; [|done]); apply Hout; auto.
Qed.
End propagation.

(** ** Instances *)

Section witnesses.
#[local] Instance asciiLower : Unicode := {| unicode_ToLower s := map lower_byte s |}.

Definition syncedStore : Store pgdb setdb := (syncToRedis emptyStore).2.

(** The proxy subscribes; two changes are committed, and the pipeline of the later
    one runs. *)
Definition addBad : change := ChAdd "bad.org" "" "ann".
Definition addAds : change := ChAdd "*.ads.net" "" "bob".
Definition subscribedWorld : world pgdb setdb :=
  World syncedStore [] Subscribed (startSync loadBlocklist None (answer syncedStore)) false.
Definition commitOf (o : change) (w : world pgdb setdb) : world pgdb setdb :=
  worldTx (withTx (changeTx o) (pool (w_store w))).2 w.
Definition changedWorld : world pgdb setdb := worldPipe addBad (commitOf addBad (commitOf addAds subscribedWorld)).

Lemma changes_eventually_enforced_witness :
  IsBlocked (live (w_sync changedWorld)) "bad.org" = false ∧
  ∃ w', nsteps (λ w w', worldNotify w = Some w') 1 changedWorld w' ∧
        IsBlocked (live (w_sync w')) "bad.org" = true.
Proof.
  split; [vm_compute; reflexivity|].
  destruct (changes_eventually_enforced syncedStore None changedWorld [addAds]) as (w' & Hn & Hst & Hen).
  - reflexivity.
  - intros t d d' [=].
  - exact (proj1 (syncToRedis_coherent emptyStore syncedStore eq_refl (λ cs r, eq_refl))).
  - eapply rtc_l; [apply w_proxy, p_subscribe|].
    eapply rtc_l; [eapply (w_commit addAds subscribedWorld _ (withTx (changeTx addAds) (pool (w_store subscribedWorld))).2 []);
                   [vm_compute; reflexivity|apply not_elem_of_nil]|].
    eapply rtc_l; [eapply (w_commit addBad _ _ (withTx (changeTx addBad) (pool (w_store (commitOf addAds subscribedWorld)))).2 [addAds]);
                   [vm_compute; reflexivity|intros Hin%list_elem_of_singleton; discriminate Hin]|].
    apply rtc_once. apply (w_pipeline addBad _ [addAds] []).
  - reflexivity.
  - unfold caughtUp. rewrite decide_False by (vm_compute; discriminate). by eexists.
  - exists w'. split; [exact Hn|]. apply Hen.
    + intros o ->%list_elem_of_singleton. vm_compute. reflexivity.
    + exists "bad.org". split; [rewrite Hst; eexists; split; vm_compute; reflexivity|vm_compute; reflexivity].
Defined.

(** *** Lost notifications *)

(** A change that is published between a load and the subscription finds no
    subscriber, and one that is published while go-redis subscribes again is lost
    without a trace; with nothing left to wait for, the proxy does not enforce
    it. *)
Lemma unenforced (w : world pgdb setdb) :
  w_store w = w_store (worldChange addBad subscribedWorld) → live (w_sync w) = Some (NewBlocklist []) →
  ¬ enforced w "bad.org".
Proof.
  intros Hst Hy Hen. unfold enforced in Hen. rewrite Hy, Hst in Hen.
  assert (IsBlocked (Some (NewBlocklist [])) "bad.org" = true) as Hb; [|by vm_compute in Hb].
  apply Hen. exists "bad.org". split; [eexists; split; vm_compute; reflexivity|vm_compute; reflexivity].
Qed.

Lemma subscription_gap :
  ∃ w, rtc wstep (startWorld syncedStore None, []) (w, []) ∧ w_phase w = Subscribed ∧ w_pending w = [] ∧
       ¬ enforced w "bad.org".
Proof.
  set (w1 := worldChange addBad (startWorld syncedStore None)).
  exists (World (w_store w1) [] Subscribed (w_sync w1) (w_missed w1)). split_and!; [|done|done|].
  - etrans; [apply (worldChange_steps addBad), not_elem_of_nil|]. apply rtc_once, w_proxy, p_subscribe.
  - by apply unenforced.
Qed.

Lemma lost_notification :
  ∃ w, rtc wstep (startWorld syncedStore None, []) (w, []) ∧ w_phase w = Subscribed ∧ w_pending w = [] ∧
       ¬ enforced w "bad.org".
Proof.
  set (w1 := worldChange addBad subscribedWorld).
  exists (World (w_store w1) [] Subscribed (w_sync w1) true). split_and!; [|done|done|].
  - eapply rtc_l; [apply w_proxy, p_subscribe|].
    etrans; [apply (worldChange_steps addBad), not_elem_of_nil|]. apply rtc_once, w_proxy.
    apply (p_lost _ [] "add:bad.org" []).
  - by apply unenforced.
Qed.
End witnesses.
