(* ===== verification/ScanSettings.v ===== *)
(** * The scan settings of the API ([internal/api/scanconfig.go], the seeds of [store.go])

    The configuration is built from two tables, encoded, written to Redis and
    read back by the proxy; what an operator sets is what the proxy scans by.
    A step relation for overlapping changes says when that holds of them too. *)
From S2P Require Import Prelude GoStrings Http Services Clamd ScanConfig ScanJob Manager Sync.
From S2P Require Import Postgres Pagination Store.
From stdpp Require Import sorting.

Definition scanConfigRedisKey : bytes := "scan:config".
Definition scanConfigPubSubCh : bytes := "scan:config:changed".

Section settings.
Context `{Postgres db, Redis rd, RedisSets rd, JSON ScanConfig}.
Implicit Types s : Store db rd.

(** The [settings] map filled from the rows; a missing key reads as empty. *)
Definition settingsMap (kvs : list (bytes * bytes)) : gmap bytes bytes :=
  fold_left (λ m kv, <[kv.1 := kv.2]> m) kvs ∅.

Definition setting (m : gmap bytes bytes) (k : bytes) : bytes := default [] (m !! k).

(** The size in the settings: 500 when it is absent, malformed or not positive. *)
Definition sizeOf (m : gmap bytes bytes) : Z :=
  let maxSizeMB := ParseInt (setting m "max_size_mb") in
  if (maxSizeMB <=? 0)%Z then 500 else maxSizeMB.

(** The configuration of the rows of the two queries. *)
Definition configOf (kvs : list (bytes * bytes)) (rules : list (bytes * bool * bool)) : ScanConfig :=
  let settings := settingsMap kvs in
  MkScanConfig (bool_decide (setting settings "enabled" ≠ "false")) (sizeOf settings)
    ((λ r, MkMimeRule r.1.1 r.1.2 r.2) <$> rules).

Definition buildScanConfig (pg : db) : option ScanConfig :=
  kvs ← SELECT_settings pg;
  rules ← SELECT_mime pg;
  Some (configOf kvs rules).

(** Whether it succeeded, and the store after it. *)
Definition syncScanConfigToRedis s : bool * Store db rd :=
  match buildScanConfig (pool s) with
  | None => (false, s)
  | Some cfg =>
      match SET scanConfigRedisKey (marshal cfg) 0 (rdb s) with
      | (true, r) => (true, MkStore (pool s) (pipe [CPublish scanConfigPubSubCh "sync"] r))
      | (false, r) => (false, MkStore (pool s) r)
      end
  end.

Definition GetScanSettings s : option (list ScanSettingEntry) := SELECT_setting_rows (pool s).

(** [UpdateScanSetting]: the statement commits by itself, the error of the
    synchronisation is the error of the call. *)
Definition UpdateScanSetting (key value actor : bytes) s : option storeErr * Store db rd :=
  match UPDATE_setting key value actor (pool s) with
  | (None, pg) => (Some ErrStore, MkStore pg (rdb s))
  | (Some n, pg) =>
      if (n =? 0)%N then (Some ErrNotFound, MkStore pg (rdb s))
      else let '(ok, s) := syncScanConfigToRedis (MkStore pg (rdb s)) in
           (if ok : bool then None else Some ErrStore, s)
  end.

Definition mimeSortCol (lq : ListQuery) : mimeColumn :=
  if decide (lq_Sort lq = "id") then MColID
  else if decide (lq_Sort lq = "pattern") then MColPattern
  else if decide (lq_Sort lq = "updated_at") then MColUpdatedAt
  else MColID.

Definition ListMimeTypes (enabledOnly : bool) (lq : ListQuery) s : option (list MimeTypeEntry) :=
  SELECT_mime_rows (whereOf enabledOnly lq) (mimeSortCol lq) (descending lq) (pool s).

Definition nullableString (v : bytes) : option bytes := if decide (v = []) then None else Some v.

Definition UpdateMimeType (pattern : bytes) (enabled : option bool) (note actor : bytes) s
  : (MimeTypeEntry + storeErr) * Store db rd :=
  match UPDATE_mime pattern enabled (nullableString note) actor (pool s) with
  | (RowErr, pg) => (inr ErrStore, MkStore pg (rdb s))
  | (NoRows, pg) => (inr ErrNotFound, MkStore pg (rdb s))
  | (Row e, pg) =>
      let '(ok, s) := syncScanConfigToRedis (MkStore pg (rdb s)) in
      (if ok : bool then inl e else inr ErrStore, s)
  end.
End settings.

(** ** What the configuration says *)

(** The value of a setting in the table. *)
Definition settingIn (t : tables) (k : bytes) : bytes := default [] (st_Value <$> settingsT t !! k).

Definition ruleOf (m : MimeTypeEntry) : MimeRule := MkMimeRule (mt_Pattern m) (mt_IsPrefix m) (mt_Enabled m).

(** A configuration that says what the tables say: the two settings, and one
    rule for each row, in the order of their identifiers. *)
Definition describes (t : tables) (cfg : ScanConfig) : Prop :=
  cfg_Enabled cfg = bool_decide (settingIn t "enabled" ≠ "false") ∧
  MaxSizeMB cfg = (let n := ParseInt (settingIn t "max_size_mb") in if (n <=? 0)%Z then 500 else n)%Z ∧
  ∃ rows, rows ≡ₚ (map_to_list (mimeT t)).*2 ∧ Sorted byID rows ∧ Rules cfg = ruleOf <$> rows.

(** What JSON carries unchanged: [json.Marshal] puts U+FFFD for bytes that are not
    UTF-8, and the numbers are those of [int64]. *)
Definition jsonText (cfg : ScanConfig) : Prop :=
  Forall (λ r, utf8Valid (rule_Pattern r) = true) (Rules cfg) ∧ int64_range (MaxSizeMB cfg).

(** The patterns are UTF-8, as every text is in a database with that encoding. *)
Definition tablesText (t : tables) : Prop := map_Forall (λ _ m, utf8Valid (mt_Pattern m) = true) (mimeT t).

Lemma describes_jsonText t cfg : tablesText t → describes t cfg → jsonText cfg.
Proof.
  intros Ht (_ & Hmb & rows & Hp & _ & Hr). split.
  - rewrite Hr, Hp, !Forall_fmap. apply map_Forall_to_list in Ht. eapply Forall_impl; [exact Ht|]. by intros [k m].
  - rewrite Hmb. cbv zeta. case_match; [done|apply ParseInt_range].
Qed.

Section reading.
Context `{PostgresLaws db}.

Lemma settingsMap_lookup kvs k v :
  NoDup kvs.*1 → settingsMap kvs !! k = Some v ↔ (k, v) ∈ kvs.
Proof.
  unfold settingsMap. induction kvs as [|[k' v'] kvs IH] using rev_ind; intros Hnd.
  - simpl. rewrite lookup_empty. set_solver.
  - rewrite fmap_app in Hnd. apply NoDup_app in Hnd as (Hnd & Hdisj & _).
    rewrite fold_left_app. cbn [fold_left fst snd]. rewrite elem_of_app, list_elem_of_singleton.
    destruct (decide (k' = k)) as [->|Hne].
    + rewrite lookup_insert_eq. split; [intros [= ->]; by right|].
      intros [Hin|[= ->]]; [|done]. exfalso. apply (Hdisj k); [|simpl; left].
      apply list_elem_of_fmap. by exists (k, v).
    + rewrite lookup_insert_ne by done. rewrite IH by done. split; [by left|].
      by intros [?|[= -> ->]].
Qed.

Lemma settings_table (pg : db) kvs k :
  SELECT_settings pg = Some kvs → setting (settingsMap kvs) k = settingIn (tablesOf pg) k.
Proof.
  intros Hs. destruct (SELECT_settings_ok pg kvs Hs) as [Hnd Hin]. unfold setting, settingIn. f_equal.
  apply option_eq. intros v. rewrite settingsMap_lookup by done. rewrite Hin, fmap_Some. naive_solver.
Qed.

(** What the rows read from the settings say, of tables that may have been changed
    since in other respects. *)
Definition readSettings (t : tables) (kvs : list (bytes * bytes)) : Prop :=
  ∀ k, setting (settingsMap kvs) k = settingIn t k.

Lemma configOf_describes (pg : db) kvs rules :
  readSettings (tablesOf pg) kvs → SELECT_mime pg = Some rules → describes (tablesOf pg) (configOf kvs rules).
Proof.
  intros Hkvs Hr. unfold describes. cbn [configOf cfg_Enabled MaxSizeMB Rules]. unfold sizeOf.
  rewrite !Hkvs. split_and!; [done|done|].
  destruct (SELECT_mime_ok pg rules Hr) as (rows & Hp & Hs & ->). exists rows. split_and!; [done|done|].
  by rewrite <-list_fmap_compose.
Qed.

Lemma buildScanConfig_describes (pg : db) cfg : buildScanConfig pg = Some cfg → describes (tablesOf pg) cfg.
Proof.
  unfold buildScanConfig. intros (kvs & Hkvs & (rules & Hr & [= <-])%bind_Some)%bind_Some.
  apply configOf_describes; [|done]. intros k. by apply settings_table.
Qed.

End reading.

Section settings_spec.
Context `{PostgresLaws db, Redis rd, !RedisLaws rd, RedisSets rd, JSON ScanConfig, !JSONLaws ScanConfig jsonText}.
Implicit Types s : Store db rd.

(** What is in Redis after a synchronisation that succeeded. *)
Lemma syncScanConfig_redis s s' :
  (∀ ch msg (r : rd), GET scanConfigRedisKey (pipe [CPublish ch msg] r) = GET scanConfigRedisKey r) →
  syncScanConfigToRedis s = (true, s') →
  pool s' = pool s ∧ ∃ cfg, describes (tablesOf (pool s)) cfg ∧ GET scanConfigRedisKey (rdb s') = Val (marshal cfg).
Proof.
  intros Hkeep. unfold syncScanConfigToRedis. destruct (buildScanConfig (pool s)) as [cfg|] eqn:Hb; [|done].
  destruct (SET scanConfigRedisKey (marshal cfg) 0 (rdb s)) as [[] r] eqn:Hset; [|done].
  intros Hs'. apply (f_equal snd) in Hs'. cbn [snd] in Hs'. subst s'. split; [done|]. exists cfg.
  split; [by apply buildScanConfig_describes|]. cbn [rdb]. rewrite Hkeep. by apply (GET_SET _ _ 0%Z (rdb s)).
Qed.

Lemma settings_loaded {C} s s' (m : Manager C) :
  (∀ ch msg (r : rd), GET scanConfigRedisKey (pipe [CPublish ch msg] r) = GET scanConfigRedisKey r) →
  tablesText (tablesOf (pool s)) →
  syncScanConfigToRedis s = (true, s') →
  let m' := loadScanConfig (GET scanConfigRedisKey (rdb s')) m in
  describes (tablesOf (pool s')) (config m') ∧ maxSize m' = MaxSizeBytes (config m').
Proof.
  intros Hkeep Htext Hs. destruct (syncScanConfig_redis s s' Hkeep Hs) as (-> & cfg & Hd & ->).
  unfold loadScanConfig. by rewrite unmarshal_marshal by (by eapply describes_jsonText).
Qed.

(** C35. What an operator sets is what the proxy scans by: after a setting has
    been changed successfully by a call that no other change of settings or rules
    overlaps, the configuration that the proxy loads from Redis before the next
    change says exactly what the tables say, the new value included, with a rule
    for each row of the MIME table in order; the limit it enforces follows.  The
    patterns of the table are UTF-8, as PostgreSQL keeps them; calls that overlap
    can leave the proxy with the older value ([settings_race]). *)
Theorem settings_reach_proxy {C} key value actor s s' (m : Manager C) :
  (∀ ch msg (r : rd), GET scanConfigRedisKey (pipe [CPublish ch msg] r) = GET scanConfigRedisKey r) →
  tablesText (tablesOf (pool s)) →
  UpdateScanSetting key value actor s = (None, s') →
  let m' := loadScanConfig (GET scanConfigRedisKey (rdb s')) m in
  describes (tablesOf (pool s')) (config m') ∧ maxSize m' = MaxSizeBytes (config m') ∧
  (∀ k, settingIn (tablesOf (pool s')) k = if decide (k = key) then value else settingIn (tablesOf (pool s)) k) ∧
  (key = "enabled" → cfg_Enabled (config m') = bool_decide (value ≠ "false")) ∧
  (∀ n, key = "max_size_mb" → value = fmtZ n → (0 < n < 2 ^ 63)%Z → MaxSizeMB (config m') = n).
Proof.
  intros Hkeep Htext Hu. unfold UpdateScanSetting in Hu.
  pose proof (UPDATE_setting_ok key value actor (pool s)) as Hlaw.
  destruct (UPDATE_setting key value actor (pool s)) as [[n|] pg]; [|done].
  destruct (n =? 0)%N; [done|]. destruct Hlaw as (row & _ & _ & Hv & _ & Ht).
  destruct (syncScanConfigToRedis (MkStore pg (rdb s))) as [[] s1] eqn:Hs; [|done].
  apply (f_equal snd) in Hu. cbn [snd] in Hu. subst s1.
  destruct (settings_loaded (MkStore pg (rdb s)) s' m Hkeep) as [Hd Hmax];
    [by cbn [pool]; rewrite Ht|done|]. cbv zeta.
  destruct (syncScanConfig_redis _ _ Hkeep Hs) as [Hpool _]. cbn [pool] in Hpool.
  assert (∀ k, settingIn (tablesOf (pool s')) k =
               if decide (k = key) then value else settingIn (tablesOf (pool s)) k) as Hset.
  { intros k. unfold settingIn. rewrite Hpool, Ht. cbn [withSettings settingsT].
    rewrite lookup_insert. case_decide; subst; [by rewrite decide_True|by rewrite decide_False by congruence]. }
  pose proof Hd as (Hen & Hmb & _). rewrite Hset in Hen, Hmb. split_and!; [done|done|done| |].
  - intros Hk. rewrite Hk in *. by rewrite Hen, decide_True.
  - intros k Hk -> Hn. rewrite Hk in *. rewrite decide_True in Hmb by done. cbv zeta in Hmb.
    rewrite ParseInt_fmtZ in Hmb by lia. by rewrite (proj2 (Z.leb_gt _ _)) in Hmb by lia.
Qed.
End settings_spec.

(** ** Overlapping changes *)

(** Where the synchronisation of a change is: about to read, between its two
    queries, or about to write to Redis. *)
Inductive syncing := ToRead | HasSettings (kvs : list (bytes * bytes)) | HasConfig (cfg : ScanConfig).

Section overlap.
Context `{PostgresLaws db, Redis rd, !RedisLaws rd, RedisSets rd, JSON ScanConfig}.

(** The store and the synchronisations that run, each with whether another change
    has been committed since it began to read, and the same of the one that was
    the last to write. *)
Record sflight := SFlight { sf_store : Store db rd; sf_syncs : list (syncing * bool); sf_stale : bool }.

Definition aged (x : syncing * bool) : syncing * bool :=
  match x.1 with ToRead => x | _ => (x.1, true) end.

(** The statement of a change to a setting or to a rule. *)
Definition settingChange (pg pg' : db) : Prop :=
  (∃ key value actor n, UPDATE_setting key value actor pg = (Some n, pg') ∧ n ≠ 0%N) ∨
  (∃ pattern enabled note actor e, UPDATE_mime pattern enabled note actor pg = (Row e, pg')).

(** The steps of the calls that run at once: a statement, the two queries, and the
    write; and changes of the blocklist. *)
Inductive sstep : sflight → sflight → Prop :=
  | ss_change s pg fl st :
      settingChange (pool s) pg →
      sstep (SFlight s fl st) (SFlight (MkStore pg (rdb s)) ((aged <$> fl) ++ [(ToRead, false)]) true)
  | ss_settings s kvs a b o st :
      SELECT_settings (pool s) = Some kvs →
      sstep (SFlight s (a ++ (ToRead, o) :: b) st) (SFlight s (a ++ (HasSettings kvs, o) :: b) st)
  | ss_rules s kvs rules a b o st :
      SELECT_mime (pool s) = Some rules →
      sstep (SFlight s (a ++ (HasSettings kvs, o) :: b) st)
        (SFlight s (a ++ (HasConfig (configOf kvs rules), o) :: b) st)
  | ss_write s cfg r a b o st :
      SET scanConfigRedisKey (marshal cfg) 0 (rdb s) = (true, r) →
      sstep (SFlight s (a ++ (HasConfig cfg, o) :: b) st)
        (SFlight (MkStore (pool s) (pipe [CPublish scanConfigPubSubCh "sync"] r)) (a ++ b) o)
  | ss_other s pg fl st :
      settingsT (tablesOf pg) = settingsT (tablesOf (pool s)) → mimeT (tablesOf pg) = mimeT (tablesOf (pool s)) →
      sstep (SFlight s fl st) (SFlight (MkStore pg (rdb s)) fl st).

(** A call that runs alone takes these steps. *)
Lemma syncScanConfig_steps s s' st :
  syncScanConfigToRedis s = (true, s') →
  rtc sstep (SFlight s [(ToRead, false)] st) (SFlight s' [] false).
Proof.
  unfold syncScanConfigToRedis. destruct (buildScanConfig (pool s)) as [cfg|] eqn:Hb; [|done].
  destruct (SET scanConfigRedisKey (marshal cfg) 0 (rdb s)) as [[] r] eqn:Hset; [|done].
  intros Hs'. apply (f_equal snd) in Hs'. cbn [snd] in Hs'. subst s'. unfold buildScanConfig in Hb.
  apply bind_Some in Hb as (kvs & Hkvs & (rules & Hr & [= <-])%bind_Some).
  eapply rtc_l; [by apply (ss_settings s kvs [] [])|]. eapply rtc_l; [by apply (ss_rules s kvs rules [] [])|].
  apply rtc_once. by apply (ss_write s _ r [] []).
Qed.

(** What a synchronisation has read is what the tables say, as long as it is not
    overtaken. *)
Definition syncOk (t : tables) (x : syncing * bool) : Prop :=
  x.2 = false →
  match x.1 with ToRead => True | HasSettings kvs => readSettings t kvs | HasConfig cfg => describes t cfg end.

(** Redis holds what the tables say. *)
Definition inRedis s : Prop :=
  ∃ cfg, describes (tablesOf (pool s)) cfg ∧ GET scanConfigRedisKey (rdb s) = Val (marshal cfg).

Definition sflightOk (x : sflight) : Prop :=
  Forall (syncOk (tablesOf (pool (sf_store x)))) (sf_syncs x) ∧ (sf_stale x = false → inRedis (sf_store x)).

Lemma sflightOk_replace t a x y b :
  (syncOk t x → syncOk t y) → Forall (syncOk t) (a ++ x :: b) → Forall (syncOk t) (a ++ y :: b).
Proof. rewrite !Forall_app, !Forall_cons. naive_solver. Qed.

Lemma sflightOk_step x y :
  (∀ ch msg (r : rd), GET scanConfigRedisKey (pipe [CPublish ch msg] r) = GET scanConfigRedisKey r) →
  sstep x y → sflightOk x → sflightOk y.
Proof.
  intros Hkeep [s pg fl st Hch|s kvs a b o st Hk|s kvs rules a b o st Hr|s cfg r a b o st Hset|s pg fl st Hse Hmi] [Hfl Hst];
    split; cbn [sf_store sf_syncs sf_stale pool rdb] in *; try done.
  - apply Forall_app. split; [|by repeat constructor]. apply Forall_fmap. eapply Forall_impl; [exact Hfl|].
    intros [[| |] o] _; done.
  - eapply sflightOk_replace, Hfl. intros _ _ k. by apply settings_table.
  - eapply sflightOk_replace, Hfl. intros Hx Ho. by apply configOf_describes; [apply Hx|].
  - apply Forall_app in Hfl as [Ha [_ Hb]%Forall_cons]. by apply Forall_app.
  - intros ->. apply Forall_app in Hfl as [_ [Hc _]%Forall_cons]. exists cfg. split; [by apply Hc|].
    cbn [rdb]. rewrite Hkeep. by eapply (GET_SET _ _ 0%Z).
  - eapply Forall_impl; [exact Hfl|]. intros [[|kvs|cfg] o]; unfold syncOk, readSettings, describes, settingIn; cbn;
      by rewrite ?Hse, ?Hmi.
  - intros Ho. destruct (Hst Ho) as (cfg & Hd & Hg). exists cfg. split; [|done]. revert Hd.
    unfold describes, settingIn. cbn [pool]. by rewrite Hse, Hmi.
Qed.

(** Changes of settings and rules may overlap in any way, and with changes of the
    blocklist: Redis holds exactly what the tables say whenever the last
    synchronisation to write began to read after the last change. *)
Theorem settings_overlap s x :
  (∀ ch msg (r : rd), GET scanConfigRedisKey (pipe [CPublish ch msg] r) = GET scanConfigRedisKey r) →
  inRedis s → rtc sstep (SFlight s [] false) x → sf_stale x = false → inRedis (sf_store x).
Proof.
  intros Hkeep Hs Hsteps. assert (sflightOk (SFlight s [] false)) as Hok by (split; [constructor|done]).
  revert Hok. induction Hsteps as [|x y z Hstep _ IH]; [intros [_ Hx]; exact Hx|].
  intros Hok. apply IH. by eapply sflightOk_step.
Qed.
End overlap.

(** ** The seeds of the migration *)

Definition seedSettings : list (bytes * bytes) := [(str "enabled", str "true"); (str "max_size_mb", str "500")].

Definition seedMimeTypes : list (bytes * bool) := [
  (str "application/zip", false);
  (str "application/x-zip-compressed", false);
  (str "application/vnd.rar", false);
  (str "application/x-7z-compressed", false);
  (str "application/x-tar", false);
  (str "application/gzip", false);
  (str "application/x-bzip2", false);
  (str "application/x-xz", false);
  (str "application/x-lzma", false);
  (str "application/x-lzip", false);
  (str "application/x-zstd", false);
  (str "application/x-cab", false);
  (str "application/vnd.ms-cab-compressed", false);
  (str "application/x-iso9660-image", false);
  (str "application/x-apple-diskimage", false);
  (str "application/octet-stream", false);
  (str "binary/octet-stream", false);
  (str "application/x-msdownload", false);
  (str "application/x-dosexec", false);
  (str "application/x-executable", false);
  (str "application/x-msi", false);
  (str "application/x-ms-installer", false);
  (str "application/vnd.microsoft.portable-executable", false);
  (str "application/pdf", false);
  (str "application/rtf", false);
  (str "text/rtf", false);
  (str "application/msword", false);
  (str "application/vnd.ms-excel", false);
  (str "application/vnd.ms-powerpoint", false);
  (str "application/vnd.ms-office", false);
  (str "application/vnd.openxmlformats-officedocument.wordprocessingml.document", false);
  (str "application/vnd.openxmlformats-officedocument.spreadsheetml.sheet", false);
  (str "application/vnd.openxmlformats-officedocument.presentationml.presentation", false);
  (str "application/java-archive", false);
  (str "application/x-java-archive", false);
  (str "application/vnd.android.package-archive", false);
  (str "message/rfc822", false);
  (str "application/vnd.ms-outlook", false);
  (str "application/x-*", true)].

Definition seedRows (now : Z) : list MimeTypeEntry :=
  imap (λ i r, MkMimeType (Z.of_nat (S i)) r.1 r.2 true [] [] now) seedMimeTypes.

(** The tables after the migration of an empty database. *)
Definition migrated (now : Z) : tables :=
  MkTables ∅ [] (list_to_map ((λ kv, (kv.1, MkSetting kv.1 kv.2 [] now)) <$> seedSettings))
    (list_to_map ((λ m, (mt_Pattern m, m)) <$> seedRows now)).

Lemma seedRows_ID now : mt_ID <$> seedRows now = Z.of_nat <$> seq 1 (length seedMimeTypes).
Proof. vm_compute. reflexivity. Qed.

Lemma seedRows_pattern now : mt_Pattern <$> seedRows now = seedMimeTypes.*1.
Proof. vm_compute. reflexivity. Qed.

Lemma NoDup_fmap_inj {A B} (f : A → B) l x y :
  NoDup (f <$> l) → x ∈ l → y ∈ l → f x = f y → x = y.
Proof.
  induction l as [|z l IH]; [by intros _ ?%not_elem_of_nil|].
  rewrite fmap_cons, NoDup_cons. intros [Hz Hnd] [->|Hx]%elem_of_cons [->|Hy]%elem_of_cons Heq; auto.
  - exfalso. apply Hz. rewrite Heq. by apply list_elem_of_fmap_2.
  - exfalso. apply Hz. rewrite <-Heq. by apply list_elem_of_fmap_2.
Qed.

#[local] Instance byID_trans : Transitive byID.
Proof. unfold byID. intros x y z. lia. Qed.

Lemma migrated_rows now : (map_to_list (mimeT (migrated now))).*2 ≡ₚ seedRows now.
Proof.
  unfold migrated. cbn [mimeT]. rewrite map_to_list_to_map.
  - rewrite <-list_fmap_compose. by rewrite list_fmap_id.
  - rewrite <-list_fmap_compose. change (fst ∘ (λ m, (mt_Pattern m, m))) with mt_Pattern.
    rewrite seedRows_pattern. decide_closed.
Qed.

Lemma migrated_text now : tablesText (migrated now).
Proof.
  intros k m Hm. unfold migrated in Hm. cbn [mimeT] in Hm.
  apply elem_of_list_to_map_2, list_elem_of_fmap in Hm as (m' & [= -> ->] & Hin).
  assert (Forall (λ p, utf8Valid p = true) (mt_Pattern <$> seedRows now)) as Hall.
  { rewrite seedRows_pattern. decide_closed. }
  rewrite Forall_fmap, Forall_forall in Hall. by apply Hall.
Qed.

(** The two sources of the default rules agree: the configuration that the
    API builds from the tables it has just migrated is the proxy's compiled-in
    one, rule for rule and in order, but for the size limit, 500 MB instead of
    100. *)
Theorem migrated_config now cfg :
  describes (migrated now) cfg →
  cfg = MkScanConfig (cfg_Enabled DefaultScanConfig) 500 (Rules DefaultScanConfig) ∧ MaxSizeMB DefaultScanConfig = 100%Z.
Proof.
  destruct cfg as [en mb rules]. intros (Hen & Hmb & rows & Hp & Hs & Hr). cbn [cfg_Enabled MaxSizeMB Rules] in *.
  split; [|done]. rewrite migrated_rows in Hp.
  assert (rows = seedRows now) as ->.
  { apply (Sorted_unique_strong byID); [|done| |done].
    - intros a b Ha Hb Hab Hba. rewrite Hp in Ha. apply (NoDup_fmap_inj mt_ID (seedRows now)); try done.
      + rewrite seedRows_ID. decide_closed.
      + unfold byID in *. lia.
    - unfold seedRows. repeat constructor; unfold byID; cbn; lia. }
  subst. f_equal; vm_compute; reflexivity.
Qed.

(** ** Instances *)

Section witnesses.

(** An encoding of configurations as a decimal number. *)
Definition cfgTuple (c : ScanConfig) : bool * Z * list (bytes * bool * bool) :=
  (cfg_Enabled c, MaxSizeMB c, (λ r, (rule_Pattern r, rule_IsPrefix r, rule_Enabled r)) <$> Rules c).

Definition tupleCfg (t : bool * Z * list (bytes * bool * bool)) : ScanConfig :=
  MkScanConfig t.1.1 t.1.2 ((λ r, MkMimeRule r.1.1 r.1.2 r.2) <$> t.2).

Lemma tupleCfg_cfg c : tupleCfg (cfgTuple c) = c.
Proof.
  destruct c as [en mb rules]. unfold tupleCfg, cfgTuple. cbn [fst snd cfg_Enabled MaxSizeMB Rules]. f_equal.
  rewrite <-list_fmap_compose. rewrite <-(list_fmap_id rules) at 2.
  apply list_fmap_ext. by intros _ [] _.
Qed.

#[local] Instance numberJSON : JSON ScanConfig := {|
  marshal c := fmtN 10 (N.pos (encode (cfgTuple c)));
  unmarshal s := match parseN 10 s with Some (N.pos p) => tupleCfg <$> decode p | _ => None end;
|}.

#[local] Instance numberJSON_laws : JSONLaws ScanConfig jsonText.
Proof.
  split. intros c _. simpl. rewrite parseN_fmtN by lia. rewrite decode_encode. simpl. by rewrite tupleCfg_cfg.
Qed.

(** One Redis for strings and sets. *)
#[local] Instance pair_redis : Redis (mapdb * setdb) := {|
  GET k d := GET k d.1;
  SET k v ttl d := let '(ok, m) := SET k v ttl d.1 in (ok, (m, d.2));
  DEL k d := let '(ok, m) := DEL k d.1 in (ok, (m, d.2));
|}.

#[local] Instance pair_redis_laws : RedisLaws (mapdb * setdb).
Proof.
  split.
  - intros k v ttl d d' Httl [= <-]. simpl. by rewrite lookup_insert_eq.
  - intros k v ttl [m s] k' v'. exact (GET_after_SET k v ttl m k' v').
  - intros k [m s] k' v'. exact (GET_after_DEL k m k' v').
Qed.

#[local] Instance pair_sets : RedisSets (mapdb * setdb) := {|
  setAt k d := setAt k d.2;
  PIPELINE cs d := let '(ok, s) := PIPELINE cs d.2 in (ok, (d.1, s));
  SMEMBERS k d := SMEMBERS k d.2;
|}.

Definition seededStore : Store pgdb (mapdb * setdb) :=
  MkStore (MkPG (MkTables ∅ [] (settingsT (migrated 0)) ∅) 100 1000) (∅ : mapdb, ∅ : setdb).

Definition proxyManager : Manager unit := NewManager "/tmp" 3600 104857600 None.

Lemma settings_reach_proxy_witness :
  ∃ s', UpdateScanSetting "max_size_mb" "25" "ann" seededStore = (None, s') ∧
        MaxSizeMB (config (loadScanConfig (GET scanConfigRedisKey (rdb s')) proxyManager)) = 25%Z.
Proof.
  destruct (UpdateScanSetting "max_size_mb" "25" "ann" seededStore) as [r s'] eqn:Hu.
  assert (r = None) as ->.
  { apply (f_equal fst) in Hu. cbn [fst] in Hu. rewrite <-Hu. vm_compute. reflexivity. }
  exists s'. split; [done|].
  assert (str "25" = fmtZ 25) as Hv by (vm_compute; reflexivity).
  apply (settings_reach_proxy "max_size_mb" "25" "ann" seededStore s' proxyManager
    ltac:(by intros ? ? []) (map_Forall_empty _) Hu); [reflexivity|exact Hv|lia].
Defined.

Lemma migrated_config_witness :
  buildScanConfig (MkPG (migrated 7) 100 1000) =
  Some (MkScanConfig (cfg_Enabled DefaultScanConfig) 500 (Rules DefaultScanConfig)).
Proof.
  destruct (buildScanConfig (MkPG (migrated 7) 100 1000)) as [cfg|] eqn:Hb; [|by vm_compute in Hb].
  pose proof (buildScanConfig_describes _ _ Hb) as Hd. by rewrite (proj1 (migrated_config 7 cfg Hd)).
Defined.
(** *** An overtaken synchronisation *)

Definition setMax (value : bytes) (pg : pgdb) : pgdb := (UPDATE_setting "max_size_mb" value "ann" pg).2.
Definition rowsOf (pg : pgdb) : list (bytes * bytes) := default [] (SELECT_settings pg).
Definition rulesOf (pg : pgdb) : list (bytes * bool * bool) := default [] (SELECT_mime pg).
Definition setConfig (pg : pgdb) (r : mapdb * setdb) : mapdb * setdb :=
  (SET scanConfigRedisKey (marshal (configOf (rowsOf pg) (rulesOf pg))) 0 r).2.
Definition writeConfig (pg : pgdb) (r : mapdb * setdb) : mapdb * setdb :=
  pipe [CPublish scanConfigPubSubCh "sync"] (setConfig pg r).

(** Two changes of the limit, both successful: the first is read before the second
    is made and written after it.  The tables say 50 MB, the proxy keeps 25. *)
Lemma settings_race :
  ∃ x, rtc sstep (SFlight seededStore [] false) x ∧ sf_syncs x = [] ∧
       settingIn (tablesOf (pool (sf_store x))) "max_size_mb" = "50" ∧
       MaxSizeMB (config (loadScanConfig (GET scanConfigRedisKey (rdb (sf_store x))) proxyManager)) = 25%Z.
Proof.
  set (pa := setMax "25" (pool seededStore)). set (pb := setMax "50" pa).
  set (rb := writeConfig pb (rdb seededStore)).
  assert (∀ v pg, settingsT (pg_tables pg) !! str "max_size_mb" ≠ None → settingChange pg (setMax v pg)) as Hset.
  { intros v pg Hin. left. exists "max_size_mb", v, "ann", 1%N. split; [|done]. unfold setMax. cbn.
    by destruct (_ !! _). }
  exists (SFlight (MkStore pb (writeConfig pa rb)) [] true). split_and!; [|done|vm_compute; reflexivity..].
  eapply rtc_l; [apply (ss_change _ pa), Hset; by vm_compute|].
  eapply rtc_l; [by apply (ss_settings _ (rowsOf pa) [] [])|].
  eapply rtc_l; [by apply (ss_rules _ _ (rulesOf pa) [] [])|].
  eapply rtc_l; [apply (ss_change _ pb), Hset; by vm_compute|].
  eapply rtc_l; [by apply (ss_settings _ (rowsOf pb) [_] [])|].
  eapply rtc_l; [by apply (ss_rules _ _ (rulesOf pb) [_] [])|].
  eapply rtc_l; [by apply (ss_write _ _ (setConfig pb (rdb seededStore)) [_] [])|].
  apply rtc_once. by apply (ss_write (MkStore pb rb) (configOf (rowsOf pa) (rulesOf pa)) (setConfig pa rb) [] [] true false).
Qed.
End witnesses.
