(* ===== verification/Api.v ===== *)
(** * The API's HTTP handlers ([internal/api/handler.go], [NewStore] of [store.go])

    Routing, authentication and the handlers over the store.  [net/http]'s
    [ServeMux] is modelled as far as the routes need it; its own replies
    (redirects, 404, 405) and JSON are parameters. *)
From S2P Require Import Prelude GoStrings Http Services ScanConfig Postgres.
From S2P Require Import Pagination Store ScanSettings Domain.

(** ** Request bodies *)

(** [json.NewDecoder(r.Body).Decode(&body)]: the struct afterwards, filled as far
    as the decoder got, and whether there was no error. *)
Class Decoder (A : Type) := { Decode : bytes → A * bool }.

Record AddBody := MkAddBody { ab_Domain : bytes; ab_Comment : bytes; ab_Actor : bytes }.
Record UpdateBody := MkUpdateBody { ub_Enabled : option bool; ub_Comment : option bytes; ub_Actor : bytes }.
Record RemoveBody := MkRemoveBody { rb_Actor : bytes; rb_Comment : bytes }.
Record SettingBody := MkSettingBody { sb_Key : bytes; sb_Value : bytes; sb_Actor : bytes }.
Record MimeBody := MkMimeBody { mb_Enabled : option bool; mb_Note : bytes; mb_Actor : bytes }.

(** The replies that [ServeMux] gives by itself to a request without a route. *)
Class MuxReplies := { muxReply : Request → Reply }.

(** ** Replies *)

Definition jsonHeader : list (bytes * bytes) := [(str "Content-Type", str "application/json")].

Definition jsonError (msg : bytes) (code : Z) : Reply :=
  MkReply code jsonHeader (quotes ("{`error`:`" ++ msg ++ "`}") ++ [LF]).

Definition jsonOK `{JSON A} (v : A) : Reply := MkReply 200 jsonHeader (marshal v ++ [LF]).

Definition internalError : Reply := jsonError "internal error" 500.
Definition invalidJSON : Reply := jsonError "invalid JSON" 400.
Definition noContent : Reply := MkReply 204 [] [].

(** ** Requests *)

(** [URL.EscapedPath()] of a server request, the request URI up to its query. *)
Definition EscapedPath (u : URL) : bytes :=
  match IndexByte (u_RequestURI u) "?"%char with
  | Some i => take i (u_RequestURI u)
  | None => u_RequestURI u
  end.

(** The decoded path is the escaped one, decoded. *)
Definition urlOk (u : URL) : Prop := PathUnescape (EscapedPath u) = Some (u_Path u).

Definition queryInt (q key : bytes) : Z := ParseInt (queryGet q key).

(** [pathDomain] on the path value, which [ServeMux] has decoded once. *)
Definition pathDomain `{Unicode} (encoded : bytes) : bytes + bytes :=
  match PathUnescape encoded with
  | None => inr (str "invalid domain encoding")
  | Some d =>
      let d := ToLower (TrimSpace d) in
      if decide (d = []) then inr (str "domain is required") else inl d
  end.

(** ** Routing *)

Inductive endpoint :=
  | EHealthz
  | EList
  | EAdd
  | EUpdate (domain : bytes)
  | ERemove (domain : bytes)
  | EAudit (domain : bytes)
  | EGetScanSettings
  | EPatchScanSetting
  | EListMimeTypes
  | EPatchMimeType (pattern : bytes).

(** One segment of a pattern; a wildcard yields the path value. *)
Inductive segment := Lit (s : bytes) | Wild.

Fixpoint matchSegments (pat : list segment) (segs : list bytes) : option (list bytes) :=
  match pat, segs with
  | [], [] => Some []
  | Lit l :: pat, s :: segs => if decide (s = l) then matchSegments pat segs else None
  | Wild :: pat, s :: segs =>
      if decide (s = str "/") then None else vs ← matchSegments pat segs; Some (s :: vs)
  | _, _ => None
  end.

Definition api (rest : list segment) : list segment := Lit (str "api") :: Lit (str "v1") :: rest.

(** The patterns that [NewHandler] registers. *)
Definition routes : list (bytes * list segment * (list bytes → option endpoint)) :=
  let none e vs := match vs : list bytes with [] => Some e | _ => None end in
  let one e vs := match vs : list bytes with [v] => Some (e v : endpoint) | _ => None end in
  [ (str "GET", [Lit (str "healthz")], none EHealthz);
    (str "GET", api [Lit (str "blocklist")], none EList);
    (str "POST", api [Lit (str "blocklist")], none EAdd);
    (str "PATCH", api [Lit (str "blocklist"); Wild], one EUpdate);
    (str "DELETE", api [Lit (str "blocklist"); Wild], one ERemove);
    (str "GET", api [Lit (str "blocklist"); Wild; Lit (str "audit")], one EAudit);
    (str "GET", api [Lit (str "scan"); Lit (str "settings")], none EGetScanSettings);
    (str "PATCH", api [Lit (str "scan"); Lit (str "settings")], none EPatchScanSetting);
    (str "GET", api [Lit (str "scan"); Lit (str "mime-types")], none EListMimeTypes);
    (str "PATCH", api [Lit (str "scan"); Lit (str "mime-types"); Wild], one EPatchMimeType) ].

(** A [GET] pattern matches [HEAD] as well. *)
Definition methodMatches (pat m : bytes) : bool :=
  bool_decide (m = pat ∨ pat = str "GET" ∧ m = str "HEAD").

(** A path that [cleanPath] leaves alone: no empty segment but the last, and no
    dots; any other is redirected. *)
Definition cleanSegments (segs : list bytes) : bool :=
  forallb (λ s, bool_decide (s ≠ str "." ∧ s ≠ str "..")) segs &&
  forallb (λ s, bool_decide (s ≠ [])) (removelast segs).

(** [firstSegment]: a trailing slash stands for itself, the rest is decoded where
    possible. *)
Definition segmentValue (s : bytes) : bytes :=
  if decide (s = []) then str "/" else default s (PathUnescape s).

Definition pathSegments (p : bytes) : option (list bytes) :=
  match p with
  | c :: p =>
      if decide (c = slash) then
        let segs := Split p slash in
        if cleanSegments segs then Some (map segmentValue segs) else None
      else None
  | [] => None
  end.

Definition route (r : Request) : option endpoint :=
  segs ← pathSegments (EscapedPath (r_URL r));
  head (omap (λ '(m, pat, e), if methodMatches m (r_Method r) then vs ← matchSegments pat segs; e vs else None) routes).

(** ** Handlers *)

Section handlers.
Context `{Unicode, Postgres db, Redis rd, RedisSets rd}.
Context `{JSON ScanConfig, JSON Entry, JSON (PagedResult Entry), JSON (PagedResult AuditEntry)}.
Context `{JSON (list ScanSettingEntry), JSON MimeTypeEntry, JSON (list MimeTypeEntry)}.
Context `{Decoder AddBody, Decoder UpdateBody, Decoder RemoveBody, Decoder SettingBody, Decoder MimeBody}.
Context `{MuxReplies}.
Implicit Types s : Store db rd.

Definition handleList (r : Request) s : Reply * Store db rd :=
  let q := u_RawQuery (r_URL r) in
  let lq := MkListQuery (queryGet q "q") (queryGet q "sort") (queryGet q "order")
              (queryInt q "page") (queryInt q "limit") in
  match List (bool_decide (queryGet q "enabled" = "true")) lq (pool s) with
  | None => (internalError, s)
  | Some result => (jsonOK result, s)
  end.

Definition invalidDomain : bytes :=
  "invalid domain: must be a plain hostname (e.g. example.com or *.example.com), without scheme or path".

Definition handleAdd (body : bytes) s : Reply * Store db rd :=
  match Decode body with
  | (_, false) => (invalidJSON, s)
  | (MkAddBody dom comment actor, true) =>
      let domain := ToLower (TrimSpace dom) in
      if decide (domain = []) then (jsonError "domain is required" 400, s)
      else if negb (isValidDomain domain) then (jsonError invalidDomain 400, s)
      else
        match Add domain comment actor s with
        | (inr ErrDuplicate, s) => (jsonError "domain already exists" 409, s)
        | (inr _, s) => (internalError, s)
        | (inl entry, s) => (MkReply 201 jsonHeader (marshal entry ++ [LF]), s)
        end
  end.

Definition handleUpdate (value body : bytes) s : Reply * Store db rd :=
  match pathDomain value with
  | inr err => (jsonError err 400, s)
  | inl domain =>
      match Decode body with
      | (_, false) => (invalidJSON, s)
      | (MkUpdateBody enabled comment actor, true) =>
          if decide (enabled = None ∧ comment = None) then
            (jsonError "at least one of enabled or comment is required" 400, s)
          else
            match Update domain (MkUpdate enabled comment actor) s with
            | (inr ErrNotFound, s) => (jsonError "domain not found" 404, s)
            | (inr _, s) => (internalError, s)
            | (inl entry, s) => (jsonOK entry, s)
            end
      end
  end.

(** The body is optional: an error of the decoder is ignored. *)
Definition handleRemove (value body : bytes) s : Reply * Store db rd :=
  match pathDomain value with
  | inr err => (jsonError err 400, s)
  | inl domain =>
      let '(MkRemoveBody actor comment, _) := Decode body in
      match Remove domain actor comment s with
      | (inr ErrNotFound, s) => (jsonError "domain not found" 404, s)
      | (inr _, s) => (internalError, s)
      | (inl _, s) => (noContent, s)
      end
  end.

Definition handleAudit (value : bytes) (r : Request) s : Reply * Store db rd :=
  match pathDomain value with
  | inr err => (jsonError err 400, s)
  | inl domain =>
      let q := u_RawQuery (r_URL r) in
      let lq := MkListQuery [] [] [] (queryInt q "page") (queryInt q "limit") in
      match AuditLog domain lq (pool s) with
      | None => (internalError, s)
      | Some result => (jsonOK result, s)
      end
  end.

Definition handleGetScanSettings s : Reply * Store db rd :=
  match GetScanSettings s with
  | None => (internalError, s)
  | Some entries => (jsonOK entries, s)
  end.

Definition handlePatchScanSetting (body : bytes) s : Reply * Store db rd :=
  match Decode body with
  | (_, false) => (invalidJSON, s)
  | (MkSettingBody key value actor, true) =>
      if decide (key = [] ∨ value = []) then (jsonError "key and value are required" 400, s)
      else
        match UpdateScanSetting key value actor s with
        | (Some ErrNotFound, s) => (jsonError "setting key not found" 404, s)
        | (Some _, s) => (internalError, s)
        | (None, s) => (noContent, s)
        end
  end.

Definition handleListMimeTypes (r : Request) s : Reply * Store db rd :=
  let q := u_RawQuery (r_URL r) in
  let lq := MkListQuery (queryGet q "q") (queryGet q "sort") (queryGet q "order") 0 0 in
  match ListMimeTypes (bool_decide (queryGet q "enabled" = "true")) lq s with
  | None => (internalError, s)
  | Some entries => (jsonOK entries, s)
  end.

Definition handlePatchMimeType (encoded body : bytes) s : Reply * Store db rd :=
  match PathUnescape encoded with
  | None => (jsonError "invalid pattern" 400, s)
  | Some pattern =>
      if decide (TrimSpace pattern = []) then (jsonError "invalid pattern" 400, s)
      else
        match Decode body with
        | (_, false) => (invalidJSON, s)
        | (MkMimeBody enabled note actor, true) =>
            if decide (enabled = None ∧ note = []) then
              (jsonError "at least one of enabled or note is required" 400, s)
            else
              match UpdateMimeType pattern enabled note actor s with
              | (inr ErrNotFound, s) => (jsonError "pattern not found" 404, s)
              | (inr _, s) => (internalError, s)
              | (inl entry, s) => (jsonOK entry, s)
              end
        end
  end.

(** ** The server *)

Definition dispatch (e : endpoint) (r : Request) (body : bytes) s : Reply * Store db rd :=
  match e with
  | EHealthz => (MkReply 200 [] [], s)
  | EList => handleList r s
  | EAdd => handleAdd body s
  | EUpdate v => handleUpdate v body s
  | ERemove v => handleRemove v body s
  | EAudit v => handleAudit v r s
  | EGetScanSettings => handleGetScanSettings s
  | EPatchScanSetting => handlePatchScanSetting body s
  | EListMimeTypes => handleListMimeTypes r s
  | EPatchMimeType v => handlePatchMimeType v body s
  end.

Definition mux (r : Request) (body : bytes) s : Reply * Store db rd :=
  match route r with Some e => dispatch e r body s | None => (muxReply r, s) end.

(** [CutPrefix] of the header, and the comparison with the key. *)
Definition authorised (apiKey : bytes) (r : Request) : bool :=
  match CutPrefix (hget (r_Header r) "Authorization") "Bearer " with
  | Some token => bool_decide (token = apiKey)
  | None => false
  end.

Definition unauthorized : Reply := jsonError "unauthorized" 401.

Definition bearerAuth (apiKey : bytes) (h : Request → bytes → Store db rd → Reply * Store db rd)
    (r : Request) (body : bytes) s : Reply * Store db rd :=
  if decide (u_Path (r_URL r) = "/healthz") then h r body s
  else if authorised apiKey r then h r body s
  else (unauthorized, s).

Definition NewHandler (apiKey : bytes) : Request → bytes → Store db rd → Reply * Store db rd :=
  if decide (apiKey = []) then mux else bearerAuth apiKey mux.

(** Requests served one after the other. *)
Fixpoint serveAll (apiKey : bytes) (reqs : list (Request * bytes)) s : list Reply * Store db rd :=
  match reqs with
  | [] => ([], s)
  | (r, body) :: reqs =>
      let '(rep, s) := NewHandler apiKey r body s in
      let '(reps, s) := serveAll apiKey reqs s in (rep :: reps, s)
  end.
End handlers.

(** ** Specification *)

(** The change that a request asks for, if it is well formed. *)
Definition requested `{Unicode, Decoder AddBody, Decoder UpdateBody, Decoder RemoveBody}
    (e : endpoint) (body : bytes) : option change :=
  match e with
  | EAdd =>
      let '(MkAddBody dom comment actor, ok) := Decode body in
      let d := ToLower (TrimSpace dom) in
      if ok && isValidDomain d then Some (ChAdd d comment actor) else None
  | EUpdate v =>
      match pathDomain v with
      | inl d =>
          let '(MkUpdateBody enabled comment actor, ok) := Decode body in
          if ok && negb (bool_decide (enabled = None ∧ comment = None))
          then Some (ChUpdate d (MkUpdate enabled comment actor)) else None
      | inr _ => None
      end
  | ERemove v =>
      match pathDomain v with
      | inl d => let '(MkRemoveBody actor comment, _) := Decode body in Some (ChRemove d actor comment)
      | inr _ => None
      end
  | _ => None
  end.

(** The status of a change that took place. *)
Definition successCode (o : change) : Z :=
  match o with ChAdd _ _ _ => 201 | ChUpdate _ _ => 200 | ChRemove _ _ _ => 204 end.

Definition isChange (e : endpoint) : bool :=
  match e with EAdd | EUpdate _ | ERemove _ => true | _ => false end.

(** Every row is filed under its own key, and every domain is a valid one. *)
Definition tablesWf (t : tables) : Prop :=
  map_Forall (λ d e, e_Domain e = d ∧ isValidDomain d = true) (entriesT t) ∧
  map_Forall (λ k row, st_Key row = k) (settingsT t) ∧
  map_Forall (λ p m, mt_Pattern m = p) (mimeT t).

(** No setting or MIME rule appears or disappears, and no audit row is lost. *)
Definition evolves (t t' : tables) : Prop :=
  dom (settingsT t') = dom (settingsT t) ∧ dom (mimeT t') = dom (mimeT t) ∧ auditT t `prefix_of` auditT t'.

#[export] Instance evolves_preorder : PreOrder evolves.
Proof.
  split.
  - intros t. by split_and!.
  - intros t1 t2 t3 (? & ? & ?) (? & ? & ?). split_and!; [congruence..|by etrans].
Qed.

Section api_spec.
Context `{Unicode, Postgres db, !PostgresLaws db, Redis rd, RedisSets rd, !RedisSetsLaws rd}.
Context `{JSON ScanConfig, JSON Entry, JSON (PagedResult Entry), JSON (PagedResult AuditEntry)}.
Context `{JSON (list ScanSettingEntry), JSON MimeTypeEntry, JSON (list MimeTypeEntry)}.
Context `{Decoder AddBody, Decoder UpdateBody, Decoder RemoveBody, Decoder SettingBody, Decoder MimeBody}.
Context `{MuxReplies}.
Implicit Types s : Store db rd.

(** *** The handlers of changes are the store's changes *)

(** The status that the handlers give to the result of a change. *)
Definition changeCode (o : change) (r : option Entry + storeErr) : Z :=
  match r, o with
  | inl _, _ => successCode o
  | inr ErrDuplicate, ChAdd _ _ _ => 409
  | inr ErrNotFound, ChUpdate _ _ | inr ErrNotFound, ChRemove _ _ _ => 404
  | inr _, _ => 500
  end.

Lemma isValidDomain_nil : isValidDomain [] = false.
Proof. reflexivity. Qed.

Lemma dispatch_change e r body s :
  isChange e = true →
  match requested e body with
  | None => rep_code (dispatch e r body s).1 = 400%Z ∧ (dispatch e r body s).2 = s
  | Some o => (rep_code (dispatch e r body s).1, (dispatch e r body s).2) =
              (changeCode o (applyChange o s).1, (applyChange o s).2)
  end.
Proof.
  destruct e as [| | |v|v| | | | |]; try done; intros _; unfold dispatch, requested.
  - unfold handleAdd. destruct (Decode body) as [[dm c a] []]; [|done].
    case_decide as Hd; [by rewrite Hd, isValidDomain_nil|].
    destruct (isValidDomain _); [|done]. cbn [andb negb applyChange].
    by destruct (Add _ c a s) as [[en|[]] s'].
  - unfold handleUpdate. destruct (pathDomain v) as [d|err]; [|done].
    destruct (Decode body) as [[en c a] []]; [|done]. cbn [andb].
    case_decide as Hd; [by rewrite bool_decide_eq_true_2|]. rewrite bool_decide_eq_false_2 by done.
    cbn [negb applyChange]. by destruct (Update d _ s) as [[x|[]] s'].
  - unfold handleRemove. destruct (pathDomain v) as [d|err]; [|done].
    destruct (Decode body) as [[a c] ok]. cbn [applyChange].
    by destruct (Remove d a c s) as [[x|[]] s'].
Qed.

(** C29. A change through the API answers the truth.  A malformed request is
    refused with 400 and nothing is done.  Otherwise, unless PostgreSQL reports an
    error, the answer is the success status, with the entry and its audit row
    committed and the commands given to Redis, or, with nothing changed, 409 to an
    addition of a domain that is there and 404 to an update or a removal of one
    that is not; when PostgreSQL reports an error it is 500, and the tables are as
    they were unless it is the commit whose outcome is unknown. *)
Theorem api_change_contract e r body s :
  isChange e = true →
  let '(rep, s') := dispatch e r body s in
  let t := tablesOf (pool s) in
  let t' := tablesOf (pool s') in
  match requested e body with
  | None => rep_code rep = 400%Z ∧ s' = s
  | Some o =>
      (rep_code rep = successCode o ∧ rdb s' = changePipe o (rdb s) ∧ ∃ res, changes o t t' res) ∨
      (rdb s' = rdb s ∧ t' = t ∧
         ((rep_code rep = 409%Z ∧ e = EAdd ∧ is_Some (entriesT t !! changeDomain o)) ∨
          (rep_code rep = 404%Z ∧ e ≠ EAdd ∧ entriesT t !! changeDomain o = None) ∨
          (rep_code rep = 500%Z ∧ dbError o (pool s)))) ∨
      (rdb s' = rdb s ∧ rep_code rep = 500%Z ∧ commitLost o (pool s) (pool s') ∧
         ∃ res, changes o t t' res)
  end.
Proof.
  intros He. pose proof (dispatch_change e r body s He) as Hd.
  destruct (dispatch e r body s) as [rep s']. cbn [fst snd] in Hd.
  destruct (requested e body) as [o|] eqn:Ho; [|done]. cbv zeta.
  pose proof (applyChange_atomic o s) as Ha. destruct (applyChange o s) as [res s1].
  cbn [fst snd] in Hd. injection Hd as -> ->. destruct res as [res|err].
  - left. destruct Ha as [Hch Hr]. by split_and!; [..|exists res].
  - right. destruct Ha as [Hr [[Ht Href]|(-> & Hc & res & Hch)]].
    + left. split_and!; [done|done|]. unfold refusal in Href. destruct err; cbn [answerOf] in Href.
      * destruct Href as [(d & c & a & ->) Hs]. left.
        split_and!; [done| |done]. destruct e; try done; cbn in Ho;
          repeat (case_match; try done).
      * destruct Href as [Hn Hs]. right. left. destruct o; [by destruct Hn; eexists _, _, _|..];
          (split_and!; [done| |done]); intros ->; cbn in Ho; repeat (case_match; try done).
      * right. right. split; [by destruct o|done].
    + right. split_and!; [done|by destruct o|done|by exists res].
Qed.

(** *** Every request keeps the tables well formed *)

Lemma withEntries_evolves m t : evolves t (withEntries m t).
Proof. by split_and!. Qed.

Lemma changes_wf (o : change) (t t' : tables) (res : option Entry) :
  changes o t t' res → (∀ d c a, o = ChAdd d c a → isValidDomain d = true) →
  tablesWf t → tablesWf t' ∧ evolves t t'.
Proof.
  intros (m & r & Heff & _ & ->) Hv (He & Hs & Hm). split.
  - split_and!; [|done|done]. cbn [withAudit withEntries entriesT].
    destruct o as [d c a|d req|d a c]; cbn [entryEffect] in Heff.
    + destruct Heff as (e & _ & _ & -> & Hd & _). apply map_Forall_insert_2; [|done]. split; [done|by eapply Hv].
    + destruct Heff as (old & e & _ & Hold & -> & Hd & _). apply map_Forall_insert_2; [|done].
      rewrite Hd. exact (He d old Hold).
    + destruct Heff as (_ & _ & ->). by apply map_Forall_delete.
  - split_and!; [done..|]. by eexists.
Qed.

Lemma requested_valid e body d c a : requested e body = Some (ChAdd d c a) → isValidDomain d = true.
Proof.
  destruct e; cbn [requested]; try done; repeat (case_match; try done).
  - intros [= <- _ _]. match goal with H : _ && _ = true |- _ => by apply andb_true_iff in H as [_ H] end.
Qed.

Lemma applyChange_wf o s :
  (∀ d c a, o = ChAdd d c a → isValidDomain d = true) →
  tablesWf (tablesOf (pool s)) →
  tablesWf (tablesOf (pool (applyChange o s).2)) ∧ evolves (tablesOf (pool s)) (tablesOf (pool (applyChange o s).2)).
Proof.
  intros Hv Hwf. pose proof (applyChange_atomic o s) as Ha. destruct (applyChange o s) as [[res|err] s']; cbn [snd].
  - destruct Ha as [Hch _]. by eapply changes_wf.
  - destruct Ha as [_ [[-> _]|(_ & _ & res & Hch)]]; [done|]. by eapply changes_wf.
Qed.

Lemma syncScanConfig_pool s : pool (syncScanConfigToRedis s).2 = pool s.
Proof.
  unfold syncScanConfigToRedis. destruct (buildScanConfig _); [|done].
  by destruct (SET _ _ _ _) as [[] ?].
Qed.

Lemma UpdateScanSetting_wf k v a s :
  tablesWf (tablesOf (pool s)) →
  let t' := tablesOf (pool (UpdateScanSetting k v a s).2) in tablesWf t' ∧ evolves (tablesOf (pool s)) t'.
Proof.
  intros (He & Hs & Hm). unfold UpdateScanSetting. pose proof (UPDATE_setting_ok k v a (pool s)) as Hu.
  destruct (UPDATE_setting k v a (pool s)) as [[n|] pg]; cbn [snd pool]; [|by rewrite Hu].
  destruct (n =? 0)%N; cbn [snd pool]; [by destruct Hu as [_ ->]|].
  destruct Hu as (row & Hk & Hrow & _ & _ & Ht).
  pose proof (syncScanConfig_pool (MkStore pg (rdb s))) as Hp.
  destruct (syncScanConfigToRedis _) as [ok s']. cbn [snd pool] in *. rewrite Hp, Ht. split.
  - split_and!; [done| |done]. cbn [withSettings settingsT]. by apply map_Forall_insert_2.
  - split_and!; [|done|done]. cbn [withSettings settingsT]. rewrite dom_insert_L.
    apply elem_of_dom in Hk. set_solver.
Qed.

Lemma UpdateMimeType_wf p en n a s :
  tablesWf (tablesOf (pool s)) →
  let t' := tablesOf (pool (UpdateMimeType p en n a s).2) in tablesWf t' ∧ evolves (tablesOf (pool s)) t'.
Proof.
  intros (He & Hs & Hm). unfold UpdateMimeType. pose proof (UPDATE_mime_ok p en (nullableString n) a (pool s)) as Hu.
  destruct (UPDATE_mime _ _ _ _ (pool s)) as [[m| |] pg]; cbn [snd pool]; [|by destruct Hu as [_ ->]|by rewrite Hu].
  destruct Hu as (old & Hold & _ & Hp & _ & _ & _ & _ & Ht).
  pose proof (syncScanConfig_pool (MkStore pg (rdb s))) as Hpool.
  destruct (syncScanConfigToRedis _) as [ok s']. cbn [snd pool] in *. rewrite Hpool, Ht. split.
  - split_and!; [done|done|]. cbn [withMime mimeT]. apply map_Forall_insert_2; [|done].
    rewrite Hp. exact (Hm p old Hold).
  - split_and!; [done| |done]. cbn [withMime mimeT]. rewrite dom_insert_L.
    apply elem_of_dom_2 in Hold. set_solver.
Qed.

Lemma dispatch_wf e r body s :
  tablesWf (tablesOf (pool s)) →
  tablesWf (tablesOf (pool (dispatch e r body s).2)) ∧
  evolves (tablesOf (pool s)) (tablesOf (pool (dispatch e r body s).2)).
Proof.
  intros Hwf. destruct (isChange e) eqn:He.
  { pose proof (dispatch_change e r body s He) as Hd. destruct (requested e body) as [o|] eqn:Ho.
    - apply (f_equal snd) in Hd. cbn [snd] in Hd. rewrite Hd. apply applyChange_wf; [|done].
      intros d c a ->. by eapply requested_valid.
    - by destruct Hd as [_ ->]. }
  destruct e as [| | |v|v|v| | | |v]; try done; unfold dispatch.
  - unfold handleList. by case_match.
  - unfold handleAudit. by repeat case_match.
  - unfold handleGetScanSettings. by case_match.
  - unfold handlePatchScanSetting. destruct (Decode body) as [[k v a] []]; [|done]. case_decide; [done|].
    pose proof (UpdateScanSetting_wf k v a s Hwf) as Hu.
    by destruct (UpdateScanSetting k v a s) as [[[]|] s'].
  - unfold handleListMimeTypes. by case_match.
  - unfold handlePatchMimeType. destruct (PathUnescape v) as [p|]; [|done]. case_decide; [done|].
    destruct (Decode body) as [[en n a] []]; [|done]. case_decide; [done|].
    pose proof (UpdateMimeType_wf p en n a s Hwf) as Hu.
    by destruct (UpdateMimeType p en n a s) as [[x|[]] s'].
Qed.

(** *** Authentication *)

Lemma PathUnescape_slash n p t :
  (length p ≤ n)%nat → PathUnescape p = Some t → slash ∈ p → slash ∈ t.
Proof.
  revert p t. induction n as [|n IH]; intros [|c p] t Hn; try (by intros _ ?%not_elem_of_nil); simpl in Hn; [lia|].
  cbn [PathUnescape]. case_decide as Hc.
  - destruct p as [|a [|b p]]; try done.
    intros (x & Hx & (t' & Ht & [= <-])%bind_Some)%bind_Some.
    unfold hexDigits in Hx. apply bind_Some in Hx as (va & Ha & (vb & Hb & _)%bind_Some).
    rewrite !elem_of_cons. intros [Hs|[Hs|[Hs|Hin]]]; [by subst|by rewrite <-Hs in Ha|by rewrite <-Hs in Hb|]. right.
    apply (IH p); [simpl in Hn; lia|done|done].
  - intros (t' & Ht & [= <-])%bind_Some. rewrite !elem_of_cons. intros [->|Hin]; [by left|right].
    by apply (IH p); [lia|..].
Qed.

Lemma head_omap_Some {A B} (f : A → option B) l b : head (omap f l) = Some b → ∃ a, a ∈ l ∧ f a = Some b.
Proof.
  intros Hh%head_Some_elem_of. by apply list_elem_of_omap in Hh.
Qed.

Lemma healthz_only :
  Forall (λ '(_, pat, e), ∀ vs, matchSegments pat [str "healthz"] = Some vs → e vs = None ∨ e vs = Some EHealthz) routes.
Proof.
  unfold routes, api. repeat (apply Forall_cons; split); [..|by apply Forall_nil];
    intros vs; cbn [matchSegments]; case_decide; try done.
  intros [= <-]. by right.
Qed.

(** A path that reads [/healthz] once decoded is routed nowhere else. *)
Lemma healthz_route r e : urlOk (r_URL r) → u_Path (r_URL r) = "/healthz" → route r = Some e → e = EHealthz.
Proof.
  unfold urlOk, route. intros Hurl Hpath. rewrite Hpath in Hurl. destruct (EscapedPath (r_URL r)) as [|c p]; [done|].
  intros (segs & Hsegs & (([m pat] & ep) & Hin & Hf)%head_omap_Some)%bind_Some.
  cbn [pathSegments] in Hsegs. case_decide as Hc; [|done]. subst c.
  assert (PathUnescape p = Some (str "healthz")) as Hp.
  { cbn [PathUnescape] in Hurl. rewrite decide_False in Hurl by done.
    by apply bind_Some in Hurl as (t & -> & [= ->]). }
  assert (slash ∉ p) as Hslash.
  { intros Hs. apply (PathUnescape_slash (length p) p _ ltac:(done) Hp) in Hs. by revert Hs; decide_closed. }
  cbv zeta in Hsegs. rewrite Split_no_sep in Hsegs by done.
  destruct (cleanSegments [p]); [|done]. injection Hsegs as <-.
  assert (segmentValue p = "healthz") as Hv.
  { unfold segmentValue. rewrite Hp. by rewrite decide_False by (intros ->; done). }
  cbn [map] in Hf. rewrite Hv in Hf. case_match; [|done].
  apply bind_Some in Hf as (vs & Hm & He).
  pose proof (proj1 (Forall_forall _ _) healthz_only _ Hin vs Hm) as [?|?]; congruence.
Qed.

(** C30. With a key set, nobody gets past it.  A request whose [Authorization] is
    not exactly the bearer token changes nothing and is told nothing but 401,
    however its path is written; only [/healthz], in whatever encoding, is
    answered, by the health check or by the router itself.  With the token the
    request is served as without authentication. *)
Theorem api_authenticated apiKey r body s :
  apiKey ≠ [] → urlOk (r_URL r) →
  if decide (hget (r_Header r) "Authorization" = "Bearer " ++ apiKey)
  then NewHandler apiKey r body s = mux r body s
  else ∃ rep, NewHandler apiKey r body s = (rep, s) ∧
       (rep = unauthorized ∨ (u_Path (r_URL r) = "/healthz" ∧ (rep = MkReply 200 [] [] ∨ rep = muxReply r))).
Proof.
  intros Hkey Hurl. unfold NewHandler. destruct (decide (apiKey = [])); [done|]. unfold bearerAuth.
  assert (authorised apiKey r = bool_decide (hget (r_Header r) "Authorization" = "Bearer " ++ apiKey)) as ->.
  { unfold authorised. destruct (CutPrefix _ _) as [tok|] eqn:Hc.
    - apply CutPrefix_Some in Hc as ->. apply bool_decide_ext. split; [by intros ->|by intros ?%app_inv_head].
    - rewrite bool_decide_eq_false_2; [done|]. intros Heq. rewrite Heq, CutPrefix_app in Hc. done. }
  destruct (decide (hget _ _ = _)) as [Hh|Hh].
  - rewrite bool_decide_eq_true_2 by done. by case_decide.
  - rewrite bool_decide_eq_false_2 by done. case_decide as Hp; [|exists unauthorized; auto].
    unfold mux. destruct (route r) as [e|] eqn:He; [|by eexists; eauto].
    rewrite (healthz_route r e Hurl Hp He). eexists. split; [done|auto].
Qed.

(** C31. Whatever is sent to the API, its tables stay well formed: after any
    sequence of requests every domain in the blocklist is a valid one, filed
    under its own name, no setting or MIME rule has appeared or disappeared, and
    no row of the audit log has been lost. *)
Theorem api_wellformed apiKey reqs s :
  tablesWf (tablesOf (pool s)) →
  let s' := (serveAll apiKey reqs s).2 in
  tablesWf (tablesOf (pool s')) ∧ evolves (tablesOf (pool s)) (tablesOf (pool s')).
Proof.
  revert s. induction reqs as [|[r body] reqs IH]; intros s Hwf; [done|]. cbn [serveAll].
  assert (tablesWf (tablesOf (pool (NewHandler apiKey r body s).2)) ∧
          evolves (tablesOf (pool s)) (tablesOf (pool (NewHandler apiKey r body s).2))) as [Hwf' Hev].
  { unfold NewHandler, bearerAuth, mux. repeat case_decide; destruct (authorised apiKey r), (route r);
      try done; by apply dispatch_wf. }
  destruct (NewHandler apiKey r body s) as [rep s1]. cbn [snd] in *. specialize (IH s1 Hwf').
  destruct (serveAll apiKey reqs s1) as [reps s2]. cbn [snd] in *. destruct IH as [? ?]. split; [done|by etrans].
Qed.
End api_spec.

(** ** The start of the API *)

(** Running the migration script; [None] is an error. *)
Class Migration (db : Type) := { MIGRATE : db → option db }.

(** [CREATE TABLE IF NOT EXISTS] keeps the rows, [INSERT ... ON CONFLICT DO
    NOTHING] adds the seeds that are missing. *)
Class MigrationLaws (db : Type) `{Postgres db, Migration db} := {
  MIGRATE_ok d d' :
    MIGRATE d = Some d' →
    ∃ now, let t := tablesOf d in let seeds := migrated now in
      entriesT (tablesOf d') = entriesT t ∧ auditT (tablesOf d') = auditT t ∧
      settingsT (tablesOf d') = settingsT t ∪ settingsT seeds ∧
      mt_Pattern <$> mimeT (tablesOf d') = mt_Pattern <$> (mimeT t ∪ mimeT seeds);
}.

Section start.
Context `{Postgres db, !PostgresLaws db, Migration db, !MigrationLaws db}.
Context `{Redis rd, !RedisLaws rd, RedisSets rd, !RedisSetsLaws rd, JSON ScanConfig}.

(** [NewStore] on the outcome of the connection: failed synchronisations are only
    logged. *)
Definition NewStore (connected : option db) (r : rd) : option (Store db rd) :=
  pg ← connected;
  pg ← MIGRATE pg;
  Some (syncScanConfigToRedis (syncToRedis (MkStore pg r)).2).2.

Lemma NewStore_pool pg r s : NewStore (Some pg) r = Some s → MIGRATE pg = Some (pool s).
Proof.
  intros (pg' & Hm & Hs)%bind_Some. apply (f_equal (default s)) in Hs. cbn [default from_option id] in Hs. subst s.
  rewrite syncScanConfig_pool. rewrite Hm. f_equal. unfold syncToRedis. case_match; [|done].
  by destruct (PIPELINE _ _) as [[] ?].
Qed.

(** The seeds are text that JSON carries. *)
Lemma NewStore_text pg r s :
  NewStore (Some pg) r = Some s → tablesText (tablesOf pg) → tablesText (tablesOf (pool s)).
Proof.
  intros (now & _ & _ & _ & Hp)%NewStore_pool%MIGRATE_ok Ht k m Hm.
  apply (f_equal (lookup k)) in Hp. rewrite !lookup_fmap, Hm in Hp. cbn in Hp.
  symmetry in Hp. apply fmap_Some in Hp as (m' & Hm' & ->).
  apply lookup_union_Some_raw in Hm' as [Hm'|[_ Hm']]; [by eapply Ht|by eapply (migrated_text now)].
Qed.

(** The API starts with Redis agreeing with the tables, whatever Redis held
    before, provided that Redis is up and keeps strings and sets apart. *)
Lemma NewStore_coherent pg r s :
  (∀ cs (r : rd), (PIPELINE cs r).1 = true) →
  (∀ k v ttl (r : rd), setAt redisSetKey (SET k v ttl r).2 = setAt redisSetKey r) →
  (∀ d : db, is_Some (SELECT_enabled d)) →
  NewStore (Some pg) r = Some s →
  coherent s ∧ entriesT (tablesOf (pool s)) = entriesT (tablesOf pg) ∧
  (∀ k, is_Some (settingsT (migrated 0) !! k) → is_Some (settingsT (tablesOf (pool s)) !! k)).
Proof.
  intros Hup Hframe Hread (pg' & Hm & Hs)%bind_Some. apply MIGRATE_ok in Hm as (now & He & _ & Hset & _).
  apply (f_equal (default s)) in Hs. cbn [default from_option id] in Hs. subst s.
  destruct (syncToRedis (MkStore pg' r)) as [ok s1] eqn:Hsync. cbn [snd].
  assert (pool s1 = pg') as Hp1.
  { apply (f_equal snd) in Hsync. cbn [snd] in Hsync. subst s1. unfold syncToRedis. case_match; [|done].
    by destruct (PIPELINE _ _) as [[] ?]. }
  rewrite syncScanConfig_pool, Hp1. split_and!; [|done|].
  - destruct ok.
    + apply syncToRedis_coherent in Hsync as [Hco _]; [|done].
      unfold syncScanConfigToRedis. destruct (buildScanConfig (pool s1)) as [cfg|]; [|done].
      pose proof (Hframe scanConfigRedisKey (marshal cfg) 0%Z (rdb s1)) as Hf.
      destruct (SET _ _ _ (rdb s1)) as [[] r']; cbn [snd] in *; intros d; cbn [rdb pool].
      * rewrite pipe_ok by done. cbn [fold_left cmdSet]. rewrite Hf. apply Hco.
      * rewrite Hf. apply Hco.
    + exfalso. unfold syncToRedis in Hsync. cbn [pool rdb] in Hsync.
      destruct (Hread pg') as [ms Hms]. rewrite Hms in Hsync.
      match type of Hsync with context [PIPELINE ?cs r] => pose proof (Hup cs r) as Hok end.
      by destruct (PIPELINE _ r) as [[] r'].
  - intros k Hk. rewrite Hset. destruct (settingsT (tablesOf pg) !! k) eqn:Hold.
    + by rewrite (lookup_union_Some_l _ _ _ _ Hold).
    + rewrite lookup_union_r by done. rewrite <-elem_of_dom in Hk |- *.
      assert (dom (settingsT (migrated now)) = dom (settingsT (migrated 0))) as -> by reflexivity. done.
Qed.
End start.

(** ** Instances *)

#[export] Instance pgdb_migration : Migration pgdb := {|
  MIGRATE d :=
    let t := pg_tables d in
    let seeds := migrated (pg_now d) in
    Some (MkPG (MkTables (entriesT t) (auditT t) (settingsT t ∪ settingsT seeds) (mimeT t ∪ mimeT seeds))
            (pg_next d + 41) (pg_now d + 1));
|}.

#[export] Instance pgdb_migration_laws : MigrationLaws pgdb.
Proof.
  split. intros d d' Hd. apply (f_equal (default d)) in Hd. cbn [MIGRATE pgdb_migration default from_option id] in Hd.
  subst d'. exists (pg_now d). exact (conj eq_refl (conj eq_refl (conj eq_refl eq_refl))).
Qed.

Section witnesses.
#[local] Existing Instance numberJSON.
#[local] Existing Instance pair_redis.
#[local] Existing Instance pair_sets.

#[export] Instance pair_sets_laws : RedisSetsLaws (mapdb * setdb).
Proof.
  split.
  - intros cs [m d] [m' d'] Hp k. apply (PIPELINE_ok (db := setdb) cs d d').
    apply (f_equal (λ x, snd (snd x))) in Hp. cbn [snd] in Hp. by rewrite <-Hp.
  - intros k [m d] ms Hs x. exact (SMEMBERS_ok (db := setdb) k d ms Hs x).
Qed.

(** Encoders of nothing, and bodies written as fields with commas. *)
Definition noJSON {A} : JSON A := {| marshal _ := []; unmarshal _ := None |}.

Definition commaAdd : Decoder AddBody := {|
  Decode s := match Split s ","%char with [d; c; a] => (MkAddBody d c a, true) | _ => (MkAddBody [] [] [], false) end |}.
Definition commaUpdate : Decoder UpdateBody := {|
  Decode s := match Split s ","%char with
              | [e; a] => (MkUpdateBody (Some (bool_decide (e = "true"))) None a, true)
              | _ => (MkUpdateBody None None [], false) end |}.
Definition commaRemove : Decoder RemoveBody := {|
  Decode s := match Split s ","%char with [a; c] => (MkRemoveBody a c, true) | _ => (MkRemoveBody [] [], false) end |}.
Definition commaSetting : Decoder SettingBody := {|
  Decode s := match Split s ","%char with [k; v; a] => (MkSettingBody k v a, true) | _ => (MkSettingBody [] [] [], false) end |}.
Definition commaMime : Decoder MimeBody := {|
  Decode s := match Split s ","%char with [n; a] => (MkMimeBody None n a, true) | _ => (MkMimeBody None [] [], false) end |}.
Definition plainMux : MuxReplies := {| muxReply _ := notFound |}.

#[local] Existing Instance noJSON.
#[local] Existing Instance commaAdd.
#[local] Existing Instance commaUpdate.
#[local] Existing Instance commaRemove.
#[local] Existing Instance commaSetting.
#[local] Existing Instance commaMime.
#[local] Existing Instance plainMux.
#[local] Instance asciiLower : Unicode := {| unicode_ToLower s := map lower_byte s |}.

Definition apiStore : Store pgdb (mapdb * setdb) :=
  MkStore (MkPG (MkTables ∅ [] ∅ ∅) 1 1000) (∅ : mapdb, ∅ : setdb).

Definition apiRequest (method path auth : bytes) : Request :=
  MkRequest method (MkURL "http" "" path "" path) "api" [(str "Authorization", [auth])] "10.0.0.1:5000" false.

Definition addRequest (auth : bytes) : Request := apiRequest "POST" "/api/v1/blocklist" auth.

Lemma api_change_contract_witness :
  let '(rep, s') := dispatch EAdd (addRequest "") " Bad.ORG ,spam,ann" apiStore in
  rep_code rep = 201%Z ∧ ∃ res, changes (ChAdd "bad.org" "spam" "ann") (tablesOf (pool apiStore)) (tablesOf (pool s')) res.
Proof.
  pose proof (api_change_contract EAdd (addRequest "") " Bad.ORG ,spam,ann" apiStore eq_refl) as Hc.
  assert (rep_code (dispatch EAdd (addRequest "") " Bad.ORG ,spam,ann" apiStore).1 = 201%Z) as Hcode
    by (vm_compute; reflexivity).
  destruct (dispatch EAdd (addRequest "") " Bad.ORG ,spam,ann" apiStore) as [rep s']. cbn [fst] in Hcode.
  assert (requested EAdd " Bad.ORG ,spam,ann" = Some (ChAdd "bad.org" "spam" "ann")) as Ho by (vm_compute; reflexivity).
  rewrite Ho in Hc. rewrite Hcode in Hc.
  destruct Hc as [(_ & _ & Hres)|[(_ & _ & [[H _]|[[H _]|[H _]]])|(_ & H & _)]]; [by split|discriminate H..].
Defined.

Lemma api_authenticated_witness :
  NewHandler "secret" (addRequest "Bearer secre") "bad.org,,eve" apiStore = (unauthorized, apiStore).
Proof.
  destruct (api_authenticated "secret" (addRequest "Bearer secre") "bad.org,,eve" apiStore) as (rep & Hr & [->|[Hp _]]).
  - discriminate.
  - vm_compute. reflexivity.
  - exact Hr.
  - vm_compute in Hp. discriminate Hp.
Defined.

Lemma api_wellformed_witness :
  let s := (serveAll "secret" [(addRequest "Bearer secret", str "bad.org,,ann");
                               (addRequest "Bearer secret", str "http://bad.org/,,ann")] apiStore).2 in
  dom (entriesT (tablesOf (pool s))) = {[str "bad.org"]} ∧ tablesWf (tablesOf (pool s)).
Proof.
  cbv zeta. split.
  - vm_compute. reflexivity.
  - apply (api_wellformed "secret" [(addRequest "Bearer secret", str "bad.org,,ann");
      (addRequest "Bearer secret", str "http://bad.org/,,ann")] apiStore).
    split_and!; apply map_Forall_empty.
Defined.
End witnesses.
