(* ===== verification/EndToEnd.v ===== *)
(** * From a request to the API to the answer of the proxy

    The API's handlers, the store, Redis, the synchronisation and the proxy's
    request handler put together. *)
From S2P Require Import Prelude GoStrings Http Services Clamd ScanConfig ResultCache ScanJob Manager.
From S2P Require Import Blocklist Logger Endpoint ScanTransport Server Sync.
From S2P Require Import Postgres Pagination Store Overlap Propagation ScanSettings Domain Api.
From stdpp Require Import relations.


Section end_to_end.
Context `{Unicode, Scanner, SHA256, VerdictCache C, JSON statusResp, UnicodeQuote}.
Context `{Postgres db, !PostgresLaws db, Redis rd, RedisSets rd, !RedisSetsLaws rd}.
Context `{JSON ScanConfig, JSON Entry, JSON (PagedResult Entry), JSON (PagedResult AuditEntry)}.
Context `{JSON (list ScanSettingEntry), JSON MimeTypeEntry, JSON (list MimeTypeEntry)}.
Context `{Decoder AddBody, Decoder UpdateBody, Decoder RemoveBody, Decoder SettingBody, Decoder MimeBody}.
Context `{MuxReplies}.
Implicit Types w : world db rd.




End end_to_end.

(** ** Instances *)

Section witnesses.
#[local] Existing Instance plainHash.
#[local] Existing Instance drainingScanner.
#[local] Existing Instance emptyCache.
#[local] Existing Instance plainQuote.
#[local] Existing Instance plainStatus.
#[local] Existing Instance numberJSON.
#[local] Existing Instance pair_redis.
#[local] Existing Instance pair_sets.
#[local] Existing Instance noJSON.
#[local] Existing Instance commaAdd.
#[local] Existing Instance commaUpdate.
#[local] Existing Instance commaRemove.
#[local] Existing Instance commaSetting.
#[local] Existing Instance commaMime.
#[local] Existing Instance plainMux.
#[local] Existing Instance Api.asciiLower.




End witnesses.
