(* ===== verification/Ca.v ===== *)
(** * The certificate authority ([internal/cert/ca.go])

    Loading the CA from its two files, or creating and storing it.  Keys,
    signatures, ASN.1 and PEM are parameters with their documented laws, as is
    the file system. *)
From S2P Require Import Prelude GoStrings Http.

Definition second : Z := 10 ^ 9.
Definition hour : Z := 3600 * second.
Definition day : Z := 24 * hour.

(** [time.Time.Truncate(time.Second)]; times are in nanoseconds. *)
Definition truncSecond (t : Z) : Z := t / second * second.

Inductive keyUsage := KeyUsageDigitalSignature | KeyUsageCertSign | KeyUsageCRLSign.
Inductive extKeyUsage := ExtKeyUsageServerAuth.

(** The fields of [x509.Certificate] that are set or read. *)
Record x509Cert := MkX509 {
  SerialNumber : Z;
  CommonName : bytes;
  Organization : list bytes;
  DNSNames : list bytes;
  NotBefore : Z;
  NotAfter : Z;
  IsCA : bool;
  BasicConstraintsValid : bool;
  KeyUsage : list keyUsage;
  ExtKeyUsage : list extKeyUsage;
}.

(** A template as it is encoded in a certificate: whole seconds. *)
Definition encoded (c : x509Cert) : x509Cert :=
  let '(MkX509 n cn o d nb na ca bc ku eku) := c in
  MkX509 n cn o d (truncSecond nb) (truncSecond na) ca bc ku eku.

(** ** Cryptography *)

(** [crypto/x509], [encoding/pem] and [tls.X509KeyPair]; a [tls.Certificate] is
    the certificate with its key.  [CreateCertificate] is given the randomness it
    draws, the template, its parent, the subject's key and the signer's. *)
Class X509 := {
  Key : Type;
  Decode : bytes → option bytes;
  EncodeToMemory : bytes → bytes → bytes;
  ParseCertificate : bytes → option x509Cert;
  ParsePKCS8PrivateKey : bytes → option (option Key);
  MarshalPKCS8PrivateKey : Key → option bytes;
  CreateCertificate : bytes → x509Cert → x509Cert → Key → Key → option bytes;
  X509KeyPair : bytes → bytes → option (bytes * Key);
  signedBy : bytes → Key → Prop;
}.

(** What is encoded is decoded, a created certificate says what its template says
    and is signed by the signer, and a pair of PEM blocks is their contents. *)
Class X509Laws `{X509} := {
  Decode_Encode ty b : Decode (EncodeToMemory ty b) = Some b;
  ParsePKCS8_Marshal k d : MarshalPKCS8PrivateKey k = Some d → ParsePKCS8PrivateKey d = Some (Some k);
  CreateCertificate_ok rnd tmpl parent pub priv der :
    CreateCertificate rnd tmpl parent pub priv = Some der →
    ParseCertificate der = Some (encoded tmpl) ∧ signedBy der priv;
  X509KeyPair_ok c k p : X509KeyPair c k = Some p → Decode c = Some p.1;
}.

(** ** Files *)

(** [os.ReadFile] and [os.WriteFile]. *)
Class Files (fs : Type) := {
  ReadFile : bytes → fs → option bytes;
  WriteFile : bytes → bytes → fs → bool * fs;
}.

Class FilesLaws (fs : Type) `{Files fs} := {
  Read_Write p d f f' :
    WriteFile p d f = (true, f') →
    ReadFile p f' = Some d ∧ ∀ q, q ≠ p → ReadFile q f' = ReadFile q f;
}.

(** ** The authority *)

(** [Cert] is the pointer that [ParseCertificate] returns, its error dropped. *)
Record CA `{X509} := MkCA { Cert : option x509Cert; CertPEM : bytes; CAKey : Key }.
Arguments MkCA {_}.

(** What [generate] draws: a key, a serial number, the signature's randomness,
    and the time. *)
Record genEnv `{X509} := MkGen { ge_key : option Key; ge_serial : option Z; ge_rand : bytes; ge_now : Z }.
Arguments MkGen {_}.

Section ca.
Context `{X509, Files fs}.

Definition parsePEM (certPEM keyPEM : bytes) : option CA :=
  certBlock ← Decode certPEM;
  cert ← ParseCertificate certBlock;
  keyBlock ← Decode keyPEM;
  keyAny ← ParsePKCS8PrivateKey keyBlock;
  key ← keyAny;
  Some (MkCA (Some cert) certPEM key).

Definition caTemplate (serial now : Z) : x509Cert :=
  MkX509 serial "Filter Proxy Local CA" [str "njm2360"] [] now (now + 10 * 365 * day) true true
    [KeyUsageCertSign; KeyUsageCRLSign] [].

(** [generate]: the CA, if there is no error, and the files. *)
Definition generate (env : genEnv) (certPath keyPath : bytes) (f : fs) : option CA * fs :=
  match ge_key env, ge_serial env with
  | Some key, Some serial =>
      let now := truncSecond (ge_now env) in
      let tmpl := caTemplate serial now in
      match CreateCertificate (ge_rand env) tmpl tmpl key key with
      | None => (None, f)
      | Some certDER =>
          let certPEM := EncodeToMemory "CERTIFICATE" certDER in
          match MarshalPKCS8PrivateKey key with
          | None => (None, f)
          | Some keyDER =>
              let keyPEM := EncodeToMemory "PRIVATE KEY" keyDER in
              let '(ok, f) := WriteFile certPath certPEM f in
              if negb ok then (None, f)
              else
                let '(ok, f) := WriteFile keyPath keyPEM f in
                if negb ok then (None, f)
                else (Some (MkCA (ParseCertificate certDER) certPEM key), f)
          end
      end
  | _, _ => (None, f)
  end.

Definition LoadOrCreate (env : genEnv) (certPath keyPath : bytes) (f : fs) : option CA * fs :=
  match ReadFile certPath f, ReadFile keyPath f with
  | Some certPEM, Some keyPEM => (parsePEM certPEM keyPEM, f)
  | _, _ => generate env certPath keyPath f
  end.
End ca.

(** ** Specification *)

(** An authority in working order: a self-signed certificate of a CA that lasts
    ten years. *)
Definition properCA `{X509} (ca : CA) (now : Z) : Prop :=
  ∃ der serial,
    CertPEM ca = EncodeToMemory "CERTIFICATE" der ∧ Cert ca = Some (caTemplate serial (truncSecond now)) ∧
    signedBy der (CAKey ca).

Section ca_spec.
Context `{X509, !X509Laws, Files fs, !FilesLaws fs}.

Lemma truncSecond_idemp t d : truncSecond (truncSecond t + d * second) = (truncSecond t + d * second)%Z.
Proof. unfold truncSecond, second. rewrite <-Z.mul_add_distr_r, Z.div_mul by lia. done. Qed.

Lemma encoded_caTemplate serial now :
  encoded (caTemplate serial (truncSecond now)) = caTemplate serial (truncSecond now).
Proof.
  unfold encoded, caTemplate. f_equal.
  - pose proof (truncSecond_idemp now 0) as Hi. by rewrite Z.mul_0_l, Z.add_0_r in Hi.
  - replace (10 * 365 * day)%Z with ((10 * 365 * 86400) * second)%Z by reflexivity. apply truncSecond_idemp.
Qed.

Lemma generate_stored env certPath keyPath f ca f' :
  certPath ≠ keyPath → generate env certPath keyPath f = (Some ca, f') →
  properCA ca (ge_now env) ∧
  ∃ keyPEM, ReadFile certPath f' = Some (CertPEM ca) ∧ ReadFile keyPath f' = Some keyPEM ∧
            parsePEM (CertPEM ca) keyPEM = Some ca.
Proof.
  intros Hne Hg. unfold generate in Hg. destruct (ge_key env) as [key|]; [|done].
  destruct (ge_serial env) as [serial|]; [|done]. cbv zeta in Hg.
  set (tmpl := caTemplate _ _) in *.
  destruct (CreateCertificate _ tmpl tmpl key key) as [der|] eqn:Hc; [|done].
  destruct (MarshalPKCS8PrivateKey key) as [kd|] eqn:Hm; [|done].
  destruct (WriteFile certPath _ f) as [[] f1] eqn:Hw1; [|done].
  destruct (WriteFile keyPath _ f1) as [[] f2] eqn:Hw2; [|done]. cbn [negb] in Hg.
  apply CreateCertificate_ok in Hc as [Hparse Hsig]. subst tmpl. rewrite encoded_caTemplate in Hparse.
  rewrite Hparse in Hg.
  pose proof (f_equal snd Hg) as Hf. cbn [snd] in Hf. subst f2.
  apply (f_equal fst) in Hg. cbn [fst] in Hg.
  apply (f_equal (default (MkCA None [] key))) in Hg. cbn [default from_option id] in Hg. subst ca.
  apply Read_Write in Hw1 as [Hr1 _]. apply Read_Write in Hw2 as [Hr2 Ho2].
  split; [by exists der, serial|].
  eexists. split_and!; [by rewrite Ho2 by done|exact Hr2|].
  unfold parsePEM. cbn [CertPEM]. rewrite !Decode_Encode. cbn [mbind option_bind]. rewrite Hparse.
  cbn [mbind option_bind]. by rewrite (ParsePKCS8_Marshal _ _ Hm).
Qed.

(** The authority survives a restart.  When the first start, without files,
    creates a CA, it is a proper one, and every later start on the files that it
    leaves loads exactly that authority, certificate, encoding and key, and
    changes nothing; so clients that trust it need not be told again. *)
Theorem ca_roundtrip env env' certPath keyPath f ca f' :
  certPath ≠ keyPath → ReadFile certPath f = None ∨ ReadFile keyPath f = None →
  LoadOrCreate env certPath keyPath f = (Some ca, f') →
  properCA ca (ge_now env) ∧ LoadOrCreate env' certPath keyPath f' = (Some ca, f').
Proof.
  intros Hne Hno Hl.
  assert (generate env certPath keyPath f = (Some ca, f')) as Hg.
  { unfold LoadOrCreate in Hl. destruct Hno as [Hno|Hno]; rewrite Hno in Hl; [done|]. by case_match. }
  apply generate_stored in Hg as (Hp & keyPEM & Hc & Hk & Hparse); [|done]. split; [done|].
  unfold LoadOrCreate. by rewrite Hc, Hk, Hparse.
Qed.

(** A CA whose key cannot be read, for whatever reason, is replaced, in its file
    as well: the certificate that clients trust is lost. *)
Lemma unreadable_key_replaces env certPath keyPath f old ca f' :
  certPath ≠ keyPath → ReadFile certPath f = Some old → ReadFile keyPath f = None →
  LoadOrCreate env certPath keyPath f = (Some ca, f') →
  ReadFile certPath f' = Some (CertPEM ca) ∧ ∃ key, ge_key env = Some key ∧ CAKey ca = key.
Proof.
  intros Hne Hc Hk Hl. unfold LoadOrCreate in Hl. rewrite Hc, Hk in Hl.
  pose proof (generate_stored _ _ _ _ _ _ Hne Hl) as (_ & keyPEM & Hr & _ & _). split; [done|].
  unfold generate in Hl. destruct (ge_key env) as [key|]; [|done]. exists key. split; [done|].
  repeat case_match; try done. apply (f_equal fst) in Hl. cbn [fst] in Hl.
  apply (f_equal (default (MkCA None [] key))) in Hl. cbn [default from_option id] in Hl. by subst ca.
Qed.
End ca_spec.

(** ** Instances *)

(** A file system that never fails. *)
Definition mapfs : Type := gmap bytes bytes.

#[export] Instance mapfs_files : Files mapfs := {|
  ReadFile p f := (f : gmap bytes bytes) !! p;
  WriteFile p d f := (true, <[p := d]> (f : gmap bytes bytes));
|}.

#[export] Instance mapfs_laws : FilesLaws mapfs.
Proof.
  split. intros p d f f' [= <-]. split; simpl; [by rewrite lookup_insert_eq|].
  intros q Hq. by rewrite lookup_insert_ne.
Qed.

#[export] Instance keyUsage_eq_dec : EqDecision keyUsage.
Proof. solve_decision. Defined.

#[export] Instance extKeyUsage_eq_dec : EqDecision extKeyUsage.
Proof. solve_decision. Defined.

#[export] Program Instance keyUsage_countable : Countable keyUsage := inj_countable'
  (λ k, match k with KeyUsageDigitalSignature => None | KeyUsageCertSign => Some true | KeyUsageCRLSign => Some false end)
  (λ o, match o with None => KeyUsageDigitalSignature | Some true => KeyUsageCertSign | Some false => KeyUsageCRLSign end) _.
Next Obligation. by intros []. Qed.

#[export] Program Instance extKeyUsage_countable : Countable extKeyUsage :=
  inj_countable' (λ _, tt) (λ _, ExtKeyUsageServerAuth) _.
Next Obligation. by intros []. Qed.

#[export] Instance x509Cert_eq_dec : EqDecision x509Cert.
Proof. solve_decision. Defined.

#[export] Program Instance x509Cert_countable : Countable x509Cert := inj_countable'
  (λ c, (SerialNumber c, CommonName c, Organization c, DNSNames c, NotBefore c, NotAfter c,
         (IsCA c, BasicConstraintsValid c), KeyUsage c, ExtKeyUsage c))
  (λ '(n, cn, o, d, nb, na, (ca, bc), ku, eku), MkX509 n cn o d nb na ca bc ku eku) _.
Next Obligation. by intros []. Qed.

(** Text for a positive number, bit by bit. *)
Fixpoint posText (p : positive) : bytes :=
  match p with
  | xH => []
  | xO p => "0"%char :: posText p
  | xI p => "1"%char :: posText p
  end.

Fixpoint textPos (s : bytes) : positive :=
  match s with
  | [] => xH
  | c :: s => if decide (c = "0"%char) then xO (textPos s) else xI (textPos s)
  end.

Lemma textPos_posText p : textPos (posText p) = p.
Proof. induction p as [p IH|p IH|]; simpl; by rewrite ?IH. Qed.

(** Numbers for keys, and a certificate as the number of what it says and of its
    signer. *)
Definition toyX509 : X509 := {|
  Key := N;
  Decode b := Some b;
  EncodeToMemory _ b := b;
  ParseCertificate b := c ← decode (A := x509Cert * N) (textPos b); Some c.1;
  ParsePKCS8PrivateKey b := Some <$> parseN 10 b;
  MarshalPKCS8PrivateKey k := Some (fmtN 10 k);
  CreateCertificate _ tmpl _ _ priv := Some (posText (encode (encoded tmpl, priv)));
  X509KeyPair c k := key ← parseN 10 k; Some (c, key);
  signedBy b k := ∃ c, b = posText (encode (c : x509Cert, k));
|}.

Lemma toyX509_laws : @X509Laws toyX509.
Proof.
  split.
  - done.
  - intros k d [= <-]. simpl. rewrite parseN_fmtN by lia. done.
  - intros rnd tmpl parent pub priv der [= <-]. simpl. split; [|by eexists].
    by rewrite textPos_posText, decode_encode.
  - intros c k p. simpl. intros (key & _ & [= <-])%bind_Some. done.
Qed.

Section witnesses.
#[local] Existing Instance toyX509.
#[local] Existing Instance toyX509_laws.

Definition firstStart : genEnv := MkGen (Some 7%N : option Key) (Some 1%Z) [] (1700000000 * second + 5).
Definition secondStart : genEnv := MkGen (Some 9%N : option Key) (Some 2%Z) [] (1800000000 * second).

Lemma ca_roundtrip_witness :
  ∃ ca f, LoadOrCreate firstStart "ca.crt" "ca.key" (∅ : mapfs) = (Some ca, f) ∧
          LoadOrCreate secondStart "ca.crt" "ca.key" f = (Some ca, f).
Proof.
  assert (∃ ca f, LoadOrCreate firstStart "ca.crt" "ca.key" (∅ : mapfs) = (Some ca, f)) as (ca & f & Hl).
  { unfold LoadOrCreate, generate. eexists _, _. reflexivity. }
  exists ca, f. split; [exact Hl|].
  apply (ca_roundtrip firstStart secondStart "ca.crt" "ca.key" ∅ ca f); [discriminate|by left|exact Hl].
Defined.
End witnesses.
