(* ===== verification/CertCache.v ===== *)
(** * The cache of leaf certificates ([internal/cert/leaf.go])

    Certificates for the servers that the proxy impersonates, in memory and in
    Redis, created on demand.  Like the result cache, an operation is a program
    over the atomic calls of [SyncMap]. *)
From S2P Require Import Prelude GoStrings Services SyncMap Ca.
Local Open Scope prog_scope.

(** ** Data *)

Definition redisKeyPrefix : bytes := "leafcert:".
Definition memCacheMax : Z := 2000.

(** A [tls.Certificate]: the DER encoding and the key. *)
Definition tlsCertificate `{X509} : Type := bytes * Key.

Record memEntry `{X509} := MkMem { me_cert : tlsCertificate; me_expiresAt : Z }.
Arguments MkMem {_}.

Record cachedCert := MkCachedCert { cc_CertPEM : bytes; cc_KeyPEM : bytes; cc_NotAfterUnix : Z }.

Record generatedCert `{X509} := MkGenerated {
  gc_cert : tlsCertificate; gc_certPEM : bytes; gc_keyPEM : bytes; gc_notAfter : Z }.
Arguments MkGenerated {_}.

(** [t.Unix()] and [time.Unix(s, 0)]. *)
Definition toUnix (t : Z) : Z := t / second.
Definition fromUnix (s : Z) : Z := s * second.

(** ** Operations *)

Section cache.
Context `{X509, Redis db, JSON cachedCert}.
Variable ca : CA.
Notation prog := (prog unit memEntry).

Definition leafTemplate (serial now : Z) (domain : bytes) : x509Cert :=
  MkX509 serial domain [] [domain] (now - hour) (now + 365 * day) false false
    [KeyUsageDigitalSignature] [ExtKeyUsageServerAuth].

(** [generate]: the randomness it draws is given, the clock is read.  A nil
    certificate of the CA is not a parent. *)
Definition generate (env : genEnv) (domain : bytes) : prog (option generatedCert) :=
  now <-- call Now;;;
  Ret (key ← ge_key env;
       serial ← ge_serial env;
       let notAfter := now + 365 * day in
       parent ← Cert ca;
       certDER ← CreateCertificate (ge_rand env) (leafTemplate serial now domain) parent key (CAKey ca);
       let certPEM := EncodeToMemory "CERTIFICATE" certDER in
       keyDER ← MarshalPKCS8PrivateKey key;
       let keyPEM := EncodeToMemory "PRIVATE KEY" keyDER in
       tlsCert ← X509KeyPair certPEM keyPEM;
       Some (MkGenerated tlsCert certPEM keyPEM notAfter))%Z.

(** [storeMem]: what is there already is overwritten, and counted again. *)
Definition storeMem (domain : bytes) (cert : tlsCertificate) (notAfter : Z) : prog unit :=
  n <-- call (Count tt);;;
  if (memCacheMax <=? n)%Z then Ret tt
  else call (Store tt domain (MkMem cert notAfter));;; call (Add tt 1).

Definition toTLS (cc : cachedCert) : option tlsCertificate := X509KeyPair (cc_CertPEM cc) (cc_KeyPEM cc).

Definition decodeCachedCert (data : bytes) : option cachedCert := unmarshal data.

Definition saveToRedis (key : bytes) (g : generatedCert) : prog unit :=
  now <-- call Now;;;
  let ttl := (gc_notAfter g - now - day)%Z in
  if (ttl <=? 0)%Z then Ret tt
  else
    call (RSet key (marshal (MkCachedCert (gc_certPEM g) (gc_keyPEM g) (toUnix (gc_notAfter g)))) ttl);;;
    Ret tt.

(** The third step of [GetCert]. *)
Definition getGenerated (env : genEnv) (domain : bytes) : prog (option tlsCertificate) :=
  g <-- generate env domain;;;
  match g with
  | None => Ret None
  | Some g =>
      saveToRedis (redisKeyPrefix ++ domain) g;;;
      storeMem domain (gc_cert g) (gc_notAfter g);;;
      Ret (Some (gc_cert g))
  end.

(** The second step; [None] is an error. *)
Definition getRedis (env : genEnv) (domain : bytes) : prog (option tlsCertificate) :=
  let key := redisKeyPrefix ++ domain in
  r <-- call (RGet key);;;
  match r with
  | Val data =>
      match decodeCachedCert data with
      | None => call (RDel key);;; getGenerated env domain
      | Some cc =>
          now <-- call Now;;;
          if (now + day <? fromUnix (cc_NotAfterUnix cc))%Z then
            match toTLS cc with
            | None => Ret None
            | Some cert =>
                storeMem domain cert (fromUnix (cc_NotAfterUnix cc));;;
                Ret (Some cert)
            end
          else call (RDel key);;; getGenerated env domain
      end
  | _ => getGenerated env domain
  end.

Definition domainOf (serverName : bytes) : bytes := if decide (serverName = []) then "localhost" else serverName.

Definition GetCert (env : genEnv) (serverName : bytes) : prog (option tlsCertificate) :=
  let domain := domainOf serverName in
  v <-- call (Load tt domain);;;
  match v with
  | Some e =>
      now <-- call Now;;;
      if (now + day <? me_expiresAt e)%Z then Ret (Some (me_cert e))
      else
        call (Delete tt domain);;;
        call (Add tt (-1));;;
        getRedis env domain
  | None => getRedis env domain
  end.

Fixpoint evictEntries (now : Z) (es : list (bytes * memEntry)) : prog unit :=
  match es with
  | [] => Ret tt
  | (k, e) :: es =>
      if (me_expiresAt e <? now)%Z then
        call (Delete tt k);;; call (Add tt (-1));;; evictEntries now es
      else evictEntries now es
  end.

(** One tick of [runCleanup], every ten minutes. *)
Definition evictExpired : prog unit :=
  now <-- call Now;;;
  es <-- call (Range tt);;;
  evictEntries now es.

Definition runCleanup (ws : list wake) : prog unit := everyTick evictExpired ws.

Definition CACertPEM : bytes := CertPEM ca.
Definition CACertDER : option bytes := Decode (CertPEM ca).

(** The fields of [tls.Config] that are set, with the numbers of [crypto/tls]. *)
Definition VersionTLS12 : Z := 771.

Definition TLS_ECDHE_ECDSA_WITH_AES_128_GCM_SHA256 : Z := 49195.
Definition TLS_ECDHE_RSA_WITH_AES_128_GCM_SHA256 : Z := 49199.
Definition TLS_ECDHE_ECDSA_WITH_AES_256_GCM_SHA384 : Z := 49196.
Definition TLS_ECDHE_RSA_WITH_AES_256_GCM_SHA384 : Z := 49200.
Definition TLS_ECDHE_ECDSA_WITH_CHACHA20_POLY1305_SHA256 : Z := 52393.
Definition TLS_ECDHE_RSA_WITH_CHACHA20_POLY1305_SHA256 : Z := 52392.

Record tlsConfig := MkTLSConfig {
  GetCertificate : genEnv → bytes → prog (option tlsCertificate);
  MinVersion : Z;
  CipherSuites : list Z;
  DynamicRecordSizingDisabled : bool;
}.

Definition TLSConfig : tlsConfig :=
  MkTLSConfig GetCert VersionTLS12
    [TLS_ECDHE_ECDSA_WITH_AES_128_GCM_SHA256; TLS_ECDHE_RSA_WITH_AES_128_GCM_SHA256;
     TLS_ECDHE_ECDSA_WITH_AES_256_GCM_SHA384; TLS_ECDHE_RSA_WITH_AES_256_GCM_SHA384;
     TLS_ECDHE_ECDSA_WITH_CHACHA20_POLY1305_SHA256; TLS_ECDHE_RSA_WITH_CHACHA20_POLY1305_SHA256] true.
End cache.

(** ** Concurrent handshakes *)

(** A goroutine that uses the cache: a handshake with what it draws if it has to
    create a certificate, or the clean-up. *)
Inductive user `{X509} := Handshake (env : genEnv) (serverName : bytes) | CleanUp (ws : list wake).
Arguments Handshake {_}.
Arguments CleanUp {_}.

Section interleaving.
Context `{X509, !X509Laws, Redis db, !RedisLaws db, JSON cachedCert, !JSONLaws cachedCert valid}.
Variable ca : CA.

(** PEM blocks are text that JSON carries. *)
Hypothesis pem_valid : ∀ b b' n, valid (MkCachedCert (EncodeToMemory "CERTIFICATE" b) (EncodeToMemory "PRIVATE KEY" b') n).

Definition code (u : user) : prog unit memEntry (option tlsCertificate) :=
  match u with
  | Handshake env name => GetCertificate (TLSConfig ca) env name
  | CleanUp ws => runCleanup ws;;; Ret None
  end.

(** A certificate for a domain: it names that domain alone, serves servers, is no
    CA, is signed by the proxy's CA, and ends with the given second. *)
Definition issuedFor (domain der : bytes) (notAfter : Z) : Prop :=
  ∃ c, ParseCertificate der = Some c ∧ DNSNames c = [domain] ∧ CommonName c = domain ∧ IsCA c = false ∧
       ExtKeyUsage c = [ExtKeyUsageServerAuth] ∧ toUnix (NotAfter c) = notAfter ∧ signedBy der (CAKey ca).

(** What is in memory and in Redis under the name of a domain. *)
Definition memGood (_ : unit) (domain : bytes) (e : memEntry) : Prop :=
  issuedFor domain (me_cert e).1 (toUnix (me_expiresAt e)).

Definition redisGood (key data : bytes) : Prop :=
  ∀ domain cc cert, key = redisKeyPrefix ++ domain → decodeCachedCert data = Some cc → toTLS cc = Some cert →
  issuedFor domain cert.1 (cc_NotAfterUnix cc).

(** What a handshake hands out: a certificate for the server with more than a day
    left at the time [T0], the rounding to seconds apart. *)
Definition handedOut (T0 : Z) (domain : bytes) (cert : tlsCertificate) : Prop :=
  ∃ n, issuedFor domain cert.1 n ∧ (T0 + day < fromUnix n + second)%Z.

Definition result (T0 : Z) (u : user) (r : option tlsCertificate) : Prop :=
  match u with
  | Handshake _ name => ∀ cert, r = Some cert → handedOut T0 (domainOf name) cert
  | CleanUp _ => r = None
  end.

Notation safe := (safe memGood redisGood).

Lemma toUnix_fromUnix s : toUnix (fromUnix s) = s.
Proof. unfold toUnix, fromUnix, second. apply Z.div_mul. lia. Qed.

Lemma fromUnix_toUnix t : (t < fromUnix (toUnix t) + second)%Z.
Proof.
  unfold toUnix, fromUnix. pose proof (Z.mod_pos_bound t second ltac:(done)).
  pose proof (Z.div_mod t second ltac:(done)). lia.
Qed.

Lemma fromUnix_below t : (fromUnix (toUnix t) ≤ t)%Z.
Proof.
  unfold toUnix, fromUnix. pose proof (Z.mod_pos_bound t second ltac:(done)).
  pose proof (Z.div_mod t second ltac:(done)). lia.
Qed.

Lemma toUnix_trunc t : toUnix (truncSecond t) = toUnix t.
Proof. unfold toUnix, truncSecond. by rewrite Z.div_mul. Qed.

Lemma safe_storeCert T0 domain cert notAfter :
  issuedFor domain cert.1 (toUnix notAfter) → safe T0 (storeMem domain cert notAfter) (λ _, True).
Proof.
  intros Hi. unfold storeMem. apply safe_call; [done|]. intros n _.
  destruct (_ <=? _)%Z; [done|]. apply safe_call; [done|]. intros [] _. by split.
Qed.

(** What [generate] makes. *)
Definition goodGenerated (domain : bytes) (g : generatedCert) : Prop :=
  issuedFor domain (gc_cert g).1 (toUnix (gc_notAfter g)) ∧
  X509KeyPair (gc_certPEM g) (gc_keyPEM g) = Some (gc_cert g) ∧
  ∃ b b', gc_certPEM g = EncodeToMemory "CERTIFICATE" b ∧ gc_keyPEM g = EncodeToMemory "PRIVATE KEY" b'.

Lemma safe_generate T0 env domain :
  safe T0 (generate ca env domain) (λ r, ∀ g, r = Some g → goodGenerated domain g ∧ (T0 + 365 * day ≤ gc_notAfter g)%Z).
Proof.
  unfold generate. apply safe_call; [done|]. intros now Hnow g.
  intros (key & _ & (serial & _ & (parent & _ & (der & Hc & (kd & Hm & (tc & Hp & Hg)%bind_Some)%bind_Some)
    %bind_Some)%bind_Some)%bind_Some)%bind_Some.
  apply (f_equal (default g)) in Hg. cbn [default from_option id] in Hg. subst g.
  pose proof (X509KeyPair_ok _ _ _ Hp) as Hd. rewrite Decode_Encode in Hd.
  apply (f_equal (default [])) in Hd. cbn [default from_option id] in Hd.
  apply CreateCertificate_ok in Hc as [Hparse Hsig].
  split; [|cbn in *; lia].
  split_and!; cbn [gc_cert gc_certPEM gc_keyPEM gc_notAfter]; [|done|by eexists _, _].
  rewrite <-Hd. eexists. split_and!; [exact Hparse|done..| |done].
  unfold encoded, leafTemplate. cbn [NotAfter]. apply toUnix_trunc.
Qed.

Lemma safe_getGenerated T0 env domain :
  safe T0 (getGenerated ca env domain) (λ r, ∀ cert, r = Some cert → handedOut T0 domain cert).
Proof.
  unfold getGenerated. apply safe_bind. eapply safe_mono; [|apply safe_generate]. intros [g|] Hg; [|done].
  destruct (Hg g eq_refl) as [(Hi & Hp & b & b' & Hcp & Hkp) Hna].
  apply safe_bind. unfold saveToRedis. apply safe_call; [done|]. intros now _.
  assert (safe T0 (storeMem domain (gc_cert g) (gc_notAfter g);;; Ret (Some (gc_cert g)))
    (λ r, ∀ cert, r = Some cert → handedOut T0 domain cert)) as Hstore.
  { apply safe_bind. eapply safe_mono; [|by apply safe_storeCert]. intros [] _ cert [= <-]. eexists. split; [exact Hi|].
    pose proof (fromUnix_toUnix (gc_notAfter g)). unfold day, hour, second in *. lia. }
  cbv zeta. destruct (_ <=? 0)%Z; [exact Hstore|]. apply safe_call; [|by intros _ _].
  intros domain' cc cert Hkey Hdec Htls. apply app_inv_head in Hkey as <-.
  unfold decodeCachedCert in Hdec. rewrite unmarshal_marshal in Hdec by (rewrite Hcp, Hkp; apply pem_valid).
  apply (f_equal (default cc)) in Hdec. cbn [default from_option id] in Hdec. subst cc.
  unfold toTLS in Htls. cbn [cc_CertPEM cc_KeyPEM] in Htls. rewrite Hp in Htls. by injection Htls as <-.
Qed.

Lemma safe_getCertRedis T0 env domain :
  safe T0 (getRedis ca env domain) (λ r, ∀ cert, r = Some cert → handedOut T0 domain cert).
Proof.
  unfold getRedis. cbv zeta. apply safe_call; [done|]. intros [data| |] Hdata; [|apply safe_getGenerated..].
  destruct (decodeCachedCert data) as [cc|] eqn:Hdec.
  2: { apply safe_call; [done|]. intros _ _. apply safe_getGenerated. }
  apply safe_call; [done|]. intros now Hnow. destruct (_ <? _)%Z eqn:Hlt.
  2: { apply safe_call; [done|]. intros _ _. apply safe_getGenerated. }
  destruct (toTLS cc) as [cert|] eqn:Htls; [|done].
  assert (issuedFor domain cert.1 (cc_NotAfterUnix cc)) as Hi by (by eapply Hdata).
  apply safe_bind. eapply safe_mono; [|apply safe_storeCert; by rewrite toUnix_fromUnix].
  intros [] _ cert' [= <-]. exists (cc_NotAfterUnix cc). split; [done|]. cbn in Hnow. unfold second. lia.
Qed.

Lemma safe_user T0 u : safe T0 (code u) (result T0 u).
Proof.
  destruct u as [env name|ws]; unfold code.
  - unfold TLSConfig, GetCert. cbn [GetCertificate]. cbv zeta. apply safe_call; [done|]. intros [e|] He; [|apply safe_getCertRedis].
    apply safe_call; [done|]. intros now Hnow. destruct (_ <? _)%Z eqn:Hlt.
    + intros cert [= <-]. exists (toUnix (me_expiresAt e)). split; [by apply He|].
      pose proof (fromUnix_toUnix (me_expiresAt e)). cbn in Hnow. lia.
    + apply safe_call; [done|]. intros _ _. apply safe_call; [done|]. intros _ _. apply safe_getCertRedis.
  - apply safe_bind. eapply safe_mono; [by intros [] _|]. apply safe_everyTick.
    apply safe_call; [done|]. intros now _. apply safe_call; [done|]. intros es _.
    induction es as [|[k e] es IH]; [done|]. cbn [evictEntries].
    destruct (_ <? _)%Z; [|done]. apply safe_call; [done|]. intros _ _. by apply safe_call.
Qed.

(** What every entry and payload is, after any interleaving. *)
Lemma shared_stays_good T0 us s ps s' :
  shared_ok memGood redisGood T0 s → rtc pool_step (code <$> us, s) (ps, s') →
  shared_ok memGood redisGood T0 s' ∧
  ∀ i u r, us !! i = Some u → ps !! i = Some (Ret r) → result T0 u r.
Proof.
  intros Hok Hsteps.
  destruct (safe_pool memGood redisGood T0 (λ i r, ∀ u, us !! i = Some u → result T0 u r) _ _ Hsteps) as [Hs Hp]; [done| |].
  - intros j p. cbn [fst]. rewrite list_lookup_fmap. intros (u & Hj & ->)%fmap_Some.
    eapply safe_mono; [|apply safe_user]. intros r Hres u' Hu'. congruence.
  - split; [exact Hs|]. intros i u r Hu Hr. exact (Hp i _ Hr u Hu).
Qed.

Lemma run_stays_good T0 env name s :
  shared_ok memGood redisGood T0 s →
  shared_ok memGood redisGood T0 (run (GetCert ca env name) s).2 ∧
  ∀ cert, (run (GetCert ca env name) s).1 = Some cert → handedOut T0 (domainOf name) cert.
Proof. intros Hok. exact (safe_run memGood redisGood T0 _ _ s Hok (safe_user T0 (Handshake env name))). Qed.

(** C33. No handshake gets another server's certificate.  In every interleaving of
    handshakes and clean-ups over one memory and one Redis, started empty or with
    what other proxies of the same CA have left, a certificate that is handed out
    names exactly the server that the client asked for, is a server certificate
    and not a CA, is signed by the proxy's CA, and had more than a day left when
    the handshakes began, the rounding to seconds apart. *)
Theorem certs_match_server us s ps s' i env name cert :
  (∀ k e, entries (tables s tt) !! k = Some e → memGood tt k e) →
  (∀ k v, GET k (rdb s) = Val v → redisGood k v) →
  rtc pool_step (code <$> us, s) (ps, s') →
  us !! i = Some (Handshake env name) → ps !! i = Some (Ret (Some cert)) →
  ∃ n, issuedFor (domainOf name) cert.1 n ∧ (clock s + day < fromUnix n + second)%Z.
Proof.
  intros Hs Hr Hsteps Hu Hp.
  destruct (shared_stays_good (clock s) us s ps s') as [_ Hres]; [by split; [intros []|]|done|].
  by apply (Hres _ _ _ Hu Hp).
Qed.
End interleaving.

(** ** Reuse *)

Section reuse.
Context `{X509, Redis db, !RedisLaws db, JSON cachedCert, !JSONLaws cachedCert valid}.
Variable ca : CA.
Hypothesis pem_valid : ∀ b b' n, valid (MkCachedCert (EncodeToMemory "CERTIFICATE" b) (EncodeToMemory "PRIVATE KEY" b') n).
Implicit Types s : shared unit memEntry db.

Definition later (d : Z) s : shared unit memEntry db := MkShared (tables s) (clock s + d) (rdb s).

Lemma storeCert_run domain cert notAfter s :
  (count (tables s tt) < memCacheMax)%Z →
  run (storeMem domain cert notAfter) s =
  (tt, MkShared (tables (run (storeMem domain cert notAfter) s).2) (clock s) (rdb s)) ∧
  entries (tables (run (storeMem domain cert notAfter) s).2 tt) =
    <[domain := MkMem cert notAfter]> (entries (tables s tt)) ∧
  count (tables (run (storeMem domain cert notAfter) s).2 tt) = (count (tables s tt) + 1)%Z.
Proof. intros Hlt. unfold storeMem. simpl. by rewrite (proj2 (Z.leb_gt _ _) Hlt). Qed.

(** Rounding to seconds costs less than a second. *)
Lemma unix_fresh now t : (now + second ≤ t + 364 * day)%Z → (now + day < fromUnix (toUnix (t + 365 * day)))%Z.
Proof.
  intros Hle. unfold fromUnix, toUnix.
  pose proof (Z.mod_pos_bound (t + 365 * day) second ltac:(done)).
  pose proof (Z.div_mod (t + 365 * day) second ltac:(done)). unfold day, hour in *. lia.
Qed.

(** A live entry is served, and nothing else happens. *)
Lemma GetCert_live env name e s :
  entries (tables s tt) !! domainOf name = Some e → (clock s + day < me_expiresAt e)%Z →
  run (GetCert ca env name) s = (Some (me_cert e), s).
Proof.
  intros He Hlt. unfold GetCert. simpl. rewrite He. simpl. by rewrite (proj2 (Z.ltb_lt _ _) Hlt).
Qed.

(** A payload in Redis is served to a proxy that has none in memory. *)
Lemma GetCert_redis env name cc cert data s :
  entries (tables s tt) !! domainOf name = None →
  GET (redisKeyPrefix ++ domainOf name) (rdb s) = Val data → decodeCachedCert data = Some cc →
  (clock s + day < fromUnix (cc_NotAfterUnix cc))%Z → toTLS cc = Some cert →
  (run (GetCert ca env name) s).1 = Some cert.
Proof.
  intros He Hg Hd Hlt Htls. unfold GetCert. cbn [call bind run exec]. rewrite He. unfold getRedis. cbn [call bind run exec].
  rewrite Hg, Hd. cbn [call bind run exec]. rewrite (proj2 (Z.ltb_lt _ _) Hlt), Htls. rewrite run_bind. by destruct (run (storeMem _ _ _) s).
Qed.

(** What a cold start leaves. *)
Lemma GetCert_cold env name cert s s1 :
  entries (tables s tt) !! domainOf name = None →
  GET (redisKeyPrefix ++ domainOf name) (rdb s) = Nil → (count (tables s tt) < memCacheMax)%Z →
  (∀ k v ttl (r : db), (SET k v ttl r).1 = true) →
  run (GetCert ca env name) s = (Some cert, s1) →
  let notAfter := (clock s + 365 * day)%Z in
  clock s1 = clock s ∧ entries (tables s1 tt) !! domainOf name = Some (MkMem cert notAfter) ∧
  ∃ cc, GET (redisKeyPrefix ++ domainOf name) (rdb s1) = Val (marshal cc) ∧ valid cc ∧ toTLS cc = Some cert ∧
        cc_NotAfterUnix cc = toUnix notAfter.
Proof.
  intros He Hg Hlt Hup Hrun. unfold GetCert in Hrun. cbn [call bind run exec] in Hrun.
  rewrite He in Hrun. unfold getRedis in Hrun. cbn [call bind run exec] in Hrun. rewrite Hg in Hrun. unfold getGenerated in Hrun.
  rewrite run_bind in Hrun. unfold generate in Hrun. cbn [call bind run exec] in Hrun.
  match type of Hrun with context [match ?o with Some _ => _ | None => _ end] =>
    destruct o as [g|] eqn:Hgen end; [|done].
  apply bind_Some in Hgen as (key & _ & (serial & _ & (parent & _ & (der & Hc & (kd & Hm & (tc & Hp & Hgc)%bind_Some)
    %bind_Some)%bind_Some)%bind_Some)%bind_Some).
  apply (f_equal (default g)) in Hgc. cbn [default from_option id] in Hgc. subst g.
  rewrite run_bind in Hrun. unfold saveToRedis in Hrun. cbn [call bind run exec gc_notAfter gc_certPEM gc_keyPEM gc_cert] in Hrun.
  rewrite (proj2 (Z.leb_gt _ _)) in Hrun by (unfold day, hour, second; lia).
  set (payload := MkCachedCert _ _ _) in *.
  pose proof (Hup (redisKeyPrefix ++ domainOf name) (marshal payload)
    (clock s + 365 * day - clock s - day)%Z (rdb s)) as Hok.
  cbn [call bind run exec] in Hrun.
  destruct (SET _ _ _ (rdb s)) as [ok r'] eqn:Hset. cbn [fst] in Hok. subst ok. cbn [run] in Hrun.
  rewrite run_bind in Hrun.
  set (sr := MkShared (tables s) (clock s) r') in *.
  destruct (storeCert_run (domainOf name) tc (clock s + 365 * day) sr Hlt) as (Hsm & Hent & _).
  rewrite Hsm in Hrun. cbn [run] in Hrun.
  pose proof (f_equal fst Hrun) as Hcert. apply (f_equal snd) in Hrun. cbn [fst snd] in Hcert, Hrun.
  injection Hcert as ->. subst s1. cbn [clock tables rdb sr]. split_and!; [done| |].
  - rewrite Hent. by rewrite lookup_insert_eq.
  - exists payload. split_and!; [|apply pem_valid|exact Hp|done].
    eapply GET_SET; [|exact Hset]. unfold day, hour, second. lia.
Qed.

(** C34. A certificate is made once, by handshakes that do not overlap and a memory
    with room.  When a handshake has created the certificate of a server of which
    there was none in memory or in Redis, with a counter below 2000 and a Redis that
    takes every SET, the handshakes of the next 364 days are answered with that
    very certificate, from memory, without reading Redis or changing anything; and
    another proxy on the same Redis, with nothing in memory, answers with the same
    certificate, to the second.  Two first handshakes at once make two, and a full
    counter keeps none ([cert_counter_drifts], [full_counter_caches_nothing]). *)
Theorem cert_reused env env' name cert s s1 :
  entries (tables s tt) !! domainOf name = None →
  GET (redisKeyPrefix ++ domainOf name) (rdb s) = Nil → (count (tables s tt) < memCacheMax)%Z →
  (∀ k v ttl (r : db), (SET k v ttl r).1 = true) →
  run (GetCert ca env name) s = (Some cert, s1) →
  (∀ d, (0 ≤ d < 364 * day)%Z → run (GetCert ca env' name) (later d s1) = (Some cert, later d s1)) ∧
  (∀ s2, entries (tables s2 tt) !! domainOf name = None → rdb s2 = rdb s1 →
     (clock s2 + second ≤ clock s + 364 * day)%Z → (run (GetCert ca env' name) s2).1 = Some cert).
Proof.
  intros He Hg Hlt Hup Hrun.
  destruct (GetCert_cold env name cert s s1 He Hg Hlt Hup Hrun) as (Hc & Hmem & cc & Hget & Hv & Htls & Hna). split.
  - intros d Hd. apply (GetCert_live env' name _ (later d s1) Hmem). cbn [later clock me_expiresAt].
    rewrite Hc. unfold day, hour, second in *. lia.
  - intros s2 He2 Hr2 Ht2. eapply GetCert_redis; [done|rewrite Hr2; exact Hget| | |exact Htls].
    + unfold decodeCachedCert. by rewrite unmarshal_marshal.
    + rewrite Hna. by apply unix_fresh.
Qed.
End reuse.

(** ** A replaced authority *)

Section replaced.
Context `{X509, !X509Laws, Redis db, !RedisLaws db, JSON cachedCert, !JSONLaws cachedCert valid}.
Hypothesis pem_valid : ∀ b b' n, valid (MkCachedCert (EncodeToMemory "CERTIFICATE" b) (EncodeToMemory "PRIVATE KEY" b') n).

(** Certificates in Redis are kept by domain alone: a proxy that starts with a new
    authority goes on handing out what the old one signed, for the rest of the 364
    days, to clients that trust the new one. *)
Theorem replaced_ca_serves_old (ca ca' : CA) env env' name cert (s s1 s2 : shared unit memEntry db) :
  entries (tables s tt) = ∅ → (∀ k, GET k (rdb s) = Nil) → (count (tables s tt) < memCacheMax)%Z →
  (∀ k v ttl (r : db), (SET k v ttl r).1 = true) →
  run (GetCert ca env name) s = (Some cert, s1) →
  entries (tables s2 tt) = ∅ → rdb s2 = rdb s1 → (clock s2 + second ≤ clock s + 364 * day)%Z →
  (run (GetCert ca' env' name) s2).1 = Some cert ∧ signedBy cert.1 (CAKey ca).
Proof.
  intros He Hg Hlt Hup Hrun He2 Hr2 Ht2.
  assert (entries (tables s tt) !! domainOf name = None) as Hn by (rewrite He; apply lookup_empty).
  destruct (GetCert_cold ca pem_valid env name cert s s1 Hn (Hg _) Hlt Hup Hrun)
    as (Hc & Hmem & cc & Hget & Hv & Htls & Hna). split.
  - eapply GetCert_redis; [by rewrite He2; apply lookup_empty|rewrite Hr2; exact Hget| | |exact Htls].
    + unfold decodeCachedCert. by rewrite unmarshal_marshal.
    + rewrite Hna. by apply unix_fresh.
  - destruct (run_stays_good ca pem_valid (clock s) env name s) as [_ Hi].
    + split_and!; [|intros k v; by rewrite Hg|reflexivity]. intros [] k e. rewrite He. by rewrite lookup_empty.
    + rewrite Hrun in Hi. destruct (Hi cert eq_refl) as (n & (c & Hi') & _). tauto.
Qed.
End replaced.

(** ** The counter under concurrency *)

Section races.
#[local] Instance blankX509 : X509 := {|
  Key := unit;
  Decode b := Some b;
  EncodeToMemory _ b := b;
  ParseCertificate _ := None;
  ParsePKCS8PrivateKey _ := Some (Some tt);
  MarshalPKCS8PrivateKey _ := Some [];
  CreateCertificate _ _ _ _ _ := Some [];
  X509KeyPair c _ := Some (c, tt);
  signedBy _ _ := True;
|}.
#[local] Instance blankJSON : JSON cachedCert := {| marshal _ := []; unmarshal _ := None |}.

Definition blankCA : CA := MkCA (Some (caTemplate 1 0)) [] (tt : Key).
Definition draw : genEnv := MkGen (Some tt : option Key) (Some 1%Z) [] 0.

(** Two handshakes with the same server, then the clean-up after the certificate
    has expired. *)
Definition sameServer : list user := [Handshake draw "a.example"; Handshake draw "a.example"].

Definition idleCache : shared unit memEntry mapdb := MkShared (λ _, MkTable ∅ 0) 0 (∅ : gmap bytes bytes).

Definition bothDone : shared unit memEntry mapdb :=
  (schedule ([0; 1; 0; 1] ++ replicate 6 0 ++ replicate 6 1)%nat (code blankCA <$> sameServer, idleCache)).2.

(** The second handshake overwrites the entry and counts it again, and the
    clean-up subtracts one for the entry: the counter is left too large for good,
    and when it has drifted to 2000 nothing is kept in memory any more. *)
Lemma cert_counter_drifts :
  (count (tables bothDone tt) = 2%Z ∧ size (entries (tables bothDone tt)) = 1%nat) ∧
  let s := (run evictExpired (later (366 * day) bothDone)).2 in
  count (tables s tt) = 1%Z ∧ entries (tables s tt) = ∅.
Proof. split; split; vm_compute; reflexivity. Qed.

Lemma full_counter_caches_nothing domain cert notAfter (s : shared unit memEntry mapdb) :
  (memCacheMax ≤ count (tables s tt))%Z → run (storeMem domain cert notAfter) s = (tt, s).
Proof. intros Hle. unfold storeMem. simpl. by rewrite (proj2 (Z.leb_le _ _) Hle). Qed.
End races.

(** ** Instances *)

Section witnesses.
#[local] Existing Instance toyX509.
#[local] Existing Instance toyX509_laws.

(** A payload as text: the length of the certificate, the key, and the time. *)
#[local] Instance tupleJSON : JSON cachedCert := {|
  marshal cc := posText (encode (cc_CertPEM cc, cc_KeyPEM cc, cc_NotAfterUnix cc));
  unmarshal s := t ← decode (textPos s); Some (MkCachedCert t.1.1 t.1.2 t.2);
|}.

#[local] Instance tupleJSON_laws : JSONLaws cachedCert (λ _, True).
Proof. split. intros [c k n] _. simpl. by rewrite textPos_posText, decode_encode. Qed.

Definition leafCA : CA := MkCA (Some (caTemplate 1 0)) [] (7%N : Key).
Definition leafDraw : genEnv := MkGen (Some 3%N : option Key) (Some 2%Z) [] 0.
Definition coldCache : shared unit memEntry mapdb := MkShared (λ _, MkTable ∅ 0) 0 (∅ : gmap bytes bytes).

Lemma first_handshake :
  ∃ cert, (run (GetCert leafCA leafDraw "a.example") coldCache).1 = Some cert.
Proof. eexists. unfold GetCert, domainOf. reflexivity. Qed.

Lemma cold_handshake (ca : CA) parent :
  Cert ca = Some parent → ∃ cert, (run (GetCert ca leafDraw "a.example") coldCache).1 = Some cert.
Proof. destruct ca as [c pem key]. cbn. intros ->. eexists. unfold GetCert, domainOf. reflexivity. Qed.

Lemma cert_reused_witness :
  ∃ cert s1, run (GetCert leafCA leafDraw "a.example") coldCache = (Some cert, s1) ∧
             run (GetCert leafCA leafDraw "a.example") (later day s1) = (Some cert, later day s1).
Proof.
  destruct first_handshake as [cert Hc].
  exists cert, (run (GetCert leafCA leafDraw "a.example") coldCache).2.
  assert (run (GetCert leafCA leafDraw "a.example") coldCache =
          (Some cert, (run (GetCert leafCA leafDraw "a.example") coldCache).2)) as Hrun.
  { rewrite <-Hc. apply surjective_pairing. }
  split; [exact Hrun|].
  refine (proj1 (cert_reused leafCA (λ _ _ _, I) leafDraw leafDraw "a.example" cert coldCache _
    _ _ _ (λ _ _ _ _, eq_refl) Hrun) day _).
  - exact (lookup_empty _).
  - cbn [GET mapdb_redis rdb coldCache]. rewrite (lookup_empty (M := gmap bytes)). reflexivity.
  - reflexivity.
  - unfold day, hour, second. lia.
Defined.

Lemma certs_match_server_witness :
  ∃ cert n, (run (GetCert leafCA leafDraw "a.example") coldCache).1 = Some cert ∧ issuedFor leafCA "a.example" cert.1 n ∧
    (day < fromUnix n + second)%Z.
Proof.
  destruct first_handshake as [cert Hc]. exists cert.
  set (c := schedule (replicate 8 0)%nat (code leafCA <$> [Handshake leafDraw "a.example"], coldCache)).
  destruct (certs_match_server leafCA (λ _ _ _, I) [Handshake leafDraw "a.example"] coldCache c.1 c.2 0 leafDraw
    "a.example" cert) as [n Hn].
  - intros k e He. discriminate He.
  - intros k v Hv. discriminate Hv.
  - rewrite <-surjective_pairing. apply schedule_steps.
  - reflexivity.
  - transitivity (Some (Ret (Tab := unit) (V := memEntry) (run (GetCert leafCA leafDraw "a.example") coldCache).1));
      [reflexivity|by rewrite Hc].
  - exists n. split; [exact Hc|exact Hn].
Defined.
End witnesses.
