(* ===== verification/Programs.v ===== *)
(** * The two programs ([cmd/proxy/main.go], [cmd/api/main.go])

    What the environment variables mean, and the start of the two programs up to
    the moment they listen: what ends them, and the server that they leave.
    Listening, signals and the shutdown are left out. *)
From S2P Require Import Prelude GoStrings Services SyncMap Ca CertCache.
From S2P Require Import GoIO Http Blocklist Clamd ScanConfig ResultCache ScanJob Manager Sync.
From S2P Require Import Logger Endpoint ScanTransport Server.
From S2P Require Import Pagination Postgres Store Propagation ScanSettings Api.

Definition minute : Z := 60 * 10 ^ 9.

Section env.
(** [os.Getenv]: empty for a variable that is not set. *)
Variable Getenv : bytes → bytes.

Definition envOr (key def : bytes) : bytes :=
  let v := Getenv key in if decide (v ≠ []) then v else def.

(** [None] ends the program. *)
Definition mustEnv (key : bytes) : option bytes :=
  let v := Getenv key in if decide (v = []) then None else Some v.

(** Network and address; [None] is the error. *)
Definition parseClamdAddr (addr : bytes) : option (bytes * bytes) :=
  if HasPrefix addr "unix://" then Some (str "unix", TrimPrefix addr "unix://")
  else if HasPrefix addr "tcp://" then Some (str "tcp", TrimPrefix addr "tcp://")
  else None.

(** A number of minutes or hours as a [time.Duration]: the product wraps, and a
    number that does not parse counts as zero. *)
Definition duration (key def : bytes) (unit : Z) : Z := wrap64 (ParseInt (envOr key def) * unit).

Record scanOptions (C : Type) := MkScanOptions {
  so_clamd : ClamdClient; so_cache : cacheConfig; so_manager : Manager C }.
Arguments MkScanOptions {C}.
Arguments so_clamd {C}.
Arguments so_cache {C}.
Arguments so_manager {C}.
End env.

Arguments MkScanOptions {C}.
Arguments so_clamd {C}.
Arguments so_cache {C}.
Arguments so_manager {C}.

(** ** The proxy *)

(** What ends the program before it listens. *)
Inductive startError := BadCA | BadRedisURL | BadClamdAddr | NoTempDir | NoPAC.

(** [redis.ParseURL], and [os.MkdirAll], which leaves every file alone. *)
Class RedisURL := { redisOptions : Type; ParseURL : bytes → option redisOptions }.

Class Dirs (fs : Type) := { MkdirAll : bytes → fs → bool * fs }.

Class DirsLaws (fs : Type) `{Files fs, Dirs fs} := {
  Read_Mkdir p q f : ReadFile q (MkdirAll p f).2 = ReadFile q f }.

(** [NewServer]: a server with or without a blocklist, a sender, a manager and a
    PAC file, that serves the certificate of its cache's authority. *)
Definition NewServer `{X509} {C} (ca : CA) (hasSender : bool) (bl : option Blocklist)
    (mgr : option (Manager C)) (pac : option bytes) : Server C :=
  MkServer bl hasSender pac (CACertPEM ca) (default [] (CACertDER ca)) mgr.

(** The transport of the server, on the answer of the timed transport: the scan
    transport if there is a manager. *)
Definition serverRoundTrip `{Unicode, Scanner, SHA256, VerdictCache C} (s : Server C) (e : jobEnv) (req : Request)
    (next : option (Response source)) : option (Response scanBody) * Server C :=
  match manager s with
  | None => (mapBody Upstream <$> next, s)
  | Some m =>
      let '(r, m) := scanRoundTrip e req next m in
      (r, MkServer (blocklist s) (sender s) (pacContent s) (caCertPEM s) (caCertDER s) (Some m))
  end.

(** [StartBlocklistSync] and [StartScanConfigSync] as far as their first loads. *)
Definition startSyncs `{Unicode, JSON ScanConfig} {C} (members : option (list bytes)) (cfg : Services.reply bytes)
    (s : Server C) : Server C :=
  MkServer (live (startSync loadBlocklist (blocklist s) members)) (sender s) (pacContent s) (caCertPEM s)
    (caCertDER s) ((λ m, live (startSync loadScanConfig m cfg)) <$> manager s).

(** The program when it starts to listen. *)
Record proxyProgram `{X509, RedisURL} (C : Type) := MkProxy {
  px_listen : bytes;
  px_ca : CA;
  px_redis : redisOptions;
  px_scan : option (ClamdClient * cacheConfig);
  px_sender : option (bytes * bytes * nat);
  px_server : Server C;
}.
Arguments MkProxy {_ _ C}.
Arguments px_listen {_ _ C}.
Arguments px_ca {_ _ C}.
Arguments px_redis {_ _ C}.
Arguments px_scan {_ _ C}.
Arguments px_sender {_ _ C}.
Arguments px_server {_ _ C}.

Section proxy.
Context `{Unicode, X509, Files fs, Dirs fs, RedisURL, JSON ScanConfig}.
Variable Getenv : bytes → bytes.
Notation env := (envOr Getenv).

(** The scan options, with the cache made from the cache's configuration; none
    without an address of clamd. *)
Definition setupScan {C} (newCache : cacheConfig → C) (f : fs) : (option (scanOptions C) + startError) * fs :=
  let clamdAddr := env "CLAMD_ADDR" "" in
  if decide (clamdAddr = []) then (inl None, f)
  else
    match parseClamdAddr clamdAddr with
    | None => (inr BadClamdAddr, f)
    | Some (network, address) =>
        let ttl := duration Getenv "SCAN_TTL_MINUTES" "60" minute in
        let tempDir := env "SCAN_TEMP_DIR" "/tmp/log-proxy-scan" in
        let '(ok, f) := MkdirAll tempDir f in
        if negb ok then (inr NoTempDir, f)
        else
          let cache := NewResultCache
                         (duration Getenv "SCAN_CACHE_URL_TTL_MINUTES" "60" minute)
                         (duration Getenv "SCAN_CACHE_HASH_TTL_HOURS" "24" (60 * minute))
                         (ParseInt (env "SCAN_CACHE_MAX_ENTRIES" "10000")) true in
          (inl (Some (MkScanOptions (NewClamdClient network address (30 * 10 ^ 9)) cache
                        (NewManager tempDir ttl (MaxSizeBytes DefaultScanConfig) (Some (newCache cache))))), f)
    end.

(** The PAC file; an empty path disables it. *)
Definition readPAC (f : fs) : option bytes + startError :=
  let path := env "PAC_FILE" "" in
  if decide (path = []) then inl None
  else match ReadFile path f with Some pac => inl (Some pac) | None => inr NoPAC end.

(** [main], on what creating an authority draws, the files, and the first
    answers of Redis to the two synchronisations. *)
Definition proxyMain {C} (newCache : cacheConfig → C) (g : genEnv) (members : option (list bytes))
    (cfg : Services.reply bytes) (f : fs) : (proxyProgram C + startError) * fs :=
  match LoadOrCreate g (env "CA_CERT" "ca.crt") (env "CA_KEY" "ca.key") f with
  | (None, f) => (inr BadCA, f)
  | (Some ca, f) =>
      match ParseURL (env "REDIS_URL" "redis://localhost:6379") with
      | None => (inr BadRedisURL, f)
      | Some opt =>
          match setupScan newCache f with
          | (inr e, f) => (inr e, f)
          | (inl so, f) =>
              match readPAC f with
              | inr e => (inr e, f)
              | inl pac =>
                  let syslogAddr := env "SYSLOG_ADDR" "" in
                  let snd := if decide (syslogAddr = []) then None
                             else Some (env "SYSLOG_NET" "udp", syslogAddr, 1000%nat) in
                  let s := NewServer ca (bool_decide (snd ≠ None)) None (so_manager <$> so) pac in
                  (inl (MkProxy (env "LISTEN_ADDR" ":8080") ca opt ((λ o, (so_clamd o, so_cache o)) <$> so) snd
                          (startSyncs members cfg s)), f)
              end
          end
      end
  end.
End proxy.

(** *** The end of [main] *)

(** What runs besides the server: the two synchronisations, the second one only
    with a manager, and the sender. *)
Record background (C : Type) := MkBackground {
  bg_blocklist : syncState (option Blocklist);
  bg_config : option (syncState (Manager C));
  bg_sender : option Sender;
}.
Arguments MkBackground {C}.
Arguments bg_blocklist {C}.
Arguments bg_config {C}.
Arguments bg_sender {C}.

(** [Close] after some last records; the drain goroutine goes on by itself. *)
Definition closeSender (last : list AccessRecord) (s : Sender) : Sender :=
  let s := fold_left (λ s r, Send r s) last s in
  default s (senderStep [] [] [] AClose s).

(** From the signal to the return of [main]: the context ends, [Shutdown] lets
    the requests that are being served log their records, and the deferred
    [sender.Close] waits for the queue. *)
Definition shutdown `{Unicode, JSON ScanConfig} {C} (last : list AccessRecord) (b : background C) : background C :=
  MkBackground (syncStep loadBlocklist (bg_blocklist b) Cancelled)
    ((λ s, syncStep loadScanConfig s Cancelled) <$> bg_config b) (closeSender last <$> bg_sender b).

(** ** The API *)

Inductive apiError := NoDatabaseURL | APIBadRedisURL | NoStore.

Record apiProgram (db rd : Type) := MkApi {
  ap_listen : bytes;
  ap_store : Store db rd;
  ap_handler : Request → bytes → Store db rd → Reply * Store db rd;
}.
Arguments MkApi {db rd}.
Arguments ap_listen {db rd}.
Arguments ap_store {db rd}.
Arguments ap_handler {db rd}.

Section api.
Context `{Unicode, Postgres db, Migration db, Redis rd, RedisSets rd, RedisURL}.
Context `{JSON ScanConfig, JSON Entry, JSON (PagedResult Entry), JSON (PagedResult AuditEntry)}.
Context `{JSON (list ScanSettingEntry), JSON MimeTypeEntry, JSON (list MimeTypeEntry)}.
Context `{Decoder AddBody, Decoder UpdateBody, Decoder RemoveBody, Decoder SettingBody, Decoder MimeBody}.
Context `{MuxReplies}.
(** Connecting to PostgreSQL at an address, ping included. *)
Variable connect : bytes → option db.
Variable Getenv : bytes → bytes.

Definition apiMain (r : rd) : apiProgram db rd + apiError :=
  let listenAddr := envOr Getenv "LISTEN_ADDR" ":8080" in
  match mustEnv Getenv "DATABASE_URL" with
  | None => inr NoDatabaseURL
  | Some pgURL =>
      match ParseURL (envOr Getenv "REDIS_URL" "redis://localhost:6379") with
      | None => inr APIBadRedisURL
      | Some _ =>
          match NewStore (connect pgURL) r with
          | None => inr NoStore
          | Some s => inl (MkApi listenAddr s (NewHandler (envOr Getenv "API_KEY" "")))
          end
      end
  end.
End api.

(** ** What the variables mean *)

Lemma parseClamdAddr_spec addr network address :
  parseClamdAddr addr = Some (network, address) ↔
  (network = "unix" ∧ addr = "unix://" ++ address) ∨ (network = "tcp" ∧ addr = "tcp://" ++ address).
Proof.
  unfold parseClamdAddr. destruct (HasPrefix addr "unix://") eqn:Hu; [|destruct (HasPrefix addr "tcp://") eqn:Ht].
  - apply HasPrefix_spec in Hu as [r ->]. rewrite TrimPrefix_app. split.
    + intros Heq. left. split; congruence.
    + intros [[-> ->%app_inv_head]|[_ Habs]]; [done|discriminate Habs].
  - apply HasPrefix_spec in Ht as [r ->]. rewrite TrimPrefix_app. split.
    + intros Heq. right. split; congruence.
    + intros [[_ Habs]|[-> ->%app_inv_head]]; [discriminate Habs|done].
  - split; [done|]. intros [[_ ->]|[_ ->]]; rewrite HasPrefix_app in *; done.
Qed.

(** A duration is the number that was written, in range. *)
Lemma duration_exact Getenv key def u n :
  envOr Getenv key def = fmtZ n → (0 ≤ n)%Z → (0 < u)%Z → (n * u < 2 ^ 63)%Z → duration Getenv key def u = (n * u)%Z.
Proof.
  intros He Hn Hu Hlt. unfold duration. rewrite He, ParseInt_fmtZ by nia.
  apply wrap64_id. unfold int64_range. nia.
Qed.

(** A number that does not parse is not refused: jobs expire at once. *)
Lemma setupScan_malformed_ttl :
  duration (λ _, str "1h") "SCAN_TTL_MINUTES" "60" minute = 0%Z.
Proof. vm_compute. reflexivity. Qed.

Section defaults.
Context `{Unicode, X509, Files fs, Dirs fs, RedisURL, JSON ScanConfig}.

(** Without the address of clamd nothing is scanned, and no scan variable is even
    looked at. *)
Lemma setupScan_off {C} (Getenv : bytes → bytes) (newCache : cacheConfig → C) (f : fs) :
  Getenv (str "CLAMD_ADDR") = [] → setupScan Getenv newCache f = (inl None, f).
Proof. intros Hg. unfold setupScan, envOr. by rewrite Hg. Qed.

(** With the address alone, jobs are kept for an hour and bodies scanned up to
    100 MB. *)
Lemma setupScan_defaults {C} (newCache : cacheConfig → C) (f f' : fs) :
  MkdirAll "/tmp/log-proxy-scan" f = (true, f') →
  match setupScan (λ k, if decide (k = str "CLAMD_ADDR") then str "tcp://clamd:3310" else []) newCache f with
  | (inl (Some o), g) =>
      g = f' ∧ so_clamd o = MkClamdClient "tcp" "clamd:3310" (30 * 10 ^ 9) ∧ ttl (so_manager o) = (60 * minute)%Z ∧
      maxSize (so_manager o) = (100 * 2 ^ 20)%Z ∧ maxEntries (so_cache o) = 10000%Z
  | _ => False
  end.
Proof.
  intros Hm. unfold setupScan. rewrite decide_False by done.
  assert (parseClamdAddr (envOr (λ k, if decide (k = str "CLAMD_ADDR") then str "tcp://clamd:3310" else [])
    "CLAMD_ADDR" "") = Some (str "tcp", str "clamd:3310")) as -> by (vm_compute; reflexivity).
  assert (envOr (λ k, if decide (k = str "CLAMD_ADDR") then str "tcp://clamd:3310" else []) "SCAN_TEMP_DIR"
    "/tmp/log-proxy-scan" = str "/tmp/log-proxy-scan") as -> by (vm_compute; reflexivity).
  rewrite Hm. cbn [negb]. split_and!; vm_compute; reflexivity.
Qed.
End defaults.

(** ** The authority of a proxy *)

Section authority.
Context `{Unicode, Scanner, SHA256, VerdictCache C, JSON statusResp, UnicodeQuote}.
Context `{X509, !X509Laws, Files fs, !FilesLaws fs, Dirs fs, !DirsLaws fs, RedisURL, JSON ScanConfig}.
Implicit Types (Getenv : bytes → bytes) (newCache : cacheConfig → C) (f : fs) (p : proxyProgram C).

(** What a start that succeeds has done. *)
Lemma proxyMain_inv Getenv newCache g members cfg f p f' :
  proxyMain Getenv newCache g members cfg f = (inl p, f') →
  ∃ f1 so pac log,
    LoadOrCreate g (envOr Getenv "CA_CERT" "ca.crt") (envOr Getenv "CA_KEY" "ca.key") f = (Some (px_ca p), f1) ∧
    setupScan Getenv newCache f1 = (inl so, f') ∧ readPAC Getenv f' = inl pac ∧
    px_server p = startSyncs members cfg (NewServer (px_ca p) log None (so_manager <$> so) pac).
Proof.
  unfold proxyMain. destruct (LoadOrCreate _ _ _ f) as [[ca|] f1]; [|done].
  destruct (ParseURL _) as [opt|]; [|done].
  destruct (setupScan Getenv newCache f1) as [[so|e] f2] eqn:Hs; [|done].
  destruct (readPAC Getenv f2) as [pac|e] eqn:Hp; [|done].
  intros Heq. pose proof (f_equal snd Heq) as Hf. cbn [snd] in Hf. subst f'.
  apply (f_equal fst) in Heq. cbn [fst] in Heq. injection Heq as <-. by eexists _, _, _, _.
Qed.

Lemma setupScan_files Getenv newCache f r f' q :
  setupScan Getenv newCache f = (r, f') → ReadFile q f' = ReadFile q f.
Proof.
  unfold setupScan. case_decide; [by intros [= _ <-]|].
  destruct (parseClamdAddr _) as [[network address]|]; [|by intros [= _ <-]].
  pose proof (Read_Mkdir (envOr Getenv "SCAN_TEMP_DIR" "/tmp/log-proxy-scan") q f) as Hr.
  destruct (MkdirAll _ f) as [ok f1]. cbn [snd] in Hr. destruct ok; cbn [negb]; by intros [= _ <-].
Qed.
(** The variables that the proxy reads. *)
Definition proxyVars : list bytes := [
  str "LISTEN_ADDR"; str "CA_CERT"; str "CA_KEY"; str "REDIS_URL"; str "SYSLOG_NET"; str "SYSLOG_ADDR"; str "PAC_FILE";
  str "CLAMD_ADDR"; str "SCAN_TTL_MINUTES"; str "SCAN_TEMP_DIR"; str "SCAN_CACHE_URL_TTL_MINUTES";
  str "SCAN_CACHE_HASH_TTL_HOURS"; str "SCAN_CACHE_MAX_ENTRIES"].

(** No other variable has an effect, the four that only the README knows
    included. *)
Lemma proxyMain_reads Getenv Getenv' newCache g members cfg f :
  (∀ k, k ∈ proxyVars → Getenv k = Getenv' k) →
  proxyMain Getenv newCache g members cfg f = proxyMain Getenv' newCache g members cfg f.
Proof.
  intros Hk. unfold proxyMain, setupScan, readPAC, duration, envOr.
  rewrite !(Hk (str "LISTEN_ADDR")), !(Hk (str "CA_CERT")), !(Hk (str "CA_KEY")), !(Hk (str "REDIS_URL")),
    !(Hk (str "SYSLOG_NET")), !(Hk (str "SYSLOG_ADDR")), !(Hk (str "PAC_FILE")), !(Hk (str "CLAMD_ADDR")),
    !(Hk (str "SCAN_TTL_MINUTES")), !(Hk (str "SCAN_TEMP_DIR")), !(Hk (str "SCAN_CACHE_URL_TTL_MINUTES")),
    !(Hk (str "SCAN_CACHE_HASH_TTL_HOURS")), !(Hk (str "SCAN_CACHE_MAX_ENTRIES")) by decide_closed.
  reflexivity.
Qed.

Lemma readme_vars_unread :
  Forall (λ k, k ∉ proxyVars) [str "SCAN_MAX_SIZE_MB"; str "BLOCK_LIST"; str "SYSLOG_PROTO"; str "SYSLOG_QUEUE"].
Proof. decide_closed. Qed.

(** A proxy that cannot read the blocklist when it starts listens all the same,
    and blocks nothing. *)
Lemma start_fails_open Getenv newCache g cfg f p f' host :
  proxyMain Getenv newCache g None cfg f = (inl p, f') → IsBlocked (blocklist (px_server p)) host = false.
Proof. intros Hm. apply proxyMain_inv in Hm as (? & ? & ? & ? & _ & _ & _ & ->). reflexivity. Qed.

(** The request for the certificate on the magic host. *)
Definition certRequest (path : bytes) : Request :=
  MkRequest "GET" (MkURL "http" magicHost path [] path) magicHost [] [] false.

Lemma cert_download (s : Server C) o now id :
  ServeHTTP s o now id (certRequest "/cert.crt") = Replied (serveCertDER s) [] ∧
  ServeHTTP s o now id (certRequest "/cert.pem") = Replied (serveCertPEM s) [].
Proof. split; reflexivity. Qed.

(** A created authority is loaded again from files that read the same. *)
Lemma created_again Getenv Getenv' newCache newCache' g g' members members' cfg cfg' f f1 f2 p p' :
  let certPath := envOr Getenv "CA_CERT" "ca.crt" in
  let keyPath := envOr Getenv "CA_KEY" "ca.key" in
  certPath ≠ keyPath → ReadFile certPath f = None ∨ ReadFile keyPath f = None →
  envOr Getenv' "CA_CERT" "ca.crt" = certPath → envOr Getenv' "CA_KEY" "ca.key" = keyPath →
  proxyMain Getenv newCache g members cfg f = (inl p, f1) →
  proxyMain Getenv' newCache' g' members' cfg' f1 = (inl p', f2) →
  properCA (px_ca p) (ge_now g) ∧ px_ca p' = px_ca p.
Proof.
  cbv zeta. intros Hne Hno Hcp Hkp Hm Hm'.
  apply proxyMain_inv in Hm as (fa & so & pac & log & Hl & Hs & _). apply proxyMain_inv in Hm' as (fb & so' & pac' & log' & Hl' & _).
  rewrite Hcp, Hkp in Hl'.
  assert (Ca.generate g (envOr Getenv "CA_CERT" "ca.crt") (envOr Getenv "CA_KEY" "ca.key") f = (Some (px_ca p), fa)) as Hg.
  { unfold LoadOrCreate in Hl. destruct Hno as [Hno|Hno]; rewrite Hno in Hl; [done|]. by case_match. }
  apply generate_stored in Hg as (Hp & keyPEM & Hc & Hk & Hparse); [|done]. split; [done|].
  unfold LoadOrCreate in Hl'. rewrite !(setupScan_files _ _ _ _ _ _ Hs), Hc, Hk, Hparse in Hl'. congruence.
Qed.
(** ** Trust across restarts *)

Context `{Redis db, !RedisLaws db, JSON cachedCert, !JSONLaws cachedCert valid}.
Hypothesis pem_valid : ∀ b b' n, valid (MkCachedCert (EncodeToMemory "CERTIFICATE" b) (EncodeToMemory "PRIVATE KEY" b') n).

(** A proxy's memory when it starts. *)
Definition coldStart (s : shared unit CertCache.memEntry db) : Prop := entries (SyncMap.tables s tt) = ∅.

(** C32. A client trusts the proxy once and for all, if there were no leaf
    certificates in Redis when the authority was created.  The certificate that the
    first run creates and offers for download is the one that a later run on the
    same files offers, and every certificate that a handshake gets in the later
    run, whatever the interleaving, from memory, from what the first run left in
    Redis or made anew, is signed by its key, names the server that the client
    asked for and had more than a day left when that run began, the rounding to
    seconds apart.  Each run starts with nothing in memory, and nobody else writes
    leaf certificates to Redis; with those of an older authority in Redis the
    proxy hands them out ([replaced_ca_serves_old]). *)
Theorem download_trusted Getenv Getenv' newCache newCache' g g' members members' cfg cfg' f f1 f2 p p' :
  let certPath := envOr Getenv "CA_CERT" "ca.crt" in
  let keyPath := envOr Getenv "CA_KEY" "ca.key" in
  certPath ≠ keyPath → ReadFile certPath f = None ∨ ReadFile keyPath f = None →
  envOr Getenv' "CA_CERT" "ca.crt" = certPath → envOr Getenv' "CA_KEY" "ca.key" = keyPath →
  proxyMain Getenv newCache g members cfg f = (inl p, f1) →
  proxyMain Getenv' newCache' g' members' cfg' f1 = (inl p', f2) →
  ∃ der K, signedBy der K ∧
    (∀ s, s = px_server p ∨ s = px_server p' → ∀ o now id,
       ∃ hs, ServeHTTP s o now id (certRequest "/cert.crt") = Replied (MkReply 200 hs der) []) ∧
    ∀ us ps us' ps' (s0 s1 s2 s3 : shared unit CertCache.memEntry db) i env name cert,
      coldStart s0 → (∀ domain, GET (redisKeyPrefix ++ domain) (SyncMap.rdb s0) = Nil) → rtc pool_step (CertCache.code (px_ca p) <$> us, s0) (ps, s1) →
      coldStart s2 → (∀ domain v, GET (redisKeyPrefix ++ domain) (SyncMap.rdb s2) = Val v → GET (redisKeyPrefix ++ domain) (SyncMap.rdb s1) = Val v) →
      rtc pool_step (CertCache.code (px_ca p') <$> us', s2) (ps', s3) →
      us' !! i = Some (Handshake env name) → ps' !! i = Some (Ret (Some cert)) →
      signedBy cert.1 K ∧ ∃ c, ParseCertificate cert.1 = Some c ∧ DNSNames c = [domainOf name] ∧ IsCA c = false ∧
        (SyncMap.clock s2 + day < NotAfter c + second)%Z.
Proof.
  cbv zeta. intros Hne Hno Hcp Hkp Hm Hm'.
  destruct (created_again _ _ _ _ _ _ _ _ _ _ _ _ _ _ _ Hne Hno Hcp Hkp Hm Hm') as [(der & serial & Hpem & _ & Hsig) Hca].
  exists der, (CAKey (px_ca p)). split_and!; [done| |].
  - intros s Hs o now id. rewrite (proj1 (cert_download s o now id)). eexists. unfold serveCertDER. do 3 f_equal.
    apply proxyMain_inv in Hm as (? & ? & ? & ? & _ & _ & _ & Hsv). apply proxyMain_inv in Hm' as (? & ? & ? & ? & _ & _ & _ & Hsv').
    destruct Hs as [->| ->]; [rewrite Hsv|rewrite Hsv', Hca]; cbn [startSyncs NewServer caCertDER];
      unfold CACertDER; by rewrite Hpem, Decode_Encode.
  - intros us ps us' ps' s0 s1 s2 s3 i env name cert Hc0 Hr0 Hsteps Hc2 Hr2 Hsteps' Hu Hp. rewrite Hca in Hsteps'.
    destruct (shared_stays_good (px_ca p) pem_valid (SyncMap.clock s0) us s0 ps s1) as [(_ & Hred & _) _]; [|done|].
    { split_and!; [|intros k v Hv domain cc cert' ->; by rewrite Hr0 in Hv|reflexivity].
      intros [] k e. unfold coldStart in Hc0. by rewrite Hc0, lookup_empty. }
    destruct (shared_stays_good (px_ca p) pem_valid (SyncMap.clock s2) us' s2 ps' s3) as [_ Hres]; [|done|].
    { split_and!; [|intros k v Hv domain cc cert' ->; by eapply Hred; [apply Hr2|..]|reflexivity].
      intros [] k e. unfold coldStart in Hc2. by rewrite Hc2, lookup_empty. }
    destruct (Hres _ _ _ Hu Hp cert eq_refl) as (n & (c & Hc & Hdns & _ & Hno' & _ & Hn & Hs) & Hlt). split; [done|]. exists c.
    split_and!; [done..|]. pose proof (fromUnix_below (NotAfter c)). subst n. lia.
Qed.
End authority.

(** *** Shutdown *)

Lemma Send_room r s :
  (length (queue s) < capacity s)%nat →
  accepted (Send r s) = accepted s ++ [r] ∧ queue (Send r s) = queue s ++ [r] ∧ capacity (Send r s) = capacity s.
Proof. destruct s as [q cap st fl ex c acc dr h w]. cbn. intros Hq. by rewrite decide_True. Qed.

Lemma Send_all last s :
  (length (queue s) + length last ≤ capacity s)%nat →
  accepted (fold_left (λ s r, Send r s) last s) = accepted s ++ last.
Proof.
  revert s. induction last as [|r last IH]; intros s; cbn [length fold_left]; [by rewrite app_nil_r|].
  intros Hle. destruct (Send_room r s) as (Ha & Hq & Hc); [lia|].
  rewrite IH by (rewrite Hq, Hc, length_app; cbn; lia). by rewrite Ha, <-app_assoc.
Qed.

(** After the signal no goroutine reloads any more, and no record of a request
    that ends during the shutdown is lost if the queue has room for it: it is
    accepted before the sender is stopped. *)
Lemma shutdown_complete `{Unicode, JSON ScanConfig} {C} last (b : background C) :
  running (bg_blocklist (shutdown last b)) = false ∧
  (∀ y, bg_config (shutdown last b) = Some y → running y = false) ∧
  (∀ s, bg_sender b = Some s → (length (queue s) + length last ≤ capacity s)%nat →
     ∃ s', bg_sender (shutdown last b) = Some s' ∧ stop s' = true ∧ accepted s' = accepted s ++ last).
Proof.
  destruct b as [[l bo [] w] cfg snd]; cbn [shutdown bg_blocklist bg_config bg_sender]; (split_and!; [done| |]).
  1, 3: intros y (y0 & -> & ->)%fmap_Some; by destruct y0 as [? ? [] ?].
  all: intros s -> Hroom; eexists; (split; [reflexivity|]); unfold closeSender;
    pose proof (Send_all last s Hroom) as Ha; destruct (fold_left _ last s); cbn in Ha |- *; done.
Qed.

(** ** The two programs together *)

Section together.
Context `{Unicode, Scanner, SHA256, VerdictCache C, JSON statusResp, UnicodeQuote}.
Context `{X509, Files fs, Dirs fs, RedisURL}.
Context `{Postgres db, !PostgresLaws db, Migration db, !MigrationLaws db}.
Context `{Redis rd, !RedisLaws rd, RedisSets rd, !RedisSetsLaws rd, JSON ScanConfig, !JSONLaws ScanConfig jsonText}.
Context `{JSON Entry, JSON (PagedResult Entry), JSON (PagedResult AuditEntry)}.
Context `{JSON (list ScanSettingEntry), JSON MimeTypeEntry, JSON (list MimeTypeEntry)}.
Context `{Decoder AddBody, Decoder UpdateBody, Decoder RemoveBody, Decoder SettingBody, Decoder MimeBody}.
Context `{MuxReplies}.

(** PostgreSQL and Redis answer, and Redis keeps strings and sets apart. *)
Record servicesUp : Prop := {
  up_pipeline cs (r : rd) : (PIPELINE cs r).1 = true;
  up_set k v ttl (r : rd) : (SET k v ttl r).1 = true;
  up_frame k v ttl (r : rd) : setAt redisSetKey (SET k v ttl r).2 = setAt redisSetKey r;
  up_members k (r : rd) : is_Some (SMEMBERS k r);
  up_publish ch msg (r : rd) : GET scanConfigRedisKey (pipe [CPublish ch msg] r) = GET scanConfigRedisKey r;
  up_enabled (d : db) : is_Some (SELECT_enabled d);
  up_settings (d : db) : is_Some (SELECT_settings d);
  up_mime (d : db) : is_Some (SELECT_mime d);
}.

(** What the API leaves in Redis when it starts. *)
Lemma NewStore_synced pg (r : rd) s {C'} (m : Manager C') :
  servicesUp → tablesText (tablesOf pg) → NewStore (Some pg) r = Some s →
  coherent s ∧
  let m' := loadScanConfig (GET scanConfigRedisKey (rdb s)) m in
  describes (tablesOf (pool s)) (config m') ∧ maxSize m' = MaxSizeBytes (config m').
Proof.
  intros Hup Htext Hn. pose proof (NewStore_text _ _ _ Hn Htext) as Htext'. split.
  - by destruct (NewStore_coherent pg r s (up_pipeline Hup) (up_frame Hup) (up_enabled Hup) Hn).
  - unfold NewStore in Hn. cbn [mbind option_bind] in Hn. apply bind_Some in Hn as (pg' & _ & Hs).
    apply (f_equal (default s)) in Hs. cbn [default from_option id] in Hs.
    set (s1 := (syncToRedis (MkStore pg' r)).2) in *.
    eapply (settings_loaded s1); [exact (up_publish Hup)|by rewrite <-(syncScanConfig_pool s1), Hs|].
    rewrite <-Hs. destruct (syncScanConfigToRedis s1) as [ok s'] eqn:Hsync. cbn [snd]. f_equal.
    unfold syncScanConfigToRedis in Hsync.
    assert (is_Some (buildScanConfig (pool s1))) as [cfg Hb].
    { unfold buildScanConfig. destruct (up_settings Hup (pool s1)) as [? ->]. cbn [mbind option_bind].
      destruct (up_mime Hup (pool s1)) as [? ->]. by eexists. }
    rewrite Hb in Hsync. pose proof (up_set Hup scanConfigRedisKey (marshal cfg) 0%Z (rdb s1)) as Hset.
    destruct (SET _ _ _ (rdb s1)) as [[] r']; [|done]. apply (f_equal fst) in Hsync. by cbn [fst] in Hsync.
Qed.

(** C2. The system enforces the operators' tables from its first request on, if
    PostgreSQL and Redis answer every call of the two starts.  When the API has
    started, on any tables and whatever was in Redis, and the proxy then starts and
    reads Redis before any change, the server that begins to listen answers a plain
    request with the blocked page exactly if an enabled entry of the table says so,
    and its scan manager, if there is one, scans by the rules and the limit of the
    tables, whose patterns are UTF-8.  Without that condition both programs start
    all the same: the API only logs that a synchronisation has failed, and a proxy
    that cannot read the blocklist blocks nothing ([start_fails_open]). *)
Theorem start_enforces connect Getenv (r : rd) (a : apiProgram db rd) Getenv' newCache g f (p : proxyProgram C) f' :
  servicesUp → (∀ url pg, connect url = Some pg → tablesText (tablesOf pg)) →
  apiMain connect Getenv r = inl a →
  let s := ap_store a in
  proxyMain Getenv' newCache g (SMEMBERS redisSetKey (rdb s)) (GET scanConfigRedisKey (rdb s)) f = (inl p, f') →
  (∀ o now id req, r_Method req ≠ "CONNECT" → u_Host (r_URL req) ≠ [] → u_Host (r_URL req) ≠ magicHost →
     (∃ d, enabledIn (tablesOf (pool s)) d ∧ lineBlocks (hostName (r_Host req)) d = true) ↔
     ∃ log, ServeHTTP (px_server p) o now id req = Replied (serveBlockedPage (r_Host req)) log) ∧
  (∀ m, manager (px_server p) = Some m →
     describes (tablesOf (pool s)) (config m) ∧ maxSize m = MaxSizeBytes (config m)).
Proof.
  intros Hup Htext Ha s Hm. unfold apiMain in Ha. destruct (mustEnv _ _) as [url|]; [|done].
  destruct (ParseURL _); [|done]. destruct (NewStore (connect url) r) as [s'|] eqn:Hn; [|done].
  assert (s = s') as -> by (unfold s; injection Ha as <-; done).
  destruct (connect url) as [pg|] eqn:Hpg; [|done]. specialize (Htext url pg Hpg).
  apply proxyMain_inv in Hm as (f1 & so & pac & log & _ & _ & _ & Hsv). rewrite Hsv. split.
  - intros o now id req Hmeth Hhost Hmagic.
    destruct (NewStore_synced pg r s' (NewManager (C := C) [] 0 0 None) Hup Htext Hn) as [Hco _].
    destruct (startWorld_ok s' None) as [_ Hsync].
    assert (w_missed (startWorld s' None) = false) as Hread.
    { cbn. unfold missedAfter, answer. by destruct (up_members Hup redisSetKey (rdb s')) as [ms ->]. }
    pose proof (synced_enforced (startWorld s' None) (r_Host req) Hco (Hsync Hread eq_refl)) as Henf. unfold enforced in Henf.
    cbn [startWorld w_store w_sync] in Henf. rewrite <-Henf. unfold answer.
    unfold ServeHTTP. rewrite !decide_False by done. cbn [startSyncs NewServer blocklist].
    destruct (IsBlocked _ _); [split; [by eexists|done]|split; [done|by intros [? ?]]].
  - intros m Hmgr. cbn [startSyncs NewServer manager] in Hmgr.
    apply fmap_Some in Hmgr as (m0 & _ & ->). unfold startSync. cbn [live].
    by destruct (NewStore_synced pg r s' m0 Hup Htext Hn).
Qed.
End together.

(** ** Instances *)

#[export] Instance plainURL : RedisURL := {| redisOptions := bytes; ParseURL u := Some u |}.
#[export] Instance mapfs_dirs : Dirs mapfs := {| MkdirAll _ f := (true, f) |}.
#[export] Instance mapfs_dirs_laws : DirsLaws mapfs.
Proof. by split. Qed.

Section witnesses.
#[local] Existing Instance toyX509.
#[local] Existing Instance toyX509_laws.
#[local] Existing Instance plainHash.
#[local] Existing Instance drainingScanner.
#[local] Existing Instance emptyCache.
#[local] Existing Instance plainQuote.
#[local] Existing Instance plainStatus.
#[local] Existing Instance numberJSON.
#[local] Existing Instance numberJSON_laws.
#[local] Existing Instance tupleJSON.
#[local] Existing Instance tupleJSON_laws.
#[local] Existing Instance Api.asciiLower.

(** A proxy with the defaults. *)
Definition noEnv (_ : bytes) : bytes := [].
Definition noCache (_ : cacheConfig) : unit := tt.

(** The memory of a second run, an hour later, on the Redis of the first one. *)
Definition nextRun (s : shared unit CertCache.memEntry mapdb) : shared unit CertCache.memEntry mapdb :=
  MkShared (SyncMap.tables coldCache) hour (SyncMap.rdb s).

Lemma handshake_twice (ca : CA) now :
  properCA ca now → ∃ cert s1, run (GetCert ca leafDraw "a.example") coldCache = (Some cert, s1) ∧
    (run (GetCert ca leafDraw "a.example") (nextRun s1)).1 = Some cert.
Proof.
  intros (der & serial & _ & Hc & _). destruct (cold_handshake ca _ Hc) as [cert Hcert].
  destruct (run (GetCert ca leafDraw "a.example") coldCache) as [r s1] eqn:Hrun. cbn in Hcert. subst r.
  exists cert, s1. split; [done|].
  destruct (GetCert_cold (valid := λ _, True) ca (λ _ _ _, I) leafDraw "a.example" cert coldCache s1) as (_ & _ & cc & Hget & _ & Htls & Hna);
    [exact (lookup_empty _)| |reflexivity|done|done|].
  { cbn [GET mapdb_redis SyncMap.rdb coldCache]. by rewrite (lookup_empty (M := gmap bytes)). }
  eapply GetCert_redis; [exact (lookup_empty _)|exact Hget| | |exact Htls].
  - unfold decodeCachedCert. by rewrite unmarshal_marshal.
  - rewrite Hna. apply unix_fresh. cbn. unfold day, hour, second. lia.
Qed.

Lemma download_trusted_witness :
  ∃ (p p' : proxyProgram unit) der hs hs' cert s1,
    ServeHTTP (px_server p) true 0 "id" (certRequest "/cert.crt") = Replied (MkReply 200 hs der) [] ∧
    ServeHTTP (px_server p') true 0 "id" (certRequest "/cert.crt") = Replied (MkReply 200 hs' der) [] ∧
    run (GetCert (px_ca p) leafDraw "a.example") coldCache = (Some cert, s1) ∧
    (run (GetCert (px_ca p') leafDraw "a.example") (nextRun s1)).1 = Some cert ∧
    ∃ c, ParseCertificate cert.1 = Some c ∧ DNSNames c = [str "a.example"] ∧ (hour + day < NotAfter c + second)%Z.
Proof.
  assert (∃ p f1, proxyMain noEnv noCache firstStart None Nil (∅ : mapfs) = (inl p, f1)) as (p & f1 & Hm).
  { unfold proxyMain, LoadOrCreate, Ca.generate. eexists _, _. reflexivity. }
  assert (∃ p' f2, proxyMain noEnv noCache secondStart None Nil f1 = (inl p', f2)) as (p' & f2 & Hm').
  { apply proxyMain_inv in Hm as (fa & so & pac & log & Hl & Hs & _).
    apply generate_stored in Hl as (_ & keyPEM & Hc & Hk & Hparse); [|discriminate].
    unfold proxyMain, LoadOrCreate. rewrite !(setupScan_files _ _ _ _ _ _ Hs).
    change (envOr noEnv "CA_CERT" "ca.crt") with (str "ca.crt") in *.
    change (envOr noEnv "CA_KEY" "ca.key") with (str "ca.key") in *.
    rewrite Hc, Hk, Hparse. eexists _, _. reflexivity. }
  destruct (download_trusted (C := unit) (db := mapdb) (valid := λ _, True) (λ _ _ _, I) noEnv noEnv noCache noCache firstStart secondStart
    None None Nil Nil ∅ f1 f2 p p') as (der & K & _ & Hd & Hs); [discriminate|by left|done|done|exact Hm|exact Hm'|].
  destruct (Hd (px_server p) (or_introl eq_refl) true 0%Z "id") as [hs Hhs].
  destruct (Hd (px_server p') (or_intror eq_refl) true 0%Z "id") as [hs' Hhs'].
  destruct (created_again noEnv noEnv noCache noCache firstStart secondStart None None Nil Nil ∅ f1 f2 p p') as [Hpr Hca];
    [discriminate|by left|done|done|exact Hm|exact Hm'|].
  destruct (handshake_twice (px_ca p) _ Hpr) as (cert & s1 & Hrun1 & Hrun2). rewrite <-Hca in Hrun2.
  destruct (Hs [Handshake leafDraw "a.example"] [Ret (Some cert)] [Handshake leafDraw "a.example"] [Ret (Some cert)]
    coldCache s1 (nextRun s1) (run (GetCert (px_ca p') leafDraw "a.example") (nextRun s1)).2 0%nat leafDraw "a.example" cert)
    as [_ (c & Hpc & Hdns & _ & Hlt)].
  - reflexivity.
  - intros domain. cbn [GET mapdb_redis SyncMap.rdb coldCache]. by rewrite (lookup_empty (M := gmap bytes)).
  - pose proof (run_steps (GetCert (px_ca p) leafDraw "a.example") coldCache) as Hst. by rewrite Hrun1 in Hst.
  - reflexivity.
  - done.
  - pose proof (run_steps (GetCert (px_ca p') leafDraw "a.example") (nextRun s1)) as Hst. by rewrite Hrun2 in Hst.
  - reflexivity.
  - reflexivity.
  - exists p, p', der, hs, hs', cert, s1. split_and!; [assumption..|]. by exists c.
Defined.
#[local] Existing Instance pair_redis.
#[local] Existing Instance pair_redis_laws.
#[local] Existing Instance pair_sets.
#[local] Existing Instance noJSON | 100.
#[local] Existing Instance commaAdd.
#[local] Existing Instance commaUpdate.
#[local] Existing Instance commaRemove.
#[local] Existing Instance commaSetting.
#[local] Existing Instance commaMime.
#[local] Existing Instance plainMux.

Lemma pairUp : servicesUp (db := pgdb) (rd := mapdb * setdb).
Proof. split; by try (intros; eexists). Qed.

(** The API's variables, and a proxy that scans. *)
Definition apiEnv (k : bytes) : bytes := if decide (k = str "DATABASE_URL") then str "postgres://db" else [].
Definition scanEnvVars (k : bytes) : bytes := if decide (k = str "CLAMD_ADDR") then str "tcp://clamd:3310" else [].

Definition emptyPG : pgdb := MkPG (MkTables ∅ [] ∅ ∅) 1 1000.

Lemma start_enforces_witness :
  ∃ (p : proxyProgram unit) (t : tables) m,
    manager (px_server p) = Some m ∧ describes t (config m) ∧ maxSize m = MaxSizeBytes (config m).
Proof.
  assert (∃ a, apiMain (λ _, Some emptyPG) apiEnv (∅ : mapdb, ∅ : setdb) = inl a) as [a Ha].
  { unfold apiMain, NewStore. eexists. reflexivity. }
  assert (∃ p f, proxyMain scanEnvVars noCache firstStart (SMEMBERS redisSetKey (rdb (ap_store a)))
                   (GET scanConfigRedisKey (rdb (ap_store a))) (∅ : mapfs) = (inl p, f) ∧ is_Some (manager (px_server p)))
    as (p & f & Hp & [m Hm]).
  { unfold proxyMain, LoadOrCreate, Ca.generate. eexists _, _. split; [reflexivity|by eexists]. }
  exists p, (tablesOf (pool (ap_store a))), m. split; [exact Hm|].
  exact (proj2 (start_enforces (λ _, Some emptyPG) apiEnv (∅, ∅) a scanEnvVars noCache firstStart ∅ p f pairUp
    (λ _ pg Hpg, eq_ind emptyPG (λ pg, tablesText (tablesOf pg)) (map_Forall_empty _) pg (f_equal (default pg) Hpg)) Ha Hp)
    m Hm).
Defined.
End witnesses.
